(* ===== verification/_CoqProject ===== *)
-Q . S2P
Prelude.v
LabGob.v
LabGobCheck.v
LabRpc.v
Raft.v
RaftVote.v
RaftAppend.v
RaftSnapshot.v
RaftNode.v
RaftFrames.v
RaftSystem.v
RaftElection.v
RaftLog.v
RaftGhost.v
RaftReplicate.v
RaftInvariant.v
RaftSteps.v
RaftSafety.v
RaftService.v
RaftTester.v
Harness.v
RaftHarness.v
Dedup.v
KvRaft.v
KvCluster.v
KvHarness.v
ShardConfig.v
ShardCtrler.v
CtrlCluster.v
ServiceHarness.v
ShardKv.v
Clerks.v
ShardApply.v
ShardCluster.v
ShardHarness.v
ShardSystem.v
KvSrv.v
KvSrvHarness.v
MrWorker.v
MrApps.v
MrCoordinator.v
Bitset.v
Porcupine.v
PorcList.v
PorcSpec.v
PorcSearch.v
PorcCheck.v
PorcOps.v
PorcParallel.v
PorcKv.v
PorcVis.v
KvClients.v
KvLinear.v
KvSrvLinear.v
