(* ===== verification/Prelude.v ===== *)
(** * A verification of the 6.5840 distributed-systems code base

    The repository holds the labs of a course on distributed systems, in Go, under
    [src/src]: MapReduce ([mr], [mrapps], [main]), a single key/value server ([kvsrv]),
    Raft ([raft]), a replicated key/value service ([kvraft]), the controller of a sharded
    service ([shardctrler]) and the sharded service ([shardkv]).  They run over a
    simulated network ([labrpc]) and an encoder ([labgob]), and the tests check histories
    with a linearizability checker ([porcupine], [models]).

    ** How the program is modelled

    A Go function becomes a Rocq function of the same name.  Code that can panic (an
    index out of range, a nil dereference, [log.Fatalf]) returns an [outcome].  A
    critical section under a mutex is one definition on the state it protects; a
    goroutine that gives the lock up is cut there, and the pieces are the events of a
    system.  Slices are lists read and written at [Z] indices ([slice_get],
    [slice_set], ...), maps are [gmap]s, and the order in which [range] visits a map is
    an argument of the class [MapRange].  What [rand], [time.Now] and [select] decide is
    an argument or the choice of an event.

    ** The files

    - [Prelude]: outcomes, slices, maps and their order, records with updates, list and
      fold lemmas, quorums.
    - [LabGob], [LabGobCheck]: [labgob.go].  [encoding/gob] is the class [Gob], whose law
      is the round trip; [gob_of_countable] is an instance.  [checkType] and
      [checkDefault] run on tables of types that may be cyclic.
    - [LabRpc]: [labrpc.go].  The network, servers and services, and the goroutines of a
      call as phases; a specification of remote calls that it refines.
    - [Raft], [RaftVote], [RaftAppend], [RaftSnapshot], [RaftNode]: the code of [raft]
      ([vote.go], [append.go], [persistence.go], [persister.go], [raft.go], [RPC.go],
      [Timer.go], [util.go]), one definition per critical section.
    - [RaftFrames]: what each critical section leaves alone.  [RaftSystem]: a cluster,
      its tasks in flight and its events; calls are lost, delayed and reordered, nodes
      crash and restart.  The entries of an [AppendEntries] call are a slice of the log
      until they are encoded: [share] keeps them in step with the array of the log, and
      [EGrow] moves a log to another array.  [RaftElection]: election safety, over a
      history of votes.
    - [RaftLog]: what the loops of replication, commitment and delivery compute.
      [RaftGhost], [RaftReplicate], [RaftInvariant], [RaftSteps], [RaftSafety]: the
      safety of replicated logs, over a history of leaders' logs and acknowledgements.
    - [RaftService]: the interface of Raft to its services.  [StateMachine] is what a
      service does with messages and snapshots, [Lawful] what it promises,
      [replicas_agree] what it gets.  Instances are [KvCluster], [CtrlCluster],
      [ShardCluster] and the harness of [RaftTester].
    - [RaftTester]: the checks of [raft/config.go] on what servers apply and who leads.
    - [Harness]: what the test harnesses share, slots with a server, its client ends and
      its persister.  [RaftHarness]: the rest of [raft/config.go], with the checks that
      watch servers while they run.  [KvHarness]: the functions that [kvraft/config.go]
      and [shardctrler/config.go] share, instantiated in [ServiceHarness].
      [ShardHarness], [KvSrvHarness]: [shardkv/config.go], [kvsrv/config.go].
    - [Dedup]: the table of the last command of each client, once for all services.
      [KvRaft]: [kvraft].  [ShardConfig], [ShardCtrler]: [shardctrler].  [ShardKv],
      [ShardApply]: [shardkv].  [ShardSystem]: groups, their logs and the controller's
      configurations, with migration.
    - [Clerks]: the loops of the clerks of kvraft, shardctrler and shardkv, against a
      network that may lose calls.
    - [KvSrv]: [kvsrv].  [MrWorker], [MrCoordinator]: [mr], [mrsequential.go], [wc.go].
      [MrApps]: the other applications of [mrapps].
    - [Bitset], [Porcupine]: the code of [porcupine].  [PorcSpec] says what is
      linearizable; [PorcList], [PorcSearch], [PorcCheck], [PorcOps], [PorcParallel],
      [PorcKv] lead from the doubly linked list to [CheckOperations] on [KvModel].
      [PorcVis]: the data of [visualization.go].
    - [KvClients]: clerks, handlers and servers of kvraft over a Raft cluster, and the
      wrappers of [kvraft/test_test.go] that note histories of calls.  [KvLinear]: these
      histories are linearizable.  [KvSrvLinear]: the same for [kvsrv], with its reads.

    ** What the theorems show

    - Raft: one leader per term at all times; a crash loses no durable state;
      [AppendEntries] and the commit rule compute what they should.  In steady executions
      (see Limits) logs match, what was applied is in every later leader's log, services
      receive the same commands, and the checks of the tests never complain.
    - Harnesses: whatever is started, crashed, connected and cut off, a server that was
      replaced can neither send, nor be called, nor reach a persister in use; the leader
      ends up in the smaller partition; names that a configuration of shardkv gives to
      servers lead to those servers.
    - Services: over steady executions of Raft, servers of kvraft, shardctrler and shardkv
      hold the states of two sequences of commands of which one begins with the other.
      Operations are executed once; rebalancing is even, and a leave moves no shard of a
      group that stays; as long as there is a group, shards are served by one group at a
      time and the sharded service behaves as one map; a clerk returns once the configuration is settled, a leader answers and no
      server of the group rejects the shard.
    - Clients: over steady executions of Raft, whatever the network loses, delays, repeats
      and reorders and whichever servers crash, the history of calls of kvraft clients, with some of the calls that
      are going on, is one of a key/value store; when all calls are over, the checker of
      the tests says so.  So it does for kvsrv.
    - Network: a call is executed at most once, true means its reply, and a server that is
      deleted before the last check of a call does not answer it.
    - MapReduce: the distributed job writes what the sequential one does; the coordinator
      loses no task; the inverted index lists the documents of every word.
    - Porcupine: the search ends and decides linearizability, and so does the parallel
      driver on key/value histories that are not empty; a visualization shows for each operation the longest
      partial linearization with it that was found.
    - Defects the model shows are theorems or lemmas as well: the head entry and the
      missing guard of [InstallSnapshot], entries of a call overwritten before they are
      encoded, a repeated reduce task that leaves a partial output, results of kvraft that
      are always taken as outdated, shards abandoned to group 0, the deadlock and the lost wake-up of the
      MapReduce coordinator, a check of an empty history that never returns.

    ** Fuel and bounds

    Loops without a structural measure take fuel and give [None] without it; theorems
    say how much is enough.  [search_fuel] counts the iterations of the linearizability
    search by the tree of its attempts; [join_fuel] bounds the balancing of [Join] by
    the number of shards; [checkType] needs one unit more than there are types; a call of
    [LabRpc] makes at most nine steps besides polling; the loops of [Clerks] take the
    number of calls or rounds as fuel, and those of [RaftHarness] the number of polls.
    Go's [int] is [Z]; the counters of [LabRpc], the sequence numbers of the kvraft clerk, the words of a bit set, FNV
    hashes and the [uint] indices of porcupine keep their width.  [math.Min] on
    [float64] is taken as exact, as it is below 2^53.

    ** Limits

    - The safety of Raft's logs is for steady executions ([exec_steady]): no
      [InstallSnapshot] call is handled, and the entries of an [AppendEntries] call are not
      overwritten with entries of other terms before the call is encoded.  The code is not
      safe otherwise: [stale_snapshot_unsafe] and [shared_entries_unsafe] are runs in which
      two servers apply different commands, and the stale head entry breaks the invariant
      of logs even for a snapshot that is new.  Everything over Raft (kvraft, shardctrler,
      shardkv groups, the test harness, histories of clients) inherits this limit; election
      safety and persistence hold in all executions.
    - A call of the network is handled at most once, as [labrpc] has it.  The encoding of
      arguments is one step, where Go may read entries while they are written.
    - Nil and empty slices and maps are one value.
    - [ShardSystem] takes a group for one log of commands, which [ShardCluster] justifies.
      [shard_exclusive] and its companions assume legal operations of the controller and
      that there is always a group once one has joined ([controlled]);
      [abandoned_shard_lost] shows why.
    - [encoding/json] is a parameter of the MapReduce theorems, with its round trip as
      hypothesis; words are ASCII.  The network of [KvSrv] may repeat messages, which
      [labrpc] does not; a read of a clerk of kvsrv carries no number, so [KvSrvLinear]
      numbers its calls, as [labrpc] ties an answer to its call.
    - In [KvClients] identifiers of clerks are distinct, a handler stops at the crash of
      its server, and a result waits on the channel of its handler; [KvLinear] asks for
      fewer than 2^64 requests, so that no sequence number wraps, and for steady
      executions.  The sender of a result goes on before the handler receives it,
      and a handler may find its channel closed at any time: more executions than the code
      has.
    - States of porcupine models are compared by their equality; the goroutines of
      [checkParallel] answer with enough fuel.
    - A handler of [labrpc] is one step on its receiver, and sleeps have no length.
    - In the harnesses [cfg.mu] is not modelled; servers take any steps between those of
      the harness; the [labrpc.Server] of a server has the server's index; [connect] is for
      a server that runs.  In [Clerks] the network is a function of the number of the call,
      the server and the arguments.

    ** Not modelled

    [Visualize] and [VisualizePath] of [porcupine/visualization.go] and the page they
    write; the programs under [main] other than [mrsequential.go], which parse arguments or
    belong to labs that are not in the repository; sockets and the loading of plugins in
    [mr]; the seeds of random numbers ([makeSeed]); methods that only print ([String],
    [DPrintf], statistics). *)
From Stdlib Require Export ZArith Lia.
From stdpp Require Export base tactics option strings numbers list_numbers gmap fin_maps fin_map_dom sorting list.

#[export] Set Default Goal Selector "!".
#[export] Set Warnings "-clear-no-such-hyp,-postfix-notation-not-level-1".
Open Scope Z_scope.

(** ** Outcomes: a Go computation returns or panics *)

(** Indexing a slice out of range, writing to a nil map and the other run-time
    errors of Go abort the goroutine.  Fallible code returns an [outcome]. *)
Inductive outcome (A : Type) : Type :=
| Ret (a : A)
| Panic.
Arguments Ret {A} a.
Arguments Panic {A}.

#[export] Instance outcome_ret : MRet outcome := @Ret.
#[export] Instance outcome_bind : MBind outcome := λ A B f m,
  match m with Ret a => f a | Panic => Panic end.

Lemma outcome_bind_Ret {A B} (m : outcome A) (f : A → outcome B) (b : B) :
  m ≫= f = Ret b ↔ ∃ a, m = Ret a ∧ f a = Ret b.
Proof. destruct m; naive_solver. Qed.

Lemma bind_Ret {A B} (a : A) (f : A → outcome B) : (Ret a ≫= f) = f a.
Proof. done. Qed.

Lemma Ret_inj {A} (a b : A) : Ret a = Ret b → a = b.
Proof. by intros [=]. Qed.

#[export] Instance outcome_eq_dec {A} `{EqDecision A} : EqDecision (outcome A).
Proof. solve_decision. Defined.

(** ** Go slices: lists read and updated at an [int] index *)

Definition len {A} (l : list A) : Z := Z.of_nat (length l).

Definition zlookup {A} (l : list A) (i : Z) : option A :=
  if 0 <=? i then l !! Z.to_nat i else None.

(** [l[i]] *)
Definition slice_get {A} (l : list A) (i : Z) : outcome A :=
  match zlookup l i with Some x => Ret x | None => Panic end.

(** [l[i] = x] *)
Definition slice_set {A} (l : list A) (i : Z) (x : A) : outcome (list A) :=
  match zlookup l i with Some _ => Ret (<[Z.to_nat i := x]> l) | None => Panic end.

(** [l[i:]] *)
Definition slice_from {A} (l : list A) (i : Z) : outcome (list A) :=
  if (0 <=? i) && (i <=? len l) then Ret (drop (Z.to_nat i) l) else Panic.

(** [l[:i]], used by the code only with [i <= len l] *)
Definition slice_to {A} (l : list A) (i : Z) : outcome (list A) :=
  if (0 <=? i) && (i <=? len l) then Ret (take (Z.to_nat i) l) else Panic.

(** The indices [0 .. n-1] of [for i := 0; i < n; i++]. *)
Definition zrange (n : Z) : list Z := Z.of_nat <$> seq 0 (Z.to_nat n).

(** [for _, x := range l { ... }] with a body that may panic *)
Fixpoint ofold {A B} (f : B → A → outcome B) (b : B) (l : list A) : outcome B :=
  match l with
  | [] => Ret b
  | a :: l => b ← f b a; ofold f b l
  end.

(** ** Go maps

    [for k, v := range m] visits the entries of a map once each, in an order the
    language leaves open and the runtime varies.  Code that iterates takes the order
    as a parameter; a theorem about it holds for every order. *)
Class MapRange := {
  range `{Countable K} {A} : gmap K A → list (K * A);
  range_perm `{Countable K} {A} (m : gmap K A) : range m ≡ₚ map_to_list m;
}.

Definition range_default : MapRange :=
  {| range := λ K _ _ A m, map_to_list m; range_perm := λ K _ _ A m, reflexivity _ |}.

(** [m[k]] of a map of slices: nil where there is no entry. *)
Definition mget {A} (m : gmap Z (list A)) (k : Z) : list A := default [] (m !! k).

(** ** Record update

    [x <| f := v |>] replaces the field [f]; each field of a state record has a
    [Setter] instance whose term [solve_setter] builds from the record's eta
    expansion. *)
Class Setter {R T : Type} (proj : R → T) := set : (T → T) → R → R.
Arguments set {R T} proj {_} f x /.

Notation "x '<|' proj ':=' v '|>'" := (set proj (λ _, v) x)
  (at level 12, left associativity, proj at level 99, v at level 99,
   format "x  <| proj  :=  v |>").

Ltac solve_setter eta proj f x :=
  let t := eval cbv beta delta [eta] in (eta x) in
  match t with
  | context C [proj x] =>
      let t' := context C [f (proj x)] in
      let t' := eval cbv beta in t' in
      exact t'
  end.

(** ** Tactics *)

(** Splits on every integer comparison of the goal. *)
Ltac zcase_goal :=
  match goal with
  | |- context [?a <? ?b] => destruct (Z.ltb_spec a b)
  | |- context [?a <=? ?b] => destruct (Z.leb_spec a b)
  | |- context [?a =? ?b] => destruct (Z.eqb_spec a b)
  | |- context [?a >? ?b] => rewrite (Z.gtb_ltb a b)
  | |- context [?a >=? ?b] => rewrite (Z.geb_leb a b)
  end.

Ltac zcase_hyp :=
  match goal with
  | H : context [?a <? ?b] |- _ => destruct (Z.ltb_spec a b)
  | H : context [?a <=? ?b] |- _ => destruct (Z.leb_spec a b)
  | H : context [?a =? ?b] |- _ => destruct (Z.eqb_spec a b)
  | H : context [?a >? ?b] |- _ => rewrite (Z.gtb_ltb a b) in H
  | H : context [?a >=? ?b] |- _ => rewrite (Z.geb_leb a b) in H
  end.

(** One step of case analysis on a call [H : f x = Ret y]: splits its conditions,
    names its intermediate states and inverts its binds.  Equations between records
    are left whole. *)
Ltac brk1 H :=
  lazymatch type of H with
  | (let x := (if ?b then _ else _) in _) = _ => destruct b eqn:?
  | (let x := ?e in @?f x) = ?r =>
      let x' := fresh x in
      pose (x' := e); change (f x' = r) in H; cbv beta in H
  | mbind _ (if ?b then _ else _) = Ret _ => destruct b eqn:?
  | mbind _ (match ?x with _ => _ end) = Ret _ => destruct x eqn:?
  | mbind _ _ = Ret _ =>
      let H' := fresh H in
      let a := fresh "a" in
      apply outcome_bind_Ret in H as (a & H' & H); repeat progress (brk1 H')
  | Ret _ = Ret _ => apply Ret_inj in H
  | (_, _) = (_, _) =>
      let H1 := fresh H in
      apply pair_eq in H as [H1 H]; try subst
  | Panic = Ret _ => discriminate H
  | true = false => discriminate H
  | false = true => discriminate H
  | (let '(_, _) := ?x in _) = Ret _ => destruct x
  | (if ?b then _ else _) = Ret _ => destruct b eqn:?
  | (match ?x with _ => _ end) = Ret _ => destruct x eqn:?
  | ?x = ?y => first [is_var y; subst y | is_var x; subst x]
  | _ => idtac
  end.
Ltac brk H := repeat progress (brk1 H).

(** The same on a call of [f], keeping the [let]s of its body. *)
Tactic Notation "run" reference(f) "in" hyp(H) := cbv beta delta [f] in H; brk H.

Ltac split_bool :=
  repeat match goal with
  | H : (_ && _) = true |- _ => apply andb_true_iff in H as [??]
  | H : (_ || _) = false |- _ => apply orb_false_iff in H as [??]
  | H : negb _ = true |- _ => apply negb_true_iff in H
  | H : negb _ = false |- _ => apply negb_false_iff in H
  end.

(** ** Lemmas on slices *)
Create HintDb slices.
Create Rewrite HintDb slices.

Section slices.
Context {A : Type}.
Implicit Types (l : list A) (i : Z) (x : A).

Lemma len_nonneg l : 0 ≤ len l.
Proof. unfold len. lia. Qed.

Lemma len_app l1 l2 : len (l1 ++ l2) = len l1 + len l2.
Proof. unfold len. rewrite length_app. lia. Qed.

Lemma len_cons x l : len (x :: l) = 1 + len l.
Proof. unfold len. simpl. lia. Qed.

Lemma len_insert l (n : nat) x : len (<[n:=x]> l) = len l.
Proof. unfold len. by rewrite length_insert. Qed.

Lemma len_drop l (n : nat) : len (drop n l) = Z.max 0 (len l - Z.of_nat n).
Proof. unfold len. rewrite length_drop. lia. Qed.

Lemma len_take l (n : nat) : len (take n l) = Z.min (Z.of_nat n) (len l).
Proof. unfold len. rewrite length_take. lia. Qed.

Lemma len_pos l : l ≠ [] ↔ 0 < len l.
Proof. unfold len. destruct l; simpl; [naive_solver lia|]. split; [lia|done]. Qed.

Lemma zlookup_Some l i x :
  zlookup l i = Some x ↔ 0 ≤ i ∧ l !! Z.to_nat i = Some x.
Proof. unfold zlookup. destruct (Z.leb_spec 0 i); naive_solver lia. Qed.

Lemma zlookup_is_Some l i : is_Some (zlookup l i) ↔ 0 ≤ i < len l.
Proof.
  unfold zlookup, len. destruct (Z.leb_spec 0 i).
  - rewrite lookup_lt_is_Some. lia.
  - split; [by intros []|lia].
Qed.

Lemma zlookup_bounds l i x : zlookup l i = Some x → 0 ≤ i < len l.
Proof. intros H. apply zlookup_is_Some. by exists x. Qed.

Lemma zlookup_None l i : zlookup l i = None ↔ i < 0 ∨ len l ≤ i.
Proof.
  rewrite eq_None_not_Some, zlookup_is_Some. lia.
Qed.

Lemma slice_get_Ret l i x : slice_get l i = Ret x ↔ zlookup l i = Some x.
Proof. unfold slice_get. destruct (zlookup l i); naive_solver. Qed.

Lemma slice_get_ok l i :
  0 ≤ i < len l → ∃ x, slice_get l i = Ret x ∧ zlookup l i = Some x.
Proof.
  intros [x Hx]%zlookup_is_Some. exists x. by rewrite slice_get_Ret.
Qed.

Lemma slice_set_Ret l i x l' :
  slice_set l i x = Ret l' ↔ 0 ≤ i < len l ∧ l' = <[Z.to_nat i := x]> l.
Proof.
  unfold slice_set. destruct (zlookup l i) eqn:E.
  - apply zlookup_bounds in E. naive_solver.
  - apply zlookup_None in E. split; [done|lia].
Qed.

Lemma slice_set_ok l i x : 0 ≤ i < len l → slice_set l i x = Ret (<[Z.to_nat i := x]> l).
Proof. intros. by apply slice_set_Ret. Qed.

Lemma slice_set_len l i x l' : slice_set l i x = Ret l' → len l' = len l.
Proof. intros [_ ->]%slice_set_Ret. apply len_insert. Qed.

Lemma slice_from_Ret l i l' :
  slice_from l i = Ret l' ↔ 0 ≤ i ≤ len l ∧ l' = drop (Z.to_nat i) l.
Proof.
  unfold slice_from. destruct (Z.leb_spec 0 i), (Z.leb_spec i (len l)); simpl;
    naive_solver lia.
Qed.

Lemma slice_to_Ret l i l' :
  slice_to l i = Ret l' ↔ 0 ≤ i ≤ len l ∧ l' = take (Z.to_nat i) l.
Proof.
  unfold slice_to. destruct (Z.leb_spec 0 i), (Z.leb_spec i (len l)); simpl;
    naive_solver lia.
Qed.

Lemma slice_from_ok l i : 0 ≤ i ≤ len l → slice_from l i = Ret (drop (Z.to_nat i) l).
Proof. intros. by apply slice_from_Ret. Qed.

Lemma slice_to_ok l i : 0 ≤ i ≤ len l → slice_to l i = Ret (take (Z.to_nat i) l).
Proof. intros. by apply slice_to_Ret. Qed.

Lemma zlookup_app_l l1 l2 i :
  i < len l1 → zlookup (l1 ++ l2) i = zlookup l1 i.
Proof.
  unfold zlookup, len. intros. destruct (Z.leb_spec 0 i); [|done].
  apply lookup_app_l. lia.
Qed.

Lemma zlookup_app_r l1 l2 i :
  len l1 ≤ i → zlookup (l1 ++ l2) i = zlookup l2 (i - len l1).
Proof.
  unfold zlookup, len. intros.
  destruct (Z.leb_spec 0 i), (Z.leb_spec 0 (i - Z.of_nat (length l1))); try lia.
  rewrite lookup_app_r by lia. f_equal. lia.
Qed.

Lemma zlookup_drop l (n : nat) i :
  0 ≤ i → zlookup (drop n l) i = zlookup l (Z.of_nat n + i).
Proof.
  unfold zlookup. intros.
  destruct (Z.leb_spec 0 i), (Z.leb_spec 0 (Z.of_nat n + i)); try lia.
  rewrite lookup_drop. f_equal. lia.
Qed.

Lemma zlookup_take l (n : nat) i :
  i < Z.of_nat n → zlookup (take n l) i = zlookup l i.
Proof.
  unfold zlookup. intros. destruct (Z.leb_spec 0 i); [|done].
  apply lookup_take_lt. lia.
Qed.

Lemma zlookup_cons_0 x l : zlookup (x :: l) 0 = Some x.
Proof. done. Qed.

Lemma zlookup_cons_S x l i : 0 < i → zlookup (x :: l) i = zlookup l (i - 1).
Proof.
  unfold zlookup. intros. destruct (Z.leb_spec 0 i), (Z.leb_spec 0 (i - 1)); try lia.
  replace (Z.to_nat i) with (S (Z.to_nat (i - 1))) by lia. done.
Qed.

Lemma zlookup_insert_eq l i x :
  0 ≤ i < len l → zlookup (<[Z.to_nat i := x]> l) i = Some x.
Proof.
  unfold zlookup, len. intros. destruct (Z.leb_spec 0 i); [|lia].
  apply list_lookup_insert_eq. lia.
Qed.

Lemma zlookup_insert_ne l i j x :
  0 ≤ j → i ≠ j → zlookup (<[Z.to_nat j := x]> l) i = zlookup l i.
Proof.
  unfold zlookup. intros. destruct (Z.leb_spec 0 i); [|done].
  apply list_lookup_insert_ne. lia.
Qed.

Lemma zlookup_ext l1 l2 :
  (∀ i, 0 ≤ i → zlookup l1 i = zlookup l2 i) → l1 = l2.
Proof.
  intros H. apply list_eq. intros n. specialize (H (Z.of_nat n)).
  unfold zlookup in H. destruct (Z.leb_spec 0 (Z.of_nat n)); [|lia].
  rewrite Nat2Z.id in H. apply H. lia.
Qed.

End slices.

(** An invariant of the loop body is an invariant of the loop. *)
Lemma ofold_inv {A B} (P : B → Prop) (f : B → A → outcome B) (l : list A) (b b' : B) :
  (∀ b a b', a ∈ l → P b → f b a = Ret b' → P b') →
  P b → ofold f b l = Ret b' → P b'.
Proof.
  revert b. induction l as [|a l IH]; intros b Hstep Hb; simpl.
  - intros [= <-]. done.
  - intros (b1 & H1 & H2)%outcome_bind_Ret.
    apply (IH b1); [|by eapply Hstep; [left|..]|done].
    intros. eapply Hstep; [by right|done..].
Qed.

Lemma ofold_total {A B} (P : B → Prop) (f : B → A → outcome B) (l : list A) (b : B) :
  (∀ b a, a ∈ l → P b → ∃ b', f b a = Ret b' ∧ P b') →
  P b → ∃ b', ofold f b l = Ret b' ∧ P b'.
Proof.
  revert b. induction l as [|a l IH]; intros b Hstep Hb; simpl; [eauto|].
  destruct (Hstep b a) as (b1 & -> & Hb1); [left|done|].
  simpl. apply IH; [|done]. intros. apply Hstep; [by right|done].
Qed.

Lemma ofold_app {A B} (f : B → A → outcome B) (l k : list A) (b : B) :
  ofold f b (l ++ k) = (b' ← ofold f b l; ofold f b' k).
Proof.
  revert b. induction l as [|a l IH]; intros b; simpl; [done|].
  destruct (f b a); simpl; [apply IH|done].
Qed.

(** Filters that keep nothing or everything. *)
Lemma filter_none {A} (P : A → Prop) `{!∀ x, Decision (P x)} (l : list A) :
  (∀ x, x ∈ l → ¬ P x) → filter P l = [].
Proof.
  induction l as [|x l IH]; intros Hp; [done|].
  rewrite filter_cons, decide_False by (apply Hp; by left). apply IH. intros. apply Hp. by right.
Qed.

Lemma filter_all {A} (P : A → Prop) `{!∀ x, Decision (P x)} (l : list A) :
  (∀ x, x ∈ l → P x) → filter P l = l.
Proof.
  induction l as [|x l IH]; intros Hp; [done|].
  rewrite filter_cons, decide_True by (apply Hp; by left). f_equal. apply IH. intros. apply Hp. by right.
Qed.

Lemma filter_ext {A} (P Q : A → Prop) `{!∀ x, Decision (P x), !∀ x, Decision (Q x)} (l : list A) :
  (∀ x, x ∈ l → P x ↔ Q x) → filter P l = filter Q l.
Proof.
  induction l as [|x l IH]; intros Hp; [done|]. rewrite !filter_cons, IH by (intros; apply Hp; by right).
  specialize (Hp x ltac:(by left)). repeat case_decide; naive_solver.
Qed.

(** An invariant of a fold over what it has visited. *)
Lemma foldl_prefix {A B} (P : list A → B → Prop) (f : B → A → B) (b : B) (l : list A) :
  P [] b → (∀ seen a b, a ∈ l → P seen b → P (seen ++ [a]) (f b a)) → P l (foldl f b l).
Proof.
  induction l as [|a l IH] using rev_ind; intros Hb Hstep; [done|].
  rewrite foldl_app. simpl. apply Hstep; [set_solver|]. apply IH; [done|].
  intros. apply Hstep; set_solver.
Qed.

Lemma ofold_prefix_total {A B} (P : list A → B → Prop) (f : B → A → outcome B) (l : list A) (b : B) :
  P [] b → (∀ seen a b, a ∈ l → P seen b → ∃ b', f b a = Ret b' ∧ P (seen ++ [a]) b') →
  ∃ b', ofold f b l = Ret b' ∧ P l b'.
Proof.
  induction l as [|a l IH] using rev_ind; intros Hb Hstep; [by exists b|].
  destruct IH as (b1 & H1 & HP1); [done|intros; apply Hstep; set_solver|].
  destruct (Hstep l a b1) as (b2 & H2 & HP2); [set_solver|done|].
  exists b2. split; [|done]. by rewrite ofold_app, H1, bind_Ret; simpl; rewrite H2.
Qed.

(** Iterating over a map and inserting into another. *)
Section map_iteration.
Context {ranges : MapRange} `{Countable K} {A : Type}.

Lemma foldl_insert_list (l : list (K * A)) (m0 : gmap K A) :
  NoDup l.*1 → foldl (λ m '(k, v), <[k := v]> m) m0 l = list_to_map l ∪ m0.
Proof.
  revert m0. induction l as [|[k v] l IH]; intros m0; simpl.
  - intros _. by rewrite (left_id_L ∅ (∪)).
  - intros [Hk Hnd]%NoDup_cons. rewrite IH by done.
    rewrite <-insert_union_l. by rewrite insert_union_r by (by apply not_elem_of_list_to_map_1).
Qed.

Lemma NoDup_range (m : gmap K A) : NoDup (range m).*1.
Proof. rewrite range_perm. apply NoDup_fst_map_to_list. Qed.

Lemma list_to_map_range (m : gmap K A) : list_to_map (range m) = m.
Proof.
  rewrite <-(list_to_map_to_list m) at 2. apply list_to_map_proper; [apply NoDup_range|].
  apply range_perm.
Qed.

Lemma foldl_insert_range (m m0 : gmap K A) :
  foldl (λ m '(k, v), <[k := v]> m) m0 (range m) = m ∪ m0.
Proof. rewrite foldl_insert_list by apply NoDup_range. by rewrite list_to_map_range. Qed.
End map_iteration.

(** What a loop has done after the elements it has seen. *)
Lemma ofold_prefix {A B} (P : list A → B → Prop) (f : B → A → outcome B) (l : list A) (b b' : B) :
  P [] b → (∀ seen a b b', a ∈ l → P seen b → f b a = Ret b' → P (seen ++ [a]) b') → ofold f b l = Ret b' → P l b'.
Proof.
  revert b'. induction l as [|a l IH] using rev_ind; intros b' Hb Hstep; [by intros [= <-]|].
  rewrite ofold_app. intros (b1 & H1 & (b2 & H2 & [= <-])%outcome_bind_Ret)%outcome_bind_Ret.
  eapply Hstep; [set_solver| |done]. apply IH; [done| |done]. intros. eapply Hstep; [set_solver|done..].
Qed.

Lemma ofold_split {A B} (P : list A → B → Prop) (f : B → A → outcome B) (l : list A) (b b' : B) :
  P [] b → (∀ seen a rest b b', l = seen ++ a :: rest → P seen b → f b a = Ret b' → P (seen ++ [a]) b') →
  ofold f b l = Ret b' → P l b'.
Proof.
  intros Hb Hstep. assert (∀ seen rest b, l = seen ++ rest → P seen b → ofold f b rest = Ret b' → P l b') as Hgen; [|by apply (Hgen [])].
  intros seen rest. revert seen. induction rest as [|a rest IH]; intros seen b0 Hl Hb0.
  - intros [= <-]. by rewrite Hl, app_nil_r.
  - simpl. intros (b1 & H1 & H2)%outcome_bind_Ret. apply (IH (seen ++ [a]) b1); [|by eapply Hstep|done]. by rewrite <-(assoc_L (++)).
Qed.

Lemma ofold_split_total {A B} (P : list A → B → Prop) (f : B → A → outcome B) (l : list A) (b : B) :
  P [] b → (∀ seen a rest b, l = seen ++ a :: rest → P seen b → ∃ b', f b a = Ret b' ∧ P (seen ++ [a]) b') →
  ∃ b', ofold f b l = Ret b' ∧ P l b'.
Proof.
  intros Hb Hstep. assert (∀ seen rest b, l = seen ++ rest → P seen b → ∃ b', ofold f b rest = Ret b' ∧ P l b') as Hgen; [|by apply (Hgen [])].
  intros seen rest. revert seen. induction rest as [|a rest IH]; intros seen b0 Hl Hb0.
  - exists b0. split; [done|]. by rewrite Hl, app_nil_r.
  - destruct (Hstep seen a rest b0 Hl Hb0) as (b1 & H1 & Hb1). simpl. rewrite H1. apply (IH (seen ++ [a])); [|done].
    by rewrite <-(assoc_L (++)).
Qed.

(** Loops with a condition. *)
Lemma ofold_filter {A B} (P : A → Prop) `{!∀ x, Decision (P x)} (f g : B → A → outcome B) (l : list A) (b : B) :
  (∀ b x, x ∈ l → f b x = if decide (P x) then g b x else Ret b) → ofold f b l = ofold g b (filter P l).
Proof.
  revert b. induction l as [|x l IH]; intros b Hf; [done|]. simpl. rewrite Hf by (by left). rewrite filter_cons.
  case_decide; simpl; [destruct (g b x); [|done]|]; simpl; apply IH; intros; apply Hf; by right.
Qed.

Lemma ofold_fmap {A B D} (f : B → A → outcome B) (g : D → A) (l : list D) (b : B) :
  ofold f b (g <$> l) = ofold (λ b x, f b (g x)) b l.
Proof. revert b. induction l as [|x l IH]; intros b; [done|]. simpl. destruct (f b (g x)); [apply IH|done]. Qed.

(** Bodies that agree everywhere make the same loop. *)
Lemma ofold_ext {A B} (f g : B → A → outcome B) (l : list A) (b : B) :
  (∀ b x, f b x = g b x) → ofold f b l = ofold g b l.
Proof. intros Hfg. revert b. induction l as [|x l IH]; intros b; [done|]. simpl. rewrite Hfg. destruct (g b x); [apply IH|done]. Qed.

(** [int32] and [int64] additions wrap around. *)
Definition wrap (bits x : Z) : Z := (x + 2 ^ (bits - 1)) mod 2 ^ bits - 2 ^ (bits - 1).

Lemma wrap_id bits x : 0 < bits → - 2 ^ (bits - 1) ≤ x < 2 ^ (bits - 1) → wrap bits x = x.
Proof.
  intros Hb Hx. unfold wrap. assert (2 ^ bits = 2 * 2 ^ (bits - 1)) as Hp.
  { replace bits with (1 + (bits - 1)) at 1 by lia. by rewrite Z.pow_add_r by lia. }
  rewrite Z.mod_small by lia. lia.
Qed.

(** What a computation on concrete data returns. *)
Definition does_return {A} (o : outcome A) : bool := match o with Ret _ => true | Panic => false end.
Definition result_or {A} (d : A) (o : outcome A) : A := match o with Ret a => a | Panic => d end.

Lemma result_or_Ret {A} (d : A) o : does_return o = true → o = Ret (result_or d o).
Proof. by destruct o. Qed.

(** A loop that counts. *)
Lemma ofold_count {A} (p : A → bool) (f : Z → A → outcome Z) (l : list A) (b : Z) :
  (∀ b a, a ∈ l → f b a = Ret (if p a then b + 1 else b)) →
  ofold f b l = Ret (b + len (filter p l)).
Proof.
  revert b. induction l as [|a l IH]; intros b Hf; cbn [ofold].
  - apply f_equal. unfold len. cbn. lia.
  - rewrite Hf by left. cbn [mbind outcome_bind].
    rewrite IH by (intros; apply Hf; by right). apply f_equal. rewrite filter_cons.
    case_decide; destruct (p a); try done; rewrite ?len_cons; lia.
Qed.

(** A loop whose body appends one element. *)
Lemma ofold_snoc {A B} (P : A → B → Prop) (f : list B → A → outcome (list B)) l acc r :
  (∀ acc a r, f acc a = Ret r → ∃ b, r = acc ++ [b] ∧ P a b) →
  ofold f acc l = Ret r → ∃ bs, r = acc ++ bs ∧ Forall2 P l bs.
Proof.
  intros Hf. revert acc. induction l as [|a l IH]; intros acc; simpl.
  - intros <-%Ret_inj. exists []. by rewrite app_nil_r.
  - intros (acc' & (b & -> & Hb)%Hf & (bs & -> & Hbs)%IH)%outcome_bind_Ret.
    exists (b :: bs). rewrite <-app_assoc. split; [done|by constructor].
Qed.

Lemma sublist_omap {A B} (f : A → option B) (l k : list A) :
  l `sublist_of` k → omap f l `sublist_of` omap f k.
Proof.
  induction 1 as [|x l k _ IH|x l k _ IH]; simpl; [done|..];
    destruct (f x); [by constructor|done|by constructor|done].
Qed.

Lemma omap_insert_same {A B} (f : A → option B) (l : list A) (k : nat) (x y : A) :
  l !! k = Some x → f y = f x → omap f (<[k := y]> l) = omap f l.
Proof.
  revert k. induction l as [|z l IH]; intros [|k] Hk Hf; simpl in *; [done..| |].
  - injection Hk as ->. by rewrite Hf.
  - by rewrite IH.
Qed.

(** Removing the one element that has key [b] removes the key. *)
Lemma omap_delete_notin {A B} (f : A → option B) (l : list A) (k : nat) (x : A) (b : B) :
  NoDup (omap f l) → l !! k = Some x → f x = Some b → b ∉ omap f (delete k l).
Proof.
  intros Hnd Hk Hf. rewrite <-(take_drop_middle l k x Hk) in Hnd.
  rewrite delete_take_drop. rewrite omap_app in *. simpl in Hnd. rewrite Hf in Hnd.
  apply NoDup_app in Hnd as (_ & H1 & [H2 _]%NoDup_cons).
  intros [Hb|Hb]%elem_of_app; [|done]. apply (H1 b Hb). left.
Qed.

#[export] Hint Rewrite @len_app @len_cons @len_insert @len_drop @len_take : slices.
#[export] Hint Resolve len_nonneg : slices.

Lemma elem_of_zrange n i : i ∈ zrange n ↔ 0 ≤ i < n.
Proof.
  unfold zrange. rewrite list_elem_of_fmap. setoid_rewrite elem_of_seq. split.
  - intros (k & -> & ?). lia.
  - intros. exists (Z.to_nat i). lia.
Qed.

Lemma NoDup_zrange n : NoDup (zrange n).
Proof. unfold zrange. apply NoDup_fmap_2; [apply _|]. apply NoDup_seq. Qed.

Lemma length_zrange n : length (zrange n) = Z.to_nat n.
Proof. unfold zrange. by rewrite length_fmap, length_seq. Qed.

(** [for i, x := range l]: the elements of a slice with their indices. *)
Definition indexed {A} (l : list A) : list (Z * A) := zip (zrange (len l)) l.

Lemma elem_of_indexed {A} (a : list A) s x : (s, x) ∈ indexed a ↔ zlookup a s = Some x.
Proof.
  unfold indexed. rewrite list_elem_of_lookup, zlookup_Some. split.
  - intros (i & (s' & x' & [= -> ->] & Hs & Hx)%lookup_zip_with_Some).
    unfold zrange in Hs. rewrite list_lookup_fmap in Hs.
    apply fmap_Some in Hs as (j & [-> _]%lookup_seq & ->).
    rewrite Nat2Z.id. split; [lia|done].
  - intros [Hs Hx]. exists (Z.to_nat s). apply lookup_zip_with_Some. exists s, x.
    split_and!; [done| |done]. unfold zrange. rewrite list_lookup_fmap.
    apply fmap_Some. exists (Z.to_nat s). rewrite Z2Nat.id by done. split; [|done].
    apply lookup_seq. split; [done|]. apply lookup_lt_Some in Hx. unfold len. lia.
Qed.

Lemma fst_indexed {A} (a : list A) : (indexed a).*1 = zrange (len a).
Proof. unfold indexed. apply fst_zip. rewrite length_zrange. unfold len. lia. Qed.

Lemma snd_indexed {A} (a : list A) : (indexed a).*2 = a.
Proof. unfold indexed. apply snd_zip. rewrite length_zrange. unfold len. lia. Qed.

(** ** Lists with distinct keys *)

Lemma keyed_functional {A B} (l : list (A * B)) a b b' : NoDup l.*1 → (a, b) ∈ l → (a, b') ∈ l → b = b'.
Proof.
  intros Hnd [i Hi]%list_elem_of_lookup [j Hj]%list_elem_of_lookup. assert (i = j) as <-; [|congruence].
  eapply (NoDup_lookup l.*1 i j a); [done|by rewrite list_lookup_fmap, Hi|by rewrite list_lookup_fmap, Hj].
Qed.

Lemma keyed_perm {A B} (l k : list (A * B)) :
  NoDup l.*1 → NoDup k.*1 → (∀ x, x ∈ l → x ∈ k) → (∀ a, a ∈ k.*1 → a ∈ l.*1) → l ≡ₚ k.
Proof.
  intros Hl Hk Hlk Hkl. apply NoDup_Permutation; [by apply (NoDup_fmap_1 fst)|by apply (NoDup_fmap_1 fst)|].
  intros [a b]. split; [apply Hlk|]. intros Hx.
  assert (a ∈ l.*1) as ([a' b'] & -> & Hx')%list_elem_of_fmap by (apply Hkl; by apply (list_elem_of_fmap_2 fst) in Hx).
  simpl in Hx. by rewrite (keyed_functional k a' b b' Hk Hx (Hlk _ Hx')).
Qed.

Lemma fmap_sublist {A B} (f : A → B) l k : l `sublist_of` k → f <$> l `sublist_of` f <$> k.
Proof. induction 1; simpl; by constructor. Qed.

(** Nothing occurs twice when nothing does within a group. *)
Lemma NoDup_groups {A} (g : A → Z) (l : list A) : (∀ c, NoDup (filter (λ x, g x = c) l)) → NoDup l.
Proof.
  induction l as [|x l IH]; intros H; [apply NoDup_nil_2|]. apply NoDup_cons. split.
  - intros Hx. specialize (H (g x)). rewrite filter_cons_True in H by done. apply NoDup_cons in H as [Hn _].
    apply Hn, list_elem_of_filter. by split.
  - apply IH. intros c. specialize (H c). rewrite filter_cons in H. case_decide; [by apply NoDup_cons in H as [_ ?]|done].
Qed.

Lemma StronglySorted_impl_in {A} (R R' : A → A → Prop) (l : list A) :
  (∀ x y, x ∈ l → y ∈ l → R x y → R' x y) → StronglySorted R l → StronglySorted R' l.
Proof.
  intros H Hs. induction Hs as [|x l Hs IH Hx]; [constructor|]. constructor.
  - apply IH. intros; apply H; [by right|by right|done].
  - rewrite Forall_forall in *. intros y Hy. apply H; [by left|by right|auto].
Qed.

(** ** Majorities *)

(** Two sets of more than half of [n] servers share a server. *)
Lemma quorum_intersect (n : Z) (X Y : gset Z) :
  0 ≤ n →
  (∀ i, i ∈ X → 0 ≤ i < n) →
  (∀ i, i ∈ Y → 0 ≤ i < n) →
  n / 2 < Z.of_nat (size X) →
  n / 2 < Z.of_nat (size Y) →
  ∃ i, i ∈ X ∧ i ∈ Y.
Proof.
  intros Hn HX HY HsX HsY.
  destruct (decide (X ∩ Y = ∅)) as [Hempty|Hne].
  - exfalso.
    assert (size (X ∪ Y) = size X + size Y)%nat as Hsz
      by (apply size_union; set_solver).
    assert (X ∪ Y ⊆ list_to_set (zrange n)) as Hsub.
    { intros i Hi. apply elem_of_list_to_set, elem_of_zrange.
      apply elem_of_union in Hi as [?|?]; auto. }
    apply subseteq_size in Hsub.
    rewrite size_list_to_set, length_zrange in Hsub by apply NoDup_zrange.
    pose proof (Z.div_mod n 2). pose proof (Z.mod_pos_bound n 2). lia.
  - apply set_choose_L in Hne as [i Hi]. set_solver.
Qed.
