(* ===== verification/LabGob.v ===== *)
(** * labgob: encoding of persisted state and snapshots

    [src/src/labgob/labgob.go] wraps Go's [encoding/gob].  A [bytes.Buffer] under
    a [LabEncoder] is the list of the values encoded into it so far; the bytes are
    what [encoding/gob] makes of that list.  [encoding/gob] itself is a parameter:
    the class [Gob] states what the callers rely on, that a decoder over an
    encoder's bytes yields the encoded values in order, and that encoding a value
    writes at least one byte.  [gob_of_countable] is a concrete instance for every
    countable type of values. *)
From Stdlib Require Import Init.Byte.
From S2P Require Import Prelude.

(** [V] is the sum of the Go types a package passes to [Encode]. *)
Class Gob (V : Type) := {
  gob_bytes : list V → list byte;
  gob_values : list byte → list V;
  gob_roundtrip vs : gob_values (gob_bytes vs) = vs;
  gob_nonempty v vs : gob_bytes (v :: vs) ≠ [];
}.

Section labgob.
Context {V : Type} {gob : Gob V}.

Definition LabEncoder : Type := list V.

Definition NewEncoder : LabEncoder := [].

Definition Encode (enc : LabEncoder) (e : V) : LabEncoder := enc ++ [e].

(** [w.Bytes()] of the buffer under the encoder. *)
Definition Bytes (enc : LabEncoder) : list byte := gob_bytes enc.

Definition LabDecoder : Type := list V.

Definition NewDecoder (data : list byte) : LabDecoder := gob_values data.

(** [dec.Decode(&x)], where [get] is the type of [x]: the next value of the
    stream must have that type, otherwise an error is returned. *)
Definition Decode {A} (get : V → option A) (dec : LabDecoder) : option (A * LabDecoder) :=
  match dec with
  | [] => None
  | v :: dec => a ← get v; Some (a, dec)
  end.

Lemma NewDecoder_Bytes enc : NewDecoder (Bytes enc) = enc.
Proof. apply gob_roundtrip. Qed.

Lemma Bytes_nonempty enc : enc ≠ NewEncoder → Bytes enc ≠ [].
Proof. destruct enc; [done|]. intros _. apply gob_nonempty. Qed.

End labgob.
Arguments LabEncoder : clear implicits.
Arguments LabDecoder : clear implicits.

(** ** A concrete codec *)

(** A positive as a self-delimiting string of bytes. *)
Fixpoint pos_bytes (p : positive) : list byte :=
  match p with
  | xH => [x01]
  | xO p => x00 :: pos_bytes p
  | xI p => x02 :: pos_bytes p
  end.

Fixpoint bytes_pos (bs : list byte) : option positive :=
  match bs with
  | [x01] => Some xH
  | x00 :: bs => xO <$> bytes_pos bs
  | x02 :: bs => xI <$> bytes_pos bs
  | _ => None
  end.

Lemma bytes_pos_bytes p : bytes_pos (pos_bytes p) = Some p.
Proof. induction p; simpl; [by rewrite IHp..|done]. Qed.

Program Definition gob_of_countable (V : Type) `{Countable V} : Gob V := {|
  gob_bytes vs := pos_bytes (encode vs);
  gob_values bs :=
    match bytes_pos bs with Some p => default [] (decode p) | None => [] end;
|}.
Next Obligation.
  intros V ? ? vs. simpl. by rewrite bytes_pos_bytes, decode_encode.
Qed.
Next Obligation.
  intros V ? ? v vs. simpl. by destruct (encode (v :: vs)).
Qed.
