(* ===== verification/LabGobCheck.v ===== *)
(** * labgob: the checks of types and values

    Models [checkType] and [checkDefault] of [src/src/labgob/labgob.go].  The types of a
    program are the entries of a table, so that a type may refer to itself; [checked]
    is the set of types complained about already, which also ends the recursion.  A
    value is the tree [reflect] shows of it.  Field names are ASCII. *)
From Stdlib Require Import Strings.Ascii.
From S2P Require Import Prelude.

(** ** Types *)

Inductive Kind :=
| KStruct (fields : list (string * Z))   (* name and type *)
| KElem (elem : Z)                       (* Slice, Array, Ptr *)
| KMap (elem key : Z)
| KBasic.                                (* anything else *)

Definition children (k : Kind) : list Z :=
  match k with KStruct fields => fields.*2 | KElem e => [e] | KMap e k => [e; k] | KBasic => [] end.

(** [unicode.IsUpper] of the first rune. *)
Definition is_upper (name : string) : bool :=
  match name with
  | EmptyString => false
  | String c _ => (65 <=? nat_of_ascii c)%nat && (nat_of_ascii c <=? 90)%nat
  end.

Record LabState := mkLabState { errorCount : Z; checked : gset Z }.

Section check_type.
Context (table : gmap Z Kind).
Implicit Types (st : LabState) (t : Z).

Definition kind_of t : Kind := default KBasic (table !! t).

Definition complain (name : string) st : LabState :=
  if is_upper name then st else mkLabState (errorCount st + 1) (checked st).

(** [checkType], with a bound on the depth of the recursion. *)
Fixpoint checkType (fuel : nat) t st : option LabState :=
  match fuel with
  | O => None
  | S fuel =>
      if bool_decide (t ∈ checked st) then Some st
      else
        let st := mkLabState (errorCount st) ({[t]} ∪ checked st) in
        match kind_of t with
        | KStruct fields =>
            foldl (λ acc '(name, ft), st ← acc; checkType fuel ft (complain name st)) (Some st) fields
        | KElem e => checkType fuel e st
        | KMap e k => st ← checkType fuel e st; checkType fuel k st
        | KBasic => Some st
        end
  end.

(** The lower-case fields of a type. *)
Definition lower_fields t : Z :=
  match kind_of t with KStruct fields => len (filter (λ f, is_upper f.1 = false) fields) | _ => 0 end.

Definition lower_total (X : gset Z) : Z := foldr (λ t n, lower_fields t + n) 0 (elements X).

(** A type that can be reached from another. *)
Definition child t u : Prop := u ∈ children (kind_of t).

(** *** What a call does *)

(** From [st] to [st'] the types of [l] are visited. *)
Record visits (l : list Z) st st' : Prop := {
  visit_mono : checked st ⊆ checked st';
  visit_roots t : t ∈ l → t ∈ checked st';
  visit_closed t u : t ∈ checked st' ∖ checked st → child t u → u ∈ checked st';
  visit_reach u : u ∈ checked st' ∖ checked st → ∃ t, t ∈ l ∧ rtc child t u;
}.

Lemma lower_total_union (X Y : gset Z) : X ## Y → lower_total (X ∪ Y) = lower_total X + lower_total Y.
Proof.
  intros Hd. unfold lower_total. set (f := λ t n, lower_fields t + n).
  assert (∀ l k, foldr f 0 (l ++ k) = foldr f 0 l + foldr f 0 k) as Happ.
  { induction l as [|t l IH]; intros k; simpl; [done|]. rewrite IH. unfold f. lia. }
  assert (∀ l k, l ≡ₚ k → foldr f 0 l = foldr f 0 k) as Hperm.
  { induction 1; unfold f in *; simpl; lia. }
  rewrite <-Happ. by apply Hperm, elements_disj_union.
Qed.

Lemma lower_total_add st st1 st2 :
  checked st ⊆ checked st1 → checked st1 ⊆ checked st2 →
  lower_total (checked st2 ∖ checked st) =
  lower_total (checked st1 ∖ checked st) + lower_total (checked st2 ∖ checked st1).
Proof.
  intros H1 H2. rewrite <-lower_total_union by set_solver. f_equal. apply leibniz_equiv. intros x.
  destruct (decide (x ∈ checked st1)); set_solver.
Qed.

Lemma visits_nil st : visits [] st st.
Proof. split; set_solver. Qed.

Lemma visits_app l k st st1 st2 : visits l st st1 → visits k st1 st2 → visits (l ++ k) st st2.
Proof.
  intros [Hm1 Hr1 Hc1 Hq1] [Hm2 Hr2 Hc2 Hq2]. split; [set_solver|set_solver|..].
  - intros t u Ht Htu. destruct (decide (t ∈ checked st1)); [|apply (Hc2 t); set_solver].
    apply Hm2, (Hc1 t); set_solver.
  - intros u Hu. destruct (decide (u ∈ checked st1)).
    + destruct (Hq1 u) as (t & ? & ?); [set_solver|]. exists t. split; [set_solver|done].
    + destruct (Hq2 u) as (t & ? & ?); [set_solver|]. exists t. split; [set_solver|done].
Qed.

(** A type is marked before its children are visited. *)
Lemma visits_type t st st' :
  t ∉ checked st → visits (children (kind_of t)) (mkLabState (errorCount st) ({[t]} ∪ checked st)) st' → visits [t] st st'.
Proof.
  intros Ht [Hm Hr Hc Hq]. simpl in *. split; [set_solver|set_solver|..].
  - intros u v Hu Huv. destruct (decide (u = t)) as [->|]; [by apply Hr|]. apply (Hc u); set_solver.
  - intros u Hu. exists t. split; [set_solver|]. destruct (decide (u = t)) as [->|]; [done|].
    destruct (Hq u) as (v & ? & ?); [set_solver|]. by apply (rtc_l _ _ v).
Qed.

Definition counts (extra : Z) st st' : Prop :=
  errorCount st' = errorCount st + extra + lower_total (checked st' ∖ checked st).

Lemma counts_nil st : counts 0 st st.
Proof. unfold counts. rewrite difference_diag_L. unfold lower_total. rewrite elements_empty. simpl. lia. Qed.

Lemma counts_app a b l k st st1 st2 :
  visits l st st1 → visits k st1 st2 → counts a st st1 → counts b st1 st2 → counts (a + b) st st2.
Proof.
  intros H1 H2 Ha Hb. unfold counts in *. rewrite (lower_total_add st st1 st2); [lia|apply H1|apply H2].
Qed.

Lemma counts_type t st st' :
  t ∉ checked st → let st0 := mkLabState (errorCount st) ({[t]} ∪ checked st) in
  visits (children (kind_of t)) st0 st' → counts (lower_fields t) st0 st' → counts 0 st st'.
Proof.
  intros Ht st0 Hv Hc. unfold counts in *. rewrite (lower_total_add st st0 st'); [|set_solver|apply Hv].
  replace (checked st0 ∖ checked st) with ({[t]} : gset Z) by (apply leibniz_equiv; simpl; set_solver).
  unfold lower_total at 1. rewrite elements_singleton. simpl in *. lia.
Qed.

(** *** Termination and effect *)

Section universe.
Context (U : gset Z) (U_closed : ∀ t u, t ∈ U → child t u → u ∈ U).

Lemma size_mono st st' : checked st ⊆ checked st' → (size (U ∖ checked st') ≤ size (U ∖ checked st))%nat.
Proof. intros H. apply subseteq_size. set_solver. Qed.

Lemma check_fields fuel fields st :
  (∀ t st, t ∈ U → (size (U ∖ checked st) < fuel)%nat →
     ∃ st', checkType fuel t st = Some st' ∧ visits [t] st st' ∧ counts 0 st st') →
  (∀ t, t ∈ fields.*2 → t ∈ U) → (size (U ∖ checked st) < fuel)%nat →
  ∃ st', foldl (λ acc '(name, ft), st ← acc; checkType fuel ft (complain name st)) (Some st) fields = Some st' ∧
    visits fields.*2 st st' ∧ counts (len (filter (λ f, is_upper f.1 = false) fields)) st st'.
Proof.
  intros IH. revert st. induction fields as [|[name ft] fields IHf]; intros st HU Hfuel.
  { exists st. split_and!; [done|apply visits_nil|apply counts_nil]. }
  assert (checked (complain name st) = checked st) as Hck by (unfold complain; by case_match).
  destruct (IH ft (complain name st)) as (st1 & H1 & Hv1 & Hc1); [apply HU; by left|by rewrite Hck|].
  assert (visits [ft] st st1 ∧ counts (if is_upper name then 0 else 1) st st1) as [Hv1' Hc1'].
  { unfold counts, complain in *. destruct Hv1 as [? ? ? ?]. rewrite Hck in *.
    split; [by split|]. destruct (is_upper name); simpl in *; lia. }
  destruct (IHf st1) as (st2 & H2 & Hv2 & Hc2); [intros; apply HU; by right| |].
  { pose proof (size_mono st st1 (visit_mono _ _ _ Hv1')). lia. }
  exists st2. simpl. rewrite H1. split; [done|]. split; [by eapply (visits_app [ft])|].
  rewrite filter_cons. simpl. replace (len _) with
    ((if is_upper name then 0 else 1) + len (filter (λ f, is_upper f.1 = false) fields)).
  { by eapply counts_app. }
  destruct (is_upper name); simpl; unfold len; simpl; lia.
Qed.

Lemma checkType_ok fuel t st :
  t ∈ U → (size (U ∖ checked st) < fuel)%nat →
  ∃ st', checkType fuel t st = Some st' ∧ visits [t] st st' ∧ counts 0 st st'.
Proof.
  revert t st. induction fuel as [|fuel IH]; intros t st Ht Hfuel; [lia|]. cbn [checkType].
  case_bool_decide as Hin.
  { exists st. split_and!; [done| |apply counts_nil]. split; set_solver. }
  set (st0 := mkLabState (errorCount st) ({[t]} ∪ checked st)).
  assert (size (U ∖ checked st0) < fuel)%nat as Hfuel0.
  { assert (U ∖ checked st0 ⊂ U ∖ checked st) as Hlt%subset_size; [|lia]. simpl. set_solver. }
  assert (∃ st', match kind_of t with
    | KStruct fields => foldl (λ acc '(name, ft), st ← acc; checkType fuel ft (complain name st)) (Some st0) fields
    | KElem e => checkType fuel e st0
    | KMap e k => st ← checkType fuel e st0; checkType fuel k st
    | KBasic => Some st0
    end = Some st' ∧ visits (children (kind_of t)) st0 st' ∧ counts (lower_fields t) st0 st') as (st' & He & Hv & Hc).
  { pose proof (U_closed t) as HU. unfold child, lower_fields in *. destruct (kind_of t) as [fields|e|e k|]; simpl in *.
    - apply check_fields; [done| |done]. intros u Hu. by apply HU.
    - apply IH; [|done]. apply HU; [done|by left].
    - destruct (IH e st0) as (st1 & -> & Hv1 & Hc1); [apply HU; [done|by left]|done|]. simpl.
      destruct (IH k st1) as (st2 & -> & Hv2 & Hc2); [apply HU; [done|by right; left]| |].
      { eapply Nat.le_lt_trans; [by apply size_mono, Hv1|exact Hfuel0]. }
      exists st2. split_and!; [done|by eapply (visits_app [e])|by eapply (counts_app 0 0)].
    - exists st0. split_and!; [done|apply visits_nil|apply counts_nil]. }
  exists st'. split_and!; [done|by apply visits_type|by eapply counts_type].
Qed.

(** C35. The check of a type ends, whatever cycles the types have; it visits exactly the
    types that can be reached, and counts one error for each lower-case field of each
    type it had not visited before. *)
Theorem checkType_visits t st :
  t ∈ U → (∀ x y, x ∈ checked st → child x y → y ∈ checked st) →
  ∃ st', checkType (S (size U)) t st = Some st' ∧
    (∀ u, u ∈ checked st' ↔ u ∈ checked st ∨ rtc child t u) ∧
    errorCount st' = errorCount st + lower_total (checked st' ∖ checked st).
Proof.
  intros Ht Hcl. destruct (checkType_ok (S (size U)) t st Ht) as (st' & He & [Hm Hr Hc Hq] & Hcount).
  { assert (size (U ∖ checked st) ≤ size U)%nat; [apply subseteq_size; set_solver|lia]. }
  exists st'. split; [done|]. split; [|unfold counts in Hcount; lia]. intros u. split.
  - intros Hu. destruct (decide (u ∈ checked st)); [by left|right].
    destruct (Hq u) as (t' & ->%list_elem_of_singleton & ?); [set_solver|done].
  - intros [Hu|Hu]; [by apply Hm|]. assert (t ∈ checked st') as Ht' by (apply Hr; by left). clear Ht Hr Hq Hcount He.
    induction Hu as [|x y z Hxy _ IH]; [done|]. apply IH. destruct (decide (x ∈ checked st)).
    + apply Hm. by eapply Hcl.
    + apply (Hc x); set_solver.
Qed.
End universe.
End check_type.

(** ** Values *)

#[local] Set Warnings "-register-all".

Inductive Value :=
| VStruct (fields : list Value)
| VPtr (elem : option Value)             (* [None]: nil *)
| VBasic (is_zero : bool)                (* booleans, numbers, strings *)
| VOther.

Section value_ind.
Context (P : Value → Prop) (Hstruct : ∀ fields, Forall P fields → P (VStruct fields))
  (Hnil : P (VPtr None)) (Hptr : ∀ v, P v → P (VPtr (Some v))) (Hbasic : ∀ z, P (VBasic z)) (Hother : P VOther).

Fixpoint value_ind (v : Value) : P v :=
  match v with
  | VStruct fields => Hstruct fields
      ((fix go l : Forall P l := match l with [] => Forall_nil_2 P | v :: l => Forall_cons_2 P v l (value_ind v) (go l) end) fields)
  | VPtr None => Hnil
  | VPtr (Some v) => Hptr v (value_ind v)
  | VBasic z => Hbasic z
  | VOther => Hother
  end.
End value_ind.

(** The new [errorCount]; the traversal stops below depth 3. *)
Fixpoint checkDefault1 (value : Value) (depth : nat) (errors : Z) : Z :=
  if (3 <? depth)%nat then errors
  else
    match value with
    | VStruct fields =>
        (fix go (l : list Value) (errors : Z) : Z :=
           match l with [] => errors | v :: l => go l (checkDefault1 v (S depth) errors) end) fields errors
    | VPtr None => errors
    | VPtr (Some v) => checkDefault1 v (S depth) errors
    | VBasic is_zero => if is_zero then errors else errors + 1
    | VOther => errors
    end.

Definition checkDefault (value : option Value) (errors : Z) : Z :=
  match value with None => errors | Some v => checkDefault1 v 1 errors end.

(** The depths of the values that are not zero. *)
Fixpoint nonzero_depths (v : Value) (depth : nat) : list nat :=
  match v with
  | VStruct fields => (fix go l := match l with [] => [] | v :: l => nonzero_depths v (S depth) ++ go l end) fields
  | VPtr (Some v) => nonzero_depths v (S depth)
  | VBasic false => [depth]
  | _ => []
  end.

Lemma nonzero_depths_le v depth d : d ∈ nonzero_depths v depth → (depth ≤ d)%nat.
Proof.
  revert depth. induction v as [fields IH| |v IH|[]|] using value_ind; intros depth; simpl; try by intros ?%not_elem_of_nil.
  - induction IH as [|v l Hv _ IHl]; [by intros ?%not_elem_of_nil|].
    intros [Hd|Hd]%elem_of_app; [apply Hv in Hd; lia|by apply IHl].
  - intros Hd%IH. lia.
  - intros ->%list_elem_of_singleton. lia.
Qed.

(** [checkDefault] counts the values of depth at most 3 that are not zero. *)
Lemma checkDefault1_counts v depth errors :
  checkDefault1 v depth errors = errors + len (filter (λ d, (d ≤ 3)%nat) (nonzero_depths v depth)).
Proof.
  assert (∀ v depth, (3 < depth)%nat → filter (λ d, (d ≤ 3)%nat) (nonzero_depths v depth) = []) as Hdeep.
  { intros v' d' Hd'. apply elem_of_nil_inv. intros d [Hle Hd%nonzero_depths_le]%list_elem_of_filter. lia. }
  revert depth errors. induction v as [fields IH| |v IH|z|] using value_ind; intros depth errors;
    (destruct (Nat.ltb_spec 3 depth) as [Hd|Hd]; [rewrite Hdeep by done; unfold len; simpl|]).
  all: cbn [checkDefault1]; (rewrite (proj2 (Nat.ltb_lt _ _)) by done) || (rewrite (proj2 (Nat.ltb_ge _ _)) by done); try lia.
  - cbn [nonzero_depths]. revert errors. induction IH as [|v l Hv _ IHl]; intros errors; [unfold len; simpl; lia|].
    rewrite IHl, Hv, filter_app, len_app. lia.
  - unfold len. simpl. lia.
  - apply IH.
  - destruct z; cbn [nonzero_depths]; [unfold len; simpl; lia|].
    rewrite filter_cons, decide_True by done. unfold len. simpl. lia.
  - unfold len. simpl. lia.
Qed.

(** ** A recursive type

    [type A struct { Next *A; val int }] with [B struct { M map[string]A }]. *)
Definition example_types : gmap Z Kind :=
  {[1 := KStruct [("Next"%string, 2); ("val"%string, 3)]; 2 := KElem 1; 3 := KBasic;
    4 := KStruct [("M"%string, 5)]; 5 := KMap 1 6; 6 := KBasic]}.

Lemma checkType_visits_witness :
  ∃ st', checkType example_types 7 4 (mkLabState 0 ∅) = Some st' ∧ errorCount st' = 1 ∧ 1 ∈ checked st'.
Proof.
  destruct (checkType_visits example_types {[1; 2; 3; 4; 5; 6]}) with (t := 4) (st := mkLabState 0 ∅) as (st' & He & Hck & Hc).
  - intros t u Ht Hu. assert (t = 1 ∨ t = 2 ∨ t = 3 ∨ t = 4 ∨ t = 5 ∨ t = 6) as Hts by set_solver. clear Ht.
    unfold child in Hu. destruct Hts as [->|[->|[->|[->|[->| ->]]]]]; vm_compute in Hu; set_solver.
  - set_solver.
  - set_solver.
  - exists st'. vm_compute in He. injection He as <-. by vm_compute.
Defined.
