(* ===== verification/LabRpc.v ===== *)
(** * labrpc: the simulated network

    Models [src/src/labrpc/labrpc.go].  Client ends send requests to one goroutine,
    which starts [processReq] for each; that goroutine reads the state of the
    network, may drop the request, starts the handler in a goroutine of its own,
    polls whether the server is still there, and answers.  Each goroutine is a phase
    of its call; a [World] is the network, the servers and receivers it points to, and
    the calls.

    Pointers to servers and receivers are numbers.  A handler, the body of a method,
    is one step on its receiver.  What [rand] returned decides the events; the
    durations of the sleeps do not matter.  [log.Fatalf] ends the program, as a panic
    does. *)
From Stdlib Require Import Init.Byte Strings.Ascii.
From S2P Require Import Prelude LabGob.

(** What [reflect] tells of the Go values that travel. *)
Class GoTypes (V T : Type) := {
  type_of : V → T;
  zero_of : T → V;
  type_of_zero t : type_of (zero_of t) = t;
}.

(** [strings.LastIndex(svcMeth, ".")] and the two slices around it; no dot gives the
    index -1, at which the first slice panics. *)
Fixpoint split_last_dot (s : string) : outcome (string * string) :=
  match s with
  | EmptyString => Panic
  | String c s =>
      match split_last_dot s with
      | Ret (before, after) => Ret (String c before, after)
      | Panic => if bool_decide (c = "."%char) then Ret (""%string, s) else Panic
      end
  end.

Section labrpc.
Context {Name : Type} `{name_countable : Countable Name}.       (* of ends and servers *)
Context {V T : Type} `{EqDecision T} {types : GoTypes V T} {gob : Gob V}.
Context {O : Type}.                            (* the state of a receiver *)

(** ** Messages *)

Record reqMsg := mkReqMsg {
  endname : Name;
  svcMeth : string;
  argsType : T;
  args : list byte;
}.

Record replyMsg := mkReplyMsg { rm_ok : bool; rm_reply : list byte }.

Definition failed : replyMsg := mkReplyMsg false [].

(** [Decode] into a variable of type [t]. *)
Definition decode_as (t : T) (data : list byte) : option V :=
  fst <$> Decode (λ v, if decide (type_of v = t) then Some v else None) (NewDecoder data).

(** ** Services and servers *)

(** A method as [reflect] describes it; [m_Func] is its body, on the receiver and
    the argument, with the reply it leaves. *)
Record Method := mkMethod {
  m_Name : string;
  m_PkgPath : string;
  m_NumIn : Z;
  m_In2Ptr : bool;
  m_NumOut : Z;
  m_Func : O → V → O * V;
}.

Record Service := mkService {
  svc_name : string;
  rcvr : Z;
  methods : gmap string Method;
}.

(** The method is suitable for a handler. *)
Definition suitable (m : Method) : bool :=
  negb (negb (String.eqb (m_PkgPath m) "") || negb (m_NumIn m =? 3) || negb (m_In2Ptr m) || negb (m_NumOut m =? 0)).

Definition MakeService (name : string) (receiver : Z) (ms : list Method) : Service :=
  mkService name receiver
    (foldl (λ methods m, if suitable m then <[m_Name m := m]> methods else methods) ∅ ms).

(** [Service.dispatch]: before the call of the method, and after it. *)
Definition Service_method (svc : Service) (methname : string) : outcome Method :=
  match methods svc !! methname with Some m => Ret m | None => Panic end.

Definition Service_call (m : Method) (req : reqMsg) (obj : O) : O * replyMsg :=
  let args := default (zero_of (argsType req)) (decode_as (argsType req) (args req)) in
  let '(obj, reply) := m_Func m obj args in
  (obj, mkReplyMsg true (Bytes (Encode NewEncoder reply))).

Record Server := mkServer { services : gmap string Service; sv_count : Z }.

Definition MakeServer : Server := mkServer ∅ 0.

Definition AddService (rs : Server) (svc : Service) : Server :=
  mkServer (<[svc_name svc := svc]> (services rs)) (sv_count rs).

(** [Server.dispatch] up to the call of the method: it counts the request and finds
    the method; an unknown name is fatal. *)
Definition Server_dispatch (rs : Server) (req : reqMsg) : outcome (Server * (Service * Method)) :=
  let rs := mkServer (services rs) (sv_count rs + 1) in
  '(serviceName, methodName) ← split_last_dot (svcMeth req);
  match services rs !! serviceName with
  | Some svc => m ← Service_method svc methodName; Ret (rs, (svc, m))
  | None => Panic
  end.

(** ** The network *)

Record Network := mkNetwork {
  reliable : bool;
  longDelays : bool;
  longReordering : bool;
  ends : gmap Name unit;
  enabled : gmap Name bool;
  servers : gmap Name (option Z);
  connections : gmap Name (option Name);
  done_closed : bool;            (* [done] *)
  listening : bool;              (* the goroutine of [MakeNetwork] *)
  count : Z;
  bytes : Z;
}.

Definition eta_Network (rn : Network) : Network :=
  mkNetwork (reliable rn) (longDelays rn) (longReordering rn) (ends rn) (enabled rn) (servers rn) (connections rn)
    (done_closed rn) (listening rn) (count rn) (bytes rn).

#[global] Instance set_reliable : Setter reliable := λ f x, ltac:(solve_setter eta_Network reliable f x).
#[global] Instance set_longDelays : Setter longDelays := λ f x, ltac:(solve_setter eta_Network longDelays f x).
#[global] Instance set_longReordering : Setter longReordering := λ f x, ltac:(solve_setter eta_Network longReordering f x).
#[global] Instance set_ends : Setter ends := λ f x, ltac:(solve_setter eta_Network ends f x).
#[global] Instance set_enabled : Setter enabled := λ f x, ltac:(solve_setter eta_Network enabled f x).
#[global] Instance set_servers : Setter servers := λ f x, ltac:(solve_setter eta_Network servers f x).
#[global] Instance set_connections : Setter connections := λ f x, ltac:(solve_setter eta_Network connections f x).
#[global] Instance set_done_closed : Setter done_closed := λ f x, ltac:(solve_setter eta_Network done_closed f x).
#[global] Instance set_listening : Setter listening := λ f x, ltac:(solve_setter eta_Network listening f x).
#[global] Instance set_count : Setter count := λ f x, ltac:(solve_setter eta_Network count f x).
#[global] Instance set_bytes : Setter bytes := λ f x, ltac:(solve_setter eta_Network bytes f x).

Definition MakeNetwork : Network := mkNetwork true false false ∅ ∅ ∅ ∅ false true 0 0.

(** Closing a closed channel panics. *)
Definition Cleanup (rn : Network) : outcome Network :=
  if done_closed rn then Panic else Ret (rn <| done_closed := true |>).

Definition Reliable (rn : Network) (yes : bool) : Network := rn <| reliable := yes |>.
Definition LongReordering (rn : Network) (yes : bool) : Network := rn <| longReordering := yes |>.
Definition LongDelays (rn : Network) (yes : bool) : Network := rn <| longDelays := yes |>.

Definition is_enabled (rn : Network) (endname : Name) : bool := default false (enabled rn !! endname).
Definition server_at (rn : Network) (servername : Name) : option Z := servers rn !! servername ≫= id.

(** [servername] and [server] are nil where there is none. *)
Definition readEndnameInfo (rn : Network) (endname : Name) : bool * option Name * option Z * bool * bool :=
  let servername := connections rn !! endname ≫= id in
  (is_enabled rn endname, servername, servername ≫= server_at rn, reliable rn, longReordering rn).

Definition isServerDead (rn : Network) (endname servername : Name) (server : Z) : bool :=
  negb (is_enabled rn endname) || negb (bool_decide (server_at rn servername = Some server)).

Definition MakeEnd (rn : Network) (endname : Name) : outcome Network :=
  match ends rn !! endname with
  | Some _ => Panic
  | None => Ret (rn <| ends := <[endname := tt]> (ends rn) |>
                    <| enabled := <[endname := false]> (enabled rn) |>
                    <| connections := <[endname := None]> (connections rn) |>)
  end.

Definition DeleteEnd (rn : Network) (endname : Name) : outcome Network :=
  match ends rn !! endname with
  | None => Panic
  | Some _ => Ret (rn <| ends := delete endname (ends rn) |>
                      <| enabled := delete endname (enabled rn) |>
                      <| connections := delete endname (connections rn) |>)
  end.

Definition AddServer (rn : Network) (servername : Name) (rs : Z) : Network :=
  rn <| servers := <[servername := Some rs]> (servers rn) |>.
Definition DeleteServer (rn : Network) (servername : Name) : Network :=
  rn <| servers := <[servername := None]> (servers rn) |>.
Definition Connect (rn : Network) (endname servername : Name) : Network :=
  rn <| connections := <[endname := Some servername]> (connections rn) |>.
Definition Enable (rn : Network) (endname : Name) (yes : bool) : Network :=
  rn <| enabled := <[endname := yes]> (enabled rn) |>.

Definition Server_GetCount (rs : Server) : Z := sv_count rs.

(** [rn.servers[servername].GetCount()]: a nil pointer is dereferenced where there is no
    server. *)
Definition GetCount (rn : Network) (heap : gmap Z Server) (servername : Name) : outcome Z :=
  match server_at rn servername with
  | Some rs => match heap !! rs with Some s => Ret (Server_GetCount s) | None => Panic end
  | None => Panic
  end.

Definition GetTotalCount (rn : Network) : Z := count rn.
Definition GetTotalBytes (rn : Network) : Z := bytes rn.

(** ** Calls *)

(** The server a request goes to, and what else [readEndnameInfo] returned. *)
Record Route := mkRoute { r_name : Name; r_server : Z; r_reliable : bool; r_reordering : bool }.

(** The goroutines of [Call] and [processReq]. *)
Inductive Phase :=
| PSend                                        (* [Call] offers the request *)
| PStart                                       (* [processReq] begins *)
| PDelay (r : Route)                           (* the short delay, before the first draw *)
| PWait (r : Route)                            (* the loop around [ech] *)
| PCheck (r : Route) (reply : option replyMsg) (* after the loop; [None]: not [replyOK] *)
| PReply (msg : replyMsg)                      (* sends on [replyCh], at once or by a timer *)
| PDone.

(** The goroutine of the handler. *)
Inductive Exec :=
| XNone
| XStart (server : Z)                          (* before [Server.dispatch] *)
| XCall (svc : Service) (m : Method)           (* about to call the method *)
| XDone (reply : replyMsg).                    (* the reply is for [ech] *)

Record Call := mkCall {
  c_req : reqMsg;
  c_replyType : T;
  c_phase : Phase;
  c_exec : Exec;
  c_ret : option (option V);     (* what [Call] has returned: [Some v] is true with the reply [v] *)
}.

Definition new_call (endname : Name) (svcMeth : string) (v : V) (replyType : T) : Call :=
  mkCall (mkReqMsg endname svcMeth (type_of v) (Bytes (Encode NewEncoder v))) replyType PSend XNone None.

(** The end of [Call]. *)
Definition Call_return (replyType : T) (rep : replyMsg) : outcome (option V) :=
  if rm_ok rep then
    match decode_as replyType (rm_reply rep) with Some v => Ret (Some v) | None => Panic end
  else Ret None.

Record World := mkWorld {
  net : Network;
  srvs : gmap Z Server;
  objs : gmap Z O;
  calls : list Call;
}.

Inductive RpcEvent :=
| ReMakeEnd (endname : Name) | ReDeleteEnd (endname : Name)
| ReMakeServer (rs : Z) | ReAddService (rs : Z) (name : string) (receiver : Z) (ms : list Method)
| ReAddServer (servername : Name) (rs : Z) | ReDeleteServer (servername : Name)
| ReConnect (endname servername : Name) | ReEnable (endname : Name) (yes : bool)
| ReReliable (yes : bool) | ReLongReordering (yes : bool) | ReLongDelays (yes : bool)
| ReCleanup | ReExit                                    (* the listening goroutine returns *)
| ReObject (i : Z) (obj : O)                            (* the program changes a receiver itself *)
| ReCall (endname : Name) (svcMeth : string) (v : V) (replyType : T)
| ReSend (c : nat)                                      (* the request is received *)
| ReGone (c : nat)                                      (* [Call] finds the network destroyed *)
| ReRead (c : nat)                                      (* [readEndnameInfo] *)
| ReLaunch (c : nat) (drop : bool)                      (* the first draw; the handler starts *)
| ReDispatch (c : nat) | ReHandle (c : nat)             (* the goroutine of the handler *)
| ReTake (c : nat) | ReTimer (c : nat)                  (* the two cases of the [select] *)
| ReCheck (c : nat) (drop : bool)                       (* the last [isServerDead], the second draw *)
| ReReply (c : nat).                                    (* the answer is received *)

Definition set_net (w : World) (rn : Network) : World := mkWorld rn (srvs w) (objs w) (calls w).
Definition set_call (w : World) (c : nat) (cl : Call) : World :=
  mkWorld (net w) (srvs w) (objs w) (<[c := cl]> (calls w)).
Definition at_phase (cl : Call) (ph : Phase) : Call := mkCall (c_req cl) (c_replyType cl) ph (c_exec cl) (c_ret cl).
Definition at_exec (cl : Call) (x : Exec) : Call := mkCall (c_req cl) (c_replyType cl) (c_phase cl) x (c_ret cl).
Definition returned (cl : Call) (r : option V) : Call :=
  mkCall (c_req cl) (c_replyType cl) PDone (c_exec cl) (Some r).

(** [processReq], from one wait to the next. *)
Definition processReq_read (rn : Network) (cl : Call) : Call :=
  match readEndnameInfo rn (endname (c_req cl)) with
  | (true, Some servername, Some server, rel, reord) => at_phase cl (PDelay (mkRoute servername server rel reord))
  | _ => at_phase cl (PReply failed)
  end.

Definition processReq_launch (cl : Call) (r : Route) (drop : bool) : Call :=
  if negb (r_reliable r) && drop then at_phase cl (PReply failed)
  else at_exec (at_phase cl (PWait r)) (XStart (r_server r)).

Definition processReq_check (rn : Network) (cl : Call) (r : Route) (reply : option replyMsg) (drop : bool) : Call :=
  match reply with
  | Some msg =>
      if isServerDead rn (endname (c_req cl)) (r_name r) (r_server r) then at_phase cl (PReply failed)
      else if negb (r_reliable r) && drop then at_phase cl (PReply failed)
      else at_phase cl (PReply msg)
  | None => at_phase cl (PReply failed)
  end.

(** An event of the program or the network; [None]: it cannot happen. *)
Definition net_step (e : RpcEvent) (w : World) : option (outcome World) :=
  let rn := net w in
  match e with
  | ReMakeEnd n => Some (rn ← MakeEnd rn n; Ret (set_net w rn))
  | ReDeleteEnd n => Some (rn ← DeleteEnd rn n; Ret (set_net w rn))
  | ReMakeServer rs =>
      match srvs w !! rs with
      | Some _ => None
      | None => Some (Ret (mkWorld rn (<[rs := MakeServer]> (srvs w)) (objs w) (calls w)))
      end
  | ReAddService rs name receiver ms =>
      s ← srvs w !! rs;
      Some (Ret (mkWorld rn (<[rs := AddService s (MakeService name receiver ms)]> (srvs w)) (objs w) (calls w)))
  | ReAddServer n rs => _ ← srvs w !! rs; Some (Ret (set_net w (AddServer rn n rs)))
  | ReDeleteServer n => Some (Ret (set_net w (DeleteServer rn n)))
  | ReConnect e n => Some (Ret (set_net w (Connect rn e n)))
  | ReEnable e yes => Some (Ret (set_net w (Enable rn e yes)))
  | ReReliable yes => Some (Ret (set_net w (Reliable rn yes)))
  | ReLongReordering yes => Some (Ret (set_net w (LongReordering rn yes)))
  | ReLongDelays yes => Some (Ret (set_net w (LongDelays rn yes)))
  | ReCleanup => Some (rn ← Cleanup rn; Ret (set_net w rn))
  | ReExit => if done_closed rn then Some (Ret (set_net w (rn <| listening := false |>))) else None
  | ReObject i obj => Some (Ret (mkWorld rn (srvs w) (<[i := obj]> (objs w)) (calls w)))
  | _ => None
  end.

(** A step of call [c]. *)
Definition call_step (e : RpcEvent) (w : World) (c : nat) (cl : Call) : option (outcome World) :=
  let rn := net w in
  match e, c_phase cl with
  | ReSend _, PSend =>
      if listening rn then
        Some (Ret (set_call (set_net w (rn <| count := wrap 32 (count rn + 1) |>
                                           <| bytes := wrap 64 (bytes rn + len (args (c_req cl))) |>))
                     c (at_phase cl PStart)))
      else None
  | ReGone _, PSend => if done_closed rn then Some (Ret (set_call w c (returned cl None))) else None
  | ReRead _, PStart => Some (Ret (set_call w c (processReq_read rn cl)))
  | ReLaunch _ drop, PDelay r => Some (Ret (set_call w c (processReq_launch cl r drop)))
  | ReTake _, PWait r =>
      match c_exec cl with XDone msg => Some (Ret (set_call w c (at_phase cl (PCheck r (Some msg))))) | _ => None end
  | ReTimer _, PWait r =>
      Some (Ret (set_call w c (if isServerDead rn (endname (c_req cl)) (r_name r) (r_server r)
                               then at_phase cl (PCheck r None) else cl)))
  | ReCheck _ drop, PCheck r reply => Some (Ret (set_call w c (processReq_check rn cl r reply drop)))
  | ReReply _, PReply msg =>
      Some (v ← Call_return (c_replyType cl) msg;
            Ret (set_call (set_net w (rn <| bytes := wrap 64 (bytes rn + len (rm_reply msg)) |>)) c (returned cl v)))
  | _, _ => None
  end.

(** A step of the goroutine of the handler. *)
Definition exec_step (e : RpcEvent) (w : World) (c : nat) (cl : Call) : option (outcome World) :=
  match e, c_exec cl with
  | ReDispatch _, XStart server =>
      rs ← srvs w !! server;
      Some ('(rs, (svc, m)) ← Server_dispatch rs (c_req cl);
            Ret (mkWorld (net w) (<[server := rs]> (srvs w)) (objs w) (<[c := at_exec cl (XCall svc m)]> (calls w))))
  | ReHandle _, XCall svc m =>
      obj ← objs w !! rcvr svc;
      let '(obj, reply) := Service_call m (c_req cl) obj in
      Some (Ret (mkWorld (net w) (srvs w) (<[rcvr svc := obj]> (objs w)) (<[c := at_exec cl (XDone reply)]> (calls w))))
  | _, _ => None
  end.

Definition event_call (e : RpcEvent) : option nat :=
  match e with
  | ReSend c | ReGone c | ReRead c | ReLaunch c _ | ReDispatch c | ReHandle c | ReTake c | ReTimer c
  | ReCheck c _ | ReReply c => Some c
  | _ => None
  end.

Definition rpc_step (e : RpcEvent) (w : World) : option (outcome World) :=
  match e, event_call e with
  | ReCall n m v t, _ => Some (Ret (mkWorld (net w) (srvs w) (objs w) (calls w ++ [new_call n m v t])))
  | (ReDispatch _ | ReHandle _), Some c => cl ← calls w !! c; exec_step e w c cl
  | _, Some c => cl ← calls w !! c; call_step e w c cl
  | _, None => net_step e w
  end.

(** A run that does not end the program. *)
Fixpoint rpc_run (es : list RpcEvent) (w : World) : option World :=
  match es with
  | [] => Some w
  | e :: es => match rpc_step e w with Some (Ret w') => rpc_run es w' | _ => None end
  end.

(** Before the first call. *)
Definition rpc_init (heap : gmap Z O) : World := mkWorld MakeNetwork ∅ heap [].
Definition rpc_reachable (w : World) : Prop := ∃ heap es, rpc_run es (rpc_init heap) = Some w.

(** ** The specification: calls that are executed at most once *)

Record SpecCall := mkSpecCall {
  a_meth : string;
  a_arg : V;
  a_exec : option V;             (* the reply of the execution *)
  a_ret : option (option V);
}.

Record Spec := mkSpec {
  sp_objs : gmap Z O;
  sp_services : list Service;
  sp_calls : list SpecCall;
}.

(** A request is executed at most once, by the method it names; the caller may give
    up at any time, and gets a reply only from the execution. *)
Inductive spec_step : Spec → Spec → Prop :=
| spec_call objs svcs cs meth v :
    spec_step (mkSpec objs svcs cs) (mkSpec objs svcs (cs ++ [mkSpecCall meth v None None]))
| spec_object objs svcs cs i obj : spec_step (mkSpec objs svcs cs) (mkSpec (<[i := obj]> objs) svcs cs)
| spec_service objs svcs cs name receiver ms :
    spec_step (mkSpec objs svcs cs) (mkSpec objs (MakeService name receiver ms :: svcs) cs)
| spec_execute objs svcs cs c a svc methname m obj :
    cs !! c = Some a → a_exec a = None →
    svc ∈ svcs → split_last_dot (a_meth a) = Ret (svc_name svc, methname) → methods svc !! methname = Some m →
    objs !! rcvr svc = Some obj →
    spec_step (mkSpec objs svcs cs)
      (mkSpec (<[rcvr svc := (m_Func m obj (a_arg a)).1]> objs) svcs
         (<[c := mkSpecCall (a_meth a) (a_arg a) (Some (m_Func m obj (a_arg a)).2) (a_ret a)]> cs))
| spec_return objs svcs cs c a r :
    cs !! c = Some a → a_ret a = None → (∀ v, r = Some v → a_exec a = Some v) →
    spec_step (mkSpec objs svcs cs)
      (mkSpec objs svcs (<[c := mkSpecCall (a_meth a) (a_arg a) (a_exec a) (Some r)]> cs)).

Definition call_arg (req : reqMsg) : V := default (zero_of (argsType req)) (decode_as (argsType req) (args req)).

Definition abs_exec (x : Exec) : option V :=
  match x with XDone msg => fst <$> Decode Some (NewDecoder (rm_reply msg)) | _ => None end.

Definition abs_call (cl : Call) : SpecCall :=
  mkSpecCall (svcMeth (c_req cl)) (call_arg (c_req cl)) (abs_exec (c_exec cl)) (c_ret cl).

(** ** Invariant of a call *)

Definition phase_ok (cl : Call) : Prop :=
  match c_phase cl with
  | PSend | PStart | PDelay _ => c_exec cl = XNone ∧ c_ret cl = None
  | PWait _ => c_exec cl ≠ XNone ∧ c_ret cl = None
  | PCheck _ None => c_ret cl = None
  | PCheck _ (Some msg) => c_exec cl = XDone msg ∧ c_ret cl = None
  | PReply msg => (msg = failed ∨ c_exec cl = XDone msg) ∧ c_ret cl = None
  | PDone => is_Some (c_ret cl)
  end.

Definition exec_ok (svcs : list Service) (cl : Call) : Prop :=
  match c_exec cl with
  | XCall svc m => svc ∈ svcs ∧ ∃ methname,
      split_last_dot (svcMeth (c_req cl)) = Ret (svc_name svc, methname) ∧ methods svc !! methname = Some m
  | XDone msg => ∃ v, msg = mkReplyMsg true (Bytes (Encode NewEncoder v))
  | _ => True
  end.

Record refines (w : World) (A : Spec) : Prop := {
  ref_objs : sp_objs A = objs w;
  ref_calls : sp_calls A = abs_call <$> calls w;
  ref_phase : Forall phase_ok (calls w);
  ref_exec : Forall (exec_ok (sp_services A)) (calls w);
  ref_services rs s name svc :
    srvs w !! rs = Some s → services s !! name = Some svc → svc ∈ sp_services A ∧ svc_name svc = name;
}.

Lemma decode_encoded v : decode_as (type_of v) (Bytes (Encode NewEncoder v)) = Some v.
Proof. unfold decode_as. rewrite NewDecoder_Bytes. simpl. by rewrite decide_True. Qed.

(** A reply that decodes is the one that was encoded. *)
Lemma Call_return_done t msg v :
  Call_return t msg = Ret (Some v) → fst <$> Decode Some (NewDecoder (rm_reply msg)) = Some v.
Proof.
  unfold Call_return, decode_as. destruct (rm_ok msg); [|done].
  destruct (NewDecoder (rm_reply msg)) as [|v' ?]; simpl; [done|]. case_decide; simpl; [|done]. by intros [= ->].
Qed.

(** The calls change at one place, without a step of the specification or with the
    given one. *)
Lemma refines_call w w' A c cl cl' :
  refines w A → calls w !! c = Some cl → calls w' = <[c := cl']> (calls w) →
  objs w' = objs w → (∀ rs s', srvs w' !! rs = Some s' → ∃ s, srvs w !! rs = Some s ∧ services s' = services s) →
  phase_ok cl' → exec_ok (sp_services A) cl' →
  refines w' (mkSpec (sp_objs A) (sp_services A) (<[c := abs_call cl']> (sp_calls A))).
Proof.
  intros [Ho Hc Hp Hx Hs] Hcl Hw Hwo Hws Hp' Hx'. split; simpl.
  - congruence.
  - by rewrite Hw, Hc, list_fmap_insert.
  - rewrite Hw. by apply Forall_insert.
  - rewrite Hw. by apply Forall_insert.
  - intros rs s name svc (s0 & Hs0 & ->)%Hws. by eapply Hs.
Qed.

Lemma same_services w w' :
  srvs w' = srvs w → ∀ rs s', srvs w' !! rs = Some s' → ∃ s, srvs w !! rs = Some s ∧ services s' = services s.
Proof. intros -> rs s' Hs'. by exists s'. Qed.

(** The network moves on, the specification does not. *)
Lemma refines_quiet w w' A c cl cl' :
  refines w A → calls w !! c = Some cl → calls w' = <[c := cl']> (calls w) →
  objs w' = objs w → srvs w' = srvs w → abs_call cl' = abs_call cl →
  phase_ok cl' → exec_ok (sp_services A) cl' → ∃ A', rtc spec_step A A' ∧ refines w' A'.
Proof.
  intros HR Hcl Hw Ho Hs Ha Hp Hx. eexists. split; [|eapply refines_call; [done|done|done|done|by apply same_services|done|done]].
  rewrite Ha, list_insert_id; [by destruct A|]. by rewrite (ref_calls _ _ HR), list_lookup_fmap, Hcl.
Qed.

(** A call returns. *)
Lemma refines_return w w' A c cl r :
  refines w A → calls w !! c = Some cl → calls w' = <[c := returned cl r]> (calls w) →
  objs w' = objs w → srvs w' = srvs w → c_ret cl = None → (∀ v, r = Some v → abs_exec (c_exec cl) = Some v) →
  ∃ A', rtc spec_step A A' ∧ refines w' A'.
Proof.
  intros HR Hcl Hw Ho Hs Hr Hv. eexists. split; [|eapply refines_call; [done|done|done|done|by apply same_services|..]].
  - apply rtc_once. destruct A as [o svcs cs]. apply (spec_return _ _ _ c (abs_call cl)); [|done|done].
    pose proof (ref_calls _ _ HR) as Hc. simpl in Hc. by rewrite Hc, list_lookup_fmap, Hcl.
  - by eexists.
  - apply (Forall_lookup_1 _ _ _ _ (ref_exec _ _ HR) Hcl).
Qed.

Lemma call_step_refines e w A c cl w' :
  refines w A → calls w !! c = Some cl → call_step e w c cl = Some (Ret w') → ∃ A', rtc spec_step A A' ∧ refines w' A'.
Proof.
  intros HR Hcl H. pose proof (Forall_lookup_1 _ _ _ _ (ref_phase _ _ HR) Hcl) as Hp.
  pose proof (Forall_lookup_1 _ _ _ _ (ref_exec _ _ HR) Hcl) as Hx. unfold phase_ok in Hp.
  assert (∀ ph, phase_ok (at_phase cl ph) → calls w' = <[c := at_phase cl ph]> (calls w) →
    objs w' = objs w → srvs w' = srvs w → ∃ A', rtc spec_step A A' ∧ refines w' A') as Hmove.
  { intros ph Hok Hw Ho Hs. by eapply refines_quiet. }
  unfold call_step in H. destruct e; try discriminate H; destruct (c_phase cl) as [| |r|r|r reply|msg|] eqn:Hph; try discriminate H.
  - destruct (listening _); [|discriminate H]. simplify_eq. by apply (Hmove PStart).
  - destruct (done_closed _); [|discriminate H]. simplify_eq.
    eapply refines_return; [done|done|done|done|done|apply Hp|by intros ? [=]].
  - unfold processReq_read in H. destruct Hp as [Hp1 Hp2].
    repeat case_match; simplify_eq; first [by eapply (Hmove (PReply failed)); [split; [by left|]|..]|by eapply (Hmove (PDelay _))].
  - unfold processReq_launch in H. destruct Hp as [Hp1 Hp2]. destruct (_ && _); simplify_eq.
    + by eapply (Hmove (PReply failed)); [split; [by left|]|..].
    + eapply refines_quiet; [done|done|done|done|done|by unfold abs_call; simpl; rewrite Hp1|done|done].
  - destruct (c_exec cl) as [| | |msg] eqn:Hex; try discriminate H. simplify_eq. by apply (Hmove (PCheck r (Some msg))); [split; [done|apply Hp]|..].
  - destruct (isServerDead _ _ _ _); simplify_eq; [by apply (Hmove (PCheck r None)); [apply Hp|..]|].
    eapply refines_quiet; [done|done|done|done|done|done| |done]. unfold phase_ok. by rewrite Hph.
  - unfold processReq_check in H. destruct reply as [msg|].
    + destruct Hp as [Hp1 Hp2]. repeat case_match; simplify_eq; [by eapply (Hmove (PReply failed)); [split; [by left|]|..]..|].
      by eapply (Hmove (PReply msg)); [split; [by right|]|..].
    + simplify_eq. by eapply (Hmove (PReply failed)); [split; [by left|]|..].
  - apply (inj Some) in H. apply outcome_bind_Ret in H as (r & Hr & [= <-]). destruct Hp as [Hp1 Hp2].
    eapply refines_return; [done|done|done|done|done|done|]. intros v ->.
    destruct Hp1 as [->|Hex]; [discriminate Hr|]. rewrite Hex. simpl. by eapply Call_return_done.
Qed.

Lemma phase_ok_exec cl x : (∀ msg, c_exec cl ≠ XDone msg) → c_exec cl ≠ XNone → x ≠ XNone → phase_ok cl → phase_ok (at_exec cl x).
Proof.
  unfold phase_ok. simpl. intros Hx Hn Hx'. destruct (c_phase cl) as [| |r|r|r [msg|]|msg|]; naive_solver.
Qed.

Lemma exec_step_refines e w A c cl w' :
  refines w A → calls w !! c = Some cl → exec_step e w c cl = Some (Ret w') → ∃ A', rtc spec_step A A' ∧ refines w' A'.
Proof.
  intros HR Hcl H. pose proof (Forall_lookup_1 _ _ _ _ (ref_phase _ _ HR) Hcl) as Hp.
  pose proof (Forall_lookup_1 _ _ _ _ (ref_exec _ _ HR) Hcl) as Hx. unfold exec_ok in Hx.
  assert (sp_calls A !! c = Some (abs_call cl)) as Ha by (by rewrite (ref_calls _ _ HR), list_lookup_fmap, Hcl).
  unfold exec_step in H. destruct e; try discriminate H; destruct (c_exec cl) as [|server|svc m|msg] eqn:Hex; try discriminate H.
  - destruct (srvs w !! server) as [rs|] eqn:Hrs; [|discriminate H]. apply (inj Some) in H.
    apply outcome_bind_Ret in H as ([rs' [svc m]] & Hd & [= <-]). unfold Server_dispatch in Hd.
    apply outcome_bind_Ret in Hd as ([sname mname] & Hsplit & Hd).
    destruct (services _ !! sname) as [svc'|] eqn:Hsvc; [|discriminate Hd].
    apply outcome_bind_Ret in Hd as (m' & Hm & [= <- -> ->]). unfold Service_method in Hm.
    destruct (methods svc !! mname) eqn:Hmeth; [|discriminate Hm]. injection Hm as ->. simpl in Hsvc.
    destruct (ref_services _ _ HR _ _ _ _ Hrs Hsvc) as [Hin Hname]. eexists. split; [|eapply refines_call; [done|done|done|done|..]].
    + rewrite list_insert_id; [by destruct A|]. rewrite Ha. unfold abs_call. simpl. by rewrite Hex.
    + simpl. intros rs1 s' [[<- <-]|[_ ?]]%lookup_insert_Some; [by exists rs|by exists s'].
    + by apply phase_ok_exec; rewrite ?Hex.
    + split; [done|]. exists mname. by rewrite Hname.
  - destruct (objs w !! rcvr svc) as [obj|] eqn:Hobj; [|discriminate H]. simpl in H.
    unfold Service_call in H. fold (call_arg (c_req cl)) in H.
    destruct (m_Func m obj (call_arg (c_req cl))) as [obj' reply] eqn:Hf. simplify_eq.
    destruct Hx as (Hin & mname & Hsplit & Hm). destruct A as [o svcs cs]. simpl in *. eexists. split.
    + apply rtc_once. pose proof (ref_objs _ _ HR) as Ho. simpl in Ho. rewrite <-Ho in Hobj.
      eapply (spec_execute _ _ _ c (abs_call cl) svc mname m obj); try done. simpl. by rewrite Hex.
    + destruct HR as [Ho Hc Hp0 Hx0 Hs]. simpl in *. rewrite Hf. split; simpl; [by rewrite Ho|..|done].
      * rewrite Hc, list_fmap_insert. f_equal. unfold abs_call. simpl. by rewrite NewDecoder_Bytes.
      * apply Forall_insert; [done|]. apply phase_ok_exec; by rewrite ?Hex.
      * apply Forall_insert; [done|]. by exists reply.
Qed.

Lemma net_step_refines e w A w' :
  refines w A → net_step e w = Some (Ret w') → ∃ A', rtc spec_step A A' ∧ refines w' A'.
Proof.
  intros HR H.
  assert (∀ rn, refines (set_net w rn) A) as Hnet by (intros rn; by destruct HR).
  assert (∀ rn, w' = set_net w rn → ∃ A', rtc spec_step A A' ∧ refines w' A') as Hq by (intros rn ->; by exists A).
  unfold net_step in H. destruct e as [n|n|rs|rs name receiver ms|n rs|n|n n'|n yes|yes|yes|yes| | |i obj| | | | | | | | | | |];
    try discriminate H; try (by simplify_eq; eapply Hq).
  1,2,6: apply (inj Some), outcome_bind_Ret in H as (rn & _ & [= <-]); by eapply Hq.
  - destruct (srvs w !! rs) eqn:Hrs; [discriminate H|]. simplify_eq. exists A. split; [done|].
    destruct HR as [Ho Hc Hp Hx Hs]. split; simpl; try done.
    intros rs' s name svc [[<- <-]|[_ ?]]%lookup_insert_Some; [by simpl; rewrite lookup_empty|by eapply Hs].
  - destruct (srvs w !! rs) as [s0|] eqn:Hrs; [|discriminate H]. simplify_eq/=. destruct A as [o svcs cs].
    eexists. split; [apply rtc_once, spec_service|]. destruct HR as [Ho Hc Hp Hx Hs]. simpl in *. split; simpl; try done.
    + eapply Forall_impl; [done|]. intros cl. unfold exec_ok. simpl. destruct (c_exec cl); try done.
      intros [? ?]. split; [by right|done].
    + intros rs' s name' svc [[<- <-]|[_ Hl]]%lookup_insert_Some.
      * simpl. intros [[<- <-]|[_ ?]]%lookup_insert_Some; [split; [by left|done]|].
        destruct (Hs rs s0 name' svc) as [? ?]; [done|done|]. split; [by right|done].
      * intros Hl'. destruct (Hs rs' s name' svc) as [? ?]; [done|done|]. split; [by right|done].
  - destruct (srvs w !! rs); [|discriminate H]. simplify_eq/=. by eapply Hq.
  - destruct (done_closed _); [|discriminate H]. simplify_eq. by eapply Hq.
  - simplify_eq. destruct A as [o svcs cs]. eexists. split; [apply rtc_once, (spec_object _ _ _ i obj)|].
    destruct HR as [Ho Hc Hp Hx Hs]. simpl in *. split; simpl; [by rewrite Ho|done..].
Qed.

Lemma rpc_step_refines e w A w' :
  refines w A → rpc_step e w = Some (Ret w') → ∃ A', rtc spec_step A A' ∧ refines w' A'.
Proof.
  intros HR H. unfold rpc_step in H.
  destruct e; cbn [event_call] in H; try (by eapply net_step_refines);
    try (destruct (calls w !! c) as [cl|] eqn:Hcl; [|discriminate H]; cbv [mbind option_bind] in H; first [by eapply call_step_refines|by eapply exec_step_refines]).
  simplify_eq. destruct A as [o svcs cs]. eexists. split; [apply rtc_once, (spec_call _ _ _ svcMeth0 v)|].
  destruct HR as [Ho Hc Hp Hx Hs]. simpl in *. split; simpl; try done.
  - rewrite Hc, fmap_app. simpl. unfold abs_call, call_arg. simpl. by rewrite decode_encoded.
  - by apply Forall_app_2; [|apply Forall_singleton].
  - by apply Forall_app_2; [|apply Forall_singleton].
Qed.

Lemma rpc_run_refines es w A w' :
  refines w A → rpc_run es w = Some w' → ∃ A', rtc spec_step A A' ∧ refines w' A'.
Proof.
  revert w A. induction es as [|e es IH]; intros w A HR H; simpl in H.
  { injection H as <-. by exists A. }
  destruct (rpc_step e w) as [[w1|]|] eqn:He; try discriminate H.
  destruct (rpc_step_refines _ _ _ _ HR He) as (A1 & HA1 & HR1).
  destruct (IH _ _ HR1 H) as (A2 & HA2 & HR2). exists A2. split; [by etrans|done].
Qed.

Lemma rpc_init_refines heap : refines (rpc_init heap) (mkSpec heap [] []).
Proof. by split. Qed.

(** ** The end of a call *)

Definition prank (ph : Phase) : nat :=
  match ph with PSend => 6 | PStart => 5 | PDelay _ => 4 | PWait _ => 3 | PCheck _ _ => 2 | PReply _ => 1 | PDone => 0 end.
Definition xrank (x : Exec) : nat :=
  match x with XNone => 3 | XStart _ => 2 | XCall _ _ => 1 | XDone _ => 0 end.
Definition rank (cl : Call) : nat := (prank (c_phase cl) + xrank (c_exec cl))%nat.

(** Events of call [c] other than the polling of the server. *)
Definition moves (c : nat) (e : RpcEvent) : bool :=
  match e with ReTimer _ => false | _ => bool_decide (event_call e = Some c) end.

Definition rank_at (w : World) (c : nat) : nat := match calls w !! c with Some cl => rank cl | None => 9 end.

Lemma rank_bound cl : (rank cl ≤ 9)%nat.
Proof. unfold rank. destruct (c_phase cl), (c_exec cl); simpl; lia. Qed.

Lemma phase_ok_xnone cl : phase_ok cl → prank (c_phase cl) = 4%nat → c_exec cl = XNone.
Proof. unfold phase_ok. destruct (c_phase cl); try done. by intros [? _]. Qed.

(** Every event of a call but a poll takes it nearer to its end. *)
Lemma call_step_rank e w c cl w' :
  phase_ok cl → call_step e w c cl = Some (Ret w') →
  ∃ cl', calls w' = <[c := cl']> (calls w) ∧ (rank cl' ≤ rank cl)%nat ∧
    ((∀ c', e ≠ ReTimer c') → rank cl' < rank cl)%nat.
Proof.
  intros Hok H. pose proof (phase_ok_xnone cl Hok) as Hp. clear Hok. unfold call_step in H. unfold rank.
  destruct e; try discriminate H; destruct (c_phase cl) as [| |r|r|r reply|msg|] eqn:Hph; try discriminate H.
  - destruct (listening _); [|discriminate H]. simplify_eq. eexists. split; [done|]. simpl. lia.
  - destruct (done_closed _); [|discriminate H]. simplify_eq. eexists. split; [done|]. simpl. lia.
  - simplify_eq. eexists. split; [done|]. unfold processReq_read. repeat case_match; simpl; lia.
  - simplify_eq. eexists. split; [done|]. rewrite (Hp eq_refl). unfold processReq_launch.
    case_match; simpl; rewrite ?(Hp eq_refl); simpl; lia.
  - destruct (c_exec cl) as [| | |msg] eqn:Hex; try discriminate H. simplify_eq. eexists. split; [done|]. simpl. rewrite Hex. simpl. lia.
  - simplify_eq. eexists. split; [done|]. case_match; simpl; rewrite ?Hph; simpl; (split; [lia|]; intros Hne; by destruct (Hne c0)).
  - simplify_eq. eexists. split; [done|]. unfold processReq_check. repeat case_match; simpl; lia.
  - apply (inj Some), outcome_bind_Ret in H as (r & _ & [= <-]). eexists. split; [done|]. simpl. lia.
Qed.

Lemma call_step_calls e w c cl w' : call_step e w c cl = Some (Ret w') → ∃ cl', calls w' = <[c := cl']> (calls w).
Proof.
  intros H. unfold call_step in H.
  destruct e; try discriminate H; destruct (c_phase cl); try discriminate H; repeat case_match; try discriminate H;
    try (apply (inj Some), outcome_bind_Ret in H as (? & _ & [= <-])); simplify_eq/=; by eexists.
Qed.

Lemma exec_step_rank e w c cl w' :
  exec_step e w c cl = Some (Ret w') → ∃ cl', calls w' = <[c := cl']> (calls w) ∧ (rank cl' < rank cl)%nat.
Proof.
  intros H. unfold exec_step in H. unfold rank.
  destruct e; try discriminate H; destruct (c_exec cl) as [|server|svc m|msg] eqn:Hex; try discriminate H.
  - destruct (srvs w !! server); [|discriminate H].
    apply (inj Some), outcome_bind_Ret in H as ([? [??]] & _ & [= <-]). eexists. split; [done|]. simpl. lia.
  - destruct (objs w !! rcvr svc) as [obj|]; [|discriminate H]. simpl in H.
    destruct (Service_call m (c_req cl) obj). simplify_eq. eexists. split; [done|]. simpl. lia.
Qed.

Lemma net_step_calls e w w' : net_step e w = Some (Ret w') → calls w' = calls w.
Proof.
  intros H. unfold net_step in H. destruct e; try discriminate H; try by simplify_eq.
  1,2,6: apply (inj Some), outcome_bind_Ret in H as (rn & _ & [= <-]); done.
  - destruct (srvs w !! rs); by simplify_eq.
  - destruct (srvs w !! rs); by simplify_eq/=.
  - destruct (srvs w !! rs); by simplify_eq/=.
  - destruct (done_closed _); by simplify_eq.
Qed.

(** The calls after an event: one of them moves, one is new, or none changes. *)
Lemma rpc_step_calls e w w' :
  rpc_step e w = Some (Ret w') →
  (∃ c cl, event_call e = Some c ∧ calls w !! c = Some cl ∧
     (call_step e w c cl = Some (Ret w') ∨ exec_step e w c cl = Some (Ret w'))) ∨
  (event_call e = None ∧ ((∃ cl, calls w' = calls w ++ [cl]) ∨ calls w' = calls w)).
Proof.
  intros H. unfold rpc_step in H. destruct (event_call e) as [c|] eqn:Hev.
  - left. exists c. destruct e; try discriminate Hev; rewrite Hev in H; cbv [mbind option_bind] in H;
      (destruct (calls w !! c) as [cl|]; [|discriminate H]); exists cl; (split; [done|]); (split; [done|]); first [by left|by right].
  - right. split; [done|]. destruct e; try discriminate Hev; try (right; by apply net_step_calls in H). left. simplify_eq. by eexists.
Qed.

Lemma rpc_step_rank e w A c w' :
  refines w A → rpc_step e w = Some (Ret w') →
  (rank_at w' c + (if moves c e then 1 else 0) ≤ rank_at w c)%nat.
Proof.
  intros HR H. destruct (rpc_step_calls _ _ _ H) as [(c' & cl & Hev & Hcl & Hst)|[Hev Hw]].
  - assert (∃ cl', calls w' = <[c' := cl']> (calls w) ∧ (rank cl' ≤ rank cl)%nat ∧
      ((∀ c', e ≠ ReTimer c') → rank cl' < rank cl)%nat) as (cl' & Hw & Hle & Hlt).
    { destruct Hst as [Hst|Hst].
      - eapply call_step_rank; [|done]. by eapply Forall_lookup_1; [apply (ref_phase _ _ HR)|].
      - apply exec_step_rank in Hst as (cl' & ? & ?). exists cl'. split_and!; [done|lia|lia]. }
    unfold rank_at. rewrite Hw. destruct (decide (c' = c)) as [->|Hc].
    + rewrite list_lookup_insert_eq, Hcl by (by apply lookup_lt_Some in Hcl).
      destruct (moves c e) eqn:Hm; [|lia]. assert (rank cl' < rank cl)%nat; [apply Hlt; by intros c1 ->|lia].
    + rewrite list_lookup_insert_ne by done. assert (moves c e = false) as ->; [|lia].
      destruct e; simplify_eq/=; try done; by apply bool_decide_eq_false; intros [=].
  - assert (moves c e = false) as -> by (destruct e; simplify_eq/=; try done; by apply bool_decide_eq_false).
    rewrite Nat.add_0_r. unfold rank_at. destruct Hw as [[cl Hw]| ->]; [|done]. rewrite Hw.
    destruct (calls w !! c) as [cl'|] eqn:Hcl; [by rewrite (lookup_app_l_Some _ _ _ _ Hcl)|].
    case_match; [apply rank_bound|done].
Qed.

Lemma rpc_run_rank es w A c w' :
  refines w A → rpc_run es w = Some w' → (length (filter (moves c) es) + rank_at w' c ≤ rank_at w c)%nat.
Proof.
  revert w A. induction es as [|e es IH]; intros w A HR H; simpl in H.
  { injection H as <-. simpl. lia. }
  destruct (rpc_step e w) as [[w1|]|] eqn:He; try discriminate H.
  pose proof (rpc_step_rank _ _ _ c _ HR He) as Hle. destruct (rpc_step_refines _ _ _ _ HR He) as (A1 & _ & HR1).
  specialize (IH _ _ HR1 H). rewrite filter_cons. destruct (moves c e); simpl; lia.
Qed.

(** The goroutine of the network stops only when [done] is closed. *)
Definition net_ok (rn : Network) : Prop := listening rn = false → done_closed rn = true.

(** The server under a name after an event. *)
Definition server_after (e : RpcEvent) (rn : Network) (n : Name) : option Z :=
  match e with
  | ReAddServer n' rs => if decide (n' = n) then Some rs else server_at rn n
  | ReDeleteServer n' => if decide (n' = n) then None else server_at rn n
  | _ => server_at rn n
  end.

Lemma rpc_step_net e w w' :
  net_ok (net w) → rpc_step e w = Some (Ret w') →
  net_ok (net w') ∧ ∀ n, server_at (net w') n = server_after e (net w) n.
Proof.
  unfold net_ok, server_after. intros Hok H. unfold rpc_step in H.
  destruct e as [n|n|rs|rs name receiver ms|n rs|n|n n'|n yes|yes|yes|yes| | |i obj|n m v t|c|c|c|c d|c|c|c|c|c d|c];
    cbn [event_call] in H; cbv [mbind option_bind] in H;
    try (destruct (calls w !! c) as [cl|]; [|discriminate H]); unfold call_step, exec_step, net_step in H;
    repeat (case_match; try discriminate H);
    try (apply (inj Some), outcome_bind_Ret in H as (? & Hop & [= <-])); simplify_eq/=; try by split.
  - unfold MakeEnd in Hop. case_match; by simplify_eq.
  - unfold DeleteEnd in Hop. case_match; by simplify_eq.
  - destruct (srvs w !! rs); by simplify_eq/=.
  - destruct (srvs w !! rs); simplify_eq/=. split; [done|]. intros n'. unfold server_at. simpl.
    by case_decide as Hn; [rewrite Hn, lookup_insert_eq|rewrite lookup_insert_ne].
  - split; [done|]. intros n'. unfold server_at. simpl.
    by case_decide as Hn; [rewrite Hn, lookup_insert_eq|rewrite lookup_insert_ne].
  - unfold Cleanup in Hop. case_match; by simplify_eq.
  - split; [intros; congruence|done].
  - destruct (srvs w !! _); [|discriminate H].
    by apply (inj Some), outcome_bind_Ret in H as ([? [??]] & _ & [= <-]).
  - destruct (objs w !! _) as [obj|]; [|discriminate H]. simpl in H. destruct (Service_call _ _ obj). by simplify_eq.
Qed.

Lemma rpc_run_net es w w' : net_ok (net w) → rpc_run es w = Some w' → net_ok (net w').
Proof.
  revert w. induction es as [|e es IH]; intros w Hok H; simpl in H; [by injection H as <-|].
  destruct (rpc_step e w) as [[w1|]|] eqn:He; try discriminate H. eapply IH; [|done].
  by apply (rpc_step_net _ _ _ Hok He).
Qed.

(** The method a call names is there, and its reply has the type the caller expects. *)
Definition handled (w : World) (cl : Call) (svc : Service) (m : Method) : Prop :=
  is_Some (objs w !! rcvr svc) ∧ ∀ obj v, type_of (m_Func m obj v).2 = c_replyType cl.

Definition served (w : World) (cl : Call) (server : Z) : Prop :=
  ∃ s s' svc m, srvs w !! server = Some s ∧ Server_dispatch s (c_req cl) = Ret (s', (svc, m)) ∧ handled w cl svc m.

Definition answerable (w : World) (cl : Call) : Prop :=
  match c_exec cl with
  | XNone =>
      match c_phase cl with
      | PDelay r => served w cl (r_server r)
      | _ => ∀ servername server, server_at (net w) servername = Some server → served w cl server
      end
  | XStart server => served w cl server
  | XCall svc m => handled w cl svc m
  | XDone msg => is_Some (decode_as (c_replyType cl) (rm_reply msg))
  end.

(** Such a call can always take a step. *)
Lemma call_progress w c cl :
  net_ok (net w) → phase_ok cl → calls w !! c = Some cl → c_ret cl = None → answerable w cl →
  ∃ e w' cl', moves c e = true ∧ rpc_step e w = Some (Ret w') ∧ calls w' !! c = Some cl' ∧ answerable w' cl'.
Proof.
  intros Hn Hp Hcl Hr Ha. pose proof (lookup_lt_Some _ _ _ Hcl) as Hlt.
  assert (∀ e w' cl', moves c e = true → rpc_step e w = Some (Ret w') → calls w' = <[c := cl']> (calls w) →
    answerable w' cl' →
    ∃ e w' cl', moves c e = true ∧ rpc_step e w = Some (Ret w') ∧ calls w' !! c = Some cl' ∧ answerable w' cl') as Hgo.
  { intros e w' cl' Hm He Hw Ha'. exists e, w', cl'. split_and!; [done|done| |done]. by rewrite Hw, list_lookup_insert_eq. }
  unfold phase_ok in Hp. unfold answerable in Ha.
  destruct (c_phase cl) as [| |r|r|r reply|msg|] eqn:Hph.
  - destruct Hp as [Hx _]. rewrite Hx in Ha. destruct (listening (net w)) eqn:Hl.
    + eapply (Hgo (ReSend c)); [by apply bool_decide_eq_true|unfold rpc_step; simpl; rewrite Hcl; simpl; by rewrite Hph, Hl|done|by unfold answerable; simpl; rewrite Hx].
    + eapply (Hgo (ReGone c)); [by apply bool_decide_eq_true|unfold rpc_step; simpl; rewrite Hcl; simpl; by rewrite Hph, (Hn Hl)|done|by unfold answerable; simpl; rewrite Hx].
  - destruct Hp as [Hx _]. rewrite Hx in Ha.
    eapply (Hgo (ReRead c)); [by apply bool_decide_eq_true|unfold rpc_step; simpl; rewrite Hcl; simpl; rewrite Hph; reflexivity|done|].
    unfold processReq_read. destruct (readEndnameInfo _ _) as [[[[[] [n|]] [sv|]] rel] reord] eqn:Hi;
      unfold answerable; simpl; rewrite Hx; try exact Ha. apply (Ha n).
    unfold readEndnameInfo in Hi. injection Hi as _ Hname Hserver _ _. by rewrite Hname in Hserver.
  - destruct Hp as [Hx _]. rewrite Hx in Ha.
    eapply (Hgo (ReLaunch c false)); [by apply bool_decide_eq_true|unfold rpc_step; simpl; rewrite Hcl; simpl; rewrite Hph; reflexivity|done|].
    unfold processReq_launch. rewrite andb_false_r. exact Ha.
  - destruct Hp as [Hx _]. destruct (c_exec cl) as [|server|svc m|msg] eqn:Hex; [done|..].
    + destruct Ha as (s & s' & svc & m & Hs & Hd & Hh).
      eapply (Hgo (ReDispatch c)); [by apply bool_decide_eq_true|unfold rpc_step; simpl; rewrite Hcl; simpl; by rewrite Hex, Hs; simpl; rewrite Hd|done|exact Hh].
    + destruct Ha as [[obj Hobj] Ht]. specialize (Ht obj (call_arg (c_req cl))).
      destruct (m_Func m obj (call_arg (c_req cl))) as [obj' reply] eqn:Hf.
      eapply (Hgo (ReHandle c)); [by apply bool_decide_eq_true|unfold rpc_step; simpl; rewrite Hcl; simpl; by rewrite Hex, Hobj; simpl; unfold Service_call; fold (call_arg (c_req cl)); rewrite Hf|done|].
      unfold answerable. simpl. exists reply. rewrite <-Ht. apply decode_encoded.
    + eapply (Hgo (ReTake c)); [by apply bool_decide_eq_true|unfold rpc_step; simpl; rewrite Hcl; simpl; by rewrite Hph, Hex|done|by unfold answerable; simpl; rewrite Hex].
  - eapply (Hgo (ReCheck c false)); [by apply bool_decide_eq_true|unfold rpc_step; simpl; rewrite Hcl; simpl; rewrite Hph; reflexivity|done|].
    unfold processReq_check. destruct reply; [|exact Ha].
    destruct (isServerDead _ _ _ _); [exact Ha|]. by rewrite andb_false_r.
  - assert (∃ v, Call_return (c_replyType cl) msg = Ret v) as [v Hv].
    { destruct Hp as [[->|Hex] _]; [by eexists|]. rewrite Hex in Ha. destruct Ha as [v Hv].
      unfold Call_return. rewrite Hv. destruct (rm_ok msg); by eexists. }
    eapply (Hgo (ReReply c)); [by apply bool_decide_eq_true|unfold rpc_step; simpl; rewrite Hcl; simpl; by rewrite Hph, Hv|done|exact Ha].
  - rewrite Hr in Hp. by destruct Hp.
Qed.

(** ** A deleted server *)

(** The call goes to server [sv] under the name [n], or has failed. *)
Definition doomed (n : Name) (sv : Z) (cl : Call) : Prop :=
  match c_phase cl with
  | PDelay r | PWait r | PCheck r _ => r_name r = n ∧ r_server r = sv ∧ c_ret cl = None
  | PReply msg => msg = failed ∧ c_ret cl = None
  | PDone => c_ret cl = Some None
  | _ => False
  end.

Lemma isServerDead_gone rn e n sv : server_at rn n ≠ Some sv → isServerDead rn e n sv = true.
Proof. intros Hne. unfold isServerDead. rewrite (bool_decide_eq_false_2 _ Hne). apply orb_true_r. Qed.

Lemma call_step_doomed n sv e w c cl w' :
  server_at (net w) n ≠ Some sv → doomed n sv cl → call_step e w c cl = Some (Ret w') →
  ∃ cl', calls w' = <[c := cl']> (calls w) ∧ doomed n sv cl'.
Proof.
  intros Hgone Hd H. unfold doomed in Hd. unfold call_step in H.
  destruct e; try discriminate H; destruct (c_phase cl) as [| |r|r|r reply|msg|] eqn:Hph; try discriminate H; try done.
  - simplify_eq. eexists. split; [done|]. unfold processReq_launch. case_match; [by split; [|apply Hd]|done].
  - destruct (c_exec cl); try discriminate H. simplify_eq. by eexists.
  - simplify_eq. eexists. split; [done|]. case_match; [done|]. unfold doomed. by rewrite Hph.
  - simplify_eq. eexists. split; [done|]. destruct Hd as (Hn & Hsv & Hr). unfold processReq_check.
    rewrite Hn, Hsv, isServerDead_gone by done. by destruct reply.
  - destruct Hd as [-> Hr]. simplify_eq/=. by eexists.
Qed.

Lemma exec_step_doomed n sv e w c cl w' :
  doomed n sv cl → exec_step e w c cl = Some (Ret w') → ∃ cl', calls w' = <[c := cl']> (calls w) ∧ doomed n sv cl'.
Proof.
  intros Hd H. unfold exec_step in H.
  destruct e; try discriminate H; destruct (c_exec cl) as [|server|svc m|msg]; try discriminate H.
  - destruct (srvs w !! server); [|discriminate H].
    apply (inj Some), outcome_bind_Ret in H as ([? [??]] & _ & [= <-]). by eexists.
  - destruct (objs w !! rcvr svc) as [obj|]; [|discriminate H]. simpl in H.
    destruct (Service_call m (c_req cl) obj). simplify_eq. by eexists.
Qed.

Lemma rpc_step_doomed n sv e w c cl w' :
  server_at (net w) n ≠ Some sv → calls w !! c = Some cl → doomed n sv cl → rpc_step e w = Some (Ret w') →
  ∃ cl', calls w' !! c = Some cl' ∧ doomed n sv cl'.
Proof.
  intros Hgone Hcl Hd H. pose proof (lookup_lt_Some _ _ _ Hcl) as Hlt.
  destruct (rpc_step_calls _ _ _ H) as [(c' & cl' & _ & Hcl' & Hst)|[_ [[cl' Hw]|Hw]]].
  - destruct (decide (c' = c)) as [->|Hne].
    + assert (cl' = cl) as -> by congruence.
      assert (∃ cl', calls w' = <[c := cl']> (calls w) ∧ doomed n sv cl') as (cl1 & Hw & Hd1).
      { destruct Hst; [by eapply call_step_doomed|by eapply exec_step_doomed]. }
      exists cl1. split; [|done]. by rewrite Hw, list_lookup_insert_eq.
    + exists cl. split; [|done]. assert (∃ cl1, calls w' = <[c' := cl1]> (calls w)) as [cl1 ->].
      { destruct Hst as [Hst|Hst]; [|apply exec_step_rank in Hst as (cl1 & Hw & _); by exists cl1].
        by apply call_step_calls in Hst. }
      by rewrite list_lookup_insert_ne.
  - exists cl. split; [|done]. by rewrite Hw, (lookup_app_l_Some _ _ _ _ Hcl).
  - exists cl. by rewrite Hw.
Qed.

(** ** What the network promises *)

(** C25. Every run of the network is a run of the specification with the same receivers
    and the same answers: a request is executed at most once, by the method it names
    on the value that was sent, whatever is lost, delayed, reordered, disconnected or
    deleted; and a [Call] that returns true returns the reply of that execution. *)
Theorem labrpc_refines_rpc heap es w :
  rpc_run es (rpc_init heap) = Some w →
  ∃ svcs, rtc spec_step (mkSpec heap [] []) (mkSpec (objs w) svcs (abs_call <$> calls w)).
Proof.
  intros Hrun. destruct (rpc_run_refines _ _ _ _ (rpc_init_refines heap) Hrun) as ([o svcs cs] & Hspec & HR).
  exists svcs. pose proof (ref_objs _ _ HR) as <-. by rewrite <-(ref_calls _ _ HR).
Qed.

(** C26. A deleted server does not answer: if the server a request goes to is no longer
    under its name before the request has passed the last [isServerDead] of [processReq],
    although its handler may still run or be done, the [Call] never returns true, unless
    that same server is added again.  A reply that has passed the check and waits for its
    delay is still given. *)
Theorem deleted_server_silent w es w' c cl cl' n sv :
  rpc_reachable w → calls w !! c = Some cl →
  match c_phase cl with PDelay r | PWait r | PCheck r _ => r_name r = n ∧ r_server r = sv | _ => False end →
  server_at (net w) n ≠ Some sv → Forall (λ e, e ≠ ReAddServer n sv) es →
  rpc_run es w = Some w' → calls w' !! c = Some cl' → ∀ v, c_ret cl' ≠ Some (Some v).
Proof.
  intros (heap & es0 & H0) Hcl Hto Hgone Hno Hrun Hcl'.
  assert (net_ok (net w)) as Hok by (eapply rpc_run_net; [|exact H0]; by intros [=]).
  assert (doomed n sv cl) as Hd.
  { destruct (rpc_run_refines _ _ _ _ (rpc_init_refines heap) H0) as (A & _ & HR).
    pose proof (Forall_lookup_1 _ _ _ _ (ref_phase _ _ HR) Hcl) as Hp. unfold phase_ok in Hp. unfold doomed.
    destruct (c_phase cl) as [| |r|r|r [msg|]|msg|]; naive_solver. }
  clear H0 Hto. revert w cl Hcl Hgone Hok Hd Hrun. induction Hno as [|e es He Hno IH]; intros w cl Hcl Hgone Hok Hd Hrun; simpl in Hrun.
  - injection Hrun as ->. assert (cl' = cl) as -> by congruence. intros v Hv. unfold doomed in Hd. rewrite Hv in Hd.
    destruct (c_phase cl) as [| | | | |msg|]; naive_solver.
  - destruct (rpc_step e w) as [[w1|]|] eqn:Hstep; try discriminate Hrun.
    destruct (rpc_step_doomed _ _ _ _ _ _ _ Hgone Hcl Hd Hstep) as (cl1 & Hcl1 & Hd1).
    destruct (rpc_step_net _ _ _ Hok Hstep) as [Hok1 Hsv]. eapply (IH w1 cl1); try done.
    rewrite Hsv. unfold server_after. destruct e; try done; case_decide; congruence.
Qed.

(** C21. [Call] returns: a call takes at most nine steps other than polling its server, and
    one that has not returned can go on to its return by steps of its own, if the
    method it names is there and replies with the type the caller expects. *)
Theorem call_returns w c cl :
  rpc_reachable w → calls w !! c = Some cl →
  (∀ es w', rpc_run es w = Some w' → (length (filter (moves c) es) ≤ 9)%nat) ∧
  (c_ret cl = None → answerable w cl →
   ∃ es w' cl' r, Forall (λ e, moves c e = true) es ∧ rpc_run es w = Some w' ∧
     calls w' !! c = Some cl' ∧ c_ret cl' = Some r).
Proof.
  intros (heap & es0 & H0) Hcl. destruct (rpc_run_refines _ _ _ _ (rpc_init_refines heap) H0) as (A & _ & HR).
  assert (net_ok (net w)) as Hok by (eapply rpc_run_net; [|exact H0]; by intros [=]). clear H0. split.
  { intros es w' Hrun. pose proof (rpc_run_rank _ _ _ c _ HR Hrun) as Hle.
    assert (rank_at w c ≤ 9)%nat; [unfold rank_at; rewrite Hcl; apply rank_bound|lia]. }
  intros Hr Ha. remember (rank cl) as k eqn:Hk. revert w A cl Hk HR Hok Hcl Hr Ha.
  induction k as [k IH] using lt_wf_ind. intros w A cl -> HR Hok Hcl Hr Ha.
  destruct (call_progress w c cl) as (e & w1 & cl1 & Hm & He & Hcl1 & Ha1); try done.
  { by eapply Forall_lookup_1; [apply (ref_phase _ _ HR)|]. }
  pose proof (rpc_step_rank _ _ _ c _ HR He) as Hlt. unfold rank_at in Hlt. rewrite Hcl, Hcl1, Hm in Hlt.
  destruct (rpc_step_refines _ _ _ _ HR He) as (A1 & _ & HR1). destruct (c_ret cl1) as [r|] eqn:Hr1.
  - exists [e], w1, cl1, r. split_and!; [by constructor|simpl; by rewrite He|done|done].
  - destruct (IH (rank cl1) ltac:(lia) w1 A1 cl1) as (es & w2 & cl2 & r & Hes & Hrun & Hcl2 & Hr2); try done.
    { by apply (rpc_step_net _ _ _ Hok He). }
    exists (e :: es), w2, cl2, r. split_and!; [by constructor|simpl; by rewrite He|done|done].
Qed.
End labrpc.

(** ** A concrete network

    One counter behind one server; the client's call adds 5 and gets the sum, or the
    server is deleted while the handler runs. *)
Section rpc_example.
#[local] Instance rpc_types : GoTypes Z unit := {| type_of := λ _, tt; zero_of := λ _, 0; type_of_zero := λ 'tt, eq_refl |}.
#[local] Instance rpc_gob : Gob Z := gob_of_countable Z.

Definition rpc_add : Method (V := Z) (O := Z) := mkMethod "Add" "" 3 true 0 (λ sum x, (sum + x, sum + x)).
Definition rpc_sum : Method (V := Z) (O := Z) := mkMethod "sum" "main" 3 true 0 (λ sum x, (sum, sum)).

Definition rpc_setup : list (RpcEvent (Name := string) (V := Z) (T := unit) (O := Z)) :=
  [ReMakeServer 0; ReAddService 0 "Counter" 7 [rpc_sum; rpc_add]; ReAddServer "s"%string 0;
   ReMakeEnd "e"%string; ReConnect "e"%string "s"%string; ReEnable "e"%string true; ReReliable false;
   ReCall "e"%string "Counter.Add" 5 tt; ReSend 0; ReRead 0; ReLaunch 0 false; ReDispatch 0].

Definition rpc_answer : list (RpcEvent (Name := string) (V := Z) (T := unit) (O := Z)) :=
  [ReTimer 0; ReHandle 0; ReTake 0; ReCheck 0 false; ReReply 0].

Definition rpc_delete : list (RpcEvent (Name := string) (V := Z) (T := unit) (O := Z)) :=
  [ReHandle 0; ReTake 0; ReCheck 0 false; ReReply 0].

Definition rpc_world0 : World (Name := string) (V := Z) (T := unit) (O := Z) := rpc_init {[7 := 100]}.
Definition rpc_waiting := default rpc_world0 (rpc_run rpc_setup rpc_world0).
Definition rpc_answered := default rpc_world0 (rpc_run rpc_answer rpc_waiting).
Definition rpc_deleted := default rpc_world0 (rpc_run [ReDeleteServer "s"%string] rpc_waiting).
Definition rpc_refused := default rpc_world0 (rpc_run rpc_delete rpc_deleted).
Definition rpc_call (w : World (Name := string) (V := Z) (T := unit) (O := Z)) : Call :=
  default (new_call "e"%string "" 0 tt) (calls w !! 0%nat).

Lemma labrpc_refines_rpc_witness :
  objs rpc_answered !! 7 = Some 105 ∧ c_ret (rpc_call rpc_answered) = Some (Some 105) ∧
  ∃ svcs, rtc spec_step (mkSpec {[7 := 100]} [] []) (mkSpec (objs rpc_answered) svcs (abs_call <$> calls rpc_answered)).
Proof.
  split; [by vm_compute|]. split; [by vm_compute|].
  apply (labrpc_refines_rpc {[7 := 100]} (rpc_setup ++ rpc_answer) rpc_answered). by vm_compute.
Defined.

Lemma deleted_server_silent_witness :
  objs rpc_refused !! 7 = Some 105 ∧ ∀ v, c_ret (rpc_call rpc_refused) ≠ Some (Some v).
Proof.
  split; [by vm_compute|].
  apply (deleted_server_silent rpc_deleted rpc_delete rpc_refused 0 (rpc_call rpc_deleted) (rpc_call rpc_refused) "s"%string 0).
  - exists {[7 := 100]}, (rpc_setup ++ [ReDeleteServer "s"%string]). by vm_compute.
  - by vm_compute.
  - by vm_compute.
  - by vm_compute.
  - repeat constructor; discriminate.
  - by vm_compute.
  - by vm_compute.
Defined.

Lemma call_returns_witness :
  ∃ es w' cl' r, Forall (λ e, moves 0 e = true) es ∧ rpc_run es rpc_waiting = Some w' ∧
    calls w' !! 0%nat = Some cl' ∧ c_ret cl' = Some r.
Proof.
  destruct (call_returns rpc_waiting 0 (rpc_call rpc_waiting)) as [_ H].
  - exists {[7 := 100]}, rpc_setup. by vm_compute.
  - by vm_compute.
  - apply H; [by vm_compute|]. vm_compute. split; [by eexists|done].
Defined.
End rpc_example.
