(* ===== verification/Raft.v ===== *)
(** * raft: data types, node state, timers and persistence

    Models [src/src/raft/RPC.go], [Timer.go], [util.go], [persister.go], the
    [Raft] struct of [raft.go] and the encoding half of [persistence.go].

    A command is an [option C]: Go's [interface{}], [None] being nil.  Time and
    durations are integers counted in nanoseconds, as [time.Duration] is.  An
    [int] is an unbounded [Z]: terms and log indices stay far below 2^63. *)
From Stdlib Require Import Init.Byte.
From S2P Require Import Prelude LabGob.

(** ** util.go *)

Definition max (a b : Z) : Z := if a >? b then a else b.

(** ** persister.go *)

Record Persister := mkPersister {
  raftstate : list byte;
  snapshot : list byte;
}.

Definition MakePersister : Persister := mkPersister [] [].

(** [clone] copies a byte slice; the copy has the same bytes. *)
Definition clone (orig : list byte) : list byte := orig.

Definition ReadRaftState (ps : Persister) : list byte := clone (raftstate ps).
Definition RaftStateSize (ps : Persister) : Z := len (raftstate ps).
Definition ReadSnapshot (ps : Persister) : list byte := clone (snapshot ps).
Definition SnapshotSize (ps : Persister) : Z := len (snapshot ps).

Definition Save (ps : Persister) (raftstate snapshot : list byte) : Persister :=
  mkPersister (clone raftstate) (clone snapshot).

Definition Copy (ps : Persister) : Persister := mkPersister (raftstate ps) (snapshot ps).

(** ** Timer.go *)

Definition Millisecond : Z := 1000000.
Definition HeartBeatTimeout : Z := 75 * Millisecond.
Definition followerTimeout : Z := 180.
Definition followerRand : Z := 150.
Definition msgGap : Z := 10.

Record Timer := mkTimer {
  period : Z;          (* what the [_timer] ticker was last reset to *)
  lastComing : Z;
  msgComing : bool;    (* whether the channel of capacity 1 is full *)
}.

(** [Timer.reset]; [rnd] is what [rand.Intn(followerRand)] returned. *)
Definition Timer_reset (rnd : Z) (t : Timer) : Timer :=
  mkTimer ((followerTimeout + rnd) * Millisecond) (lastComing t) (msgComing t).

(** ** The node's role *)

Inductive RaftState := Follower | PreCandidate | Candidate | Leader.

#[export] Instance RaftState_eq_dec : EqDecision RaftState.
Proof. solve_decision. Defined.

(** The [iota] value, which the code compares with [<] and [<=]. *)
Definition state_iota (s : RaftState) : Z :=
  match s with Follower => 0 | PreCandidate => 1 | Candidate => 2 | Leader => 3 end.

Definition is_state (s s' : RaftState) : bool := bool_decide (s = s').

Section raft.
Context {C : Type}.

(** ** RPC.go *)

Record LogEntry := mkEntry { le_Term : Z; le_Command : option C }.

Record ApplyMsg := mkApplyMsg {
  CommandValid : bool;
  Command : option C;
  CommandIndex : Z;
  CommandTerm : Z;
  SnapshotValid : bool;
  Snapshot_ : list byte;
  SnapshotTerm : Z;
  SnapshotIndex : Z;
}.

Record AppendEntriesArgs := mkAppendEntriesArgs {
  ae_Term : Z;
  ae_LeaderId : Z;
  ae_PrevLogIndex : Z;
  ae_PrevLogTerm : Z;
  ae_Entries : list LogEntry;
  ae_LeaderCommit : Z;
}.

Record AppendEntriesReply := mkAppendEntriesReply { aer_Term : Z; aer_Success : bool }.

Record RequestVoteArgs := mkRequestVoteArgs {
  rv_Term : Z;
  rv_CandidateId : Z;
  rv_LastLogIndex : Z;
  rv_LastLogTerm : Z;
}.

Record RequestVoteReply := mkRequestVoteReply { rvr_Term : Z; rvr_VoteGranted : bool }.

Record InstallSnapshotArgs := mkInstallSnapshotArgs {
  is_Term : Z;
  is_LeaderId : Z;
  is_LastIncludedIndex : Z;
  is_LastIncludedTerm : Z;
  is_Data : list byte;
  is_LastIncludedCmd : option C;
}.

Record InstallSnapshotReply := mkInstallSnapshotReply { isr_Term : Z; isr_ShouldDie : bool }.

Record PreVoteReply := mkPreVoteReply { pvr_IsOk : bool }.

(** ** The [Raft] struct *)

(** Where the [CommitChecker] goroutine stands: blocked in [<-rf.commitCh], past
    it and about to lock, or sending the rest of [msgBuf] on [applyCh] ([locking]
    between the send of a message and the critical section that follows it). *)
Inductive CommitPhase :=
| CCWait
| CCWoken
| CCSend (msgBuf : list ApplyMsg)
| CCSent (msg : ApplyMsg) (msgBuf : list ApplyMsg).

(** The fields of the Go struct; [peers] is its length, [commitCh] the goroutine
    on its receiving side, [applyCh] the messages the service has received, in
    order, and [snapMsgs] the goroutines of [InstallSnapshot] that have not sent
    their message yet. *)
Record Raft := mkRaft {
  peers : Z;
  persister : Persister;
  me : Z;
  dead : bool;
  currentTerm : Z;
  votedFor : Z;
  log : list LogEntry;
  commitIndex : Z;
  lastApplied : Z;
  nextIndex : list Z;
  matchIndex : list Z;
  state : RaftState;
  timer : Timer;
  preVoteCount : Z;
  voteCount : Z;
  applyCh : list ApplyMsg;
  commitCh : CommitPhase;
  snapMsgs : list ApplyMsg;
  snapShot : list byte;
  lastIncludedIndex : Z;
  lastIncludedTerm : Z;
}.

Definition eta_Raft (r : Raft) : Raft :=
  mkRaft (peers r) (persister r) (me r) (dead r) (currentTerm r) (votedFor r) (log r)
    (commitIndex r) (lastApplied r) (nextIndex r) (matchIndex r) (state r) (timer r)
    (preVoteCount r) (voteCount r) (applyCh r) (commitCh r) (snapMsgs r) (snapShot r)
    (lastIncludedIndex r) (lastIncludedTerm r).

#[global] Instance set_persister : Setter persister := λ f x, ltac:(solve_setter eta_Raft persister f x).
#[global] Instance set_dead : Setter dead := λ f x, ltac:(solve_setter eta_Raft dead f x).
#[global] Instance set_currentTerm : Setter currentTerm := λ f x, ltac:(solve_setter eta_Raft currentTerm f x).
#[global] Instance set_votedFor : Setter votedFor := λ f x, ltac:(solve_setter eta_Raft votedFor f x).
#[global] Instance set_log : Setter log := λ f x, ltac:(solve_setter eta_Raft log f x).
#[global] Instance set_commitIndex : Setter commitIndex := λ f x, ltac:(solve_setter eta_Raft commitIndex f x).
#[global] Instance set_lastApplied : Setter lastApplied := λ f x, ltac:(solve_setter eta_Raft lastApplied f x).
#[global] Instance set_nextIndex : Setter nextIndex := λ f x, ltac:(solve_setter eta_Raft nextIndex f x).
#[global] Instance set_matchIndex : Setter matchIndex := λ f x, ltac:(solve_setter eta_Raft matchIndex f x).
#[global] Instance set_state : Setter state := λ f x, ltac:(solve_setter eta_Raft state f x).
#[global] Instance set_timer : Setter timer := λ f x, ltac:(solve_setter eta_Raft timer f x).
#[global] Instance set_preVoteCount : Setter preVoteCount := λ f x, ltac:(solve_setter eta_Raft preVoteCount f x).
#[global] Instance set_voteCount : Setter voteCount := λ f x, ltac:(solve_setter eta_Raft voteCount f x).
#[global] Instance set_applyCh : Setter applyCh := λ f x, ltac:(solve_setter eta_Raft applyCh f x).
#[global] Instance set_commitCh : Setter commitCh := λ f x, ltac:(solve_setter eta_Raft commitCh f x).
#[global] Instance set_snapMsgs : Setter snapMsgs := λ f x, ltac:(solve_setter eta_Raft snapMsgs f x).
#[global] Instance set_snapShot : Setter snapShot := λ f x, ltac:(solve_setter eta_Raft snapShot f x).
#[global] Instance set_lastIncludedIndex : Setter lastIncludedIndex := λ f x, ltac:(solve_setter eta_Raft lastIncludedIndex f x).
#[global] Instance set_lastIncludedTerm : Setter lastIncludedTerm := λ f x, ltac:(solve_setter eta_Raft lastIncludedTerm f x).

(** The goroutines a handler starts with [go]. *)
Inductive Spawn :=
| GoRequestVote (server : Z) (args : RequestVoteArgs)
| GoPreVote (server : Z)
| GoAppendEntries (server : Z) (args : AppendEntriesArgs)
| GoInstallSnapshot (server : Z).

(** ** Indices

    A virtual index counts from the start of the history, a real index into the
    slice that remains after the snapshot; [log[0]] stands at
    [lastIncludedIndex]. *)
Definition RealLogIdx (rf : Raft) (vIdx : Z) : Z := vIdx - lastIncludedIndex rf.
Definition VirtualLogIdx (rf : Raft) (rIdx : Z) : Z := rIdx + lastIncludedIndex rf.

(** ** Small accessors of raft.go *)

Definition GetState (rf : Raft) : Z * bool :=
  (currentTerm rf, is_state (state rf) Leader).

Definition GetRaftStateSize (rf : Raft) : Z := RaftStateSize (persister rf).

Definition GetId (rf : Raft) : Z := me rf.

Definition getLastLog (rf : Raft) : outcome LogEntry :=
  slice_get (log rf) (len (log rf) - 1).

Definition HasLogInCurrentTerm (rf : Raft) : outcome bool :=
  e ← slice_get (log rf) (len (log rf) - 1);
  Ret (le_Term e =? currentTerm rf).

Definition GetCommitIndex (rf : Raft) : Z := commitIndex rf.

Definition Kill (rf : Raft) : Raft := rf <| dead := true |>.

Definition killed (rf : Raft) : bool := dead rf.

(** [rf.timer.reset()] and [rf.resetHeartBeat()] *)
Definition timer_reset (rnd : Z) (rf : Raft) : Raft :=
  rf <| timer := Timer_reset rnd (timer rf) |>.

Definition resetHeartBeat (rf : Raft) : Raft :=
  rf <| timer := mkTimer HeartBeatTimeout (lastComing (timer rf)) (msgComing (timer rf)) |>.

(** [select { case rf.commitCh <- true: default: }]: the channel is unbuffered,
    so the send succeeds only while [CommitChecker] waits on it. *)
Definition commitCh_trysend (rf : Raft) : Raft :=
  match commitCh rf with
  | CCWait => rf <| commitCh := CCWoken |>
  | _ => rf
  end.

(** ** persistence.go: what is written to stable storage *)

Inductive RaftGob := GInt (z : Z) | GLog (l : list LogEntry).

Definition get_int (v : RaftGob) : option Z :=
  match v with GInt z => Some z | _ => None end.
Definition get_log (v : RaftGob) : option (list LogEntry) :=
  match v with GLog l => Some l | _ => None end.

Context {gob : Gob RaftGob}.

Definition encodeState (rf : Raft) : list byte :=
  let e := NewEncoder in
  let e := Encode e (GInt (currentTerm rf)) in
  let e := Encode e (GInt (votedFor rf)) in
  let e := Encode e (GLog (log rf)) in
  let e := Encode e (GInt (lastIncludedIndex rf)) in
  let e := Encode e (GInt (lastIncludedTerm rf)) in
  Bytes e.

Definition persist (rf : Raft) : Raft :=
  rf <| persister := Save (persister rf) (encodeState rf) (snapShot rf) |>.

Definition readPersist (rf : Raft) (data : list byte) : Raft :=
  if len data <? 1 then rf
  else
    let d := NewDecoder data in
    match
      '(currentTerm, d) ← Decode get_int d;
      '(votedFor, d) ← Decode get_int d;
      '(log, d) ← Decode get_log d;
      '(lastIncludedIndex, d) ← Decode get_int d;
      '(lastIncludedTerm, d) ← Decode get_int d;
      Some (currentTerm, votedFor, log, lastIncludedIndex, lastIncludedTerm)
    with
    | None => rf
    | Some (currentTerm', votedFor', log', lastIncludedIndex', lastIncludedTerm') =>
        rf <| votedFor := votedFor' |>
           <| currentTerm := currentTerm' |>
           <| log := log' |>
           <| lastIncludedIndex := lastIncludedIndex' |>
           <| lastIncludedTerm := lastIncludedTerm' |>
           <| commitIndex := lastIncludedIndex' |>
           <| lastApplied := lastIncludedIndex' |>
    end.

Definition readSnapshot (rf : Raft) (data : list byte) : Raft :=
  if len data =? 0 then rf else rf <| snapShot := data |>.

End raft.
Arguments LogEntry : clear implicits.
Arguments ApplyMsg : clear implicits.
Arguments AppendEntriesArgs : clear implicits.
Arguments InstallSnapshotArgs : clear implicits.
Arguments CommitPhase : clear implicits.
Arguments Raft : clear implicits.
Arguments RaftGob : clear implicits.
Arguments Spawn : clear implicits.

#[export] Instance LogEntry_eq_dec {C} `{EqDecision C} : EqDecision (LogEntry C).
Proof. solve_decision. Defined.

(** With a concrete codec in place of [encoding/gob], the model runs. *)
#[export] Instance LogEntry_countable {C} `{Countable C} : Countable (LogEntry C).
Proof.
  refine (inj_countable' (λ e, (le_Term e, le_Command e)) (λ '(t, c), mkEntry t c) _).
  by intros [].
Defined.

#[export] Instance RaftGob_eq_dec {C} `{EqDecision C} : EqDecision (RaftGob C).
Proof. solve_decision. Defined.

#[export] Instance RaftGob_countable {C} `{Countable C} : Countable (RaftGob C).
Proof.
  refine (inj_countable' (λ v, match v with GInt z => inl z | GLog l => inr l end)
            (λ v, match v with inl z => GInt z | inr l => GLog l end) _).
  by intros [].
Defined.

Definition gob_example : Gob (RaftGob Z) := gob_of_countable (RaftGob Z).
