(* ===== verification/RaftVote.v ===== *)
(** * raft: elections

    Models [src/src/raft/vote.go]: the [RequestVote] and [PreVote] handlers and
    what a candidate does with the replies.  Each definition is one critical
    section under [rf.mu]. *)
From Stdlib Require Import Init.Byte.
From S2P Require Import Prelude LabGob Raft.

Section vote.
Context {C : Type} {gob : Gob (RaftGob C)}.
Implicit Types rf : Raft C.

(** The handler of the [RequestVote] RPC. *)
Definition RequestVote rf (args : RequestVoteArgs) : outcome (Raft C * RequestVoteReply) :=
  let reply := mkRequestVoteReply (currentTerm rf) false in
  if rv_Term args <? currentTerm rf then Ret (rf, reply)
  else
    let rf :=
      if rv_Term args >? currentTerm rf then
        persist (rf <| currentTerm := rv_Term args |>
                    <| state := Follower |>
                    <| votedFor := -1 |>)
      else rf in
    if (votedFor rf =? -1) || (votedFor rf =? rv_CandidateId args) then
      last ← slice_get (log rf) (len (log rf) - 1);
      if (rv_LastLogTerm args >? le_Term last)
         || ((rv_LastLogTerm args =? le_Term last)
             && (rv_LastLogIndex args >=? VirtualLogIdx rf (len (log rf))))
      then
        let rf := rf <| currentTerm := rv_Term args |> <| state := Follower |> in
        let reply := mkRequestVoteReply (currentTerm rf) true in
        let rf := persist (rf <| votedFor := rv_CandidateId args |>) in
        Ret (rf, reply)
      else Ret (rf, reply)
    else Ret (rf, reply).

(** The loop that reinitialises [nextIndex] and [matchIndex] after an election. *)
Definition reinit_indices rf : outcome (Raft C) :=
  ofold (λ rf i,
    nextIndex' ← slice_set (nextIndex rf) i (VirtualLogIdx rf (len (log rf)));
    matchIndex' ← slice_set (matchIndex rf) i 0;
    Ret (rf <| nextIndex := nextIndex' |> <| matchIndex := matchIndex' |>))
    rf (zrange (len (nextIndex rf))).

(** [sendRequestVote] after [Call] has returned; a failed call leaves the zero
    reply.  The boolean is the function's result. *)
Definition sendRequestVote rf (args : RequestVoteArgs) (reply : RequestVoteReply) :
    outcome (Raft C * bool) :=
  if rvr_Term reply =? 0 then Ret (rf, false)
  else if negb (currentTerm rf =? rv_Term args) then Ret (rf, false)
  else if rvr_VoteGranted reply then
    if state_iota (state rf) <? state_iota Candidate then Ret (rf, false)
    else if voteCount rf >? peers rf / 2 then Ret (rf, true)
    else
      let rf := rf <| voteCount := voteCount rf + 1 |> in
      if voteCount rf >? peers rf / 2 then
        let rf := rf <| state := Leader |> in
        rf ← reinit_indices rf;
        Ret (resetHeartBeat rf, true)
      else Ret (rf, true)
  else Ret (rf <| state := Follower |>, true).

(** [PreVote] answers every ping. *)
Definition PreVote : PreVoteReply := mkPreVoteReply true.

(** [handlePreVote] starts one [sendPreVote] per other peer. *)
Definition handlePreVote rf : list (Spawn C) :=
  GoPreVote <$> filter (λ i, i ≠ me rf) (zrange (peers rf)).

(** [sendPreVote] after [Call] has returned [ok]. *)
Definition sendPreVote rf (ok : bool) (reply : PreVoteReply) : Raft C :=
  if negb ok || negb (pvr_IsOk reply) then rf
  else if negb (is_state (state rf) PreCandidate) then rf
  else
    let rf := rf <| preVoteCount := preVoteCount rf + 1 |> in
    if (preVoteCount rf >? peers rf / 2) && (state_iota (state rf) <=? state_iota PreCandidate)
    then rf <| state := Candidate |>
    else rf.

End vote.
