(* ===== verification/RaftAppend.v ===== *)
(** * raft: log replication

    Models [src/src/raft/append.go] ([AppendEntries], [sendAppendEntries]) and
    [doLeader] of [raft.go].  Each definition is one critical section under
    [rf.mu]; [rnd] is what [rand.Intn] returned to [rf.timer.reset()]. *)
From Stdlib Require Import Init.Byte.
From S2P Require Import Prelude LabGob Raft.

Section append.
Context {C : Type} {gob : Gob (RaftGob C)}.
Implicit Types rf : Raft C.

(** ** The follower *)

(** [for idx, log := range args.Entries] of [AppendEntries], at entry
    [es = args.Entries[idx:]] with [ridx = rf.RealLogIdx(args.PrevLogIndex)+1+idx]. *)
Fixpoint append_loop (lg : list (LogEntry C)) (ridx : Z) (es : list (LogEntry C)) :
    outcome (list (LogEntry C)) :=
  match es with
  | [] => Ret lg
  | e :: es' =>
      conflict ← (if ridx <? len lg then
                    cur ← slice_get lg ridx;
                    Ret (negb (le_Term cur =? le_Term e))
                  else Ret false);
      if conflict : bool then
        lg ← slice_to lg ridx;
        Ret (lg ++ es)
      else if ridx =? len lg then Ret (lg ++ es)
      else append_loop lg (ridx + 1) es'
  end.

(** The handler of the [AppendEntries] RPC.  [math.Min] works on [float64]s, which
    represent the indices exactly. *)
Definition AppendEntries (rnd : Z) rf (args : AppendEntriesArgs C) :
    outcome (Raft C * AppendEntriesReply) :=
  let rf := timer_reset rnd rf in
  let replyTerm := currentTerm rf in
  if ae_Term args <? currentTerm rf then Ret (rf, mkAppendEntriesReply replyTerm false)
  else
    let rf :=
      if ae_Term args >? currentTerm rf then
        persist (rf <| currentTerm := ae_Term args |>
                    <| votedFor := -1 |>
                    <| state := Follower |>)
      else rf in
    let rf := persist rf in
    if ae_PrevLogIndex args <? lastIncludedIndex rf
    then Ret (rf, mkAppendEntriesReply replyTerm false)
    else
      mismatch ← (if ae_PrevLogIndex args >=? VirtualLogIdx rf (len (log rf)) then Ret true
                  else prev ← slice_get (log rf) (RealLogIdx rf (ae_PrevLogIndex args));
                       Ret (negb (le_Term prev =? ae_PrevLogTerm args)));
      if mismatch : bool then Ret (rf, mkAppendEntriesReply replyTerm false)
      else
        rf ← (if negb (len (ae_Entries args) =? 0) then
                log' ← append_loop (log rf) (RealLogIdx rf (ae_PrevLogIndex args) + 1)
                         (ae_Entries args);
                Ret (persist (rf <| log := log' |>))
              else Ret rf);
        let rf :=
          if ae_LeaderCommit args >? commitIndex rf then
            commitCh_trysend
              (rf <| commitIndex :=
                     Z.min (ae_LeaderCommit args) (VirtualLogIdx rf (len (log rf) - 1)) |>)
          else rf in
        Ret (rf, mkAppendEntriesReply replyTerm true).

(** ** The leader *)

(** [sendAppendEntries] up to [Call]: whether the RPC is sent. *)
Definition sendAppendEntries_begin rf : bool := is_state (state rf) Leader.

(** [for i := rf.nextIndex[server] - 1; i >= 0; i--]: the fast backup over a term,
    with [n = i + 1] iterations left. *)
Fixpoint backup_loop rf (server : Z) (n : nat) : outcome (Raft C) :=
  match n with
  | O => Ret rf
  | S k =>
      let i := Z.of_nat k in
      if i <? lastIncludedIndex rf then
        nextIndex' ← slice_set (nextIndex rf) server (lastIncludedIndex rf);
        Ret (rf <| nextIndex := nextIndex' |>)
      else
        ei ← slice_get (log rf) (RealLogIdx rf i);
        ni ← slice_get (nextIndex rf) server;
        en ← slice_get (log rf) (RealLogIdx rf (ni - 1));
        if le_Term ei <? le_Term en then
          nextIndex' ← slice_set (nextIndex rf) server (i + 1);
          Ret (rf <| nextIndex := nextIndex' |>)
        else if i =? lastIncludedIndex rf then
          nextIndex' ← slice_set (nextIndex rf) server (lastIncludedIndex rf);
          Ret (rf <| nextIndex := nextIndex' |>)
        else backup_loop rf server k
  end.

(** The inner loop of the commit rule: the replicas known to hold entry [N],
    the leader included. *)
Definition count_replicas rf (N : Z) : outcome Z :=
  ofold (λ count i,
    if i =? me rf then Ret count
    else
      mi ← slice_get (matchIndex rf) i;
      if mi >=? N then
        e ← slice_get (log rf) (RealLogIdx rf N);
        Ret (if le_Term e =? currentTerm rf then count + 1 else count)
      else Ret count) 1 (zrange (peers rf)).

(** [for N > rf.commitIndex], with [N = rf.commitIndex + k]. *)
Fixpoint commit_loop rf (k : nat) : outcome (Raft C) :=
  match k with
  | O => Ret rf
  | S k' =>
      let N := commitIndex rf + Z.of_nat k in
      count ← count_replicas rf N;
      if count >? peers rf / 2 then Ret (commitCh_trysend (rf <| commitIndex := N |>))
      else commit_loop rf k'
  end.

(** [sendAppendEntries] after [Call] has returned; a failed call leaves the zero
    reply.  The boolean is the function's result. *)
Definition sendAppendEntries (rnd : Z) rf (server : Z) (args : AppendEntriesArgs C)
    (reply : AppendEntriesReply) : outcome (Raft C * bool) :=
  if (aer_Term reply =? 0) && negb (aer_Success reply) then Ret (rf, false)
  else if ae_Term args <? currentTerm rf then Ret (rf, false)
  else if negb (aer_Success reply) then
    if aer_Term reply >? currentTerm rf then
      let rf := rf <| state := Follower |>
                   <| currentTerm := aer_Term reply |>
                   <| votedFor := -1 |>
                   <| voteCount := 0 |> in
      Ret (persist (timer_reset rnd rf), false)
    else if (aer_Term reply =? currentTerm rf) && is_state (state rf) Leader then
      ni ← slice_get (nextIndex rf) server;
      rf ← backup_loop rf server (Z.to_nat ni);
      Ret (rf, false)
    else Ret (rf, false)
  else
    let m := ae_PrevLogIndex args + len (ae_Entries args) in
    matchIndex' ← slice_set (matchIndex rf) server m;
    nextIndex' ← slice_set (nextIndex rf) server (m + 1);
    let rf := rf <| matchIndex := matchIndex' |> <| nextIndex := nextIndex' |> in
    let N := VirtualLogIdx rf (len (log rf) - 1) in
    rf ← commit_loop rf (Z.to_nat (N - commitIndex rf));
    Ret (rf, true).

(** What [doLeader] starts for peer [i].  [Entries] is a slice of [rf.log], given by what
    it has now; [RaftSystem] says how it changes with the log. *)
Definition doLeader_peer rf (i : Z) : outcome (Spawn C) :=
  ni ← slice_get (nextIndex rf) i;
  let PrevLogIndex := max (ni - 1) 0 in
  if PrevLogIndex <? lastIncludedIndex rf then Ret (GoInstallSnapshot i)
  else
    Entries ← (if VirtualLogIdx rf (len (log rf) - 1) >? PrevLogIndex
               then slice_from (log rf) (RealLogIdx rf (PrevLogIndex + 1))
               else Ret []);
    prev ← slice_get (log rf) (RealLogIdx rf PrevLogIndex);
    Ret (GoAppendEntries i
           (mkAppendEntriesArgs (currentTerm rf) (me rf) PrevLogIndex (le_Term prev)
              Entries (commitIndex rf))).

Definition doLeader rf : outcome (Raft C * list (Spawn C)) :=
  let rf := resetHeartBeat rf in
  gos ← ofold (λ gos i, g ← doLeader_peer rf i; Ret (gos ++ [g])) []
          (filter (λ i, i ≠ me rf) (zrange (peers rf)));
  Ret (rf, gos).

End append.
