(* ===== verification/RaftSnapshot.v ===== *)
(** * raft: snapshots

    Models [InstallSnapshot] and [handleInstallSnapshot] of
    [src/src/raft/append.go] and [Snapshot] and [CondInstallSnapshot] of
    [persistence.go]. *)
From Stdlib Require Import Init.Byte.
From S2P Require Import Prelude LabGob Raft.

Section snapshots.
Context {C : Type} {gob : Gob (RaftGob C)}.
Implicit Types rf : Raft C.

(** [handleInstallSnapshot] up to [Call]: the arguments sent, if any. *)
Definition handleInstallSnapshot_begin rf : outcome (option (InstallSnapshotArgs C)) :=
  if negb (is_state (state rf) Leader) then Ret None
  else
    e0 ← slice_get (log rf) 0;
    Ret (Some (mkInstallSnapshotArgs (currentTerm rf) (me rf) (lastIncludedIndex rf)
                 (lastIncludedTerm rf) (snapShot rf) (le_Command e0))).

(** [handleInstallSnapshot] after [Call], which is retried until it succeeds. *)
Definition handleInstallSnapshot (rnd : Z) rf (server : Z) (reply : InstallSnapshotReply) :
    outcome (Raft C) :=
  if isr_Term reply =? 0 then Ret rf
  else if isr_Term reply >? currentTerm rf then
    let rf := rf <| currentTerm := isr_Term reply |>
                 <| state := Follower |>
                 <| votedFor := -1 |> in
    Ret (persist (timer_reset rnd rf))
  else
    nextIndex' ← slice_set (nextIndex rf) server (VirtualLogIdx rf 1);
    Ret (rf <| nextIndex := nextIndex' |>).

(** [for ; rIdx < len(rf.log); rIdx++]: the real index of the entry that has the
    snapshot's last index and term, with [lg = rf.log[rIdx:]]. *)
Fixpoint find_entry rf (args : InstallSnapshotArgs C) (rIdx : Z) (lg : list (LogEntry C)) :
    option Z :=
  match lg with
  | [] => None
  | e :: lg =>
      if (VirtualLogIdx rf rIdx =? is_LastIncludedIndex args)
         && (le_Term e =? is_LastIncludedTerm args)
      then Some rIdx
      else find_entry rf args (rIdx + 1) lg
  end.

(** The handler of the [InstallSnapshot] RPC.  The message to the service is sent
    by a goroutine of its own: it joins [snapMsgs]. *)
Definition InstallSnapshot (rnd : Z) rf (args : InstallSnapshotArgs C) :
    outcome (Raft C * InstallSnapshotReply) :=
  if is_Term args <? currentTerm rf
  then Ret (rf, mkInstallSnapshotReply (currentTerm rf) true)
  else
    let rf := timer_reset rnd rf in
    let rf :=
      if is_Term args >? currentTerm rf then
        rf <| currentTerm := is_Term args |> <| votedFor := -1 |>
      else rf in
    let rf := rf <| state := Follower |> in
    let msg := mkApplyMsg false None 0 0 true (is_Data args) (is_LastIncludedTerm args)
                 (is_LastIncludedIndex args) in
    rf ← match find_entry rf args 0 (log rf) with
         | Some rIdx => log' ← slice_from (log rf) rIdx; Ret (rf <| log := log' |>)
         | None => Ret (rf <| log := [mkEntry (lastIncludedTerm rf) (is_LastIncludedCmd args)] |>)
         end;
    let rf := rf <| snapShot := is_Data args |>
                 <| lastIncludedIndex := is_LastIncludedIndex args |>
                 <| lastIncludedTerm := is_LastIncludedTerm args |> in
    let rf := if commitIndex rf <? is_LastIncludedIndex args
              then rf <| commitIndex := is_LastIncludedIndex args |> else rf in
    let rf := rf <| lastApplied := is_LastIncludedIndex args |> in
    let reply := mkInstallSnapshotReply (currentTerm rf) false in
    let rf := rf <| snapMsgs := snapMsgs rf ++ [msg] |> in
    Ret (persist rf, reply).

Definition SnapshotNotOutDated (lastIncludedTerm lastIncludedIndex : Z) (snapshot : list byte) :
    bool := true.

(** [Snapshot]: the service has a snapshot of everything up to [index]. *)
Definition Snapshot rf (index : Z) (snapshot : list byte) : outcome (Raft C) :=
  if (index <=? lastIncludedIndex rf) || (index >? commitIndex rf) then Ret rf
  else if RealLogIdx rf index >? len (log rf) then Ret rf
  else
    let rf := rf <| snapShot := snapshot |> in
    e ← slice_get (log rf) (RealLogIdx rf index);
    let rf := rf <| lastIncludedTerm := le_Term e |> in
    log' ← slice_from (log rf) (RealLogIdx rf index);
    let rf := rf <| log := log' |> <| lastIncludedIndex := index |> in
    let rf := if lastApplied rf <? index then rf <| lastApplied := index |> else rf in
    Ret (persist rf).

(** [shrinkEntries] reallocates a slice whose capacity is large; its entries stay. *)
Definition shrinkEntries (entries : list (LogEntry C)) : list (LogEntry C) := entries.

Definition CondInstallSnapshot rf (lastIncludedTerm' lastIncludedIndex' : Z)
    (snapshot : list byte) : outcome (Raft C * bool) :=
  if lastIncludedIndex' <=? commitIndex rf then Ret (rf, false)
  else
    rf ← (if lastIncludedIndex' >? VirtualLogIdx rf (len (log rf))
          then Ret (rf <| log := [mkEntry 0 None] |>)
          else
            log' ← slice_from (log rf) (lastIncludedIndex' - lastIncludedIndex rf);
            let log' := shrinkEntries log' in
            e0 ← slice_get log' 0;
            log' ← slice_set log' 0 (mkEntry (le_Term e0) None);
            Ret (rf <| log := log' |>));
    e0 ← slice_get (log rf) 0;
    log' ← slice_set (log rf) 0 (mkEntry lastIncludedTerm' (le_Command e0));
    let rf := rf <| log := log' |>
                 <| commitIndex := lastIncludedIndex' |>
                 <| lastApplied := lastIncludedIndex' |> in
    let rf := rf <| persister := Save (persister rf) (encodeState rf) snapshot |> in
    Ret (rf, true).

End snapshots.
