(* ===== verification/RaftNode.v ===== *)
(** * raft: the node's entry points and goroutines

    Models the rest of [src/src/raft/raft.go]: [Make], [Start], one iteration of
    [ticker] per channel it selects on, and [CommitChecker] cut at the points
    where it holds no lock.  [rnd] is what [rand.Intn] returned, [now] what
    [time.Now] returned. *)
From Stdlib Require Import Init.Byte.
From S2P Require Import Prelude LabGob Raft RaftVote RaftAppend.

Section node.
Context {C : Type} {gob : Gob (RaftGob C)}.
Implicit Types rf : Raft C.

(** [Make]; [n] is [len(peers)]. *)
Definition Make (n me : Z) (ps : Persister) (rnd now : Z) : Raft C :=
  let rf :=
    mkRaft n ps me false
      1 (-1) [mkEntry (-1) None]
      0 0
      (replicate (Z.to_nat n) 0) (replicate (Z.to_nat n) 0)
      Follower (mkTimer ((150 + rnd) * Millisecond) now false) 0 0
      [] (CCSend []) []
      [] 0 (-1) in
  let rf := readSnapshot rf (ReadSnapshot ps) in
  let rf := readPersist rf (ReadRaftState ps) in
  rf <| nextIndex := (λ _, VirtualLogIdx rf (len (log rf))) <$> nextIndex rf |>
     <| matchIndex := (λ _, lastIncludedIndex rf) <$> matchIndex rf |>.

(** [Start]: the results are the index, the term and whether the node leads. *)
Definition Start (now : Z) rf (command : option C) : outcome (Raft C * (Z * Z * bool)) :=
  if negb (is_state (state rf) Leader) then Ret (rf, (-1, -1, false))
  else
    let rf := rf <| log := log rf ++ [mkEntry (currentTerm rf) command] |> in
    nextIndex' ← slice_set (nextIndex rf) (me rf) (VirtualLogIdx rf (len (log rf)));
    let rf := persist (rf <| nextIndex := nextIndex' |>) in
    let rf :=
      if now - lastComing (timer rf) >? msgGap * Millisecond
      then rf <| timer := mkTimer (period (timer rf)) now true |>
      else rf in
    let rf := resetHeartBeat rf in
    Ret (rf, (VirtualLogIdx rf (len (log rf) - 1), currentTerm rf, true)).

(** [case <-rf.timer.msgComing] of [ticker]. *)
Definition ticker_msg rf : outcome (Raft C * list (Spawn C)) :=
  let rf := rf <| timer := mkTimer (period (timer rf)) (lastComing (timer rf)) false |> in
  if is_state (state rf) Leader then doLeader rf else Ret (rf, []).

(** [case <-rf.timer._timer.C] of [ticker]. *)
Definition ticker_timeout (rnd : Z) rf : outcome (Raft C * list (Spawn C)) :=
  match state rf with
  | Follower | PreCandidate =>
      let rf := rf <| state := PreCandidate |> <| preVoteCount := 1 |> in
      let rf := timer_reset rnd rf in
      Ret (rf, handlePreVote rf)
  | Candidate =>
      let rf := rf <| currentTerm := currentTerm rf + 1 |>
                   <| votedFor := me rf |>
                   <| voteCount := 1 |> in
      let rf := persist (timer_reset rnd rf) in
      gos ← ofold (λ gos i,
              last ← slice_get (log rf) (len (log rf) - 1);
              let args := mkRequestVoteArgs (currentTerm rf) (me rf)
                            (VirtualLogIdx rf (len (log rf))) (le_Term last) in
              Ret (gos ++ [GoRequestVote i args])) []
              (filter (λ i, i ≠ me rf) (zrange (peers rf)));
      Ret (rf, gos)
  | Leader => doLeader rf
  end.

(** ** CommitChecker *)

(** [for rf.commitIndex > tmpApplied], with [k = rf.commitIndex - tmpApplied]. *)
Fixpoint collect_loop rf (tmpApplied : Z) (k : nat) (msgBuf : list (ApplyMsg C)) :
    outcome (list (ApplyMsg C)) :=
  match k with
  | O => Ret msgBuf
  | S k =>
      let tmpApplied := tmpApplied + 1 in
      if tmpApplied <=? lastIncludedIndex rf then collect_loop rf tmpApplied k msgBuf
      else if RealLogIdx rf tmpApplied >=? len (log rf) then Ret msgBuf
      else
        e ← slice_get (log rf) (RealLogIdx rf tmpApplied);
        let msg := mkApplyMsg true (le_Command e) tmpApplied (le_Term e) false [] 0 0 in
        collect_loop rf tmpApplied k (msgBuf ++ [msg])
  end.

(** One step of the goroutine; [None] where it is blocked.  [make] panics on the
    negative capacity it gets when [lastApplied] is past [commitIndex]. *)
Definition CommitChecker rf : option (outcome (Raft C)) :=
  match commitCh rf with
  | CCWait => None
  | CCWoken => Some
      (if commitIndex rf - lastApplied rf <? 0 then Panic
       else
         msgBuf ← collect_loop rf (lastApplied rf)
                    (Z.to_nat (commitIndex rf - lastApplied rf)) [];
         Ret (rf <| commitCh := CCSend msgBuf |>))
  | CCSend (msg :: msgBuf) => Some
      (Ret (rf <| applyCh := applyCh rf ++ [msg] |> <| commitCh := CCSent msg msgBuf |>))
  | CCSent msg msgBuf => Some
      (let rf := rf <| commitCh := CCSend msgBuf |> in
       if negb (CommandIndex msg =? lastApplied rf + 1) then Ret rf
       else Ret (rf <| lastApplied := max (CommandIndex msg) (lastApplied rf) |>))
  | CCSend [] => if killed rf then None else Some (Ret (rf <| commitCh := CCWait |>))
  end.

(** The goroutine [go func() { rf.applyCh <- *msg }()] of [InstallSnapshot], the
    [k]-th one pending. *)
Definition snap_send rf (k : nat) : option (Raft C) :=
  msg ← snapMsgs rf !! k;
  Some (rf <| applyCh := applyCh rf ++ [msg] |> <| snapMsgs := delete k (snapMsgs rf) |>).

End node.
