(* ===== verification/RaftFrames.v ===== *)
(** * raft: what each critical section may change

    Two facts about every critical section of a node.  [synced]: when it ends,
    stable storage holds the durable fields.  [quiet]: apart from voting,
    standing for election and counting votes, it keeps the term, the vote and the
    vote count, or it moves to a later term without a vote, and it never makes the
    node a leader. *)
From Stdlib Require Import Init.Byte.
From S2P Require Import Prelude LabGob Raft RaftVote RaftAppend RaftSnapshot RaftNode.

Section frames.
Context {C : Type} {gob : Gob (RaftGob C)}.
Implicit Types rf : Raft C.

(** ** Stable storage *)

Definition initial_durable rf : Prop :=
  currentTerm rf = 1 ∧ votedFor rf = -1 ∧ log rf = [mkEntry (-1) None] ∧
  lastIncludedIndex rf = 0 ∧ lastIncludedTerm rf = -1.

Definition synced rf : Prop :=
  snapshot (persister rf) = snapShot rf ∧
  (raftstate (persister rf) = encodeState rf ∨
   raftstate (persister rf) = [] ∧ initial_durable rf).

Lemma synced_persist rf : synced (persist rf).
Proof. split; [done|by left]. Qed.

Lemma synced_trysend rf : synced rf → synced (commitCh_trysend rf).
Proof. unfold commitCh_trysend. by destruct (commitCh rf). Qed.

(** ** Elections *)

Definition quiet rf rf' : Prop :=
  peers rf' = peers rf ∧ me rf' = me rf ∧
  ((currentTerm rf' = currentTerm rf ∧ votedFor rf' = votedFor rf ∧
    voteCount rf' = voteCount rf ∧ (state rf' = Leader → state rf = Leader)) ∨
   (currentTerm rf < currentTerm rf' ∧ votedFor rf' = -1 ∧ state rf' ≠ Leader)).

#[global] Instance quiet_refl : Reflexive quiet.
Proof. intros rf. repeat split. left. done. Qed.

#[global] Instance quiet_trans : Transitive quiet.
Proof.
  intros rf1 rf2 rf3 (? & ? & H1) (? & ? & H2). repeat split; [congruence..|].
  destruct H1 as [(?&?&?&?)|(?&?&?)], H2 as [(?&?&?&?)|(?&?&?)].
  - left. repeat split; [congruence..|auto].
  - right. repeat split; [lia|congruence|auto].
  - right. repeat split; [lia|congruence|auto].
  - right. repeat split; [lia|congruence|auto].
Qed.

(** The fields elections depend on are untouched. *)
Definition electoral rf : Z * Z * Z * Z * Z * RaftState :=
  (peers rf, me rf, currentTerm rf, votedFor rf, voteCount rf, state rf).

Lemma quiet_electoral rf rf' : electoral rf' = electoral rf → quiet rf rf'.
Proof.
  unfold electoral. intros [= ??????]. repeat split; [done..|].
  left. repeat split; congruence.
Qed.

Lemma electoral_trysend rf : electoral (commitCh_trysend rf) = electoral rf.
Proof. unfold commitCh_trysend. by destruct (commitCh rf). Qed.

Lemma quiet_trysend rf rf' : quiet rf rf' → quiet rf (commitCh_trysend rf').
Proof. intros ?. etrans; [done|]. apply quiet_electoral, electoral_trysend. Qed.

Lemma electoral_persist rf : electoral (persist rf) = electoral rf.
Proof. done. Qed.

(** ** Loops keep everything but the field they write *)

Lemma backup_loop_frame rf server n rf' :
  backup_loop rf server n = Ret rf' → ∃ ni, rf' = rf <| nextIndex := ni |> ∧ len ni = len (nextIndex rf).
Proof.
  induction n as [|k IH]; intros H; simpl in H.
  - brk H. exists (nextIndex rf). by destruct rf.
  - brk H; try (apply IH in H as (?&?&?); eauto);
      match goal with
      | H : slice_set _ _ _ = Ret _ |- _ => apply slice_set_len in H
      end; eexists; (split; [reflexivity|done]).
Qed.

Lemma commit_loop_frame rf k rf' :
  commit_loop rf k = Ret rf' →
  rf' = rf ∨ ∃ N, commitIndex rf < N ∧ N ≤ commitIndex rf + Z.of_nat k ∧
                  rf' = commitCh_trysend (rf <| commitIndex := N |>).
Proof.
  induction k as [|k IH]; intros H; cbn -[Z.of_nat] in H.
  - brk H. by left.
  - brk H.
    + right. eexists. split_and!; [| |reflexivity]; lia.
    + apply IH in H as [->|(N&?&?&->)]; [by left|]. right. exists N. split_and!; [lia..|done].
Qed.

Lemma reinit_indices_frame rf rf' :
  reinit_indices rf = Ret rf' →
  ∃ ni mi, rf' = rf <| nextIndex := ni |> <| matchIndex := mi |> ∧
           len ni = len (nextIndex rf) ∧ len mi = len (matchIndex rf).
Proof.
  unfold reinit_indices.
  apply (ofold_inv (λ rf', ∃ ni mi, rf' = rf <| nextIndex := ni |> <| matchIndex := mi |> ∧
           len ni = len (nextIndex rf) ∧ len mi = len (matchIndex rf))).
  - intros rf1 i rf2 _ (ni & mi & -> & Hni & Hmi) H. brk H.
    repeat match goal with
           | H : slice_set _ _ _ = Ret _ |- _ => apply slice_set_len in H
           end.
    do 2 eexists. split_and!; [reflexivity|by etrans..].
  - exists (nextIndex rf), (matchIndex rf). by destruct rf.
Qed.

End frames.

(** ** The critical sections *)

(** A durable field changes only in a state that [persist] then saves. *)
Ltac solve_synced :=
  try apply synced_trysend;
  first [assumption | (split; [reflexivity|left; reflexivity])].

Ltac solve_quiet :=
  try apply quiet_trysend; split_bool;
  repeat match goal with
         | H : (_ >? _) = true |- _ => rewrite Z.gtb_ltb, Z.ltb_lt in H
         end;
  first [ reflexivity
        | apply quiet_electoral; reflexivity
        | (split; [reflexivity|split; [reflexivity|right; split_and!; [first [assumption | simpl; lia]|done|done]]])
        | (split; [reflexivity|split; [reflexivity|left; split_and!; done]]) ].

Section handlers.
Context {C : Type} {gob : Gob (RaftGob C)}.
Implicit Types rf : Raft C.

Lemma RequestVote_synced rf args rf' reply :
  RequestVote rf args = Ret (rf', reply) → synced rf → synced rf'.
Proof. intros H Hs. run RequestVote in H; solve_synced. Qed.

Lemma sendRequestVote_synced rf args reply rf' b :
  sendRequestVote rf args reply = Ret (rf', b) → synced rf → synced rf'.
Proof.
  intros H Hs. run sendRequestVote in H; try solve_synced.
  match goal with H : reinit_indices _ = Ret _ |- _ =>
    apply reinit_indices_frame in H as (?&?&->&_&_) end. solve_synced.
Qed.

Lemma sendPreVote_synced rf ok reply : synced rf → synced (sendPreVote rf ok reply).
Proof. unfold sendPreVote. intros Hs. repeat case_match; solve_synced. Qed.

Lemma sendPreVote_quiet rf ok reply : quiet rf (sendPreVote rf ok reply).
Proof. unfold sendPreVote. repeat case_match; solve_quiet. Qed.

Lemma AppendEntries_synced rnd rf args rf' reply :
  AppendEntries rnd rf args = Ret (rf', reply) → synced rf → synced rf'.
Proof. intros H Hs. run AppendEntries in H; solve_synced. Qed.

Lemma AppendEntries_quiet rnd rf args rf' reply :
  AppendEntries rnd rf args = Ret (rf', reply) → quiet rf rf'.
Proof. intros H. run AppendEntries in H; solve_quiet. Qed.

Lemma sendAppendEntries_synced rnd rf server args reply rf' b :
  sendAppendEntries rnd rf server args reply = Ret (rf', b) → synced rf → synced rf'.
Proof.
  intros H Hs. run sendAppendEntries in H; try solve_synced.
  - match goal with H : backup_loop _ _ _ = _ |- _ =>
      apply backup_loop_frame in H as (?&->&_) end. solve_synced.
  - match goal with H : commit_loop _ _ = _ |- _ =>
      apply commit_loop_frame in H as [->|(?&_&_&->)] end; solve_synced.
Qed.

Lemma sendAppendEntries_quiet rnd rf server args reply rf' b :
  sendAppendEntries rnd rf server args reply = Ret (rf', b) → quiet rf rf'.
Proof.
  intros H. run sendAppendEntries in H; try solve_quiet.
  - match goal with H : backup_loop _ _ _ = _ |- _ =>
      apply backup_loop_frame in H as (?&->&_) end. solve_quiet.
  - match goal with H : commit_loop _ _ = _ |- _ =>
      apply commit_loop_frame in H as [->|(?&_&_&->)] end; solve_quiet.
Qed.

Lemma doLeader_frame rf rf' gos :
  doLeader rf = Ret (rf', gos) → rf' = resetHeartBeat rf.
Proof. intros H. by run doLeader in H. Qed.

Lemma InstallSnapshot_synced rnd rf args rf' reply :
  InstallSnapshot rnd rf args = Ret (rf', reply) → synced rf → synced rf'.
Proof. intros H Hs. run InstallSnapshot in H; solve_synced. Qed.

Lemma InstallSnapshot_quiet rnd rf args rf' reply :
  InstallSnapshot rnd rf args = Ret (rf', reply) → quiet rf rf'.
Proof. intros H. run InstallSnapshot in H; solve_quiet. Qed.

Lemma handleInstallSnapshot_synced rnd rf server reply rf' :
  handleInstallSnapshot rnd rf server reply = Ret rf' → synced rf → synced rf'.
Proof. intros H Hs. run handleInstallSnapshot in H; solve_synced. Qed.

Lemma handleInstallSnapshot_quiet rnd rf server reply rf' :
  handleInstallSnapshot rnd rf server reply = Ret rf' → quiet rf rf'.
Proof. intros H. run handleInstallSnapshot in H; solve_quiet. Qed.

Lemma Snapshot_synced rf index data rf' :
  Snapshot rf index data = Ret rf' → synced rf → synced rf'.
Proof. intros H Hs. run Snapshot in H; solve_synced. Qed.

Lemma Snapshot_quiet rf index data rf' :
  Snapshot rf index data = Ret rf' → quiet rf rf'.
Proof. intros H. run Snapshot in H; solve_quiet. Qed.

Lemma Start_synced now rf command rf' r :
  Start now rf command = Ret (rf', r) → synced rf → synced rf'.
Proof. intros H Hs. run Start in H; solve_synced. Qed.

Lemma Start_quiet now rf command rf' r :
  Start now rf command = Ret (rf', r) → quiet rf rf'.
Proof. intros H. run Start in H; solve_quiet. Qed.

Lemma CommitChecker_synced rf rf' :
  CommitChecker rf = Some (Ret rf') → synced rf → synced rf'.
Proof.
  unfold CommitChecker. intros H Hs.
  repeat case_match; try done; apply (inj Some) in H; brk H; solve_synced.
Qed.

Lemma CommitChecker_quiet rf rf' : CommitChecker rf = Some (Ret rf') → quiet rf rf'.
Proof.
  unfold CommitChecker. intros H.
  repeat case_match; try done; apply (inj Some) in H; brk H; solve_quiet.
Qed.

Lemma snap_send_frame rf k rf' :
  snap_send rf k = Some rf' → quiet rf rf' ∧ (synced rf → synced rf').
Proof.
  unfold snap_send. destruct (snapMsgs rf !! k) as [m|]; intros H; [|discriminate H].
  apply (inj Some) in H. brk H. split; [solve_quiet|intros Hs; solve_synced].
Qed.

Lemma ticker_msg_frame rf rf' gos :
  ticker_msg rf = Ret (rf', gos) → quiet rf rf' ∧ (synced rf → synced rf').
Proof.
  intros H. run ticker_msg in H.
  - apply doLeader_frame in H as ->. split; [solve_quiet|intros Hs; solve_synced].
  - split; [solve_quiet|intros Hs; solve_synced].
Qed.

Lemma ticker_timeout_synced rnd rf rf' gos :
  ticker_timeout rnd rf = Ret (rf', gos) → synced rf → synced rf'.
Proof.
  intros H Hs. run ticker_timeout in H; try solve_synced.
  apply doLeader_frame in H as ->. solve_synced.
Qed.

(** ** Restart *)

Definition same_durable rf rf' : Prop :=
  currentTerm rf' = currentTerm rf ∧ votedFor rf' = votedFor rf ∧ log rf' = log rf ∧
  lastIncludedIndex rf' = lastIncludedIndex rf ∧
  lastIncludedTerm rf' = lastIncludedTerm rf ∧ snapShot rf' = snapShot rf.

(** Reading back what [encodeState] wrote. *)
Lemma readPersist_encodeState rf0 rf :
  readPersist rf0 (encodeState rf) =
  rf0 <| votedFor := votedFor rf |>
      <| currentTerm := currentTerm rf |>
      <| log := log rf |>
      <| lastIncludedIndex := lastIncludedIndex rf |>
      <| lastIncludedTerm := lastIncludedTerm rf |>
      <| commitIndex := lastIncludedIndex rf |>
      <| lastApplied := lastIncludedIndex rf |>.
Proof.
  unfold readPersist. destruct (Z.ltb_spec (len (encodeState rf)) 1) as [Hlen|_].
  - exfalso. assert (encodeState rf ≠ []) as Hne%len_pos; [|lia].
    unfold encodeState. by apply Bytes_nonempty.
  - unfold encodeState. rewrite NewDecoder_Bytes. reflexivity.
Qed.

Lemma readSnapshot_fields rf0 data :
  readSnapshot rf0 data = rf0 <| snapShot := if len data =? 0 then snapShot rf0 else data |>.
Proof. unfold readSnapshot. destruct (_ =? _); by destruct rf0. Qed.

(** [Make] over the persister of a synced instance. *)
Lemma Make_synced rf rnd now :
  synced rf →
  let rf' := Make (peers rf) (me rf) (persister rf) rnd now in
  same_durable rf rf' ∧ synced rf' ∧
  peers rf' = peers rf ∧ me rf' = me rf ∧ state rf' = Follower ∧ voteCount rf' = 0.
Proof.
  intros [Hsnap Hst]. unfold Make. rewrite readSnapshot_fields.
  assert (∀ ps : Persister, (if len (ReadSnapshot ps) =? 0 then [] else ReadSnapshot ps)
           = snapshot ps) as Hread.
  { intros [? sn]. unfold ReadSnapshot, clone. simpl.
    destruct (Z.eqb_spec (len sn) 0) as [Hl|]; [|done].
    destruct sn; [done|]. rewrite len_cons in Hl. pose proof (len_nonneg sn). lia. }
  destruct Hst as [Hst|(Hst & Hini)]; unfold ReadRaftState, clone; rewrite Hst.
  - rewrite readPersist_encodeState. cbn -[len ReadSnapshot]. rewrite Hread.
    unfold same_durable. cbn. split_and!; try done.
    split; [done|left; exact Hst].
  - destruct Hini as (H1 & H2 & H3 & H4 & H5).
    unfold readPersist. cbn -[len ReadSnapshot]. rewrite Hread.
    unfold same_durable. cbn. split_and!; try done.
    split; [done|right]. by split_and!.
Qed.

End handlers.
