(* ===== verification/RaftSystem.v ===== *)
(** * raft: a cluster of nodes over a lossy network

    The nodes of a cluster and the goroutines in flight between them.  Every
    critical section of [src/src/raft] is one event, so the events interleave the
    way the goroutines do.  The network is [labrpc]'s: a call reaches its server
    at most once, in any order, and its reply comes back at most once; both may be
    lost.  A restarted node is [Make] over the [Persister] the old instance left.
    The old instance's goroutines are gone, but the requests they had sent may
    still reach their servers.

    [args.Entries] of [doLeader] is a slice of [rf.log] and [sendAppendEntries] encodes
    it after it has given up the lock: until then the goroutine shares the array of the
    log and sees what [append] writes into it ([share]).  Whether an [append] finds room
    in the array or moves the log to a larger one is Go's choice, here the event
    [EGrow]. *)
From Stdlib Require Import Init.Byte.
From S2P Require Import Prelude LabGob Raft RaftVote RaftAppend RaftSnapshot RaftNode.

(** How far a goroutine that makes an RPC has come; [P] is what it keeps before it has
    encoded the arguments. *)
Inductive Phase (P A R : Type) :=
| Spawned (p : P)
| Calling (args : A)
| Replied (args : A) (reply : R).
Arguments Spawned {P A R} p.
Arguments Calling {P A R} args.
Arguments Replied {P A R} args reply.

(** [sendAppendEntries] before it encodes [args]: whether it has seen that the node
    leads, and whether [args.Entries] still lies in the array of [rf.log]. *)
Record Unsent := mkUnsent { checked : bool; shared : bool }.

Section system.
Context {C : Type} {gob : Gob (RaftGob C)}.

Inductive Task :=
| TVote (owner server : Z) (ph : Phase unit RequestVoteArgs RequestVoteReply)
| TPreVote (owner server : Z) (ph : Phase unit unit PreVoteReply)
| TAppend (owner server : Z) (args : AppendEntriesArgs C)
    (ph : Phase Unsent unit AppendEntriesReply)
| TInstall (owner server : Z) (ph : Phase unit (InstallSnapshotArgs C) InstallSnapshotReply).

Definition owner (t : Task) : Z :=
  match t with TVote o _ _ | TPreVote o _ _ | TAppend o _ _ _ | TInstall o _ _ => o end.

Definition task_of (me : Z) (g : Spawn C) : Task :=
  match g with
  | GoRequestVote server args => TVote me server (Calling args)
  | GoPreVote server => TPreVote me server (Calling tt)
  | GoAppendEntries server args => TAppend me server args (Spawned (mkUnsent false true))
  | GoInstallSnapshot server => TInstall me server (Spawned tt)
  end.

Record Sys := mkSys {
  nodes : gmap Z (Raft C);
  tasks : list Task;
  orphans : list Task;  (* calls in flight whose caller has crashed *)
}.

Inductive Event :=
| ETimeout (i rnd : Z)                      (* the ticker of node [i] fires *)
| EMsg (i : Z)                              (* [ticker] receives from [msgComing] *)
| EStart (i now : Z) (command : option C)   (* the service calls [Start] *)
| ESnapshot (i index : Z) (data : list byte)(* the service calls [Snapshot] *)
| EKill (i : Z)                             (* the service calls [Kill] *)
| ECommit (i : Z)                           (* one step of [CommitChecker] *)
| ESnapSend (i : Z) (k : nat)               (* a snapshot message reaches [applyCh] *)
| EBegin (k : nat)                          (* goroutine [k] looks whether the node leads *)
| EEncode (k : nat)                         (* [Call] encodes the arguments of goroutine [k] *)
| EGrow (i : Z)                             (* the log of node [i] moves to a larger array *)
| EDeliver (k : nat) (rnd : Z)              (* the server handles call [k] *)
| ELose (k : nat)                           (* call [k] fails *)
| EReceive (k : nat) (rnd : Z)              (* the caller handles reply [k] *)
| ERestart (i rnd now : Z)                  (* node [i] crashes and restarts *)
| EOrphan (k : nat) (rnd : Z).              (* a server handles a crashed node's call [k] *)

Implicit Types (s : Sys) (i : Z) (k : nat).

Definition put s i (rf : Raft C) : Sys := mkSys (<[i := rf]> (nodes s)) (tasks s) (orphans s).

Definition of_outcome {A} (o : outcome A) : option A :=
  match o with Ret a => Some a | Panic => None end.

(** Node [i] runs [f], which may start goroutines.  A panic stops the process: the
    node takes no such step. *)
Definition node_spawn s i (f : Raft C → outcome (Raft C * list (Spawn C))) : option Sys :=
  rf ← nodes s !! i;
  '(rf', gos) ← of_outcome (f rf);
  Some (mkSys (<[i := rf']> (nodes s)) (tasks s ++ (task_of i <$> gos)) (orphans s)).

Definition node_step s i (f : Raft C → outcome (Raft C)) : option Sys :=
  rf ← nodes s !! i;
  rf' ← of_outcome (f rf);
  Some (put s i rf').

Definition retask s k (t : Task) : Sys := mkSys (nodes s) (<[k := t]> (tasks s)) (orphans s).
Definition end_task s k : Sys := mkSys (nodes s) (delete k (tasks s)) (orphans s).

(** A goroutine's critical section before its [Call]. *)
Definition begin_task s k : option Sys :=
  t ← tasks s !! k;
  match t with
  | TAppend o server args (Spawned (mkUnsent false sh)) =>
      rf ← nodes s !! o;
      Some (if sendAppendEntries_begin rf
            then retask s k (TAppend o server args (Spawned (mkUnsent true sh))) else end_task s k)
  | TInstall o server (Spawned _) =>
      rf ← nodes s !! o;
      a ← of_outcome (handleInstallSnapshot_begin rf);
      Some (match a with
            | Some args => retask s k (TInstall o server (Calling args))
            | None => end_task s k
            end)
  | _ => None
  end.

(** [Call] encodes [args], with the entries the slice has by now. *)
Definition encode_task s k : option Sys :=
  t ← tasks s !! k;
  match t with
  | TAppend o server args (Spawned (mkUnsent true _)) =>
      Some (retask s k (TAppend o server args (Calling tt)))
  | _ => None
  end.

(** The server's handler: the server's new state and the call with its reply. *)
Definition handle (ns : gmap Z (Raft C)) (t : Task) (rnd : Z) : option (Z * Raft C * Task) :=
  match t with
  | TVote o server (Calling args) =>
      rf ← ns !! server;
      '(rf', reply) ← of_outcome (RequestVote rf args);
      Some (server, rf', TVote o server (Replied args reply))
  | TPreVote o server (Calling args) =>
      rf ← ns !! server;
      Some (server, rf, TPreVote o server (Replied args PreVote))
  | TAppend o server args (Calling u) =>
      rf ← ns !! server;
      '(rf', reply) ← of_outcome (AppendEntries rnd rf args);
      Some (server, rf', TAppend o server args (Replied u reply))
  | TInstall o server (Calling args) =>
      rf ← ns !! server;
      '(rf', reply) ← of_outcome (InstallSnapshot rnd rf args);
      Some (server, rf', TInstall o server (Replied args reply))
  | _ => None
  end.

Definition deliver_task s k (rnd : Z) : option Sys :=
  t ← tasks s !! k;
  '(server, rf', t') ← handle (nodes s) t rnd;
  Some (put (retask s k t') server rf').

(** The reply to a crashed caller goes nowhere. *)
Definition deliver_orphan s k (rnd : Z) : option Sys :=
  t ← orphans s !! k;
  '(server, rf', _) ← handle (nodes s) t rnd;
  Some (mkSys (<[server := rf']> (nodes s)) (tasks s) (delete k (orphans s))).

(** A request or a reply is lost: [Call] returns false, the goroutine sees the
    zero reply and returns, except [handleInstallSnapshot], which calls again. *)
Definition lose_task s k : option Sys :=
  t ← tasks s !! k;
  match t with
  | TVote _ _ _ | TPreVote _ _ _ => Some (end_task s k)
  | TAppend _ _ _ (Spawned _) => None
  | TAppend _ _ _ _ => Some (end_task s k)
  | TInstall _ _ (Spawned _) => None
  | TInstall o server (Calling args) | TInstall o server (Replied args _) =>
      Some (retask s k (TInstall o server (Calling args)))
  end.

(** A goroutine's code after its [Call]. *)
Definition receive_task s k (rnd : Z) : option Sys :=
  t ← tasks s !! k;
  rf ← nodes s !! owner t;
  match t with
  | TVote o server (Replied args reply) =>
      '(rf', _) ← of_outcome (sendRequestVote rf args reply);
      Some (put (end_task s k) o rf')
  | TPreVote o server (Replied _ reply) =>
      Some (put (end_task s k) o (sendPreVote rf true reply))
  | TAppend o server args (Replied _ reply) =>
      '(rf', _) ← of_outcome (sendAppendEntries rnd rf server args reply);
      Some (put (end_task s k) o rf')
  | TInstall o server (Replied _ reply) =>
      rf' ← of_outcome (handleInstallSnapshot rnd rf server reply);
      Some (put (end_task s k) o rf')
  | _ => None
  end.

(** What an event does, but for slices that share the array of a log. *)
Definition step (e : Event) s : option Sys :=
  match e with
  | ETimeout i rnd =>
      rf ← nodes s !! i;
      if killed rf then None else node_spawn s i (ticker_timeout rnd)
  | EMsg i =>
      rf ← nodes s !! i;
      if killed rf || negb (msgComing (timer rf)) then None else node_spawn s i ticker_msg
  | EStart i now command => node_step s i (λ rf, '(rf', _) ← Start now rf command; Ret rf')
  | ESnapshot i index data => node_step s i (λ rf, Snapshot rf index data)
  | EKill i => node_step s i (λ rf, Ret (Kill rf))
  | ECommit i =>
      rf ← nodes s !! i;
      o ← CommitChecker rf;
      rf' ← of_outcome o;
      Some (put s i rf')
  | ESnapSend i k =>
      rf ← nodes s !! i;
      rf' ← snap_send rf k;
      Some (put s i rf')
  | EBegin k => begin_task s k
  | EEncode k => encode_task s k
  | EGrow i => _ ← nodes s !! i; Some s
  | EDeliver k rnd => deliver_task s k rnd
  | ELose k => lose_task s k
  | EReceive k rnd => receive_task s k rnd
  | ERestart i rnd now =>
      rf ← nodes s !! i;
      Some (mkSys (<[i := Make (peers rf) i (persister rf) rnd now]> (nodes s))
                  (filter (λ t, owner t ≠ i) (tasks s))
                  (orphans s ++ filter (λ t, owner t = i) (tasks s)))
  | EOrphan k rnd => deliver_orphan s k rnd
  end.

(** ** Slices of a log

    A slice in the array of the log of [rf] that begins at index [v]: where the log has
    an entry, the slice has the same; elsewhere the array keeps what was there, as after
    [rf.log = rf.log[:ridx]]. *)
Fixpoint reread (rf : Raft C) (v : Z) (es : list (LogEntry C)) : list (LogEntry C) :=
  match es with
  | [] => []
  | e :: es => default e (zlookup (log rf) (RealLogIdx rf v)) :: reread rf (v + 1) es
  end.

Definition reread_args (rf : Raft C) (args : AppendEntriesArgs C) : AppendEntriesArgs C :=
  mkAppendEntriesArgs (ae_Term args) (ae_LeaderId args) (ae_PrevLogIndex args) (ae_PrevLogTerm args)
    (reread rf (ae_PrevLogIndex args + 1) (ae_Entries args)) (ae_LeaderCommit args).

Definition share_task (ns : gmap Z (Raft C)) (t : Task) : Task :=
  match t with
  | TAppend o server args (Spawned (mkUnsent c true)) =>
      match ns !! o with
      | Some rf => TAppend o server (reread_args rf args) (Spawned (mkUnsent c true))
      | None => t
      end
  | _ => t
  end.

Definition share s : Sys := mkSys (nodes s) (share_task (nodes s) <$> tasks s) (orphans s).

(** The log of node [i] has another array; the slices stay in the old one. *)
Definition detach_task i (t : Task) : Task :=
  match t with
  | TAppend o server args (Spawned (mkUnsent c true)) =>
      if o =? i then TAppend o server args (Spawned (mkUnsent c false)) else t
  | _ => t
  end.

Definition detach (i : option Z) s : Sys :=
  match i with Some i => mkSys (nodes s) (detach_task i <$> tasks s) (orphans s) | None => s end.

(** [InstallSnapshot] makes a new array unless the log has the last entry of the
    snapshot. *)
Definition replaces_log (ns : gmap Z (Raft C)) (t : Task) : option Z :=
  match t with
  | TInstall _ server (Calling args) =>
      rf ← ns !! server;
      if is_Term args <? currentTerm rf then None
      else match find_entry rf args 0 (log rf) with Some _ => None | None => Some server end
  | _ => None
  end.

Definition new_array (e : Event) s : option Z :=
  match e with
  | EGrow i => Some i
  | EDeliver k _ => t ← tasks s !! k; replaces_log (nodes s) t
  | EOrphan k _ => t ← orphans s !! k; replaces_log (nodes s) t
  | _ => None
  end.

Definition exec (e : Event) s : option Sys := s' ← step e s; Some (share (detach (new_array e s) s')).

(** The event overwrites entries of a call that is not yet encoded, with entries of
    other terms. *)
Definition torn (ns : gmap Z (Raft C)) (t : Task) : bool :=
  match t with
  | TAppend o _ args (Spawned (mkUnsent _ true)) =>
      match ns !! o with
      | Some rf =>
          negb (bool_decide (le_Term <$> reread rf (ae_PrevLogIndex args + 1) (ae_Entries args)
                             = le_Term <$> ae_Entries args))
      | None => false
      end
  | _ => false
  end.

Definition overwrites (e : Event) s : bool :=
  match step e s with
  | Some s' => existsb (torn (nodes s')) (tasks (detach (new_array e s) s'))
  | None => false
  end.

(** A cluster of [n] nodes at its first start. *)
Definition init (n : Z) (rnd : Z → Z) (now : Z) : Sys :=
  mkSys (list_to_map ((λ i, (i, Make n i MakePersister (rnd i) now)) <$> zrange n)) [] [].

Inductive reachable (n : Z) : Sys → Prop :=
| reach_init rnd now : reachable n (init n rnd now)
| reach_step s e s' : reachable n s → exec e s = Some s' → reachable n s'.

(** Runs a list of events, for concrete executions. *)
Fixpoint run (es : list Event) s : option Sys :=
  match es with
  | [] => Some s
  | e :: es => s' ← exec e s; run es s'
  end.

Lemma exec_step e s s' :
  exec e s = Some s' → ∃ s1, step e s = Some s1 ∧ s' = share (detach (new_array e s) s1) ∧ nodes s' = nodes s1.
Proof.
  unfold exec. destruct (step e s) as [s1|] eqn:He; [|done]. simpl. intros [= <-]. exists s1. split_and!; [done..|].
  simpl. by destruct (new_array e s).
Qed.

Lemma run_reachable n es s s' : reachable n s → run es s = Some s' → reachable n s'.
Proof.
  revert s. induction es as [|e es IH]; simpl; intros s Hs.
  - by intros [= <-].
  - destruct (exec e s) eqn:He; simpl; [|done]. intros Hrun.
    eapply IH; [|done]. by eapply reach_step.
Qed.

End system.
Arguments Task : clear implicits.
Arguments Sys : clear implicits.
Arguments Event : clear implicits.
