(* ===== verification/RaftElection.v ===== *)
(** * raft: election safety

    At most one node leads a term, in every state a cluster can reach, with
    messages lost, delayed and reordered and nodes crashing and restarting.

    The invariant is over a history [V] of votes: [V !! (i, t) = Some c] says that
    server [i] voted for [c] in term [t].  A node's [votedFor] is its entry for its
    current term; a candidate's [voteCount] is covered by a set of servers that
    voted for it and whose calls have returned. *)
From Stdlib Require Import Init.Byte.
From S2P Require Import Prelude LabGob Raft RaftVote RaftAppend RaftSnapshot RaftNode.
From S2P Require Import RaftFrames RaftSystem.

Section election.
Context {C : Type} {gob : Gob (RaftGob C)}.
Implicit Types (rf : Raft C) (s : Sys C) (t : Task C) (ts : list (Task C)).

(** ** What voting does *)

(** A server grants its vote only in a term in which it has not voted for another
    candidate, to one whose log is at least as up to date as its own, and then moves
    to that term. *)
Definition granted rf (args : RequestVoteArgs) rf' : Prop :=
  peers rf' = peers rf ∧ me rf' = me rf ∧
  currentTerm rf' = rv_Term args ∧ votedFor rf' = rv_CandidateId args ∧
  state rf' = Follower ∧
  (currentTerm rf < rv_Term args ∨
   currentTerm rf = rv_Term args ∧ (votedFor rf = -1 ∨ votedFor rf = rv_CandidateId args)) ∧
  ∃ last, getLastLog rf = Ret last ∧
    (le_Term last < rv_LastLogTerm args ∨
     le_Term last = rv_LastLogTerm args ∧ VirtualLogIdx rf (len (log rf)) ≤ rv_LastLogIndex args).

Lemma newer_true (t t' k k' : Z) :
  (t >? t') || ((t =? t') && (k >=? k')) = true → t' < t ∨ t' = t ∧ k' ≤ k.
Proof.
  rewrite Z.gtb_ltb, Z.geb_leb. destruct (Z.ltb_spec t' t); [by left|]. simpl.
  intros [?%Z.eqb_eq ?%Z.leb_le]%andb_true_iff. by right.
Qed.

Lemma RequestVote_cases rf args rf' reply :
  RequestVote rf args = Ret (rf', reply) →
  (rvr_VoteGranted reply = false ∧ quiet rf rf') ∨
  (rvr_VoteGranted reply = true ∧ granted rf args rf').
Proof.
  intros H. run RequestVote in H.
  all: try (left; split; [done|solve_quiet]).
  all: right; split; [done|]; unfold granted; split_and!; try done.
  all: try (eexists; split; [eassumption|]; by apply newer_true).
  all: repeat match goal with
       | H : (_ >? _) = true |- _ => rewrite Z.gtb_ltb, Z.ltb_lt in H
       | H : (_ >? _) = false |- _ => rewrite Z.gtb_ltb, Z.ltb_ge in H
       | H : (_ <? _) = false |- _ => rewrite Z.ltb_ge in H
       | H : _ || _ = true |- _ => apply orb_prop in H
       end.
  - by left.
  - right. split; [lia|]. destruct Heqb1 as [E|E]; apply Z.eqb_eq in E; auto.
Qed.

(** A reply that counts raises [voteCount] by one, and only a majority makes a
    leader. *)
Lemma sendRequestVote_cases rf args reply rf' b :
  sendRequestVote rf args reply = Ret (rf', b) →
  quiet rf rf' ∨
  (rvr_VoteGranted reply = true ∧ currentTerm rf = rv_Term args ∧
   peers rf' = peers rf ∧ me rf' = me rf ∧ currentTerm rf' = currentTerm rf ∧
   votedFor rf' = votedFor rf ∧ voteCount rf' = voteCount rf + 1 ∧
   (state rf' = Leader → state rf = Leader ∨ peers rf / 2 < voteCount rf')).
Proof.
  intros H. run sendRequestVote in H; try (left; solve_quiet).
  all: right; split_bool.
  all: match goal with H : (_ =? rv_Term _) = true |- _ => apply Z.eqb_eq in H end.
  all: try match goal with H : reinit_indices _ = Ret _ |- _ =>
         apply reinit_indices_frame in H as (?&?&->&_&_) end.
  all: split_and!; try done.
  - intros _. right. match goal with H : (_ >? _) = true |- _ =>
      rewrite Z.gtb_ltb, Z.ltb_lt in H; exact H end.
  - by left.
Qed.

(** What a timeout does: a candidate moves to the next term, votes for itself and
    asks every other server; any other node starts no vote. *)
Definition stands rf rf' (gos : list (Spawn C)) : Prop :=
  peers rf' = peers rf ∧ me rf' = me rf ∧
  currentTerm rf' = currentTerm rf + 1 ∧ votedFor rf' = me rf ∧ voteCount rf' = 1 ∧
  state rf' ≠ Leader ∧
  Forall2 (λ i g, ∃ args, g = GoRequestVote i args ∧ rv_Term args = currentTerm rf + 1 ∧
                          rv_CandidateId args = me rf)
    (filter (λ i, i ≠ me rf) (zrange (peers rf))) gos.

Definition not_vote (g : Spawn C) : Prop :=
  match g with GoRequestVote _ _ => False | _ => True end.

Lemma doLeader_not_vote rf rf' gos : doLeader rf = Ret (rf', gos) → Forall not_vote gos.
Proof.
  intros H. run doLeader in H.
  eapply (ofold_snoc (λ _ g, not_vote g)) in H0 as (gs & -> & Hgs).
  - simpl. eapply Forall2_Forall_r in Hgs; [done|]. by apply Forall_true.
  - intros acc i r Hr. brk Hr. exists a. split; [done|].
    unfold doLeader_peer in Hr0. by brk Hr0.
Qed.

Lemma ticker_timeout_cases rnd rf rf' gos :
  ticker_timeout rnd rf = Ret (rf', gos) →
  (quiet rf rf' ∧ Forall not_vote gos) ∨ stands rf rf' gos.
Proof.
  intros H. run ticker_timeout in H.
  - left. split; [solve_quiet|]. apply Forall_fmap, Forall_true. done.
  - left. split; [solve_quiet|]. apply Forall_fmap, Forall_true. done.
  - right. unfold stands. split_and!; try done.
    + simpl. by rewrite Heqr.
    + eapply (ofold_snoc (λ i g, ∃ args, g = GoRequestVote i args ∧
        rv_Term args = currentTerm rf + 1 ∧ rv_CandidateId args = me rf)) in H0 as (gs & -> & Hgs).
      * exact Hgs.
      * intros acc i r Hr. brk Hr. eexists. split; [reflexivity|]. by eexists.
  - left. split.
    + apply doLeader_frame in H as ->. solve_quiet.
    + by eapply doLeader_not_vote.
Qed.

Lemma ticker_msg_not_vote rf rf' gos : ticker_msg rf = Ret (rf', gos) → Forall not_vote gos.
Proof. intros H. run ticker_msg in H; [by eapply doLeader_not_vote|done]. Qed.

(** ** The invariant *)

(** The call for a vote a goroutine stands for: who asks whom, in which term. *)
Definition vote_key t : option (Z * Z * Z) :=
  match t with
  | TVote o server (Calling args) | TVote o server (Replied args _) =>
      Some (o, server, rv_Term args)
  | _ => None
  end.

Definition vote_keys ts : list (Z * Z * Z) := omap vote_key ts.

Definition node_inv (n : Z) (V : gmap (Z * Z) Z) ts (i : Z) rf : Prop :=
  0 ≤ i < n ∧ peers rf = n ∧ me rf = i ∧ synced rf ∧
  (∀ u c, V !! (i, u) = Some c → u ≤ currentTerm rf) ∧
  V !! (i, currentTerm rf) = (if votedFor rf =? -1 then None else Some (votedFor rf)) ∧
  (votedFor rf = i →
   ∃ X : gset Z, voteCount rf ≤ Z.of_nat (size X) ∧
     (∀ v, v ∈ X → 0 ≤ v < n ∧ V !! (v, currentTerm rf) = Some i) ∧
     (∀ server, (i, server, currentTerm rf) ∈ vote_keys ts → server ∉ X)) ∧
  (state rf = Leader → votedFor rf = i ∧ n / 2 < voteCount rf).

Definition vote_inv (V : gmap (Z * Z) Z) (o server : Z)
    (ph : Phase unit RequestVoteArgs RequestVoteReply) : Prop :=
  match ph with
  | Spawned _ => False
  | Calling args => V !! (o, rv_Term args) = Some o ∧ rv_CandidateId args = o
  | Replied args reply =>
      V !! (o, rv_Term args) = Some o ∧ rv_CandidateId args = o ∧
      (rvr_VoteGranted reply = true → V !! (server, rv_Term args) = Some o)
  end.

Definition task_inv (n : Z) (V : gmap (Z * Z) Z) t : Prop :=
  match t with
  | TVote o server ph => 0 ≤ o < n ∧ 0 ≤ server < n ∧ server ≠ o ∧ vote_inv V o server ph
  | _ => True
  end.

Record InvV (n : Z) (V : gmap (Z * Z) Z) s : Prop := {
  inv_nodes i rf : nodes s !! i = Some rf → node_inv n V (tasks s) i rf;
  inv_tasks t : t ∈ tasks s → task_inv n V t;
  inv_orphans t : t ∈ orphans s → task_inv n V t;
  inv_keys : NoDup (vote_keys (tasks s));
}.

(** ** How the invariant is kept *)

Lemma vote_inv_mono V V' o server ph : V ⊆ V' → vote_inv V o server ph → vote_inv V' o server ph.
Proof.
  intros HV. destruct ph as [|args|args reply]; simpl; [done|..].
  - intros [??]. split; [by eapply lookup_weaken|done].
  - intros (?&?&?). split_and!; [by eapply lookup_weaken|done|].
    intros ?. eapply lookup_weaken; eauto.
Qed.

Lemma task_inv_mono n V V' t : V ⊆ V' → task_inv n V t → task_inv n V' t.
Proof.
  intros HV. destruct t; simpl; try done.
  intros (?&?&?&?). split_and!; try first [done|lia]. by eapply vote_inv_mono.
Qed.

(** A node is unaffected by votes of others and by calls of others. *)
Lemma node_inv_mono n V V' ts ts' i rf :
  V ⊆ V' →
  (∀ u, V' !! (i, u) = V !! (i, u)) →
  (∀ server u, (i, server, u) ∈ vote_keys ts' → (i, server, u) ∈ vote_keys ts) →
  node_inv n V ts i rf → node_inv n V' ts' i rf.
Proof.
  intros HV Hi Hk (?&?&?&?&Hle&Hcur&HX&?). unfold node_inv.
  split_and!; try first [done|lia].
  { intros u c. rewrite Hi. apply Hle. }
  { by rewrite Hi. }
  intros Hv. destruct (HX Hv) as (X & ? & HX1 & HX2). exists X. split_and!; [done|..].
  - intros v [? ?]%HX1. split; [done|]. by eapply lookup_weaken.
  - intros server Hs. apply HX2. auto.
Qed.

(** A quiet step keeps the node's part of the invariant. *)
Lemma node_inv_quiet n V ts i rf rf' :
  node_inv n V ts i rf → quiet rf rf' → synced rf' → node_inv n V ts i rf'.
Proof.
  intros (?&?&?&?&Hle&Hcur&HX&HL) (Hp & Hm & [(Ht&Hv&Hc&Hst)|(Ht&Hv&Hst)]) ?; unfold node_inv.
  - rewrite Hp, Hm, Ht, Hv, Hc. split_and!; try first [done|lia]. auto.
  - rewrite Hp, Hm, Hv. split_and!; try first [done|lia].
    + intros u c Hu%Hle. lia.
    + simpl. destruct (V !! (i, currentTerm rf')) eqn:E; [|done]. apply Hle in E. lia.
Qed.

Lemma InvV_put n V s i rf :
  InvV n V s → node_inv n V (tasks s) i rf → InvV n V (put s i rf).
Proof.
  intros [Hn Ht Ho Hk] Hrf. split; [|done..].
  intros j rfj. unfold put. simpl. intros [[-> <-]|[? ?]]%lookup_insert_Some; auto.
Qed.

(** Replacing the goroutines by fewer or equivalent ones. *)
Lemma InvV_tasks n V s ts' :
  InvV n V s →
  (∀ t, t ∈ ts' → task_inv n V t) →
  vote_keys ts' `sublist_of` vote_keys (tasks s) →
  InvV n V (mkSys (nodes s) ts' (orphans s)).
Proof.
  intros [Hn Ht Ho Hk] Hts' Hsub. split; simpl.
  - intros i rf Hi%Hn. eapply node_inv_mono; [done|done| |done].
    intros. by eapply elem_of_sublist.
  - done.
  - done.
  - by eapply sublist_NoDup.
Qed.

Lemma InvV_end_task n V s k : InvV n V s → InvV n V (end_task s k).
Proof.
  intros Hinv. apply InvV_tasks; [done|..].
  - intros t Ht. apply (inv_tasks _ _ _ Hinv).
    eapply elem_of_sublist; [done|]. apply sublist_delete.
  - apply sublist_omap, sublist_delete.
Qed.

Lemma InvV_retask n V s k t t' :
  InvV n V s → tasks s !! k = Some t → vote_key t' = vote_key t → task_inv n V t' →
  InvV n V (retask s k t').
Proof.
  intros Hinv Hk Hkey Ht'. apply InvV_tasks; [done|..].
  - intros t1 [j Hj]%list_elem_of_lookup.
    apply list_lookup_insert_Some in Hj as [(-> & -> & _)|(_ & Hj)]; [done|].
    apply (inv_tasks _ _ _ Hinv). by eapply list_elem_of_lookup_2.
  - unfold vote_keys. by erewrite omap_insert_same.
Qed.

Lemma vote_keys_not_vote i gos : Forall not_vote gos → vote_keys (task_of i <$> gos) = [].
Proof. unfold vote_keys. induction 1 as [|[] gos ?? IH]; simpl; done. Qed.

(** New goroutines that ask for no vote. *)
Lemma InvV_spawn n V s i gos :
  InvV n V s → Forall not_vote gos →
  InvV n V (mkSys (nodes s) (tasks s ++ (task_of i <$> gos)) (orphans s)).
Proof.
  intros Hinv Hgos. apply InvV_tasks; [done|..].
  - intros t [Ht|Ht]%elem_of_app; [by apply (inv_tasks _ _ _ Hinv)|].
    apply list_elem_of_fmap in Ht as (g & -> & Hg).
    rewrite Forall_forall in Hgos. apply Hgos in Hg. by destruct g.
  - unfold vote_keys in *. rewrite omap_app.
    pose proof (vote_keys_not_vote i gos Hgos) as E. unfold vote_keys in E.
    by rewrite E, app_nil_r.
Qed.

(** A node moves and its vote is added to the history. *)
Lemma InvV_new_vote n V s i rf' u c ts' os' :
  InvV n V s →
  V !! (i, u) = None ∨ V !! (i, u) = Some c →
  (∀ t, t ∈ ts' ∨ t ∈ os' → task_inv n (<[(i, u) := c]> V) t) →
  NoDup (vote_keys ts') →
  (∀ j server v, j ≠ i → (j, server, v) ∈ vote_keys ts' → (j, server, v) ∈ vote_keys (tasks s)) →
  node_inv n (<[(i, u) := c]> V) ts' i rf' →
  InvV n (<[(i, u) := c]> V) (mkSys (<[i := rf']> (nodes s)) ts' os').
Proof.
  intros [Hn Ht Ho Hk] Hiu Hts Hnd Hkeys Hi. split; simpl; [|by auto..].
  intros j rfj [[-> <-]|[Hne Hj]]%lookup_insert_Some; [done|].
  apply Hn in Hj. revert Hj. apply node_inv_mono; [| |by eauto].
  - destruct Hiu; [by apply insert_subseteq|]. by rewrite insert_id.
  - intros v. apply lookup_insert_ne. congruence.
Qed.

Lemma insert_vote_mono (V : gmap (Z * Z) Z) k c :
  V !! k = None ∨ V !! k = Some c → V ⊆ <[k := c]> V.
Proof. intros [?|?]; [by apply insert_subseteq|]. by rewrite insert_id. Qed.

(** A vote is granted only where the history has none, or the same. *)
Lemma grant_fresh n V s o server args rf rf' :
  InvV n V s → task_inv n V (TVote o server (Calling args)) → nodes s !! server = Some rf → granted rf args rf' →
  V !! (server, rv_Term args) = None ∨ V !! (server, rv_Term args) = Some o.
Proof.
  intros Hinv (Ho & _ & _ & _ & Hcand) Hrf (_ & _ & _ & _ & _ & Hold & _).
  pose proof (inv_nodes _ _ _ Hinv _ _ Hrf) as (_ & _ & _ & _ & Hle & Hcur & _ & _).
  destruct Hold as [Hlt|(Heq & Hvf)].
  - left. destruct (V !! (server, rv_Term args)) eqn:E; [|done]. apply Hle in E. lia.
  - rewrite <-Heq, Hcur. destruct Hvf as [->| ->]; [by left|].
    rewrite Hcand. destruct (Z.eqb_spec o (-1)); [lia|by right].
Qed.

(** The server side: a vote is granted, to a caller that may have crashed. *)
Lemma InvV_grant n V s o server args rf rf' ts' os' :
  InvV n V s →
  task_inv n V (TVote o server (Calling args)) →
  nodes s !! server = Some rf →
  granted rf args rf' → synced rf' →
  (∀ V', V ⊆ V' → V' !! (server, rv_Term args) = Some o →
     ∀ t, t ∈ ts' ∨ t ∈ os' → task_inv n V' t) →
  vote_keys ts' = vote_keys (tasks s) →
  InvV n (<[(server, rv_Term args) := o]> V) (mkSys (<[server := rf']> (nodes s)) ts' os').
Proof.
  intros Hinv Htask Hrf Hgr Hsync Hts Hkeys.
  pose proof (grant_fresh _ _ _ _ _ _ _ _ Hinv Htask Hrf Hgr) as Hnew.
  destruct Htask as (Ho & Hserver & Hne & HVo & Hcand), Hgr as (Hp & Hm & Ht & Hv & Hst & Hold & _).
  pose proof (inv_nodes _ _ _ Hinv _ _ Hrf) as (_ & Hpn & Hmi & _ & Hle & Hcur & _ & _).
  pose proof (insert_vote_mono V _ _ Hnew) as HV.
  apply (InvV_new_vote n V s); [done|done| | | |].
  - apply Hts; [done|]. apply lookup_insert_eq.
  - rewrite Hkeys. apply (inv_keys _ _ _ Hinv).
  - intros j srv v _. by rewrite Hkeys.
  - unfold node_inv. rewrite Hp, Hm, Ht, Hv, Hst, Hcand, lookup_insert_eq.
    split_and!; try first [done|lia].
    + intros u c. rewrite lookup_insert. case_decide; [|intros ?%Hle; lia].
      intros _. simplify_eq. lia.
    + destruct (Z.eqb_spec o (-1)); [lia|done].
Qed.

(** The candidate side: a granted vote is counted. *)
Lemma InvV_count n V s k o server args reply rf rf' :
  InvV n V s →
  tasks s !! k = Some (TVote o server (Replied args reply)) →
  nodes s !! o = Some rf →
  rvr_VoteGranted reply = true → currentTerm rf = rv_Term args →
  peers rf' = peers rf → me rf' = me rf → currentTerm rf' = currentTerm rf →
  votedFor rf' = votedFor rf → voteCount rf' = voteCount rf + 1 →
  (state rf' = Leader → state rf = Leader ∨ peers rf / 2 < voteCount rf') →
  synced rf' →
  InvV n V (put (end_task s k) o rf').
Proof.
  intros Hinv Hk Hrf Hgr Hterm Hp Hm Ht Hv Hc Hst Hsync.
  pose proof (inv_tasks _ _ _ Hinv _ (list_elem_of_lookup_2 _ _ _ Hk)) as (Ho & Hserver & Hne & HVo & Hcand & HVs).
  specialize (HVs Hgr).
  pose proof (inv_nodes _ _ _ Hinv _ _ Hrf) as (_ & Hpn & Hmi & _ & Hle & Hcur & HX & HL).
  assert (votedFor rf = o) as Hvo.
  { rewrite Hterm, HVo in Hcur. destruct (_ =? _); by simplify_eq. }
  apply InvV_put; [by apply InvV_end_task|].
  unfold node_inv. rewrite Hp, Hm, Ht, Hv, Hc. split_and!; try first [done|lia].
  - intros _. destruct (HX Hvo) as (X & Hsz & HX1 & HX2).
    assert (server ∉ X) as Hfresh.
    { apply HX2. unfold vote_keys. apply list_elem_of_omap.
      eexists. split; [by eapply list_elem_of_lookup_2|]. simpl. by rewrite Hterm. }
    exists ({[server]} ∪ X). split_and!.
    + rewrite size_union by set_solver. rewrite size_singleton. lia.
    + intros v [->%elem_of_singleton|?]%elem_of_union; [|by apply HX1].
      by rewrite Hterm.
    + intros srv Hsrv [->%elem_of_singleton|Hin]%elem_of_union.
      * eapply omap_delete_notin; [apply (inv_keys _ _ _ Hinv)|exact Hk| |exact Hsrv].
        simpl. by rewrite Hterm.
      * revert Hin. apply HX2. eapply elem_of_sublist; [exact Hsrv|].
        apply sublist_omap, sublist_delete.
  - intros [HLe|Hmaj]%Hst.
    + apply HL in HLe as [??]. split; [done|lia].
    + split; [done|]. by rewrite Hpn, Hc in Hmaj.
Qed.

(** The calls a candidate starts: one per other server, in its new term. *)
Lemma vote_keys_stands (i u : Z) l gos :
  Forall2 (λ j g, ∃ args, g = GoRequestVote j args ∧ rv_Term args = u ∧
                          rv_CandidateId args = i) l gos →
  vote_keys (task_of i <$> gos) = (λ j, (i, j, u)) <$> l.
Proof.
  unfold vote_keys. induction 1 as [|j g l gos (args & -> & <- & _) _ IH]; simpl; [done|].
  by f_equal.
Qed.

Lemma InvV_stands n V s i rf rf' gos :
  InvV n V s → nodes s !! i = Some rf → stands rf rf' gos → synced rf' →
  InvV n (<[(i, currentTerm rf + 1) := i]> V)
    (mkSys (<[i := rf']> (nodes s)) (tasks s ++ (task_of i <$> gos)) (orphans s)).
Proof.
  intros Hinv Hrf (Hp & Hm & Ht & Hv & Hc & Hst & Hgos) Hsync.
  pose proof (inv_nodes _ _ _ Hinv _ _ Hrf) as (Hi & Hpn & Hmi & _ & Hle & _).
  assert (V !! (i, currentTerm rf + 1) = None) as Hnew.
  { destruct (V !! (i, currentTerm rf + 1)) eqn:E; [|done]. apply Hle in E. lia. }
  rewrite Hmi, Hpn in Hgos. pose proof (vote_keys_stands _ _ _ _ Hgos) as Hkeys.
  assert (∀ server u, (i, server, u) ∈ vote_keys (tasks s) → u ≤ currentTerm rf) as Hold.
  { intros server u (t & Hin & Hkey)%list_elem_of_omap.
    apply (inv_tasks _ _ _ Hinv) in Hin. destruct t as [o srv ph| | |]; [|done..].
    destruct Hin as (_ & _ & _ & Hvi).
    destruct ph; simpl in *; [done|..]; simplify_eq; naive_solver. }
  apply (InvV_new_vote n V s); [done|by left|..].
  - intros t [[Hin|Hin]%elem_of_app|Hin].
    + eapply task_inv_mono; [by apply insert_subseteq|]. by apply (inv_tasks _ _ _ Hinv).
    + apply list_elem_of_fmap in Hin as (g & -> & Hg).
      apply list_elem_of_lookup in Hg as [x Hx].
      eapply Forall2_lookup_r in Hgos as (j & Hj & args & -> & Hu & Hcand); [|exact Hx].
      apply list_elem_of_lookup_2, list_elem_of_filter in Hj as [? Hj%elem_of_zrange].
      simpl. split_and!; try first [done|lia]. rewrite Hu. apply lookup_insert_eq.
    + eapply task_inv_mono; [by apply insert_subseteq|]. by apply (inv_orphans _ _ _ Hinv).
  - unfold vote_keys in *. rewrite omap_app, Hkeys. apply NoDup_app. split_and!.
    + apply (inv_keys _ _ _ Hinv).
    + intros [[o srv] u] Hin (j & [= -> -> ->] & _)%list_elem_of_fmap. apply Hold in Hin. lia.
    + apply NoDup_fmap_2; [by intros ?? [=]|]. apply NoDup_filter, NoDup_zrange.
  - intros j srv u Hne. unfold vote_keys in *. rewrite omap_app, Hkeys.
    intros [?|Hin]%elem_of_app; [done|]. apply list_elem_of_fmap in Hin as (? & [= -> -> ->] & _). done.
  - unfold node_inv. rewrite Hp, Hm, Ht, Hv, Hc, Hmi, lookup_insert_eq.
    split_and!; try first [done|lia].
    + intros u c. rewrite lookup_insert. case_decide; [|intros ?%Hle; lia].
      intros _. simplify_eq. lia.
    + destruct (Z.eqb_spec i (-1)); [lia|done].
    + intros _. exists {[i]}. split_and!.
      * rewrite size_singleton. lia.
      * intros v ->%elem_of_singleton. split; [lia|]. apply lookup_insert_eq.
      * intros srv Hin ->%elem_of_singleton. unfold vote_keys in *.
        rewrite omap_app, Hkeys in Hin. apply elem_of_app in Hin as [Hin|Hin].
        -- apply Hold in Hin. lia.
        -- apply list_elem_of_fmap in Hin as (? & [= <-] & [? _]%list_elem_of_filter). done.
Qed.

(** ** Every event keeps the invariant *)

(** The invariant with a history of votes that extends [V]. *)
Definition Inv n V s : Prop := ∃ V', V ⊆ V' ∧ InvV n V' s.

Lemma InvV_Inv n V s : InvV n V s → Inv n V s.
Proof. intros HI. by exists V. Qed.

Lemma InvV_quiet n V s i rf rf' :
  InvV n V s → nodes s !! i = Some rf → quiet rf rf' → (synced rf → synced rf') →
  InvV n V (put s i rf').
Proof.
  intros Hinv Hrf Hq Hs. apply InvV_put; [done|].
  pose proof (inv_nodes _ _ _ Hinv _ _ Hrf) as Hn.
  eapply node_inv_quiet; [done..|]. apply Hs. apply Hn.
Qed.

Lemma of_outcome_Some {A} (o : outcome A) (a : A) : of_outcome o = Some a ↔ o = Ret a.
Proof. destruct o; naive_solver. Qed.

Lemma init_inv n rnd now : InvV n ∅ (init n rnd now).
Proof.
  split; simpl.
  - intros i rf Hi. apply elem_of_list_to_map_2, list_elem_of_fmap in Hi as (j & [= -> ->] & Hj).
    apply elem_of_zrange in Hj. unfold node_inv. cbn.
    split_and!; try first [done|lia|intros Hj'; change (-1 = j) in Hj'; lia].
    split; [done|right]. by split_and!.
  - intros t []%not_elem_of_nil.
  - intros t []%not_elem_of_nil.
  - constructor.
Qed.

(** What a server does with a call, for a caller that lives or not. *)
Lemma handle_cases ns t rnd server rf' t' :
  handle ns t rnd = Some (server, rf', t') →
  ∃ rf, ns !! server = Some rf ∧ (synced rf → synced rf') ∧ vote_key t' = vote_key t ∧
    ((quiet rf rf' ∧ (∀ n V, task_inv n V t → task_inv n V t')) ∨
     ∃ o args reply, t = TVote o server (Calling args) ∧
       t' = TVote o server (Replied args reply) ∧ granted rf args rf').
Proof.
  intros H. unfold handle in H.
  destruct t as [o sv ph|o sv ph|o sv args ph|o sv ph]; destruct ph; try discriminate H.
  all: destruct (ns !! sv) as [rf|] eqn:Hns; [|discriminate H]; simpl in H.
  all: try (destruct (of_outcome _) as [[rf1 reply]|] eqn:Ho in H; [|discriminate H];
            apply of_outcome_Some in Ho); simpl in H; simplify_eq.
  all: eexists; split; [exact Hns|].
  - split; [by eapply RequestVote_synced|]. split; [done|].
    apply RequestVote_cases in Ho as Hc. destruct Hc as [[Hg Hq]|[Hg Hgr]]; [left|right; by eexists _, _, _].
    split; [done|]. intros n V (?&?&?&?&?). simpl. split_and!; try first [done|lia].
    by rewrite Hg.
  - split; [done|]. split; [done|]. by left.
  - split; [by eapply AppendEntries_synced|]. split; [done|]. left.
    split; [by eapply AppendEntries_quiet|done].
  - split; [by eapply InstallSnapshot_synced|]. split; [done|]. left.
    split; [by eapply InstallSnapshot_quiet|done].
Qed.

(** The outcome of a handled call: a quiet step, or a vote that joins the history. *)
Definition handled (n : Z) V t (server : Z) rf rf' t' s' : Prop :=
  (quiet rf rf' ∧ InvV n V s') ∨
  ∃ o args reply, t = TVote o server (Calling args) ∧ t' = TVote o server (Replied args reply) ∧
    granted rf args rf' ∧ InvV n (<[(server, rv_Term args) := o]> V) s'.

Lemma deliver_handled n V s k rnd t server rf' t' :
  InvV n V s → tasks s !! k = Some t → handle (nodes s) t rnd = Some (server, rf', t') →
  ∃ rf, nodes s !! server = Some rf ∧ handled n V t server rf rf' t' (put (retask s k t') server rf').
Proof.
  intros Hinv Hk (rf & Hrf & Hs & Hkey & Hc)%handle_cases. exists rf. split; [done|].
  destruct Hc as [[Hq Ht]|(o & args & reply & -> & -> & Hg)]; [left|right].
  - split; [done|]. eapply InvV_quiet; [|exact Hrf|done..].
    eapply InvV_retask; [done..|]. apply Ht, (inv_tasks _ _ _ Hinv).
    by eapply list_elem_of_lookup_2.
  - exists o, args, reply. split_and!; [done..|].
    eapply (InvV_grant n V s); [done| |done|done| | |].
    + apply (inv_tasks _ _ _ Hinv). by eapply list_elem_of_lookup_2.
    + apply Hs, (inv_nodes _ _ _ Hinv _ _ Hrf).
    + intros V' HV Hv t [[j Hj]%list_elem_of_lookup|Ho].
      * simpl in Hj. apply list_lookup_insert_Some in Hj as [(<- & <- & _)|(_ & Hj)].
        -- pose proof (inv_tasks _ _ _ Hinv _ (list_elem_of_lookup_2 _ _ _ Hk)) as Hold.
           apply (task_inv_mono _ _ _ _ HV) in Hold. simpl in *. naive_solver.
        -- eapply task_inv_mono; [done|]. apply (inv_tasks _ _ _ Hinv).
           by eapply list_elem_of_lookup_2.
      * eapply task_inv_mono; [done|]. by apply (inv_orphans _ _ _ Hinv).
    + unfold vote_keys. simpl. by rewrite (omap_insert_same _ _ _ _ _ Hk).
Qed.

Lemma orphan_handled n V s k rnd t server rf' t' :
  InvV n V s → orphans s !! k = Some t → handle (nodes s) t rnd = Some (server, rf', t') →
  ∃ rf, nodes s !! server = Some rf ∧
    handled n V t server rf rf' t' (mkSys (<[server := rf']> (nodes s)) (tasks s) (delete k (orphans s))).
Proof.
  intros Hinv Hk (rf & Hrf & Hs & Hkey & Hc)%handle_cases. exists rf. split; [done|].
  assert (∀ t, t ∈ delete k (orphans s) → t ∈ orphans s) as Hdel.
  { intros t1 Ht1. eapply elem_of_sublist; [done|]. apply sublist_delete. }
  pose proof (list_elem_of_lookup_2 _ _ _ Hk) as Hin.
  destruct Hc as [[Hq _]|(o & args & reply & -> & -> & Hg)]; [left|right].
  - split; [done|]. destruct (InvV_quiet _ _ _ _ _ _ Hinv Hrf Hq Hs) as [H1 H2 H3 H4].
    split; [done|done| |done]. intros t1 Ht1. apply H3. by apply Hdel.
  - exists o, args, reply. split_and!; [done..|].
    eapply (InvV_grant n V s); [done|by apply (inv_orphans _ _ _ Hinv)|done|done| | |done].
    + apply Hs, (inv_nodes _ _ _ Hinv _ _ Hrf).
    + intros V' HV Hv t [Ht|Ht]; (eapply task_inv_mono; [done|]).
      * by apply (inv_tasks _ _ _ Hinv).
      * by apply (inv_orphans _ _ _ Hinv), Hdel.
Qed.

Lemma handled_inv n V t server rf rf' t' s s' :
  InvV n V s → task_inv n V t → nodes s !! server = Some rf → handled n V t server rf rf' t' s' → Inv n V s'.
Proof.
  intros HI Ht Hrf [[_ ?]|(o & args & reply & -> & _ & Hg & ?)]; [by apply InvV_Inv|].
  eexists. split; [|done]. by eapply insert_vote_mono, grant_fresh.
Qed.

Lemma deliver_inv n V s k rnd s' : InvV n V s → deliver_task s k rnd = Some s' → Inv n V s'.
Proof.
  intros Hinv H. unfold deliver_task in H.
  destruct (tasks s !! k) as [t|] eqn:Hk; [|discriminate H]. simpl in H.
  destruct (handle _ _ _) as [[[server rf'] t']|] eqn:Hh; [|discriminate H]. simplify_eq/=.
  destruct (deliver_handled _ _ _ _ _ _ _ _ _ Hinv Hk Hh) as (rf & ? & ?). eapply handled_inv; [done| |done..].
  apply (inv_tasks _ _ _ Hinv). by eapply list_elem_of_lookup_2.
Qed.

Lemma orphan_inv n V s k rnd s' : InvV n V s → deliver_orphan s k rnd = Some s' → Inv n V s'.
Proof.
  intros Hinv H. unfold deliver_orphan in H.
  destruct (orphans s !! k) as [t|] eqn:Hk; [|discriminate H]. simpl in H.
  destruct (handle _ _ _) as [[[server rf'] t']|] eqn:Hh; [|discriminate H]. simplify_eq/=.
  destruct (orphan_handled _ _ _ _ _ _ _ _ _ Hinv Hk Hh) as (rf & ? & ?). eapply handled_inv; [done| |done..].
  apply (inv_orphans _ _ _ Hinv). by eapply list_elem_of_lookup_2.
Qed.

(** An RPC goroutine of a kind other than votes changes its phase. *)
Lemma InvV_retask_other n V s k t t' :
  InvV n V s → tasks s !! k = Some t → vote_key t = None → vote_key t' = None →
  task_inv n V t' → InvV n V (retask s k t').
Proof. intros ? ? Ht Ht' ?. eapply InvV_retask; [done..|by rewrite Ht, Ht'|done]. Qed.

Lemma begin_inv n V s k s' : InvV n V s → begin_task s k = Some s' → InvV n V s'.
Proof.
  intros Hinv H. unfold begin_task in H.
  destruct (tasks s !! k) as [t|] eqn:Hk; [|discriminate H]. simpl in H.
  destruct t as [o sv []|o sv []|o sv args [[[] sh]| |]|o sv []]; try discriminate H.
  all: destruct (nodes s !! o); [|discriminate H]; simpl in H.
  - destruct (sendAppendEntries_begin _); simplify_eq.
    + by eapply InvV_retask_other.
    + by apply InvV_end_task.
  - destruct (of_outcome _) as [[args|]|]; simplify_eq/=.
    + by eapply InvV_retask_other.
    + by apply InvV_end_task.
Qed.

(** What [encode_task] does. *)
Lemma encode_cases s k s' :
  encode_task s k = Some s' →
  ∃ o sv args sh, tasks s !! k = Some (TAppend o sv args (Spawned (mkUnsent true sh))) ∧
    s' = retask s k (TAppend o sv args (Calling tt)).
Proof.
  intros H. unfold encode_task in H. destruct (tasks s !! k) as [t|] eqn:Hk; [|discriminate H]. simpl in H.
  destruct t as [o sv []|o sv []|o sv args [[[] sh]| |]|o sv []]; try discriminate H.
  injection H as <-. by exists o, sv, args, sh.
Qed.

Lemma encode_inv n V s k s' : InvV n V s → encode_task s k = Some s' → InvV n V s'.
Proof. intros Hinv (o & sv & args & sh & Hk & ->)%encode_cases. by eapply InvV_retask_other. Qed.

(** Goroutines that change without becoming or ceasing to be calls for votes. *)
Lemma InvV_fmap n V s f :
  (∀ t, f t = t ∨ (vote_key t = None ∧ vote_key (f t) = None ∧ ∀ V, task_inv n V (f t))) →
  InvV n V s → InvV n V (mkSys (nodes s) (f <$> tasks s) (orphans s)).
Proof.
  intros Hf Hinv. apply InvV_tasks; [done|..].
  - intros t (t0 & -> & Ht0)%list_elem_of_fmap. destruct (Hf t0) as [->|(_ & _ & ?)]; [|done]. by apply (inv_tasks _ _ _ Hinv).
  - unfold vote_keys. induction (tasks s) as [|t ts IH]; [done|]. rewrite fmap_cons. simpl.
    destruct (Hf t) as [->|(-> & -> & _)]; [|done]. destruct (vote_key t); [by constructor|done].
Qed.

Lemma share_task_same ns t :
  share_task ns t = t ∨ ∃ o sv args p rf, t = TAppend o sv args (Spawned p) ∧ ns !! o = Some rf ∧ shared p = true ∧
    share_task ns t = TAppend o sv (reread_args rf args) (Spawned p).
Proof.
  destruct t as [o sv ph|o sv ph|o sv args [[c []]| |]|o sv ph]; simpl; try by left.
  destruct (ns !! o) as [rf|] eqn:Hrf; [|by left]. right. by exists o, sv, args, (mkUnsent c true), rf.
Qed.

Lemma detach_task_same i t :
  detach_task i t = t ∨ ∃ o sv args p p', t = TAppend o sv args (Spawned p) ∧ detach_task i t = TAppend o sv args (Spawned p').
Proof.
  destruct t as [o sv ph|o sv ph|o sv args [[c []]| |]|o sv ph]; simpl; try by left.
  destruct (o =? i); [|by left]. right. by eexists o, sv, args, _, _.
Qed.

Lemma InvV_share n V o s : InvV n V s → InvV n V (share (detach o s)).
Proof.
  intros Hinv. apply (InvV_fmap n V (detach o s)).
  - intros t. destruct (share_task_same (nodes (detach o s)) t) as [->|(o1 & sv & args & p & rf & -> & _ & _ & ->)]; [by left|by right].
  - destruct o as [i|]; [|done]. apply InvV_fmap; [|done].
    intros t. destruct (detach_task_same i t) as [->|(o1 & sv & args & p & p' & -> & ->)]; [by left|by right].
Qed.

Lemma lose_inv n V s k s' : InvV n V s → lose_task s k = Some s' → InvV n V s'.
Proof.
  intros Hinv H. unfold lose_task in H.
  destruct (tasks s !! k) as [t|] eqn:Hk; [|discriminate H]. simpl in H.
  destruct t as [o sv []|o sv []|o sv args []|o sv []]; simplify_eq.
  all: first [by apply InvV_end_task|by eapply InvV_retask_other].
Qed.

Lemma receive_inv n V s k rnd s' : InvV n V s → receive_task s k rnd = Some s' → InvV n V s'.
Proof.
  intros Hinv H. unfold receive_task in H.
  destruct (tasks s !! k) as [t|] eqn:Hk; [|discriminate H]. simpl in H.
  destruct (nodes s !! owner t) as [rf|] eqn:Hrf; [|discriminate H]. simpl in H.
  pose proof (InvV_end_task n V s k Hinv) as Hend.
  destruct t as [o sv []|o sv []|o sv args []|o sv []]; try discriminate H; simpl in Hrf.
  - destruct (of_outcome _) as [[rf' b]|] eqn:Ho; [|discriminate H].
    apply of_outcome_Some in Ho. simplify_eq/=.
    pose proof (sendRequestVote_synced _ _ _ _ _ Ho) as Hs.
    apply sendRequestVote_cases in Ho as [Hq|(?&?&?&?&?&?&?&?)].
    + by eapply InvV_quiet.
    + eapply InvV_count; [done..|]. apply Hs, (inv_nodes _ _ _ Hinv _ _ Hrf).
  - simplify_eq/=. eapply InvV_quiet; [done|done| |].
    + apply sendPreVote_quiet.
    + apply sendPreVote_synced.
  - destruct (of_outcome _) as [[rf' b]|] eqn:Ho; [|discriminate H].
    apply of_outcome_Some in Ho. simplify_eq/=. eapply InvV_quiet; [done|done| |].
    + by eapply sendAppendEntries_quiet.
    + by eapply sendAppendEntries_synced.
  - destruct (of_outcome _) as [rf'|] eqn:Ho; [|discriminate H].
    apply of_outcome_Some in Ho. simplify_eq/=. eapply InvV_quiet; [done|done| |].
    + by eapply handleInstallSnapshot_quiet.
    + by eapply handleInstallSnapshot_synced.
Qed.

Lemma restart_inv n V s i rf rnd now :
  InvV n V s → nodes s !! i = Some rf →
  InvV n V (mkSys (<[i := Make (peers rf) i (persister rf) rnd now]> (nodes s))
    (filter (λ t, owner t ≠ i) (tasks s)) (orphans s ++ filter (λ t, owner t = i) (tasks s))).
Proof.
  intros Hinv Hrf.
  assert (InvV n V (mkSys (nodes s) (filter (λ t, owner t ≠ i) (tasks s)) (orphans s)))
    as [Hn Ht Ho Hk].
  { apply InvV_tasks; [done|..].
    - intros t [_ ?]%list_elem_of_filter. by apply (inv_tasks _ _ _ Hinv).
    - apply sublist_omap, sublist_filter. }
  split; simpl in *; [|done| |done].
  - intros j rfj [[-> <-]|[Hne Hj]]%lookup_insert_Some; [|by apply Hn].
    destruct (Hn _ _ Hrf) as (Hi & Hp & Hm & Hs & Hle & Hcur & HX & HL).
    destruct (Make_synced rf rnd now Hs) as ((Ht' & Hv' & _) & Hs' & Hp' & Hm' & Hst & Hvc).
    rewrite Hm in *. unfold node_inv. rewrite Ht', Hv', Hp', Hm', Hst, Hvc.
    split_and!; try first [done|lia]. intros _. exists ∅.
    split_and!; [rewrite size_empty; lia|by intros ? ?%elem_of_empty|set_solver].
  - intros t [?|[_ ?]%list_elem_of_filter]%elem_of_app; [by apply Ho|].
    by apply (inv_tasks _ _ _ Hinv).
Qed.

Lemma node_spawn_inv n V s i f s' :
  (∀ rf rf' gos, f rf = Ret (rf', gos) →
     (synced rf → synced rf') ∧ ((quiet rf rf' ∧ Forall not_vote gos) ∨ stands rf rf' gos)) →
  InvV n V s → node_spawn s i f = Some s' → Inv n V s'.
Proof.
  intros Hf Hinv H. unfold node_spawn in H.
  destruct (nodes s !! i) as [rf|] eqn:Hrf; [|discriminate H]. simpl in H.
  destruct (of_outcome _) as [[rf' gos]|] eqn:Ho; [|discriminate H]. simplify_eq/=.
  apply of_outcome_Some, Hf in Ho as [Hs [[Hq Hgos]|Hst]].
  - apply InvV_Inv. by apply (InvV_spawn n V (put s i rf')); [eapply InvV_quiet|].
  - pose proof (inv_nodes _ _ _ Hinv _ _ Hrf) as (_ & _ & _ & Hsy & Hle & _).
    eexists. split; [|eapply InvV_stands; [done..|by apply Hs]]. apply insert_vote_mono. left.
    destruct (V !! (i, currentTerm rf + 1)) eqn:E; [|done]. apply Hle in E. lia.
Qed.

Lemma node_step_inv n V s i f s' :
  (∀ rf rf', f rf = Ret rf' → quiet rf rf' ∧ (synced rf → synced rf')) →
  InvV n V s → node_step s i f = Some s' → Inv n V s'.
Proof.
  intros Hf Hinv H. unfold node_step in H.
  destruct (nodes s !! i) as [rf|] eqn:Hrf; [|discriminate H]. simpl in H.
  destruct (of_outcome _) as [rf'|] eqn:Ho; [|discriminate H]. simplify_eq/=.
  apply of_outcome_Some, Hf in Ho as [Hq Hs]. apply InvV_Inv. by eapply InvV_quiet.
Qed.

Lemma Kill_frame rf : quiet rf (Kill rf) ∧ (synced rf → synced (Kill rf)).
Proof. split; [solve_quiet|]. intros Hs. unfold Kill. solve_synced. Qed.

Lemma step_inv n V e s s' : InvV n V s → step e s = Some s' → Inv n V s'.
Proof.
  intros Hinv H.
  destruct e as [i rnd|i|i now c|i idx d|i|i|i k|k|k|i|k rnd|k|k rnd|i rnd now|k rnd]; simpl in H;
    try (destruct (nodes s !! i) as [rf|] eqn:Hrf in H; [|discriminate H]; simpl in H).
  - destruct (killed rf); [done|]. revert Hinv H. apply node_spawn_inv. intros ??? Hf.
    split; [by eapply ticker_timeout_synced|by eapply ticker_timeout_cases].
  - destruct (_ || _); [done|]. revert Hinv H. apply node_spawn_inv. intros ??? Hf.
    split; [by eapply ticker_msg_frame|left].
    split; [by eapply ticker_msg_frame|by eapply ticker_msg_not_vote].
  - revert Hinv H. apply node_step_inv. intros ?? Hf. brk Hf.
    split; [by eapply Start_quiet|by eapply Start_synced].
  - revert Hinv H. apply node_step_inv. intros ?? Hf.
    split; [by eapply Snapshot_quiet|by eapply Snapshot_synced].
  - revert Hinv H. apply node_step_inv. intros ?? [= <-]. apply Kill_frame.
  - destruct (CommitChecker rf) as [[rf'|]|] eqn:Hc; simplify_eq/=.
    apply InvV_Inv. eapply InvV_quiet; [done..| |].
    + by apply CommitChecker_quiet.
    + by apply CommitChecker_synced.
  - destruct (snap_send rf k) as [rf'|] eqn:Hc; simplify_eq/=.
    apply InvV_Inv. apply snap_send_frame in Hc as [??].
    by eapply InvV_quiet.
  - apply InvV_Inv. by eapply begin_inv.
  - apply InvV_Inv. by eapply encode_inv.
  - injection H as <-. by apply InvV_Inv.
  - by eapply deliver_inv.
  - apply InvV_Inv. by eapply lose_inv.
  - apply InvV_Inv. by eapply receive_inv.
  - simplify_eq. apply InvV_Inv. by apply restart_inv.
  - by eapply orphan_inv.
Qed.

Lemma exec_inv n V e s s' : InvV n V s → exec e s = Some s' → Inv n V s'.
Proof.
  intros Hinv (s1 & Hs & -> & _)%exec_step. destruct (step_inv _ _ _ _ _ Hinv Hs) as (V' & HV & ?).
  exists V'. split; [done|by apply InvV_share].
Qed.

Lemma run_inv n V es s s' : InvV n V s → run es s = Some s' → Inv n V s'.
Proof.
  revert V s. induction es as [|e es IH]; simpl; intros V s Hs H; [injection H as <-; by apply InvV_Inv|].
  destruct (exec e s) as [s1|] eqn:He; [|discriminate H].
  destruct (exec_inv _ _ _ _ _ Hs He) as (V1 & HV1 & Hs1). destruct (IH V1 s1 Hs1 H) as (V2 & HV2 & Hs2).
  exists V2. split; [by etrans|done].
Qed.

Lemma reachable_inv n s : reachable n s → ∃ V, InvV n V s.
Proof.
  induction 1 as [|s e s' _ [V Hs] He]; [eexists; apply init_inv|].
  destruct (exec_inv _ _ _ _ _ Hs He) as (V' & _ & ?). by eexists.
Qed.

(** ** Election safety *)

(** The servers whose votes made a node leader of its term. *)
Lemma leader_quorum n V s i rf :
  InvV n V s → nodes s !! i = Some rf → state rf = Leader →
  ∃ X : gset Z, n / 2 < Z.of_nat (size X) ∧
    ∀ v, v ∈ X → 0 ≤ v < n ∧ V !! (v, currentTerm rf) = Some i.
Proof.
  intros Hinv Hrf HL. pose proof (inv_nodes _ _ _ Hinv _ _ Hrf) as (_&_&_&_&_&_&HX&HLd).
  destruct (HLd HL) as [Hv Hc]. destruct (HX Hv) as (X & ? & ? & _).
  exists X. split; [lia|done].
Qed.

Lemma leaders_agree n V s V' s' i j rfi rfj :
  InvV n V s → InvV n V' s' → V ⊆ V' → nodes s !! i = Some rfi → nodes s' !! j = Some rfj →
  state rfi = Leader → state rfj = Leader → currentTerm rfi = currentTerm rfj → i = j.
Proof.
  intros Hinv Hinv' HV Hi Hj HLi HLj Hterm.
  destruct (leader_quorum _ _ _ _ _ Hinv Hi HLi) as (X & HsX & HX).
  destruct (leader_quorum _ _ _ _ _ Hinv' Hj HLj) as (Y & HsY & HY).
  pose proof (inv_nodes _ _ _ Hinv _ _ Hi) as (Hin & _).
  destruct (quorum_intersect n X Y) as (v & HvX%HX & HvY%HY);
    [lia|naive_solver|naive_solver|done|done|].
  destruct HvX as [_ HvX], HvY as [_ HvY]. rewrite Hterm in HvX. eapply lookup_weaken in HvX; [|done]. congruence.
Qed.

Lemma run_leaders_agree n s es s' i j rfi rfj :
  reachable n s → run es s = Some s' → nodes s !! i = Some rfi → nodes s' !! j = Some rfj →
  state rfi = Leader → state rfj = Leader → currentTerm rfi = currentTerm rfj → i = j.
Proof.
  intros [V Hinv]%reachable_inv Hrun. destruct (run_inv _ _ _ _ _ Hinv Hrun) as (V' & HV & Hinv'). by eapply leaders_agree.
Qed.

(** C3. Election safety: in every execution of a cluster of [n] nodes, with
    messages lost, delayed and reordered, but each call handled at most once as [labrpc]
    does, and nodes crashing and restarting at any point, two different nodes that lead,
    at the same or at different times, do so in different terms. *)
Theorem election_safety n s es s' i j rfi rfj :
  reachable n s → run es s = Some s' →
  nodes s !! i = Some rfi → nodes s' !! j = Some rfj → i ≠ j →
  state rfi = Leader → state rfj = Leader →
  currentTerm rfi ≠ currentTerm rfj.
Proof. intros ? ? ? ? Hne ? ? ?. apply Hne. by eapply (run_leaders_agree n s es s' i j). Qed.

(** ** Votes are kept *)

(** The term only grows, and a vote cast in a term stands until the term ends. *)
Definition node_le rf rf' : Prop :=
  currentTerm rf ≤ currentTerm rf' ∧
  (currentTerm rf' = currentTerm rf → votedFor rf ≠ -1 → votedFor rf' = votedFor rf).

#[global] Instance node_le_refl : Reflexive node_le.
Proof. by intros rf. Qed.

#[global] Instance node_le_trans : Transitive node_le.
Proof.
  intros rf1 rf2 rf3 [Ht1 Hv1] [Ht2 Hv2]. split; [lia|]. intros Ht Hv.
  rewrite Hv2, Hv1; [done|lia|done|lia|]. rewrite Hv1; [done|lia|done].
Qed.

Lemma quiet_le rf rf' : quiet rf rf' → node_le rf rf'.
Proof. intros (_ & _ & [(?&?&_)|(?&_)]); split; [lia|done|lia|lia]. Qed.

Lemma granted_le rf args rf' : granted rf args rf' → node_le rf rf'.
Proof. intros (_&_&?&?&_&[?|[? [?|?]]]&_); split; first [lia|congruence|done]. Qed.

Lemma stands_le rf rf' gos : stands rf rf' gos → node_le rf rf'.
Proof. intros (_&_&?&_). split; lia. Qed.

Lemma counted_le rf args reply rf' b :
  sendRequestVote rf args reply = Ret (rf', b) → node_le rf rf'.
Proof.
  intros [?|(_&_&_&_&?&?&_)]%sendRequestVote_cases; [by apply quiet_le|].
  split; [lia|done].
Qed.

Definition sys_le s s' : Prop :=
  dom (nodes s') = dom (nodes s) ∧
  ∀ i rf, nodes s !! i = Some rf → ∃ rf', nodes s' !! i = Some rf' ∧ node_le rf rf'.

Lemma sys_le_nodes s s' : nodes s' = nodes s → sys_le s s'.
Proof. intros E. split; [by rewrite E|]. intros i rf Hi. exists rf. by rewrite E. Qed.

Lemma sys_le_insert s s' i rf rf' :
  nodes s !! i = Some rf → node_le rf rf' → nodes s' = <[i := rf']> (nodes s) → sys_le s s'.
Proof.
  intros Hi Hle E. split; [rewrite E; apply dom_insert_lookup_L; by eexists|].
  intros j rfj Hj. rewrite E. destruct (decide (i = j)) as [->|Hne].
  - simplify_eq. exists rf'. by rewrite lookup_insert_eq.
  - exists rfj. by rewrite lookup_insert_ne.
Qed.

#[global] Instance sys_le_trans : Transitive sys_le.
Proof.
  intros s1 s2 s3 [Hd1 H1] [Hd2 H2]. split; [congruence|]. intros i rf Hi.
  destruct (H1 i rf Hi) as (rf1 & Hi1 & ?). destruct (H2 i rf1 Hi1) as (rf2 & ? & ?). exists rf2. split; [done|by etrans].
Qed.

Lemma node_spawn_le s i f s' :
  (∀ rf rf' gos, f rf = Ret (rf', gos) → node_le rf rf') →
  node_spawn s i f = Some s' → sys_le s s'.
Proof.
  intros Hf H. unfold node_spawn in H.
  destruct (nodes s !! i) as [rf|] eqn:Hrf; [|discriminate H]. simpl in H.
  destruct (of_outcome _) as [[rf' gos]|] eqn:Ho; [|discriminate H]. simplify_eq/=.
  apply of_outcome_Some, Hf in Ho. by eapply sys_le_insert.
Qed.

Lemma node_step_le s i f s' :
  (∀ rf rf', f rf = Ret rf' → node_le rf rf') → node_step s i f = Some s' → sys_le s s'.
Proof.
  intros Hf H. unfold node_step in H.
  destruct (nodes s !! i) as [rf|] eqn:Hrf; [|discriminate H]. simpl in H.
  destruct (of_outcome _) as [rf'|] eqn:Ho; [|discriminate H]. simplify_eq/=.
  apply of_outcome_Some, Hf in Ho. by eapply sys_le_insert.
Qed.

Lemma handle_le ns t rnd server rf' t' :
  handle ns t rnd = Some (server, rf', t') →
  ∃ rf, ns !! server = Some rf ∧ node_le rf rf'.
Proof.
  intros (rf & ? & _ & _ & [[? _]|(?&?&?&_&_&?)])%handle_cases; exists rf; split; try done.
  - by apply quiet_le.
  - by eapply granted_le.
Qed.

Lemma receive_le s k rnd s' : receive_task s k rnd = Some s' → sys_le s s'.
Proof.
  intros H. unfold receive_task in H.
  destruct (tasks s !! k) as [t|] eqn:Hk; [|discriminate H]. simpl in H.
  destruct (nodes s !! owner t) as [rf|] eqn:Hrf; [|discriminate H]. simpl in H.
  destruct t as [o sv []|o sv []|o sv args []|o sv []]; try discriminate H; simpl in Hrf.
  all: try (destruct (of_outcome _) eqn:Ho in H; [|discriminate H]; apply of_outcome_Some in Ho).
  all: try match type of Ho with _ = Ret ?p => destruct p as [? ?] end; simplify_eq/=.
  all: eapply sys_le_insert; [exact Hrf| |done].
  - by eapply counted_le.
  - apply quiet_le, sendPreVote_quiet.
  - by eapply quiet_le, sendAppendEntries_quiet.
  - by eapply quiet_le, handleInstallSnapshot_quiet.
Qed.

Lemma lose_begin_nodes s k s' :
  lose_task s k = Some s' ∨ begin_task s k = Some s' ∨ encode_task s k = Some s' → nodes s' = nodes s.
Proof.
  unfold lose_task, begin_task, encode_task.
  intros [H|[H|H]]; destruct (tasks s !! k) as [t|]; try discriminate H; simpl in H;
    destruct t as [o sv []|o sv []|o sv args [[[] sh]| |]|o sv []]; try discriminate H;
    try (by simplify_eq); (destruct (nodes s !! o); [|discriminate H]); simpl in H.
  - by destruct (sendAppendEntries_begin _); simplify_eq.
  - destruct (of_outcome _) as [[]|]; by simplify_eq/=.
Qed.

Lemma step_le n e s s' : (∃ V, InvV n V s) → step e s = Some s' → sys_le s s'.
Proof.
  intros Hinv H.
  destruct e as [i rnd|i|i now c|i idx d|i|i|i k|k|k|i|k rnd|k|k rnd|i rnd now|k rnd]; simpl in H;
    try (destruct (nodes s !! i) as [rf|] eqn:Hrf in H; [|discriminate H]; simpl in H).
  - destruct (killed rf); [done|]. revert H. apply node_spawn_le.
    intros ??? [[? _]|?]%ticker_timeout_cases; [by apply quiet_le|by eapply stands_le].
  - destruct (_ || _); [done|]. revert H. apply node_spawn_le.
    intros ??? [? _]%ticker_msg_frame. by apply quiet_le.
  - revert H. apply node_step_le. intros ?? Hf. brk Hf. by eapply quiet_le, Start_quiet.
  - revert H. apply node_step_le. intros ?? Hf. by eapply quiet_le, Snapshot_quiet.
  - revert H. apply node_step_le. intros ?? [= <-]. apply quiet_le, Kill_frame.
  - destruct (CommitChecker rf) as [[rf'|]|] eqn:Hc; simplify_eq/=.
    eapply sys_le_insert; [done| |done]. by apply quiet_le, CommitChecker_quiet.
  - destruct (snap_send rf k) as [rf'|] eqn:Hc; simplify_eq/=.
    apply snap_send_frame in Hc as [? _].
    eapply sys_le_insert; [done| |done]. by apply quiet_le.
  - apply sys_le_nodes. eapply lose_begin_nodes; eauto.
  - apply sys_le_nodes. eapply lose_begin_nodes; eauto.
  - injection H as <-. by apply sys_le_nodes.
  - unfold deliver_task in H. destruct (tasks s !! k); simplify_eq/=.
    destruct (handle _ _ _) as [[[sv rf'] t']|] eqn:Hh; simplify_eq/=.
    apply handle_le in Hh as (rf & ? & ?). by eapply sys_le_insert.
  - apply sys_le_nodes. eapply lose_begin_nodes; eauto.
  - by eapply receive_le.
  - simplify_eq. eapply sys_le_insert; [done| |done].
    destruct Hinv as [V Hinv].
    destruct (inv_nodes _ _ _ Hinv _ _ Hrf) as (_ & _ & Hm & Hs & _).
    destruct (Make_synced rf rnd now Hs) as ((Ht & Hv & _) & _).
    rewrite Hm in Ht, Hv. split; [lia|done].
  - unfold deliver_orphan in H. destruct (orphans s !! k); simplify_eq/=.
    destruct (handle _ _ _) as [[[sv rf'] t']|] eqn:Hh; simplify_eq/=.
    apply handle_le in Hh as (rf & ? & ?). by eapply sys_le_insert.
Qed.

Lemma exec_le n e s s' : (∃ V, InvV n V s) → exec e s = Some s' → sys_le s s'.
Proof.
  intros Hinv (s1 & Hs & _ & Hns)%exec_step. etrans; [by eapply step_le|by apply sys_le_nodes].
Qed.

Lemma run_le n es s s' : reachable n s → run es s = Some s' → sys_le s s'.
Proof.
  revert s. induction es as [|e es IH]; simpl; intros s Hs.
  - intros [= <-]. by apply sys_le_nodes.
  - destruct (exec e s) as [s1|] eqn:He; simpl; [|done]. intros Hrun. etrans.
    + by apply (exec_le n e s s1 (reachable_inv _ _ Hs)).
    + by apply (IH s1 (reach_step _ _ _ _ Hs He)).
Qed.

Lemma reachable_terms n s i rf : reachable n s → nodes s !! i = Some rf → 0 ≤ currentTerm rf.
Proof.
  intros Hs. revert i rf. induction Hs as [rnd now|s e s' Hs IH He]; intros i rf Hi.
  - simpl in Hi. apply elem_of_list_to_map_2, list_elem_of_fmap in Hi as (j & [= -> ->] & _). done.
  - destruct (exec_le n e s s' (reachable_inv _ _ Hs) He) as [Hd Hle].
    assert (is_Some (nodes s !! i)) as [rf0 Hi0] by (apply elem_of_dom; rewrite <-Hd; by apply elem_of_dom_2 in Hi).
    destruct (Hle i rf0 Hi0) as (rf1 & Hi1 & [? _]). pose proof (IH i rf0 Hi0). assert (rf1 = rf) as -> by congruence. lia.
Qed.

(** Along every execution, crashes and restarts included, no node's term
    decreases, and a node that has voted in a term never votes for another
    candidate in that term. *)
Theorem votes_are_kept n es s s' i rf :
  reachable n s → run es s = Some s' → nodes s !! i = Some rf →
  ∃ rf', nodes s' !! i = Some rf' ∧ currentTerm rf ≤ currentTerm rf' ∧
    (currentTerm rf' = currentTerm rf → votedFor rf ≠ -1 → votedFor rf' = votedFor rf).
Proof. intros Hs Hrun. by apply (run_le n es s s'). Qed.

(** ** Crash and restart *)

(** C24. Persistence: in every reachable state, a node that crashes at that point
    and restarts from its [Persister] comes back with the term, the vote, the log
    and the snapshot it had: no critical section leaves a durable change unsaved. *)
Theorem restart_recovers n s i rf rnd now :
  reachable n s → nodes s !! i = Some rf →
  let rf' := Make (peers rf) (me rf) (persister rf) rnd now in
  currentTerm rf' = currentTerm rf ∧ votedFor rf' = votedFor rf ∧ log rf' = log rf ∧
  lastIncludedIndex rf' = lastIncludedIndex rf ∧
  lastIncludedTerm rf' = lastIncludedTerm rf ∧ snapShot rf' = snapShot rf ∧
  state rf' = Follower.
Proof.
  intros [V Hinv]%reachable_inv Hi rf'.
  destruct (inv_nodes _ _ _ Hinv _ _ Hi) as (_ & _ & _ & Hs & _).
  destruct (Make_synced rf rnd now Hs) as ((?&?&?&?&?&?) & _ & _ & _ & ? & _). by split_and!.
Qed.

End election.

(** ** A concrete cluster

    Three nodes.  Node 0 wins term 2 with the vote of node 1; then, unheard by it,
    node 1 wins term 3 with the vote of node 2. *)
Section example.
#[local] Existing Instance gob_example.

Definition example_events : list (Event Z) :=
  [ETimeout 0 0; EDeliver 0 0; EReceive 0 0; ETimeout 0 0; EDeliver 1 0; EReceive 1 0;
   EStart 0 0 (Some 7);
   ETimeout 1 0; EDeliver 3 0; EReceive 3 0; ETimeout 1 0; EDeliver 4 0; EReceive 4 0].

Definition example_init : Sys Z := init 3 (λ i, i) 0.
Definition example_state : Sys Z := default example_init (run example_events example_init).
Definition example_first : Sys Z := default example_init (run (take 7 example_events) example_init).
Definition example_node (i : Z) : Raft Z :=
  default (Make 3 i MakePersister 0 0) (nodes example_state !! i).

Lemma example_reachable : reachable 3 example_state.
Proof. apply (run_reachable 3 example_events example_init); [apply reach_init|by vm_compute]. Qed.

Lemma example_first_reachable : reachable 3 example_first.
Proof. apply (run_reachable 3 (take 7 example_events) example_init); [apply reach_init|by vm_compute]. Qed.

Lemma election_safety_witness :
  match nodes example_first !! 0 with
  | Some rf => state rf = Leader ∧ currentTerm rf ≠ currentTerm (example_node 1)
  | None => False
  end.
Proof.
  destruct (nodes example_first !! 0) as [rf|] eqn:Hrf; [|by vm_compute in Hrf].
  assert (state rf = Leader) as HL by (vm_compute in Hrf; by injection Hrf as <-). split; [done|].
  apply (election_safety 3 example_first (drop 7 example_events) example_state 0 1 rf (example_node 1));
    [apply example_first_reachable|by vm_compute|done|by vm_compute|done|done|by vm_compute].
Defined.

Lemma votes_are_kept_witness :
  ∃ rf', nodes example_state !! 2 = Some rf' ∧ 1 ≤ currentTerm rf'.
Proof.
  destruct (votes_are_kept 3 example_events example_init example_state 2
              (Make 3 2 MakePersister 2 0)) as (rf' & ? & Hle & _);
    [apply reach_init|by vm_compute|by vm_compute|].
  exists rf'. split; [assumption|exact Hle].
Defined.

Lemma restart_recovers_witness :
  log (Make 3 0 (persister (example_node 0)) 5 9) = [mkEntry (-1) None; mkEntry 2 (Some 7)].
Proof.
  destruct (restart_recovers 3 example_state 0 (example_node 0) 5 9) as (_ & _ & Hlog & _);
    [apply example_reachable|by vm_compute|].
  assert (peers (example_node 0) = 3) as Hp by (by vm_compute).
  assert (me (example_node 0) = 0) as Hm by (by vm_compute).
  rewrite Hp, Hm in Hlog. rewrite Hlog. by vm_compute.
Defined.
End example.
