(* ===== verification/RaftLog.v ===== *)
(** * raft: what log replication computes

    The loops of [AppendEntries], [sendAppendEntries], [CommitChecker] and
    [Snapshot] against the definitions they implement: the merge of a log with a
    leader's entries, the largest index a majority holds, the messages of the
    entries not yet applied, and the log as a function of the virtual index. *)
From Stdlib Require Import Init.Byte.
From S2P Require Import Prelude LabGob Raft RaftVote RaftAppend RaftSnapshot RaftNode.

Section logs.
Context {C : Type} {gob : Gob (RaftGob C)}.
Implicit Types (rf : Raft C) (lg es : list (LogEntry C)) (i k : Z).

(** ** Merging entries into a log *)

(** How many leading entries of [es] agree in term with [lg]. *)
Fixpoint agree lg es : nat :=
  match lg, es with
  | x :: lg, e :: es => if le_Term x =? le_Term e then S (agree lg es) else O
  | _, _ => O
  end.

(** The receiver of [AppendEntries] per the Raft paper: entries that agree are
    kept; from the first conflict on, the log is replaced by the leader's. *)
Definition merge lg (k : nat) es : list (LogEntry C) :=
  let c := agree (drop k lg) es in
  if decide (c = length es) then lg else take (k + c) lg ++ drop c es.

Lemma agree_le lg es : (agree lg es ≤ length lg)%nat ∧ (agree lg es ≤ length es)%nat.
Proof.
  revert es. induction lg as [|x lg IH]; intros [|e es]; simpl; try lia.
  destruct (_ =? _); [|lia]. specialize (IH es). lia.
Qed.

Lemma agree_nil es : agree [] es = O.
Proof. by destruct es. Qed.

Lemma agree_lookup lg es (j : nat) :
  (j < agree lg es)%nat →
  ∃ x e, lg !! j = Some x ∧ es !! j = Some e ∧ le_Term x = le_Term e.
Proof.
  revert es j. induction lg as [|x lg IH]; intros [|e es] j; simpl; try lia.
  destruct (Z.eqb_spec (le_Term x) (le_Term e)); [|lia].
  destruct j as [|j]; simpl; [naive_solver|]. intros. apply IH. lia.
Qed.

Lemma drop_cons_lookup lg (k : nat) x lg' :
  drop k lg = x :: lg' → lg !! k = Some x ∧ drop (S k) lg = lg'.
Proof.
  intros H. split.
  - rewrite <-(Nat.add_0_r k), <-lookup_drop, H. done.
  - replace (S k) with (k + 1)%nat by lia. by rewrite <-drop_drop, H.
Qed.

Lemma append_loop_merge lg (k : nat) es :
  (k ≤ length lg)%nat → append_loop lg (Z.of_nat k) es = Ret (merge lg k es).
Proof.
  revert k. induction es as [|e es IH]; intros k Hk; unfold merge; simpl.
  { destruct (drop k lg); by rewrite decide_True. }
  destruct (drop k lg) as [|x lg'] eqn:Hd.
  - assert (length lg = k) as Hlen.
    { apply (f_equal length) in Hd. rewrite length_drop in Hd. simpl in Hd. lia. }
    unfold len. rewrite Hlen, Z.ltb_irrefl, Z.eqb_refl. simpl.
    rewrite take_ge by lia. done.
  - apply drop_cons_lookup in Hd as [Hx Hd].
    pose proof (lookup_lt_Some _ _ _ Hx) as Hlt.
    unfold len. destruct (Z.ltb_spec (Z.of_nat k) (Z.of_nat (length lg))); [|lia].
    assert (slice_get lg (Z.of_nat k) = Ret x) as ->.
    { apply slice_get_Ret, zlookup_Some. rewrite Nat2Z.id. split; [lia|done]. }
    simpl. destruct (Z.eqb_spec (le_Term x) (le_Term e)); simpl.
    + destruct (Z.eqb_spec (Z.of_nat k) (Z.of_nat (length lg))); [lia|].
      replace (Z.of_nat k + 1) with (Z.of_nat (S k)) by lia.
      rewrite IH by lia. unfold merge. rewrite Hd.
      destruct (decide (agree lg' es = length es)), (decide (S (agree lg' es) = S (length es)));
        try lia; [done|]. by rewrite Nat.add_succ_r.
    + assert (slice_to lg (Z.of_nat k) = Ret (take k lg)) as ->.
      { apply slice_to_Ret. rewrite Nat2Z.id. unfold len. split; [lia|done]. }
      simpl. by rewrite Nat.add_0_r.
Qed.

(** The merge read by index: the common part is untouched, and where the merge
    took the leader's entries it holds exactly those. *)
Lemma merge_before lg (k : nat) es (j : nat) :
  (j < k)%nat → (k ≤ length lg)%nat → merge lg k es !! j = lg !! j.
Proof.
  intros Hj Hk. unfold merge. case_decide; [done|].
  rewrite lookup_app_l by (rewrite length_take; pose proof (agree_le (drop k lg) es) as [H1 _];
    rewrite length_drop in H1; lia).
  apply lookup_take_lt. lia.
Qed.

Lemma merge_term lg (k : nat) es (j : nat) e :
  (k ≤ length lg)%nat → es !! j = Some e →
  ∃ x, merge lg k es !! (k + j)%nat = Some x ∧ le_Term x = le_Term e ∧
       ((j < agree (drop k lg) es)%nat ∨ x = e).
Proof.
  intros Hk He. pose proof (agree_le (drop k lg) es) as [H1 H2]. rewrite length_drop in H1.
  destruct (decide (j < agree (drop k lg) es)%nat) as [Hj|Hj].
  - destruct (agree_lookup _ _ _ Hj) as (x & e' & Hx & He' & Ht). simplify_eq.
    rewrite lookup_drop in Hx. exists x. split; [|by auto].
    unfold merge. case_decide; [done|].
    rewrite lookup_app_l by (rewrite length_take; lia). by rewrite lookup_take_lt by lia.
  - exists e. split; [|by auto]. unfold merge. pose proof (lookup_lt_Some _ _ _ He).
    case_decide; [lia|].
    rewrite lookup_app_r by (rewrite length_take; lia).
    rewrite length_take, lookup_drop, Nat.min_l by lia.
    by replace (agree (drop k lg) es + (k + j - (k + agree (drop k lg) es)))%nat with j by lia.
Qed.

Lemma agree_refl es : agree es es = length es.
Proof. induction es as [|e es IH]; simpl; [done|]. by rewrite Z.eqb_refl, IH. Qed.

Lemma agree_all lg es :
  agree lg es = length es ↔ ∀ j e, es !! j = Some e → ∃ x, lg !! j = Some x ∧ le_Term x = le_Term e.
Proof.
  split.
  - intros H j e He. destruct (agree_lookup lg es j) as (x & e' & ?); [|naive_solver].
    apply lookup_lt_Some in He. lia.
  - revert lg. induction es as [|e es IH]; intros lg H; [by destruct lg|].
    destruct (H 0%nat e) as (x & Hx & Ht); [done|]. destruct lg as [|y lg]; simplify_eq/=.
    rewrite (proj2 (Z.eqb_eq _ _)) by done. f_equal. apply IH.
    intros j e' He'. by apply (H (S j)).
Qed.

(** Receiving the same entries again changes nothing. *)
Lemma merge_idemp lg (k : nat) es :
  (k ≤ length lg)%nat → merge (merge lg k es) k es = merge lg k es.
Proof.
  intros Hk. unfold merge at 1. rewrite decide_True; [done|].
  apply agree_all. intros j e He.
  destruct (merge_term lg k es j e Hk He) as (x & Hx & Ht & _).
  exists x. by rewrite lookup_drop.
Qed.

Lemma merge_length lg (k : nat) es :
  (k ≤ length lg)%nat → (k + length es ≤ length (merge lg k es))%nat.
Proof.
  intros Hk. pose proof (agree_le (drop k lg) es) as [H1 H2]. rewrite length_drop in H1.
  unfold merge. case_decide; [lia|]. rewrite length_app, length_take, length_drop. lia.
Qed.

(** ** AppendEntries *)

(** The consistency check: the term is current and the log holds an entry of term
    [PrevLogTerm] at [PrevLogIndex]. *)
Definition accepts rf (args : AppendEntriesArgs C) : bool :=
  (currentTerm rf <=? ae_Term args) &&
  match zlookup (log rf) (ae_PrevLogIndex args - lastIncludedIndex rf) with
  | Some prev => le_Term prev =? ae_PrevLogTerm args
  | None => false
  end.

Definition lastIndex rf : Z := lastIncludedIndex rf + len (log rf) - 1.

Lemma commitCh_trysend_fields rf :
  log (commitCh_trysend rf) = log rf ∧ commitIndex (commitCh_trysend rf) = commitIndex rf ∧
  currentTerm (commitCh_trysend rf) = currentTerm rf ∧
  lastIncludedIndex (commitCh_trysend rf) = lastIncludedIndex rf ∧
  lastApplied (commitCh_trysend rf) = lastApplied rf.
Proof. unfold commitCh_trysend. by destruct (commitCh rf). Qed.

Lemma append_some rf (k : Z) es :
  0 ≤ k < len (log rf) →
  (if negb (len es =? 0)
   then log' ← append_loop (log rf) (k + 1) es; Ret (persist (rf <| log := log' |>))
   else Ret rf) =
  Ret (if negb (len es =? 0)
       then persist (rf <| log := merge (log rf) (Z.to_nat (k + 1)) es |>) else rf).
Proof.
  intros Hk. destruct (negb _); [|done].
  replace (k + 1) with (Z.of_nat (Z.to_nat (k + 1))) at 1 by lia.
  unfold len in Hk. rewrite append_loop_merge by lia. done.
Qed.

Lemma merge_nil lg (k : nat) : merge lg k [] = lg.
Proof. unfold merge. rewrite decide_True; [done|]. by destruct (drop k lg). Qed.

(** The handler never panics; it answers [true] exactly when the check succeeds,
    and then the log is the merge; otherwise the log and [commitIndex] stay. *)
Lemma AppendEntries_behaviour rnd rf args :
  ∃ rf', AppendEntries rnd rf args =
           Ret (rf', mkAppendEntriesReply (currentTerm rf) (accepts rf args)) ∧
    currentTerm rf' = Z.max (currentTerm rf) (ae_Term args) ∧
    lastIncludedIndex rf' = lastIncludedIndex rf ∧
    if accepts rf args then
      log rf' = merge (log rf) (Z.to_nat (ae_PrevLogIndex args - lastIncludedIndex rf + 1))
                  (ae_Entries args) ∧
      commitIndex rf' =
        (if ae_LeaderCommit args >? commitIndex rf
         then Z.min (ae_LeaderCommit args) (lastIndex rf') else commitIndex rf)
    else log rf' = log rf ∧ commitIndex rf' = commitIndex rf.
Proof.
  unfold AppendEntries, accepts. set (rf0 := timer_reset rnd rf).
  change (currentTerm rf0) with (currentTerm rf).
  destruct (Z.ltb_spec (ae_Term args) (currentTerm rf)) as [Hlt|Hge].
  { destruct (Z.leb_spec (currentTerm rf) (ae_Term args)); [lia|]. simpl.
    eexists. split; [done|]. simpl. split; [lia|done]. }
  destruct (Z.leb_spec (currentTerm rf) (ae_Term args)); [|lia]. simpl andb. cbv zeta.
  set (rf1 := persist _).
  assert (log rf1 = log rf ∧ currentTerm rf1 = ae_Term args ∧ commitIndex rf1 = commitIndex rf
          ∧ lastIncludedIndex rf1 = lastIncludedIndex rf) as (Hl & Ht & Hc & Hi).
  { unfold rf1. rewrite Z.gtb_ltb. destruct (Z.ltb_spec (currentTerm rf) (ae_Term args));
      repeat split; simpl; lia. }
  clearbody rf1. rewrite Hi.
  unfold VirtualLogIdx, RealLogIdx. rewrite Hl, Hi.
  destruct (Z.ltb_spec (ae_PrevLogIndex args) (lastIncludedIndex rf)) as [Hp|Hp].
  { assert (zlookup (log rf) (ae_PrevLogIndex args - lastIncludedIndex rf) = None) as ->
      by (apply zlookup_None; lia).
    exists rf1. rewrite Ht. split_and!; try done; lia. }
  rewrite Z.geb_leb.
  destruct (Z.leb_spec (len (log rf) + lastIncludedIndex rf) (ae_PrevLogIndex args)) as [Hq|Hq].
  { simpl. assert (zlookup (log rf) (ae_PrevLogIndex args - lastIncludedIndex rf) = None) as ->
      by (apply zlookup_None; lia).
    exists rf1. rewrite Ht. split_and!; try done; lia. }
  destruct (slice_get_ok (log rf) (ae_PrevLogIndex args - lastIncludedIndex rf))
    as (prev & Hget & Hlk); [lia|]. rewrite Hget, Hlk, !bind_Ret.
  destruct (le_Term prev =? ae_PrevLogTerm args); cbn [negb].
  2: { exists rf1. rewrite Ht. split_and!; try done; lia. }
  rewrite <-Hl, append_some, bind_Ret by (rewrite Hl; lia).
  set (rf2 := if negb _ then _ else _).
  assert (log rf2 = merge (log rf1) (Z.to_nat (ae_PrevLogIndex args - lastIncludedIndex rf + 1))
            (ae_Entries args) ∧ currentTerm rf2 = ae_Term args ∧ commitIndex rf2 = commitIndex rf
          ∧ lastIncludedIndex rf2 = lastIncludedIndex rf) as (Hl2 & Ht2 & Hc2 & Hi2).
  { unfold rf2. destruct (Z.eqb_spec (len (ae_Entries args)) 0) as [H0|]; simpl; [|done].
    destruct (ae_Entries args) as [|e es']; [by rewrite merge_nil|]. rewrite len_cons in H0.
    pose proof (len_nonneg es'). lia. }
  clearbody rf2. eexists. split; [done|]. rewrite Hc2. unfold lastIndex.
  destruct (_ >? _).
  - match goal with |- context [commitCh_trysend ?r] =>
      destruct (commitCh_trysend_fields r) as (E1&E2&E3&E4&_) end.
    rewrite E1, E2, E3, E4. simpl. rewrite Hl2, Ht2, Hi2.
    split_and!; try done; lia.
  - rewrite Hl2, Ht2, Hi2, Hc2. split_and!; try done; lia.
Qed.

(** ** The commit rule *)

(** Entry [N] is of the current term and the leader and a majority hold it. *)
Definition replicated rf N (i : Z) : bool :=
  negb (i =? me rf) && match zlookup (matchIndex rf) i with Some m => N <=? m | None => false end.

Definition term_at rf N : option Z := le_Term <$> zlookup (log rf) (RealLogIdx rf N).

Definition majority_has rf N : Prop :=
  term_at rf N = Some (currentTerm rf) ∧
  peers rf / 2 < 1 + len (filter (replicated rf N) (zrange (peers rf))).

(** What the leader relies on: the index arrays have one slot per peer, and the log
    covers everything after [commitIndex]. *)
Definition leader_wf rf : Prop :=
  2 ≤ peers rf ∧ len (matchIndex rf) = peers rf ∧ len (nextIndex rf) = peers rf ∧
  lastIncludedIndex rf ≤ commitIndex rf.

Lemma count_replicas_spec rf N e :
  len (matchIndex rf) = peers rf → zlookup (log rf) (RealLogIdx rf N) = Some e →
  count_replicas rf N =
  Ret (1 + if le_Term e =? currentTerm rf
           then len (filter (replicated rf N) (zrange (peers rf))) else 0).
Proof.
  intros Hm He. unfold count_replicas.
  rewrite (ofold_count (λ i, replicated rf N i && (le_Term e =? currentTerm rf))).
  - f_equal. f_equal. destruct (_ =? _).
    + f_equal. apply list_filter_iff. intros i. by rewrite andb_true_r.
    + induction (zrange (peers rf)) as [|i l IH]; [done|].
      by rewrite filter_cons, andb_false_r.
  - intros b i Hi%elem_of_zrange. unfold replicated.
    destruct (Z.eqb_spec i (me rf)); simpl; [done|].
    destruct (slice_get_ok (matchIndex rf) i) as (m & -> & ->); [lia|].
    rewrite bind_Ret, Z.geb_leb. destruct (N <=? m); [|done].
    rewrite (proj2 (slice_get_Ret _ _ _) He), bind_Ret. done.
Qed.

Lemma log_covers rf N :
  leader_wf rf → commitIndex rf < N ≤ lastIndex rf →
  ∃ e, zlookup (log rf) (RealLogIdx rf N) = Some e.
Proof.
  intros (_&_&_&?) ?. unfold lastIndex, RealLogIdx in *. apply zlookup_is_Some. lia.
Qed.

Lemma count_majority rf N :
  leader_wf rf → commitIndex rf < N ≤ lastIndex rf →
  ∃ c, count_replicas rf N = Ret c ∧ (peers rf / 2 < c ↔ majority_has rf N).
Proof.
  intros Hwf HN. destruct (log_covers rf N Hwf HN) as (e & He). destruct Hwf as (H2&Hm&_).
  eexists. split; [by apply count_replicas_spec|].
  unfold majority_has, term_at. rewrite He. simpl.
  assert (1 ≤ peers rf / 2) by (apply Z.div_le_lower_bound; lia).
  destruct (Z.eqb_spec (le_Term e) (currentTerm rf)) as [->|Hne].
  - split; [auto|naive_solver].
  - split; [lia|]. intros [[= ?] _]. done.
Qed.

(** The loop from the last index down to [commitIndex] finds the largest index the
    rule allows. *)
Lemma commit_loop_spec rf (k : nat) :
  leader_wf rf → commitIndex rf + Z.of_nat k ≤ lastIndex rf →
  ∃ N, commit_loop rf k =
         Ret (if decide (N = commitIndex rf) then rf
              else commitCh_trysend (rf <| commitIndex := N |>)) ∧
    commitIndex rf ≤ N ≤ commitIndex rf + Z.of_nat k ∧
    (N ≠ commitIndex rf → majority_has rf N) ∧
    (∀ N', N < N' ≤ commitIndex rf + Z.of_nat k → ¬ majority_has rf N').
Proof.
  intros Hwf. induction k as [|k IH]; intros Hk.
  - exists (commitIndex rf). rewrite decide_True by done. split_and!; try first [done|lia].
  - cbn [commit_loop]. destruct (count_majority rf (commitIndex rf + Z.of_nat (S k)) Hwf)
      as (c & -> & Hc); [lia|]. rewrite bind_Ret, Z.gtb_ltb.
    destruct (Z.ltb_spec (peers rf / 2) c) as [Hlt|Hge].
    + exists (commitIndex rf + Z.of_nat (S k)). rewrite decide_False by lia.
      split_and!; try first [done|lia]. intros _. by apply Hc.
    + destruct IH as (N & HN & ? & ? & Hmax); [lia|]. exists N.
      split_and!; try first [done|lia]. intros N' HN'.
      destruct (decide (N' = commitIndex rf + Z.of_nat (S k))) as [->|].
      * intros ?%Hc. lia.
      * apply Hmax. lia.
Qed.

(** A successful reply: [matchIndex] and [nextIndex] advance and [commitIndex]
    becomes the largest index the rule allows. *)
Definition acked rf (server : Z) (args : AppendEntriesArgs C) : Raft C :=
  let m := ae_PrevLogIndex args + len (ae_Entries args) in
  rf <| matchIndex := <[Z.to_nat server := m]> (matchIndex rf) |>
     <| nextIndex := <[Z.to_nat server := m + 1]> (nextIndex rf) |>.

Lemma sendAppendEntries_success rnd rf server args replyTerm :
  leader_wf rf → commitIndex rf ≤ lastIndex rf → 0 ≤ server < peers rf →
  currentTerm rf ≤ ae_Term args →
  let rf1 := acked rf server args in
  ∃ N, sendAppendEntries rnd rf server args (mkAppendEntriesReply replyTerm true) =
         Ret (if decide (N = commitIndex rf) then rf1
              else commitCh_trysend (rf1 <| commitIndex := N |>), true) ∧
    commitIndex rf ≤ N ≤ lastIndex rf ∧
    (N ≠ commitIndex rf → majority_has rf1 N) ∧
    (∀ N', N < N' ≤ lastIndex rf → ¬ majority_has rf1 N').
Proof.
  intros Hwf Hlast Hsv Hterm rf1. destruct Hwf as (H2 & Hm & Hn & Hc).
  assert (leader_wf rf1) as Hwf1.
  { unfold leader_wf, rf1, acked. simpl. rewrite !len_insert. by split_and!. }
  destruct (commit_loop_spec rf1 (Z.to_nat (lastIndex rf - commitIndex rf)) Hwf1)
    as (N & HN & Hrange & Hmaj & Hmax).
  { change (lastIndex rf1) with (lastIndex rf). change (commitIndex rf1) with (commitIndex rf). lia. }
  change (commitIndex rf1) with (commitIndex rf) in *.
  exists N. split; [|split_and!; [lia|lia|done|intros; apply Hmax; lia]].
  unfold sendAppendEntries. cbn [aer_Success negb]. rewrite andb_false_r.
  destruct (Z.ltb_spec (ae_Term args) (currentTerm rf)); [lia|]. cbv zeta.
  rewrite !slice_set_ok, !bind_Ret by lia. fold (acked rf server args). fold rf1.
  replace (VirtualLogIdx rf1 (len (log rf1) - 1)) with (lastIndex rf)
    by (unfold VirtualLogIdx, lastIndex; simpl; lia).
  change (commitIndex rf1) with (commitIndex rf). by rewrite HN.
Qed.

(** ** Applying entries *)

Fixpoint zfrom (a : Z) (k : nat) : list Z :=
  match k with O => [] | S k => a :: zfrom (a + 1) k end.

(** The message for the entry at virtual index [v], if the log still holds it. *)
Definition msg_at rf (v : Z) : option (ApplyMsg C) :=
  if v <=? lastIncludedIndex rf then None
  else (λ e, mkApplyMsg true (le_Command e) v (le_Term e) false [] 0 0)
         <$> zlookup (log rf) (RealLogIdx rf v).

Definition to_apply rf : list (ApplyMsg C) :=
  omap (msg_at rf) (zfrom (lastApplied rf + 1) (Z.to_nat (commitIndex rf - lastApplied rf))).

Lemma msg_at_past_end rf v (k : nat) :
  lastIndex rf < v → omap (msg_at rf) (zfrom v k) = [].
Proof.
  revert v. induction k as [|k IH]; intros v Hv; simpl; [done|].
  assert (msg_at rf v = None) as ->; [|apply IH; lia].
  unfold msg_at, lastIndex, RealLogIdx in *. destruct (_ <=? _); [done|].
  by rewrite (proj2 (zlookup_None _ _)) by lia.
Qed.

Lemma collect_loop_spec rf v (k : nat) buf :
  collect_loop rf v k buf = Ret (buf ++ omap (msg_at rf) (zfrom (v + 1) k)).
Proof.
  revert v buf. induction k as [|k IH]; intros v buf; cbn [collect_loop zfrom].
  { simpl. by rewrite app_nil_r. }
  destruct (Z.leb_spec (v + 1) (lastIncludedIndex rf)) as [Hle|Hgt].
  { rewrite IH. simpl. unfold msg_at at 2. by rewrite (proj2 (Z.leb_le _ _)). }
  rewrite Z.geb_leb. destruct (Z.leb_spec (len (log rf)) (RealLogIdx rf (v + 1))) as [Hend|Hin].
  { change (v + 1 :: zfrom (v + 1 + 1) k) with (zfrom (v + 1) (S k)).
    rewrite msg_at_past_end, app_nil_r; [done|]. unfold lastIndex, RealLogIdx in *. lia. }
  destruct (slice_get_ok (log rf) (RealLogIdx rf (v + 1))) as (e & -> & He).
  { unfold RealLogIdx in *. lia. }
  rewrite bind_Ret, IH, <-app_assoc. simpl. unfold msg_at at 2.
  by rewrite (proj2 (Z.leb_gt _ _)), He by done.
Qed.

Lemma CommitChecker_collect rf :
  commitCh rf = CCWoken → lastApplied rf ≤ commitIndex rf →
  CommitChecker rf = Some (Ret (rf <| commitCh := CCSend (to_apply rf) |>)).
Proof.
  intros Hw Hle. unfold CommitChecker. rewrite Hw.
  destruct (Z.ltb_spec (commitIndex rf - lastApplied rf) 0); [lia|].
  by rewrite collect_loop_spec.
Qed.

(** [k] steps of the goroutine. *)
Fixpoint checker_run (k : nat) rf : option (Raft C) :=
  match k with
  | O => Some rf
  | S k => match CommitChecker rf with Some (Ret rf') => checker_run k rf' | _ => None end
  end.

(** Sending a buffer of consecutive messages, with no other step in between. *)
Lemma checker_send rf msgs :
  commitCh rf = CCSend msgs →
  CommandIndex <$> msgs = zfrom (lastApplied rf + 1) (length msgs) →
  checker_run (2 * length msgs) rf =
  Some (rf <| applyCh := applyCh rf ++ msgs |>
           <| commitCh := CCSend [] |>
           <| lastApplied := lastApplied rf + len msgs |>).
Proof.
  revert rf. induction msgs as [|m msgs IH]; intros rf Hc Hidx.
  { simpl. rewrite app_nil_r. unfold len. simpl. rewrite Z.add_0_r.
    by destruct rf; simpl in *; subst. }
  cbn [fmap list_fmap zfrom length] in Hidx. injection Hidx as Hm Hrest.
  replace (2 * length (m :: msgs))%nat with (S (S (2 * length msgs))) by (simpl; lia).
  cbn [checker_run]. unfold CommitChecker at 1. rewrite Hc.
  unfold CommitChecker at 1. cbn [commitCh set set_commitCh set_applyCh].
  simpl lastApplied. rewrite Hm, Z.eqb_refl. cbn [negb].
  unfold max. rewrite Z.gtb_ltb, (proj2 (Z.ltb_lt _ _)) by lia.
  rewrite IH; [|done|done]. simpl.
  rewrite <-app_assoc, len_cons, Z.add_assoc. by destruct rf.
Qed.

Lemma zfrom_snd_msgs rf v (k : nat) :
  lastIncludedIndex rf < v → v + Z.of_nat k - 1 ≤ lastIndex rf →
  CommandIndex <$> omap (msg_at rf) (zfrom v k) = zfrom v k.
Proof.
  revert v. induction k as [|k IH]; intros v Hv Hk; simpl; [done|].
  unfold msg_at at 1. rewrite (proj2 (Z.leb_gt _ _)) by done.
  destruct (proj2 (zlookup_is_Some (log rf) (RealLogIdx rf v))) as [e ->].
  { unfold lastIndex, RealLogIdx in *. lia. }
  simpl. f_equal. apply IH; lia.
Qed.

Lemma length_zfrom v (k : nat) : length (zfrom v k) = k.
Proof. revert v. induction k as [|k IH]; intros v; simpl; [done|]. by rewrite IH. Qed.

Lemma checker_delivers rf :
  commitCh rf = CCWoken →
  lastIncludedIndex rf ≤ lastApplied rf → lastApplied rf ≤ commitIndex rf ≤ lastIndex rf →
  checker_run (1 + 2 * length (to_apply rf)) rf =
    Some (rf <| applyCh := applyCh rf ++ to_apply rf |>
             <| commitCh := CCSend [] |>
             <| lastApplied := commitIndex rf |>) ∧
  CommandIndex <$> to_apply rf =
    zfrom (lastApplied rf + 1) (Z.to_nat (commitIndex rf - lastApplied rf)).
Proof.
  intros Hw Hli Hle.
  assert (CommandIndex <$> to_apply rf =
          zfrom (lastApplied rf + 1) (Z.to_nat (commitIndex rf - lastApplied rf))) as Hidx.
  { apply zfrom_snd_msgs; lia. }
  assert (length (to_apply rf) = Z.to_nat (commitIndex rf - lastApplied rf)) as Hlen.
  { apply (f_equal length) in Hidx. by rewrite length_fmap, length_zfrom in Hidx. }
  split; [|done]. cbn [Nat.add checker_run]. rewrite CommitChecker_collect by (done || lia).
  set (ms := to_apply rf) in *. clearbody ms.
  rewrite (checker_send _ ms); [|done|by rewrite Hidx, Hlen].
  simpl. replace (lastApplied rf + len ms) with (commitIndex rf) by (unfold len; lia).
  by destruct rf.
Qed.

(** ** Compaction *)

(** The log as the history sees it: the entry at a virtual index. *)
Definition entry_at rf (v : Z) : option (LogEntry C) := zlookup (log rf) (RealLogIdx rf v).

Lemma Snapshot_compacts rf index data :
  lastIncludedIndex rf < index ≤ commitIndex rf → commitIndex rf ≤ lastIndex rf →
  ∃ rf', Snapshot rf index data = Ret rf' ∧
    lastIncludedIndex rf' = index ∧
    entry_at rf' index = entry_at rf index ∧
    Some (lastIncludedTerm rf') = le_Term <$> entry_at rf index ∧
    (∀ v, index ≤ v → entry_at rf' v = entry_at rf v) ∧
    lastIndex rf' = lastIndex rf ∧ commitIndex rf' = commitIndex rf ∧
    lastApplied rf' = Z.max (lastApplied rf) index ∧ snapShot rf' = data ∧
    persister rf' = mkPersister (encodeState rf') data.
Proof.
  intros Hidx Hlast. unfold Snapshot.
  destruct (Z.leb_spec index (lastIncludedIndex rf)); [lia|].
  rewrite (Z.gtb_ltb index). destruct (Z.ltb_spec (commitIndex rf) index); [lia|]. simpl orb.
  unfold lastIndex, entry_at, RealLogIdx in *.
  rewrite Z.gtb_ltb. destruct (Z.ltb_spec (len (log rf)) (index - lastIncludedIndex rf)); [lia|].
  cbv zeta. simpl log. simpl lastIncludedIndex.
  destruct (slice_get_ok (log rf) (index - lastIncludedIndex rf)) as (e & -> & He); [lia|].
  rewrite bind_Ret. simpl. rewrite slice_from_ok, bind_Ret by lia. eexists. split; [done|].
  assert (∀ v, index ≤ v →
    zlookup (drop (Z.to_nat (index - lastIncludedIndex rf)) (log rf)) (v - index) =
    zlookup (log rf) (v - lastIncludedIndex rf)) as Hent.
  { intros v Hv. rewrite zlookup_drop by lia. f_equal. lia. }
  destruct (Z.ltb_spec (lastApplied rf) index); simpl; rewrite ?He, ?len_drop.
  all: split_and!; try first [done|lia|by rewrite <-He; apply Hent; lia].
Qed.

(** ** Snapshots from the leader *)

(** Whether the log holds the last entry the snapshot covers. *)
Definition snapshot_in_log rf (args : InstallSnapshotArgs C) : bool :=
  match entry_at rf (is_LastIncludedIndex args) with
  | Some e => le_Term e =? is_LastIncludedTerm args
  | None => false
  end.

Lemma find_entry_spec rf args k lg :
  find_entry rf args k lg =
  (let r := RealLogIdx rf (is_LastIncludedIndex args) in
   match zlookup lg (r - k) with
   | Some e => if le_Term e =? is_LastIncludedTerm args then Some r else None
   | None => None
   end).
Proof.
  revert k. induction lg as [|e lg IH]; intros k; cbn [find_entry].
  { unfold zlookup. cbv zeta. by destruct (_ <=? _). }
  unfold VirtualLogIdx, RealLogIdx in *.
  destruct (Z.eqb_spec (k + lastIncludedIndex rf) (is_LastIncludedIndex args)) as [Heq|Hne]; simpl.
  - replace (is_LastIncludedIndex args - lastIncludedIndex rf) with k by lia.
    rewrite Z.sub_diag, zlookup_cons_0. destruct (_ =? _); [done|].
    rewrite IH. simpl. rewrite (proj2 (zlookup_None _ _)); [done|]. lia.
  - rewrite IH. simpl. destruct (Z.ltb_spec k (is_LastIncludedIndex args - lastIncludedIndex rf)).
    + rewrite zlookup_cons_S by lia. by rewrite Z.sub_add_distr.
    + rewrite !(proj2 (zlookup_None _ _)); [done|lia..].
Qed.

Lemma InstallSnapshot_behaviour rnd rf args :
  currentTerm rf ≤ is_Term args →
  ∃ rf', InstallSnapshot rnd rf args = Ret (rf', mkInstallSnapshotReply (is_Term args) false) ∧
    log rf' = (if snapshot_in_log rf args
               then drop (Z.to_nat (RealLogIdx rf (is_LastIncludedIndex args))) (log rf)
               else [mkEntry (lastIncludedTerm rf) (is_LastIncludedCmd args)]) ∧
    lastIncludedIndex rf' = is_LastIncludedIndex args ∧
    lastIncludedTerm rf' = is_LastIncludedTerm args ∧
    snapShot rf' = is_Data args ∧
    commitIndex rf' = Z.max (commitIndex rf) (is_LastIncludedIndex args) ∧
    lastApplied rf' = is_LastIncludedIndex args ∧
    currentTerm rf' = is_Term args ∧ state rf' = Follower ∧
    persister rf' = mkPersister (encodeState rf') (is_Data args).
Proof.
  intros Hterm. unfold InstallSnapshot.
  destruct (Z.ltb_spec (is_Term args) (currentTerm rf)); [lia|]. cbv zeta.
  set (rf1 := set state _ _).
  assert (log rf1 = log rf ∧ lastIncludedIndex rf1 = lastIncludedIndex rf ∧
          lastIncludedTerm rf1 = lastIncludedTerm rf ∧ commitIndex rf1 = commitIndex rf ∧
          currentTerm rf1 = is_Term args ∧ state rf1 = Follower) as (Hl & Hi & Ht & Hc & Hct & Hs).
  { unfold rf1. rewrite Z.gtb_ltb.
    destruct (Z.ltb_spec (currentTerm (timer_reset rnd rf)) (is_Term args)) as [|Hge];
      repeat split; simpl in *; lia. }
  clearbody rf1. rewrite find_entry_spec. unfold snapshot_in_log, entry_at, RealLogIdx.
  rewrite Hl, Hi, Z.sub_0_r.
  destruct (zlookup (log rf) (is_LastIncludedIndex args - lastIncludedIndex rf)) as [e|] eqn:He;
    [destruct (le_Term e =? is_LastIncludedTerm args)|]; cbv zeta.
  1: apply zlookup_bounds in He; rewrite slice_from_ok, bind_Ret by lia.
  all: rewrite bind_Ret; eexists; split; [apply f_equal, f_equal2; [reflexivity|]|].
  all: match goal with |- context [?a <? ?b] => destruct (Z.ltb_spec a b) as [Hlt|Hlt] end.
  all: change (commitIndex rf1 < is_LastIncludedIndex args) in Hlt ||
       change (is_LastIncludedIndex args ≤ commitIndex rf1) in Hlt.
  all: try (apply (f_equal (λ t, mkInstallSnapshotReply t false)); exact Hct).
  all: split_and!; try first [reflexivity|exact Hct|exact Hs].
  all: try (cbn; lia). all: cbn; by rewrite Ht.
Qed.

(** ** The contracts *)

(** C15. [AppendEntries] never panics; it answers [true] exactly when the consistency
    check succeeds, and then the log is the paper's merge of the log and the
    leader's entries (kept up to the first conflict, the leader's from there on);
    otherwise the log and [commitIndex] are unchanged.  In all cases the term
    becomes the larger one. *)
Theorem AppendEntries_correct rnd rf args :
  ∃ rf', AppendEntries rnd rf args =
           Ret (rf', mkAppendEntriesReply (currentTerm rf) (accepts rf args)) ∧
    currentTerm rf' = Z.max (currentTerm rf) (ae_Term args) ∧
    if accepts rf args then
      log rf' = merge (log rf) (Z.to_nat (RealLogIdx rf (ae_PrevLogIndex args) + 1))
                  (ae_Entries args)
    else log rf' = log rf ∧ commitIndex rf' = commitIndex rf.
Proof.
  destruct (AppendEntries_behaviour rnd rf args) as (rf' & ? & ? & _ & Hif).
  exists rf'. split_and!; [done..|]. by destruct (accepts rf args); [destruct Hif|].
Qed.

Lemma accepted_prev rf args :
  accepts rf args = true →
  currentTerm rf ≤ ae_Term args ∧
  0 ≤ ae_PrevLogIndex args - lastIncludedIndex rf < len (log rf).
Proof.
  unfold accepts. intros [?%Z.leb_le H]%andb_true_iff. split; [done|].
  destruct (zlookup _ _) eqn:E; [|done]. by eapply zlookup_bounds.
Qed.

Lemma accepts_again rf rf' args :
  accepts rf args = true →
  currentTerm rf' = ae_Term args → lastIncludedIndex rf' = lastIncludedIndex rf →
  log rf' = merge (log rf) (Z.to_nat (ae_PrevLogIndex args - lastIncludedIndex rf + 1))
              (ae_Entries args) →
  accepts rf' args = true.
Proof.
  intros Hacc Ht Hi Hl. pose proof (accepted_prev _ _ Hacc) as [_ Hb]. unfold accepts in *.
  rewrite Ht, Hi, Hl, Z.leb_refl. apply andb_true_iff in Hacc as [_ Hacc].
  unfold zlookup, len in *. destruct (Z.leb_spec 0 (ae_PrevLogIndex args - lastIncludedIndex rf));
    [|lia]. by rewrite merge_before by lia.
Qed.

(** A duplicated or retransmitted [AppendEntries] is harmless: handling an
    accepted request a second time succeeds and leaves the log as the first time
    did. *)
Theorem AppendEntries_idempotent rnd rnd' rf args rf1 r1 :
  accepts rf args = true →
  AppendEntries rnd rf args = Ret (rf1, r1) →
  ∃ rf2 r2, AppendEntries rnd' rf1 args = Ret (rf2, r2) ∧
    log rf2 = log rf1 ∧ aer_Success r2 = true.
Proof.
  intros Hacc H1. pose proof (accepted_prev _ _ Hacc) as [Ht Hb].
  destruct (AppendEntries_behaviour rnd rf args) as (x & Hx & Hxt & Hxi & Hif).
  rewrite H1 in Hx. simplify_eq. rewrite Hacc in Hif. destruct Hif as [Hl _].
  destruct (AppendEntries_behaviour rnd' x args) as (y & Hy & _ & _ & Hif).
  rewrite (accepts_again rf x args) in Hy, Hif by (done || lia). destruct Hif as [Hl2 _].
  exists y. eexists. split_and!; [done| |done].
  rewrite Hl2, Hxi, Hl. apply merge_idemp. unfold len in Hb. lia.
Qed.

(** The commit index a follower takes over is the paper's, the minimum of the
    leader's commit index and the index of the last new entry, although the code
    takes the last index of its whole log: the leader's commit index never passes
    the end of what it sends. *)
Theorem AppendEntries_commit_paper rnd rf args rf' r :
  accepts rf args = true →
  ae_LeaderCommit args ≤ ae_PrevLogIndex args + len (ae_Entries args) →
  AppendEntries rnd rf args = Ret (rf', r) →
  commitIndex rf' =
    if ae_LeaderCommit args >? commitIndex rf
    then Z.min (ae_LeaderCommit args) (ae_PrevLogIndex args + len (ae_Entries args))
    else commitIndex rf.
Proof.
  intros Hacc Hlc H1. pose proof (accepted_prev _ _ Hacc) as [Ht Hb].
  destruct (AppendEntries_behaviour rnd rf args) as (x & Hx & _ & Hxi & Hif).
  rewrite H1 in Hx. simplify_eq. rewrite Hacc in Hif. destruct Hif as [Hl ->].
  destruct (_ >? _); [|done].
  pose proof (merge_length (log rf)
    (Z.to_nat (ae_PrevLogIndex args - lastIncludedIndex rf + 1)) (ae_Entries args)) as Hlen.
  unfold lastIndex, len in *. rewrite Hxi, Hl. lia.
Qed.

(** C16. The commit rule: after a successful reply [commitIndex] is the largest index
    whose entry is of the current term and which the leader and a majority of the
    servers hold, or it is unchanged when there is none beyond it.  The handler
    does not panic. *)
Theorem commit_rule rnd rf server args replyTerm :
  leader_wf rf → commitIndex rf ≤ lastIndex rf → 0 ≤ server < peers rf →
  currentTerm rf ≤ ae_Term args →
  ∃ rf', sendAppendEntries rnd rf server args (mkAppendEntriesReply replyTerm true) =
           Ret (rf', true) ∧
    (commitIndex rf' = commitIndex rf ∨
     commitIndex rf < commitIndex rf' ≤ lastIndex rf ∧
     majority_has (acked rf server args) (commitIndex rf')) ∧
    (∀ N, commitIndex rf' < N ≤ lastIndex rf → ¬ majority_has (acked rf server args) N).
Proof.
  intros Hwf Hl Hs Ht.
  destruct (sendAppendEntries_success rnd rf server args replyTerm Hwf Hl Hs Ht)
    as (N & HN & Hr & Hmaj & Hmax).
  eexists. split; [done|]. destruct (decide (N = commitIndex rf)) as [->|Hne].
  - by split; [left|].
  - destruct (commitCh_trysend_fields (acked rf server args <| commitIndex := N |>))
      as (_ & -> & _). simpl. split; [|done]. right. split; [lia|by apply Hmaj].
Qed.

(** A woken [CommitChecker] that is not disturbed sends the service exactly the
    entries between [lastApplied] and [commitIndex], each once, in index order and
    with its command and term, and then [lastApplied] is [commitIndex]. *)
Theorem CommitChecker_delivers rf :
  commitCh rf = CCWoken →
  lastIncludedIndex rf ≤ lastApplied rf → lastApplied rf ≤ commitIndex rf ≤ lastIndex rf →
  ∃ (n : nat) rf' msgs, checker_run n rf = Some rf' ∧ applyCh rf' = applyCh rf ++ msgs ∧
    lastApplied rf' = commitIndex rf ∧
    CommandIndex <$> msgs =
      zfrom (lastApplied rf + 1) (Z.to_nat (commitIndex rf - lastApplied rf)) ∧
    Forall (λ m, msg_at rf (CommandIndex m) = Some m) msgs.
Proof.
  intros Hw Hli Hle. destruct (checker_delivers rf Hw Hli Hle) as [Hrun Hidx].
  exists (1 + 2 * length (to_apply rf))%nat. do 2 eexists. split_and!; [done..| ].
  unfold to_apply. apply Forall_forall. intros m (v & _ & Hm)%list_elem_of_omap.
  assert (CommandIndex m = v) as ->; [|done]. unfold msg_at in Hm.
  destruct (_ <=? _); [done|]. by destruct (zlookup _ _); simplify_eq/=.
Qed.

(** Compaction: an accepted [Snapshot(index, data)] keeps every entry from
    [index] on at its virtual index, records the term of the entry it cuts at, and
    saves the snapshot together with the shortened log. *)
Theorem Snapshot_keeps_log rf index data :
  lastIncludedIndex rf < index ≤ commitIndex rf → commitIndex rf ≤ lastIndex rf →
  ∃ rf', Snapshot rf index data = Ret rf' ∧ lastIncludedIndex rf' = index ∧
    (∀ v, index ≤ v → entry_at rf' v = entry_at rf v) ∧
    Some (lastIncludedTerm rf') = le_Term <$> entry_at rf' index ∧
    lastIndex rf' = lastIndex rf ∧ snapShot rf' = data ∧
    persister rf' = mkPersister (encodeState rf') data.
Proof.
  intros H1 H2. destruct (Snapshot_compacts rf index data H1 H2) as (rf' & ? & ? & He & Ht & ?).
  exists rf'. rewrite He. naive_solver.
Qed.

(** The guard of [Snapshot] is off by one: at the index just past the log it
    lets the request through and the access to the log panics. *)
Theorem Snapshot_guard_panics rf index data :
  lastIncludedIndex rf < index ≤ commitIndex rf → RealLogIdx rf index = len (log rf) →
  Snapshot rf index data = Panic.
Proof.
  intros Hi Hr. unfold Snapshot.
  destruct (Z.leb_spec index (lastIncludedIndex rf)); [lia|].
  rewrite (Z.gtb_ltb index), (proj2 (Z.ltb_ge _ _)) by lia. simpl orb. cbv zeta.
  rewrite Hr, Z.gtb_ltb, Z.ltb_irrefl. change (RealLogIdx (rf <| snapShot := data |>) index)
    with (RealLogIdx rf index). rewrite Hr. unfold slice_get.
  by rewrite (proj2 (zlookup_None _ _)) by (simpl; lia).
Qed.

(** A snapshot whose last entry the log holds keeps the entries after it. *)
Theorem InstallSnapshot_keeps_suffix rnd rf args :
  currentTerm rf ≤ is_Term args → snapshot_in_log rf args = true →
  ∃ rf', InstallSnapshot rnd rf args = Ret (rf', mkInstallSnapshotReply (is_Term args) false) ∧
    lastIncludedIndex rf' = is_LastIncludedIndex args ∧ snapShot rf' = is_Data args ∧
    (∀ v, is_LastIncludedIndex args ≤ v → entry_at rf' v = entry_at rf v).
Proof.
  intros Ht Hin. destruct (InstallSnapshot_behaviour rnd rf args Ht)
    as (rf' & ? & Hl & Hi & _ & ? & _).
  exists rf'. split_and!; [done..|]. intros v Hv. rewrite Hin in Hl.
  unfold entry_at, RealLogIdx. rewrite Hl, Hi. unfold snapshot_in_log in Hin.
  destruct (entry_at rf (is_LastIncludedIndex args)) eqn:He; [|done].
  apply zlookup_bounds in He. rewrite zlookup_drop by lia.
  unfold RealLogIdx in *. f_equal. lia.
Qed.

(** A snapshot that replaces the log leaves at its head an entry with the term of
    the previous snapshot, not with the snapshot's own: until the next snapshot
    arrives, the follower's last log term is the old one. *)
Theorem InstallSnapshot_stale_head rnd rf args :
  currentTerm rf ≤ is_Term args → snapshot_in_log rf args = false →
  lastIncludedTerm rf ≠ is_LastIncludedTerm args →
  ∃ rf' reply e, InstallSnapshot rnd rf args = Ret (rf', reply) ∧
    lastIncludedTerm rf' = is_LastIncludedTerm args ∧
    getLastLog rf' = Ret e ∧ le_Term e = lastIncludedTerm rf ∧ le_Term e ≠ lastIncludedTerm rf'.
Proof.
  intros Ht Hin Hne. destruct (InstallSnapshot_behaviour rnd rf args Ht)
    as (rf' & ? & Hl & _ & Hlt & _). rewrite Hin in Hl.
  do 3 eexists. split; [done|]. unfold getLastLog. rewrite Hl, Hlt. done.
Qed.

(** [InstallSnapshot] has no guard against an old snapshot: one behind the
    follower's own snapshot discards the whole log and moves [lastApplied] back. *)
Theorem InstallSnapshot_goes_back rnd rf args :
  currentTerm rf ≤ is_Term args →
  is_LastIncludedIndex args < lastIncludedIndex rf → lastIncludedIndex rf ≤ lastApplied rf →
  ∃ rf' reply, InstallSnapshot rnd rf args = Ret (rf', reply) ∧
    lastApplied rf' < lastApplied rf ∧ lastIndex rf' = is_LastIncludedIndex args ∧
    commitIndex rf ≤ commitIndex rf'.
Proof.
  intros Ht Hi Ha. destruct (InstallSnapshot_behaviour rnd rf args Ht)
    as (rf' & ? & Hl & Hi' & _ & _ & Hc & Ha' & _).
  do 2 eexists. split; [done|]. unfold lastIndex. rewrite Hl, Hi', Hc, Ha'.
  assert (snapshot_in_log rf args = false) as ->.
  { unfold snapshot_in_log, entry_at, RealLogIdx.
    by rewrite (proj2 (zlookup_None _ _)) by lia. }
  unfold len. simpl. lia.
Qed.

End logs.

(** ** Concrete instances *)
Section log_examples.
#[local] Existing Instance gob_example.

(** A node of three with two entries of term 2 after the sentinel. *)
Definition log_example : Raft Z :=
  (Make 3 0 MakePersister 0 0)
    <| currentTerm := 2 |> <| state := Leader |>
    <| log := [mkEntry (-1) None; mkEntry 2 (Some 7); mkEntry 2 (Some 8)] |>.

Definition append_example : AppendEntriesArgs Z :=
  mkAppendEntriesArgs 3 1 1 2 [mkEntry 3 (Some 9)] 2.

Definition snapshot_example (index term : Z) : InstallSnapshotArgs Z :=
  mkInstallSnapshotArgs 3 1 index term [x01] (Some 5).

Lemma AppendEntries_idempotent_witness :
  ∃ rf1 r1 rf2 r2,
    AppendEntries 0 log_example append_example = Ret (rf1, r1) ∧
    AppendEntries 4 rf1 append_example = Ret (rf2, r2) ∧ log rf2 = log rf1.
Proof.
  destruct (AppendEntries 0 log_example append_example) as [[rf1 r1]|] eqn:E; [|by vm_compute in E].
  destruct (AppendEntries_idempotent 0 4 log_example append_example rf1 r1) as (rf2 & r2 & ? & ? & _);
    [by vm_compute|exact E|].
  exists rf1, r1, rf2, r2. split; [reflexivity|]. by split.
Defined.

Lemma AppendEntries_commit_paper_witness :
  ∃ rf1 r1, AppendEntries 0 log_example append_example = Ret (rf1, r1) ∧ commitIndex rf1 = 2.
Proof.
  destruct (AppendEntries 0 log_example append_example) as [[rf1 r1]|] eqn:E; [|by vm_compute in E].
  exists rf1, r1. split; [reflexivity|].
  rewrite (AppendEntries_commit_paper 0 log_example append_example rf1 r1);
    [by vm_compute|by vm_compute|by vm_compute|exact E].
Defined.

Lemma commit_rule_witness :
  ∃ rf', sendAppendEntries 0 log_example 1
           (mkAppendEntriesArgs 2 0 0 (-1) [mkEntry 2 (Some 7)] 0) (mkAppendEntriesReply 2 true)
         = Ret (rf', true) ∧ commitIndex rf' = 1.
Proof.
  destruct (commit_rule 0 log_example 1
    (mkAppendEntriesArgs 2 0 0 (-1) [mkEntry 2 (Some 7)] 0) 2) as (rf' & H & _);
    [by vm_compute|by vm_compute|by vm_compute|by vm_compute|].
  exists rf'. split; [exact H|]. vm_compute in H. by simplify_eq.
Defined.

Lemma CommitChecker_delivers_witness :
  ∃ k rf' msgs, checker_run k (log_example <| commitCh := CCWoken |> <| commitIndex := 2 |>)
                = Some rf' ∧ applyCh rf' = msgs ∧ CommandIndex <$> msgs = [1; 2].
Proof.
  destruct (CommitChecker_delivers (log_example <| commitCh := CCWoken |> <| commitIndex := 2 |>))
    as (k & rf' & msgs & Hrun & Hch & _ & Hidx & _); [done|by vm_compute|by vm_compute|].
  exists k, rf', msgs. split; [exact Hrun|]. split; [exact Hch|exact Hidx].
Defined.

Lemma Snapshot_keeps_log_witness :
  ∃ rf', Snapshot (log_example <| commitIndex := 2 |>) 1 [x01] = Ret rf' ∧
         entry_at rf' 2 = Some (mkEntry 2 (Some 8)).
Proof.
  destruct (Snapshot_keeps_log (log_example <| commitIndex := 2 |>) 1 [x01])
    as (rf' & H & _ & Hent & _); [by vm_compute|by vm_compute|].
  exists rf'. split; [exact H|]. rewrite Hent by lia. done.
Defined.

Lemma Snapshot_guard_panics_witness :
  Snapshot (log_example <| commitIndex := 3 |>) 3 [x01] = Panic.
Proof. apply Snapshot_guard_panics; by vm_compute. Defined.

Lemma InstallSnapshot_keeps_suffix_witness :
  ∃ rf' r, InstallSnapshot 0 log_example (snapshot_example 1 2) = Ret (rf', r) ∧
    entry_at rf' 2 = Some (mkEntry 2 (Some 8)).
Proof.
  destruct (InstallSnapshot_keeps_suffix 0 log_example (snapshot_example 1 2))
    as (rf' & H & _ & _ & Hent); [by vm_compute|by vm_compute|].
  exists rf'. eexists. split; [exact H|]. rewrite Hent by (vm_compute; done). done.
Defined.

Lemma InstallSnapshot_stale_head_witness :
  ∃ rf' r e, InstallSnapshot 0 log_example (snapshot_example 5 2) = Ret (rf', r) ∧
    getLastLog rf' = Ret e ∧ le_Term e = -1 ∧ lastIncludedTerm rf' = 2.
Proof.
  destruct (InstallSnapshot_stale_head 0 log_example (snapshot_example 5 2))
    as (rf' & r & e & H & Ht & Hl & He & _); [by vm_compute|by vm_compute|by vm_compute|].
  exists rf', r, e. split; [exact H|]. split; [exact Hl|]. split; [exact He|exact Ht].
Defined.

Lemma InstallSnapshot_goes_back_witness :
  ∃ rf' r, InstallSnapshot 0 (log_example <| lastIncludedIndex := 4 |> <| lastApplied := 6 |>
             <| commitIndex := 6 |>) (snapshot_example 2 2) = Ret (rf', r) ∧
    lastIndex rf' = 2.
Proof.
  destruct (InstallSnapshot_goes_back 0 (log_example <| lastIncludedIndex := 4 |>
    <| lastApplied := 6 |> <| commitIndex := 6 |>) (snapshot_example 2 2))
    as (rf' & r & H & _ & Hl & _); [by vm_compute|by vm_compute|by vm_compute|].
  exists rf', r. split; [exact H|exact Hl].
Defined.
End log_examples.
