(* ===== verification/RaftGhost.v ===== *)
(** * raft: leaders' logs, acknowledgements and commitment

    The history the safety of replicated logs is proved over.  A ghost state keeps the
    log of every leader of a term, the log of every voter at its vote and the
    acknowledgements of [AppendEntries].  [leader_completeness] says that what a majority has acknowledged in
    a term is in the log of every later leader. *)
From S2P Require Import Prelude LabGob Raft.

Section ghost.
Context {C : Type}.
Implicit Types (l p : list (LogEntry C)) (t u : Z) (q i j : Z) (k v w m : nat) (V : gmap (Z * Z) Z).

Record Ghost := mkGhost {
  gL : gmap Z (Z * list (LogEntry C));        (* term: its leader and the leader's log *)
  gW : gmap (Z * Z) (list (LogEntry C));      (* voter and term: the log at the vote *)
  gA : list (Z * Z * nat);                    (* server, term, last index acknowledged *)
}.
Implicit Types G : Ghost.

(** The entry [Make] puts at index 0. *)
Definition head0 : LogEntry C := mkEntry (-1) None.

(** Each entry was appended by the leader of its term, after the same entries. *)
Definition sound G l : Prop :=
  l !! 0%nat = Some head0 ∧
  ∀ k e, (0 < k)%nat → l !! k = Some e →
    ∃ j lt, gL G !! le_Term e = Some (j, lt) ∧ take (S k) l `prefix_of` lt.

Definition ordered_terms l : Prop :=
  ∀ k k' e e', (k ≤ k')%nat → l !! k = Some e → l !! k' = Some e' → le_Term e ≤ le_Term e'.

(** Two logs that differ in the term of an entry. *)
Definition clash p l : Prop :=
  ∃ k e e', p !! k = Some e ∧ l !! k = Some e' ∧ le_Term e ≠ le_Term e'.

(** [l] still begins with [p], or a leader of a term after [t] and up to [T] did not. *)
Definition keeps G t (T : Z) p l : Prop :=
  p `prefix_of` l ∨ ∃ u j lu, t < u ≤ T ∧ gL G !! u = Some (j, lu) ∧ clash p lu.

(** The check of [RequestVote]: the candidate's log is at least as up to date. *)
Definition uptodate lc lv : Prop :=
  ∃ ec ev : LogEntry C, last lc = Some ec ∧ last lv = Some ev ∧
    (le_Term ev < le_Term ec ∨ le_Term ev = le_Term ec ∧ (length lv ≤ length lc)%nat).

(** A majority of the servers has acknowledged index [v] in term [t]. *)
Definition quorum_acked (n : Z) G t v : Prop :=
  ∃ Q : gset Z, n / 2 < Z.of_nat (size Q) ∧
    ∀ q, q ∈ Q → 0 ≤ q < n ∧ ∃ m, (q, t, m) ∈ gA G ∧ (v ≤ m)%nat.

(** What was committed in a term up to [T]. *)
Definition committed (n : Z) G (T : Z) p : Prop :=
  p = [head0] ∨
  ∃ t j l v e, t ≤ T ∧ gL G !! t = Some (j, l) ∧ l !! v = Some e ∧ le_Term e = t ∧
    quorum_acked n G t v ∧ p = take (S v) l.

(** The votes that elected a leader, and what the voters had acknowledged. *)
Definition elected (n : Z) V G t j : Prop :=
  ∃ X : gset Z, n / 2 < Z.of_nat (size X) ∧
    ∀ q, q ∈ X → 0 ≤ q < n ∧ V !! (q, t) = Some j ∧
      ∀ t0 m w j0 l0 lq, (q, t0, m) ∈ gA G → t0 < t → (w ≤ m)%nat →
        gL G !! t0 = Some (j0, l0) → gW G !! (q, t) = Some lq →
        keeps G t0 (t - 1) (take (S w) l0) lq.

Record ghost_ok (n : Z) V G : Prop := {
  ok_leader t j l : gL G !! t = Some (j, l) →
    1 ≤ t ∧ sound G l ∧ ordered_terms l ∧ (∀ k e, l !! k = Some e → le_Term e ≤ t) ∧
    V !! (j, t) = Some j ∧ elected n V G t j ∧
    ∃ lj, gW G !! (j, t) = Some lj ∧ lj `prefix_of` l ∧ (∀ k e, lj !! k = Some e → le_Term e < t);
  ok_vote q t c : V !! (q, t) = Some c →
    ∃ lq lc, gW G !! (q, t) = Some lq ∧ gW G !! (c, t) = Some lc ∧ sound G lq ∧ sound G lc ∧ uptodate lc lq;
  ok_vote_of q t lq : gW G !! (q, t) = Some lq → is_Some (V !! (q, t));
  ok_ack q t m : (q, t, m) ∈ gA G → 0 ≤ q < n ∧ ∃ j l, gL G !! t = Some (j, l) ∧ (m < length l)%nat;
  ok_ack_vote q t m w t' c j l lq : (q, t, m) ∈ gA G → V !! (q, t') = Some c → t < t' → (w ≤ m)%nat →
    gL G !! t = Some (j, l) → gW G !! (q, t') = Some lq → keeps G t t' (take (S w) l) lq;
}.

(** ** Prefixes *)

Lemma prefix_lookup_Some p l k e : p `prefix_of` l → p !! k = Some e → l !! k = Some e.
Proof. intros [l' ->] H. by apply lookup_app_l_Some. Qed.

Lemma clash_prefix p l : clash p l → ¬ p `prefix_of` l.
Proof. intros (k & e & e' & Hp & Hl & Hne) Hpre. pose proof (prefix_lookup_Some _ _ _ _ Hpre Hp). congruence. Qed.

Lemma prefix_both p l lt : p `prefix_of` lt → l `prefix_of` lt → (length p ≤ length l)%nat → p `prefix_of` l.
Proof.
  intros [r Hr] [r' Hr'] Hlen. exists (take (length l - length p) r).
  assert (take (length l) lt = l) as <- by (by rewrite Hr', take_app_length).
  rewrite Hr at 1. rewrite take_app, take_ge by lia. rewrite !length_take. f_equal. f_equal.
  assert (length l ≤ length lt)%nat by (rewrite Hr', length_app; lia). lia.
Qed.

Lemma take_prefix_of l k : take k l `prefix_of` l.
Proof. exists (drop k l). by rewrite take_drop. Qed.

Lemma take_prefix_mono p l k : p `prefix_of` l → (k ≤ length p)%nat → take k l = take k p.
Proof. intros [r ->] Hk. by rewrite take_app_le. Qed.

Lemma clash_mono p l l' : l `prefix_of` l' → clash p l → clash p l'.
Proof.
  intros Hpre (k & e & e' & Hp & Hl & Hne). exists k, e, e'. split_and!; [done| |done].
  by eapply prefix_lookup_Some.
Qed.

Lemma sound_last G l e : sound G l → last l = Some e → le_Term e ≠ -1 →
  ∃ j lt, gL G !! le_Term e = Some (j, lt) ∧ l `prefix_of` lt.
Proof.
  intros [H0 Hs] Hl Hne. rewrite last_lookup in Hl.
  assert (0 < pred (length l))%nat as Hpos.
  { destruct (pred (length l)); [|lia]. rewrite H0 in Hl. injection Hl as <-. done. }
  destruct (Hs _ _ Hpos Hl) as (j & lt & Hlt & Hpre). exists j, lt. split; [done|].
  by rewrite take_ge in Hpre by lia.
Qed.

Lemma sound_ordered n V G l : ghost_ok n V G → sound G l → ordered_terms l.
Proof.
  intros Hok [H0 Hs] k k' e e' Hk He He'. destruct (decide (k' = 0%nat)) as [->|Hk'].
  { assert (k = 0%nat) as -> by lia. rewrite He in He'. injection He' as <-. lia. }
  destruct (Hs k' e') as (j & lt & Hlt & Hpre); [lia|done|].
  destruct (ok_leader _ _ _ Hok _ _ _ Hlt) as (_ & _ & Ho & _).
  apply (Ho k k'); [done|eapply prefix_lookup_Some; [done|]; rewrite lookup_take_lt by lia; done..].
Qed.

(** ** Leader completeness *)

Lemma leader_completeness n V G t j l v e t' j' l' :
  0 ≤ n → ghost_ok n V G →
  gL G !! t = Some (j, l) → l !! v = Some e → le_Term e = t → quorum_acked n G t v →
  t < t' → gL G !! t' = Some (j', l') → take (S v) l `prefix_of` l'.
Proof.
  intros Hn Hok Hl He Ht (Q & HQ & HQs) Hlt Hl'.
  assert (∃ d, t' = t + Z.of_nat d) as [d Hd] by (exists (Z.to_nat (t' - t)); lia).
  revert t' j' l' Hd Hlt Hl'. induction (lt_wf d) as [d _ IH]. intros t' j' l' -> Hlt Hl'.
  set (t' := t + Z.of_nat d) in *.
  assert (∀ u j lu, t < u < t' → gL G !! u = Some (j, lu) → take (S v) l `prefix_of` lu) as IHu.
  { intros u ju lu Hu Hlu. apply (IH (Z.to_nat (u - t)) ltac:(lia) u ju lu); [lia|lia|done]. }
  destruct (ok_leader _ _ _ Hok _ _ _ Hl) as (Ht1 & [Hl0 _] & _ & _).
  destruct (ok_leader _ _ _ Hok _ _ _ Hl') as (_ & _ & _ & _ & _ & (X & HX & HXs) & lj & Hlj & Hpre & Hterms).
  destruct (quorum_intersect n Q X) as (q & HqQ & HqX); [done|intros ? [? _]%HQs; done|intros ? [? _]%HXs; done|done|done|].
  destruct (HQs q HqQ) as (_ & m & Hack & Hvm). destruct (HXs q HqX) as (_ & Hvote & Hkeep).
  destruct (ok_vote _ _ _ Hok _ _ _ Hvote) as (lq & lc & Hlq & Hlc & Hsq & Hsc & (ec & ev & Hec & Hev & Hup)).
  rewrite Hlj in Hlc. injection Hlc as <-.
  destruct (Hkeep t m v j l lq Hack Hlt Hvm Hl Hlq) as [Hpq|(u & ju & lu & Hu & Hlu & Hcl)].
  2: { exfalso. eapply clash_prefix; [done|]. apply (IHu u ju lu); [lia|done]. }
  assert (v < length l)%nat as Hvl by (by eapply lookup_lt_Some).
  assert (lq !! v = Some e) as Heq by (eapply prefix_lookup_Some; [done|]; by rewrite lookup_take_lt by lia).
  pose proof (lookup_lt_Some _ _ _ Heq) as Hvq. rewrite last_lookup in Hev.
  assert (t ≤ le_Term ev) as Htev.
  { rewrite <-Ht. apply (sound_ordered _ _ _ _ Hok Hsq v (pred (length lq))); [lia|done|done]. }
  destruct (sound_last G lj ec Hsc Hec) as (jc & lt & Hlt' & Hplt); [lia|].
  assert (take (S v) l `prefix_of` lj) as Hgoal; [|by etrans].
  destruct Hup as [Hgt|[Heqt Hlen]].
  - (* the candidate's last term is larger *)
    assert (take (S v) l `prefix_of` lt) as Hlt2.
    { apply (IHu (le_Term ec) jc lt); [|done]. rewrite last_lookup in Hec. apply Hterms in Hec. lia. }
    apply (prefix_both _ _ lt); [done|done|]. rewrite length_take.
    destruct (decide (S v ≤ length lj)%nat) as [|Hshort]; [lia|]. exfalso.
    destruct (ok_leader _ _ _ Hok _ _ _ Hlt') as (_ & _ & Hord & _).
    rewrite last_lookup in Hec. pose proof (prefix_lookup_Some _ _ _ _ Hplt Hec) as Hec'.
    assert (lt !! v = Some e) as Hve by (eapply prefix_lookup_Some; [done|]; by rewrite lookup_take_lt by lia).
    pose proof (Hord (pred (length lj)) v _ _ ltac:(lia) Hec' Hve). lia.
  - (* the terms are equal and the candidate's log is longer *)
    destruct (sound_last G lq ev Hsq) as (jq & lt2 & Hlt2 & Hplt2); [by rewrite last_lookup|lia|].
    rewrite Heqt, Hlt' in Hlt2. injection Hlt2 as <- <-. etrans; [done|]. by apply (prefix_both _ _ lt).
Qed.

(** Two committed sequences agree. *)
Lemma committed_agree n V G T T' p p' :
  0 ≤ n → ghost_ok n V G → committed n G T p → committed n G T' p' → p `prefix_of` p' ∨ p' `prefix_of` p.
Proof.
  intros Hn Hok Hp Hp'.
  assert (∀ T p, committed n G T p → [head0] `prefix_of` p) as Hhead.
  { intros T0 p0 [->|(t & j & l & v & e & _ & Hl & _ & _ & _ & ->)]; [done|].
    destruct (ok_leader _ _ _ Hok _ _ _ Hl) as (_ & [H0 _] & _). destruct l as [|x l]; [done|].
    injection H0 as ->. simpl. by apply prefix_cons, prefix_nil. }
  destruct Hp as [->|(t & j & l & v & e & _ & Hl & He & Ht & Hq & ->)]; [left; by eapply Hhead|].
  destruct Hp' as [->|(t' & j' & l' & v' & e' & _ & Hl' & He' & Ht' & Hq' & ->)].
  { right. eapply Hhead. right. exists t, j, l, v, e. split_and!; [reflexivity|done..]. }
  assert (∀ l v v', take (S v) l `prefix_of` take (S v') l ∨ take (S v') l `prefix_of` take (S v) l) as Htk.
  { intros l0 a b. destruct (decide (a ≤ b)%nat); [left|right].
    - exists (drop (S a) (take (S b) l0)).
      rewrite <-(take_drop (S a) (take (S b) l0)) at 1. by rewrite take_take, Nat.min_l by lia.
    - exists (drop (S b) (take (S a) l0)).
      rewrite <-(take_drop (S b) (take (S a) l0)) at 1. by rewrite take_take, Nat.min_l by lia. }
  assert (∀ t j l v e t' j' l' v', gL G !! t = Some (j, l) → l !! v = Some e → le_Term e = t → quorum_acked n G t v →
    gL G !! t' = Some (j', l') → t < t' →
    take (S v) l `prefix_of` take (S v') l' ∨ take (S v') l' `prefix_of` take (S v) l) as Hlt.
  { clear -Hn Hok. intros t j l v e t' j' l' v' Hl He Ht Hq Hl' Hlt.
    pose proof (leader_completeness _ _ _ _ _ _ _ _ _ _ _ Hn Hok Hl He Ht Hq Hlt Hl') as Hpre.
    destruct (decide (length (take (S v) l) ≤ length (take (S v') l'))%nat); [left|right];
      (apply (prefix_both _ _ l'); [| |lia]); first [exact Hpre|apply take_prefix_of]. }
  destruct (Z.lt_trichotomy t t') as [?|[Heq|?]].
  - by eapply Hlt.
  - rewrite Heq, Hl' in Hl. injection Hl as <- <-. apply Htk.
  - destruct (Hlt t' j' l' v' e' t j l v) as [?|?]; [done..|by right|by left].
Qed.
(** ** Growth *)

(** Leaders' logs grow at the end, votes and acknowledgements stay. *)
Definition ext G G' : Prop :=
  (∀ t j l, gL G !! t = Some (j, l) → ∃ l', gL G' !! t = Some (j, l') ∧ l `prefix_of` l') ∧
  gW G ⊆ gW G' ∧ (∀ a, a ∈ gA G → a ∈ gA G').

#[export] Instance ext_preorder : PreOrder ext.
Proof.
  split.
  - intros G. split_and!; [|done|done]. intros t j l Hl. by exists l.
  - intros G1 G2 G3 (HL1 & HW1 & HA1) (HL2 & HW2 & HA2). split_and!; [|by etrans|auto].
    intros t j l (l2 & Hl2 & Hp2)%HL1. destruct (HL2 _ _ _ Hl2) as (l3 & Hl3 & Hp3). exists l3. split; [done|by etrans].
Qed.

Lemma sound_ext G G' l : ext G G' → sound G l → sound G' l.
Proof.
  intros (HL & _) [H0 Hs]. split; [done|]. intros k e Hk He. destruct (Hs k e Hk He) as (j & lt & Hlt & Hp).
  destruct (HL _ _ _ Hlt) as (lt' & Hlt' & Hp'). exists j, lt'. split; [done|by etrans].
Qed.

Lemma keeps_ext G G' t T p l : ext G G' → keeps G t T p l → keeps G' t T p l.
Proof.
  intros (HL & _) [?|(u & j & lu & Hu & Hlu & Hc)]; [by left|right].
  destruct (HL _ _ _ Hlu) as (lu' & Hlu' & Hp). exists u, j, lu'. split_and!; [lia|lia|done|by eapply clash_mono].
Qed.

Lemma keeps_later G t T T' p l : T ≤ T' → keeps G t T p l → keeps G t T' p l.
Proof. intros HT [?|(u & j & lu & Hu & ?)]; [by left|right]. exists u, j, lu. split; [lia|done]. Qed.

Lemma quorum_acked_ext n G G' t v : ext G G' → quorum_acked n G t v → quorum_acked n G' t v.
Proof. intros (_ & _ & HA) (Q & HQ & HQs). exists Q. split; [done|]. intros q Hq. destruct (HQs q Hq) as (? & m & ? & ?). eauto. Qed.

Lemma committed_ext n G G' T p : ext G G' → committed n G T p → committed n G' T p.
Proof.
  intros HG [->|(t & j & l & v & e & Ht & Hl & He & Hte & Hq & ->)]; [by left|right].
  destruct (proj1 HG _ _ _ Hl) as (l' & Hl' & Hp). exists t, j, l', v, e. split_and!; [done|done| |done| |].
  - by eapply prefix_lookup_Some.
  - by eapply quorum_acked_ext.
  - symmetry. apply take_prefix_mono; [done|]. apply lookup_lt_Some in He. lia.
Qed.

Lemma committed_later n G T T' p : T ≤ T' → committed n G T p → committed n G T' p.
Proof. intros HT [->|(t & j & l & v & e & ? & ?)]; [by left|right]. exists t, j, l, v, e. split; [lia|done]. Qed.

(** A command in the log of a leader, after the first entry. *)
Definition logged G (c : option C) : Prop :=
  ∃ t j l k e, gL G !! t = Some (j, l) ∧ l !! S k = Some e ∧ le_Command e = c.

(** The history grows, and the commands that are new satisfy [P]. *)
Definition grows (P : option C → Prop) G G' : Prop := ext G G' ∧ ∀ c, logged G' c → logged G c ∨ P c.

#[export] Instance grows_refl P : Reflexive (grows P).
Proof. intros G. split; [done|auto]. Qed.

Lemma grows_ext P G G' : grows P G G' → ext G G'.
Proof. by intros [? _]. Qed.

Lemma grows_same P G G' : ext G G' → gL G' = gL G → grows P G G'.
Proof. intros HG HL. split; [done|]. intros c (t & j & l & k & e & Hl & ?). left. exists t, j, l, k, e. by rewrite <-HL. Qed.

(** What is committed was logged. *)
Lemma committed_logged n G T p k e : committed n G T p → p !! S k = Some e → logged G (le_Command e).
Proof.
  intros [->|(t & j & l & v & ev & _ & Hl & _ & _ & _ & ->)] He; [done|].
  exists t, j, l, k, e. split_and!; [done| |done]. eapply prefix_lookup_Some; [apply take_prefix_of|exact He].
Qed.

(** A log whose entries were all appended by leaders. *)
Lemma sound_logged G l k e : sound G l → l !! S k = Some e → logged G (le_Command e).
Proof.
  intros [_ Hs] He. destruct (Hs (S k) e) as (j & lt & Hlt & Hp); [lia|done|].
  exists (le_Term e), j, lt, k, e. split_and!; [done| |done].
  eapply prefix_lookup_Some; [done|]. by rewrite lookup_take_lt by lia.
Qed.

(** ** What the steps of the cluster do to the history *)

(** A first vote of [q] in term [t]. *)
Lemma ghost_vote n V G q t c lq lc :
  ghost_ok n V G → V !! (q, t) = None → sound G lq → sound G lc → uptodate lc lq →
  (if decide (c = q) then lc = lq else gW G !! (c, t) = Some lc) →
  (∀ t0 m w j0 l0, (q, t0, m) ∈ gA G → t0 < t → (w ≤ m)%nat → gL G !! t0 = Some (j0, l0) →
     keeps G t0 t (take (S w) l0) lq) →
  let G' := mkGhost (gL G) (<[(q, t) := lq]> (gW G)) (gA G) in
  ghost_ok n (<[(q, t) := c]> V) G' ∧ ext G G'.
Proof.
  intros Hok HV Hsq Hsc Hup Hlc Hk G'.
  assert (gW G !! (q, t) = None) as HW.
  { destruct (gW G !! (q, t)) eqn:E; [|done]. apply (ok_vote_of _ _ _ Hok) in E as [? E]. congruence. }
  assert (ext G G') as Hext.
  { split_and!; [intros t0 j l Hl; by exists l|by apply insert_subseteq|done]. }
  assert (V ⊆ <[(q, t) := c]> V) as HVs by (by apply insert_subseteq).
  assert (∀ q0 t0 x, V !! (q0, t0) = Some x → gW G' !! (q0, t0) = gW G !! (q0, t0)) as Hsame.
  { intros q0 t0 x Hx. apply lookup_insert_ne. congruence. }
  split; [|done]. destruct Hok as [Hl Hv Hd Ha Hav]. split.
  - intros t0 j l Hl0. destruct (Hl t0 j l Hl0) as (? & Hs & ? & ? & HVj & (X & HX & HXs) & lj & Hlj & ?).
    split_and!; [done|by eapply sound_ext|done|done|by eapply lookup_weaken| |].
    + exists X. split; [done|]. intros q0 (? & Hq0 & Hkeep)%HXs. split_and!; [lia|lia|by eapply lookup_weaken|].
      intros t1 m w j0 l0 lq0. rewrite (Hsame _ _ _ Hq0). intros. eapply keeps_ext; [done|]. by eapply Hkeep.
    + exists lj. split; [|done]. rewrite (Hsame _ _ _ HVj). done.
  - intros q0 t0 c0 [[E <-]|[Hne Hq0]]%lookup_insert_Some.
    + injection E as <- <-. exists lq, lc. simpl. rewrite lookup_insert_eq. split_and!; [done| |by eapply sound_ext..|done].
      case_decide as Hcq; [subst c lc; by rewrite lookup_insert_eq|]. by rewrite lookup_insert_ne by congruence.
    + destruct (Hv _ _ _ Hq0) as (l1 & l2 & H1 & H2 & ? & ? & ?). exists l1, l2.
      split_and!; [eapply lookup_weaken; [done|apply Hext]|eapply lookup_weaken; [done|apply Hext]|by eapply sound_ext|by eapply sound_ext|done].
  - intros q0 t0 l0. simpl. destruct (decide ((q0, t0) = (q, t))) as [->|].
    + rewrite !lookup_insert_eq. by eexists.
    + rewrite !lookup_insert_ne by congruence. apply Hd.
  - done.
  - intros q0 t0 m w t' c0 j l lq0 Hack HV' Hlt Hw Hlj. apply lookup_insert_Some in HV' as [[E <-]|[Hne HV']].
    + injection E as <- <-. simpl. rewrite lookup_insert_eq. intros [= <-]. eapply keeps_ext; [done|]. by eapply Hk.
    + rewrite (Hsame _ _ _ HV'). intros. eapply keeps_ext; [done|]. by eapply Hav.
Qed.

(** The first leader of a term. *)
Lemma ghost_elect n V G i t l (X : gset Z) :
  ghost_ok n V G → gL G !! t = None → 1 ≤ t → gW G !! (i, t) = Some l → V !! (i, t) = Some i →
  (∀ k e, l !! k = Some e → le_Term e < t) →
  n / 2 < Z.of_nat (size X) → (∀ q, q ∈ X → 0 ≤ q < n ∧ V !! (q, t) = Some i) →
  let G' := mkGhost (<[t := (i, l)]> (gL G)) (gW G) (gA G) in
  ghost_ok n V G' ∧ ext G G'.
Proof.
  intros Hok HL Ht HW HV Hterms HX HXs G'.
  assert (ext G G') as Hext.
  { split_and!; [|done|done]. intros t0 j l0 Hl0. exists l0. split; [|done]. simpl. rewrite lookup_insert_ne by congruence. done. }
  assert (∀ q t0 m j0 l0, (q, t0, m) ∈ gA G → gL G' !! t0 = Some (j0, l0) → gL G !! t0 = Some (j0, l0)) as Hsame.
  { intros q t0 m j0 l0 (_ & j & l1 & Hl1 & _)%(ok_ack _ _ _ Hok). simpl. by rewrite lookup_insert_ne by congruence. }
  split; [|done].
  assert (sound G l) as Hs by (destruct (ok_vote _ _ _ Hok _ _ _ HV) as (lq & ? & Hlq & _ & Hsq & _); congruence).
  pose proof (sound_ordered _ _ _ _ Hok Hs) as Hord. pose proof Hok as [Hl Hv Hd Ha Hav]. split.
  - intros t0 j l0 Hl0. simpl in Hl0. apply lookup_insert_Some in Hl0 as [[<- [= <- <-]]|[Hne Hl0]].
    + split_and!; [done|by eapply sound_ext|done|intros k e He%Hterms; lia|done| |by exists l].
      exists X. split; [done|]. intros q Hq. destruct (HXs q Hq) as [Hqn HVq]. split_and!; [lia|lia|done|].
      intros t0 m w j0 l0 lq Hack Hlt Hw Hl0%(Hsame _ _ _ _ _ Hack) Hlq.
      destruct (Hav _ _ _ _ _ _ _ _ _ Hack HVq Hlt Hw Hl0 Hlq) as [?|(u & ju & lu & Hu & Hlu & ?)]; [by left|right].
      assert (u ≠ t) by congruence. exists u, ju, lu. split_and!; [lia|lia| |done].
      simpl. by rewrite lookup_insert_ne.
    + destruct (Hl t0 j l0 Hl0) as (? & ? & ? & ? & ? & (X0 & HX0 & HXs0) & ?).
      split_and!; [done|by eapply sound_ext|done|done|done| |done]. exists X0. split; [done|].
      intros q (? & ? & Hkeep)%HXs0. split_and!; [lia|lia|done|]. intros t1 m w j0 l1 lq Hack ? ? Hl1%(Hsame _ _ _ _ _ Hack) ?.
      eapply keeps_ext; [done|]. by eapply Hkeep.
  - intros q t0 c (lq & lc & ? & ? & ? & ? & ?)%Hv. exists lq, lc. split_and!; [done|done|by eapply sound_ext..|done].
  - done.
  - intros q t0 m (? & j & l0 & Hl0 & ?)%Ha. split; [done|]. destruct (proj1 Hext _ _ _ Hl0) as (l' & ? & ?%prefix_length).
    exists j, l'. split; [done|lia].
  - intros q t0 m w t' c j l0 lq Hack ? ? ? Hl0%(Hsame _ _ _ _ _ Hack) ?. eapply keeps_ext; [done|]. by eapply Hav.
Qed.
(** An acknowledgement by a server that has not voted in a later term. *)
Lemma ghost_ack n V G q t m j l :
  ghost_ok n V G → gL G !! t = Some (j, l) → (m < length l)%nat → 0 ≤ q < n →
  (∀ t1 c, V !! (q, t1) = Some c → t1 ≤ t) →
  let G' := mkGhost (gL G) (gW G) ((q, t, m) :: gA G) in
  ghost_ok n V G' ∧ ext G G'.
Proof.
  intros Hok Hl Hm Hq HV G'.
  assert (ext G G') as Hext by (split_and!; [intros t0 j0 l0 Hl0; by exists l0|done|intros a Ha; by right]).
  split; [|done]. destruct Hok as [HL Hv Hd Ha Hav]. split.
  - intros t0 j0 l0 Hl0. destruct (HL t0 j0 l0 Hl0) as (? & ? & ? & ? & ? & (X & HX & HXs) & ?).
    split_and!; [done|by eapply sound_ext|done|done|done| |done]. exists X. split; [done|].
    intros q0 (? & Hq0 & Hkeep)%HXs. split_and!; [lia|lia|done|].
    intros t1 m0 w j1 l1 lq [[= -> -> ->]|Hack]%elem_of_cons Hlt; [apply HV in Hq0; lia|].
    intros. eapply keeps_ext; [done|]. by eapply Hkeep.
  - intros q0 t0 c (lq & lc & ? & ? & ? & ? & ?)%Hv. exists lq, lc. split_and!; [done|done|by eapply sound_ext..|done].
  - done.
  - intros q0 t0 m0 [[= -> -> ->]|?]%elem_of_cons; [|by apply Ha]. split; [done|]. by exists j, l.
  - intros q0 t0 m0 w t' c j0 l0 lq [[= -> -> ->]|Hack]%elem_of_cons HV' Hlt; [apply HV in HV'; lia|].
    intros. eapply keeps_ext; [done|]. by eapply Hav.
Qed.

(** The leader of a term appends an entry. *)
Lemma ghost_append n V G t i l e :
  ghost_ok n V G → gL G !! t = Some (i, l) → le_Term e = t →
  let G' := mkGhost (<[t := (i, l ++ [e])]> (gL G)) (gW G) (gA G) in
  ghost_ok n V G' ∧ ext G G'.
Proof.
  intros Hok Hl He G'.
  assert (ext G G') as Hext.
  { split_and!; [|done|done]. intros t0 j0 l0 Hl0. simpl. destruct (decide (t0 = t)) as [->|].
    - rewrite lookup_insert_eq. rewrite Hl in Hl0. injection Hl0 as <- <-. eexists. split; [done|]. by eexists.
    - exists l0. by rewrite lookup_insert_ne by done. }
  assert (∀ q t0 m w j0 l0, (q, t0, m) ∈ gA G → (w ≤ m)%nat → gL G' !! t0 = Some (j0, l0) →
    ∃ l1, gL G !! t0 = Some (j0, l1) ∧ take (S w) l0 = take (S w) l1) as Hsame.
  { intros q t0 m w j0 l0 (_ & j1 & l1 & Hl1 & Hlen)%(ok_ack _ _ _ Hok) Hw Hl0.
    destruct (proj1 Hext _ _ _ Hl1) as (l1' & Hl1' & Hp). rewrite Hl1' in Hl0. injection Hl0 as <- <-.
    exists l1. split; [done|]. apply take_prefix_mono; [done|lia]. }
  split; [|done]. destruct Hok as [HL Hv Hd Ha Hav]. split.
  - intros t0 j0 l0 Hl0. assert (∃ l1, gL G !! t0 = Some (j0, l1) ∧ (l0 = l1 ∨ t0 = t ∧ l0 = l1 ++ [e])) as (l1 & Hl1 & Hc).
    { simpl in Hl0. apply lookup_insert_Some in Hl0 as [[<- [= <- <-]]|[Hne Hl0]]; eauto. }
    destruct (HL t0 j0 l1 Hl1) as (? & Hs & Hord & Hterms & ? & (X & HX & HXs) & lj & ? & Hpre & ?).
    assert (sound G' l1) as [Hs0 Hs1] by (by eapply sound_ext).
    assert (∀ k x, (l1 ++ [e]) !! k = Some x → l1 !! k = Some x ∨ k = length l1 ∧ x = e) as Happ.
    { intros k x [?|[? E]]%lookup_app_Some; [by left|right].
      apply list_lookup_singleton_Some in E as [? <-]. split; [lia|done]. }
    split_and!; [done|..|done| |exists lj; split_and!; [done| |done]].
    + destruct Hc as [->|[-> ->]]; [done|]. split; [by apply lookup_app_l_Some|].
      intros k x Hk [Hx|[-> ->]]%Happ.
      * rewrite take_app_le by (apply lookup_lt_Some in Hx; lia). by apply Hs1.
      * exists j0, (l1 ++ [e]). rewrite He. split; [done|]. by rewrite take_ge by (rewrite length_app; simpl; lia).
    + destruct Hc as [->|[-> ->]]; [done|]. intros k k' x x' Hkk [Hx|[-> ->]]%Happ [Hx'|[-> ->]]%Happ.
      * by apply (Hord k k').
      * rewrite He. by eapply Hterms.
      * apply lookup_lt_Some in Hx'. lia.
      * lia.
    + destruct Hc as [->|[-> ->]]; [done|]. intros k x [Hx|[-> ->]]%Happ; [by eapply Hterms|lia].
    + exists X. split; [done|]. intros q (? & ? & Hkeep)%HXs. split_and!; [lia|lia|done|].
      intros t1 m w j1 l2 lq Hack ? Hw Hl2. destruct (Hsame _ _ _ _ _ _ Hack Hw Hl2) as (l3 & ? & ->).
      intros. eapply keeps_ext; [done|]. by eapply Hkeep.
    + destruct Hc as [->|[-> ->]]; [done|]. by apply prefix_app_r.
  - intros q t0 c (lq & lc & ? & ? & ? & ? & ?)%Hv. exists lq, lc. split_and!; [done|done|by eapply sound_ext..|done].
  - done.
  - intros q t0 m (? & j & l0 & Hl0 & ?)%Ha. split; [done|]. destruct (proj1 Hext _ _ _ Hl0) as (l' & ? & ?%prefix_length).
    exists j, l'. split; [done|lia].
  - intros q t0 m w t' c j0 l0 lq Hack ? ? Hw Hl0 ?. destruct (Hsame _ _ _ _ _ _ Hack Hw Hl0) as (l3 & ? & ->).
    eapply keeps_ext; [done|]. by eapply Hav.
Qed.
End ghost.
Arguments Ghost : clear implicits.
