(* ===== verification/RaftReplicate.v ===== *)
(** * raft: merging a leader's entries into a full log

    What [AppendEntries] ([src/src/raft/append.go]) does to the full log of a follower:
    the result begins with the leader's log up to the last entry sent, keeps what the
    follower had acknowledged unless the leader's log differs from it, and keeps what was
    committed. *)
From S2P Require Import Prelude LabGob Raft RaftVote RaftAppend RaftSnapshot RaftNode RaftLog RaftGhost.

Section replicate.
Context {C : Type}.
Implicit Types (l p F es : list (LogEntry C)) (t : Z) (k v prev : nat) (G : Ghost C).

(** Logs with entries of one term at an index agree up to it. *)
Lemma same_term_same_log G l1 l2 k e1 e2 :
  sound G l1 → sound G l2 → l1 !! k = Some e1 → l2 !! k = Some e2 → le_Term e1 = le_Term e2 →
  take (S k) l1 = take (S k) l2.
Proof.
  intros [H1 Hs1] [H2 Hs2] He1 He2 Ht. destruct (decide (k = 0%nat)) as [->|Hk].
  - destruct l1, l2; try done. simplify_eq/=. by rewrite !take_0.
  - destruct (Hs1 k e1) as (j1 & lt1 & Hl1 & Hp1); [lia|done|].
    destruct (Hs2 k e2) as (j2 & lt2 & Hl2 & Hp2); [lia|done|].
    rewrite Ht, Hl2 in Hl1. injection Hl1 as <- <-.
    apply lookup_lt_Some in He1, He2.
    assert (length (take (S k) l1) = length (take (S k) l2)) as Hlen by (rewrite !length_take; lia).
    destruct (prefix_both _ _ _ Hp1 Hp2) as [r Hr]; [lia|]. apply (f_equal length) in Hr as Hr'.
    rewrite length_app in Hr'. destruct r; [by rewrite app_nil_r in Hr|simpl in Hr'; lia].
Qed.

Lemma agree_stop l es (c := agree l es) :
  (c < length es)%nat →
  l !! c = None ∨ ∃ x y, l !! c = Some x ∧ es !! c = Some y ∧ le_Term x ≠ le_Term y.
Proof.
  subst c. revert es. induction l as [|x l IH]; intros [|y es]; simpl; try lia; [by left|].
  destruct (Z.eqb_spec (le_Term x) (le_Term y)) as [|Hne]; simpl.
  - intros. apply IH. lia.
  - intros _. right. by exists x, y.
Qed.

Lemma merge_drop F (a k : nat) es :
  (a ≤ length F)%nat → merge (drop a F) k es = drop a (merge F (a + k) es).
Proof.
  intros Ha. unfold merge. rewrite drop_drop. set (c := agree _ es). case_decide; [done|].
  rewrite drop_app_le by (rewrite length_take; lia). f_equal.
  by rewrite take_drop_commute, Nat.add_assoc.
Qed.

(** The leader's entries [es] follow index [prev] of its log [l]. *)
Definition sent l prev es : Prop := take (S prev) l ++ es `prefix_of` l.

Lemma sent_lookup l prev es (c : nat) y : sent l prev es → (prev < length l)%nat → es !! c = Some y → l !! (S prev + c)%nat = Some y.
Proof.
  intros Hs Hp Hy. eapply prefix_lookup_Some; [exact Hs|].
  rewrite lookup_app_r by (rewrite length_take; lia). rewrite <-Hy. f_equal. rewrite length_take. lia.
Qed.

Lemma sent_take l prev es : sent l prev es → (prev < length l)%nat →
  take (S prev + length es) l = take (S prev) l ++ es.
Proof.
  intros Hs Hp. rewrite (take_prefix_mono _ _ _ Hs) by (rewrite length_app, length_take; lia).
  apply take_ge. rewrite length_app, length_take. lia.
Qed.

(** How the follower's log [F] and the result [F'] relate: nothing changes, or the
    log becomes the leader's, which extends it or differs at [k]. *)
Definition merged l (T : list (LogEntry C)) F F' : Prop :=
  F' = F ∨ (F' = T ∧ F `prefix_of` T) ∨
  (F' = T ∧ ∃ k x y, (0 < k)%nat ∧ take k F = take k T ∧ F !! k = Some x ∧ T !! k = Some y ∧ l !! k = Some y ∧
     le_Term x ≠ le_Term y).

Lemma merge_sound G t j l prev es F e x :
  sound G F → gL G !! t = Some (j, l) → sound G l → sent l prev es →
  l !! prev = Some e → F !! prev = Some x → le_Term x = le_Term e →
  let T := take (S prev + length es) l in
  let F' := merge F (S prev) es in
  sound G F' ∧ T `prefix_of` F' ∧ merged l T F F'.
Proof.
  intros HF Hl Hsl Hsent He Hx Hterm T F'.
  pose proof (same_term_same_log G F l prev x e HF Hsl Hx He Hterm) as Hagree.
  assert (prev < length l)%nat as Hpl by (by eapply lookup_lt_Some).
  assert (prev < length F)%nat as HpF by (by eapply lookup_lt_Some).
  set (c := agree (drop (S prev) F) es).
  destruct (agree_le (drop (S prev) F) es) as [HcF Hces]. fold c in HcF, Hces. rewrite length_drop in HcF.
  assert (take (S prev + c) F = take (S prev + c) l) as Hc.
  { destruct c as [|c'] eqn:Ec; [by rewrite Nat.add_0_r|].
    destruct (agree_lookup (drop (S prev) F) es c') as (a & b & Ha & Hb & Hab); [fold c; lia|].
    rewrite lookup_drop in Ha. pose proof (sent_lookup _ _ _ _ _ Hsent Hpl Hb) as Hb'.
    rewrite Nat.add_succ_r. by apply (same_term_same_log G F l (S prev + c') a b). }
  assert (sound G T) as HT.
  { destruct Hsl as [H0 Hs]. unfold T. split; [by rewrite lookup_take_lt by lia|]. intros k y Hk Hy.
    apply lookup_take_Some in Hy as [Hy Hlt]. destruct (Hs k y Hk Hy) as (jt & lt & ? & Hp). exists jt, lt. split; [done|].
    rewrite take_take, Nat.min_l by lia. done. }
  unfold F', merge. fold c. case_decide as Hall.
  - rewrite Hall in Hc. split_and!; [done| |by left]. unfold T. rewrite <-Hc. apply take_prefix_of.
  - assert (take (S prev + c) F ++ drop c es = T) as ->.
    { rewrite Hc. unfold T. rewrite (sent_take _ _ _ Hsent Hpl).
      rewrite (take_prefix_mono _ _ (S prev + c) Hsent) by (rewrite length_app, length_take; lia).
      rewrite take_app, length_take, Nat.min_l, take_ge by (rewrite ?length_take; lia).
      replace (S prev + c - S prev)%nat with c by lia. by rewrite <-app_assoc, take_drop. }
    split_and!; [done|done|]. right.
    destruct (agree_stop (drop (S prev) F) es) as [Hend|(a & b & Ha & Hb & Hab)]; [fold c; lia|..].
    + fold c in Hend. left. split; [done|]. apply lookup_ge_None in Hend. rewrite length_drop in Hend.
      rewrite <-(take_ge F (S prev + c)) by lia. rewrite Hc. unfold T.
      rewrite <-(take_drop (S prev + c) (take (S prev + length es) l)), take_take, Nat.min_l by lia. by eexists.
    + fold c in Ha, Hb. right. split; [done|]. rewrite lookup_drop in Ha. pose proof (sent_lookup _ _ _ _ _ Hsent Hpl Hb) as Hb'.
      exists (S prev + c)%nat, a, b. split_and!; [lia| |done| |done|done].
      * rewrite Hc. unfold T. by rewrite take_take, Nat.min_l by lia.
      * unfold T. by rewrite lookup_take_lt by lia.
Qed.

(** What the follower had acknowledged is kept, or the leader's log differs from it. *)
Lemma merged_keeps G t j l T F F' t0 T0 p :
  gL G !! t = Some (j, l) → merged l T F F' →
  T0 ≤ t → (t0 < t ∨ p `prefix_of` l) → keeps G t0 T0 p F → keeps G t0 t p F'.
Proof.
  intros Hl Hm HT Ht0 Hk. apply (keeps_later _ _ _ t) in Hk; [|done].
  destruct Hk as [Hp|Hk]; [|by right].
  destruct Hm as [->|[[-> HF]|[-> (k & x & y & _ & Htk & Hx & HTy & Hy & Hne)]]]; [by left|left; by etrans|].
  destruct (decide (length p ≤ k)%nat) as [Hlen|Hlen].
  - left. transitivity (take k T); [|apply take_prefix_of]. rewrite <-Htk. destruct Hp as [r ->].
    exists (take (k - length p) r). by rewrite take_app, take_ge by lia.
  - assert (clash p l) as Hcl.
    { destruct (lookup_lt_is_Some_2 p k) as [x' Hx']; [lia|]. exists k, x', y. split_and!; [done..|].
      pose proof (prefix_lookup_Some _ _ _ _ Hp Hx'). congruence. }
    destruct Ht0 as [Hlt|Hpl]; [|exfalso; by eapply clash_prefix]. right. exists t, j, l. split_and!; [lia|lia|done|done].
Qed.
(** What was committed when the leader was elected is in its log. *)
Lemma committed_in_leader n V G T t j l p :
  0 ≤ n → ghost_ok n V G → committed n G T p → T ≤ t → gL G !! t = Some (j, l) → p `prefix_of` l.
Proof.
  intros Hn Hok [->|(t0 & j0 & l0 & v & e & Ht & Hl0 & He & Hte & Hq & ->)] HT Hl.
  - destruct (ok_leader _ _ _ Hok _ _ _ Hl) as (_ & [H0 _] & _). destruct l as [|x l]; [done|].
    injection H0 as ->. by apply prefix_cons, prefix_nil.
  - destruct (decide (t0 = t)) as [->|Hne].
    + rewrite Hl in Hl0. injection Hl0 as <- <-. apply take_prefix_of.
    + by eapply (leader_completeness n V G t0 j0 l0 v e t j l); first [done|lia].
Qed.

(** The committed entries of the follower survive the merge. *)
Lemma merged_committed l T F F' (c : nat) p :
  T `prefix_of` l → merged l T F F' → (c < length F)%nat → take (S c) F `prefix_of` p → p `prefix_of` l →
  (c < length F')%nat ∧ take (S c) F' = take (S c) F.
Proof.
  intros HT Hm Hc HF Hp.
  destruct Hm as [->|[[-> Hpre]|[-> (k & x & y & _ & Htk & Hx & HTy & Hy & Hne)]]]; [done|..].
  - pose proof (prefix_length _ _ Hpre). split; [lia|]. apply take_prefix_mono; [done|lia].
  - destruct (decide (c < k)%nat) as [Hlt|Hge].
    + apply lookup_lt_Some in HTy. split; [lia|].
      replace (S c) with (Nat.min (S c) k) by lia. by rewrite <-!take_take, Htk.
    + exfalso. apply Hne. assert (take (S c) F !! k = Some x) as Hx' by (by rewrite lookup_take_lt by lia).
      apply (prefix_lookup_Some _ _ _ _ HF), (prefix_lookup_Some _ _ _ _ Hp) in Hx'. congruence.
Qed.
End replicate.
