(* ===== verification/RaftInvariant.v ===== *)
(** * raft: the invariant of replicated logs

    What every state of a cluster satisfies about logs, over a history of leaders'
    logs, votes and acknowledgements ([RaftGhost]).  The log of a node is a suffix of
    a full log [F] that starts at index 0.  Sections of this file: the invariant,
    what the critical sections leave alone, and how one step of one node keeps the
    invariant of the others. *)
From Stdlib Require Import Init.Byte.
From S2P Require Import Prelude LabGob Raft RaftVote RaftAppend RaftSnapshot RaftNode.
From S2P Require Import RaftFrames RaftSystem RaftElection RaftLog RaftGhost RaftReplicate.

Section invariant.
Context {C : Type} {gob : Gob (RaftGob C)}.
Implicit Types (rf : Raft C) (s : Sys C) (t : Task C) (ts : list (Task C)).
Implicit Types (l p F es : list (LogEntry C)) (G : Ghost C) (V : gmap (Z * Z) Z).

(** ** The invariant *)

(** The messages [CommitChecker] holds and has not sent. *)
Definition pending (ph : CommitPhase C) : list (ApplyMsg C) :=
  match ph with CCSend buf | CCSent _ buf => buf | _ => [] end.

Definition delivered rf : list (ApplyMsg C) := applyCh rf ++ pending (commitCh rf).

(** The message of a committed entry. *)
Definition applied (n : Z) G (T : Z) (m : ApplyMsg C) : Prop :=
  ∃ p e, committed n G T p ∧ 0 ≤ CommandIndex m ∧ p !! Z.to_nat (CommandIndex m) = Some e ∧
    m = mkApplyMsg true (le_Command e) (CommandIndex m) (le_Term e) false [] 0 0.

Record node_safe (n : Z) G F (i : Z) rf : Prop := {
  ns_sound : sound G F;
  ns_log : log rf = drop (Z.to_nat (lastIncludedIndex rf)) F;
  ns_base : 0 ≤ lastIncludedIndex rf ≤ commitIndex rf;
  ns_pos : 1 ≤ currentTerm rf;
  ns_terms k e : F !! k = Some e → le_Term e ≤ currentTerm rf;
  ns_leads l : gL G !! currentTerm rf = Some (i, l) → F = l;
  ns_voted : votedFor rf = i → gL G !! currentTerm rf = None →
    gW G !! (i, currentTerm rf) = Some F;
  ns_leader : state rf = Leader → ∃ l, gL G !! currentTerm rf = Some (i, l);
  ns_acks u m w j l : (i, u, m) ∈ gA G → (w ≤ m)%nat → gL G !! u = Some (j, l) →
    u ≤ currentTerm rf ∧ keeps G u (currentTerm rf) (take (S w) l) F;
  ns_commit : (Z.to_nat (commitIndex rf) < length F)%nat ∧
    ∃ p, committed n G (currentTerm rf) p ∧ take (S (Z.to_nat (commitIndex rf))) F `prefix_of` p;
  ns_msgs m : m ∈ delivered rf → applied n G (currentTerm rf) m;
  ns_snap : snapMsgs rf = [];
  ns_lens : len (matchIndex rf) = n ∧ len (nextIndex rf) = n;
}.

(** The requests of a leader, whatever their goroutine has come to. *)
Definition append_key t : option (Z * AppendEntriesArgs C) :=
  match t with TAppend o _ args _ => Some (o, args) | _ => None end.

(** What a leader, or a node that waits for replies to requests of its term, believes
    its followers hold, they have acknowledged. *)
Definition match_safe G ts (i : Z) rf : Prop :=
  (state rf = Leader ∨ ∃ t args, t ∈ ts ∧ append_key t = Some (i, args) ∧ ae_Term args = currentTerm rf) →
  ∀ q m, q ≠ i → zlookup (matchIndex rf) q = Some m → 0 < m → (q, currentTerm rf, Z.to_nat m) ∈ gA G.

Definition vote_safe G (o : Z) (args : RequestVoteArgs) : Prop :=
  ∃ lc e, gW G !! (o, rv_Term args) = Some lc ∧ last lc = Some e ∧
    le_Term e = rv_LastLogTerm args ∧ rv_LastLogIndex args = len lc.

Definition append_safe (n : Z) G (o : Z) (args : AppendEntriesArgs C) : Prop :=
  0 ≤ ae_PrevLogIndex args ∧ 0 ≤ ae_LeaderCommit args ≤ ae_PrevLogIndex args + len (ae_Entries args) ∧
  ∃ l e p, gL G !! ae_Term args = Some (o, l) ∧
    l !! Z.to_nat (ae_PrevLogIndex args) = Some e ∧ le_Term e = ae_PrevLogTerm args ∧
    sent l (Z.to_nat (ae_PrevLogIndex args)) (ae_Entries args) ∧
    committed n G (ae_Term args) p ∧ take (S (Z.to_nat (ae_LeaderCommit args))) l `prefix_of` p.

Definition last_sent (args : AppendEntriesArgs C) : Z := ae_PrevLogIndex args + len (ae_Entries args).

(** No [InstallSnapshot] call has been answered. *)
Definition task_safe (n : Z) G t : Prop :=
  match t with
  | TVote o _ (Calling args) | TVote o _ (Replied args _) => vote_safe G o args
  | TAppend o server args ph =>
      0 ≤ o < n ∧ 0 ≤ server < n ∧ server ≠ o ∧ append_safe n G o args ∧
      match ph with
      | Replied _ reply =>
          aer_Success reply = true → (server, ae_Term args, Z.to_nat (last_sent args)) ∈ gA G
      | _ => True
      end
  | TInstall _ _ (Replied _ _) => False
  | _ => True
  end.

Record Safe (n : Z) V G s : Prop := {
  safe_inv : InvV n V s;
  safe_ghost : ghost_ok n V G;
  safe_node i rf : nodes s !! i = Some rf → ∃ F, node_safe n G F i rf;
  safe_match i rf : nodes s !! i = Some rf → match_safe G (tasks s) i rf;
  safe_tasks t : t ∈ tasks s → task_safe n G t;
  safe_orphans t : t ∈ orphans s → task_safe n G t;
}.

(** ** Growth of the history *)

Lemma applied_ext n G G' T T' m : ext G G' → T ≤ T' → applied n G T m → applied n G' T' m.
Proof.
  intros HG HT (p & e & Hp & ?). exists p, e. split; [|done].
  eapply committed_later; [done|]. by eapply committed_ext.
Qed.

Lemma vote_safe_ext G G' o args : ext G G' → vote_safe G o args → vote_safe G' o args.
Proof. intros (_ & HW & _) (lc & e & Hlc & ?). exists lc, e. split; [by eapply lookup_weaken|done]. Qed.

Lemma sent_ext l l' prev es : l `prefix_of` l' → (prev < length l)%nat → sent l prev es → sent l' prev es.
Proof.
  intros Hl Hp Hs. unfold sent. rewrite (take_prefix_mono l l'); [by etrans|done|lia].
Qed.

Lemma sent_length l prev es : sent l prev es → (prev < length l)%nat → (prev + length es < length l)%nat.
Proof. intros Hs%prefix_length Hp. rewrite length_app, length_take in Hs. lia. Qed.

Lemma append_safe_ext n G G' o args : ext G G' → append_safe n G o args → append_safe n G' o args.
Proof.
  intros HG (Hp & Hc & l & e & p & Hl & He & Hte & Hs & Hcm & Hpre). split_and!; [lia..|].
  destruct (proj1 HG _ _ _ Hl) as (l' & Hl' & Hll). pose proof (lookup_lt_Some _ _ _ He) as Hlt.
  exists l', e, p. split_and!; [done|by eapply prefix_lookup_Some|done|by eapply sent_ext|by eapply committed_ext|].
  pose proof (sent_length _ _ _ Hs Hlt). unfold len in Hc. rewrite (take_prefix_mono l l'); [done|done|lia].
Qed.

Lemma task_safe_ext n G G' t : ext G G' → task_safe n G t → task_safe n G' t.
Proof.
  intros HG. destruct t as [o sv []|o sv ph|o sv args ph|o sv []]; simpl; try done.
  1, 2: by apply vote_safe_ext.
  intros (?&?&?&?&Hph). split_and!; [lia..|by eapply append_safe_ext|].
  destruct ph; [done..|]. intros ?. by apply HG, Hph.
Qed.

(** What was acknowledged does not change in the leader's log. *)
Lemma ack_log_ext n V G G' q u m w j l :
  ghost_ok n V G → ext G G' → (q, u, m) ∈ gA G → (w ≤ m)%nat → gL G' !! u = Some (j, l) →
  ∃ l1, gL G !! u = Some (j, l1) ∧ take (S w) l = take (S w) l1.
Proof.
  intros Hok HG Hack Hw Hl. destruct (ok_ack _ _ _ Hok _ _ _ Hack) as (_ & j1 & l1 & Hl1 & Hm).
  destruct (proj1 HG _ _ _ Hl1) as (l1' & Hl1' & Hll). rewrite Hl1' in Hl. injection Hl as <- <-.
  exists l1. split; [done|]. apply take_prefix_mono; [done|lia].
Qed.

(** A node the step does not touch. *)
Lemma node_safe_ext n V G G' F i rf :
  ghost_ok n V G → ext G G' →
  (∀ u m, (i, u, m) ∈ gA G' → (i, u, m) ∈ gA G) →
  (∀ l, gL G' !! currentTerm rf = Some (i, l) → gL G !! currentTerm rf = Some (i, l) ∨ F = l) →
  node_safe n G F i rf → node_safe n G' F i rf.
Proof.
  intros Hok HG HA HL [Hs Hlog Hb Hpos Hterms Hleads Hvoted Hleader Hacks [Hc (p & Hcm & Hpre)] Hmsgs Hsnap Hlens].
  split; [by eapply sound_ext|done|done|done|done| | | | | | |done|done].
  - intros l [Hl|?]%HL; [by apply Hleads|done].
  - intros Hv HN. eapply lookup_weaken; [apply Hvoted; [done|]|apply HG].
    destruct (gL G !! currentTerm rf) as [[j l]|] eqn:E; [|done].
    apply (proj1 HG) in E as (? & E & _). congruence.
  - intros (l & Hl)%Hleader. apply (proj1 HG) in Hl as (l' & ? & _). by exists l'.
  - intros u m w j l Hack%HA Hw Hl. destruct (ack_log_ext _ _ _ _ _ _ _ _ _ _ Hok HG Hack Hw Hl) as (l1 & Hl1 & ->).
    destruct (Hacks _ _ _ _ _ Hack Hw Hl1) as [? Hk]. split; [done|]. by eapply keeps_ext.
  - split; [done|]. exists p. split; [by eapply committed_ext|done].
  - intros m Hm%Hmsgs. by eapply applied_ext; [done|reflexivity|].
Qed.

Lemma match_safe_ext G G' ts ts' i rf :
  ext G G' →
  (∀ t args, t ∈ ts' → append_key t = Some (i, args) → ∃ t0, t0 ∈ ts ∧ append_key t0 = Some (i, args)) →
  match_safe G ts i rf → match_safe G' ts' i rf.
Proof.
  intros HG Hts Hm Hor q m Hq Hlk Hpos. apply HG, Hm; [|done..].
  destruct Hor as [?|(t & args & Ht & Hk & ?)]; [by left|right].
  destruct (Hts t args Ht Hk) as (t0 & ? & ?). by exists t0, args.
Qed.

(** One node moves; the history grows only in what is its own. *)
Lemma Safe_move n V G V' G' s s' i :
  Safe n V G s → InvV n V' s' → ghost_ok n V' G' → ext G G' →
  (∀ j u m, j ≠ i → (j, u, m) ∈ gA G' → (j, u, m) ∈ gA G) →
  (∀ j u l, j ≠ i → gL G' !! u = Some (j, l) → gL G !! u = Some (j, l)) →
  (∀ j rf, j ≠ i → nodes s' !! j = Some rf → nodes s !! j = Some rf) →
  (∀ t, t ∈ tasks s' ∨ t ∈ orphans s' → t ∈ tasks s ∨ t ∈ orphans s ∨ task_safe n G' t) →
  (∀ j t args, j ≠ i → t ∈ tasks s' → append_key t = Some (j, args) →
     ∃ t0, t0 ∈ tasks s ∧ append_key t0 = Some (j, args)) →
  (∀ rf, nodes s' !! i = Some rf → (∃ F, node_safe n G' F i rf) ∧ match_safe G' (tasks s') i rf) →
  Safe n V' G' s'.
Proof.
  intros HS HI Hok HG HA HL Hns Ht Hk Hi.
  assert (∀ t, t ∈ tasks s' ∨ t ∈ orphans s' → task_safe n G' t) as Hts.
  { intros t [Hin|[Hin|?]]%Ht; [..|done]; (eapply task_safe_ext; [done|]).
    - by apply (safe_tasks _ _ _ _ HS).
    - by apply (safe_orphans _ _ _ _ HS). }
  split; [done|done|..|by auto|by auto].
  - intros j rf Hj. destruct (decide (j = i)) as [->|Hne]; [by apply Hi|].
    destruct (safe_node _ _ _ _ HS j rf) as (F & HF); [by apply Hns|]. exists F.
    eapply node_safe_ext; [apply (safe_ghost _ _ _ _ HS)|done|by eauto| |done]. eauto.
  - intros j rf Hj. destruct (decide (j = i)) as [->|Hne]; [by apply Hi|].
    eapply match_safe_ext; [done| |apply (safe_match _ _ _ _ HS); by apply Hns]. eauto.
Qed.

(** A request of its own in a term a node has not reached. *)
Lemma leader_term_le n V G s i rf u l :
  InvV n V s → ghost_ok n V G → nodes s !! i = Some rf → gL G !! u = Some (i, l) → u ≤ currentTerm rf.
Proof.
  intros HI Hok Hi Hl. destruct (ok_leader _ _ _ Hok _ _ _ Hl) as (_ & _ & _ & _ & HV & _).
  destruct (inv_nodes _ _ _ HI _ _ Hi) as (_ & _ & _ & _ & Hle & _). by eapply Hle.
Qed.

(** ** Critical sections that leave the replica alone *)

Definition image rf : list (LogEntry C) * Z * Z * list (ApplyMsg C) * list (ApplyMsg C) * list Z * Z :=
  (log rf, lastIncludedIndex rf, commitIndex rf, delivered rf, snapMsgs rf, matchIndex rf, len (nextIndex rf)).

(** The term does not go back, and the node does not become a leader. *)
Definition follows rf rf' : Prop :=
  currentTerm rf ≤ currentTerm rf' ∧
  (state rf' = Leader → state rf = Leader ∧ currentTerm rf' = currentTerm rf).

Lemma quiet_follows rf rf' : quiet rf rf' → follows rf rf'.
Proof. intros (_ & _ & [(?&_&_&?)|(?&_&?)]); split; first [lia|naive_solver]. Qed.

Lemma node_safe_move n V G G' s F i rf rf' :
  InvV n V s → ghost_ok n V G → nodes s !! i = Some rf →
  ext G G' → gL G' = gL G → gA G' = gA G → follows rf rf' → image rf' = image rf →
  (votedFor rf' = i → gL G !! currentTerm rf' = None → gW G' !! (i, currentTerm rf') = Some F) →
  node_safe n G F i rf → node_safe n G' F i rf'.
Proof.
  intros HI Hok Hi HG EL EA [HT HTL] [= El Ei Ec Ed Es Em En] Hv'
    [Hs Hlog Hb Hpos Hterms Hleads Hvoted Hleader Hacks [Hc (p & Hcm & Hpre)] Hmsgs Hsnap Hlens].
  split; [by eapply sound_ext|congruence|by rewrite Ei, Ec|lia|..|congruence|by rewrite Em, En].
  - intros k e He%Hterms. lia.
  - rewrite EL. intros l Hl. apply Hleads.
    pose proof (leader_term_le _ _ _ _ _ _ _ _ HI Hok Hi Hl).
    by replace (currentTerm rf) with (currentTerm rf') by lia.
  - by rewrite EL.
  - rewrite EL. intros [HL ->]%HTL. auto.
  - rewrite EA, EL. intros u m w j l Hack Hw Hl. destruct (Hacks _ _ _ _ _ Hack Hw Hl) as [? Hk]. split; [lia|].
    eapply keeps_ext; [done|]. by eapply keeps_later.
  - rewrite Ec. split; [done|]. exists p. split; [|done]. eapply committed_later; [done|]. by eapply committed_ext.
  - rewrite Ed. intros m Hm%Hmsgs. by eapply applied_ext.
Qed.

Lemma node_safe_quiet n V G s F i rf rf' :
  InvV n V s → ghost_ok n V G → nodes s !! i = Some rf →
  quiet rf rf' → image rf' = image rf → node_safe n G F i rf → node_safe n G F i rf'.
Proof.
  intros HI Hok Hi Hq Him HF.
  eapply node_safe_move; [done|done|done|reflexivity|done|done|by apply quiet_follows|done| |done].
  destruct (inv_nodes _ _ _ HI _ _ Hi) as (Hin & _). destruct Hq as (_ & _ & [(->&->&_)|(_&->&_)]); [|lia].
  apply (ns_voted _ _ _ _ _ HF).
Qed.

(** The leader of a term keeps its log and resets what it believes. *)
Lemma node_safe_leads n G F i rf rf' :
  node_safe n G F i rf → gL G !! currentTerm rf = Some (i, F) →
  currentTerm rf' = currentTerm rf → image (rf' <| matchIndex := matchIndex rf |>) = image rf →
  len (matchIndex rf') = len (matchIndex rf) → node_safe n G F i rf'.
Proof.
  intros [Hs Hlog Hb Hpos Hterms Hleads Hvoted Hleader Hacks Hc Hmsgs Hsnap Hlens] HL ET [= El Ei Ec Ed Es En] Em.
  change (delivered rf' = delivered rf) in Ed.
  split; rewrite ?El, ?Ei, ?Ec, ?Ed, ?Es, ?En, ?Em, ?ET; try done.
  - intros _ HN. congruence.
  - intros _. by exists F.
Qed.

Lemma match_safe_move n V G G' s ts' i rf rf' :
  Safe n V G s → nodes s !! i = Some rf → ext G G' → follows rf rf' → matchIndex rf' = matchIndex rf →
  (∀ t args, t ∈ ts' → append_key t = Some (i, args) →
     (state rf = Leader ∧ currentTerm rf' = currentTerm rf) ∨
     ∃ t0, t0 ∈ tasks s ∧ append_key t0 = Some (i, args)) →
  match_safe G' ts' i rf'.
Proof.
  intros HS Hi HG [HT HTL] Em Hts Hor q m Hqi Hlk Hpos. rewrite Em in Hlk.
  assert (currentTerm rf' = currentTerm rf) as E.
  { destruct Hor as [[_ ?]%HTL|(t & args & Ht & Hk & Ht')]; [done|].
    destruct (Hts t args Ht Hk) as [[_ ?]|(t0 & Hin & Hk0)]; [done|].
    apply (safe_tasks _ _ _ _ HS) in Hin. destruct t0; try discriminate Hk0. injection Hk0 as -> ->.
    destruct Hin as (_ & _ & _ & (_ & _ & l & _ & _ & Hl & _) & _).
    pose proof (leader_term_le _ _ _ _ _ _ _ _ (safe_inv _ _ _ _ HS) (safe_ghost _ _ _ _ HS) Hi Hl). lia. }
  rewrite E. apply HG, (safe_match _ _ _ _ HS _ _ Hi); [|done..].
  destruct Hor as [[? _]%HTL|(t & args & Ht & Hk & Ht')]; [by left|].
  destruct (Hts t args Ht Hk) as [[? _]|(t0 & ? & ?)]; [by left|right]. exists t0, args. by rewrite <-E.
Qed.
End invariant.
