(* ===== verification/RaftSteps.v ===== *)
(** * raft: every step keeps the invariant of replicated logs

    Each critical section of [src/src/raft] against the invariant of [RaftInvariant]:
    votes, elections, replication, the commit rule, [Start], [Snapshot], the messages
    of [CommitChecker], and restarts. *)
From Stdlib Require Import Init.Byte.
From S2P Require Import Prelude LabGob Raft RaftVote RaftAppend RaftSnapshot RaftNode.
From S2P Require Import RaftFrames RaftSystem RaftElection RaftLog RaftGhost RaftReplicate RaftInvariant.

Section steps.
Context {C : Type} {gob : Gob (RaftGob C)}.
Implicit Types (rf : Raft C) (s : Sys C) (t : Task C) (ts : list (Task C)).
Implicit Types (l p F es : list (LogEntry C)) (G : Ghost C) (V : gmap (Z * Z) Z).

(** ** What the critical sections leave alone *)

Lemma delivered_trysend rf : delivered (commitCh_trysend rf) = delivered rf.
Proof. unfold commitCh_trysend, delivered. by destruct (commitCh rf) eqn:E; simpl; rewrite ?E. Qed.

Lemma image_trysend rf : image (commitCh_trysend rf) = image rf.
Proof. unfold image. rewrite delivered_trysend. unfold commitCh_trysend. by destruct (commitCh rf). Qed.

Lemma RequestVote_image rf args rf' reply : RequestVote rf args = Ret (rf', reply) → image rf' = image rf.
Proof. intros H. by run RequestVote in H. Qed.

Lemma sendPreVote_image rf ok reply : image (sendPreVote rf ok reply) = image rf.
Proof. unfold sendPreVote. by repeat case_match. Qed.

Lemma sendAppendEntries_image rnd rf server args reply rf' b :
  sendAppendEntries rnd rf server args reply = Ret (rf', b) → aer_Success reply = false → image rf' = image rf.
Proof.
  intros H Hr. run sendAppendEntries in H; try done; try (split_bool; congruence).
  match goal with H : backup_loop _ _ _ = _ |- _ => apply backup_loop_frame in H as (?&->&Hl) end.
  unfold image. simpl. by rewrite Hl.
Qed.

(** What [AppendEntries] does not touch in any case. *)
Definition side rf : list (ApplyMsg C) * list (ApplyMsg C) * list Z * list Z :=
  (delivered rf, snapMsgs rf, matchIndex rf, nextIndex rf).

Lemma side_trysend rf : side (commitCh_trysend rf) = side rf.
Proof. unfold side. rewrite delivered_trysend. unfold commitCh_trysend. by destruct (commitCh rf). Qed.

Lemma AppendEntries_side rnd rf args rf' reply : AppendEntries rnd rf args = Ret (rf', reply) → side rf' = side rf.
Proof. intros H. run AppendEntries in H; first [done|(etrans; [apply side_trysend|done])]. Qed.

Lemma ticker_timeout_image rnd rf rf' gos : ticker_timeout rnd rf = Ret (rf', gos) → image rf' = image rf.
Proof. intros H. run ticker_timeout in H; try done. by apply doLeader_frame in H as ->. Qed.

Lemma ticker_msg_image rf rf' gos : ticker_msg rf = Ret (rf', gos) → image rf' = image rf.
Proof. intros H. run ticker_msg in H; [|done]. by apply doLeader_frame in H as ->. Qed.

(** A new leader believes nothing of its followers. *)
Lemma reinit_zero rf rf' q m :
  reinit_indices rf = Ret rf' → len (matchIndex rf) = len (nextIndex rf) →
  zlookup (matchIndex rf') q = Some m → m = 0.
Proof.
  intros H Hlen Hm.
  assert (∀ ks rf1, ofold (λ rf i,
      nextIndex' ← slice_set (nextIndex rf) i (VirtualLogIdx rf (len (log rf)));
      matchIndex' ← slice_set (matchIndex rf) i 0;
      Ret (rf <| nextIndex := nextIndex' |> <| matchIndex := matchIndex' |>)) rf1 ks = Ret rf' →
    m = 0 ∨ (q ∉ ks) ∧ zlookup (matchIndex rf1) q = Some m) as Hloop.
  { induction ks as [|k ks IH]; intros rf1 Hr; simpl in Hr.
    - apply Ret_inj in Hr as ->. right. split; [apply not_elem_of_nil|done].
    - apply outcome_bind_Ret in Hr as (rf2 & H2 & Hr). brk H2.
      apply IH in Hr as [?|[Hnin Hq]]; [by left|]. simpl in Hq.
      match goal with H : slice_set (matchIndex _) _ _ = Ret _ |- _ => apply slice_set_Ret in H as [Hb ->] end.
      destruct (decide (q = k)) as [->|Hne].
      + left. rewrite zlookup_insert_eq in Hq by done. congruence.
      + right. rewrite zlookup_insert_ne in Hq by (done || lia). split; [|done]. by intros [?|?]%elem_of_cons. }
  apply Hloop in H as [?|[Hnin Hq]]; [done|]. exfalso. apply Hnin, elem_of_zrange.
  apply zlookup_bounds in Hq. lia.
Qed.
(** ** Steps that leave the replica alone *)

Lemma Safe_quiet n V G s s' i rf rf' :
  Safe n V G s → InvV n V s' → nodes s !! i = Some rf → nodes s' = <[i := rf']> (nodes s) →
  quiet rf rf' → image rf' = image rf →
  (∀ t, t ∈ tasks s' ∨ t ∈ orphans s' → t ∈ tasks s ∨ t ∈ orphans s ∨ task_safe n G t) →
  (∀ j t args, t ∈ tasks s' → append_key t = Some (j, args) →
     (j = i ∧ state rf = Leader ∧ currentTerm rf' = currentTerm rf) ∨
     ∃ t0, t0 ∈ tasks s ∧ append_key t0 = Some (j, args)) →
  Safe n V G s'.
Proof.
  intros HS HI Hi Hns Hq Him Ht Hk.
  apply (Safe_move n V G V G s s' i); [done|done|apply (safe_ghost _ _ _ _ HS)|reflexivity|done|done|..|done| |].
  - intros j rfj Hne. by rewrite Hns, lookup_insert_ne.
  - intros j t args Hne Hin Hkey. destruct (Hk j t args Hin Hkey) as [[? _]|?]; done.
  - intros rfi. rewrite Hns, lookup_insert_eq. intros [= <-].
    destruct (safe_node _ _ _ _ HS _ _ Hi) as (F & HF). split.
    + exists F. eapply node_safe_quiet; [apply (safe_inv _ _ _ _ HS)|apply (safe_ghost _ _ _ _ HS)|done..].
    + eapply match_safe_move; [done|done|reflexivity|by apply quiet_follows|by injection Him|]. intros t args Hin Hkey.
      destruct (Hk _ _ _ Hin Hkey) as [[_ ?]|?]; [by left|by right].
Qed.

(** Only the goroutines change. *)
Lemma Safe_tasks n V G s s' :
  Safe n V G s → InvV n V s' → nodes s' = nodes s →
  (∀ t, t ∈ tasks s' ∨ t ∈ orphans s' → t ∈ tasks s ∨ t ∈ orphans s ∨ task_safe n G t) →
  (∀ j t args, t ∈ tasks s' → append_key t = Some (j, args) →
     ∃ t0, t0 ∈ tasks s ∧ append_key t0 = Some (j, args)) →
  Safe n V G s'.
Proof.
  intros HS HI Hns Ht Hk.
  apply (Safe_move n V G V G s s' (-1)); [done|done|apply (safe_ghost _ _ _ _ HS)|reflexivity|done|done|..|done| |].
  - intros j rf _. by rewrite Hns.
  - intros j t args _. apply Hk.
  - intros rf Hi. destruct (inv_nodes _ _ _ HI _ _ Hi) as (? & _). lia.
Qed.

Lemma in_delete (A : Type) k (x : A) (ls : list A) : x ∈ delete k ls → x ∈ ls.
Proof. intros ?. eapply elem_of_sublist; [done|]. apply sublist_delete. Qed.

Lemma in_insert (A : Type) k (x y : A) (ls : list A) : x ∈ <[k := y]> ls → x = y ∨ x ∈ ls.
Proof.
  intros [j Hj]%list_elem_of_lookup. apply list_lookup_insert_Some in Hj as [(_ & <- & _)|(_ & Hj)]; [by left|right].
  by eapply list_elem_of_lookup_2.
Qed.

(** A goroutine ends or changes its phase. *)
Lemma Safe_end_task n V G s k : Safe n V G s → Safe n V G (end_task s k).
Proof.
  intros HS. eapply Safe_tasks; [done|by apply InvV_end_task, HS|done|..].
  - intros t [?%in_delete|?]; auto.
  - intros j t args ?%in_delete ?. by exists t.
Qed.

Lemma Safe_retask n V G s k t t' :
  Safe n V G s → InvV n V (retask s k t') → tasks s !! k = Some t →
  task_safe n G t' → append_key t' = append_key t → Safe n V G (retask s k t').
Proof.
  intros HS HI Hk Ht' Hkey. eapply Safe_tasks; [done|done|done|..].
  - intros t1 [[->|?]%in_insert|?]; auto.
  - intros j t1 args [->|?]%in_insert ?; [|by exists t1]. exists t. split; [by eapply list_elem_of_lookup_2|congruence].
Qed.

Lemma begin_safe n V G s k s' : Safe n V G s → begin_task s k = Some s' → Safe n V G s'.
Proof.
  intros HS H. pose proof (begin_inv _ _ _ _ _ (safe_inv _ _ _ _ HS) H) as HI. unfold begin_task in H.
  destruct (tasks s !! k) as [t|] eqn:Hk; [|discriminate H]. simpl in H.
  pose proof (safe_tasks _ _ _ _ HS _ (list_elem_of_lookup_2 _ _ _ Hk)) as Ht.
  destruct t as [o sv []|o sv []|o sv args [[[] sh]| |]|o sv []]; try discriminate H.
  all: destruct (nodes s !! o); [|discriminate H]; simpl in H.
  - destruct (sendAppendEntries_begin _); simplify_eq; [by eapply Safe_retask|by apply Safe_end_task].
  - destruct (of_outcome _) as [[args|]|]; simplify_eq/=; [by eapply Safe_retask|by apply Safe_end_task].
Qed.

Lemma encode_safe n V G s k s' : Safe n V G s → encode_task s k = Some s' → Safe n V G s'.
Proof.
  intros HS H. pose proof (encode_inv _ _ _ _ _ (safe_inv _ _ _ _ HS) H) as HI.
  apply encode_cases in H as (o & sv & args & sh & Hk & ->).
  pose proof (safe_tasks _ _ _ _ HS _ (list_elem_of_lookup_2 _ _ _ Hk)) as Ht. by eapply Safe_retask.
Qed.

Lemma lose_safe n V G s k s' : Safe n V G s → lose_task s k = Some s' → Safe n V G s'.
Proof.
  intros HS H. pose proof (lose_inv _ _ _ _ _ (safe_inv _ _ _ _ HS) H) as HI. unfold lose_task in H.
  destruct (tasks s !! k) as [t|] eqn:Hk; [|discriminate H]. simpl in H.
  destruct t as [o sv []|o sv []|o sv args []|o sv []]; simplify_eq.
  all: first [by apply Safe_end_task|by eapply Safe_retask].
Qed.

(** ** The leader's requests *)

Lemma node_log_lookup n G F i rf v e :
  node_safe n G F i rf → entry_at rf v = Some e → lastIncludedIndex rf ≤ v ∧ F !! Z.to_nat v = Some e.
Proof.
  intros HF [Hv He]%zlookup_Some. unfold RealLogIdx in *. split; [lia|].
  rewrite (ns_log _ _ _ _ _ HF), lookup_drop in He. rewrite <-He. f_equal. pose proof (ns_base _ _ _ _ _ HF). lia.
Qed.

Lemma node_entry n G F i rf v :
  node_safe n G F i rf → lastIncludedIndex rf ≤ v → entry_at rf v = F !! Z.to_nat v.
Proof.
  intros HF Hv. pose proof (ns_base _ _ _ _ _ HF). unfold entry_at, RealLogIdx, zlookup.
  rewrite (proj2 (Z.leb_le _ _)), (ns_log _ _ _ _ _ HF), lookup_drop by lia. f_equal. lia.
Qed.

Lemma node_last_index n G F i rf :
  node_safe n G F i rf → lastIndex rf = len F - 1 ∧ lastIncludedIndex rf < len F ∧ commitIndex rf < len F.
Proof.
  intros HF. pose proof (ns_base _ _ _ _ _ HF) as Hb. destruct (ns_commit _ _ _ _ _ HF) as [Hc _].
  unfold lastIndex. rewrite (ns_log _ _ _ _ _ HF), len_drop. unfold len. lia.
Qed.

Lemma doLeader_peer_safe n G F i rf sv g :
  node_safe n G F i rf → gL G !! currentTerm rf = Some (i, F) → me rf = i →
  0 ≤ i < n → 0 ≤ sv < n → sv ≠ i →
  doLeader_peer rf sv = Ret g → task_safe n G (task_of i g).
Proof.
  intros HF HL Hme Hi Hsv Hne H. unfold doLeader_peer in H.
  apply outcome_bind_Ret in H as (ni & Hni & H). cbv zeta in H. set (prev := max (ni - 1) 0) in *.
  assert (0 ≤ prev) as Hp by (unfold prev, max; rewrite Z.gtb_ltb; destruct (Z.ltb_spec 0 (ni - 1)); lia).
  clearbody prev. destruct (node_last_index _ _ _ _ _ HF) as (Hlast & Hbase & Hcom).
  pose proof (ns_base _ _ _ _ _ HF) as Hb. destruct (ns_commit _ _ _ _ _ HF) as (_ & p & Hcm & Hpre).
  destruct (Z.ltb_spec prev (lastIncludedIndex rf)) as [|Hge]; [by apply Ret_inj in H as <-|].
  apply outcome_bind_Ret in H as (es & Hes & H). apply outcome_bind_Ret in H as (e & He & H).
  apply Ret_inj in H as <-. apply slice_get_Ret in He. apply (node_log_lookup _ _ _ _ _ _ _ HF) in He as [_ He].
  assert (sent F (Z.to_nat prev) es ∧ prev + len es = len F - 1) as [Hsent Hlen].
  { replace (VirtualLogIdx rf (len (log rf) - 1)) with (lastIndex rf) in Hes
      by (unfold VirtualLogIdx, lastIndex; lia). rewrite Hlast, Z.gtb_ltb in Hes.
    destruct (Z.ltb_spec prev (len F - 1)) as [Hlt|Hge'].
    - apply slice_from_Ret in Hes as [_ ->]. rewrite (ns_log _ _ _ _ _ HF), drop_drop.
      unfold RealLogIdx. replace (Z.to_nat _ + Z.to_nat _)%nat with (S (Z.to_nat prev)) by lia.
      split; [unfold sent; by rewrite take_drop|]. rewrite len_drop. lia.
    - apply Ret_inj in Hes as <-. apply lookup_lt_Some in He. split; [|unfold len in *; simpl; lia].
      unfold sent. rewrite app_nil_r. apply take_prefix_of. }
  simpl. split_and!; [lia..|done| |done]. unfold append_safe. cbn [ae_PrevLogIndex ae_LeaderCommit ae_Entries ae_Term ae_PrevLogTerm].
  split_and!; [lia..|]. exists F, e, p. split_and!; done.
Qed.

Lemma doLeader_safe n G F i rf rf' gos :
  node_safe n G F i rf → 0 ≤ i < n → peers rf = n → me rf = i → state rf = Leader →
  doLeader rf = Ret (rf', gos) → Forall (λ g, task_safe n G (task_of i g)) gos.
Proof.
  intros HF Hin Hp Hm HL H.
  destruct (ns_leader _ _ _ _ _ HF HL) as (l & Hl). pose proof (ns_leads _ _ _ _ _ HF _ Hl) as <-.
  run doLeader in H. eapply (ofold_snoc (λ sv g, doLeader_peer rf sv = Ret g)) in H0 as (gs & -> & Hgs).
  - simpl. apply Forall_forall. intros g [x Hx]%list_elem_of_lookup.
    eapply Forall2_lookup_r in Hgs as (sv & Hsv & Hg); [|exact Hx].
    apply list_elem_of_lookup_2, list_elem_of_filter in Hsv as [Hne Hsv%elem_of_zrange].
    change (sv ≠ me rf) in Hne. change (0 ≤ sv < peers rf) in Hsv.
    eapply doLeader_peer_safe; first [exact HF|done|lia].
  - intros acc sv r Hr. brk Hr. exists a. split; [done|]. exact Hr0.
Qed.

(** A ticker iteration that is not an election. *)
Lemma spawn_safe n V G s i rf rf' gos :
  Safe n V G s → nodes s !! i = Some rf → quiet rf rf' → (synced rf → synced rf') → image rf' = image rf →
  Forall not_vote gos →
  (Forall (λ g, append_key (task_of i g) = None) gos ∨ (state rf = Leader ∧ currentTerm rf' = currentTerm rf)) →
  Forall (λ g, task_safe n G (task_of i g)) gos →
  Safe n V G (mkSys (<[i := rf']> (nodes s)) (tasks s ++ (task_of i <$> gos)) (orphans s)).
Proof.
  intros HS Hi Hq Hs Him Hnv Hkey Hgos. rewrite !Forall_forall in *.
  eapply (Safe_quiet n V G s _ i rf rf'); [done| |done|done|done|done|..]; simpl.
  - apply (InvV_spawn n V (put s i rf')); [|by apply Forall_forall]. eapply InvV_quiet; [apply (safe_inv _ _ _ _ HS)|done..].
  - intros t [[?|(g & -> & ?)%list_elem_of_fmap]%elem_of_app|?]; auto.
  - intros j t args [?|(g & -> & Hg)%list_elem_of_fmap]%elem_of_app Hk; [by right; exists t|left].
    assert (j = i) as -> by (by destruct g; simplify_eq/=). split; [done|].
    destruct Hkey as [Hnone|?]; [|done]. rewrite (Hnone g Hg) in Hk. done.
Qed.

(** ** Votes *)

Lemma node_last n G F i rf e :
  node_safe n G F i rf → getLastLog rf = Ret e →
  last F = Some e ∧ VirtualLogIdx rf (len (log rf)) = len F.
Proof.
  intros HF [Hb He]%slice_get_Ret%zlookup_Some. destruct (node_last_index _ _ _ _ _ HF) as (Hlast & Hbase & _).
  pose proof (ns_base _ _ _ _ _ HF). unfold lastIndex in Hlast. split; [|unfold VirtualLogIdx; lia].
  rewrite (ns_log _ _ _ _ _ HF), lookup_drop in He. rewrite last_lookup, <-He. f_equal.
  rewrite len_drop. unfold len in *. lia.
Qed.

(** The history of a vote of node [i] in a term it has reached. *)
Lemma vote_ghost n V G s i rf F (T c : Z) lc :
  Safe n V G s → node_safe n G F i rf → currentTerm rf ≤ T →
  V !! (i, T) = None ∨ V !! (i, T) = Some c ∧ c ≠ i →
  sound G lc → uptodate lc F → (if decide (c = i) then lc = F else gW G !! (c, T) = Some lc) →
  ∃ G', ghost_ok n (<[(i, T) := c]> V) G' ∧ ext G G' ∧ gL G' = gL G ∧ gA G' = gA G ∧
    (c = i → gW G' !! (i, T) = Some F).
Proof.
  intros HS HF HT [HV|[HV Hne]] Hsc Hup Hlc.
  - destruct (ghost_vote n V G i T c F lc) as [Hok HG]; [apply HS|done|apply HF|done|done|done| |].
    { intros t0 m w j0 l0 Hack _ Hw Hl0. destruct (ns_acks _ _ _ _ _ HF _ _ _ _ _ Hack Hw Hl0). by eapply keeps_later. }
    eexists. split_and!; [exact Hok|exact HG|done|done|]. intros _. apply lookup_insert_eq.
  - exists G. split_and!; [|done..]. rewrite insert_id by done. apply HS.
Qed.

Lemma uptodate_refl F e : last F = Some e → uptodate F F.
Proof. intros He. exists e, e. split_and!; [done..|]. right. split; lia. Qed.

(** A server grants its vote. *)
Lemma grant_safe P n V G s s' o sv args reply rf rf' :
  Safe n V G s → nodes s !! sv = Some rf → nodes s' = <[sv := rf']> (nodes s) →
  task_inv (C := C) n V (TVote o sv (Calling args)) → vote_safe G o args → granted rf args rf' → image rf' = image rf →
  InvV n (<[(sv, rv_Term args) := o]> V) s' →
  (∀ t, t ∈ tasks s' ∨ t ∈ orphans s' → t ∈ tasks s ∨ t ∈ orphans s ∨ t = TVote o sv (Replied args reply)) →
  (∀ j t a, t ∈ tasks s' → append_key t = Some (j, a) → ∃ t0, t0 ∈ tasks s ∧ append_key t0 = Some (j, a)) →
  ∃ V' G', Safe n V' G' s' ∧ grows P G G'.
Proof.
  intros HS Hrf Hns (Ho & Hsv & Hne & HVo & Hcand) (lc & e & Hlc & He & Hte & Hlen)
    (_ & _ & Ht & Hv & Hst & Hold & (ev & Hev & Hnew)) Him HI Hts Hkeys.
  destruct (safe_node _ _ _ _ HS _ _ Hrf) as (F & HF).
  destruct (inv_nodes _ _ _ (safe_inv _ _ _ _ HS) _ _ Hrf) as (_ & _ & _ & _ & Hle & Hcur & _).
  destruct (node_last _ _ _ _ _ _ HF Hev) as [HlF Hvl].
  assert (follows rf rf') as Hfol by (split; [lia|by rewrite Hst]).
  assert (V !! (sv, rv_Term args) = None ∨ V !! (sv, rv_Term args) = Some o ∧ o ≠ sv) as HV.
  { destruct Hold as [Hlt|(Heq & Hvf)].
    - left. destruct (V !! (sv, rv_Term args)) eqn:E; [|done]. apply Hle in E. lia.
    - rewrite <-Heq, Hcur. destruct Hvf as [->| ->]; [by left|]. rewrite Hcand.
      destruct (Z.eqb_spec o (-1)); [lia|by right]. }
  destruct (vote_ghost n V G s sv rf F (rv_Term args) o lc) as (G' & Hok & HG & HL & HA & _);
    [done|done|lia|done|..].
  { destruct (ok_vote _ _ _ (safe_ghost _ _ _ _ HS) _ _ _ HVo) as (lq & ? & Hlq & _ & Hs & _). congruence. }
  { exists e, ev. split_and!; [done..|]. unfold len in *. lia. }
  { by rewrite decide_False by congruence. }
  eexists _, G'. split; [|by apply grows_same].
  eapply (Safe_move n V G _ G' s s' sv); [done|done|done|done|by rewrite HA|by rewrite HL|..].
  - intros j rfj Hj. by rewrite Hns, lookup_insert_ne.
  - intros t [?|[?| ->]]%Hts; [by auto..|]. right. right. simpl. eapply vote_safe_ext; [done|]. by exists lc, e.
  - intros j t a _. apply Hkeys.
  - intros rf1. rewrite Hns, lookup_insert_eq. intros [= <-]. split.
    + exists F. eapply node_safe_move; [apply HS|apply HS|done..| |done]. intros Hself. lia.
    + eapply match_safe_move; [done..|by injection Him|]. intros. right. by eapply Hkeys.
Qed.

(** What a candidate tells about its log. *)
Lemma ticker_timeout_args rnd rf rf' gos sv args :
  ticker_timeout rnd rf = Ret (rf', gos) → GoRequestVote sv args ∈ gos →
  rv_LastLogIndex args = VirtualLogIdx rf (len (log rf)) ∧
  ∃ e, getLastLog rf = Ret e ∧ le_Term e = rv_LastLogTerm args.
Proof.
  intros H Hin. run ticker_timeout in H.
  1, 2: apply list_elem_of_fmap in Hin as (? & ? & _); done.
  - eapply (ofold_snoc (λ i g, ∃ args, g = GoRequestVote i args ∧
      rv_LastLogIndex args = VirtualLogIdx rf (len (log rf)) ∧
      ∃ e, getLastLog rf = Ret e ∧ le_Term e = rv_LastLogTerm args)) in H0 as (gs & -> & Hgs).
    + apply list_elem_of_lookup in Hin as [x Hx].
      eapply Forall2_lookup_r in Hgs as (j & _ & args' & Heq & ?); [|exact Hx]. by injection Heq as <- <-.
    + intros acc i r Hr. brk Hr. eexists. split; [reflexivity|]. eexists. split_and!; [done..|].
      eexists. by split.
  - apply doLeader_not_vote in H. rewrite Forall_forall in H. by apply H in Hin.
Qed.

Lemma sound_has_last G F : sound G F → ∃ e, last F = Some e.
Proof. intros [H0 _]. destruct (last F) eqn:E; [by eexists|]. by apply last_None in E as ->. Qed.

(** A candidate votes for itself. *)
Lemma stand_safe P n V G s i rnd rf rf' gos :
  Safe n V G s → nodes s !! i = Some rf → ticker_timeout rnd rf = Ret (rf', gos) → stands rf rf' gos →
  ∃ V' G', Safe n V' G' (mkSys (<[i := rf']> (nodes s)) (tasks s ++ (task_of i <$> gos)) (orphans s)) ∧ grows P G G'.
Proof.
  intros HS Hi H Hst. destruct (safe_node _ _ _ _ HS _ _ Hi) as (F & HF).
  destruct (inv_nodes _ _ _ (safe_inv _ _ _ _ HS) _ _ Hi) as (_ & _ & Hm & Hsy & Hle & _).
  pose proof (InvV_stands _ _ _ _ _ _ _ (safe_inv _ _ _ _ HS) Hi Hst (ticker_timeout_synced _ _ _ _ H Hsy)) as HI.
  pose proof (ticker_timeout_image _ _ _ _ H) as Him. pose proof Hst as (_ & _ & Ht & Hv & _ & Hnl & Hgos).
  destruct (sound_has_last G F) as [e He]; [apply HF|].
  destruct (vote_ghost n V G s i rf F (currentTerm rf + 1) i F) as (G' & Hok & HG & HL & HA & HW); [done|done|lia|..].
  { left. destruct (V !! (i, currentTerm rf + 1)) eqn:E; [|done]. apply Hle in E. lia. }
  { apply HF. }
  { by eapply uptodate_refl. }
  { by rewrite decide_True. }
  specialize (HW eq_refl). eexists _, G'. split; [|by apply grows_same].
  assert (∀ t, t ∈ task_of i <$> gos → ∃ sv args, GoRequestVote sv args ∈ gos ∧ t = TVote i sv (Calling args) ∧
            rv_Term args = currentTerm rf + 1) as Hnew.
  { intros t (g & -> & Hg)%list_elem_of_fmap. pose proof Hg as [x Hx]%list_elem_of_lookup.
    eapply Forall2_lookup_r in Hgos as (sv & _ & args & Eg & ? & _); [|exact Hx].
    subst g. by exists sv, args. }
  assert (∀ j t a, t ∈ tasks s ++ (task_of i <$> gos) → append_key t = Some (j, a) →
            ∃ t0, t0 ∈ tasks s ∧ append_key t0 = Some (j, a)) as Hkeys.
  { intros j t a [?|(sv & args & _ & -> & _)%Hnew]%elem_of_app Hk; [by exists t|done]. }
  assert (follows rf rf') as Hfol by (split; [lia|done]).
  eapply (Safe_move n V G _ G' s _ i); [done|done|done|done|by rewrite HA|by rewrite HL|..]; simpl.
  - intros j rfj Hj. by rewrite lookup_insert_ne.
  - intros t [[?|(sv & args & Hg & -> & Hta)%Hnew]%elem_of_app|?]; [by auto| |by auto]. right. right. simpl.
    destruct (ticker_timeout_args _ _ _ _ _ _ H Hg) as (Hlen & e' & He' & Hte).
    destruct (node_last _ _ _ _ _ _ HF He') as [HlF Hvl]. exists F, e'. rewrite Hta. split_and!; [exact HW|done|done|by rewrite Hlen].
  - intros j t a _. apply Hkeys.
  - intros rf1. rewrite lookup_insert_eq. intros [= <-]. split.
    + exists F. eapply node_safe_move; [apply HS|apply HS|done..| |done]. intros _ _. by rewrite Ht.
    + eapply match_safe_move; [done..|by injection Him|]. intros. right. by eapply Hkeys.
Qed.

(** ** Replies *)

(** The goroutine of node [i] handles its reply and ends. *)
Lemma Safe_reply n V G G' s k i rf' F' :
  Safe n V G s → InvV n V (put (end_task s k) i rf') → ghost_ok n V G' → ext G G' →
  (∀ j u m, j ≠ i → (j, u, m) ∈ gA G' → (j, u, m) ∈ gA G) →
  (∀ j u l, j ≠ i → gL G' !! u = Some (j, l) → gL G !! u = Some (j, l)) →
  node_safe n G' F' i rf' → match_safe G' (delete k (tasks s)) i rf' →
  Safe n V G' (put (end_task s k) i rf').
Proof.
  intros HS HI Hok HG HA HL HF Hm. eapply (Safe_move n V G V G' s _ i); [done..| | | |]; simpl.
  - intros j rfj Hj. by rewrite lookup_insert_ne.
  - intros t [?%in_delete|?]; auto.
  - intros j t a _ ?%in_delete ?. by exists t.
  - intros rf1. rewrite lookup_insert_eq. intros [= <-]. split; [by exists F'|done].
Qed.

(** A reply that leaves the replica alone. *)
Lemma reply_quiet_safe n V G s k i rf rf' F :
  Safe n V G s → nodes s !! i = Some rf → InvV n V (put (end_task s k) i rf') →
  follows rf rf' → image rf' = image rf → node_safe n G F i rf →
  (votedFor rf' = i → gL G !! currentTerm rf' = None → gW G !! (i, currentTerm rf') = Some F) →
  Safe n V G (put (end_task s k) i rf').
Proof.
  intros HS Hi HI Hfol Him HF Hv. eapply Safe_reply; [done|done|apply HS|done|done|done|..].
  - eapply node_safe_move; [apply HS|apply HS|done..].
  - eapply match_safe_move; [done..|by injection Him|]. intros t args ?%in_delete ?. right. by exists t.
Qed.

(** *** Winning an election *)

Lemma sendRequestVote_effect rf args reply rf' b :
  sendRequestVote rf args reply = Ret (rf', b) →
  currentTerm rf' = currentTerm rf ∧ votedFor rf' = votedFor rf ∧
  ((image rf' = image rf ∧ (state rf' = Leader → state rf = Leader)) ∨
   (state rf' = Leader ∧ image (rf' <| matchIndex := matchIndex rf |>) = image rf ∧
    len (matchIndex rf') = len (matchIndex rf) ∧
    (len (matchIndex rf) = len (nextIndex rf) → ∀ q m, zlookup (matchIndex rf') q = Some m → m = 0))).
Proof.
  intros H. run sendRequestVote in H; try (split_and!; [done..|left; by split]).
  match goal with H : reinit_indices _ = Ret _ |- _ =>
    pose proof (λ q m, reinit_zero _ _ q m H) as Hz; apply reinit_indices_frame in H as (ni&mi&->&Hni&Hmi) end.
  split_and!; [done..|]. right. split_and!; [done| |exact Hmi|].
  - unfold image. cbn. cbn in Hni. by rewrite Hni.
  - intros Hlen q m. by apply Hz.
Qed.

(** The leader of a term is unique in the history. *)
Lemma elect_ghost P n V G s s' i rf rf' F :
  Safe n V G s → InvV n V s' → nodes s !! i = Some rf → nodes s' !! i = Some rf' →
  currentTerm rf' = currentTerm rf → votedFor rf' = votedFor rf → state rf' = Leader → node_safe n G F i rf →
  ∃ G', ghost_ok n V G' ∧ grows P G G' ∧ gA G' = gA G ∧ gL G' !! currentTerm rf = Some (i, F) ∧
    ∀ j u l, j ≠ i → gL G' !! u = Some (j, l) → gL G !! u = Some (j, l).
Proof.
  intros HS HI Hi Hi' ET EV HL HF.
  destruct (leader_quorum _ _ _ _ _ HI Hi' HL) as (X & HX & HXs). rewrite ET in HXs.
  destruct (inv_nodes _ _ _ HI _ _ Hi') as (Hin & _ & _ & _ & _ & Hcur & _ & HLv).
  destruct (HLv HL) as [Hv _]. rewrite ET in Hcur. rewrite Hv in Hcur. rewrite EV in Hv.
  destruct (Z.eqb_spec i (-1)) as [?|_]; [lia|].
  pose proof (safe_ghost _ _ _ _ HS) as Hok.
  destruct (gL G !! currentTerm rf) as [[j l]|] eqn:E.
  - destruct (ok_leader _ _ _ Hok _ _ _ E) as (_ & _ & _ & _ & _ & (Y & HY & HYs) & _).
    destruct (quorum_intersect n X Y) as (q & [_ Hq1]%HXs & (_ & Hq2 & _)%HYs);
      [lia|by intros ? [? _]%HXs|by intros ? [? _]%HYs|done|done|].
    assert (j = i) as -> by congruence. rewrite <-(ns_leads _ _ _ _ _ HF l E) in E.
    exists G. by split_and!.
  - destruct (ghost_elect n V G i (currentTerm rf) F X) as [Hok' HG];
      [done|done|apply HF|by apply HF|done| |done|done|].
    + intros k e He. pose proof (ns_terms _ _ _ _ _ HF k e He). pose proof (ns_pos _ _ _ _ _ HF).
      destruct (ns_sound _ _ _ _ _ HF) as [Hh Hs]. destruct (decide (k = 0%nat)) as [->|Hk].
      * rewrite Hh in He. injection He as <-. simpl in *. lia.
      * destruct (Hs k e) as (j & lt & Hlt & _); [lia|done|]. assert (le_Term e ≠ currentTerm rf) by congruence. lia.
    + eexists. split_and!; [exact Hok'| |done|apply lookup_insert_eq|]; simpl.
      { split; [exact HG|]. intros c (t & j & l & k & e & Hl & He & <-). left. simpl in Hl.
        apply lookup_insert_Some in Hl as [[_ [= <- <-]]|[_ Hl]]; [by eapply sound_logged; [apply HF|]|].
        by exists t, j, l, k, e. }
      intros j u l Hne [[_ [= <- _]]|[_ ?]]%lookup_insert_Some; done.
Qed.

Lemma count_safe P n V G s s' k i sv args reply rf rf' b :
  Safe n V G s → tasks s !! k = Some (TVote i sv (Replied args reply)) → nodes s !! i = Some rf →
  sendRequestVote rf args reply = Ret (rf', b) → InvV n V (put (end_task s k) i rf') →
  s' = put (end_task s k) i rf' → ∃ V' G', Safe n V' G' s' ∧ grows P G G'.
Proof.
  intros HS Hk Hi (ET & EV & Hc)%sendRequestVote_effect HI ->. exists V.
  destruct (safe_node _ _ _ _ HS _ _ Hi) as (F & HF).
  destruct Hc as [[Him Hst]|(HL & Him & Hlen & Hz)].
  - exists G. split; [|done]. eapply reply_quiet_safe; [done|done|done|split; [lia|auto]|done|done|].
    rewrite ET, EV. apply HF.
  - destruct (elect_ghost P n V G s (put (end_task s k) i rf') i rf rf' F) as (G' & Hok & HG & HA & HLt & Hoth);
      [done|done|done|apply lookup_insert_eq|done..|]. exists G'. split; [|exact HG]. apply grows_ext in HG.
    eapply Safe_reply; [done|done|done|done|by rewrite HA|done|..].
    + eapply node_safe_leads; [|done..]. eapply node_safe_ext; [apply HS|done|by rewrite HA| |done].
      intros l Hl. right. congruence.
    + intros _ q m _ Hm Hpos. destruct (ns_lens _ _ _ _ _ HF) as [??]. apply Hz in Hm; [lia|congruence].
Qed.

(** ** Receiving entries *)

Lemma accepted_full n G F i rf args :
  node_safe n G F i rf → accepts rf args = true →
  currentTerm rf ≤ ae_Term args ∧
  (∃ x, F !! Z.to_nat (ae_PrevLogIndex args) = Some x ∧ le_Term x = ae_PrevLogTerm args) ∧
  merge (log rf) (Z.to_nat (ae_PrevLogIndex args - lastIncludedIndex rf + 1)) (ae_Entries args) =
    drop (Z.to_nat (lastIncludedIndex rf)) (merge F (S (Z.to_nat (ae_PrevLogIndex args))) (ae_Entries args)).
Proof.
  intros HF Hacc. pose proof (accepted_prev _ _ Hacc) as [HT Hb]. unfold accepts in Hacc.
  apply andb_true_iff in Hacc as [_ Hacc]. destruct (zlookup _ _) as [x|] eqn:Hx; [|done].
  pose proof (ns_base _ _ _ _ _ HF). destruct (node_last_index _ _ _ _ _ HF) as (_ & Hbase & _).
  split_and!; [done|exists x; split; [|by apply Z.eqb_eq]|].
  - apply (node_log_lookup _ _ _ _ _ _ _ HF Hx).
  - rewrite (ns_log _ _ _ _ _ HF), merge_drop by (unfold len in Hbase; lia). f_equal. f_equal. lia.
Qed.

(** The follower's commit index after an accepted request. *)
Lemma append_commit F' (a c lc : Z) :
  0 ≤ a < len F' → lc < len F' →
  (if lc >? c then Z.min lc (a + len (drop (Z.to_nat a) F') - 1) else c) = Z.max c lc.
Proof. intros Ha Hlc. rewrite len_drop, Z.gtb_ltb. destruct (Z.ltb_spec c lc); lia. Qed.

Lemma take_prefix_le l (j k : nat) : (j ≤ k)%nat → take j l `prefix_of` take k l.
Proof. intros. replace j with (Nat.min j k) by lia. rewrite <-take_take. apply take_prefix_of. Qed.

Lemma append_node_safe n V G s F i o rf rf' args reply rnd :
  Safe n V G s → nodes s !! i = Some rf → node_safe n G F i rf → append_safe n G o args → i ≠ o →
  AppendEntries rnd rf args = Ret (rf', reply) → accepts rf args = true →
  let G' := mkGhost (gL G) (gW G) ((i, ae_Term args, Z.to_nat (last_sent args)) :: gA G) in
  ext G G' → ∃ F', node_safe n G' F' i rf'.
Proof.
  intros HS Hi HF (Hp & Hlc & l & e & p & Hl & He & Hte & Hsent & Hcm & Hpre) Hne H Hacc G' HG.
  pose proof (AppendEntries_side _ _ _ _ _ H) as [= Ed Es Em En].
  pose proof (quiet_follows _ _ (AppendEntries_quiet _ _ _ _ _ H)) as [_ Hst].
  destruct (AppendEntries_behaviour rnd rf args) as (rf1 & H1 & ET & EI & Hif). rewrite H in H1.
  injection H1 as <- ->. rewrite Hacc in Hif. destruct Hif as [Elog Ec].
  destruct (accepted_full _ _ _ _ _ _ HF Hacc) as (HT & (x & Hx & Htx) & Hmerge). rewrite Hmerge in Elog.
  rewrite Z.max_r in ET by done.
  pose proof (safe_ghost _ _ _ _ HS) as Hok. destruct (inv_nodes _ _ _ (safe_inv _ _ _ _ HS) _ _ Hi) as (Hin & _).
  destruct (ok_leader _ _ _ Hok _ _ _ Hl) as (_ & Hsl & _ & Htl & _).
  destruct (merge_sound G (ae_Term args) o l (Z.to_nat (ae_PrevLogIndex args)) (ae_Entries args) F e x)
    as (HsF & HTF & Hmg); [apply HF|done|done|done|done|done|congruence|].
  set (F' := merge F _ _) in *. set (T := take (S (Z.to_nat (ae_PrevLogIndex args)) + length (ae_Entries args)) l) in *.
  pose proof (lookup_lt_Some _ _ _ He) as Hpl.
  pose proof (sent_length _ _ _ Hsent Hpl) as Hsl'. pose proof (prefix_length _ _ HTF) as HlT.
  assert (length T = S (Z.to_nat (ae_PrevLogIndex args)) + length (ae_Entries args))%nat as ElT
    by (unfold T; rewrite length_take; lia).
  destruct (ns_commit _ _ _ _ _ HF) as (Hc & p0 & Hcm0 & Hpre0).
  destruct (merged_committed l T F F' (Z.to_nat (commitIndex rf)) p0) as [Hc' Htk];
    [apply take_prefix_of|done|done|done|by eapply (committed_in_leader n); [lia|done..]|].
  pose proof (ns_base _ _ _ _ _ HF) as Hb.
  unfold lastIndex in Ec. rewrite Elog, EI, append_commit in Ec by (unfold len in *; lia).
  exists F'. split; [by eapply sound_ext|by rewrite EI|rewrite EI, Ec; lia|rewrite ET; pose proof (ns_pos _ _ _ _ _ HF); lia|..].
  - rewrite ET. intros k y Hy. destruct Hmg as [E|[[E _]|[E _]]]; rewrite E in Hy.
    + apply (ns_terms _ _ _ _ _ HF) in Hy. lia.
    + apply lookup_take_Some in Hy as [Hy _]. by apply Htl in Hy.
    + apply lookup_take_Some in Hy as [Hy _]. by apply Htl in Hy.
  - rewrite ET. simpl. congruence.
  - rewrite ET. simpl. congruence.
  - intros [HL E]%Hst. destruct (ns_leader _ _ _ _ _ HF HL) as (l' & Hl'). rewrite E in ET. congruence.
  - rewrite ET. intros u m w j l0 Hack Hw Hl0. simpl in Hl0. apply elem_of_cons in Hack as [[= -> ->]|Hack].
    + split; [lia|left]. rewrite Hl in Hl0. injection Hl0 as <- <-. etrans; [|exact HTF].
      apply take_prefix_le. unfold last_sent, len in Hw. lia.
    + destruct (ns_acks _ _ _ _ _ HF _ _ _ _ _ Hack Hw Hl0) as [Hu Hk]. split; [lia|].
      eapply keeps_ext; [exact HG|]. eapply merged_keeps; [exact Hl|done|done| |done].
      destruct (decide (u = ae_Term args)) as [->|]; [right|left; lia].
      rewrite Hl in Hl0. injection Hl0 as <- <-. apply take_prefix_of.
  - rewrite Ec, ET. destruct (Z.max_spec (commitIndex rf) (ae_LeaderCommit args)) as [[_ ->]|[_ ->]].
    + unfold len in Hlc. split; [lia|]. exists p. split; [by eapply committed_ext|]. etrans; [|exact Hpre].
      rewrite (take_prefix_mono T F') by (done || lia). unfold T. rewrite take_take. apply take_prefix_le. lia.
    + split; [done|]. exists p0. rewrite Htk. split; [|done]. eapply committed_later; [done|]. by eapply committed_ext.
  - rewrite Ed, ET. intros y Hy%(ns_msgs _ _ _ _ _ HF). by eapply applied_ext.
  - rewrite Es. apply HF.
  - rewrite Em, En. apply HF.
Qed.

Lemma append_safe_step P n V G s s' o sv args u rnd rf rf' reply :
  Safe n V G s → nodes s !! sv = Some rf → nodes s' = <[sv := rf']> (nodes s) →
  task_safe n G (TAppend o sv args (Calling u)) → AppendEntries rnd rf args = Ret (rf', reply) → InvV n V s' →
  (∀ t, t ∈ tasks s' ∨ t ∈ orphans s' → t ∈ tasks s ∨ t ∈ orphans s ∨ t = TAppend o sv args (Replied u reply)) →
  (∀ j t a, t ∈ tasks s' → append_key t = Some (j, a) → ∃ t0, t0 ∈ tasks s ∧ append_key t0 = Some (j, a)) →
  ∃ V' G', Safe n V' G' s' ∧ grows P G G'.
Proof.
  intros HS Hrf Hns (Ho & Hsv & Hne & Hsafe & _) H HI Hts Hkeys. exists V.
  destruct (safe_node _ _ _ _ HS _ _ Hrf) as (F & HF).
  pose proof (AppendEntries_quiet _ _ _ _ _ H) as Hq. pose proof (AppendEntries_side _ _ _ _ _ H) as [= Ed Es Em En].
  destruct (AppendEntries_behaviour rnd rf args) as (rf1 & H1 & _ & EI & Hif). rewrite H in H1. injection H1 as <- Er.
  destruct (accepts rf args) eqn:Hacc.
  - destruct (accepted_prev _ _ Hacc) as [HT _]. pose proof Hsafe as (Hp & Hlc & l & e & p & Hl & He & _ & Hsent & _).
    destruct (ghost_ack n V G sv (ae_Term args) (Z.to_nat (last_sent args)) o l) as [Hok HG]; [apply HS|done| |done|..].
    { apply lookup_lt_Some in He. pose proof (sent_length _ _ _ Hsent He). unfold last_sent, len. lia. }
    { intros t1 c Hv. destruct (inv_nodes _ _ _ (safe_inv _ _ _ _ HS) _ _ Hrf) as (_ & _ & _ & _ & Hle & _).
      apply Hle in Hv. lia. }
    eexists. split; [|by apply grows_same; [exact HG|]].
    eapply (Safe_move n V G V _ s s' sv); [done|done|exact Hok|exact HG| |done|..].
    + intros j u0 m Hj. simpl. intros [[= -> _ _]|?]%elem_of_cons; done.
    + intros j rfj Hj. by rewrite Hns, lookup_insert_ne.
    + intros t [?|[?| ->]]%Hts; [by auto..|]. right. right. simpl. split_and!; [lia..|done| |intros _; by left].
      eapply append_safe_ext; [exact HG|done].
    + intros j t a _. apply Hkeys.
    + intros rf1. rewrite Hns, lookup_insert_eq. intros [= <-]. split; [by eapply append_node_safe|].
      eapply match_safe_move; [done|done|exact HG|by apply quiet_follows|done|]. intros. right. by eapply Hkeys.
  - destruct Hif as [El Ec]. exists G. split; [|done].
    eapply (Safe_quiet n V G s s' sv rf rf'); [done|done|done|done|done|unfold image; congruence|..].
    + intros t [?|[?| ->]]%Hts; [by auto..|]. right. right. simpl. rewrite Er. simpl. split_and!; [lia..|done|done|done].
    + intros. right. by eapply Hkeys.
Qed.

(** A server handles a call that does not install a snapshot. *)
Definition installs t : bool := match t with TInstall _ _ _ => true | _ => false end.

Lemma handled_safe P n V G s s' t sv rf rf' t' rnd :
  Safe n V G s → task_safe n G t → task_inv n V t → installs t = false →
  nodes s !! sv = Some rf → handle (nodes s) t rnd = Some (sv, rf', t') →
  handled n V t sv rf rf' t' s' → nodes s' = <[sv := rf']> (nodes s) →
  (∀ t, t ∈ tasks s' ∨ t ∈ orphans s' → t ∈ tasks s ∨ t ∈ orphans s ∨ t = t') →
  (∀ j t a, t ∈ tasks s' → append_key t = Some (j, a) → ∃ t0, t0 ∈ tasks s ∧ append_key t0 = Some (j, a)) →
  ∃ V' G', Safe n V' G' s' ∧ grows P G G'.
Proof.
  intros HS Ht Hinv Hinst Hrf Hh Hhd Hns Hts Hkeys. unfold handle in Hh.
  destruct t as [o sv' ph|o sv' ph|o sv' args ph|o sv' ph]; [..|done]; destruct ph as [|a|]; try discriminate Hh.
  all: destruct (nodes s !! sv') as [rf1|] eqn:Hrf1; [|discriminate Hh]; simpl in Hh.
  - destruct (of_outcome _) as [[rf2 reply]|] eqn:Ho in Hh; [|discriminate Hh]. apply of_outcome_Some in Ho.
    injection Hh as -> -> <-. rewrite Hrf1 in Hrf. injection Hrf as ->.
    pose proof (RequestVote_image _ _ _ _ Ho) as Him.
    destruct Hhd as [[Hq HI]|(o' & args' & reply' & [= -> ->] & _ & Hgr & HI)].
    + exists V, G. split; [|done]. eapply (Safe_quiet n V G s s' sv rf rf'); [done..| |].
      * intros t [?|[?| ->]]%Hts; auto.
      * intros. right. by eapply Hkeys.
    + by eapply grant_safe.
  - injection Hh as -> -> <-. rewrite Hrf1 in Hrf. injection Hrf as ->.
    destruct Hhd as [[Hq HI]|(o' & args' & reply' & [=] & _)]. exists V, G. split; [|done].
    eapply (Safe_quiet n V G s s' sv rf rf); [done..| |].
    + intros t [?|[?| ->]]%Hts; auto.
    + intros. right. by eapply Hkeys.
  - destruct (of_outcome _) as [[rf2 reply]|] eqn:Ho in Hh; [|discriminate Hh]. apply of_outcome_Some in Ho.
    injection Hh as -> -> <-. rewrite Hrf1 in Hrf. injection Hrf as ->.
    destruct Hhd as [[Hq HI]|(o' & args' & reply' & [=] & _)]. by eapply append_safe_step.
Qed.

(** ** The commit rule *)

(** The leader acknowledges its own log. *)
Lemma node_safe_self n V G F i rf m :
  ghost_ok n V G → node_safe n G F i rf → gL G !! currentTerm rf = Some (i, F) →
  let G' := mkGhost (gL G) (gW G) ((i, currentTerm rf, m) :: gA G) in
  ext G G' → node_safe n G' F i rf.
Proof.
  intros Hok [Hs Hlog Hb Hpos Hterms Hleads Hvoted Hleader Hacks [Hc (p & Hcm & Hpre)] Hmsgs Hsnap Hlens] HL G' HG.
  split; [by eapply sound_ext|done..| | | |done|done].
  - intros u m' w j l [[= -> ->]|Hack]%elem_of_cons Hw Hl.
    + simpl in Hl. rewrite HL in Hl. injection Hl as <- <-. split; [lia|left]. apply take_prefix_of.
    + destruct (Hacks _ _ _ _ _ Hack Hw Hl). split; [done|]. by eapply keeps_ext.
  - split; [done|]. exists p. split; [by eapply committed_ext|done].
  - intros x Hx%Hmsgs. by eapply applied_ext; [done|reflexivity|].
Qed.

Lemma node_safe_commit n G F i rf N p :
  node_safe n G F i rf → commitIndex rf ≤ N → (Z.to_nat N < length F)%nat →
  committed n G (currentTerm rf) p → take (S (Z.to_nat N)) F `prefix_of` p →
  node_safe n G F i (rf <| commitIndex := N |>).
Proof.
  intros [Hs Hlog Hb Hpos Hterms Hleads Hvoted Hleader Hacks Hc Hmsgs Hsnap Hlens] HN Hlt Hcm Hpre.
  split; try done; simpl; [lia|]. split; [done|]. by exists p.
Qed.

(** What the leader counts is a majority of acknowledgements. *)
Lemma majority_quorum n G i rf N :
  peers rf = n → me rf = i → 0 ≤ i < n → 0 < N → majority_has rf N →
  (∀ q m, q ≠ i → zlookup (matchIndex rf) q = Some m → 0 < m → (q, currentTerm rf, Z.to_nat m) ∈ gA G) →
  let G' := mkGhost (gL G) (gW G) ((i, currentTerm rf, Z.to_nat N) :: gA G) in
  quorum_acked n G' (currentTerm rf) (Z.to_nat N).
Proof.
  intros Hp Hm Hi HN [_ Hmaj] Hack G'. rewrite Hp in Hmaj.
  set (qs := filter (replicated rf N) (zrange n)) in *.
  assert (∀ q, q ∈ qs → q ≠ i ∧ 0 ≤ q < n ∧ ∃ m, zlookup (matchIndex rf) q = Some m ∧ N ≤ m) as Hqs.
  { intros q [Hr Hq%elem_of_zrange]%list_elem_of_filter. unfold replicated in Hr.
    apply Is_true_true, andb_true_iff in Hr as [Hne%negb_true_iff%Z.eqb_neq Hr]. split; [congruence|]. split; [done|].
    destruct (zlookup _ q) as [m|]; [|done]. exists m. split; [done|]. by apply Z.leb_le. }
  exists (list_to_set (i :: qs)). split.
  - rewrite size_list_to_set; [simpl; unfold len in Hmaj; lia|].
    apply NoDup_cons. split; [by intros [? _]%Hqs|]. apply NoDup_filter, NoDup_zrange.
  - intros q [->|Hq]%elem_of_list_to_set%elem_of_cons.
    + split; [done|]. exists (Z.to_nat N). split; [by left|done].
    + destruct (Hqs q Hq) as (Hne & Hr & m & Hm' & Hle). split; [done|]. exists (Z.to_nat m).
      split; [right; apply Hack; [done|done|lia]|lia].
Qed.

Lemma acked_match n V G s k i sv args u reply rf q m :
  Safe n V G s → tasks s !! k = Some (TAppend i sv args (Replied u reply)) → nodes s !! i = Some rf →
  aer_Success reply = true → ae_Term args = currentTerm rf → 0 ≤ sv < n →
  q ≠ i → zlookup (matchIndex (acked rf sv args)) q = Some m → 0 < m →
  (q, currentTerm rf, Z.to_nat m) ∈ gA G.
Proof.
  intros HS Hk Hi Hr HT Hsv Hq Hm Hpos. pose proof (list_elem_of_lookup_2 _ _ _ Hk) as Hin.
  pose proof (safe_tasks _ _ _ _ HS _ Hin) as (_ & _ & _ & _ & Hack). simpl in Hm.
  destruct (safe_node _ _ _ _ HS _ _ Hi) as (F & HF). destruct (ns_lens _ _ _ _ _ HF) as [Hlm _].
  destruct (decide (q = sv)) as [->|Hne].
  - rewrite zlookup_insert_eq in Hm by lia. injection Hm as <-. rewrite <-HT. by apply Hack.
  - rewrite zlookup_insert_ne in Hm by (done || lia). apply (safe_match _ _ _ _ HS _ _ Hi); [|done..].
    right. by exists (TAppend i sv args (Replied u reply)), args.
Qed.

(** The leader after a commit. *)
Lemma commit_node_safe n V G s F i rf N :
  Safe n V G s → node_safe n G F i rf → gL G !! currentTerm rf = Some (i, F) → peers rf = n → me rf = i →
  0 ≤ i < n → commitIndex rf < N ≤ lastIndex rf → majority_has rf N →
  (∀ q m, q ≠ i → zlookup (matchIndex rf) q = Some m → 0 < m → (q, currentTerm rf, Z.to_nat m) ∈ gA G) →
  let G' := mkGhost (gL G) (gW G) ((i, currentTerm rf, Z.to_nat N) :: gA G) in
  ext G G' → node_safe n G' F i (commitCh_trysend (rf <| commitIndex := N |>)).
Proof.
  intros HS HF Hl Hp Hm Hi HN Hmaj Hack G' HG.
  destruct (node_last_index _ _ _ _ _ HF) as (Hlast & _). pose proof (ns_base _ _ _ _ _ HF) as Hb.
  assert (node_safe n G' F i (rf <| commitIndex := N |>)) as HF2.
  { apply (node_safe_commit _ _ _ _ _ _ (take (S (Z.to_nat N)) F)); [|lia|unfold len in *; lia| |done].
    - by eapply node_safe_self; [apply HS|done..].
    - pose proof Hmaj as [Hterm _]. unfold term_at in Hterm. destruct (zlookup _ _) as [e|] eqn:He in Hterm; [|done].
      apply (node_log_lookup _ _ _ _ _ _ _ HF) in He as [_ He]. injection Hterm as Hterm.
      right. exists (currentTerm rf), i, F, (Z.to_nat N), e. split_and!; [lia|done|done|done| |done].
      apply (majority_quorum n G i rf N); [done|done|lia|lia|done|done]. }
  eapply node_safe_leads; [done|done|by unfold commitCh_trysend; case_match| |by unfold commitCh_trysend; case_match].
  rewrite <-(image_trysend (rf <| commitIndex := N |>)). unfold commitCh_trysend. by case_match.
Qed.

Lemma commit_safe P n V G s k i sv args u reply rnd rf rf' b :
  Safe n V G s → tasks s !! k = Some (TAppend i sv args (Replied u reply)) → nodes s !! i = Some rf →
  aer_Success reply = true → ae_Term args = currentTerm rf →
  sendAppendEntries rnd rf sv args reply = Ret (rf', b) → InvV n V (put (end_task s k) i rf') →
  ∃ V' G', Safe n V' G' (put (end_task s k) i rf') ∧ grows P G G'.
Proof.
  intros HS Hk Hi Hr HT H HI. exists V. destruct (safe_node _ _ _ _ HS _ _ Hi) as (F & HF).
  pose proof (safe_tasks _ _ _ _ HS _ (list_elem_of_lookup_2 _ _ _ Hk)) as (Ho & Hsv & Hne & (_ & _ & l & _ & _ & Hl & _) & _).
  destruct (inv_nodes _ _ _ (safe_inv _ _ _ _ HS) _ _ Hi) as (Hin & Hp & Hm & _ & Hle & _).
  rewrite HT in Hl. rewrite <-(ns_leads _ _ _ _ _ HF _ Hl) in Hl. destruct (ns_lens _ _ _ _ _ HF) as [Hlm Hln].
  destruct (node_last_index _ _ _ _ _ HF) as (Hlast & _ & Hcl). pose proof (ns_base _ _ _ _ _ HF) as Hb.
  destruct reply as [rt []]; [|done].
  destruct (sendAppendEntries_success rnd rf sv args rt) as (N & HN & Hrange & Hmaj & _);
    [split_and!; lia|lia|lia|lia|]. rewrite H in HN. injection HN as -> ->. clear H.
  pose proof (λ q m, acked_match n V G s k i sv args u _ rf q m HS Hk Hi Hr HT Hsv) as Hma.
  set (rf1 := acked rf sv args) in *.
  assert (node_safe n G F i rf1) as HF1.
  { eapply node_safe_leads; [done|done|done| |apply len_insert]. unfold image. simpl. by rewrite len_insert. }
  case_decide as HNc.
  { exists G. split; [|done]. eapply Safe_reply; [done|done|apply HS|done..|]. intros _ q m. apply Hma. }
  destruct (ghost_ack n V G i (currentTerm rf) (Z.to_nat N) i F) as [Hok HG];
    [apply HS|done|unfold len in *; lia|lia|intros t1 c; apply Hle|].
  eexists. split; [|by apply grows_same; [exact HG|]]. eapply Safe_reply; [done|done|exact Hok|exact HG| |done|..].
  - intros j w m Hj [[= -> _ _]|?]%elem_of_cons; done.
  - apply (commit_node_safe n V G s F i rf1 N); [done|done|done|done|done|done| |by apply Hmaj|done|done].
    change (commitIndex rf1) with (commitIndex rf). change (lastIndex rf1) with (lastIndex rf). lia.
  - intros _ q m. replace (matchIndex (commitCh_trysend _)) with (matchIndex rf1) by (unfold commitCh_trysend; by case_match).
    replace (currentTerm (commitCh_trysend _)) with (currentTerm rf) by (unfold commitCh_trysend; by case_match).
    intros. right. by apply Hma.
Qed.

Lemma receive_safe P n V G s k rnd s' :
  Safe n V G s → receive_task s k rnd = Some s' → ∃ V' G', Safe n V' G' s' ∧ grows P G G'.
Proof.
  intros HS H. pose proof (receive_inv _ _ _ _ _ _ (safe_inv _ _ _ _ HS) H) as HI. unfold receive_task in H.
  destruct (tasks s !! k) as [t|] eqn:Hk; [|discriminate H]. simpl in H.
  pose proof (safe_tasks _ _ _ _ HS _ (list_elem_of_lookup_2 _ _ _ Hk)) as Ht.
  destruct (nodes s !! owner t) as [rf|] eqn:Hrf; [|discriminate H]. simpl in H.
  assert (∀ i rf', nodes s !! i = Some rf → InvV n V (put (end_task s k) i rf') → quiet rf rf' → image rf' = image rf →
    ∃ V' G', Safe n V' G' (put (end_task s k) i rf') ∧ grows P G G') as Hquiet.
  { intros i rf' Hi HI' Hq Him. exists V, G. split; [|done].
    eapply (Safe_quiet n V G s _ i rf rf'); [done|done|done|done|done|done|..]; simpl.
    - intros t0 [?%in_delete|?]; auto.
    - intros j t0 a ?%in_delete ?. right. by exists t0. }
  destruct t as [o sv []|o sv []|o sv args []|o sv []]; try discriminate H; simpl in Hrf; [..|by destruct Ht].
  - destruct (of_outcome _) as [[rf' b]|] eqn:Ho; [|discriminate H]. apply of_outcome_Some in Ho. simplify_eq/=.
    by eapply count_safe.
  - simplify_eq/=. apply Hquiet; [done|done|apply sendPreVote_quiet|apply sendPreVote_image].
  - destruct (of_outcome _) as [[rf' b]|] eqn:Ho; [|discriminate H]. apply of_outcome_Some in Ho. simplify_eq/=.
    destruct Ht as (_ & _ & _ & (_ & _ & l & _ & _ & Hl & _) & _).
    pose proof (leader_term_le _ _ _ _ _ _ _ _ (safe_inv _ _ _ _ HS) (safe_ghost _ _ _ _ HS) Hrf Hl) as Hle.
    pose proof (sendAppendEntries_quiet _ _ _ _ _ _ _ Ho) as Hq.
    destruct (aer_Success reply) eqn:Hr; [|by apply Hquiet; [..|by eapply sendAppendEntries_image]].
    destruct (decide (ae_Term args = currentTerm rf)) as [HT|HT]; [by eapply commit_safe|].
    apply Hquiet; [done..|]. unfold sendAppendEntries in Ho. rewrite Hr, andb_false_r in Ho.
    rewrite (proj2 (Z.ltb_lt _ _)) in Ho by lia. by injection Ho as <- _.
Qed.

(** ** The service and the node's own goroutines *)

(** Node [i] moves, and nothing else. *)
Lemma Safe_put n V G G' s i rf' F' :
  Safe n V G s → InvV n V (put s i rf') → ghost_ok n V G' → ext G G' → gA G' = gA G →
  (∀ j u l, j ≠ i → gL G' !! u = Some (j, l) → gL G !! u = Some (j, l)) →
  node_safe n G' F' i rf' → match_safe G' (tasks s) i rf' → Safe n V G' (put s i rf').
Proof.
  intros HS HI Hok HG HA HL HF Hm. eapply (Safe_move n V G V G' s _ i); [done|done|done|done|by rewrite HA|done|..]; simpl.
  - intros j rfj Hj. by rewrite lookup_insert_ne.
  - intros t [?|?]; auto.
  - intros j t a _ ? ?. by exists t.
  - intros rf1. rewrite lookup_insert_eq. intros [= <-]. split; [by exists F'|done].
Qed.

Lemma Start_effect now rf c rf' r :
  Start now rf c = Ret (rf', r) →
  rf' = rf ∨
  (state rf = Leader ∧ log rf' = log rf ++ [mkEntry (currentTerm rf) c] ∧ electoral rf' = electoral rf ∧
   image (rf' <| log := log rf |>) = image rf).
Proof.
  intros H. run Start in H; [by left|right..].
  all: apply negb_false_iff in Heqb; unfold is_state in Heqb; apply bool_decide_eq_true in Heqb.
  all: apply slice_set_len in H0; split_and!; [done..|].
  all: unfold image; cbn; cbn in H0; by rewrite H0.
Qed.

Lemma node_safe_start n V G F i rf rf' e :
  ghost_ok n V G → node_safe n G F i rf → gL G !! currentTerm rf = Some (i, F) → le_Term e = currentTerm rf →
  log rf' = log rf ++ [e] → electoral rf' = electoral rf → image (rf' <| log := log rf |>) = image rf →
  let G' := mkGhost (<[currentTerm rf := (i, F ++ [e])]> (gL G)) (gW G) (gA G) in
  ghost_ok n V G' → ext G G' → node_safe n G' (F ++ [e]) i rf'.
Proof.
  intros Hok [Hs Hlog Hb Hpos Hterms Hleads Hvoted Hleader Hacks [Hc (p & Hcm & Hpre)] Hmsgs Hsnap Hlens]
    HL He El [= _ _ ET _ _ _] [= Ei Ec Ed Es Em En] G' Hok' HG.
  change (delivered rf' = delivered rf) in Ed.
  assert (gL G' !! currentTerm rf = Some (i, F ++ [e])) as HL' by apply lookup_insert_eq.
  split; rewrite ?ET, ?Ei, ?Ec; [|..|congruence|congruence].
  - by destruct (ok_leader _ _ _ Hok' _ _ _ HL') as (_ & ? & _).
  - rewrite El, Hlog, drop_app_le by lia. done.
  - done.
  - done.
  - intros k x [Hx|[_ Hx]]%lookup_app_Some; [by eapply Hterms|]. apply list_lookup_singleton_Some in Hx as [_ <-]. lia.
  - intros l Hl. congruence.
  - congruence.
  - by exists (F ++ [e]).
  - intros u m w j l Hack Hw Hl. destruct (ack_log_ext _ _ _ _ _ _ _ _ _ _ Hok HG Hack Hw Hl) as (l1 & Hl1 & ->).
    destruct (Hacks _ _ _ _ _ Hack Hw Hl1) as [? [?|?]]; (split; [done|]); (eapply keeps_ext; [done|]); [left|by right].
    by apply prefix_app_r.
  - rewrite length_app. split; [lia|]. exists p. split; [by eapply committed_ext|]. by rewrite take_app_le by lia.
  - rewrite Ed. intros m Hm%Hmsgs. by eapply applied_ext; [done|reflexivity|].
Qed.

Lemma start_safe n V G s i rf rf' now c r :
  Safe n V G s → nodes s !! i = Some rf → Start now rf c = Ret (rf', r) → InvV n V (put s i rf') →
  ∃ V' G', Safe n V' G' (put s i rf') ∧ grows (λ c', c' = c) G G'.
Proof.
  intros HS Hi H HI. exists V. destruct (safe_node _ _ _ _ HS _ _ Hi) as (F & HF).
  destruct (Start_effect _ _ _ _ _ H) as [->|(HL & El & Ee & Him)].
  - exists G. split; [|done]. eapply Safe_put; [done|done|apply HS|done|done|done|done|by apply (safe_match _ _ _ _ HS)].
  - destruct (ns_leader _ _ _ _ _ HF HL) as (l & Hl). rewrite <-(ns_leads _ _ _ _ _ HF _ Hl) in Hl.
    destruct (ghost_append n V G (currentTerm rf) i F (mkEntry (currentTerm rf) c)) as [Hok HG]; [apply HS|done|done|].
    eexists. split; [|split; [exact HG|]].
    2: { intros c' (t & j & l0 & k & e & Hl0 & He & <-). simpl in Hl0.
      apply lookup_insert_Some in Hl0 as [[_ [= <- <-]]|[_ Hl0]]; [|left; by exists t, j, l0, k, e].
      apply lookup_app_Some in He as [He|[_ [_ <-]%list_lookup_singleton_Some]]; [|by right].
      left. by exists (currentTerm rf), i, F, k, e. }
    eapply Safe_put; [done|done|exact Hok|exact HG|done|..].
    + simpl. intros j u l0 Hne [[_ [= <- _]]|[_ ?]]%lookup_insert_Some; done.
    + eapply node_safe_start; [apply HS|done..].
    + eapply match_safe_move; [done|done|exact HG| |by injection Him|].
      * apply quiet_follows, quiet_electoral. done.
      * intros t args ? ?. right. by exists t.
Qed.

Lemma Snapshot_effect rf index data rf' :
  Snapshot rf index data = Ret rf' →
  rf' = rf ∨
  (lastIncludedIndex rf < index ≤ commitIndex rf ∧ lastIncludedIndex rf' = index ∧
   log rf' = drop (Z.to_nat (index - lastIncludedIndex rf)) (log rf) ∧ electoral rf' = electoral rf ∧
   image (rf' <| log := log rf |> <| lastIncludedIndex := lastIncludedIndex rf |>) = image rf).
Proof.
  intros H. run Snapshot in H; [by left|by left|right..].
  all: apply orb_false_iff in Heqb as [Ha Hb]; rewrite Z.leb_gt in Ha; rewrite Z.gtb_ltb, Z.ltb_ge in Hb.
  all: match goal with H : slice_from _ _ = Ret _ |- _ => apply slice_from_Ret in H as [_ ->] end.
  all: split_and!; first [lia|done].
Qed.

Lemma node_safe_compact n G F i rf rf' index :
  node_safe n G F i rf → lastIncludedIndex rf < index ≤ commitIndex rf → lastIncludedIndex rf' = index →
  log rf' = drop (Z.to_nat (index - lastIncludedIndex rf)) (log rf) → electoral rf' = electoral rf →
  image (rf' <| log := log rf |> <| lastIncludedIndex := lastIncludedIndex rf |>) = image rf →
  node_safe n G F i rf'.
Proof.
  intros [Hs Hlog Hb Hpos Hterms Hleads Hvoted Hleader Hacks Hc Hmsgs Hsnap Hlens]
    Hidx EI El [= _ _ ET EV _ ES] [= Ec Ed Esn Em En].
  change (delivered rf' = delivered rf) in Ed.
  split; rewrite ?ET, ?EI, ?Ec, ?Ed, ?Esn, ?Em, ?En, ?EV, ?ES; try done; [|lia].
  rewrite El, Hlog, drop_drop. f_equal. lia.
Qed.

(** The entries [CommitChecker] takes from the log are committed. *)
Lemma to_apply_applied n G F i rf m :
  node_safe n G F i rf → m ∈ to_apply rf → applied n G (currentTerm rf) m.
Proof.
  intros HF (v & Hv & Hm)%list_elem_of_omap. unfold msg_at in Hm.
  assert (v ≤ commitIndex rf) as Hle.
  { clear Hm. revert Hv. generalize (lastApplied rf). intros a.
    assert (∀ k b, v ∈ zfrom b k → v < b + Z.of_nat k) as Hz.
    { induction k as [|k IH]; intros b; simpl; [by intros ?%not_elem_of_nil|].
      intros [->|Hin]%elem_of_cons; [lia|]. apply IH in Hin. lia. }
    intros Hin. destruct (decide (a ≤ commitIndex rf)); [apply Hz in Hin; lia|].
    rewrite Z2Nat.nonpos in Hin by lia. by apply not_elem_of_nil in Hin. }
  destruct (v <=? _); [done|]. destruct (zlookup _ _) as [e|] eqn:He; [|done]. simpl in Hm. injection Hm as <-.
  apply (node_log_lookup _ _ _ _ _ _ _ HF) in He as [Hge He]. destruct (ns_commit _ _ _ _ _ HF) as (_ & p & Hcm & Hpre).
  pose proof (ns_base _ _ _ _ _ HF). exists p, e. split_and!; [done|simpl; lia| |done]. simpl.
  eapply prefix_lookup_Some; [exact Hpre|]. by rewrite lookup_take_lt by lia.
Qed.

Lemma CommitChecker_effect rf rf' :
  CommitChecker rf = Some (Ret rf') →
  electoral rf' = electoral rf ∧ image (rf' <| applyCh := [] |> <| commitCh := CCWait |>) =
    image (rf <| applyCh := [] |> <| commitCh := CCWait |>) ∧
  ∀ m, m ∈ delivered rf' → m ∈ delivered rf ∨ m ∈ to_apply rf.
Proof.
  unfold CommitChecker, delivered. destruct (commitCh rf) as [| |[|m buf]|m buf] eqn:E; [done|..].
  - destruct (_ <? _); [done|]. rewrite collect_loop_spec, bind_Ret. intros [= <-]. split_and!; [done..|].
    simpl. intros m [?|?]%elem_of_app; [left; apply elem_of_app; by left|by right].
  - destruct (killed rf); [done|]. intros [= <-]. split_and!; [done..|]. simpl. auto.
  - intros [= <-]. split_and!; [done..|]. simpl. rewrite <-app_assoc. auto.
  - destruct (negb _); intros [= <-]; (split_and!; [done..|]); simpl; auto.
Qed.

Lemma node_safe_deliver n G F i rf rf' :
  node_safe n G F i rf → CommitChecker rf = Some (Ret rf') → node_safe n G F i rf'.
Proof.
  intros HF (Hel & Him & Hd)%CommitChecker_effect.
  assert (∀ m, m ∈ delivered rf' → applied n G (currentTerm rf) m) as Hdel.
  { intros m [Hm|Hm]%Hd; [by apply HF|by eapply to_apply_applied]. }
  destruct HF as [Hs Hlog Hb Hpos Hterms Hleads Hvoted Hleader Hacks Hc Hmsgs Hsnap Hlens].
  injection Hel as _ _ ET EV _ ES. injection Him as El Ei Ec Esn Em En.
  split; rewrite ?El, ?ET, ?Ei, ?Ec, ?Esn, ?Em, ?En, ?EV, ?ES; done.
Qed.

Lemma deliver_safe n V G s i rf rf' :
  Safe n V G s → nodes s !! i = Some rf → CommitChecker rf = Some (Ret rf') → InvV n V (put s i rf') →
  Safe n V G (put s i rf').
Proof.
  intros HS Hi H HI. destruct (safe_node _ _ _ _ HS _ _ Hi) as (F & HF).
  destruct (CommitChecker_effect _ _ H) as (Hel & Him & _).
  eapply Safe_put; [done|done|apply HS|done|done|done|by eapply node_safe_deliver|].
  eapply match_safe_move; [done|done|done|by apply quiet_follows, quiet_electoral|by injection Him|].
  intros t args ? ?. right. by exists t.
Qed.

Lemma snapshot_safe n V G s i rf rf' index data :
  Safe n V G s → nodes s !! i = Some rf → Snapshot rf index data = Ret rf' → InvV n V (put s i rf') →
  Safe n V G (put s i rf').
Proof.
  intros HS Hi H HI. destruct (safe_node _ _ _ _ HS _ _ Hi) as (F & HF).
  destruct (Snapshot_effect _ _ _ _ H) as [->|(Hidx & EI & El & Hel & Him)].
  - eapply Safe_put; [done|done|apply HS|done|done|done|done|by apply (safe_match _ _ _ _ HS)].
  - eapply Safe_put; [done|done|apply HS|done|done|done|by eapply node_safe_compact|].
    eapply match_safe_move; [done|done|done|by apply quiet_follows, quiet_electoral|by injection Him|].
    intros t args ? ?. right. by exists t.
Qed.

(** ** Restart *)

Lemma Make_fresh rf rnd now :
  synced rf → 0 ≤ peers rf →
  let rf' := Make (peers rf) (me rf) (persister rf) rnd now in
  commitIndex rf' = lastIncludedIndex rf' ∧ delivered rf' = [] ∧ snapMsgs rf' = [] ∧
  len (matchIndex rf') = peers rf ∧ len (nextIndex rf') = peers rf.
Proof.
  intros [_ Hst] Hp. unfold Make, delivered, len. rewrite readSnapshot_fields.
  assert (∀ rf0, readPersist rf0 [] = rf0) as Hnil by done.
  destruct Hst as [Hst|(Hst & _)]; unfold ReadRaftState, clone; rewrite Hst, ?readPersist_encodeState, ?Hnil.
  all: cbn -[replicate length fmap]; rewrite !length_fmap, length_replicate; split_and!; first [done|lia].
Qed.

Lemma restart_safe n V G s i rf rnd now :
  Safe n V G s → nodes s !! i = Some rf →
  Safe n V G (mkSys (<[i := Make (peers rf) i (persister rf) rnd now]> (nodes s))
    (filter (λ t, owner t ≠ i) (tasks s)) (orphans s ++ filter (λ t, owner t = i) (tasks s))).
Proof.
  intros HS Hi. pose proof (restart_inv n V s i rf rnd now (safe_inv _ _ _ _ HS) Hi) as HI.
  destruct (safe_node _ _ _ _ HS _ _ Hi) as (F & HF).
  destruct (inv_nodes _ _ _ (safe_inv _ _ _ _ HS) _ _ Hi) as (Hin & Hp & Hm & Hsy & _).
  destruct (Make_synced rf rnd now Hsy) as ((ET & EV & El & Ei & _) & _ & _ & _ & ES & _).
  destruct (Make_fresh rf rnd now Hsy) as (Ec & Ed & Esn & Em & En); [lia|].
  rewrite Hm in ET, EV, El, Ei, ES, Ec, Ed, Esn, Em, En. set (rf' := Make _ _ _ _ _) in *. clearbody rf'.
  eapply (Safe_move n V G V G s _ i); [done|done|apply HS|done|done|done|..]; simpl.
  - intros j rfj Hj. by rewrite lookup_insert_ne.
  - intros t [[_ ?]%list_elem_of_filter|[?|[_ ?]%list_elem_of_filter]%elem_of_app]; auto.
  - intros j t a _ [_ ?]%list_elem_of_filter ?. by exists t.
  - intros rf1. rewrite lookup_insert_eq. intros [= <-]. split.
    + exists F. destruct HF as [Hs Hlog Hb Hpos Hterms Hleads Hvoted Hleader Hacks [Hc (p & Hcm & Hpre)] Hmsgs Hsnap Hlens].
      split; rewrite ?ET, ?EV, ?El, ?ES, ?Ec, ?Ei, ?Ed, ?Esn, ?Em, ?En; try done; [lia| |by intros m ?%not_elem_of_nil].
      split; [lia|]. exists p. split; [done|]. etrans; [|exact Hpre]. apply take_prefix_le. lia.
    + intros [?|(t & args & [Ho _]%list_elem_of_filter & Hk & _)]; [congruence|]. by destruct t; simplify_eq/=.
Qed.

(** ** All events *)

(** The event makes a server handle an [InstallSnapshot] call. *)
Definition installs_snapshot (e : Event C) s : bool :=
  match e with
  | EDeliver k _ => match tasks s !! k with Some t => installs t | None => false end
  | EOrphan k _ => match orphans s !! k with Some t => installs t | None => false end
  | _ => false
  end.

Lemma call_safe P n V G s k rnd s' :
  Safe n V G s →
  (∀ t, tasks s !! k = Some t → installs t = false) → deliver_task s k rnd = Some s' →
  ∃ V' G', Safe n V' G' s' ∧ grows P G G'.
Proof.
  intros HS Hno H. unfold deliver_task in H.
  destruct (tasks s !! k) as [t|] eqn:Hk; [|discriminate H]. simpl in H.
  destruct (handle _ _ _) as [[[sv rf'] t']|] eqn:Hh; [|discriminate H]. simplify_eq/=.
  pose proof (list_elem_of_lookup_2 _ _ _ Hk) as Hin. pose proof (safe_inv _ _ _ _ HS) as HI.
  destruct (deliver_handled _ _ _ _ _ _ _ _ _ HI Hk Hh) as (rf & Hrf & Hhd).
  eapply (handled_safe P n V G s _ t sv rf rf' t' rnd);
    [done|by apply (safe_tasks _ _ _ _ HS)|by apply (inv_tasks _ _ _ HI)|by apply Hno|done|done|done|done|..]; simpl.
  - intros t1 [[->|?]%in_insert|?]; auto.
  - intros j t1 a [->|?]%in_insert Ha; [|by exists t1]. exists t. split; [done|].
    unfold handle in Hh. destruct t as [o sv' []|o sv' []|o sv' args []|o sv' []]; try discriminate Hh.
    all: destruct (nodes s !! sv'); [|discriminate Hh]; simpl in Hh.
    all: try (destruct (of_outcome _) as [[]|]; [|discriminate Hh]); simpl in Hh; by injection Hh as _ _ <-.
Qed.

Lemma orphan_safe P n V G s k rnd s' :
  Safe n V G s →
  (∀ t, orphans s !! k = Some t → installs t = false) → deliver_orphan s k rnd = Some s' →
  ∃ V' G', Safe n V' G' s' ∧ grows P G G'.
Proof.
  intros HS Hno H. unfold deliver_orphan in H.
  destruct (orphans s !! k) as [t|] eqn:Hk; [|discriminate H]. simpl in H.
  destruct (handle _ _ _) as [[[sv rf'] t']|] eqn:Hh; [|discriminate H]. simplify_eq/=.
  pose proof (list_elem_of_lookup_2 _ _ _ Hk) as Hin. pose proof (safe_inv _ _ _ _ HS) as HI.
  destruct (orphan_handled _ _ _ _ _ _ _ _ _ HI Hk Hh) as (rf & Hrf & Hhd).
  eapply (handled_safe P n V G s _ t sv rf rf' t' rnd);
    [done|by apply (safe_orphans _ _ _ _ HS)|by apply (inv_orphans _ _ _ HI)|by apply Hno|done|done|done|done|..]; simpl.
  - intros t1 [?|?%in_delete]; auto.
  - intros j t1 a ? ?. by exists t1.
Qed.

(** The two channels [ticker] waits on. *)
Lemma ticker_safe n V G s i rf rf' gos :
  Safe n V G s → nodes s !! i = Some rf → (∃ rnd, ticker_timeout rnd rf = Ret (rf', gos)) ∨ ticker_msg rf = Ret (rf', gos) →
  quiet rf rf' →
  (Forall (λ g, append_key (task_of i g) = None) gos ∨ (state rf = Leader ∧ currentTerm rf' = currentTerm rf)) ∧
  Forall (λ g, task_safe n G (task_of i g)) gos.
Proof.
  intros HS Hi Ho Hq. destruct (safe_node _ _ _ _ HS _ _ Hi) as (F & HF).
  destruct (inv_nodes _ _ _ (safe_inv _ _ _ _ HS) _ _ Hi) as (Hin & Hp & Hm & _).
  destruct Ho as [[rnd Ho]|Ho]; [run ticker_timeout in Ho|run ticker_msg in Ho].
  1, 2: split; [left|]; by apply Forall_fmap, Forall_true.
  - exfalso. destruct Hq as (_ & _ & [(E & _)|(_ & E & _)]); simpl in E; lia.
  - split; [right; by apply doLeader_frame in Ho as ->|]. eapply doLeader_safe; first [exact HF|done].
  - apply bool_decide_eq_true in Heqb. split; [right; by apply doLeader_frame in Ho as ->|].
    eapply (doLeader_safe _ G F i rf0); [|lia|done|done|done|exact Ho].
    eapply node_safe_quiet; [apply HS|apply HS|done|by apply quiet_electoral|done|done].
  - split; [by left|done].
Qed.

Lemma timeout_safe P n V G s i rnd s' :
  Safe n V G s → node_spawn s i (ticker_timeout rnd) = Some s' → ∃ V' G', Safe n V' G' s' ∧ grows P G G'.
Proof.
  intros HS H. unfold node_spawn in H. destruct (nodes s !! i) as [rf|] eqn:Hi; [|discriminate H]. simpl in H.
  destruct (of_outcome _) as [[rf' gos]|] eqn:Ho; [|discriminate H]. simplify_eq/=. apply of_outcome_Some in Ho.
  destruct (ticker_timeout_cases _ _ _ _ Ho) as [[Hq Hnv]|Hst]; [|by eapply stand_safe].
  destruct (ticker_safe _ _ _ _ _ _ _ _ HS Hi (or_introl (ex_intro _ _ Ho)) Hq) as [??].
  exists V, G. split; [|done].
  eapply spawn_safe; [done|done|done|by eapply ticker_timeout_synced|by eapply ticker_timeout_image|done..].
Qed.

Lemma msg_safe n V G s i s' : Safe n V G s → node_spawn s i ticker_msg = Some s' → Safe n V G s'.
Proof.
  intros HS H. unfold node_spawn in H. destruct (nodes s !! i) as [rf|] eqn:Hi; [|discriminate H]. simpl in H.
  destruct (of_outcome _) as [[rf' gos]|] eqn:Ho; [|discriminate H]. simplify_eq/=. apply of_outcome_Some in Ho.
  destruct (ticker_msg_frame _ _ _ Ho) as [Hq Hs].
  destruct (ticker_safe _ _ _ _ _ _ _ _ HS Hi (or_intror Ho) Hq) as [??].
  eapply spawn_safe; [done|done|done|done|by eapply ticker_msg_image|by eapply ticker_msg_not_vote|done..].
Qed.

Lemma init_safe n rnd now : Safe n ∅ (mkGhost ∅ ∅ []) (init (C := C) n rnd now).
Proof.
  split; [apply init_inv| | | | |]; simpl.
  - split; simpl; first [by intros * ?%lookup_empty_Some|by intros * ?%not_elem_of_nil].
  - intros i rf Hi. apply elem_of_list_to_map_2, list_elem_of_fmap in Hi as (j & [= -> ->] & Hj%elem_of_zrange).
    exists [head0]. split; simpl; try first [done|lia|by intros * ?%not_elem_of_nil|by intros * ?%lookup_empty_Some].
    + split; [done|]. intros k e Hk He. apply lookup_lt_Some in He. simpl in He. lia.
    + intros k e [-> <-]%list_lookup_singleton_Some. simpl. lia.
    + split; [lia|]. exists [head0]. split; [by left|done].
    + unfold len. simpl. rewrite !length_fmap, length_replicate. lia.
  - intros i rf Hi. apply elem_of_list_to_map_2, list_elem_of_fmap in Hi as (j & [= -> ->] & Hj%elem_of_zrange).
    intros [?|(t & ? & ?%not_elem_of_nil & _)]; done.
  - by intros t ?%not_elem_of_nil.
  - by intros t ?%not_elem_of_nil.
Qed.

(** ** Slices of a log *)

Lemma detach_safe n V G o s : Safe n V G s → Safe n V G (detach o s).
Proof.
  intros HS. destruct o as [i|]; [|done]. simpl.
  assert (∀ t, t ∈ detach_task i <$> tasks s →
    ∃ t0, t0 ∈ tasks s ∧ (task_safe n G t0 → task_safe n G t) ∧ append_key t0 = append_key t) as Ht.
  { intros t (t0 & -> & Ht0)%list_elem_of_fmap. exists t0. split; [done|].
    destruct (detach_task_same i t0) as [->|(o1 & sv & args & p & p' & -> & ->)]; done. }
  eapply Safe_tasks; [done| |done|..]; simpl.
  - apply InvV_fmap; [|apply HS].
    intros t. destruct (detach_task_same i t) as [->|(o1 & sv & args & p & p' & -> & ->)]; [by left|by right].
  - intros t [(t0 & Hin & Hs & _)%Ht|?]; [|auto]. right; right. by apply Hs, (safe_tasks _ _ _ _ HS).
  - intros j t args (t0 & Hin & _ & Hk)%Ht Hkey. exists t0. by rewrite Hk.
Qed.

(** Entries that a slice reads again with the same terms are the same entries. *)
Lemma reread_same n G F i rf l v es :
  node_safe n G F i rf → sound G l → 0 ≤ v → (∀ k e, es !! k = Some e → l !! (Z.to_nat v + k)%nat = Some e) →
  le_Term <$> reread rf v es = le_Term <$> es → reread rf v es = es.
Proof.
  intros HF Hl. revert v. induction es as [|e es IH]; intros v Hv Hes Ht; [done|]. simpl in Ht |- *. injection Ht as Ht Hts. f_equal.
  - destruct (zlookup (log rf) (RealLogIdx rf v)) as [e'|] eqn:He; [|done]. simpl in *.
    destruct (node_log_lookup _ _ _ _ _ v e' HF He) as [_ HFe].
    pose proof (Hes 0%nat e eq_refl) as Hle. rewrite Nat.add_0_r in Hle.
    pose proof (same_term_same_log G F l _ _ _ (ns_sound _ _ _ _ _ HF) Hl HFe Hle Ht) as Htk.
    rewrite <-(lookup_take_lt F (S (Z.to_nat v))), Htk, lookup_take_lt in HFe by lia. congruence.
  - apply (IH (v + 1)); [lia| |done]. intros k x Hx. rewrite <-(Hes (S k) x Hx). f_equal. lia.
Qed.

(** Where no entry of another term is written, the calls stay as they were made. *)
Lemma share_same n V G s : Safe n V G s → existsb (torn (nodes s)) (tasks s) = false → share s = s.
Proof.
  intros HS Hno. destruct s as [ns ts os]. unfold share. simpl in *. f_equal.
  rewrite <-(list_fmap_id ts) at 2. apply list_fmap_ext. intros k t Hk. simpl.
  apply list_elem_of_lookup_2 in Hk. pose proof (safe_tasks _ _ _ _ HS _ Hk) as Ht.
  assert (torn ns t = false) as Htorn.
  { destruct (torn ns t) eqn:E; [|done]. rewrite <-Hno. symmetry. apply existsb_exists. exists t. split; [|done].
    by apply list_elem_of_In. }
  destruct (share_task_same ns t) as [?|(o & sv & args & [c sh] & rf & -> & Hrf & Hsh & ->)]; [done|]. simpl in *. subst sh.
  rewrite Hrf in Htorn. apply negb_false_iff, bool_decide_eq_true in Htorn.
  destruct Ht as (_ & _ & _ & (Hp & _ & l & e & p & Hl & He & _ & Hs & _) & _).
  destruct (safe_node _ _ _ _ HS _ _ Hrf) as (F & HF).
  destruct (ok_leader _ _ _ (safe_ghost _ _ _ _ HS) _ _ _ Hl) as (_ & Hsl & _).
  unfold reread_args. rewrite (reread_same n G F o rf l _ _ HF Hsl); [by destruct args|lia| |exact Htorn].
  intros j x Hx. rewrite <-(sent_lookup _ _ _ _ _ Hs (lookup_lt_Some _ _ _ He) Hx). f_equal. lia.
Qed.

(** The command the event hands to [Start]. *)
Definition starts (e : Event C) (c : option C) : Prop := match e with EStart _ _ c' => c = c' | _ => False end.

Lemma step_safe n V G s e s' :
  Safe n V G s → installs_snapshot e s = false → step e s = Some s' → ∃ V' G', Safe n V' G' s' ∧ grows (starts e) G G'.
Proof.
  intros HS Hno H. pose proof (safe_inv _ _ _ _ HS) as HI.
  assert (∀ i rf rf', nodes s !! i = Some rf → quiet rf rf' → (synced rf → synced rf') → InvV n V (put s i rf')) as Hput.
  { intros. by eapply InvV_quiet. }
  destruct e as [i rnd|i|i now c|i idx d|i|i|i k|k|k|i|k rnd|k|k rnd|i rnd now|k rnd]; simpl in H, Hno;
    unfold node_step in H;
    try (destruct (nodes s !! i) as [rf|] eqn:Hrf in H; [|discriminate H]; simpl in H).
  - destruct (killed rf); [done|]. by eapply timeout_safe.
  - destruct (_ || _); [done|]. exists V, G. split; [by eapply msg_safe|done].
  - destruct (of_outcome _) as [rf'|] eqn:Ho; [|discriminate H]. simplify_eq/=. apply of_outcome_Some in Ho. brk Ho.
    eapply start_safe; [done..|]. eapply Hput; [done|by eapply Start_quiet|by eapply Start_synced].
  - destruct (of_outcome _) as [rf'|] eqn:Ho; [|discriminate H]. simplify_eq/=. apply of_outcome_Some in Ho.
    exists V, G. split; [|done]. eapply snapshot_safe; [done..|].
    eapply Hput; [done|by eapply Snapshot_quiet|by eapply Snapshot_synced].
  - simplify_eq/=. exists V, G. split; [|done]. destruct (Kill_frame rf) as [??].
    eapply (Safe_quiet n V G s _ i rf (Kill rf)); [done|by eapply Hput|done|done|done|done|..]; simpl.
    + intros t [?|?]; auto.
    + intros j t a ? ?. right. by exists t.
  - destruct (CommitChecker rf) as [[rf'|]|] eqn:Hc; simplify_eq/=. exists V, G. split; [|done].
    eapply deliver_safe; [done..|]. eapply Hput; [done|by apply CommitChecker_quiet|by apply CommitChecker_synced].
  - destruct (safe_node _ _ _ _ HS _ _ Hrf) as (F & HF). unfold snap_send in H.
    rewrite (ns_snap _ _ _ _ _ HF) in H. discriminate H.
  - exists V, G. split; [by eapply begin_safe|done].
  - exists V, G. split; [by eapply encode_safe|done].
  - injection H as <-. by exists V, G.
  - eapply call_safe; [done| |done]. intros t Ht. by rewrite Ht in Hno.
  - exists V, G. split; [by eapply lose_safe|done].
  - by eapply receive_safe.
  - simplify_eq/=. exists V, G. split; [by apply restart_safe|done].
  - eapply orphan_safe; [done| |done]. intros t Ht. by rewrite Ht in Hno.
Qed.

(** ** Steady executions

    No [InstallSnapshot] call is handled, and no entry of a call that is not yet encoded
    is overwritten with an entry of another term. *)
Definition exec_steady (e : Event C) s : option (Sys C) :=
  if installs_snapshot e s || overwrites e s then None else exec e s.

Lemma exec_steady_step n V G s e s' :
  Safe n V G s → exec_steady e s = Some s' →
  installs_snapshot e s = false ∧ exec e s = Some s' ∧
  ∃ s1, step e s = Some s1 ∧ s' = detach (new_array e s) s1 ∧ nodes s' = nodes s1.
Proof.
  intros HS H. unfold exec_steady in H. destruct (_ || _) eqn:Hno; [discriminate H|].
  apply orb_false_iff in Hno as [Hno Hov]. split_and!; [done..|].
  destruct (exec_step _ _ _ H) as (s1 & Hs & -> & Hns). exists s1. split; [done|]. split; [|done].
  destruct (step_safe _ _ _ _ _ _ HS Hno Hs) as (V' & G' & HS' & _). apply (detach_safe _ _ _ (new_array e s)) in HS'.
  eapply share_same; [done|]. unfold overwrites in Hov. rewrite Hs in Hov. by destruct (new_array e s).
Qed.

Lemma exec_safe n V G s e s' :
  Safe n V G s → exec_steady e s = Some s' → ∃ V' G', Safe n V' G' s' ∧ grows (starts e) G G'.
Proof.
  intros HS H. destruct (exec_steady_step _ _ _ _ _ _ HS H) as (Hno & _ & s1 & Hs & -> & _).
  destruct (step_safe _ _ _ _ _ _ HS Hno Hs) as (V' & G' & HS' & HG). exists V', G'. split; [by apply detach_safe|done].
Qed.

Lemma exec_steady_exec e s s' : exec_steady e s = Some s' → exec e s = Some s'.
Proof. unfold exec_steady. by destruct (_ || _). Qed.
End steps.
