(* ===== verification/RaftSafety.v ===== *)
(** * raft: log matching, leader completeness and state machine safety

    The safety properties of the Raft paper for the code of [src/src/raft], in every
    steady execution of a cluster: messages are lost, delayed and reordered, nodes crash
    and restart, logs are compacted by [Snapshot], but no [InstallSnapshot] call is
    handled, and the entries of an [AppendEntries] call, which lie in the array of the
    leader's log, are not overwritten before the call is encoded.  The code is not safe
    without either: [stale_snapshot_unsafe] and [shared_entries_unsafe]. *)
From Stdlib Require Import Init.Byte.
From S2P Require Import Prelude LabGob Raft RaftVote RaftAppend RaftSnapshot RaftNode.
From S2P Require Import RaftFrames RaftSystem RaftElection RaftLog RaftGhost RaftReplicate.
From S2P Require Import RaftInvariant RaftSteps.

Section safety.
Context {C : Type} {gob : Gob (RaftGob C)}.
Implicit Types (rf : Raft C) (s : Sys C) (m : ApplyMsg C) (G : Ghost C).

(** ** Steady executions *)

Fixpoint run_steady (es : list (Event C)) s : option (Sys C) :=
  match es with
  | [] => Some s
  | e :: es => s' ← exec_steady e s; run_steady es s'
  end.

(** The states such executions reach from the first start. *)
Definition steady (n : Z) s : Prop :=
  ∃ rnd now es, run_steady es (init n rnd now) = Some s.

Lemma run_safe n V G es s s' :
  Safe n V G s → run_steady es s = Some s' → ∃ V' G', Safe n V' G' s' ∧ ext G G'.
Proof.
  revert V G s. induction es as [|e es IH]; intros V G s HS H; simpl in H.
  - injection H as <-. by exists V, G.
  - destruct (exec_steady e s) as [s1|] eqn:He; [|done].
    destruct (exec_safe _ _ _ _ _ _ HS He) as (V1 & G1 & HS1 & HG1%grows_ext).
    destruct (IH V1 G1 s1 HS1 H) as (V2 & G2 & HS2 & HG2). exists V2, G2. split; [done|by etrans].
Qed.

Lemma steady_safe n s : steady n s → ∃ V G, Safe n V G s.
Proof.
  intros (rnd & now & es & H). destruct (run_safe n _ _ es _ s (init_safe n rnd now) H) as (V & G & HS & _).
  by exists V, G.
Qed.

(** ** The properties *)

(** C6. Log matching: in every state of a steady execution (no [InstallSnapshot] handled,
    no unencoded entries overwritten), if the logs of two nodes hold at one index entries of the same term, then the entries at every index up to it
    that both logs still hold are equal, commands included. *)
Theorem log_matching n s i j rfi rfj v ei ej :
  steady n s → nodes s !! i = Some rfi → nodes s !! j = Some rfj →
  entry_at rfi v = Some ei → entry_at rfj v = Some ej → le_Term ei = le_Term ej →
  ∀ u, lastIncludedIndex rfi ≤ u ≤ v → lastIncludedIndex rfj ≤ u → entry_at rfi u = entry_at rfj u.
Proof.
  intros (V & G & HS)%steady_safe Hi Hj Hei Hej Ht u Hu Hu'.
  destruct (safe_node _ _ _ _ HS _ _ Hi) as (Fi & HFi). destruct (safe_node _ _ _ _ HS _ _ Hj) as (Fj & HFj).
  destruct (node_log_lookup _ _ _ _ _ _ _ HFi Hei) as [_ Hli]. destruct (node_log_lookup _ _ _ _ _ _ _ HFj Hej) as [_ Hlj].
  pose proof (same_term_same_log G Fi Fj _ _ _ (ns_sound _ _ _ _ _ HFi) (ns_sound _ _ _ _ _ HFj) Hli Hlj Ht) as Htk.
  rewrite (node_entry _ _ _ _ _ _ HFi), (node_entry _ _ _ _ _ _ HFj) by lia.
  rewrite <-(lookup_take_lt Fi (S (Z.to_nat v))), Htk, lookup_take_lt by lia. done.
Qed.

(** What was committed in a state is committed in the history of a later one. *)
Lemma delivered_applied n V G s i rf m :
  Safe n V G s → nodes s !! i = Some rf → m ∈ applyCh rf → applied n G (currentTerm rf) m.
Proof.
  intros HS Hi Hm. destruct (safe_node _ _ _ _ HS _ _ Hi) as (F & HF). apply (ns_msgs _ _ _ _ _ HF).
  apply elem_of_app. by left.
Qed.

(** C1. State machine safety: in steady executions (no [InstallSnapshot] handled, no
    unencoded entries overwritten), when two services, of the same or of different
    nodes, at the same or at different times, have received messages for one index,
    the messages are equal: no two state machines apply different commands at one
    index. *)
Theorem state_machine_safety n s es s' i j rf rf' m m' :
  steady n s → run_steady es s = Some s' →
  nodes s !! i = Some rf → nodes s' !! j = Some rf' →
  m ∈ applyCh rf → m' ∈ applyCh rf' → CommandIndex m = CommandIndex m' → m = m'.
Proof.
  intros (V & G & HS)%steady_safe Hrun Hi Hj Hm Hm' Hidx.
  destruct (run_safe _ _ _ _ _ _ HS Hrun) as (V' & G' & HS' & HG).
  pose proof (delivered_applied _ _ _ _ _ _ _ HS Hi Hm) as Ha.
  apply (applied_ext _ _ G' _ _ _ HG (Z.le_refl _)) in Ha as (p & e & Hcm & Hpos & He & Hmsg).
  destruct (delivered_applied _ _ _ _ _ _ _ HS' Hj Hm') as (p' & e' & Hcm' & _ & He' & Hmsg').
  assert (e = e') as <-.
  { destruct (inv_nodes _ _ _ (safe_inv _ _ _ _ HS') _ _ Hj) as (Hjn & _). rewrite <-Hidx in He'.
    destruct (committed_agree n V' G' _ _ p p' ltac:(lia) (safe_ghost _ _ _ _ HS') Hcm Hcm') as [Hp|Hp].
    - pose proof (prefix_lookup_Some _ _ _ _ Hp He). congruence.
    - pose proof (prefix_lookup_Some _ _ _ _ Hp He'). congruence. }
  rewrite Hmsg, Hmsg'. by rewrite Hidx.
Qed.

(** C5. Leader completeness: in steady executions (no [InstallSnapshot] handled, no
    unencoded entries overwritten), what a service has received is in the log of
    every leader of the same or a later term, at that time and later, unless that
    leader has compacted it away. *)
Theorem leader_has_applied n s es s' i j rf rf' m :
  steady n s → run_steady es s = Some s' →
  nodes s !! i = Some rf → nodes s' !! j = Some rf' → m ∈ applyCh rf →
  state rf' = Leader → currentTerm rf ≤ currentTerm rf' →
  CommandIndex m ≤ lastIndex rf' ∧
  (lastIncludedIndex rf' ≤ CommandIndex m →
   entry_at rf' (CommandIndex m) = Some (mkEntry (CommandTerm m) (Command m))).
Proof.
  intros (V & G & HS)%steady_safe Hrun Hi Hj Hm HL HT.
  destruct (run_safe _ _ _ _ _ _ HS Hrun) as (V' & G' & HS' & HG).
  pose proof (delivered_applied _ _ _ _ _ _ _ HS Hi Hm) as Ha.
  apply (applied_ext _ _ G' _ _ _ HG (Z.le_refl _)) in Ha as (p & e & Hcm & Hpos & He & Hmsg).
  destruct (safe_node _ _ _ _ HS' _ _ Hj) as (F & HF). destruct (ns_leader _ _ _ _ _ HF HL) as (l & Hl).
  pose proof (ns_leads _ _ _ _ _ HF _ Hl) as <-.
  destruct (inv_nodes _ _ _ (safe_inv _ _ _ _ HS') _ _ Hj) as (Hjn & _).
  assert (p `prefix_of` F) as Hp by (by eapply (committed_in_leader n); [lia|apply HS'|done..]).
  pose proof (prefix_lookup_Some _ _ _ _ Hp He) as HFe.
  destruct (node_last_index _ _ _ _ _ HF) as (-> & _). pose proof (lookup_lt_Some _ _ _ HFe). split; [unfold len; lia|].
  intros Hbase. rewrite (node_entry _ _ _ _ _ _ HF), HFe, Hmsg by done. by destruct e.
Qed.
End safety.

(** ** Concrete executions

    Three nodes.  Node 0 wins term 2 and replicates command 10 to both others and
    command 20 to node 1 only.  Its log compacted at index 1, a snapshot for node 1 is
    under way when node 1 receives both commands. *)
Section examples.
#[local] Existing Instance gob_example.

Definition replicate_events : list (Event Z) :=
  [ECommit 0; ECommit 1; ECommit 2;
   ETimeout 0 0; EDeliver 0 0; EReceive 0 0; ELose 0; ETimeout 0 0; EDeliver 0 0; EReceive 0 0; ELose 0;
   EStart 0 0 (Some 10); ETimeout 0 0; EBegin 0; EEncode 0; EBegin 1; EEncode 1; EDeliver 1 0;
   EReceive 1 0; EDeliver 0 0; ELose 0;
   ECommit 0; ECommit 0; ECommit 0; ECommit 0;
   EStart 0 0 (Some 20); ETimeout 0 0; EBegin 0; EEncode 0; EBegin 1; EEncode 1; ELose 1; ESnapshot 0 1 [x01];
   ETimeout 0 0; EBegin 1; EDeliver 0 0; EReceive 0 0; ECommit 0; ECommit 0; ECommit 0; ECommit 0].

(** Node 1 learns that both are committed and applies them. *)
Definition commit_events : list (Event Z) :=
  [ETimeout 0 0; EBegin 2; EEncode 2; EDeliver 2 0; ECommit 1; ECommit 1; ECommit 1; ECommit 1; ECommit 1].

(** Node 1 wins term 3 with the vote of node 2. *)
Definition election_events : list (Event Z) :=
  [ETimeout 1 0; EDeliver 5 0; EReceive 5 0; ETimeout 1 0; EDeliver 6 0; EReceive 6 0].

Definition safety_init : Sys Z := init 3 (λ i, i) 0.
Definition replicate_state : Sys Z := default safety_init (run_steady replicate_events safety_init).
Definition elected_state : Sys Z :=
  default safety_init (run_steady (commit_events ++ election_events) replicate_state).
Definition node_of (s : Sys Z) (i : Z) : Raft Z := default (Make 3 i MakePersister 0 0) (nodes s !! i).
Definition msg_example : ApplyMsg Z := mkApplyMsg true (Some 20) 2 2 false [] 0 0.

Lemma replicate_steady : steady 3 replicate_state.
Proof. exists (λ i, i), 0, replicate_events. by vm_compute. Qed.

Lemma elected_steady : steady 3 elected_state.
Proof.
  exists (λ i, i), 0, (replicate_events ++ commit_events ++ election_events). by vm_compute.
Qed.

Lemma log_matching_witness :
  entry_at (node_of elected_state 0) 1 = entry_at (node_of elected_state 1) 1 ∧
  entry_at (node_of elected_state 1) 1 = Some (mkEntry 2 (Some 10)).
Proof.
  split; [|by vm_compute].
  apply (log_matching 3 elected_state 0 1 (node_of elected_state 0) (node_of elected_state 1) 2
           (mkEntry 2 (Some 20)) (mkEntry 2 (Some 20))).
  - apply elected_steady.
  - by vm_compute.
  - by vm_compute.
  - by vm_compute.
  - by vm_compute.
  - done.
  - by vm_compute.
  - by vm_compute.
Defined.

Lemma state_machine_safety_witness :
  last (applyCh (node_of replicate_state 0)) = Some msg_example ∧
  last (applyCh (node_of elected_state 1)) = Some msg_example ∧
  msg_example = msg_example.
Proof.
  split; [by vm_compute|]. split; [by vm_compute|].
  apply (state_machine_safety 3 replicate_state (commit_events ++ election_events) elected_state 0 1
           (node_of replicate_state 0) (node_of elected_state 1)).
  - apply replicate_steady.
  - by vm_compute.
  - by vm_compute.
  - by vm_compute.
  - apply list_elem_of_lookup_2 with 1%nat. by vm_compute.
  - apply list_elem_of_lookup_2 with 1%nat. by vm_compute.
  - done.
Defined.

Lemma leader_has_applied_witness :
  state (node_of elected_state 1) = Leader ∧ currentTerm (node_of elected_state 1) = 3 ∧
  entry_at (node_of elected_state 1) 2 = Some (mkEntry 2 (Some 20)).
Proof.
  split; [by vm_compute|]. split; [by vm_compute|].
  destruct (leader_has_applied 3 replicate_state (commit_events ++ election_events) elected_state 0 1
    (node_of replicate_state 0) (node_of elected_state 1) msg_example) as [_ He].
  - apply replicate_steady.
  - by vm_compute.
  - by vm_compute.
  - by vm_compute.
  - apply list_elem_of_lookup_2 with 1%nat. by vm_compute.
  - by vm_compute.
  - by vm_compute.
  - apply He. by vm_compute.
Defined.

(** Node 1 compacts its log at index 2; then the snapshot of index 1 reaches it and
    takes command 20 out of its log.  It wins term 3, and command 30 takes the index. *)
Definition stale_snapshot_events : list (Event Z) :=
  replicate_events ++ commit_events ++
  [ESnapshot 1 2 [x02]; EDeliver 0 0] ++ election_events ++
  [EStart 1 0 (Some 30); ETimeout 1 0; EBegin 7; EEncode 7; EDeliver 7 0; ECommit 2; ECommit 2; ECommit 2; ECommit 2].

Definition stale_snapshot_state : Sys Z := default safety_init (run stale_snapshot_events safety_init).

(** C36. A delayed [InstallSnapshot] breaks state machine safety: the cluster
    reaches a state in which the services of nodes 0 and 2 have received different
    commands at index 2. *)
Theorem stale_snapshot_unsafe :
  reachable 3 stale_snapshot_state ∧
  (λ m, (CommandIndex m, Command m)) <$> applyCh (node_of stale_snapshot_state 0) = [(1, Some 10); (2, Some 20)] ∧
  (λ m, (CommandIndex m, Command m)) <$> applyCh (node_of stale_snapshot_state 2) = [(1, Some 10); (2, Some 30)].
Proof.
  split; [|by vm_compute].
  apply (run_reachable 3 stale_snapshot_events safety_init); [apply reach_init|by vm_compute].
Qed.

(** Five nodes.  Node 0 leads term 2, replicates command 10 to node 2 and has a call for
    node 2 with command 20 that is not yet encoded.  Node 1 wins term 3 with the votes of
    nodes 3 and 4 and commits commands 30 and 40.  Node 0 receives them: they take the
    places of 10 and 20 in its array, which has room for them.  The call of term 2,
    encoded now, gives node 2 command 40 of term 3 behind command 10. *)
Definition shared_entries_events : list (Event Z) :=
  [ECommit 0; ECommit 1; ECommit 2; ECommit 3; ECommit 4;
   ETimeout 0 0; EDeliver 0 0; EReceive 0 0; EDeliver 0 0; EReceive 0 0; ELose 0; ELose 0;
   ETimeout 0 0; EDeliver 0 0; EReceive 0 0; EDeliver 0 0; EReceive 0 0; ELose 0; ELose 0;
   EStart 0 0 (Some 10); ETimeout 0 0; EBegin 1; EEncode 1; EDeliver 1 0; EReceive 1 0;
   EStart 0 0 (Some 20); ETimeout 0 0; EBegin 4;
   ETimeout 1 0; EDeliver 9 0; EReceive 9 0; EDeliver 9 0; EReceive 9 0;
   ETimeout 1 0; EDeliver 11 0; EReceive 11 0; EDeliver 11 0; EReceive 11 0;
   EStart 1 0 (Some 30); EStart 1 0 (Some 40); ETimeout 1 0;
   EBegin 13; EEncode 13; EDeliver 13 0; EReceive 13 0; EBegin 13; EEncode 13; EDeliver 13 0; EReceive 13 0;
   ECommit 1; ECommit 1; ECommit 1; ECommit 1; ETimeout 1 0; EBegin 13; EEncode 13; EDeliver 13 0;
   EEncode 4; EDeliver 4 0].

(** Node 0 wins term 4; its log and that of node 2 end with the same entry. *)
Definition shared_entries_later : list (Event Z) :=
  [ETimeout 0 0; EDeliver 19 0; EReceive 19 0; EDeliver 19 0; EReceive 19 0;
   ETimeout 0 0; EDeliver 21 0; EReceive 21 0; EDeliver 21 0; EReceive 21 0;
   ETimeout 0 0; EBegin 22; EEncode 22; EDeliver 22 0; ECommit 2; ECommit 2; ECommit 2; ECommit 2].

Definition shared_entries_init : Sys Z := init 5 (λ i, i) 0.
Definition shared_entries_state : Sys Z :=
  default shared_entries_init (run (shared_entries_events ++ shared_entries_later) shared_entries_init).

(** No event of the run makes a server handle [InstallSnapshot]. *)
Fixpoint no_installs (es : list (Event Z)) (s : Sys Z) : bool :=
  match es with
  | [] => true
  | e :: es => negb (installs_snapshot e s) && match exec e s with Some s' => no_installs es s' | None => false end
  end.

Definition applied_at (s : Sys Z) (i : Z) : option (list (Z * option Z)) :=
  (λ rf, (λ m, (CommandIndex m, Command m)) <$> applyCh rf) <$> nodes s !! i.

(** C37. Entries shared with the log break state machine safety: in a run without
    [InstallSnapshot], a call of [AppendEntries] that is encoded after the leader's log
    has been overwritten in place carries an entry of a later term, and the services of
    nodes 1 and 2 receive different commands at index 1. *)
Theorem shared_entries_unsafe :
  no_installs (shared_entries_events ++ shared_entries_later) shared_entries_init = true ∧
  reachable 5 shared_entries_state ∧
  applied_at shared_entries_state 1 = Some [(1, Some 30); (2, Some 40)] ∧
  applied_at shared_entries_state 2 = Some [(1, Some 10); (2, Some 40)].
Proof.
  split; [by vm_compute|]. split; [|by vm_compute].
  apply (run_reachable 5 (shared_entries_events ++ shared_entries_later) shared_entries_init); [apply reach_init|by vm_compute].
Qed.
End examples.
