(* ===== verification/RaftService.v ===== *)
(** * raft: services over a cluster

    A service of [src/src] (kvraft, shardctrler) runs one server per Raft node: it
    takes the messages of [applyCh] one by one, may hand a snapshot of its state back
    with [Snapshot], and starts again from the snapshot after a crash.
    [StateMachine] is what Raft asks of such a service and [Lawful] what the service
    promises; [replicas_agree] is what Raft promises in return. *)
From Stdlib Require Import Init.Byte.
From S2P Require Import Prelude LabGob Raft RaftVote RaftAppend RaftSnapshot RaftNode.
From S2P Require Import RaftFrames RaftSystem RaftElection RaftLog RaftGhost RaftReplicate.
From S2P Require Import RaftInvariant RaftSteps RaftSafety.

(** A service with state [K] and commands [C]; [E] is what else the handling of a
    message depends on, [O] the steps of its other goroutines. *)
Class StateMachine (K C E O : Type) := {
  sm_start : Persister → K;
  sm_apply : E → K → ApplyMsg C → option K;      (* [None]: blocks or panics *)
  sm_other : O → K → K;
  sm_snap : K → Z → Z → option (list byte);      (* after an index, with a size of the log *)
}.

(** The service executes commands: [sm_holds ops k] says that [k] results from [ops],
    the commands of the log from its first entry on, nil ones included. *)
Class Lawful {K C E O : Type} (sm : StateMachine K C E O) := {
  sm_holds : list (option C) → K → Prop;
  sm_index : K → Z;
  start_holds ps : snapshot ps = [] → sm_holds [] (sm_start ps) ∧ sm_index (sm_start ps) ≤ 0;
  apply_holds env ops k msg k' :
    sm_holds ops k → CommandValid msg = true → SnapshotTerm msg = 0 → sm_index k < CommandIndex msg →
    CommandIndex msg = len ops + 1 → sm_apply env k msg = Some k' →
    sm_holds (ops ++ [Command msg]) k' ∧ sm_index k' ≤ CommandIndex msg;
  other_holds o ops k : sm_holds ops k → sm_holds ops (sm_other o k) ∧ sm_index (sm_other o k) ≤ sm_index k;
  snap_holds ops k index size b ps :
    sm_holds ops k → sm_snap k index size = Some b → snapshot ps = b →
    sm_holds ops (sm_start ps) ∧ sm_index (sm_start ps) ≤ 0;
}.

(** The commands that are not nil. *)
Lemma omap_comparable {A} (l l' : list (option A)) :
  l `prefix_of` l' ∨ l' `prefix_of` l → omap id l `prefix_of` omap id l' ∨ omap id l' `prefix_of` omap id l.
Proof. intros [[k ->]|[k ->]]; rewrite omap_app; [left|right]; by eexists. Qed.

Section service.
Context {C : Type} {gob : Gob (RaftGob C)} {K E O : Type} {sm : StateMachine K C E O}.
Implicit Types (rf : Raft C) (s : Sys C) (k : K) (G : Ghost C).

(** ** The system *)

(** Each server with the number of messages it has taken from its [applyCh]. *)
Record Cluster := mkCluster {
  raft : Sys C;
  replicas : gmap Z (K * nat);
}.

Inductive ClusterEvent :=
| CRaft (e : Event C)                    (* a step of Raft *)
| CApply (i : Z) (env : E)               (* server [i] handles its next message *)
| COther (i : Z) (o : O)                 (* another goroutine of server [i] *)
| CSnapshot (i : Z)                      (* server [i] calls [Snapshot] *)
| CRestart (i rnd now : Z).              (* node [i] and its server crash and restart *)

(** The steps of Raft alone: [Snapshot] and restarts are steps of the server as well. *)
Definition raft_step (e : Event C) : bool :=
  match e with ESnapshot _ _ _ | ERestart _ _ _ => false | _ => true end.

(** The executions are steady: see [exec_steady]. *)
Definition cluster_exec (e : ClusterEvent) (c : Cluster) : option Cluster :=
  match e with
  | CRaft e => if raft_step e then s' ← exec_steady e (raft c); Some (mkCluster s' (replicas c)) else None
  | CApply i env =>
      rf ← nodes (raft c) !! i;
      '(k, taken) ← replicas c !! i;
      msg ← applyCh rf !! taken;
      k' ← sm_apply env k msg;
      Some (mkCluster (raft c) (<[i := (k', S taken)]> (replicas c)))
  | COther i o =>
      '(k, taken) ← replicas c !! i;
      Some (mkCluster (raft c) (<[i := (sm_other o k, taken)]> (replicas c)))
  | CSnapshot i =>
      rf ← nodes (raft c) !! i;
      '(k, taken) ← replicas c !! i;
      msg ← applyCh rf !! pred taken;
      if decide (taken = 0%nat) then None
      else
        data ← sm_snap k (CommandIndex msg) (GetRaftStateSize rf);
        s' ← exec_steady (ESnapshot i (CommandIndex msg) data) (raft c);
        Some (mkCluster s' (replicas c))
  | CRestart i rnd now =>
      rf ← nodes (raft c) !! i;
      _ ← replicas c !! i;
      s' ← exec_steady (ERestart i rnd now) (raft c);
      Some (mkCluster s' (<[i := (sm_start (persister rf), 0%nat)]> (replicas c)))
  end.

Definition cluster_init (n : Z) (rnd : Z → Z) (now : Z) : Cluster :=
  mkCluster (init n rnd now) (list_to_map ((λ i, (i, (sm_start MakePersister, 0%nat))) <$> zrange n)).

Fixpoint cluster_run (es : list ClusterEvent) (c : Cluster) : option Cluster :=
  match es with [] => Some c | e :: es => c' ← cluster_exec e c; cluster_run es c' end.

(** ** What a node has handed to its server *)

(** The goroutine [CommitChecker], whether it has been woken or not. *)
Definition phase_of rf : CommitPhase C := match commitCh rf with CCWoken => CCWait | ph => ph end.

Definition courier rf : list (ApplyMsg C) * CommitPhase C * Z * Z * list byte :=
  (applyCh rf, phase_of rf, lastApplied rf, lastIncludedIndex rf, snapShot rf).

Lemma courier_trysend rf : courier (commitCh_trysend rf) = courier rf.
Proof. unfold courier, phase_of, commitCh_trysend. by destruct (commitCh rf) eqn:Eq; simpl; rewrite ?Eq. Qed.

Ltac solve_courier := first [done|(etrans; [apply courier_trysend|done])].

Lemma handle_courier ns t rnd server rf' t' :
  installs t = false → handle ns t rnd = Some (server, rf', t') →
  ∃ rf, ns !! server = Some rf ∧ courier rf' = courier rf ∧ currentTerm rf ≤ currentTerm rf'.
Proof.
  intros Hno Hh. pose proof (handle_le _ _ _ _ _ _ Hh) as (rf & Hrf & [HT _]). exists rf. split_and!; [done| |done].
  clear HT. unfold handle in Hh.
  destruct t as [o sv ph|o sv ph|o sv args ph|o sv ph]; [..|done]; destruct ph as [|a|]; try discriminate Hh.
  all: destruct (ns !! sv) as [rf1|] eqn:Hrf1; [|discriminate Hh]; simpl in Hh.
  all: try (destruct (of_outcome _) as [[rf2 reply]|] eqn:Ho in Hh; [|discriminate Hh]; apply of_outcome_Some in Ho).
  all: simpl in Hh; simplify_eq.
  - by run RequestVote in Ho.
  - done.
  - run AppendEntries in Ho; solve_courier.
Qed.

Lemma receive_courier s (x : nat) rnd s' :
  (∀ t, t ∈ tasks s → match t with TInstall _ _ (Replied _ _) => False | _ => True end) →
  receive_task s x rnd = Some s' →
  ∃ i rf rf', nodes s !! i = Some rf ∧ nodes s' = <[i := rf']> (nodes s) ∧ courier rf' = courier rf ∧
    currentTerm rf ≤ currentTerm rf'.
Proof.
  intros Hno H. unfold receive_task in H.
  destruct (tasks s !! x) as [t|] eqn:Hk; [|discriminate H]. simpl in H.
  apply list_elem_of_lookup_2, Hno in Hk.
  destruct (nodes s !! owner t) as [rf|] eqn:Hrf; [|discriminate H]. simpl in H.
  destruct t as [o sv []|o sv []|o sv args []|o sv []]; try discriminate H; simpl in Hrf; try done.
  all: try (destruct (of_outcome _) as [[rf' b]|] eqn:Ho in H; [|discriminate H]; apply of_outcome_Some in Ho).
  all: simplify_eq/=; eexists o, rf, _; split; [done|]; split; [done|].
  - split; [|by apply counted_le in Ho as [? _]]. run sendRequestVote in Ho; try done.
    match goal with H : reinit_indices _ = Ret _ |- _ => apply reinit_indices_frame in H as (?&?&->&_&_) end. done.
  - split; [unfold sendPreVote; by repeat case_match|]. destruct (quiet_le _ _ (sendPreVote_quiet rf true reply)) as [? _]. done.
  - split; [|by destruct (quiet_le _ _ (sendAppendEntries_quiet _ _ _ _ _ _ _ Ho)) as [? _]].
    run sendAppendEntries in Ho; try done.
    + match goal with H : backup_loop _ _ _ = _ |- _ => apply backup_loop_frame in H as (?&->&_) end. done.
    + match goal with H : commit_loop _ _ = _ |- _ => apply commit_loop_frame in H as [->|(?&_&_&->)] end; solve_courier.
Qed.

Lemma courier_insert (ns : gmap Z (Raft C)) i rf rf' j rfj :
  ns !! i = Some rf → courier rf' = courier rf → currentTerm rf ≤ currentTerm rf' → ns !! j = Some rfj →
  ∃ rfj', <[i := rf']> ns !! j = Some rfj' ∧ courier rfj' = courier rfj ∧ currentTerm rfj ≤ currentTerm rfj'.
Proof.
  intros Hi Hc HT Hj. destruct (decide (j = i)) as [->|Hne].
  - rewrite lookup_insert_eq. exists rf'. rewrite Hi in Hj. by injection Hj as <-.
  - rewrite lookup_insert_ne by done. by exists rfj.
Qed.

(** Only [CommitChecker] hands messages over. *)
Lemma step_courier n V G s e s' :
  Safe n V G s → raft_step e = true → installs_snapshot e s = false → (∀ i, e ≠ ECommit i) → step e s = Some s' →
  ∀ j rfj, nodes s !! j = Some rfj →
    ∃ rfj', nodes s' !! j = Some rfj' ∧ courier rfj' = courier rfj ∧ currentTerm rfj ≤ currentTerm rfj'.
Proof.
  intros HS Hok Hno Hnc H.
  assert (∀ f i, (∀ rf rf' gos, f rf = Ret (rf', gos) → courier rf' = courier rf ∧ currentTerm rf ≤ currentTerm rf') →
    node_spawn s i f = Some s' → ∀ j rfj, nodes s !! j = Some rfj →
    ∃ rfj', nodes s' !! j = Some rfj' ∧ courier rfj' = courier rfj ∧ currentTerm rfj ≤ currentTerm rfj') as Hspawn.
  { clear H. intros f i Hf H. unfold node_spawn in H. destruct (nodes s !! i) as [rf|] eqn:Hi; [|discriminate H].
    simpl in H. destruct (of_outcome _) as [[rf' gos]|] eqn:Ho; [|discriminate H]. simplify_eq/=.
    apply of_outcome_Some, Hf in Ho as [??]. intros. by eapply courier_insert. }
  destruct e as [i rnd|i|i now c|i idx d|i|i|i k|k|k|i|k rnd|k|k rnd|i rnd now|k rnd]; simpl in H, Hok, Hno; unfold node_step in H;
    try (destruct (nodes s !! i) as [rf|] eqn:Hrf in H; [|discriminate H]; simpl in H); try discriminate Hok.
  - destruct (killed rf); [done|]. revert H. apply Hspawn. intros rf1 rf' gos Hf. split.
    + run ticker_timeout in Hf; try done. by apply doLeader_frame in Hf as ->.
    + by apply ticker_timeout_cases in Hf as [[[? _]%quiet_le _]|[? _]%stands_le].
  - destruct (_ || _); [done|]. revert H. apply Hspawn. intros rf1 rf' gos Hf. split.
    + run ticker_msg in Hf; [|done]. by apply doLeader_frame in Hf as ->.
    + by apply ticker_msg_frame in Hf as [[? _]%quiet_le _].
  - destruct (of_outcome _) as [rf'|] eqn:Ho; [|discriminate H]. simplify_eq/=. apply of_outcome_Some in Ho. brk Ho.
    intros. eapply courier_insert; [done| |by destruct (quiet_le _ _ (Start_quiet _ _ _ _ _ Ho0))|done]. by run Start in Ho0.
  - simplify_eq/=. intros. by eapply courier_insert.
  - by destruct (Hnc i).
  - destruct (safe_node _ _ _ _ HS _ _ Hrf) as (F & HF). unfold snap_send in H.
    rewrite (ns_snap _ _ _ _ _ HF) in H. discriminate H.
  - assert (nodes s' = nodes s) as -> by (eapply lose_begin_nodes; eauto). intros j rfj Hj. by exists rfj.
  - assert (nodes s' = nodes s) as -> by (eapply lose_begin_nodes; eauto). intros j rfj Hj. by exists rfj.
  - injection H as <-. intros j rfj Hj. by exists rfj.
  - unfold deliver_task in H. destruct (tasks s !! k) as [t|]; [|discriminate H]. simpl in H.
    destruct (handle _ _ _) as [[[sv rf'] t']|] eqn:Hh; [|discriminate H]. simplify_eq/=.
    apply handle_courier in Hh as (rf & ? & ? & ?); [|done]. intros. by eapply courier_insert.
  - assert (nodes s' = nodes s) as -> by (eapply lose_begin_nodes; eauto). intros j rfj Hj. by exists rfj.
  - apply receive_courier in H as (i & rf & rf' & ? & -> & ? & ?); [intros; by eapply courier_insert|].
    intros t Ht%(safe_tasks _ _ _ _ HS). by destruct t as [| | |? ? []].
  - unfold deliver_orphan in H. destruct (orphans s !! k) as [t|]; [|discriminate H]. simpl in H.
    destruct (handle _ _ _) as [[[sv rf'] t']|] eqn:Hh; [|discriminate H]. simplify_eq/=.
    apply handle_courier in Hh as (rf & ? & ? & ?); [|done]. intros. by eapply courier_insert.
Qed.

(** The messages handed over since the start, and those about to be, have consecutive
    indices from [base] on, and [lastApplied] keeps up with them. *)
Definition dlv (base : Z) rf : Prop :=
  let d := base + len (applyCh rf) in
  0 ≤ base ∧ CommandIndex <$> applyCh rf = zfrom (base + 1) (length (applyCh rf)) ∧
  CommandIndex <$> pending (phase_of rf) = zfrom (d + 1) (length (pending (phase_of rf))) ∧
  match phase_of rf with
  | CCSent msg _ => CommandIndex msg = d ∧ (lastApplied rf = d ∨ lastApplied rf = d - 1)
  | _ => lastApplied rf = d
  end.

Lemma dlv_courier base rf rf' : courier rf' = courier rf → dlv base rf → dlv base rf'.
Proof. unfold courier, dlv. intros [= -> -> -> _ _]. done. Qed.

Lemma zfrom_app a (k l : nat) : zfrom a (k + l) = zfrom a k ++ zfrom (a + Z.of_nat k) l.
Proof.
  revert a. induction k as [|k IH]; intros a; simpl; [by rewrite Z.add_0_r|].
  rewrite IH. do 3 f_equal. lia.
Qed.

Lemma dlv_commit n G F i base rf rf' :
  node_safe n G F i rf → lastIncludedIndex rf ≤ base + len (applyCh rf) → dlv base rf →
  CommitChecker rf = Some (Ret rf') →
  dlv base rf' ∧ applyCh rf `prefix_of` applyCh rf' ∧ lastIncludedIndex rf' = lastIncludedIndex rf ∧
  snapShot rf' = snapShot rf ∧ currentTerm rf' = currentTerm rf.
Proof.
  intros HF Hli (Hb & Ha & Hp & Hph) H. unfold phase_of in *.
  unfold CommitChecker in H. destruct (commitCh rf) as [| |[|m buf]|m buf] eqn:Eph; [done|..].
  - destruct (Z.ltb_spec (commitIndex rf - lastApplied rf) 0); [done|].
    rewrite collect_loop_spec, bind_Ret in H. injection H as <-. split; [|by split_and!].
    split_and!; [done|done| |done]. unfold phase_of. simpl. destruct (node_last_index _ _ _ _ _ HF) as (Hlast & _ & Hc).
    assert (CommandIndex <$> omap (msg_at rf) (zfrom (lastApplied rf + 1) (Z.to_nat (commitIndex rf - lastApplied rf))) =
            zfrom (lastApplied rf + 1) (Z.to_nat (commitIndex rf - lastApplied rf))) as Hz by (apply zfrom_snd_msgs; lia).
    rewrite <-Hph, Hz. f_equal. apply (f_equal length) in Hz. by rewrite length_fmap, length_zfrom in Hz.
  - destruct (killed rf); [done|]. injection H as <-. split; [|by split_and!]. by split_and!.
  - injection H as <-. cbn [pending length zfrom] in Hp. rewrite fmap_cons in Hp.
    injection Hp as Hm Hbuf. split; [|split_and!; [by eexists|done..]].
    unfold dlv, phase_of. simpl. rewrite fmap_app, Ha, length_app, len_app, zfrom_app. simpl. unfold len in *. simpl.
    split_and!; [done|by rewrite Hm; do 2 f_equal; lia| |lia|lia]. rewrite Hbuf. f_equal. lia.
  - destruct Hph as [Hm Hla].
    assert (∃ la, rf' = rf <| commitCh := CCSend buf |> <| lastApplied := la |> ∧ la = base + len (applyCh rf)) as (la & -> & ->).
    { simpl in H. destruct (Z.eqb_spec (CommandIndex m) (lastApplied rf + 1)); simpl in H; injection H as <-.
      - eexists. split; [reflexivity|]. unfold max. rewrite Z.gtb_ltb. destruct (Z.ltb_spec (lastApplied rf) (CommandIndex m)); lia.
      - exists (lastApplied rf). split; [by destruct rf|lia]. }
    split; [|by split_and!]. by split_and!.
Qed.

Lemma zfrom_index base (msgs : list (ApplyMsg C)) (x : nat) msg :
  CommandIndex <$> msgs = zfrom (base + 1) (length msgs) → msgs !! x = Some msg → CommandIndex msg = base + 1 + Z.of_nat x.
Proof.
  intros Hall Hm. assert ((CommandIndex <$> msgs) !! x = Some (CommandIndex msg)) as Hl by (by rewrite list_lookup_fmap, Hm).
  rewrite Hall in Hl. assert (∀ l (a : Z) (y : nat) v, zfrom a l !! y = Some v → v = a + Z.of_nat y) as Hz.
  { induction l as [|l IH]; intros a [|y] v; simpl; try done; [intros [= <-]; lia|]. intros Hv%IH. lia. }
  by apply Hz in Hl.
Qed.

(** A restarted node has handed nothing over. *)
Lemma Make_handed rf rnd now :
  synced rf →
  let rf' := Make (peers rf) (me rf) (persister rf) rnd now in
  applyCh rf' = [] ∧ phase_of rf' = CCSend [] ∧ lastApplied rf' = lastIncludedIndex rf'.
Proof.
  intros [_ Hst]. unfold Make, phase_of. rewrite readSnapshot_fields.
  assert (∀ rf0, readPersist rf0 [] = rf0) as Hnil by done.
  destruct Hst as [Hst|(Hst & _)]; unfold ReadRaftState, clone; by rewrite Hst, ?readPersist_encodeState, ?Hnil.
Qed.

(** ** The servers *)

Context {law : Lawful sm}.

(** The commands up to index [v]. *)
Definition cmds (p : list (LogEntry C)) (v : Z) : list (option C) := le_Command <$> take (Z.to_nat v) (drop 1 p).

Lemma length_cmds (p : list (LogEntry C)) v : 0 ≤ v → (Z.to_nat v < length p)%nat → len (cmds p v) = v.
Proof. intros Hv Hp. unfold len, cmds. rewrite length_fmap, length_take, length_drop. lia. Qed.

Lemma cmds_prefix (p p' : list (LogEntry C)) v : p `prefix_of` p' → (Z.to_nat v < length p)%nat → cmds p' v = cmds p v.
Proof.
  intros [r ->] Hv. unfold cmds. f_equal. rewrite drop_app_le, take_app_le by (rewrite ?length_drop; lia). done.
Qed.

Lemma cmds_next (p : list (LogEntry C)) v e :
  0 ≤ v → p !! Z.to_nat (v + 1) = Some e → cmds p (v + 1) = cmds p v ++ [le_Command e].
Proof.
  intros Hv He. unfold cmds. replace (Z.to_nat (v + 1)) with (S (Z.to_nat v)) in * by lia.
  rewrite (take_S_r _ _ e), fmap_app; [done|]. by rewrite lookup_drop.
Qed.

Lemma cmds_agree (p p' : list (LogEntry C)) v v' :
  p `prefix_of` p' ∨ p' `prefix_of` p → (Z.to_nat v < length p)%nat → (Z.to_nat v' < length p')%nat →
  cmds p v `prefix_of` cmds p' v' ∨ cmds p' v' `prefix_of` cmds p v.
Proof.
  assert (∀ (q : list (LogEntry C)) (a b : nat), (a ≤ b)%nat → le_Command <$> take a q `prefix_of` le_Command <$> take b q) as Hmono.
  { intros q a b Hab. destruct (take_prefix_le q a b Hab) as [r ->]. rewrite fmap_app. by eexists. }
  intros Hp Hv Hv'. assert (∃ q, cmds p v = cmds q v ∧ cmds p' v' = cmds q v') as (q & -> & ->).
  { destruct Hp as [Hp|Hp].
    - exists p'. split; [by rewrite (cmds_prefix p p')|done].
    - exists p. split; [done|by rewrite (cmds_prefix p' p)]. }
  unfold cmds. destruct (decide (Z.to_nat v ≤ Z.to_nat v')%nat); [left|right]; apply Hmono; lia.
Qed.

(** The server has executed the commands up to the last message it has taken, and its
    snapshot those up to where the log begins. *)
Definition server_ok (n : Z) G rf k (taken : nat) : Prop :=
  (∃ base p, dlv base rf ∧ (taken ≤ length (applyCh rf))%nat ∧ lastIncludedIndex rf ≤ base + Z.of_nat taken ∧
     committed n G (currentTerm rf) p ∧ (Z.to_nat (base + Z.of_nat taken) < length p)%nat ∧
     sm_holds (cmds p (base + Z.of_nat taken)) k ∧ sm_index k ≤ base + Z.of_nat taken) ∧
  (∃ p, committed n G (currentTerm rf) p ∧ (Z.to_nat (lastIncludedIndex rf) < length p)%nat ∧
     ∀ ps, snapshot ps = snapShot rf →
       sm_holds (cmds p (lastIncludedIndex rf)) (sm_start ps) ∧ sm_index (sm_start ps) ≤ 0).

(** The node moves and its server does not. *)
Lemma server_ok_move n G G' rf rf' k taken :
  ext G G' → currentTerm rf ≤ currentTerm rf' → applyCh rf `prefix_of` applyCh rf' →
  lastIncludedIndex rf' = lastIncludedIndex rf → snapShot rf' = snapShot rf →
  (∀ base, lastIncludedIndex rf ≤ base + len (applyCh rf) → dlv base rf → dlv base rf') →
  server_ok n G rf k taken → server_ok n G' rf' k taken.
Proof.
  intros HG HT Ha%prefix_length Hi Hs Hd ((base & p & Hdlv & Htk & Hle & Hcm & Hrest) & (p0 & Hcm0 & Hrest0)).
  assert (∀ p, committed n G (currentTerm rf) p → committed n G' (currentTerm rf') p) as Hcom.
  { intros. eapply committed_later; [done|]. by eapply committed_ext. }
  split.
  - exists base, p. rewrite Hi. split_and!; [apply Hd; [unfold len; lia|done]|lia|done|by apply Hcom|apply Hrest..].
  - exists p0. rewrite Hi, Hs. split_and!; [by apply Hcom|apply Hrest0..].
Qed.

Record Agree (n : Z) V G (c : Cluster) : Prop := {
  agree_safe : Safe n V G (raft c);
  agree_replicas i k taken : replicas c !! i = Some (k, taken) →
    ∃ rf, nodes (raft c) !! i = Some rf ∧ server_ok n G rf k taken;
}.

(** A step of Raft alone. *)
Lemma agree_raft n V G c e s' :
  Agree n V G c → raft_step e = true → exec_steady e (raft c) = Some s' →
  ∃ V' G', Agree n V' G' (mkCluster s' (replicas c)) ∧ grows (starts e) G G'.
Proof.
  intros [HS Hsv] Hok Hex.
  destruct (exec_safe _ _ _ _ _ _ HS Hex) as (V' & G' & HS' & HG).
  destruct (exec_steady_step _ _ _ _ _ _ HS Hex) as (Hno & _ & s1 & He & _ & Hns). exists V', G'. split; [|exact HG]. apply grows_ext in HG.
  split; [done|]. simpl. rewrite Hns. clear Hns Hex. intros i k taken Hi. destruct (Hsv i k taken Hi) as (rf & Hrf & Hs).
  assert ((∃ j, e = ECommit j) ∨ ∀ j, e ≠ ECommit j) as [[j ->]|Hnc] by (destruct e; naive_solver).
  - simpl in He. destruct (nodes (raft c) !! j) as [rfj|] eqn:Hj; [|discriminate He]. simpl in He.
    destruct (CommitChecker rfj) as [[rf'|]|] eqn:Hc; simplify_eq/=. destruct (decide (i = j)) as [->|Hne].
    + rewrite Hrf in Hj. injection Hj as <-. exists rf'. rewrite lookup_insert_eq. split; [done|].
      destruct (safe_node _ _ _ _ HS _ _ Hrf) as (F & HF). destruct Hs as ((base & p & Hdlv & Htk & Hle & Hrest) & Hs0).
      assert (lastIncludedIndex rf ≤ base + len (applyCh rf)) as Hli by (unfold len; lia).
      destruct (dlv_commit _ _ _ _ base _ _ HF Hli Hdlv Hc) as (_ & Hpre & Hi' & Hs' & HT).
      eapply (server_ok_move n G G' rf rf'); [done|lia|done|done|done| |split; [by exists base, p|done]].
      intros base' Hli' Hd'. by destruct (dlv_commit _ _ _ _ base' _ _ HF Hli' Hd' Hc) as (? & _).
    + exists rf. rewrite lookup_insert_ne by done. split; [done|]. by eapply (server_ok_move n G G' rf rf).
  - destruct (step_courier _ _ _ _ _ _ HS Hok Hno Hnc He i rf Hrf) as (rf' & Hrf' & Hc & HT).
    exists rf'. split; [done|]. pose proof Hc as [= Ha _ _ Hi' Hs'].
    eapply (server_ok_move n G G' rf rf'); [done|done|by rewrite Ha|done|done| |done]. intros base' _. by apply dlv_courier.
Qed.

(** A server handles a message. *)
Lemma agree_apply n V G c i env c' :
  Agree n V G c → cluster_exec (CApply i env) c = Some c' → Agree n V G c'.
Proof.
  intros [HS Hsv] H. simpl in H. destruct (nodes (raft c) !! i) as [rf|] eqn:Hrf; [|discriminate H]. simpl in H.
  destruct (replicas c !! i) as [[k taken]|] eqn:Hk; [|discriminate H]. simpl in H.
  destruct (applyCh rf !! taken) as [msg|] eqn:Hm; [|discriminate H]. simpl in H.
  destruct (sm_apply env k msg) as [k'|] eqn:Hap; [|discriminate H]. simplify_eq/=.
  split; simpl; [done|]. intros j kj tj [[<- [= <- <-]]|[Hne Hj]]%lookup_insert_Some; [|by apply Hsv].
  exists rf. split; [done|]. destruct (Hsv i k taken Hk) as (rf0 & Hrf0 & (base & p & Hdlv & Htk & Hle & Hcm & Hlen & Hh & Hix) & Hsnap).
  rewrite Hrf in Hrf0. injection Hrf0 as <-. split; [|done].
  pose proof Hdlv as (Hb & Hall & _). pose proof (lookup_lt_Some _ _ _ Hm) as Hlt.
  assert (CommandIndex msg = base + Z.of_nat taken + 1) as Hidx by (rewrite (zfrom_index base _ _ _ Hall Hm); lia).
  destruct (delivered_applied _ _ _ _ _ _ msg HS Hrf) as (p1 & e & Hcm1 & _ & He & Hmsg).
  { by eapply list_elem_of_lookup_2. }
  rewrite Hidx in He.
  assert (cmds p1 (base + Z.of_nat taken) = cmds p (base + Z.of_nat taken)) as Heq.
  { destruct (inv_nodes _ _ _ (safe_inv _ _ _ _ HS) _ _ Hrf) as (Hin & _). apply lookup_lt_Some in He.
    destruct (committed_agree n V G _ _ p p1 ltac:(lia) (safe_ghost _ _ _ _ HS) Hcm Hcm1) as [Hp|Hp].
    - by apply cmds_prefix.
    - symmetry. apply cmds_prefix; [done|lia]. }
  destruct (apply_holds env (cmds p (base + Z.of_nat taken)) k msg k') as [Hh' Hix'];
    [done|by rewrite Hmsg|by rewrite Hmsg|lia|rewrite length_cmds; [lia|lia|done]|done|].
  exists base, p1. replace (base + Z.of_nat (S taken)) with (base + Z.of_nat taken + 1) by lia.
  split_and!; [done|lia|lia|done|by apply lookup_lt_Some in He| |lia].
  rewrite (cmds_next p1 _ e), Heq; [|lia|done]. by rewrite Hmsg in Hh'.
Qed.

Lemma agree_other n V G c i o c' : Agree n V G c → cluster_exec (COther i o) c = Some c' → Agree n V G c'.
Proof.
  intros [HS Hsv] H. simpl in H. destruct (replicas c !! i) as [[k taken]|] eqn:Hk; [|discriminate H]. simplify_eq/=.
  split; simpl; [done|]. intros j kj tj [[<- [= <- <-]]|[Hne Hj]]%lookup_insert_Some; [|by apply Hsv].
  destruct (Hsv i k taken Hk) as (rf & Hrf & (base & p & Hdlv & Htk & Hle & Hcm & Hlen & Hh & Hix) & Hsnap).
  exists rf. split; [done|]. split; [|done]. destruct (other_holds o _ _ Hh) as [??].
  exists base, p. split_and!; [done|done|done|done|done|done|lia].
Qed.

Lemma Snapshot_courier rf index data rf' :
  Snapshot rf index data = Ret rf' →
  rf' = rf ∨
  (lastIncludedIndex rf' = index ∧ snapShot rf' = data ∧ applyCh rf' = applyCh rf ∧ phase_of rf' = phase_of rf ∧
   currentTerm rf' = currentTerm rf ∧ lastApplied rf' = Z.max (lastApplied rf) index).
Proof.
  intros H. run Snapshot in H; [by left|by left|right..].
  all: split_and!; try done. all: simpl in *.
  - apply Z.ltb_lt in Heqb1. lia.
  - apply Z.ltb_ge in Heqb1. lia.
Qed.

(** A server hands a snapshot to its node. *)
Lemma agree_snapshot n V G c i c' :
  Agree n V G c → cluster_exec (CSnapshot i) c = Some c' → ∃ V' G', Agree n V' G' c' ∧ grows (λ _, False) G G'.
Proof.
  intros [HS Hsv] H. cbn [cluster_exec] in H. destruct (nodes (raft c) !! i) as [rf|] eqn:Hrf; [|discriminate H]. simpl in H.
  destruct (replicas c !! i) as [[k taken]|] eqn:Hk; [|discriminate H]. simpl in H.
  destruct (applyCh rf !! pred taken) as [msg|] eqn:Hm; [|discriminate H]. simpl in H.
  destruct (decide (taken = 0%nat)) as [|Htn]; [discriminate H|].
  destruct (sm_snap k (CommandIndex msg) (GetRaftStateSize rf)) as [data|] eqn:Hsn; [|discriminate H]. simpl in H.
  destruct (exec_steady _ _) as [s'|] eqn:Hex in H; [|discriminate H]. injection H as <-.
  destruct (exec_safe _ _ _ _ (ESnapshot i (CommandIndex msg) data) s' HS Hex) as (V' & G' & HS' & HG).
  destruct (exec_steady_step _ _ _ _ _ _ HS Hex) as (_ & _ & s1 & He & _ & Hns).
  exists V', G'. split; [|exact HG]. apply grows_ext in HG. split; simpl; [done|]. rewrite Hns. clear Hns Hex.
  simpl in He. unfold node_step in He. rewrite Hrf in He. simpl in He.
  destruct (of_outcome _) as [rf'|] eqn:Ho in He; [|discriminate He]. apply of_outcome_Some in Ho. simplify_eq/=.
  intros j kj tj Hj. destruct (Hsv j kj tj Hj) as (rfj & Hrfj & Hok). destruct (decide (j = i)) as [->|Hne].
  2: { exists rfj. rewrite lookup_insert_ne by done. split; [done|]. by eapply (server_ok_move n G G' rfj rfj). }
  rewrite Hrf in Hrfj. rewrite Hk in Hj. injection Hrfj as <-. injection Hj as <- <-.
  exists rf'. rewrite lookup_insert_eq. split; [done|].
  destruct (Snapshot_courier _ _ _ _ Ho) as [->|(Hi & Hs & Ha & Hph & HT & Hla)].
  { by eapply (server_ok_move n G G' rf rf). }
  destruct Hok as ((base & p & Hdlv & Htk & Hle & Hcm & Hlen & Hh & Hix) & _).
  assert (CommandIndex msg = base + Z.of_nat taken) as Hidx.
  { destruct Hdlv as (_ & Hall & _). rewrite (zfrom_index base _ _ _ Hall Hm). lia. }
  assert (committed n G' (currentTerm rf') p) as Hcm' by (rewrite HT; by eapply committed_ext).
  split.
  - exists base, p. rewrite Ha, Hi, Hidx. split_and!; [|done|lia|done..].
    destruct Hdlv as (Hb & Hall & Hpend & Hmatch). unfold dlv. rewrite Ha, Hph, Hla. split_and!; [done..|].
    unfold len in *. destruct (phase_of rf); lia.
  - exists p. rewrite Hi, Hs, Hidx. split_and!; [done|done|]. intros ps Hps. by eapply snap_holds.
Qed.

(** A node and its server restart. *)
Lemma agree_restart n V G c i rnd now c' :
  Agree n V G c → cluster_exec (CRestart i rnd now) c = Some c' → Agree n V G c'.
Proof.
  intros [HS Hsv] H. cbn [cluster_exec] in H. destruct (nodes (raft c) !! i) as [rf|] eqn:Hrf; [|discriminate H]. simpl in H.
  destruct (replicas c !! i) as [[k taken]|] eqn:Hk; [|discriminate H]. cbn [mbind option_bind] in H.
  destruct (exec_steady _ _) as [s'|] eqn:Hex in H; [|discriminate H]. injection H as <-.
  destruct (exec_steady_step _ _ _ _ _ _ HS Hex) as (_ & _ & s1 & He & -> & Hns). simpl in He. rewrite Hrf in He. injection He as <-.
  split; simpl; [by apply restart_safe|].
  destruct (inv_nodes _ _ _ (safe_inv _ _ _ _ HS) _ _ Hrf) as (Hin & Hp & Hm & Hsy & _).
  destruct (Make_synced rf rnd now Hsy) as ((ET & _ & _ & Ei & _ & Es) & _).
  destruct (Make_handed rf rnd now Hsy) as (Ea & Eph & Ela). rewrite Hm in ET, Ei, Es, Ea, Eph, Ela.
  set (rf' := Make _ _ _ _ _) in *. clearbody rf'.
  intros j kj tj [[<- [= <- <-]]|[Hne Hj]]%lookup_insert_Some.
  2: { destruct (Hsv j kj tj Hj) as (rfj & ? & ?). exists rfj. by rewrite lookup_insert_ne. }
  exists rf'. rewrite lookup_insert_eq. split; [done|].
  destruct (Hsv i k taken Hk) as (rf0 & Hrf0 & _ & (p & Hcm & Hlen & Hps)). rewrite Hrf in Hrf0. injection Hrf0 as <-.
  destruct (safe_node _ _ _ _ HS _ _ Hrf) as (F & HF). pose proof (ns_base _ _ _ _ _ HF) as Hb.
  destruct (Hps (persister rf)) as [Hh Hix]; [apply Hsy|]. unfold server_ok, dlv. rewrite Ea, Eph, Ela, Ei, ET, Es. split.
  - exists (lastIncludedIndex rf), p. unfold len. simpl. rewrite Z.add_0_r. split_and!; first [done|lia].
  - exists p. by split_and!.
Qed.

Lemma agree_init n rnd now : Agree n ∅ (mkGhost ∅ ∅ []) (cluster_init n rnd now).
Proof.
  split; [apply init_safe|]. simpl. intros i k taken Hi.
  apply elem_of_list_to_map_2, list_elem_of_fmap in Hi as (j & [= -> -> ->] & Hj).
  exists (Make n j MakePersister (rnd j) now). split.
  - apply elem_of_list_to_map_1; [|apply list_elem_of_fmap; by exists j].
    rewrite <-list_fmap_compose. apply NoDup_fmap_2; [by intros ?? [=]|apply NoDup_zrange].
  - destruct (start_holds MakePersister eq_refl) as [Hh Hix]. split.
    + exists 0, [head0]. unfold dlv. split_and!; simpl; first [done|lia|by left].
    + exists [head0]. split_and!; [by left|simpl; lia|]. intros ps Hps. by apply start_holds.
Qed.

Lemma cluster_run_app es es' (c : Cluster) : cluster_run (es ++ es') c = c' ← cluster_run es c; cluster_run es' c'.
Proof. revert c. induction es as [|e es IH]; intros c; simpl; [done|]. destruct (cluster_exec e c); simpl; [apply IH|done]. Qed.

(** The command an event hands to [Start]. *)
Definition cluster_starts (e : ClusterEvent) (c : option C) : Prop := match e with CRaft e => starts e c | _ => False end.

Lemma cluster_exec_agree n V G e c c' :
  Agree n V G c → cluster_exec e c = Some c' → ∃ V' G', Agree n V' G' c' ∧ grows (cluster_starts e) G G'.
Proof.
  intros HA He. destruct e as [e|i env|i o|i|i rnd now].
  - simpl in He. destruct (raft_step e) eqn:Hok; [|discriminate He].
    destruct (exec_steady e (raft c)) as [s'|] eqn:Hex; [|discriminate He]. simplify_eq/=. by eapply agree_raft.
  - exists V, G. split; [by eapply agree_apply|done].
  - exists V, G. split; [by eapply agree_other|done].
  - by eapply agree_snapshot.
  - exists V, G. split; [by eapply agree_restart|done].
Qed.

Lemma cluster_run_agree n V G es c c' :
  Agree n V G c → cluster_run es c = Some c' → ∃ V' G', Agree n V' G' c' ∧ ext G G'.
Proof.
  revert V G c. induction es as [|e es IH]; intros V G c HA H; simpl in H.
  { injection H as <-. by exists V, G. }
  destruct (cluster_exec e c) as [c1|] eqn:He; [|discriminate H]. simpl in H.
  destruct (cluster_exec_agree _ _ _ _ _ _ HA He) as (V1 & G1 & HA1 & HG1%grows_ext).
  destruct (IH V1 G1 c1 HA1 H) as (V2 & G2 & HA2 & HG2). exists V2, G2. split; [done|by etrans].
Qed.

(** The states a cluster of [n] nodes with their servers reaches. *)
Definition cluster_reachable (n : Z) (c : Cluster) : Prop :=
  ∃ rnd now es, cluster_run es (cluster_init n rnd now) = Some c.

(** Under the servers is a run of Raft. *)
Lemma cluster_raft n c : cluster_reachable n c → reachable n (raft c).
Proof.
  intros (rnd & now & es & H). assert (reachable n (raft (cluster_init n rnd now))) as H0 by apply reach_init.
  revert H0 H. generalize (cluster_init n rnd now). induction es as [|e es IH]; intros c0 H0 H; simpl in H; [by injection H as <-|].
  destruct (cluster_exec e c0) as [c1|] eqn:He; [|discriminate H]. simpl in H. apply (IH c1); [|done]. clear IH H.
  destruct e as [e|i env|i o|i|i rnd' now']; cbn [cluster_exec] in He.
  - destruct (raft_step e); [|discriminate He]. destruct (exec_steady e (raft c0)) as [s|] eqn:Hx; [|discriminate He].
    injection He as <-. apply exec_steady_exec in Hx. by eapply reach_step.
  - destruct (nodes (raft c0) !! i); [|discriminate He]. destruct (replicas c0 !! i) as [[k taken]|]; [|discriminate He]. simpl in He.
    destruct (applyCh _ !! taken); [|discriminate He]. simpl in He. destruct (sm_apply _ _ _); [|discriminate He].
    by injection He as <-.
  - destruct (replicas c0 !! i) as [[k taken]|]; [|discriminate He]. by injection He as <-.
  - destruct (nodes (raft c0) !! i); [|discriminate He]. destruct (replicas c0 !! i) as [[k taken]|]; [|discriminate He].
    cbn [mbind option_bind] in He. destruct (applyCh _ !! _); [|discriminate He]. cbn [mbind option_bind] in He.
    case_decide; [discriminate He|]. destruct (sm_snap _ _ _); [|discriminate He]. cbn [mbind option_bind] in He.
    destruct (exec_steady _ _) as [s|] eqn:Hx in He; [|discriminate He]. injection He as <-.
    apply exec_steady_exec in Hx. by eapply reach_step.
  - destruct (nodes (raft c0) !! i); [|discriminate He]. destruct (replicas c0 !! i) as [[k taken]|]; [|discriminate He].
    cbn [mbind option_bind] in He. destruct (exec_steady _ _) as [s|] eqn:Hx in He; [|discriminate He]. injection He as <-.
    apply exec_steady_exec in Hx. by eapply reach_step.
Qed.

(** The next message for a server carries the index after the commands it has
    executed. *)
Lemma next_message n c i rf k taken msg :
  cluster_reachable n c → nodes (raft c) !! i = Some rf → replicas c !! i = Some (k, taken) →
  applyCh rf !! taken = Some msg →
  CommandValid msg = true ∧ SnapshotValid msg = false ∧ SnapshotTerm msg = 0 ∧
  ∃ ops, sm_holds ops k ∧ CommandIndex msg = len ops + 1.
Proof.
  intros (rnd & now & es0 & H0) Hrf Hi Hm.
  destruct (cluster_run_agree _ _ _ _ _ _ (agree_init n rnd now) H0) as (V & G & HA & _).
  destruct (agree_replicas _ _ _ _ HA _ _ _ Hi) as (rf' & Hrf' & (base & p & Hdlv & _ & Hle & _ & Hlen & Hh & _) & _).
  rewrite Hrf in Hrf'. injection Hrf' as <-.
  destruct (delivered_applied _ _ _ _ _ _ msg (agree_safe _ _ _ _ HA) Hrf) as (p1 & e & _ & _ & _ & Hmsg).
  { by eapply list_elem_of_lookup_2. }
  split_and!; [by rewrite Hmsg..|]. exists (cmds p (base + Z.of_nat taken)). split; [done|].
  destruct Hdlv as (Hb & Hall & _). rewrite length_cmds; [|lia|done]. rewrite (zfrom_index base _ _ _ Hall Hm). lia.
Qed.

(** The last message a server has taken carries the index of its last command. *)
Lemma last_message n c i rf k taken :
  cluster_reachable n c → nodes (raft c) !! i = Some rf → replicas c !! i = Some (k, taken) →
  ∃ ops, sm_holds ops k ∧
    (taken ≠ 0%nat → ∃ msg, applyCh rf !! pred taken = Some msg ∧ CommandIndex msg = len ops).
Proof.
  intros (rnd & now & es0 & H0) Hrf Hi.
  destruct (cluster_run_agree _ _ _ _ _ _ (agree_init n rnd now) H0) as (V & G & HA & _).
  destruct (agree_replicas _ _ _ _ HA _ _ _ Hi) as (rf' & Hrf' & (base & p & Hdlv & Htk & Hle & _ & Hlen & Hh & _) & _).
  rewrite Hrf in Hrf'. injection Hrf' as <-. exists (cmds p (base + Z.of_nat taken)). split; [done|]. intros Hne.
  destruct (lookup_lt_is_Some_2 (applyCh rf) (pred taken)) as [msg Hm]; [lia|]. exists msg. split; [done|].
  destruct Hdlv as (Hb & Hall & _). rewrite length_cmds; [|lia|done]. rewrite (zfrom_index base _ _ _ Hall Hm). lia.
Qed.

(** Any two servers, at the same or at different times, have executed sequences of
    commands of which one begins with the other. *)
Lemma replicas_agree n c es c' i j k k' taken taken' :
  cluster_reachable n c → cluster_run es c = Some c' →
  replicas c !! i = Some (k, taken) → replicas c' !! j = Some (k', taken') →
  ∃ ops ops', sm_holds ops k ∧ sm_holds ops' k' ∧ (ops `prefix_of` ops' ∨ ops' `prefix_of` ops).
Proof.
  intros (rnd & now & es0 & H0) Hrun Hi Hj.
  destruct (cluster_run_agree _ _ _ _ _ _ (agree_init n rnd now) H0) as (V & G & HA & _).
  destruct (cluster_run_agree _ _ _ _ _ _ HA Hrun) as (V' & G' & HA' & HG).
  destruct (agree_replicas _ _ _ _ HA _ _ _ Hi) as (rf & _ & (base & p & _ & _ & _ & Hcm & Hlen & Hh & _) & _).
  destruct (agree_replicas _ _ _ _ HA' _ _ _ Hj) as (rf' & Hrf' & (base' & p' & _ & _ & _ & Hcm' & Hlen' & Hh' & _) & _).
  destruct (inv_nodes _ _ _ (safe_inv _ _ _ _ (agree_safe _ _ _ _ HA')) _ _ Hrf') as (Hjn & _).
  apply (committed_ext n G G') in Hcm; [|done].
  eexists _, _. split_and!; [exact Hh|exact Hh'|]. apply cmds_agree; [|done|done].
  eapply (committed_agree n V' G'); [lia|apply (agree_safe _ _ _ _ HA')|done|done].
Qed.
End service.
Arguments Cluster : clear implicits.
Arguments ClusterEvent : clear implicits.
