(* ===== verification/RaftTester.v ===== *)
(** * raft: the checks of the test harness

    The part of [src/src/raft/config.go] that reads the messages of every node and ends
    the test when they are wrong: [checkLogs], [applier], [applierSnap] with its
    snapshots, [ingestSnap] when a node starts again, and [nCommitted].  The harness
    runs as a service over a Raft cluster; no execution of the cluster makes it
    complain.  [log.Fatalf] and [t.Fatal] end the program.  A crashed node's reader
    stops with it. *)
From Stdlib Require Import Init.Byte.
From S2P Require Import Prelude LabGob Raft RaftVote RaftAppend RaftSnapshot RaftNode.
From S2P Require Import RaftFrames RaftSystem RaftElection RaftLog RaftSteps RaftSafety RaftService.

(** What a snapshot of the harness holds. *)
Inductive TestGob (C : Type) := TIndex (index : Z) | TLog (xlog : list (option C)).
Arguments TIndex {C} index.
Arguments TLog {C} xlog.

Definition get_index {C} (v : TestGob C) : option Z := match v with TIndex i => Some i | _ => None end.
Definition get_log {C} (v : TestGob C) : option (list (option C)) := match v with TLog l => Some l | _ => None end.

Definition SnapShotInterval : Z := 10.

Section tester.
Context {C : Type} `{EqDecision C} {tgob : Gob (TestGob C)} {rgob : Gob (RaftGob C)}.

(** ** config.go *)

(** Commands are values of an interface type; nil is [None]. *)
Record config := mkConfig {
  logs : list (gmap Z (option C));
  cfg_lastApplied : list Z;
  maxIndex : Z;
}.

(** Whether the message is at odds with what a server has applied, and whether the
    entry before it is there. *)
Definition checkLogs (cfg : config) (i : Z) (m : ApplyMsg C) : outcome (config * bool * bool) :=
  let v := Command m in
  let err := existsb (λ l, match l !! CommandIndex m with
                           | Some old => bool_decide (old ≠ v)
                           | None => false
                           end) (logs cfg) in
  li ← slice_get (logs cfg) i;
  let prevok := bool_decide (is_Some (li !! (CommandIndex m - 1))) in
  logs' ← slice_set (logs cfg) i (<[CommandIndex m := v]> li);
  Ret (mkConfig logs' (cfg_lastApplied cfg)
         (if CommandIndex m >? maxIndex cfg then CommandIndex m else maxIndex cfg), err, prevok).

(** [applier], one message. *)
Definition applier (cfg : config) (i : Z) (m : ApplyMsg C) : outcome config :=
  if negb (CommandValid m) then Ret cfg
  else
    '(cfg, err, prevok) ← checkLogs cfg i m;
    if (CommandIndex m >? 1) && negb prevok then Panic else if (err : bool) then Panic else Ret cfg.

(** [ingestSnap]; the second result is an error. *)
Definition ingestSnap (cfg : config) (i : Z) (snapshot : list byte) (index : Z) : outcome (config * bool) :=
  match snapshot with
  | [] => Panic
  | _ =>
      match Decode get_index (NewDecoder snapshot) with
      | Some (lastIncludedIndex, d) =>
          match Decode get_log d with
          | Some (xlog, _) =>
              if negb (index =? -1) && negb (index =? lastIncludedIndex) then Ret (cfg, true)
              else
                logs' ← slice_set (logs cfg) i (map_seqZ 0 xlog);
                la ← slice_set (cfg_lastApplied cfg) i lastIncludedIndex;
                Ret (mkConfig logs' la (maxIndex cfg), false)
          | None => Panic
          end
      | None => Panic
      end
  end.

(** The bytes of a snapshot. *)
Definition snapshot_bytes (index : Z) (xlog : list (option C)) : list byte :=
  Bytes (Encode (Encode NewEncoder (TIndex index)) (TLog xlog)).

(** [applierSnap], one message; the second result is the call of [rf.Snapshot]. *)
Definition applierSnap (cfg : config) (i : Z) (m : ApplyMsg C) : outcome (config * option (Z * list byte)) :=
  if SnapshotValid m then
    '(cfg, err) ← ingestSnap cfg i (Snapshot_ m) (SnapshotIndex m);
    if (err : bool) then Panic else Ret (cfg, None)
  else if CommandValid m then
    la ← slice_get (cfg_lastApplied cfg) i;
    if negb (CommandIndex m =? la + 1) then Panic
    else
      '(cfg, err, prevok) ← checkLogs cfg i m;
      la ← slice_set (cfg_lastApplied cfg) i (CommandIndex m);
      let cfg := mkConfig (logs cfg) la (maxIndex cfg) in
      li ← slice_get (logs cfg) i;
      let snap :=
        if Z.rem (CommandIndex m + 1) SnapShotInterval =? 0 then
          let xlog := (λ j, li !! j ≫= id) <$> zrange (CommandIndex m + 1) in
          Some (CommandIndex m, snapshot_bytes (CommandIndex m) xlog)
        else None in
      if (CommandIndex m >? 1) && negb prevok then Panic else if (err : bool) then Panic else Ret (cfg, snap)
  else Ret (cfg, None).

(** [start1], the part that concerns the logs. *)
Definition start1_logs (cfg : config) (i : Z) (snapshot : list byte) : outcome config :=
  la ← slice_set (cfg_lastApplied cfg) i 0;
  let cfg := mkConfig (logs cfg) la (maxIndex cfg) in
  if len snapshot >? 0 then
    '(cfg, err) ← ingestSnap cfg i snapshot (-1);
    if (err : bool) then Panic else Ret cfg
  else Ret cfg.

(** How many servers have applied an entry at [index], and its command. *)
Definition nCommitted (cfg : config) (index : Z) : outcome (Z * option C) :=
  ofold (λ '(count, cmd) l,
    match l !! index with
    | Some cmd1 =>
        if (count >? 0) && negb (bool_decide (cmd = cmd1)) then Panic else Ret (count + 1, cmd1)
    | None => Ret (count, cmd)
    end) (0, None) (logs cfg).

(** [checkOneLeader], one iteration: what [GetState] returned of the connected servers,
    one after the other.  [None]: no leader, try again. *)
Definition leaders_of (seen : list (Z * (Z * bool))) : gmap Z (list Z) :=
  foldl (λ leaders '(i, (term, leader)),
    if (leader : bool) then <[term := mget leaders term ++ [i]]> leaders else leaders) ∅ seen.

Definition checkOneLeader {ranges : MapRange} (seen : list (Z * (Z * bool))) : outcome (option Z) :=
  let leaders := leaders_of seen in
  lastTermWithLeader ← ofold (λ lastTerm '(term, l),
    if len l >? 1 then Panic else Ret (if term >? lastTerm then term else lastTerm)) (-1) (range leaders);
  if decide (leaders = ∅) then Ret None
  else i ← slice_get (mget leaders lastTermWithLeader) 0; Ret (Some i).

(** [make_config] *)
Definition make_config (n : Z) : config :=
  mkConfig (replicate (Z.to_nat n) ∅) (replicate (Z.to_nat n) 0) 0.

(** ** The harness with its cluster *)

Record Tester := mkTester {
  t_raft : Sys C;
  t_cfg : config;
  t_taken : gmap Z nat;                    (* messages each reader has taken *)
  t_snap : gmap Z (Z * list byte);         (* readers about to call [rf.Snapshot] *)
}.

Inductive TestEvent :=
| TRaft (e : Event C)
| TApply (i : Z)                           (* [applierSnap] takes a message *)
| TSnapshot (i : Z)                        (* and calls [rf.Snapshot] *)
| TRestart (i rnd now : Z).                (* [crash1] and [start1] *)

Definition tester_exec (e : TestEvent) (t : Tester) : option (outcome Tester) :=
  match e with
  | TRaft e =>
      if raft_step e then
        s ← exec_steady e (t_raft t); Some (Ret (mkTester s (t_cfg t) (t_taken t) (t_snap t)))
      else None
  | TApply i =>
      rf ← nodes (t_raft t) !! i;
      taken ← t_taken t !! i;
      msg ← applyCh rf !! taken;
      match t_snap t !! i with
      | Some _ => None
      | None =>
          Some ('(cfg, snap) ← applierSnap (t_cfg t) i msg;
                Ret (mkTester (t_raft t) cfg (<[i := S taken]> (t_taken t)) (partial_alter (λ _, snap) i (t_snap t))))
      end
  | TSnapshot i =>
      '(index, data) ← t_snap t !! i;
      s ← exec_steady (ESnapshot i index data) (t_raft t);
      Some (Ret (mkTester s (t_cfg t) (t_taken t) (delete i (t_snap t))))
  | TRestart i rnd now =>
      rf ← nodes (t_raft t) !! i;
      _ ← t_taken t !! i;
      s ← exec_steady (ERestart i rnd now) (t_raft t);
      Some (cfg ← start1_logs (t_cfg t) i (ReadSnapshot (persister rf));
            Ret (mkTester s cfg (<[i := 0%nat]> (t_taken t)) (delete i (t_snap t))))
  end.

Fixpoint tester_run (es : list TestEvent) (t : Tester) : option Tester :=
  match es with
  | [] => Some t
  | e :: es => match tester_exec e t with Some (Ret t') => tester_run es t' | _ => None end
  end.

Definition tester_init (n : Z) (rnd : Z → Z) (now : Z) : Tester :=
  mkTester (init n rnd now) (make_config n) (list_to_map ((λ i, (i, 0%nat)) <$> zrange n)) ∅.

Definition tester_reachable (n : Z) (t : Tester) : Prop :=
  ∃ rnd now es, tester_run es (tester_init n rnd now) = Some t.

(** ** The harness as a service

    What one reader has applied since its node started; [None] is a snapshot that is
    not one of the harness. *)
Definition read_snapshot (data : list byte) : option (list (option C)) :=
  match data with
  | [] => Some []
  | _ =>
      '(index, d) ← Decode get_index (NewDecoder data);
      '(xlog, _) ← Decode get_log d;
      match xlog with
      | None :: k => if decide (index = len k) then Some k else None
      | _ => None
      end
  end.

#[local] Instance tester_machine : StateMachine (option (list (option C))) C unit unit := {|
  sm_start := λ ps, read_snapshot (snapshot ps);
  sm_apply := λ _ k msg, k ← k; if CommandIndex msg =? len k + 1 then Some (Some (k ++ [Command msg])) else None;
  sm_other := λ _ k, k;
  sm_snap := λ k index _,
    k ← k;
    if (index =? len k) && (Z.rem (index + 1) SnapShotInterval =? 0)
    then Some (snapshot_bytes index (None :: k)) else None;
|}.

Lemma snapshot_bytes_nonempty index xlog : ∃ b bs, snapshot_bytes index xlog = b :: bs.
Proof.
  pose proof (Bytes_nonempty (Encode (Encode NewEncoder (TIndex index)) (TLog xlog))) as H. unfold snapshot_bytes.
  destruct (Bytes _); [|by eexists _, _]. by destruct H.
Qed.

Lemma read_snapshot_bytes k : read_snapshot (snapshot_bytes (len k) (None :: k)) = Some k.
Proof.
  unfold read_snapshot. destruct (snapshot_bytes_nonempty (len k) (None :: k)) as (b & bs & Hb). rewrite Hb, <-Hb.
  unfold snapshot_bytes. rewrite NewDecoder_Bytes. simpl. by rewrite decide_True.
Qed.

#[local] Instance tester_lawful : Lawful tester_machine.
Proof.
  refine {| sm_holds := λ ops k, k = Some ops; sm_index := λ _, 0 |}.
  - intros ps Hps. simpl. by rewrite Hps.
  - intros env ops k msg k' -> _ _ Hpos Hidx Hap. simpl in Hap. rewrite Hidx, Z.eqb_refl in Hap.
    injection Hap as <-. split; [done|lia].
  - done.
  - intros ops k index size b ps -> Hsn Hps. simpl in *. destruct (Z.eqb_spec index (len ops)) as [->|]; [|discriminate Hsn].
    destruct (_ =? 0); [|discriminate Hsn]. injection Hsn as <-. by rewrite Hps, read_snapshot_bytes.
Defined.

(** ** Harness and service in step *)

Definition testers : Type := Cluster C (option (list (option C))).
Implicit Types (c : testers) (t : Tester) (k : list (option C)).

(** Entry [idx] of a log of the harness was applied by some server, at some time. *)
Definition attested (n : Z) (rnd : Z → Z) (now : Z) (es : list (ClusterEvent C unit unit)) (idx : Z) (v : option C) : Prop :=
  ∃ es0 c j k taken, es0 `prefix_of` es ∧ cluster_run es0 (cluster_init n rnd now) = Some c ∧
    replicas c !! j = Some (Some k, taken) ∧ k !! Z.to_nat (idx - 1) = Some v.

(** A log of the harness: entry 0 is nil, every other one was applied. *)
Definition log_ok (n : Z) rnd now es (l : gmap Z (option C)) : Prop :=
  ∀ idx v, l !! idx = Some v → (idx = 0 ∧ v = None) ∨ (0 < idx ∧ attested n rnd now es idx v).

Lemma attested_later n rnd now es e idx v : attested n rnd now es idx v → attested n rnd now (es ++ [e]) idx v.
Proof.
  intros (es0 & c & j & k & taken & Hp & H). exists es0, c, j, k, taken. split; [|done]. etrans; [done|]. by eexists.
Qed.

Lemma log_ok_later n rnd now es e l : log_ok n rnd now es l → log_ok n rnd now (es ++ [e]) l.
Proof. intros Hl idx v Hv. destruct (Hl idx v Hv) as [?|[??]]; [by left|right]. split; [done|by apply attested_later]. Qed.

(** One index, one command. *)
Lemma attested_agree n rnd now es idx v v' :
  attested n rnd now es idx v → attested n rnd now es idx v' → v = v'.
Proof.
  intros (es0 & c & j & k & taken & Hp & Hrun & Hj & Hv) (es1 & c' & j' & k' & taken' & Hp' & Hrun' & Hj' & Hv').
  assert (∀ es0 es1 c c' j j' k k' taken taken' v v', es0 `prefix_of` es1 →
    cluster_run es0 (cluster_init n rnd now) = Some c → cluster_run es1 (cluster_init n rnd now) = Some c' →
    replicas c !! j = Some (Some k, taken) → replicas c' !! j' = Some (Some k', taken') →
    k !! Z.to_nat (idx - 1) = Some v → k' !! Z.to_nat (idx - 1) = Some v' → v = v') as Hgen.
  { clear. intros es0 es1 c c' j j' k k' taken taken' v v' [r ->] H0 H1 Hj Hj' Hv Hv'.
    rewrite cluster_run_app, H0 in H1. simpl in H1.
    destruct (replicas_agree n c r c' j j' (Some k) (Some k') taken taken') as (ops & ops' & [= <-] & [= <-] & Hpre); [by exists rnd, now, es0|done..|].
    destruct Hpre as [Hpre|Hpre].
    - pose proof (prefix_lookup_Some _ _ _ _ Hv Hpre). congruence.
    - pose proof (prefix_lookup_Some _ _ _ _ Hv' Hpre). congruence. }
  destruct (prefix_weak_total es0 es1 es Hp Hp') as [Hle|Hle]; [|symmetry]; by eapply Hgen.
Qed.

(** A reader of the harness, its log and what it has applied. *)
Record reader_ok (cfg : config) (snap : option (Z * list byte)) (i : Z) k : Prop := {
  rd_applied : zlookup (cfg_lastApplied cfg) i = Some (len k);
  rd_log : ∃ l, zlookup (logs cfg) i = Some l ∧ ∀ x v, k !! x = Some v → l !! (Z.of_nat x + 1) = Some v;
  rd_snap index data : snap = Some (index, data) →
    index = len k ∧ Z.rem (len k + 1) SnapShotInterval = 0 ∧ data = snapshot_bytes (len k) (None :: k);
}.

Record in_step (n : Z) rnd now es t : Prop := {
  step_cluster : ∃ c, cluster_run es (cluster_init n rnd now) = Some c ∧ raft c = t_raft t ∧
    ∀ i taken, t_taken t !! i = Some taken →
      ∃ k, replicas c !! i = Some (Some k, taken) ∧ reader_ok (t_cfg t) (t_snap t !! i) i k ∧
        (is_Some (t_snap t !! i) → taken ≠ 0%nat);
  step_logs : Forall (log_ok n rnd now es) (logs (t_cfg t));
  step_snaps i : is_Some (t_snap t !! i) → is_Some (t_taken t !! i);
}.

(** A reader does not touch the others. *)
Lemma reader_ok_other cfg cfg' i j snap k l la m :
  cfg' = mkConfig (<[Z.to_nat i := l]> (logs cfg)) (<[Z.to_nat i := la]> (cfg_lastApplied cfg)) m →
  0 ≤ i → j ≠ i → reader_ok cfg snap j k → reader_ok cfg' snap j k.
Proof. intros -> Hi Hne [Ha Hl Hs]. split; simpl; [by rewrite zlookup_insert_ne|by rewrite zlookup_insert_ne|done]. Qed.

(** The entries of a snapshot: what the reader has applied, after a nil. *)
Lemma xlog_entries k (l : gmap Z (option C)) :
  (∀ v, l !! 0 = Some v → v = None) → (∀ x v, k !! x = Some v → l !! (Z.of_nat x + 1) = Some v) →
  (λ j, l !! j ≫= id) <$> zrange (len k + 1) = None :: k.
Proof.
  intros H0 Hk. unfold zrange, len. replace (Z.to_nat (Z.of_nat (length k) + 1)) with (S (length k)) by lia.
  rewrite <-cons_seq, !fmap_cons. f_equal.
  - change (Z.of_nat 0) with 0. destruct (l !! 0) as [v|] eqn:Hv; [|done]. simpl. by rewrite (H0 v).
  - apply list_eq. intros x. rewrite !list_lookup_fmap. destruct (k !! x) as [v|] eqn:Hx.
    + rewrite lookup_seq_lt by (by apply lookup_lt_Some in Hx). change (Some (l !! Z.of_nat (1 + x) ≫= id) = Some v).
      replace (Z.of_nat (1 + x)) with (Z.of_nat x + 1) by lia. by rewrite (Hk x v Hx).
    + rewrite lookup_seq_ge by (by apply lookup_ge_None). done.
Qed.

(** The message a reader expects is accepted. *)
Lemma applierSnap_ok n rnd now es cfg i k m :
  reader_ok cfg None i k → Forall (log_ok n rnd now es) (logs cfg) →
  SnapshotValid m = false → CommandValid m = true → CommandIndex m = len k + 1 →
  attested n rnd now es (len k + 1) (Command m) →
  ∃ l mx snap, let cfg' := mkConfig (<[Z.to_nat i := l]> (logs cfg)) (<[Z.to_nat i := len k + 1]> (cfg_lastApplied cfg)) mx in
    applierSnap cfg i m = Ret (cfg', snap) ∧ reader_ok cfg' snap i (k ++ [Command m]) ∧
    Forall (log_ok n rnd now es) (logs cfg').
Proof.
  intros [Hla (l & Hl & Hk) _] Hlogs Hsv Hcv Hidx Hatt.
  pose proof (zlookup_bounds _ _ _ Hla) as Hila. pose proof (zlookup_bounds _ _ _ Hl) as Hil.
  assert (0 ≤ len k) as Hlen by (unfold len; lia).
  assert (log_ok n rnd now es l) as Hlok by (eapply Forall_lookup_1; [done|by apply zlookup_Some in Hl as [_ ?]]).
  assert (∀ x v, (k ++ [Command m]) !! x = Some v → <[len k + 1 := Command m]> l !! (Z.of_nat x + 1) = Some v) as Hk'.
  { intros x v [Hx|[Hge Hx]]%lookup_app_Some.
    - rewrite lookup_insert_ne; [by apply Hk|]. apply lookup_lt_Some in Hx. unfold len. lia.
    - apply list_lookup_singleton_Some in Hx as [Hx <-].
      replace (Z.of_nat x + 1) with (len k + 1) by (unfold len; lia). by rewrite lookup_insert_eq. }
  assert (log_ok n rnd now es (<[len k + 1 := Command m]> l)) as Hlok'.
  { intros idx v [[<- <-]|[_ Hv]]%lookup_insert_Some; [right; split; [lia|done]|by apply Hlok]. }
  assert (existsb (λ l, match l !! (len k + 1) with Some old => bool_decide (old ≠ Command m) | None => false end) (logs cfg) = false) as Herr.
  { apply not_true_iff_false. intros (lj & Hj%list_elem_of_In & He)%existsb_exists.
    destruct (lj !! (len k + 1)) as [old|] eqn:Hold; [|done]. apply bool_decide_eq_true in He. apply He.
    rewrite Forall_forall in Hlogs. destruct (Hlogs lj Hj _ _ Hold) as [[? _]|[_ Ha]]; [lia|]. by eapply attested_agree. }
  assert ((len k + 1 >? 1) && negb (bool_decide (is_Some (l !! (len k + 1 - 1)))) = false) as Hprev.
  { rewrite Z.gtb_ltb. destruct (Z.ltb_spec 1 (len k + 1)); [|done]. simpl. rewrite bool_decide_eq_true_2; [done|].
    destruct (lookup_lt_is_Some_2 k (pred (length k))) as [v Hv]; [unfold len in *; lia|]. exists v. apply Hk in Hv. rewrite <-Hv. f_equal. unfold len in *. lia. }
  unfold applierSnap, checkLogs. rewrite Hsv, Hcv, Hidx. unfold slice_get. rewrite Hla, Hl, !bind_Ret, Z.eqb_refl.
  rewrite Herr.
  eexists (<[len k + 1 := Command m]> l), _, _. cbv zeta. split; [|split].
  - rewrite slice_set_ok by done. rewrite !bind_Ret. rewrite slice_set_ok by done. rewrite !bind_Ret.
    cbn [logs cfg_lastApplied maxIndex]. rewrite zlookup_insert_eq by done. rewrite bind_Ret. rewrite Hprev. reflexivity.
  - split; cbn [logs cfg_lastApplied].
    + rewrite zlookup_insert_eq by done. rewrite len_app. unfold len. simpl. f_equal; lia.
    + eexists. split; [by apply zlookup_insert_eq|done].
    + intros index data Hs. destruct (Z.eqb_spec (Z.rem (len k + 1 + 1) SnapShotInterval) 0) as [Hr|]; [|discriminate Hs].
      injection Hs as <- <-. rewrite len_app. change (len [Command m]) with 1. split_and!; [done|done|].
      f_equal. replace (len k + 1 + 1) with (len (k ++ [Command m]) + 1) by (rewrite len_app; done).
      apply xlog_entries; [|done]. intros v Hv. destruct (Hlok' _ _ Hv) as [[_ ?]|[? _]]; [done|lia].
  - by apply Forall_insert.
Qed.

(** A node starts again from a snapshot of the harness, or from none. *)
Lemma start1_ok n rnd now es cfg i data k k0 snap0 :
  reader_ok cfg snap0 i k0 → Forall (log_ok n rnd now es) (logs cfg) → read_snapshot data = Some k →
  (∀ x v, k !! x = Some v → attested n rnd now es (Z.of_nat x + 1) v) →
  ∃ cfg' l, start1_logs cfg i data = Ret cfg' ∧
    cfg' = mkConfig (<[Z.to_nat i := l]> (logs cfg)) (<[Z.to_nat i := len k]> (cfg_lastApplied cfg)) (maxIndex cfg) ∧
    reader_ok cfg' None i k ∧ Forall (log_ok n rnd now es) (logs cfg').
Proof.
  intros [Hla (l0 & Hl0 & _) _] Hlogs Hread Hatt.
  pose proof (zlookup_bounds _ _ _ Hla) as Hila. pose proof (zlookup_bounds _ _ _ Hl0) as Hil.
  unfold start1_logs. rewrite slice_set_ok, bind_Ret by done. destruct data as [|b bs].
  - injection Hread as <-. exists (mkConfig (logs cfg) (<[Z.to_nat i := 0]> (cfg_lastApplied cfg)) (maxIndex cfg)), l0.
    split; [done|]. split; [|split; [|done]].
    + f_equal. symmetry. apply list_insert_id. by apply zlookup_Some in Hl0 as [_ ?].
    + split; simpl; [by rewrite zlookup_insert_eq| |done]. exists l0. by split.
  - assert ((len (b :: bs) >? 0) = true) as -> by (rewrite Z.gtb_ltb; apply Z.ltb_lt; unfold len; simpl; lia).
    unfold read_snapshot in Hread. unfold ingestSnap.
    destruct (Decode get_index (NewDecoder (b :: bs))) as [[index d]|]; [|discriminate Hread]. simpl in Hread.
    destruct (Decode get_log d) as [[[|[|] k1] d']|]; try discriminate Hread. simpl in Hread.
    destruct (decide (index = len k1)) as [->|]; [|discriminate Hread]. injection Hread as ->.
    cbn [negb andb logs cfg_lastApplied maxIndex]. rewrite Z.eqb_refl. cbn [negb andb].
    rewrite (slice_set_ok (logs cfg)), bind_Ret, slice_set_ok by (by rewrite ?len_insert). rewrite !bind_Ret, list_insert_insert_eq.
    eexists _, _. split; [done|]. split; [done|]. split; [split; cbn [logs cfg_lastApplied]|].
    + by rewrite zlookup_insert_eq.
    + eexists. split; [by apply zlookup_insert_eq|]. intros x v Hx. rewrite lookup_map_seqZ_0 by lia.
      by replace (Z.to_nat (Z.of_nat x + 1)) with (S x) by lia.
    + done.
    + apply Forall_insert; [done|]. intros idx v [Hge Hv]%lookup_map_seqZ_Some. rewrite Z.sub_0_r in Hv.
      destruct (Z.to_nat idx) as [|x] eqn:Hx; simpl in Hv; [left; split; [lia|congruence]|right; split; [lia|]].
      replace idx with (Z.of_nat x + 1) by lia. by apply Hatt.
Qed.

Lemma in_step_init n rnd now : in_step n rnd now [] (tester_init n rnd now).
Proof.
  split; [eexists; split; [done|split; [done|]]| |by simpl; intros i [? ?%lookup_empty_Some]].
  - simpl. intros i taken Hi. apply elem_of_list_to_map_2, list_elem_of_fmap in Hi as (j & [= -> ->] & Hj).
    exists []. split; [|split; [|by intros [? ?]]].
    + apply elem_of_list_to_map_1; [|apply list_elem_of_fmap; by exists j].
      rewrite <-list_fmap_compose. apply NoDup_fmap_2; [by intros ?? [=]|apply NoDup_zrange].
    + apply elem_of_zrange in Hj. split; simpl.
      * apply zlookup_Some. split; [lia|]. apply lookup_replicate. split; [done|lia].
      * exists ∅. split; [|done]. apply zlookup_Some. split; [lia|]. apply lookup_replicate. split; [done|lia].
      * by rewrite lookup_empty.
  - apply Forall_replicate. intros idx v Hv. by rewrite lookup_empty in Hv.
Qed.

(** The step of the cluster that goes with an event of the harness. *)
Lemma cluster_extend n rnd now es (c c' : testers) (e : ClusterEvent C unit unit) :
  cluster_run es (cluster_init n rnd now) = Some c → cluster_exec e c = Some c' →
  cluster_run (es ++ [e]) (cluster_init n rnd now) = Some c'.
Proof. intros H He. rewrite cluster_run_app, H. simpl. by rewrite He. Qed.

Lemma attested_now n rnd now es (c : testers) j k taken x v :
  cluster_run es (cluster_init n rnd now) = Some c → replicas c !! j = Some (Some k, taken) →
  k !! x = Some v → attested n rnd now es (Z.of_nat x + 1) v.
Proof.
  intros Hrun Hj Hx. exists es, c, j, k, taken. split_and!; [done|done|done|].
  by replace (Z.to_nat (Z.of_nat x + 1 - 1)) with x by lia.
Qed.

Lemma in_step_raft n rnd now es t e s :
  in_step n rnd now es t → raft_step e = true → exec_steady e (t_raft t) = Some s →
  in_step n rnd now (es ++ [CRaft e]) (mkTester s (t_cfg t) (t_taken t) (t_snap t)).
Proof.
  intros [(c & Hrun & Hr & Hrd) Hlogs Hsnaps] Hok He. split; simpl; [| |done].
  - exists (mkCluster s (replicas c)). split; [|done]. eapply cluster_extend; [done|]. simpl. by rewrite Hr, Hok, He.
  - eapply Forall_impl; [done|]. intros. by apply log_ok_later.
Qed.

Lemma in_step_apply n rnd now es t i o :
  in_step n rnd now es t → tester_exec (TApply i) t = Some o →
  ∃ t', o = Ret t' ∧ in_step n rnd now (es ++ [CApply i tt]) t'.
Proof.
  intros [(c & Hrun & Hr & Hrd) Hlogs Hsnaps] H. simpl in H.
  destruct (nodes (t_raft t) !! i) as [rf|] eqn:Hrf; [|discriminate H]. simpl in H.
  destruct (t_taken t !! i) as [taken|] eqn:Htk; [|discriminate H]. simpl in H.
  destruct (applyCh rf !! taken) as [msg|] eqn:Hm; [|discriminate H]. simpl in H.
  destruct (t_snap t !! i) as [?|] eqn:Hsn; [discriminate H|]. injection H as <-.
  destruct (Hrd i taken Htk) as (k & Hk & Hok & _). rewrite Hsn in Hok. rewrite <-Hr in Hrf.
  destruct (next_message n c i rf (Some k) taken msg) as (Hcv & Hsv & _ & ops & [= <-] & Hidx);
    [by exists rnd, now, es|done..|].
  set (c' := mkCluster (raft c) (<[i := (Some (k ++ [Command msg]), S taken)]> (replicas c))).
  assert (cluster_run (es ++ [CApply i tt]) (cluster_init n rnd now) = Some c') as Hrun'.
  { eapply cluster_extend; [done|]. simpl. rewrite Hrf. simpl. rewrite Hk. simpl. rewrite Hm. simpl.
    by rewrite Hidx, Z.eqb_refl. }
  assert (Forall (log_ok n rnd now (es ++ [CApply i tt])) (logs (t_cfg t))) as Hlogs'.
  { eapply Forall_impl; [done|]. intros. by apply log_ok_later. }
  destruct (applierSnap_ok n rnd now (es ++ [CApply i tt]) (t_cfg t) i k msg) as (l & mx & snap & Hap & Hok' & Hl'); try done.
  { apply (attested_now _ _ _ _ c' i (k ++ [Command msg]) (S taken)); [done|by simpl; rewrite lookup_insert_eq|].
    by rewrite lookup_app_r, Nat.sub_diag. }
  rewrite Hap, bind_Ret. eexists. split; [done|]. split; [|done|].
  2: { intros j. simpl. destruct (decide (j = i)) as [->|Hne]; [by rewrite lookup_insert_eq|].
       rewrite lookup_insert_ne, lookup_partial_alter_ne by done. apply Hsnaps. }
  exists c'. split; [done|]. split; [done|]. simpl. intros j tj [[<- <-]|[Hne Hj]]%lookup_insert_Some.
  - exists (k ++ [Command msg]). rewrite lookup_insert_eq, lookup_partial_alter_eq. by split_and!.
  - destruct (Hrd j tj Hj) as (kj & Hkj & Hokj & Hsj). exists kj.
    rewrite lookup_insert_ne, lookup_partial_alter_ne by done. split_and!; [done| |done].
    eapply reader_ok_other; [done| |by apply not_eq_sym|done]. pose proof (zlookup_bounds _ _ _ (rd_applied _ _ _ _ Hok)). lia.
Qed.

Lemma in_step_snapshot n rnd now es t i o :
  in_step n rnd now es t → tester_exec (TSnapshot i) t = Some o →
  ∃ t', o = Ret t' ∧ in_step n rnd now (es ++ [CSnapshot i]) t'.
Proof.
  intros [(c & Hrun & Hr & Hrd) Hlogs Hsnaps] H. cbn [tester_exec] in H.
  destruct (t_snap t !! i) as [[index data]|] eqn:Hsn; [|discriminate H]. cbn [mbind option_bind] in H.
  destruct (exec_steady _ _) as [s|] eqn:He in H; [|discriminate H]. injection H as <-. eexists. split; [done|].
  destruct (Hsnaps i) as [taken Htk]; [by rewrite Hsn|].
  destruct (Hrd i taken Htk) as (k & Hk & [Ha Hl Hs] & Hne). destruct (Hs index data Hsn) as (-> & Hrem & ->).
  destruct (exec_step _ _ _ (exec_steady_exec _ _ _ He)) as (s1 & Hs1 & _). simpl in Hs1. unfold node_step in Hs1.
  destruct (nodes (t_raft t) !! i) as [rf|] eqn:Hrf; [clear s1 Hs1|discriminate Hs1].
  rewrite <-Hr in Hrf, He.
  destruct (last_message n c i rf (Some k) taken) as (ops & [= <-] & Hlast); [by exists rnd, now, es|done..|].
  destruct Hlast as (msg & Hm & Hidx); [by apply Hne; rewrite Hsn|]. split; simpl.
  - exists (mkCluster s (replicas c)). split; [|split; [done|]].
    + eapply cluster_extend; [done|]. cbn [cluster_exec]. rewrite Hrf. cbn [mbind option_bind]. rewrite Hk. cbn [mbind option_bind].
      rewrite Hm. cbn [mbind option_bind]. rewrite decide_False by (by apply Hne; rewrite Hsn).
      cbn [sm_snap tester_machine mbind option_bind]. rewrite Hidx, Z.eqb_refl, Hrem. cbn [andb Z.eqb mbind option_bind].
      by rewrite He.
    + simpl. intros j tj Hj. destruct (Hrd j tj Hj) as (kj & Hkj & [Haj Hlj Hsj] & Hnj). exists kj.
      split; [done|]. destruct (decide (j = i)) as [->|Hji].
      * rewrite lookup_delete_eq. split; [by split|by intros [? ?]].
      * rewrite lookup_delete_ne by done. by split.
  - eapply Forall_impl; [done|]. intros. by apply log_ok_later.
  - intros j [? [? ?]%lookup_delete_Some]. apply Hsnaps. by eexists.
Qed.

Lemma in_step_restart n rnd now es t i rnd' now' o :
  in_step n rnd now es t → tester_exec (TRestart i rnd' now') t = Some o →
  ∃ t', o = Ret t' ∧ in_step n rnd now (es ++ [CRestart i rnd' now']) t'.
Proof.
  intros [(c & Hrun & Hr & Hrd) Hlogs Hsnaps] H. cbn [tester_exec] in H.
  destruct (nodes (t_raft t) !! i) as [rf|] eqn:Hrf; [|discriminate H]. cbn [mbind option_bind] in H.
  destruct (t_taken t !! i) as [taken|] eqn:Htk; [|discriminate H]. cbn [mbind option_bind] in H.
  destruct (exec_steady _ _) as [s|] eqn:He in H; [|discriminate H]. injection H as <-.
  destruct (Hrd i taken Htk) as (k0 & Hk0 & Hok0 & _). rewrite <-Hr in Hrf, He.
  set (c' := mkCluster s (<[i := (read_snapshot (snapshot (persister rf)), 0%nat)]> (replicas c))).
  assert (cluster_run (es ++ [CRestart i rnd' now']) (cluster_init n rnd now) = Some c') as Hrun'.
  { eapply cluster_extend; [done|]. cbn [cluster_exec]. rewrite Hrf. cbn [mbind option_bind]. rewrite Hk0. cbn [mbind option_bind].
    by rewrite He. }
  assert (∃ rf', nodes s !! i = Some rf') as [rf' Hrf'].
  { destruct (exec_step _ _ _ (exec_steady_exec _ _ _ He)) as (s1 & Hs1 & _ & ->). simpl in Hs1. rewrite Hrf in Hs1.
    injection Hs1 as <-. simpl. rewrite lookup_insert_eq. by eexists. }
  destruct (last_message n c' i rf' (read_snapshot (snapshot (persister rf))) 0) as (k & Hk & _);
    [by eexists rnd, now, _|done|by simpl; rewrite lookup_insert_eq|]. simpl in Hk.
  assert (Forall (log_ok n rnd now (es ++ [CRestart i rnd' now'])) (logs (t_cfg t))) as Hlogs'.
  { eapply Forall_impl; [done|]. intros. by apply log_ok_later. }
  destruct (start1_ok n rnd now (es ++ [CRestart i rnd' now']) (t_cfg t) i (ReadSnapshot (persister rf)) k k0 (t_snap t !! i))
    as (cfg' & l & Hst & Hcfg & Hok' & Hl'); try done.
  { intros x v Hx. apply (attested_now _ _ _ _ c' i k 0); [done|simpl; by rewrite lookup_insert_eq, Hk|done]. }
  rewrite Hst, bind_Ret. eexists. split; [done|]. split; [|done|].
  - exists c'. split; [done|]. split; [done|]. simpl. intros j tj [[<- <-]|[Hne Hj]]%lookup_insert_Some.
    + exists k. rewrite lookup_insert_eq, lookup_delete_eq, Hk. split; [done|]. split; [done|by intros [? ?]].
    + destruct (Hrd j tj Hj) as (kj & Hkj & Hokj & Hsj). exists kj. rewrite lookup_insert_ne, lookup_delete_ne by done.
      split_and!; [done| |done]. eapply reader_ok_other; [done| |by apply not_eq_sym|done].
      pose proof (zlookup_bounds _ _ _ (rd_applied _ _ _ _ Hok')). lia.
  - simpl. intros j [? [? ?]%lookup_delete_Some]. rewrite lookup_insert_ne by done. apply Hsnaps. by eexists.
Qed.

Lemma tester_step n rnd now es t e o :
  in_step n rnd now es t → tester_exec e t = Some o → ∃ t' es', o = Ret t' ∧ in_step n rnd now es' t'.
Proof.
  intros HI H. destruct e as [e|i|i|i rnd' now'].
  - simpl in H. destruct (raft_step e) eqn:Hok; [|discriminate H].
    destruct (exec_steady e (t_raft t)) as [s|] eqn:He; [|discriminate H]. injection H as <-.
    eexists _, _. split; [done|]. by apply in_step_raft.
  - destruct (in_step_apply _ _ _ _ _ _ _ HI H) as (t' & -> & ?). by eexists _, _.
  - destruct (in_step_snapshot _ _ _ _ _ _ _ HI H) as (t' & -> & ?). by eexists _, _.
  - destruct (in_step_restart _ _ _ _ _ _ _ _ _ HI H) as (t' & -> & ?). by eexists _, _.
Qed.

Lemma tester_reachable_step n t : tester_reachable n t → ∃ rnd now es, in_step n rnd now es t.
Proof.
  intros (rnd & now & es & H).
  assert (∀ es0 t0, in_step n rnd now es0 t0 → tester_run es t0 = Some t → ∃ es', in_step n rnd now es' t) as Hgen.
  { clear H. induction es as [|e es IH]; intros es0 t0 HI H; simpl in H; [injection H as <-; by eexists|].
    destruct (tester_exec e t0) as [o|] eqn:He; [|discriminate H].
    destruct (tester_step _ _ _ _ _ _ _ HI He) as (t1 & es1 & -> & HI1). by eapply IH. }
  destruct (Hgen _ _ (in_step_init n rnd now) H) as [es' ?]. by eexists _, _, _.
Qed.

(** The servers that have applied an entry at an index have applied the same. *)
Lemma nCommitted_ok n rnd now es cfg index :
  Forall (log_ok n rnd now es) (logs cfg) → ∃ count cmd, nCommitted cfg index = Ret (count, cmd).
Proof.
  intros Hlogs. unfold nCommitted.
  destruct (ofold_total (λ '(count, cmd), count > 0 → (index = 0 ∧ cmd = None) ∨ (0 < index ∧ attested n rnd now es index cmd))
    (λ '(count, cmd) l, match l !! index with
       | Some cmd1 => if (count >? 0) && negb (bool_decide (cmd = cmd1)) then Panic else Ret (count + 1, cmd1)
       | None => Ret (count, cmd) end) (logs cfg) (0, None)) as ([count cmd] & H & _); [|lia|by eexists _, _].
  intros [count cmd] l Hl Hinv. rewrite Forall_forall in Hlogs.
  destruct (l !! index) as [cmd1|] eqn:Hc; [|by eexists]. pose proof (Hlogs l Hl _ _ Hc) as Hok.
  assert ((count >? 0) && negb (bool_decide (cmd = cmd1)) = false) as ->.
  { rewrite Z.gtb_ltb. destruct (Z.ltb_spec 0 count); [|done]. simpl. apply negb_false_iff, bool_decide_eq_true.
    destruct (Hinv ltac:(lia)) as [[? ->]|[? Ha]], Hok as [[? ?]|[? Ha']]; try lia; [done|]. by eapply attested_agree. }
  eexists. split; [done|]. by intros _.
Qed.

(** *** Leaders *)

(** The servers looked at one after the other while the cluster goes on. *)
Fixpoint look (steps : list (list (Event C) * Z)) (s : Sys C) : option (list (Z * (Z * bool))) :=
  match steps with
  | [] => Some []
  | (es, i) :: steps =>
      s ← run es s;
      rf ← nodes s !! i;
      seen ← look steps s;
      Some ((i, GetState rf) :: seen)
  end.

Lemma look_cons es i steps s seen :
  look ((es, i) :: steps) s = Some seen →
  ∃ s1 rf seen1, run es s = Some s1 ∧ nodes s1 !! i = Some rf ∧ look steps s1 = Some seen1 ∧
    seen = (i, GetState rf) :: seen1.
Proof.
  simpl. intros H. destruct (run es s) as [s1|]; [|discriminate H]. simpl in H.
  destruct (nodes s1 !! i) as [rf|] eqn:Hi; [|discriminate H]. simpl in H.
  destruct (look steps s1) as [seen1|] eqn:Hl; [|discriminate H]. injection H as <-. by exists s1, rf, seen1.
Qed.

Lemma run_app es1 es2 (s : Sys C) : run (es1 ++ es2) s = s1 ← run es1 s; run es2 s1.
Proof. revert s. induction es1 as [|e es1 IH]; intros s; simpl; [done|]. destruct (exec e s); simpl; [apply IH|done]. Qed.

(** The server, if it was seen to lead the term. *)
Definition leads_in (term : Z) (x : Z * (Z * bool)) : option Z :=
  if x.2.2 && (x.2.1 =? term) then Some x.1 else None.

Lemma leads_in_Some term i (rf : Raft C) j :
  leads_in term (i, GetState rf) = Some j → j = i ∧ state rf = Leader ∧ currentTerm rf = term.
Proof.
  unfold leads_in, GetState. simpl. destruct (_ && _) eqn:Hl; [|done]. intros [= <-].
  apply andb_true_iff in Hl as [Hl1 Hl2%Z.eqb_eq]. by apply bool_decide_eq_true in Hl1.
Qed.

Lemma leaders_of_spec seen term : mget (leaders_of seen) term = omap (leads_in term) seen.
Proof.
  induction seen as [|[i [t leader]] seen IH] using rev_ind; [done|].
  unfold leaders_of in *. rewrite foldl_app, omap_app, <-IH. unfold leads_in, mget. simpl.
  destruct leader; simpl; [|by rewrite app_nil_r].
  destruct (Z.eqb_spec t term) as [->|Hne]; [by rewrite lookup_insert_eq|by rewrite lookup_insert_ne, app_nil_r].
Qed.

(** The lists of the map are not empty. *)
Lemma leaders_of_nonempty seen term l : leaders_of seen !! term = Some l → l ≠ [] ∧ l = omap (leads_in term) seen.
Proof.
  intros Hl. split; [|by rewrite <-leaders_of_spec; unfold mget; rewrite Hl].
  revert l Hl. induction seen as [|[i [t leader]] seen IH] using rev_ind; intros l; [done|].
  unfold leaders_of in *. rewrite foldl_app. simpl. destruct leader; [|by apply IH].
  intros [[_ <-]|[_ Hl]]%lookup_insert_Some; [by destruct (mget _ _)|by eapply IH].
Qed.

(** Whoever is seen to lead a term later is the one who led it before. *)
Lemma look_leads n s0 es s steps seen i rf j :
  reachable n s0 → nodes s0 !! i = Some rf → state rf = Leader → run es s0 = Some s → look steps s = Some seen →
  j ∈ omap (leads_in (currentTerm rf)) seen → j = i.
Proof.
  intros Hs0 Hi HL. revert es s seen. induction steps as [|[es1 i1] steps IH]; intros es s seen Hrun Hlook Hj.
  { injection Hlook as <-. by apply elem_of_nil in Hj. }
  apply look_cons in Hlook as (s1 & rf1 & seen1 & Hrun1 & Hi1 & Hlook1 & ->).
  assert (run (es ++ es1) s0 = Some s1) as Hrun2 by (by rewrite run_app, Hrun).
  apply list_elem_of_omap in Hj as (x & [->|Hx]%elem_of_cons & Hj).
  - apply leads_in_Some in Hj as (-> & HL1 & Ht). symmetry. by eapply (run_leaders_agree n s0 (es ++ es1) s1).
  - eapply (IH (es ++ es1) s1); [done|done|]. apply list_elem_of_omap. by exists x.
Qed.

Lemma look_servers s steps seen : look steps s = Some seen → seen.*1 = steps.*2.
Proof.
  revert s seen. induction steps as [|[es i] steps IH]; intros s seen Hlook; [by injection Hlook as <-|].
  apply look_cons in Hlook as (s1 & rf & seen1 & _ & _ & Hlook1 & ->). simpl. f_equal. by eapply IH.
Qed.

Lemma look_one_leader n s steps seen term :
  reachable n s → NoDup steps.*2 → look steps s = Some seen →
  (length (omap (leads_in term) seen) ≤ 1)%nat ∧ (omap (leads_in term) seen ≠ [] → 0 ≤ term).
Proof.
  revert s seen. induction steps as [|[es i] steps IH]; intros s seen Hs Hnd Hlook.
  { injection Hlook as <-. simpl. split; [lia|done]. }
  apply look_cons in Hlook as (s1 & rf & seen1 & Hrun & Hi & Hlook1 & ->).
  pose proof (run_reachable _ _ _ _ Hs Hrun) as Hs1. rewrite fmap_cons in Hnd. apply NoDup_cons in Hnd as [Hni Hnd].
  destruct (IH s1 seen1 Hs1 Hnd Hlook1) as [Hle Hpos].
  cbn [omap list_omap]. destruct (leads_in term (i, GetState rf)) as [i'|] eqn:Hl; [|done].
  apply leads_in_Some in Hl as (-> & HL & <-). assert (omap (leads_in (currentTerm rf)) seen1 = []) as ->.
  { apply elem_of_nil_inv. intros j Hj. pose proof (look_leads n s1 [] s1 steps seen1 i rf j Hs1 Hi HL eq_refl Hlook1 Hj) as ->.
    apply Hni. rewrite <-(look_servers s1 steps seen1 Hlook1). apply list_elem_of_omap in Hj as ([j x] & Hx & Hj).
    unfold leads_in in Hj. simpl in Hj. destruct (_ && _); [|done]. injection Hj as ->.
    apply list_elem_of_fmap. by exists (i, x). }
  split; [simpl; lia|]. intros _. by eapply reachable_terms.
Qed.

(** [checkOneLeader] finds no term with two leaders. *)
Lemma checkOneLeader_accepts {ranges : MapRange} n s steps seen :
  reachable n s → NoDup steps.*2 → look steps s = Some seen → ∃ r, checkOneLeader seen = Ret r.
Proof.
  intros Hs Hnd Hlook. unfold checkOneLeader.
  destruct (ofold_prefix_total (λ done last, (done = [] → last = -1) ∧ (done ≠ [] → last ∈ done.*1 ∧ 0 ≤ last))
    (λ lastTerm '(term, l), if len l >? 1 then Panic else Ret (if term >? lastTerm then term else lastTerm))
    (range (leaders_of seen)) (-1)) as (last & -> & _ & Hlast); [by split|..].
  - intros done [term l] last Hin [Hnil Hcons].
    rewrite (range_perm (leaders_of seen)) in Hin. apply elem_of_map_to_list in Hin.
    apply leaders_of_nonempty in Hin as [Hne ->]. destruct (look_one_leader n s steps seen term Hs Hnd Hlook) as [Hle Hpos].
    assert ((len (omap (leads_in term) seen) >? 1) = false) as -> by (rewrite Z.gtb_ltb; apply Z.ltb_ge; unfold len; lia).
    eexists. split; [done|]. split; [by intros [_ ?]%app_nil|]. intros _. specialize (Hpos Hne).
    rewrite Z.gtb_ltb, fmap_app. destruct (Z.ltb_spec last term); [set_solver|].
    destruct done; [rewrite Hnil in * by done; lia|]. destruct Hcons; [done|]. set_solver.
  - rewrite bind_Ret. case_decide as He; [by eexists|].
    destruct Hlast as [Hin Hpos].
    { intros E. apply He. apply map_to_list_empty_iff. apply Permutation_nil_r. by rewrite <-E, range_perm. }
    apply list_elem_of_fmap in Hin as ([term l] & -> & Hin). rewrite (range_perm (leaders_of seen)) in Hin.
    apply elem_of_map_to_list in Hin. unfold mget. simpl. rewrite Hin. simpl.
    apply leaders_of_nonempty in Hin as [Hne _]. destruct l as [|i l]; [done|]. by eexists.
Qed.

(** The reader without snapshots makes a part of the checks of the other one. *)
Lemma applier_accepts cfg i m cfg' snap :
  SnapshotValid m = false → applierSnap cfg i m = Ret (cfg', snap) → ∃ cfg1, applier cfg i m = Ret cfg1.
Proof.
  unfold applierSnap, applier. intros -> H. destruct (CommandValid m); simpl; [|by eexists].
  apply outcome_bind_Ret in H as (la & _ & H). destruct (negb _); [discriminate H|].
  apply outcome_bind_Ret in H as ([[cfg1 err] prevok] & -> & H). rewrite bind_Ret.
  apply outcome_bind_Ret in H as (la' & _ & H). apply outcome_bind_Ret in H as (li & _ & H). cbv zeta in H.
  destruct (_ && _); [discriminate H|]. destruct err; [discriminate H|]. by eexists.
Qed.

Lemma reader_accepts n rnd now es t i rf taken msg :
  in_step n rnd now es t → nodes (t_raft t) !! i = Some rf → t_taken t !! i = Some taken → t_snap t !! i = None →
  applyCh rf !! taken = Some msg → ∃ cfg, applier (t_cfg t) i msg = Ret cfg.
Proof.
  intros HI Hrf Htk Hsn Hm. destruct (tester_exec (TApply i) t) as [o|] eqn:He.
  2: { simpl in He. by rewrite Hrf in He; simpl in He; rewrite Htk in He; simpl in He; rewrite Hm in He; simpl in He; rewrite Hsn in He. }
  destruct (in_step_apply _ _ _ _ _ _ _ HI He) as (t' & -> & _). destruct HI as [(c & Hrun & Hr & Hrd) _ _].
  destruct (Hrd i taken Htk) as (k & Hk & _ & _). simpl in He. rewrite Hrf in He. simpl in He. rewrite Htk in He. simpl in He.
  rewrite Hm in He. simpl in He. rewrite Hsn in He. apply (inj Some), outcome_bind_Ret in He as ([cfg' snap] & Hap & _).
  destruct (next_message n c i rf (Some k) taken msg) as (_ & Hsv & _); [by exists rnd, now, es|by rewrite Hr|done|done|].
  by eapply applier_accepts.
Qed.

End tester.

(** ** A concrete test

    Ten commands, the ninth followed by a snapshot; then a node is restarted. *)
#[export] Instance TestGob_eq_dec : EqDecision (TestGob Z).
Proof. solve_decision. Defined.

#[export] Instance TestGob_countable : Countable (TestGob Z).
Proof.
  refine (inj_countable' (λ v, match v with TIndex i => inl i | TLog l => inr l end)
    (λ v, match v with inl i => TIndex i | inr l => TLog l end) _).
  by intros [].
Defined.

Section tester_example.
#[local] Instance tester_tgob : Gob (TestGob Z) := gob_of_countable (TestGob Z).
#[local] Instance tester_rgob : Gob (RaftGob Z) := gob_of_countable (RaftGob Z).

Definition tester_events : list (TestEvent (C := Z)) :=
  (TRaft <$>
   [ECommit 0; ECommit 1; ECommit 2;
    ETimeout 0 0; EDeliver 0 0; EReceive 0 0; ELose 0; ETimeout 0 0; EDeliver 0 0; EReceive 0 0; ELose 0] ++
   ((λ x, EStart 0 0 (Some x)) <$> [1; 2; 3; 4; 5; 6; 7; 8; 9; 10]) ++
   [ETimeout 0 0; EBegin 0; EEncode 0; EDeliver 0 0; EReceive 0 0] ++ replicate 20 (ECommit 0)) ++
  replicate 9 (TApply 0) ++ [TSnapshot 0; TApply 0; TRestart 0 0 0].

Definition tester0 : Tester (C := Z) := tester_init 3 (λ i, i) 0.
Definition tester1 : Tester (C := Z) := default tester0 (tester_run tester_events tester0).

Definition tester_leaders : list (list (Event Z) * Z) := [([], 1); ([ETimeout 1 0], 0); ([], 2)].

End tester_example.
