(* ===== verification/Harness.v ===== *)
(** * The test harnesses: servers, their ends and their persisters

    What [raft/config.go], [kvraft/config.go] and [shardctrler/config.go] under [src/src]
    have in common.  A harness keeps [n] slots; a slot holds the running server, the
    names of the client ends it sends through and the persister it saves to.  A server
    that was killed is still there: its goroutines run on, with the ends and the
    persister they were given.  The invariant [slots_ok] says that such a server can
    neither send, nor be called, nor reach a persister that is still in use.

    Servers and persisters are pointers, that is indices into the lists of all of them
    made so far.  The [labrpc.Server] of a server has the index of the server.  The names
    that [randstring] returned are arguments; [MakeEnd] ends the program when a name is
    taken. *)
From Stdlib Require Import Init.Byte Strings.Ascii.
From S2P Require Import Prelude LabGob LabRpc Raft.

(** ** randstring *)

Definition url_alphabet : list ascii :=
  String.list_ascii_of_string "ABCDEFGHIJKLMNOPQRSTUVWXYZabcdefghijklmnopqrstuvwxyz0123456789-_".

Definition base64_char (x : Z) : ascii := default "="%char (zlookup url_alphabet x).

(** [base64.URLEncoding.EncodeToString], on bytes as numbers. *)
Fixpoint EncodeToString (b : list Z) : list ascii :=
  match b with
  | [] => []
  | [x] => [base64_char (x / 4); base64_char (x mod 4 * 16); "="%char; "="%char]
  | [x; y] => [base64_char (x / 4); base64_char (x mod 4 * 16 + y / 16); base64_char (y mod 16 * 4); "="%char]
  | x :: y :: z :: b =>
      base64_char (x / 4) :: base64_char (x mod 4 * 16 + y / 16) :: base64_char (y mod 16 * 4 + z / 64)
        :: base64_char (z mod 64) :: EncodeToString b
  end.

(** [b] is what [crand.Read] filled the [2*n] bytes with. *)
Definition randstring (n : Z) (b : list Z) : outcome (list ascii) := slice_to (EncodeToString b) n.

Lemma EncodeToString_length b : len (EncodeToString b) = 4 * ((len b + 2) / 3).
Proof.
  assert (∀ k b, (length b ≤ k)%nat → len (EncodeToString b) = 4 * ((len b + 2) / 3)) as H; [|by eapply H].
  clear. intros k. induction k as [k IH] using lt_wf_ind. intros [|x [|y [|z b]]] Hk; [done..|].
  simpl in Hk. cbn [EncodeToString]. autorewrite with slices. rewrite (IH (length b)) by lia.
  replace (1 + (1 + (1 + len b)) + 2) with (len b + 2 + 1 * 3) by lia. rewrite Z.div_add by lia. lia.
Qed.

(** A name of the length asked for, whatever the bytes. *)
Lemma randstring_length n b : 0 ≤ n → len b = 2 * n → ∃ s, randstring n b = Ret s ∧ len s = n.
Proof.
  intros Hn Hb. pose proof (EncodeToString_length b) as Hl. rewrite Hb in Hl.
  assert (n ≤ 4 * ((2 * n + 2) / 3)) by (pose proof (Z.div_mod (2 * n + 2) 3); pose proof (Z.mod_pos_bound (2 * n + 2) 3); lia).
  unfold randstring. rewrite slice_to_ok by lia. eexists. split; [done|]. rewrite len_take. lia.
Qed.

(** ** Names on the network: numbers of servers and strings of ends *)

Inductive NetName := NInt (i : Z) | NStr (s : string).

#[export] Instance NetName_eq_dec : EqDecision NetName.
Proof. solve_decision. Defined.

#[export] Instance NetName_countable : Countable NetName.
Proof.
  apply (inj_countable' (λ x, match x with NInt i => inl i | NStr s => inr s end)
    (λ x, match x with inl i => NInt i | inr s => NStr s end)). by intros [].
Defined.

(** What the harness does with the servers of a package: [E] is what the start of one
    reads besides its persister. *)
Class Hosted (K E : Type) := {
  host_start : Z → Z → E → Persister → K;     (* [n], its number *)
  host_kill : K → K;
  host_state : K → Z * bool;                  (* [GetState] of its Raft *)
}.

Section harness.
Context {K E : Type} `{Hosted K E}.

Record Instance_ := mkInstance {
  in_me : Z;
  in_ends : list string;
  in_persister : Z;
  in_state : K;
}.

(** [host] is [cfg.rafts], [cfg.kvservers] or [cfg.servers]; nil is [None]. *)
Record harness := mkHarness {
  cfg_net : Network (Name := NetName);
  cfg_n : Z;
  host : list (option Z);
  saved : list (option Z);
  endnames : list (option (list string));
  instances : list Instance_;
  persisters : list Persister;
}.

Definition eta_harness (h : harness) : harness :=
  mkHarness (cfg_net h) (cfg_n h) (host h) (saved h) (endnames h) (instances h) (persisters h).

#[global] Instance set_cfg_net : Setter cfg_net := λ f x, ltac:(solve_setter eta_harness cfg_net f x).
#[global] Instance set_cfg_n : Setter cfg_n := λ f x, ltac:(solve_setter eta_harness cfg_n f x).
#[global] Instance set_host : Setter host := λ f x, ltac:(solve_setter eta_harness host f x).
#[global] Instance set_saved : Setter saved := λ f x, ltac:(solve_setter eta_harness saved f x).
#[global] Instance set_endnames : Setter endnames := λ f x, ltac:(solve_setter eta_harness endnames f x).
#[global] Instance set_instances : Setter instances := λ f x, ltac:(solve_setter eta_harness instances f x).
#[global] Instance set_persisters : Setter persisters := λ f x, ltac:(solve_setter eta_harness persisters f x).

(** The slices that a [make_config] makes. *)
Definition make_slots (n : Z) : harness :=
  mkHarness MakeNetwork n (replicate (Z.to_nat n) None) (replicate (Z.to_nat n) None)
    (replicate (Z.to_nat n) None) [] [].

(** [cfg.net.Enable(cfg.endnames[i][j], yes)]; the row of a server not yet started is nil,
    which has no element. *)
Definition set_end (yes : bool) (i j : Z) (h : harness) : outcome harness :=
  row ← slice_get (endnames h) i;
  endname ← slice_get (default [] row) j;
  Ret (h <| cfg_net := Enable (cfg_net h) (NStr endname) yes |>).

(** The same where the row may be nil. *)
Definition set_end_if (yes : bool) (k i j : Z) (h : harness) : outcome harness :=
  row ← slice_get (endnames h) k;
  match row with
  | Some _ => set_end yes i j h
  | None => Ret h
  end.

(** [cfg.saved[i]] becomes a new persister with this content. *)
Definition new_saved (i : Z) (ps : Persister) (h : harness) : outcome harness :=
  saved' ← slice_set (saved h) i (Some (len (persisters h)));
  Ret (h <| persisters := persisters h ++ [ps] |> <| saved := saved' |>).

(** [if cfg.saved[i] != nil { cfg.saved[i] = cfg.saved[i].Copy() }] *)
Definition copy_saved (i : Z) (h : harness) : outcome harness :=
  p ← slice_get (saved h) i;
  match p with
  | Some p => ps ← slice_get (persisters h) p; new_saved i (Copy ps) h
  | None => Ret h
  end.

(** [kv := cfg.kvservers[i]; if kv != nil { kv.Kill(); cfg.kvservers[i] = nil }] *)
Definition kill_host (i : Z) (h : harness) : outcome harness :=
  a ← slice_get (host h) i;
  match a with
  | Some a =>
      inst ← slice_get (instances h) a;
      insts ← slice_set (instances h) a (mkInstance (in_me inst) (in_ends inst) (in_persister inst) (host_kill (in_state inst)));
      host' ← slice_set (host h) i None;
      Ret (h <| instances := insts |> <| host := host' |>)
  | None => Ret h
  end.

(** [for i := 0; i < len(cfg.rafts); i++ { if cfg.rafts[i] != nil { cfg.rafts[i].Kill() } }] *)
Definition kill_all (h : harness) : outcome harness :=
  ofold (λ h a, match a with
                | Some a =>
                    inst ← slice_get (instances h) a;
                    insts ← slice_set (instances h) a
                      (mkInstance (in_me inst) (in_ends inst) (in_persister inst) (host_kill (in_state inst)));
                    Ret (h <| instances := insts |>)
                | None => Ret h
                end) h (host h).

(** A fresh set of ends, to the servers [target j]; [names j] is what [randstring(20)]
    returned. *)
Definition make_ends (names : Z → string) (target : Z → NetName) (l : list Z) (rn : Network (Name := NetName)) :
    outcome (Network (Name := NetName)) :=
  ofold (λ rn j, rn ← MakeEnd rn (NStr (names j)); Ret (Connect rn (NStr (names j)) (target j))) rn l.

(** The names become [cfg.endnames[i]]. *)
Definition fresh_ends (i : Z) (names : Z → string) (h : harness) : outcome harness :=
  endnames' ← slice_set (endnames h) i (Some (names <$> zrange (cfg_n h)));
  let h := h <| endnames := endnames' |> in
  rn ← make_ends names NInt (zrange (cfg_n h)) (cfg_net h);
  Ret (h <| cfg_net := rn |>).

(** The server is made with its ends and [cfg.saved[i]], and added to the network. *)
Definition launch (i : Z) (names : Z → string) (env : E) (h : harness) : outcome harness :=
  p ← slice_get (saved h) i;
  match p with
  | Some p =>
      ps ← slice_get (persisters h) p;
      let a := len (instances h) in
      let inst := mkInstance i (names <$> zrange (cfg_n h)) p (host_start (cfg_n h) i env ps) in
      host' ← slice_set (host h) i (Some a);
      Ret (h <| instances := instances h ++ [inst] |> <| host := host' |>
             <| cfg_net := AddServer (cfg_net h) (NInt i) a |>)
  | None => Panic
  end.

(** ** The goroutines of a server

    Any server made so far, running or killed, changes its state and saves to its
    persister. *)
Definition server_step (a : Z) (k : K) (ps : Persister) (h : harness) : outcome harness :=
  inst ← slice_get (instances h) a;
  insts ← slice_set (instances h) a (mkInstance (in_me inst) (in_ends inst) (in_persister inst) k);
  pers ← slice_set (persisters h) (in_persister inst) ps;
  Ret (h <| instances := insts |> <| persisters := pers |>).

(** Whether the end from [i] to [j] of the present rows is enabled. *)
Definition end_name (h : harness) (i j : Z) : option string :=
  row ← zlookup (endnames h) i; row ← row; zlookup row j.
Definition linked (h : harness) (i j : Z) : bool :=
  match end_name h i j with Some s => is_enabled (cfg_net h) (NStr s) | None => false end.

(** The persister of slot [i] and what it holds. *)
Definition saved_at (h : harness) (i : Z) : option Z := zlookup (saved h) i ≫= id.
Definition content (h : harness) (i : Z) : option Persister := p ← saved_at h i; zlookup (persisters h) p.
Definition host_at (h : harness) (i : Z) : option Z := zlookup (host h) i ≫= id.

(** The server [a] runs in its slot. *)
Definition running (h : harness) (a : Z) (inst : Instance_) : Prop := host_at h (in_me inst) = Some a.

End harness.
Arguments Instance_ : clear implicits.
Arguments harness : clear implicits.

(** ** The invariant *)
Section invariant.
Context {K E : Type} `{Hosted K E}.
Implicit Types (h : harness K) (X : gset string).

(** [X] are the names of the other ends, those of clerks. *)
Record slots_ok X h : Prop := {
  so_host : len (host h) = cfg_n h;
  so_saved : len (saved h) = cfg_n h;
  so_rows : len (endnames h) = cfg_n h;
  so_inst a inst : zlookup (instances h) a = Some inst →
    0 ≤ in_me inst < cfg_n h ∧ 0 ≤ in_persister inst < len (persisters h) ∧ len (in_ends inst) = cfg_n h;
  so_ends a inst j s : zlookup (instances h) a = Some inst → zlookup (in_ends inst) j = Some s →
    is_Some (ends (cfg_net h) !! NStr s) ∧ connections (cfg_net h) !! NStr s = Some (Some (NInt j)) ∧ s ∉ X;
  so_names a inst b inst' j j' s :
    zlookup (instances h) a = Some inst → zlookup (instances h) b = Some inst' →
    zlookup (in_ends inst) j = Some s → zlookup (in_ends inst') j' = Some s → a = b ∧ j = j';
  so_row i row j s : zlookup (endnames h) i = Some (Some row) → zlookup row j = Some s →
    is_Some (ends (cfg_net h) !! NStr s) ∧
    ∀ a inst j', zlookup (instances h) a = Some inst → zlookup (in_ends inst) j' = Some s → in_me inst = i ∧ j' = j;
  so_current i a : host_at h i = Some a → ∃ inst, zlookup (instances h) a = Some inst ∧ in_me inst = i ∧
    saved_at h i = Some (in_persister inst) ∧ zlookup (endnames h) i = Some (Some (in_ends inst));
  so_old a inst j s : zlookup (instances h) a = Some inst → ¬ running h a inst →
    zlookup (in_ends inst) j = Some s → is_enabled (cfg_net h) (NStr s) = false;
  so_enabled s : is_enabled (cfg_net h) (NStr s) = true →
    s ∈ X ∨ ∃ a inst j, zlookup (instances h) a = Some inst ∧ zlookup (in_ends inst) j = Some s;
  so_pers_range i p : saved_at h i = Some p → 0 ≤ p < len (persisters h);
  so_pers_inj i j p : saved_at h i = Some p → saved_at h j = Some p → i = j;
  so_pers i a inst : saved_at h i = Some (in_persister inst) → zlookup (instances h) a = Some inst → host_at h i = Some a;
  so_server i a : server_at (cfg_net h) (NInt i) = Some a → host_at h i = Some a;
}.

(** The ends from [i] to [j] of the running servers are enabled as [P] says. *)
Definition wired h (P : Z → Z → bool) : Prop :=
  ∀ i j a inst s, host_at h i = Some a → zlookup (instances h) a = Some inst →
    zlookup (in_ends inst) j = Some s → is_enabled (cfg_net h) (NStr s) = P i j.

(** *** Enabling and disabling ends *)

Lemma set_end_Ret yes i j h h' :
  set_end yes i j h = Ret h' ↔ ∃ row s, zlookup (endnames h) i = Some (Some row) ∧ zlookup row j = Some s ∧
    h' = h <| cfg_net := Enable (cfg_net h) (NStr s) yes |>.
Proof.
  unfold set_end. rewrite outcome_bind_Ret. setoid_rewrite slice_get_Ret. split.
  - intros (row & Hrow & (s & Hs & [= <-])%outcome_bind_Ret). rewrite slice_get_Ret in Hs.
    destruct row as [row|]; [by exists row, s|]. simpl in Hs. by apply zlookup_bounds in Hs as [? Hl%Z.lt_nge].
  - intros (row & s & Hrow & Hs & ->). exists (Some row). split; [done|]. simpl. unfold slice_get. by rewrite Hs.
Qed.

Lemma is_enabled_Enable (rn : Network (Name := NetName)) s s' yes :
  is_enabled (Enable rn s yes) s' = if decide (s' = s) then yes else is_enabled rn s'.
Proof.
  unfold is_enabled. simpl. case_decide as Heq; [subst; by rewrite lookup_insert_eq|by rewrite lookup_insert_ne].
Qed.

(** Who may be enabled: an end of a running server, or one of [X]. *)
Lemma enable_ok X h s yes :
  slots_ok X h →
  (yes = true → s ∈ X ∨ ∃ i a inst j, host_at h i = Some a ∧ zlookup (instances h) a = Some inst ∧ zlookup (in_ends inst) j = Some s) →
  slots_ok X (h <| cfg_net := Enable (cfg_net h) (NStr s) yes |>).
Proof.
  intros Hok Hyes. destruct Hok. split; try done.
  - intros a inst j s' Ha Hnr Hs'. unfold running in *. simpl in *. rewrite is_enabled_Enable.
    case_decide as Heq; [|by eapply so_old0]. injection Heq as ->. destruct yes; [|done].
    destruct Hyes as [Hx|(i & b & inst' & j' & Hb & Hb' & Hs)]; [done|by eapply so_ends0 in Hs' as (_ & _ & ?)|].
    destruct (so_names0 a inst b inst' j j' s) as [<- _]; [done..|]. rewrite Ha in Hb'. injection Hb' as <-.
    destruct (so_current0 i a Hb) as (inst' & Hi & <- & _). rewrite Ha in Hi. by injection Hi as <-.
  - intros s'. simpl. rewrite is_enabled_Enable. case_decide as Heq; [|by apply so_enabled0]. injection Heq as ->.
    intros ->. destruct Hyes as [?|(i & a & inst & j & _ & Ha & Hs)]; [done|by left|right]. eauto.
Qed.

Lemma set_end_ok X yes i j h h' :
  slots_ok X h → (yes = true → is_Some (host_at h i)) → set_end yes i j h = Ret h' → slots_ok X h'.
Proof.
  intros Hok Hi (row & s & Hrow & Hs & ->)%set_end_Ret. apply enable_ok; [done|]. intros [a Ha]%Hi. right.
  destruct (so_current _ _ Hok _ _ Ha) as (inst & Hinst & _ & _ & Hrow'). exists i, a, inst, j. naive_solver.
Qed.

Lemma set_end_wired X P yes i j h h' :
  slots_ok X h → wired h P → set_end yes i j h = Ret h' →
  wired h' (λ i' j', if decide (i' = i ∧ j' = j) then yes else P i' j').
Proof.
  intros Hok Hw (row & s & Hrow & Hs & ->)%set_end_Ret i' j' a inst s' Ha Hinst Hs'. simpl. rewrite is_enabled_Enable.
  change (host_at h i' = Some a) in Ha. change (zlookup (instances h) a = Some inst) in Hinst.
  destruct (so_current _ _ Hok _ _ Ha) as (? & Hi & Hme & _ & Hrow'). rewrite Hinst in Hi. injection Hi as <-.
  case_decide as Heq; case_decide as Hij; [done| | |by apply (Hw i' j' a inst s')].
  - injection Heq as ->. destruct Hij. destruct (so_row _ _ Hok i row j s Hrow Hs) as [_ Hu].
    destruct (Hu a inst j'); [done..|]. by subst.
  - destruct Hij as [-> ->]. destruct Heq. rewrite Hrow' in Hrow. injection Hrow as <-. congruence.
Qed.

Lemma wired_ext h P Q : (∀ i j, P i j = Q i j) → wired h P → wired h Q.
Proof. intros HPQ Hw i j a inst s Ha Hi Hs. rewrite <-HPQ. by apply (Hw i j a inst s). Qed.

Lemma wired_ext_running X h P Q :
  slots_ok X h → (∀ i j, is_Some (host_at h i) → 0 ≤ i < cfg_n h → 0 ≤ j < cfg_n h → P i j = Q i j) → wired h P → wired h Q.
Proof.
  intros Hok HPQ Hw i j a inst s Ha Hi Hs. destruct (so_current _ _ Hok i a Ha) as (inst' & Hi' & <- & _).
  rewrite Hi in Hi'. injection Hi' as <-. destruct (so_inst _ _ Hok a inst Hi) as (Hme & _ & Hlen).
  rewrite <-HPQ; [by apply (Hw _ j a inst s)|by eexists|done|]. rewrite <-Hlen. by eapply zlookup_bounds.
Qed.

(** What changes when ends are enabled and disabled. *)
Record same_slots h h' : Prop := {
  ss_n : cfg_n h' = cfg_n h;
  ss_host : host h' = host h;
  ss_saved : saved h' = saved h;
  ss_endnames : endnames h' = endnames h;
  ss_instances : instances h' = instances h;
  ss_persisters : persisters h' = persisters h;
  ss_servers : servers (cfg_net h') = servers (cfg_net h);
}.

#[global] Instance same_slots_refl : Reflexive same_slots.
Proof. by split. Qed.
#[global] Instance same_slots_trans : Transitive same_slots.
Proof. intros ??? [] []. split; congruence. Qed.

Lemma set_end_same yes i j h h' : set_end yes i j h = Ret h' → same_slots h h'.
Proof. by intros (row & s & _ & _ & ->)%set_end_Ret. Qed.

(** A loop over ends, as a list of pairs. *)
Definition set_ends (yes : bool) (l : list (Z * Z)) h : outcome (harness K) :=
  ofold (λ h '(i, j), set_end yes i j h) h l.

Lemma set_ends_spec X P yes l h h' :
  slots_ok X h → wired h P → (yes = true → ∀ i j, (i, j) ∈ l → is_Some (host_at h i)) → set_ends yes l h = Ret h' →
  slots_ok X h' ∧ same_slots h h' ∧ wired h' (λ i j, if decide ((i, j) ∈ l) then yes else P i j).
Proof.
  revert h P. induction l as [|[i j] l IH]; intros h P Hok Hw Hi Hl.
  - injection Hl as <-. split_and!; [done|done|]. eapply wired_ext; [|done]. intros. by rewrite decide_False by set_solver.
  - simpl in Hl. apply outcome_bind_Ret in Hl as (h1 & Hh1 & Hl). pose proof (set_end_same _ _ _ _ _ Hh1) as Hs.
    edestruct (IH h1) as (Hok' & Hs' & Hw'); [|by eapply set_end_wired| |done|].
    + eapply set_end_ok; [done| |done]. intros Hy. eapply Hi; [done|]. by left.
    + intros Hy i' j' Hin. unfold host_at. rewrite (ss_host _ _ Hs). eapply Hi; [done|]. by right.
    + split_and!; [done|by etrans|]. eapply wired_ext; [|done]. intros i' j'. simpl.
      destruct (decide ((i', j') ∈ l)) as [Hin|Hin]; [by rewrite decide_True by (by right)|].
      case_decide as Hij; [destruct Hij as [-> ->]; by rewrite decide_True by (by left)|].
      rewrite decide_False; [done|]. intros [[= -> ->]|?]%elem_of_cons; naive_solver.
Qed.

(** It does not stop at the rows of servers that were started. *)
Lemma set_ends_total yes l h :
  (∀ i j, (i, j) ∈ l → ∃ row, zlookup (endnames h) i = Some (Some row) ∧ 0 ≤ j < len row) → ∃ h', set_ends yes l h = Ret h'.
Proof.
  revert h. induction l as [|[i j] l IH]; intros h Hl; [by eexists|].
  change (∃ h', set_end yes i j h ≫= set_ends yes l = Ret h').
  destruct (Hl i j) as (row & Hrow & Hj); [by left|]. destruct (slice_get_ok row j Hj) as (s & _ & Hs).
  assert (set_end yes i j h = Ret (h <| cfg_net := Enable (cfg_net h) (NStr s) yes |>)) as ->.
  { apply set_end_Ret. by exists row, s. }
  apply IH. intros i' j' Hin. apply Hl. by right.
Qed.

(** *** Taking a server down *)

Lemma DeleteServer_ok X h i :
  slots_ok X h → slots_ok X (h <| cfg_net := DeleteServer (cfg_net h) (NInt i) |>).
Proof.
  intros []. split; try done. intros j a. simpl. unfold server_at. simpl.
  destruct (decide (i = j)) as [->|]; [by rewrite lookup_insert_eq|]. rewrite lookup_insert_ne by congruence. apply so_server0.
Qed.

Lemma new_saved_Ret i ps h h' :
  new_saved i ps h = Ret h' → 0 ≤ i < len (saved h) ∧
  h' = h <| persisters := persisters h ++ [ps] |> <| saved := <[Z.to_nat i := Some (len (persisters h))]> (saved h) |>.
Proof.
  unfold new_saved. intros (sv & Hsv & [= <-])%outcome_bind_Ret. by apply slice_set_Ret in Hsv as (? & ->).
Qed.

Lemma new_saved_at i ps h h' j :
  new_saved i ps h = Ret h' → saved_at h' j = if decide (j = i) then Some (len (persisters h)) else saved_at h j.
Proof.
  intros [Hi ->]%new_saved_Ret. unfold saved_at. simpl.
  case_decide as Hj; [subst; by rewrite zlookup_insert_eq|]. by rewrite zlookup_insert_ne by lia.
Qed.

(** A slot loses its server, which can no longer send or be called, and gets a new
    persister. *)
Lemma retire_ok X i ps h h' :
  slots_ok X h → 0 ≤ i < cfg_n h → (is_Some (host_at h i) → server_at (cfg_net h) (NInt i) = None) →
  (∀ a inst j s, host_at h i = Some a → zlookup (instances h) a = Some inst → zlookup (in_ends inst) j = Some s →
     is_enabled (cfg_net h) (NStr s) = false) →
  new_saved i ps h = Ret h' →
  slots_ok X (h' <| host := <[Z.to_nat i := None]> (host h') |>).
Proof.
  intros Hok Hi Hsrv Hdis Hn. pose proof (λ j, new_saved_at i ps h h' j Hn) as Hsv. apply new_saved_Ret in Hn as [Hb Hh'].
  pose proof (len_nonneg (persisters h)) as H0.
  assert (len (persisters h') = len (persisters h) + 1) as Hlen by (subst h'; simpl; by rewrite len_app).
  assert (cfg_n h' = cfg_n h ∧ host h' = host h ∧ endnames h' = endnames h ∧ instances h' = instances h ∧ cfg_net h' = cfg_net h)
    as (En & Eh & Ee & Ei & Enet) by by subst h'.
  assert (∀ j, host_at (h' <| host := <[Z.to_nat i := None]> (host h') |>) j = if decide (j = i) then None else host_at h j) as Hh.
  { pose proof (so_host _ _ Hok). intros j. unfold host_at. simpl. rewrite Eh.
    case_decide as Hj; [subst j; by rewrite zlookup_insert_eq by lia|]. by rewrite zlookup_insert_ne by lia. }
  destruct Hok. split; unfold running; try setoid_rewrite Hh; simpl; rewrite ?En, ?Eh, ?Ee, ?Ei, ?Enet; try done.
  - by rewrite len_insert.
  - subst h'. simpl. by rewrite len_insert.
  - intros a inst Ha. destruct (so_inst0 a inst Ha) as (? & ? & ?). split_and!; lia.
  - intros j a. case_decide as Hj; [done|]. intros (inst & ? & ? & Hs & ?)%so_current0. exists inst. split_and!; try done.
    change (saved_at h' j = Some (in_persister inst)). by rewrite Hsv, decide_False.
  - intros a inst j s Ha Hnr Hs. destruct (decide (host_at h (in_me inst) = Some a)) as [Hr|Hr]; [|by eapply so_old0].
    case_decide as Hme; [|done]. rewrite Hme in Hr. by eapply Hdis.
  - intros j p. change (saved_at h' j = Some p → 0 ≤ p < len (persisters h')). rewrite Hsv.
    case_decide; [intros [= <-]; lia|]. intros ?%so_pers_range0. lia.
  - intros j k p. change (saved_at h' j = Some p → saved_at h' k = Some p → j = k). rewrite !Hsv.
    repeat case_decide; subst; [done| | |by apply so_pers_inj0].
    + intros [= <-] ?%so_pers_range0. lia.
    + intros ?%so_pers_range0 [= <-]. lia.
  - intros j a inst. change (saved_at h' j = Some (in_persister inst) → zlookup (instances h) a = Some inst → (if decide (j = i) then None else host_at h j) = Some a).
    rewrite Hsv. case_decide; [|by apply so_pers0]. intros [= He] Ha%so_inst0. lia.
  - intros j a Ha. case_decide; [|by apply so_server0]. subst. rewrite Hsrv in Ha; [done|]. rewrite (so_server0 _ _ Ha). by eexists.
Qed.

Lemma new_saved_content X i ps h h' :
  slots_ok X h → new_saved i ps h = Ret h' → content h' i = Some ps ∧ ∀ j, j ≠ i → content h' j = content h j.
Proof.
  intros Hok Hn. pose proof (λ j, new_saved_at i ps h h' j Hn) as Hsv. apply new_saved_Ret in Hn as [Hb Hh'].
  pose proof (len_nonneg (persisters h)) as H0. unfold content. split.
  - rewrite Hsv, decide_True by done. subst h'. simpl. rewrite zlookup_app_r by lia. by rewrite Z.sub_diag.
  - intros j Hj. rewrite Hsv, decide_False by done. destruct (saved_at h j) as [p|] eqn:Hp; [|done]. simpl.
    subst h'. simpl. apply zlookup_app_l. eapply so_pers_range in Hp; [|done]. lia.
Qed.

(** A new persister for a slot without a server. *)
Lemma new_saved_ok X i ps h h' :
  slots_ok X h → host_at h i = None → new_saved i ps h = Ret h' → slots_ok X h'.
Proof.
  intros Hok Hi Hn. pose proof (new_saved_Ret _ _ _ _ Hn) as [Hb Hh']. pose proof (so_host _ _ Hok). pose proof (so_saved _ _ Hok).
  assert (h' <| host := <[Z.to_nat i := None]> (host h') |> = h') as Heq.
  { subst h'. simpl. rewrite list_insert_id; [done|]. unfold host_at, zlookup in Hi. destruct (Z.leb_spec 0 i); [|lia].
    destruct (host h !! Z.to_nat i) as [[]|] eqn:Hl; [done|done|]. apply lookup_ge_None in Hl. unfold len in *. lia. }
  rewrite <-Heq. eapply retire_ok; [done|lia|by rewrite Hi; intros []|by rewrite Hi|done].
Qed.

Lemma copy_saved_ok X i h h' :
  slots_ok X h → host_at h i = None → copy_saved i h = Ret h' → slots_ok X h' ∧ ∀ j, content h' j = content h j.
Proof.
  intros Hok Hi (p & Hp & Hc)%outcome_bind_Ret. rewrite slice_get_Ret in Hp. destruct p as [p|]; [|by injection Hc as <-].
  apply outcome_bind_Ret in Hc as (ps & Hps & Hc). rewrite slice_get_Ret in Hps.
  destruct (new_saved_content _ _ _ _ _ Hok Hc) as (Hci & Hcj). split; [by eapply new_saved_ok|]. intros j.
  destruct (decide (j = i)) as [->|]; [|by apply Hcj]. rewrite Hci. unfold content, saved_at. rewrite Hp. simpl. rewrite Hps. by destruct ps.
Qed.

Lemma kill_host_Ret i h h' :
  kill_host i h = Ret h' → (host_at h i = None ∧ h' = h) ∨ ∃ a inst, host_at h i = Some a ∧ zlookup (instances h) a = Some inst ∧
    h' = h <| instances := <[Z.to_nat a := mkInstance (in_me inst) (in_ends inst) (in_persister inst) (host_kill (in_state inst))]> (instances h) |>
           <| host := <[Z.to_nat i := None]> (host h) |>.
Proof.
  unfold host_at. intros (a & Ha & Hk)%outcome_bind_Ret. rewrite slice_get_Ret in Ha. rewrite Ha.
  destruct a as [a|]; [|injection Hk as <-; by left]. right. apply outcome_bind_Ret in Hk as (inst & Hinst & Hk).
  apply outcome_bind_Ret in Hk as (insts & [_ ->]%slice_set_Ret & Hk).
  apply outcome_bind_Ret in Hk as (hs & [_ ->]%slice_set_Ret & [= <-]). rewrite slice_get_Ret in Hinst. by exists a, inst.
Qed.

(** A change of the state of a server is not seen. *)
Lemma instances_update (insts : list (Instance_ K)) a inst k b inst' :
  zlookup insts a = Some inst →
  zlookup (<[Z.to_nat a := mkInstance (in_me inst) (in_ends inst) (in_persister inst) k]> insts) b = Some inst' →
  ∃ inst0, zlookup insts b = Some inst0 ∧ in_me inst' = in_me inst0 ∧ in_ends inst' = in_ends inst0 ∧ in_persister inst' = in_persister inst0.
Proof.
  intros Ha. pose proof (zlookup_bounds _ _ _ Ha). destruct (decide (b = a)) as [->|].
  - rewrite zlookup_insert_eq by done. intros [= <-]. by exists inst.
  - rewrite zlookup_insert_ne by lia. intros. by exists inst'.
Qed.

Lemma instances_update_same X h insts :
  slots_ok X h →
  (∀ b inst', zlookup insts b = Some inst' → ∃ inst0, zlookup (instances h) b = Some inst0 ∧ in_me inst' = in_me inst0 ∧
     in_ends inst' = in_ends inst0 ∧ in_persister inst' = in_persister inst0) →
  (∀ b inst0, zlookup (instances h) b = Some inst0 → ∃ inst', zlookup insts b = Some inst' ∧ in_me inst' = in_me inst0 ∧
     in_ends inst' = in_ends inst0 ∧ in_persister inst' = in_persister inst0) →
  slots_ok X (h <| instances := insts |>).
Proof.
  intros [] Hdown Hup. split; simpl; try done; unfold running; simpl.
  - intros a inst (i0 & Ha & -> & -> & ->)%Hdown. by eapply so_inst0.
  - intros a inst j s (i0 & Ha & _ & -> & _)%Hdown. by eapply so_ends0.
  - intros a inst b inst' j j' s (i0 & Ha & _ & -> & _)%Hdown (i1 & Hb & _ & -> & _)%Hdown. by eapply so_names0.
  - intros i row j s Hrow Hs. destruct (so_row0 i row j s Hrow Hs) as [? Hu]. split; [done|].
    intros a inst j' (i0 & Ha & -> & -> & _)%Hdown. by eapply Hu.
  - intros i a (inst & Ha & Hme & Hsv & Hrow)%so_current0. destruct (Hup a inst Ha) as (inst' & Ha' & E1 & E2 & E3).
    exists inst'. rewrite E1, E2, E3. done.
  - intros a inst j s (i0 & Ha & -> & -> & _)%Hdown. by eapply so_old0.
  - intros s [?|(a & inst & j & Ha & Hs)]%so_enabled0; [by left|right]. destruct (Hup a inst Ha) as (inst' & Ha' & _ & E2 & _).
    exists a, inst', j. by rewrite E2.
  - intros i a inst Hs (i0 & Ha & _ & _ & Hp)%Hdown. eapply so_pers0; [|done]. by rewrite <-Hp.
Qed.

Lemma instances_update_up (insts : list (Instance_ K)) a inst k b inst0 :
  zlookup insts a = Some inst → zlookup insts b = Some inst0 →
  ∃ inst', zlookup (<[Z.to_nat a := mkInstance (in_me inst) (in_ends inst) (in_persister inst) k]> insts) b = Some inst' ∧
    in_me inst' = in_me inst0 ∧ in_ends inst' = in_ends inst0 ∧ in_persister inst' = in_persister inst0.
Proof.
  intros Ha Hb. pose proof (zlookup_bounds _ _ _ Ha). destruct (decide (b = a)) as [->|].
  - rewrite zlookup_insert_eq by done. eexists. split; [done|]. rewrite Ha in Hb. by injection Hb as <-.
  - rewrite zlookup_insert_ne by lia. by exists inst0.
Qed.

Lemma state_ok X h a inst k :
  slots_ok X h → zlookup (instances h) a = Some inst →
  slots_ok X (h <| instances := <[Z.to_nat a := mkInstance (in_me inst) (in_ends inst) (in_persister inst) k]> (instances h) |>).
Proof.
  intros Hok Ha. apply instances_update_same; [done| |].
  - intros. by eapply instances_update.
  - intros. by eapply instances_update_up.
Qed.


Lemma copy_saved_frame i h h' :
  copy_saved i h = Ret h' → cfg_n h' = cfg_n h ∧ host h' = host h ∧ endnames h' = endnames h ∧ instances h' = instances h ∧ cfg_net h' = cfg_net h.
Proof.
  intros (p & Hp & Hc)%outcome_bind_Ret. destruct p as [p|]; [|by injection Hc as <-].
  apply outcome_bind_Ret in Hc as (ps & Hps & [_ ->]%new_saved_Ret). done.
Qed.

(** [ShutdownServer] and [crash1] once the server is cut off: the content of the
    persister stays, the server is gone from its slot. *)
Lemma take_down_ok X i h h1 h2 :
  slots_ok X h → 0 ≤ i < cfg_n h → server_at (cfg_net h) (NInt i) = None →
  (∀ a inst j s, host_at h i = Some a → zlookup (instances h) a = Some inst → zlookup (in_ends inst) j = Some s →
     is_enabled (cfg_net h) (NStr s) = false) →
  copy_saved i h = Ret h1 → kill_host i h1 = Ret h2 →
  slots_ok X h2 ∧ host_at h2 i = None ∧ cfg_n h2 = cfg_n h ∧ cfg_net h2 = cfg_net h ∧ (∀ j, content h2 j = content h j) ∧
  (∀ j, j ≠ i → host_at h2 j = host_at h j) ∧ (∀ P, wired h P → wired h2 P) ∧ endnames h2 = endnames h.
Proof.
  intros Hok Hi Hsrv Hdis Hc Hk. pose proof (copy_saved_frame _ _ _ Hc) as (En & Eh & Ee & Ei & Enet).
  apply kill_host_Ret in Hk as [[Hn ->]|(a & inst & Ha & Hinst & ->)].
  { assert (host_at h i = None) as Hn' by (unfold host_at in *; by rewrite Eh in Hn).
    destruct (copy_saved_ok _ _ _ _ Hok Hn' Hc) as [Hok1 Hct].
    split_and!; try done; [intros j _; unfold host_at; by rewrite Eh|].
    intros P Hw j k a inst s. unfold host_at. rewrite Eh, Ei, Enet. apply Hw. }
  unfold host_at in Ha. rewrite Eh in Ha. change (host_at h i = Some a) in Ha. rewrite Ei in Hinst. simpl.
  destruct (so_current _ _ Hok i a Ha) as (inst' & Hinst' & Hme & Hsv & Hrow). rewrite Hinst in Hinst'. injection Hinst' as <-.
  unfold copy_saved, saved_at in *. apply outcome_bind_Ret in Hc as (p & Hp & Hc). rewrite slice_get_Ret in Hp. rewrite Hp in Hsv.
  simpl in Hsv. subst p. apply outcome_bind_Ret in Hc as (ps & Hps & Hc). rewrite slice_get_Ret in Hps.
  pose proof (retire_ok _ _ _ _ _ Hok Hi (λ _, Hsrv) Hdis Hc) as Hok1.
  destruct (new_saved_content _ _ _ _ _ Hok Hc) as (Hci & Hcj). pose proof (so_host _ _ Hok).
  assert (∀ j, (zlookup (<[Z.to_nat i := None]> (host h1)) j ≫= id) = if decide (j = i) then None else host_at h j) as Hh.
  { intros j. unfold host_at. rewrite Eh. case_decide as Hj; [subst j; by rewrite zlookup_insert_eq by lia|]. by rewrite zlookup_insert_ne by lia. }
  split_and!; try done; simpl.
  - assert (zlookup (instances (h1 <| host := <[Z.to_nat i := None]> (host h1) |>)) a = Some inst) as Hi1 by (simpl; by rewrite Ei).
    exact (state_ok _ _ _ _ (host_kill (in_state inst)) Hok1 Hi1).
  - unfold host_at. simpl. by rewrite Hh, decide_True.
  - intros j. change (content h1 j = content h j). destruct (decide (j = i)) as [->|]; [|by apply Hcj].
    rewrite Hci. unfold content, saved_at. rewrite Hp. simpl. rewrite Hps. by destruct ps.
  - intros j Hj. unfold host_at. simpl. rewrite Hh. by rewrite decide_False.
  - intros P Hw j k b inst' s. unfold host_at. simpl. rewrite Hh, Ei, Enet. case_decide; [done|].
    intros Hb Hb' Hs. destruct (instances_update _ _ _ _ _ _ Hinst Hb') as (i0 & Hb0 & _ & E2 & _).
    apply (Hw j k b i0 s); [done|done|by rewrite <-E2].
Qed.

(** *** A step of any server *)
Lemma server_step_ok X a k ps h h' :
  slots_ok X h → server_step a k ps h = Ret h' →
  slots_ok X h' ∧ (∀ P, wired h P → wired h' P) ∧
  (∀ inst, zlookup (instances h) a = Some inst → ¬ running h a inst → ∀ i, content h' i = content h i).
Proof.
  intros Hok (inst & Ha & Hs)%outcome_bind_Ret. apply outcome_bind_Ret in Hs as (insts & [_ ->]%slice_set_Ret & Hs).
  apply outcome_bind_Ret in Hs as (pers & [Hp ->]%slice_set_Ret & [= <-]). rewrite slice_get_Ret in Ha.
  pose proof (state_ok _ _ _ _ k Hok Ha) as Hok1. split_and!.
  - destruct Hok1. split; simpl in *; rewrite ?len_insert; done.
  - intros P Hw i j b inst' s Hb Hb' Hs. destruct (instances_update _ _ _ _ _ _ Ha Hb') as (i0 & Hb0 & _ & E2 & _).
    apply (Hw i j b i0 s); [done|done|by rewrite <-E2].
  - intros inst' Ha' Hnr i. rewrite Ha in Ha'. injection Ha' as <-. unfold content, saved_at. simpl.
    destruct (zlookup (saved h) i ≫= id) as [p|] eqn:Hsv; [|done]. simpl. rewrite zlookup_insert_ne; [done|lia|]. intros ->.
    pose proof (so_pers _ _ Hok i a inst Hsv Ha) as Hr. destruct (so_current _ _ Hok i a Hr) as (? & Hi & <- & _).
    rewrite Ha in Hi. injection Hi as <-. done.
Qed.

(** *** Starting a server *)

Record ends_made (names : Z → string) (target : Z → NetName) (l : list Z) (rn rn' : Network (Name := NetName)) : Prop := {
  em_fresh j : j ∈ l → ends rn !! NStr (names j) = None;
  em_inj j j' : j ∈ l → j' ∈ l → names j = names j' → j = j';
  em_new j : j ∈ l → is_Some (ends rn' !! NStr (names j)) ∧ connections rn' !! NStr (names j) = Some (Some (target j)) ∧
    is_enabled rn' (NStr (names j)) = false;
  em_other s : (∀ j, j ∈ l → s ≠ names j) → ends rn' !! NStr s = ends rn !! NStr s ∧
    connections rn' !! NStr s = connections rn !! NStr s ∧ is_enabled rn' (NStr s) = is_enabled rn (NStr s);
  em_servers : servers rn' = servers rn;
}.

Lemma make_ends_spec names target l rn rn' :
  NoDup l → make_ends names target l rn = Ret rn' → ends_made names target l rn rn'.
Proof.
  revert rn. induction l as [|j l IH]; intros rn Hnd Hm.
  { injection Hm as <-. split; set_solver. }
  apply NoDup_cons in Hnd as [Hj Hnd]. unfold make_ends in Hm. simpl in Hm.
  apply outcome_bind_Ret in Hm as (rn1 & Hrn1 & Hm). change (make_ends names target l rn1 = Ret rn') in Hm.
  apply IH in Hm as []; [|done]. clear IH. apply outcome_bind_Ret in Hrn1 as (rn0 & Hrn0 & [= <-]).
  unfold MakeEnd in Hrn0. destruct (ends rn !! NStr (names j)) eqn:Hfresh; [done|]. injection Hrn0 as <-. simpl in *.
  assert (∀ j', j' ∈ l → names j' ≠ names j) as Hne.
  { intros j' Hj' Heq. apply em_fresh0 in Hj'. rewrite Heq, lookup_insert_eq in Hj'. done. }
  split.
  - intros j' [->|Hj']%elem_of_cons; [done|]. apply em_fresh0 in Hj' as Hf. rewrite lookup_insert_ne in Hf; [done|].
    intros [= Heq]. by eapply Hne.
  - intros j1 j2 [->|H1]%elem_of_cons [->|H2]%elem_of_cons; [done| | |by apply em_inj0]; intros Heq; [symmetry in Heq|]; by eapply Hne in Heq.
  - intros j' [->|Hj']%elem_of_cons; [|by apply em_new0].
    destruct (em_other0 (names j)) as (-> & -> & ->); [naive_solver|]. unfold is_enabled. simpl. rewrite !lookup_insert_eq. split_and!; eauto.
  - intros s Hs. assert (s ≠ names j) by (apply Hs; by left).
    destruct (em_other0 s) as (-> & -> & ->); [intros j' Hj'; apply Hs; by right|]. unfold is_enabled. simpl.
    by rewrite !lookup_insert_ne by congruence.
  - done.
Qed.

Lemma zlookup_names (names : Z → string) m j s : zlookup (names <$> zrange m) j = Some s ↔ 0 ≤ j < m ∧ s = names j.
Proof.
  rewrite zlookup_Some, list_lookup_fmap. unfold zrange. rewrite list_lookup_fmap. split.
  - intros [Hj0 Hj]. destruct (seq 0 (Z.to_nat m) !! Z.to_nat j) as [x|] eqn:Hx; [|done].
    apply lookup_seq in Hx as [-> Hx]. simpl in Hj. injection Hj as <-. split; [lia|]. f_equal. lia.
  - intros [Hj ->]. rewrite lookup_seq_lt by lia. simpl. split; [lia|]. do 2 f_equal. lia.
Qed.

(** The new row of slot [i]: names that no server has. *)
Record new_row X h (i : Z) (names : Z → string) : Prop := {
  nr_row : zlookup (endnames h) i = Some (Some (names <$> zrange (cfg_n h)));
  nr_inj j j' : 0 ≤ j < cfg_n h → 0 ≤ j' < cfg_n h → names j = names j' → j = j';
  nr_new j : 0 ≤ j < cfg_n h → is_Some (ends (cfg_net h) !! NStr (names j)) ∧
    connections (cfg_net h) !! NStr (names j) = Some (Some (NInt j)) ∧ is_enabled (cfg_net h) (NStr (names j)) = false ∧ names j ∉ X;
  nr_inst j a inst j' : 0 ≤ j < cfg_n h → zlookup (instances h) a = Some inst → zlookup (in_ends inst) j' ≠ Some (names j);
  nr_rows j i' row j' : 0 ≤ j < cfg_n h → i' ≠ i → zlookup (endnames h) i' = Some (Some row) → zlookup row j' ≠ Some (names j);
}.

(** The names of clerks are names of ends. *)
Definition others_made X h : Prop := ∀ s, s ∈ X → is_Some (ends (cfg_net h) !! NStr s).

Lemma fresh_ends_ok X i names h h' :
  slots_ok X h → others_made X h → host_at h i = None → fresh_ends i names h = Ret h' →
  slots_ok X h' ∧ others_made X h' ∧ new_row X h' i names ∧ cfg_n h' = cfg_n h ∧ host h' = host h ∧ saved h' = saved h ∧
  instances h' = instances h ∧ persisters h' = persisters h ∧ servers (cfg_net h') = servers (cfg_net h) ∧
  (∀ P, wired h P → wired h' P).
Proof.
  intros Hok HX Hi (rows & [Hb ->]%slice_set_Ret & Hf)%outcome_bind_Ret. simpl in Hf.
  apply outcome_bind_Ret in Hf as (rn & Hm & [= <-]). apply make_ends_spec in Hm as []; [|apply NoDup_zrange].
  setoid_rewrite elem_of_zrange in em_fresh0. setoid_rewrite elem_of_zrange in em_inj0.
  setoid_rewrite elem_of_zrange in em_new0. setoid_rewrite elem_of_zrange in em_other0.
  assert (∀ s, is_Some (ends (cfg_net h) !! NStr s) → ∀ j, 0 ≤ j < cfg_n h → s ≠ names j) as Hne.
  { intros s [u Hs] j Hj ->. by rewrite em_fresh0 in Hs. }
  assert (∀ s, is_Some (ends (cfg_net h) !! NStr s) → ends rn !! NStr s = ends (cfg_net h) !! NStr s ∧
    connections rn !! NStr s = connections (cfg_net h) !! NStr s ∧ is_enabled rn (NStr s) = is_enabled (cfg_net h) (NStr s)) as Hold.
  { intros s Hs. apply em_other0. intros. by eapply Hne. }
  pose proof Hok as [].
  assert (∀ a inst j s, zlookup (instances h) a = Some inst → zlookup (in_ends inst) j = Some s → is_Some (ends (cfg_net h) !! NStr s)) as Hmade.
  { intros a inst j s Ha Hs. by eapply so_ends0. }
  assert (∀ i' row, i' ≠ i → zlookup (<[Z.to_nat i := Some (names <$> zrange (cfg_n h))]> (endnames h)) i' = Some (Some row) →
    zlookup (endnames h) i' = Some (Some row)) as Hother by (intros i' row Hne'; by rewrite zlookup_insert_ne by lia).
  split_and!; try done.
  - split; simpl; try done.
    + by rewrite len_insert.
    + intros a inst j s Ha Hs. destruct (Hold s) as (-> & -> & _); [by eapply Hmade|]. by eapply so_ends0.
    + intros i' row j s Hi' Hs. destruct (decide (i' = i)) as [->|Hn].
      * rewrite zlookup_insert_eq in Hi' by done. injection Hi' as <-. apply zlookup_names in Hs as [Hj ->]. split; [by apply em_new0|].
        intros a inst j' Ha Hs. by eapply Hmade, Hne in Hs.
      * apply Hother in Hi'; [|done]. destruct (so_row0 i' row j s Hi' Hs) as [Hm Hu]. destruct (Hold s Hm) as (-> & _). done.
    + intros i' a Ha. destruct (so_current0 i' a Ha) as (inst & ? & ? & ? & ?). exists inst. split_and!; try done.
      rewrite zlookup_insert_ne; [done|lia|]. intros ->. unfold host_at in *. simpl in *. congruence.
    + intros a inst j s Ha Hnr Hs. destruct (Hold s) as (_ & _ & ->); [by eapply Hmade|]. by eapply so_old0.
    + intros s Hs. apply so_enabled0. destruct (decide (s ∈ names <$> zrange (cfg_n h))) as [Hin|Hin].
      * apply list_elem_of_fmap in Hin as (j & -> & Hj%elem_of_zrange). by destruct (em_new0 j Hj) as (_ & _ & ?); congruence.
      * destruct (em_other0 s) as (_ & _ & <-); [|done]. intros j Hj ->. apply Hin. apply list_elem_of_fmap_2. by apply elem_of_zrange.
    + intros j a. unfold server_at. rewrite em_servers0. apply so_server0.
  - intros s Hs. simpl. destruct (Hold s) as (-> & _); by apply HX.
  - split; simpl; try done.
    + by apply zlookup_insert_eq.
    + intros j Hj. destruct (em_new0 j Hj) as (? & ? & ?). split_and!; try done. intros Hin%HX. by eapply Hne.
    + intros j a inst j' Hj Ha Hs. by eapply Hmade, Hne in Hs.
    + intros j i' row j' Hj Hn Hi' Hs. apply Hother in Hi'; [|done]. destruct (so_row0 i' row j' _ Hi' Hs) as [Hm _]. by eapply Hne.
  - intros P Hw i' j a inst s Ha Hinst Hs. simpl. destruct (Hold s) as (_ & _ & ->); [by eapply Hmade|]. by apply (Hw i' j a inst s).
Qed.

Lemma zlookup_snoc {A} (l : list A) x a y :
  zlookup (l ++ [x]) a = Some y → zlookup l a = Some y ∨ (a = len l ∧ y = x).
Proof.
  intros Ha. pose proof (zlookup_bounds _ _ _ Ha) as Hab. rewrite len_app in Hab. unfold len at 2 in Hab. simpl in Hab.
  destruct (decide (a < len l)); [left; by rewrite zlookup_app_l in Ha by lia|right].
  assert (a = len l) as -> by lia. rewrite zlookup_app_r, Z.sub_diag in Ha by lia. by injection Ha as <-.
Qed.

(** A server was added, runs in slot [i] and answers there. *)
Definition launched i inst h : harness K :=
  h <| instances := instances h ++ [inst] |> <| host := <[Z.to_nat i := Some (len (instances h))]> (host h) |>
    <| cfg_net := AddServer (cfg_net h) (NInt i) (len (instances h)) |>.

Lemma launched_host i inst h j :
  0 ≤ i < len (host h) → host_at (launched i inst h) j = if decide (j = i) then Some (len (instances h)) else host_at h j.
Proof. intros Hi. unfold host_at. simpl. case_decide; [subst j; by rewrite zlookup_insert_eq by lia|]. by rewrite zlookup_insert_ne by lia. Qed.

Lemma launched_old i inst h a inst' : zlookup (instances h) a = Some inst' → zlookup (instances (launched i inst h)) a = Some inst'.
Proof. intros Ha. simpl. rewrite zlookup_app_l; [done|]. apply zlookup_bounds in Ha. lia. Qed.

Lemma launched_new i inst h : zlookup (instances (launched i inst h)) (len (instances h)) = Some inst.
Proof. simpl. by rewrite zlookup_app_r, Z.sub_diag by lia. Qed.

Lemma launched_ok X i names p k h :
  slots_ok X h → host_at h i = None → new_row X h i names → saved_at h i = Some p → 0 ≤ i < cfg_n h →
  slots_ok X (launched i (mkInstance i (names <$> zrange (cfg_n h)) p k) h).
Proof.
  intros Hok Hi [Hrow Hinj Hnew Hinst Hrows] Hsv Hb. pose proof Hok as [].
  set (inst0 := mkInstance i (names <$> zrange (cfg_n h)) p k).
  pose proof (len_nonneg (instances h)) as H0. pose proof (λ a inst, zlookup_snoc (instances h) inst0 a inst) as Hcases.
  pose proof (launched_old i inst0 h) as Hold. pose proof (launched_new i inst0 h) as Hnew0.
  assert (0 ≤ i < len (host h)) as Hih by lia. pose proof (λ j, launched_host i inst0 h j Hih) as Hh.
  split; simpl; try done.
  - by rewrite len_insert.
  - intros a inst [Ha|[-> ->]]%Hcases; [by eapply so_inst0|]. simpl. split_and!; [lia..|by eapply so_pers_range0|by eapply so_pers_range0|].
    unfold len. rewrite length_fmap, length_zrange. pose proof (len_nonneg (host h)). lia.
  - intros a inst j s [Ha|[-> ->]]%Hcases; [by eapply so_ends0|]. intros [Hj ->]%zlookup_names.
    destruct (Hnew j Hj) as (? & ? & ? & ?). by split_and!.
  - intros a inst b inst' j j' s [Ha|[-> ->]]%Hcases [Hb'|[-> ->]]%Hcases.
    + by eapply so_names0.
    + intros Hs [Hj ->]%zlookup_names. by eapply Hinst in Hs.
    + intros [Hj ->]%zlookup_names Hs. by eapply Hinst in Hs.
    + intros [Hj ->]%zlookup_names [Hj' Heq]%zlookup_names. split; [done|]. by apply Hinj.
  - intros i' row j s Hi' Hs. destruct (so_row0 i' row j s Hi' Hs) as [Hm Hu]. split; [done|].
    intros a inst j' [Ha|[-> ->]]%Hcases; [by eapply Hu|]. intros [Hj' ->]%zlookup_names. simpl.
    destruct (decide (i' = i)) as [->|Hn]; [|by eapply Hrows in Hs]. split; [done|]. rewrite Hrow in Hi'. injection Hi' as <-.
    apply zlookup_names in Hs as [Hj Heq]. symmetry. by apply Hinj.
  - intros j a. rewrite Hh. case_decide; [intros [= <-]; subst; by exists inst0|].
    intros (inst & ? & ? & ? & ?)%so_current0. exists inst. split_and!; try done. by apply Hold.
  - intros a inst j s [Ha|[-> ->]]%Hcases; unfold running; rewrite Hh.
    + intros Hnr. apply (so_old0 a inst j s Ha). unfold running. destruct (decide (in_me inst = i)) as [->|]; [by rewrite Hi|done].
    + intros []. by rewrite decide_True.
  - intros s [?|(a & inst & j & Ha & Hs)]%so_enabled0; [by left|right]. exists a, inst, j. split; [by apply Hold|done].
  - intros j a inst Hj [Ha|[-> ->]]%Hcases; rewrite Hh.
    + pose proof (so_pers0 j a inst Hj Ha). case_decide; [subst; congruence|done].
    + rewrite decide_True; [done|]. by eapply so_pers_inj0.
  - intros j a. unfold server_at. simpl. rewrite Hh. case_decide as Hj; [subst; by rewrite lookup_insert_eq|].
    rewrite lookup_insert_ne by congruence. apply so_server0.
Qed.

Lemma launch_ok X i names env h h' :
  slots_ok X h → host_at h i = None → new_row X h i names → launch i names env h = Ret h' →
  slots_ok X h' ∧ cfg_n h' = cfg_n h ∧ saved h' = saved h ∧ persisters h' = persisters h ∧ endnames h' = endnames h ∧
  ends (cfg_net h') = ends (cfg_net h) ∧
  (∀ j, j ≠ i → server_at (cfg_net h') (NInt j) = server_at (cfg_net h) (NInt j)) ∧
  (∃ a p ps, content h i = Some ps ∧ host_at h' i = Some a ∧ server_at (cfg_net h') (NInt i) = Some a ∧
     zlookup (instances h') a = Some (mkInstance i (names <$> zrange (cfg_n h)) p (host_start (cfg_n h) i env ps))) ∧
  (∀ j, j ≠ i → host_at h' j = host_at h j) ∧
  (∀ P, wired h P → wired h' (λ i' j, if decide (i' = i) then false else P i' j)).
Proof.
  intros Hok Hi Hrow (p & Hp & Hl)%outcome_bind_Ret. rewrite slice_get_Ret in Hp. destruct p as [p|]; [|done].
  apply outcome_bind_Ret in Hl as (ps & Hps & Hl). rewrite slice_get_Ret in Hps.
  apply outcome_bind_Ret in Hl as (hs & [Hb ->]%slice_set_Ret & [= <-]).
  set (inst0 := mkInstance i (names <$> zrange (cfg_n h)) p (host_start (cfg_n h) i env ps)).
  assert (saved_at h i = Some p) as Hsv by (unfold saved_at; by rewrite Hp).
  pose proof (λ j, launched_host i inst0 h j Hb) as Hh. pose proof (launched_new i inst0 h) as Hnew0.
  split_and!; try done.
  - apply launched_ok; try done. by rewrite (so_host _ _ Hok) in Hb.
  - intros j Hj. unfold server_at. simpl. by rewrite lookup_insert_ne by congruence.
  - exists (len (instances h)), p, ps. split_and!; [unfold content; by rewrite Hsv| | |done].
    + by rewrite Hh, decide_True.
    + unfold server_at. simpl. by rewrite lookup_insert_eq.
  - intros j Hj. by rewrite Hh, decide_False.
  - intros P Hw i' j a inst s. rewrite Hh. case_decide.
    + intros [= <-]. intros Hn. injection (eq_trans (eq_sym Hn) Hnew0) as ->. intros [Hj ->]%zlookup_names. by apply (nr_new _ _ _ _ Hrow).
    + intros Ha Ha' Hs. apply (Hw i' j a inst s); [done| |done]. destruct (so_current _ _ Hok i' a Ha) as (inst' & Hi' & _).
      pose proof (eq_trans (eq_sym Ha') (launched_old i inst0 h _ _ Hi')) as [= ->]. done.
Qed.

Lemma make_slots_ok m : 0 ≤ m → slots_ok ∅ (make_slots m).
Proof.
  intros Hm. assert (∀ i (p : Z), (zlookup (replicate (Z.to_nat m) (None (A := Z))) i ≫= id) = Some p → False) as Hn.
  { intros i p. destruct (zlookup _ i) as [x|] eqn:Hx; [|done]. apply zlookup_Some in Hx as [_ Hx].
    by apply lookup_replicate in Hx as [-> _]. }
  assert (∀ A, len (replicate (Z.to_nat m) (None (A := A))) = m) as Hl by (intros; unfold len; rewrite length_replicate; lia).
  assert (∀ a (inst : Instance_ K), zlookup [] a ≠ Some inst) as Hnil by (intros a inst [? Hl0%Z.lt_nge]%zlookup_bounds; done).
  split; simpl; try done; try (intros; by edestruct Hnil); try (intros; by edestruct Hn).
  intros i row j s [_ Hrow]%zlookup_Some. by apply lookup_replicate in Hrow as [? _].
Qed.

(** A loop with a test for nil rows: as if the rows that are nil were not there. *)
Definition set_ends_if (yes : bool) (l : list (Z * (Z * Z))) h : outcome (harness K) :=
  ofold (λ h '(k, (i, j)), set_end_if yes k i j h) h l.

Definition row_at (rows : list (option (list string))) (k : Z) : bool :=
  match zlookup rows k with Some (Some _) => true | _ => false end.

Lemma set_ends_if_filter yes l rows h :
  endnames h = rows → (∀ k ij, (k, ij) ∈ l → 0 ≤ k < len rows) →
  set_ends_if yes l h = set_ends yes (filter (λ x, row_at rows x.1 = true) l).*2 h.
Proof.
  revert h. induction l as [|[k [i j]] l IH]; intros h Hr Hl; [done|].
  assert (∀ k ij, (k, ij) ∈ l → 0 ≤ k < len rows) as Hl0 by (intros k' ij Hin; apply (Hl k' ij); by right).
  assert (is_Some (zlookup rows k)) as [x Hx] by (apply zlookup_is_Some, (Hl k (i, j)); by left).
  change (set_end_if yes k i j h ≫= set_ends_if yes l = set_ends yes (filter (λ x, row_at rows x.1 = true) ((k, (i, j)) :: l)).*2 h).
  assert (set_end_if yes k i j h = match x with Some _ => set_end yes i j h | None => Ret h end) as ->
    by (unfold set_end_if, slice_get; by rewrite Hr, Hx).
  rewrite filter_cons. cbn [fst]. assert (row_at rows k = match x with Some _ => true | None => false end) as Hk by (unfold row_at; by rewrite Hx).
  rewrite Hk. destruct x as [row|]; [|by apply IH].
  change (set_end yes i j h ≫= set_ends_if yes l = set_end yes i j h ≫= set_ends yes (filter (λ x, row_at rows x.1 = true) l).*2).
  destruct (set_end yes i j h) as [h1|] eqn:Hh1; [|done]. apply IH; [|done]. by rewrite (ss_endnames _ _ (set_end_same _ _ _ _ _ Hh1)).
Qed.

(** A running server has its row. *)
Lemma running_row X h i : slots_ok X h → is_Some (host_at h i) → row_at (endnames h) i = true.
Proof. intros Hok [a Ha]. destruct (so_current _ _ Hok i a Ha) as (inst & _ & _ & _ & Hrow). unfold row_at. by rewrite Hrow. Qed.

Lemma wired_frame h h' P :
  host h' = host h → instances h' = instances h → enabled (cfg_net h') = enabled (cfg_net h) → wired h P → wired h' P.
Proof.
  intros Eh Ei En Hw i j a inst s. unfold host_at, is_enabled. rewrite Eh, Ei, En. apply Hw.
Qed.

Lemma new_row_frame X h h' i names :
  cfg_n h' = cfg_n h → endnames h' = endnames h → instances h' = instances h → cfg_net h' = cfg_net h →
  new_row X h i names → new_row X h' i names.
Proof. intros En Ee Ei Enet []. split; rewrite ?En, ?Ee, ?Ei, ?Enet; done. Qed.

(** The persister a server starts with: a copy of what was saved, or an empty one. *)
Lemma restore_ok X i h h' :
  slots_ok X h → host_at h i = None →
  (p ← slice_get (saved h) i; match p with Some _ => copy_saved i h | None => new_saved i MakePersister h end) = Ret h' →
  slots_ok X h' ∧ content h' i = Some (default MakePersister (content h i)) ∧ (∀ j, j ≠ i → content h' j = content h j) ∧
  cfg_n h' = cfg_n h ∧ host h' = host h ∧ endnames h' = endnames h ∧ instances h' = instances h ∧ cfg_net h' = cfg_net h.
Proof.
  intros Hok Hi (p & Hp & Hc)%outcome_bind_Ret. rewrite slice_get_Ret in Hp. destruct p as [p|].
  - destruct (copy_saved_ok _ _ _ _ Hok Hi Hc) as [Hok' Hct]. destruct (copy_saved_frame _ _ _ Hc) as (? & ? & ? & ? & ?).
    split_and!; try done. rewrite Hct. assert (saved_at h i = Some p) as Hs by (unfold saved_at; by rewrite Hp).
    unfold content. rewrite Hs. simpl. pose proof (so_pers_range _ _ Hok i p Hs) as [ps ->]%zlookup_is_Some. done.
  - destruct (new_saved_content _ _ _ _ _ Hok Hc) as [Hci Hcj]. pose proof (new_saved_ok _ _ _ _ _ Hok Hi Hc).
    apply new_saved_Ret in Hc as [_ Heq]. split_and!; try (by subst h'). rewrite Hci. unfold content, saved_at. by rewrite Hp.
Qed.

(** Every slot has its server. *)
Definition all_running h : Prop := ∀ i, 0 ≤ i < cfg_n h → is_Some (host_at h i).

Lemma all_running_same h h' : same_slots h h' → all_running h → all_running h'.
Proof. intros [] Hr i. unfold host_at. rewrite ss_n0, ss_host0. apply Hr. Qed.

Lemma all_running_row X h i : slots_ok X h → all_running h → 0 ≤ i < cfg_n h →
  ∃ row, zlookup (endnames h) i = Some (Some row) ∧ len row = cfg_n h ∧ ∀ j s, zlookup row j = Some s → s ∉ X.
Proof.
  intros Hok Hr Hi. destruct (Hr i Hi) as [a Ha]. destruct (so_current _ _ Hok i a Ha) as (inst & Hinst & _ & _ & Hrow).
  exists (in_ends inst). split_and!; [done|by eapply so_inst|]. intros j s Hs. by eapply so_ends.
Qed.

(** While all servers run, ends are enabled and disabled as the pairs say; the other
    ends, those of clerks, stay as they are. *)
Lemma set_ends_running X P yes l h :
  slots_ok X h → all_running h → wired h P → (∀ i j, (i, j) ∈ l → 0 ≤ i < cfg_n h ∧ 0 ≤ j < cfg_n h) →
  ∃ h', set_ends yes l h = Ret h' ∧ slots_ok X h' ∧ same_slots h h' ∧
    wired h' (λ i j, if decide ((i, j) ∈ l) then yes else P i j) ∧
    (∀ s, s ∈ X → is_enabled (cfg_net h') (NStr s) = is_enabled (cfg_net h) (NStr s)).
Proof.
  intros Hok Hr Hw Hl. destruct (set_ends_total yes l h) as [h' Hh'].
  { intros i j [Hi Hj]%Hl. destruct (all_running_row X h i Hok Hr Hi) as (row & Hrow & Hlen & _). exists row. split; [done|lia]. }
  exists h'. destruct (set_ends_spec X P yes l h h' Hok Hw) as (Hok' & Hs & Hw'); [|done|].
  { intros _ i j [Hi _]%Hl. by apply Hr. }
  split_and!; try done. clear P Hw Hw' Hok'. intros s Hs'.
  assert (∀ i j row t, (i, j) ∈ l → zlookup (endnames h) i = Some (Some row) → zlookup row j = Some t → t ≠ s) as Hne.
  { intros i j row t [Hi _]%Hl Hrow Ht ->. destruct (all_running_row X h i Hok Hr Hi) as (row' & Hrow' & _ & Hx).
    rewrite Hrow in Hrow'. injection Hrow' as <-. by eapply Hx. }
  clear Hl Hok Hr Hs Hs'. revert h Hh' Hne. induction l as [|[i j] l IH]; intros h Hh' Hne; [by injection Hh' as <-|].
  apply outcome_bind_Ret in Hh' as (h1 & (row & t & Hrow & Ht & ->)%set_end_Ret & Hh').
  rewrite (IH _ Hh'); simpl.
  - rewrite is_enabled_Enable, decide_False; [done|]. intros [= ->]. eapply Hne; [by left|done|done|done].
  - intros i' j' row' t' Hin. apply Hne. by right.
Qed.

(** The ends of a clerk join the others. *)
Lemma clerk_ends_ok X names target l h rn :
  NoDup l → slots_ok X h → others_made X h → make_ends names target l (cfg_net h) = Ret rn →
  slots_ok (X ∪ list_to_set (names <$> l)) (h <| cfg_net := rn |>) ∧
  others_made (X ∪ list_to_set (names <$> l)) (h <| cfg_net := rn |>).
Proof.
  intros Hnd Hok HX Hm. apply make_ends_spec in Hm as []; [|done]. pose proof Hok as [].
  assert (∀ s, is_Some (ends (cfg_net h) !! NStr s) → ends rn !! NStr s = ends (cfg_net h) !! NStr s ∧
    connections rn !! NStr s = connections (cfg_net h) !! NStr s ∧ is_enabled rn (NStr s) = is_enabled (cfg_net h) (NStr s)) as Hold.
  { intros s [u Hs]. apply em_other0. intros j Hj ->. by rewrite em_fresh0 in Hs. }
  split; [split|]; simpl; try done.
  - intros a inst j s Ha Hs. destruct (so_ends0 a inst j s Ha Hs) as ([u Hm] & Hc & HnX).
    destruct (Hold s) as (-> & -> & _); [by eexists|]. split_and!; [by eexists|done|].
    intros [?|Hin%elem_of_list_to_set]%elem_of_union; [done|]. apply list_elem_of_fmap in Hin as (j' & -> & Hj').
    by rewrite em_fresh0 in Hm.
  - intros i row j s Hrow Hs. destruct (so_row0 i row j s Hrow Hs) as [Hm Hu]. by destruct (Hold s Hm) as (-> & _).
  - intros a inst j s Ha Hnr Hs. destruct (so_ends0 a inst j s Ha Hs) as (Hm & _). destruct (Hold s Hm) as (_ & _ & ->).
    by eapply so_old0.
  - intros s Hs. destruct (decide (s ∈ names <$> l)) as [Hin|Hin]; [left; by apply elem_of_union_r, elem_of_list_to_set|].
    destruct (em_other0 s) as (_ & _ & He); [intros j Hj ->; by apply Hin, list_elem_of_fmap_2|]. rewrite He in Hs.
    destruct (so_enabled0 s Hs); [left; set_solver|by right].
  - intros i a. unfold server_at. rewrite em_servers0. apply so_server0.
  - intros s [Hs%HX|Hin%elem_of_list_to_set]%elem_of_union; simpl; [by destruct (Hold s Hs) as (-> & _)|].
    apply list_elem_of_fmap in Hin as (j & -> & Hj). by apply em_new0.
Qed.

Lemma wired_linked X h P i j :
  slots_ok X h → wired h P → is_Some (host_at h i) → 0 ≤ j < cfg_n h → linked h i j = P i j.
Proof.
  intros Hok Hw [a Ha] Hj. destruct (so_current _ _ Hok i a Ha) as (inst & Hinst & _ & _ & Hrow).
  destruct (so_inst _ _ Hok a inst Hinst) as (_ & _ & Hlen). rewrite <-Hlen in Hj. apply zlookup_is_Some in Hj as [s Hs].
  unfold linked, end_name. rewrite Hrow. simpl. rewrite Hs. by eapply Hw.
Qed.

Lemma linked_wired X h : slots_ok X h → wired h (linked h).
Proof.
  intros Hok i j a inst s Ha Hinst Hs. destruct (so_current _ _ Hok i a Ha) as (inst' & Hinst' & _ & _ & Hrow).
  rewrite Hinst in Hinst'. injection Hinst' as <-. unfold linked, end_name. rewrite Hrow. simpl. by rewrite Hs.
Qed.
End invariant.
