(* ===== verification/RaftHarness.v ===== *)
(** * raft: the test harness

    The rest of [src/src/raft/config.go]: servers are started, crashed, connected and
    disconnected over the simulated network of [LabRpc], with the slots of [Harness] and
    the checks of [RaftTester].  A server that was crashed goes on running; what the
    harness does to it makes up for that.

    [cfg.mu] is not modelled: the tests call these functions from one goroutine, and the
    goroutines of the servers, which run at any time, meet them only in the network and
    in the persisters.  [t.Failed()] is false, as a failed check ends the test. *)
From Stdlib Require Import Init.Byte.
From stdpp Require Import pretty.
From S2P Require Import Prelude LabGob LabRpc Raft RaftVote RaftAppend RaftSnapshot RaftNode.
From S2P Require Import RaftFrames RaftSystem RaftElection RaftLog RaftSteps RaftSafety RaftService RaftTester Harness.

Section raft_harness.
Context {C : Type} `{EqDecision C} {tgob : Gob (TestGob C)} {rgob : Gob (RaftGob C)}.

(** [Make], with what [rand.Intn] and [time.Now] returned. *)
#[global] Instance raft_hosted : Hosted (Raft C) (Z * Z) := {|
  host_start := λ n me env ps, Make n me ps env.1 env.2;
  host_kill := Kill;
  host_state := GetState;
|}.

Record raft_config := mkRaftConfig {
  hs : harness (Raft C);
  connected : list bool;
  tester : RaftTester.config (C := C);
  finished : bool;
  start : Z;
  rpcs0 : Z;
  cmds0 : Z;
  bytes0 : Z;
  maxIndex0 : Z;
}.

Definition eta_raft_config (cfg : raft_config) : raft_config :=
  mkRaftConfig (hs cfg) (connected cfg) (tester cfg) (finished cfg) (start cfg) (rpcs0 cfg) (cmds0 cfg) (bytes0 cfg) (maxIndex0 cfg).

#[global] Instance set_hs : Setter hs := λ f x, ltac:(solve_setter eta_raft_config hs f x).
#[global] Instance set_connected : Setter connected := λ f x, ltac:(solve_setter eta_raft_config connected f x).
#[global] Instance set_tester : Setter tester := λ f x, ltac:(solve_setter eta_raft_config tester f x).
#[global] Instance set_finished : Setter finished := λ f x, ltac:(solve_setter eta_raft_config finished f x).
#[global] Instance set_rpcs0 : Setter rpcs0 := λ f x, ltac:(solve_setter eta_raft_config rpcs0 f x).
#[global] Instance set_cmds0 : Setter cmds0 := λ f x, ltac:(solve_setter eta_raft_config cmds0 f x).
#[global] Instance set_bytes0 : Setter bytes0 := λ f x, ltac:(solve_setter eta_raft_config bytes0 f x).
#[global] Instance set_maxIndex0 : Setter maxIndex0 := λ f x, ltac:(solve_setter eta_raft_config maxIndex0 f x).

Definition on_net (f : Network (Name := NetName) → Network (Name := NetName)) (cfg : raft_config) : raft_config :=
  cfg <| hs := hs cfg <| cfg_net := f (cfg_net (hs cfg)) |> |>.

(** ** Connections *)

Definition connect (i : Z) (cfg : raft_config) : outcome raft_config :=
  connected' ← slice_set (connected cfg) i true;
  let cfg := cfg <| connected := connected' |> in
  h ← ofold (λ h j, c ← slice_get (connected cfg) j; if (c : bool) then set_end true i j h else Ret h)
        (hs cfg) (zrange (cfg_n (hs cfg)));
  h ← ofold (λ h j, c ← slice_get (connected cfg) j; if (c : bool) then set_end true j i h else Ret h)
        h (zrange (cfg_n (hs cfg)));
  Ret (cfg <| hs := h |>).

Definition disconnect (i : Z) (cfg : raft_config) : outcome raft_config :=
  connected' ← slice_set (connected cfg) i false;
  let cfg := cfg <| connected := connected' |> in
  h ← ofold (λ h j, set_end_if false i i j h) (hs cfg) (zrange (cfg_n (hs cfg)));
  h ← ofold (λ h j, set_end_if false j j i h) h (zrange (cfg_n (hs cfg)));
  Ret (cfg <| hs := h |>).

(** ** Crashing and starting servers *)

(** The end of [crash1]: a persister of its own for what was saved. *)
Definition renew_saved (i : Z) (h : harness (Raft C)) : outcome (harness (Raft C)) :=
  p ← slice_get (saved h) i;
  match p with
  | Some p =>
      ps ← slice_get (persisters h) p;
      let raftlog := ReadRaftState ps in
      let snapshot := ReadSnapshot ps in
      new_saved i (Save (mkPersister [] []) raftlog snapshot) h
  | None => Ret h
  end.

Definition crash1 (i : Z) (cfg : raft_config) : outcome raft_config :=
  cfg ← disconnect i cfg;
  let cfg := on_net (λ rn, DeleteServer rn (NInt i)) cfg in
  h ← copy_saved i (hs cfg);
  h ← kill_host i h;
  h ← renew_saved i h;
  Ret (cfg <| hs := h |>).

Definition start1 (i : Z) (names : Z → string) (env : Z * Z) (cfg : raft_config) : outcome raft_config :=
  cfg ← crash1 i cfg;
  h ← fresh_ends i names (hs cfg);
  p ← slice_get (saved h) i;
  h ← match p with
      | Some _ => copy_saved i h
      | None => new_saved i MakePersister h
      end;
  tester' ← start1_logs (tester cfg) i
    match p, content h i with Some _, Some ps => ReadSnapshot ps | _, _ => [] end;
  h ← launch i names env h;
  Ret (cfg <| hs := h |> <| tester := tester' |>).

(** ** Setting up and cleaning up *)

Definition setunreliable (unrel : bool) : raft_config → raft_config := on_net (λ rn, Reliable rn (negb unrel)).
Definition setlongreordering (longrel : bool) : raft_config → raft_config := on_net (λ rn, LongReordering rn longrel).

Definition empty_config (n now : Z) : raft_config :=
  mkRaftConfig (make_slots n) (replicate (Z.to_nat n) false) (RaftTester.make_config n) false now 0 0 0 0.

Definition make_config (n : Z) (unreliable : bool) (now : Z) (names : Z → Z → string) (envs : Z → Z * Z) :
    outcome raft_config :=
  let cfg := setunreliable unreliable (empty_config n now) in
  let cfg := on_net (λ rn, LongDelays rn true) cfg in
  cfg ← ofold (λ cfg i, start1 i (names i) (envs i) cfg) cfg (zrange n);
  ofold (λ cfg i, connect i cfg) cfg (zrange n).

Definition Second : Z := 1000 * Millisecond.

(** [failed] is [cfg.t.Failed()]. *)
Definition checkTimeout (failed : bool) (now : Z) (cfg : raft_config) : outcome unit :=
  if negb failed && (now - start cfg >? 120 * Second) then Panic else Ret tt.

Definition checkFinished (cfg : raft_config) : bool := finished cfg.

Definition cleanup (failed : bool) (now : Z) (cfg : raft_config) : outcome raft_config :=
  let cfg := cfg <| finished := true |> in
  h ← kill_all (E := Z * Z) (hs cfg);
  rn ← Cleanup (cfg_net h);
  let cfg := cfg <| hs := h <| cfg_net := rn |> |> in
  _ ← checkTimeout failed now cfg;
  Ret cfg.

(** ** Counters *)

(** [srvs] are the servers of the network, by their pointers. *)
Definition rpcCount {V O} (srvs : gmap Z (Server (V := V) (O := O))) (server : Z) (cfg : raft_config) : outcome Z :=
  GetCount (cfg_net (hs cfg)) srvs (NInt server).
Definition rpcTotal (cfg : raft_config) : Z := GetTotalCount (cfg_net (hs cfg)).
Definition bytesTotal (cfg : raft_config) : Z := GetTotalBytes (cfg_net (hs cfg)).

Definition begin (cfg : raft_config) : raft_config :=
  cfg <| rpcs0 := rpcTotal cfg |> <| bytes0 := bytesTotal cfg |> <| cmds0 := 0 |> <| maxIndex0 := maxIndex (tester cfg) |>.

(** What [end] prints: peers, calls, bytes, agreements. *)
Definition end_ (failed : bool) (now : Z) (cfg : raft_config) : outcome (option (Z * Z * Z * Z)) :=
  _ ← checkTimeout failed now cfg;
  Ret (if failed then None
       else Some (cfg_n (hs cfg), rpcTotal cfg - rpcs0 cfg, bytesTotal cfg - bytes0 cfg, maxIndex (tester cfg) - maxIndex0 cfg)).

(** A nil persister is dereferenced. *)
Definition LogSize (cfg : raft_config) : outcome Z :=
  ofold (λ logsize i,
    p ← slice_get (saved (hs cfg)) i;
    match p with
    | Some p => ps ← slice_get (persisters (hs cfg)) p;
                let n := RaftStateSize ps in Ret (if n >? logsize then n else logsize)
    | None => Panic
    end) 0 (zrange (cfg_n (hs cfg))).

(** ** Checks on the state of the servers *)

(** [cfg.rafts[i].GetState()] *)
Definition GetState_of (i : Z) (h : harness (Raft C)) : outcome (Z * bool) :=
  a ← slice_get (host h) i;
  match a with
  | Some a => inst ← slice_get (instances h) a; Ret (GetState (in_state inst))
  | None => Panic
  end.

(** [cfg.rafts[i].Start(cmd)], where [cfg.rafts[i]] is [Some a]. *)
Definition Start_of (a now : Z) (cmd : option C) (h : harness (Raft C)) : outcome (harness (Raft C) * (Z * Z * bool)) :=
  inst ← slice_get (instances h) a;
  '(rf, r) ← Start now (in_state inst) cmd;
  h ← server_step a rf (persister rf) h;
  Ret (h, r).

Section checks.
(** The harness looks at servers that run meanwhile: [others t] is what all other
    goroutines do before its look number [t]. *)
Context (others : Z → raft_config → raft_config).

Definition World : Type := Z * raft_config.
Definition look (w : World) : World := (w.1 + 1, others w.1 w.2).

(** [if cfg.connected[i] { ... cfg.rafts[i].GetState() ... }] *)
Definition GetState_if (i : Z) (w : World) : outcome (World * option (Z * bool)) :=
  let w := look w in
  c ← slice_get (connected w.2) i;
  if (c : bool) then r ← GetState_of i (hs w.2); Ret (w, Some r) else Ret (w, None).

(** [checkOneLeader], the first loop of an iteration. *)
Definition poll_leaders (w : World) : outcome (World * list (Z * (Z * bool))) :=
  ofold (λ '(w, seen) i,
    '(w, r) ← GetState_if i w;
    Ret (w, seen ++ match r with Some r => [(i, r)] | None => [] end)) (w, []) (zrange (cfg_n (hs w.2))).

Fixpoint checkOneLeader_loop {ranges : MapRange} (more : nat) (w : World) : outcome (World * Z) :=
  match more with
  | O => Panic
  | S more =>
      '(w, seen) ← poll_leaders w;
      r ← checkOneLeader seen;
      match r with
      | Some i => Ret (w, i)
      | None => checkOneLeader_loop more w
      end
  end.

Definition checkOneLeader {ranges : MapRange} : World → outcome (World * Z) := checkOneLeader_loop 10.

Definition checkTerms (w : World) : outcome (World * Z) :=
  ofold (λ '(w, term) i,
    '(w, r) ← GetState_if i w;
    match r with
    | Some (xterm, _) =>
        if term =? -1 then Ret (w, xterm) else if negb (term =? xterm) then Panic else Ret (w, term)
    | None => Ret (w, term)
    end) (w, -1) (zrange (cfg_n (hs w.2))).

Definition checkNoLeader (w : World) : outcome World :=
  ofold (λ w i,
    '(w, r) ← GetState_if i w;
    match r with
    | Some (_, true) => Panic
    | _ => Ret w
    end) w (zrange (cfg_n (hs w.2))).

(** ** Waiting for agreement *)

(** [for _, r := range cfg.rafts]: whether a server is in a later term; a nil one is
    dereferenced. *)
Definition moved_on (startTerm : Z) (w : World) : outcome (World * bool) :=
  ofold (λ '(w, moved) i,
    if (moved : bool) then Ret (w, true)
    else let w := look w in
         '(t, _) ← GetState_of i (hs w.2);
         Ret (w, t >? startTerm)) (w, false) (zrange (len (host (hs w.2)))).

(** [wait], its loop; false when some server has moved on. *)
Fixpoint wait_loop (more : nat) (index n startTerm : Z) (w : World) : outcome (World * bool) :=
  match more with
  | O => Ret (w, true)
  | S more =>
      let w := look w in
      '(nd, _) ← nCommitted (tester w.2) index;
      if nd >=? n then Ret (w, true)
      else
        '(w, moved) ← if startTerm >? -1 then moved_on startTerm w else Ret (w, false);
        if (moved : bool) then Ret (w, false) else wait_loop more index n startTerm w
  end.

(** The result [None] is -1. *)
Definition wait (index n startTerm : Z) (w : World) : outcome (World * option (option C)) :=
  '(w, here) ← wait_loop 30 index n startTerm w;
  if (here : bool) then
    let w := look w in
    '(nd, cmd) ← nCommitted (tester w.2) index;
    if nd <? n then Panic else Ret (w, Some cmd)
  else Ret (w, None).

(** [one], the loop over the servers; [clock t] is the time at look [t]. *)
Context (clock : Z → Z).

Fixpoint submit (more : nat) (starts : Z) (cmd : option C) (w : World) : outcome (World * Z * Z) :=
  match more with
  | O => Ret (w, starts, -1)
  | S more =>
      let starts := Z.rem (starts + 1) (cfg_n (hs w.2)) in
      let w := look w in
      c ← slice_get (connected w.2) starts;
      rf ← if (c : bool) then slice_get (host (hs w.2)) starts else Ret None;
      match rf with
      | Some a =>
          '(h, (index1, _, ok)) ← Start_of a (clock w.1) cmd (hs w.2);
          let w := (w.1, w.2 <| hs := h |>) in
          if (ok : bool) then Ret (w, starts, index1) else submit more starts cmd w
      | None => submit more starts cmd w
      end
  end.

(** The loop that waits two seconds for agreement: [polls] is how often it goes round. *)
Fixpoint agreement (polls : nat) (cmd : option C) (expectedServers index : Z) (w : World) : outcome (World * bool) :=
  match polls with
  | O => Ret (w, false)
  | S polls =>
      let w := look w in
      '(nd, cmd1) ← nCommitted (tester w.2) index;
      if (nd >? 0) && (nd >=? expectedServers) && bool_decide (cmd1 = cmd) then Ret (w, true)
      else agreement polls cmd expectedServers index w
  end.

(** [rounds] has an element for each time the main loop goes round in its ten seconds:
    how often the inner loop does. *)
Fixpoint one_loop (rounds : list nat) (starts : Z) (cmd : option C) (expectedServers : Z) (retry : bool) (w : World) :
    outcome (World * Z) :=
  let w := look w in
  match rounds with
  | [] => if checkFinished w.2 then Ret (w, -1) else Panic
  | polls :: rounds =>
      if checkFinished w.2 then Ret (w, -1)
      else
        '(w, starts, index) ← submit (Z.to_nat (cfg_n (hs w.2))) starts cmd w;
        if negb (index =? -1) then
          '(w, agreed) ← agreement polls cmd expectedServers index w;
          if (agreed : bool) then Ret (w, index)
          else if negb retry then Panic
          else one_loop rounds starts cmd expectedServers retry w
        else one_loop rounds starts cmd expectedServers retry w
  end.

Definition one (rounds : list nat) (cmd : option C) (expectedServers : Z) (retry : bool) (w : World) : outcome (World * Z) :=
  one_loop rounds 0 cmd expectedServers retry w.

(** *** What [wait] and [one] have seen *)

(** [nCommitted] counts the servers that have applied the entry, which all hold [cmd]. *)
Lemma nCommitted_counts (t : RaftTester.config (C := C)) index nd cmd :
  nCommitted t index = Ret (nd, cmd) →
  nd = len (filter (λ l, is_Some (l !! index)) (logs t)) ∧ ∀ l c, l ∈ logs t → l !! index = Some c → c = cmd.
Proof.
  intros Hn. eapply (ofold_prefix (λ seen '(count, cmd), count = len (filter (λ l, is_Some (l !! index)) seen) ∧
    ∀ l c, l ∈ seen → l !! index = Some c → c = cmd)) in Hn; [done|split; [done|by intros ?? ?%elem_of_nil]|].
  intros seen l [count c0] [count' c1] _ [-> Hseen] Hl. rewrite filter_app, len_app. cbn [filter list_filter].
  destruct (l !! index) as [c|] eqn:Hc.
  - rewrite decide_True by (by eexists). destruct ((_ >? 0) && _) eqn:Hguard; [done|]. injection Hl as <- <-. split; [done|].
    intros l' c' [Hin|Heq%list_elem_of_singleton]%elem_of_app Hc'; [|subst; congruence]. pose proof (Hseen l' c' Hin Hc') as ->.
    apply andb_false_iff in Hguard as [Hz|Hz]; [|by apply negb_false_iff, bool_decide_eq_true in Hz].
    assert (l' ∈ filter (λ l, is_Some (l !! index)) seen) as Hf by (apply list_elem_of_filter; split; [by rewrite Hc'|done]).
    destruct (filter _ seen) as [|x y]; [by apply elem_of_nil in Hf|]. rewrite len_cons in Hz. pose proof (len_nonneg y). exfalso. lia.
  - rewrite decide_False by (by intros []). injection Hl as <- <-. split; [by rewrite Z.add_0_r|].
    intros l' c' [Hin|Heq%list_elem_of_singleton]%elem_of_app Hc'; [by eapply Hseen|subst; congruence].
Qed.

(** At least [k] servers have applied the entry at [index], and it is [cmd] on all that
    have. *)
Definition agreed_on (k index : Z) (cmd : option C) (cfg : raft_config) : Prop :=
  k ≤ len (filter (λ l, is_Some (l !! index)) (logs (tester cfg))) ∧
  ∀ l c, l ∈ logs (tester cfg) → l !! index = Some c → c = cmd.

(** A command that [wait] returns is the one that at least [n] servers have applied. *)
Lemma wait_agrees index n startTerm w w' cmd :
  wait index n startTerm w = Ret (w', Some cmd) → agreed_on n index cmd w'.2.
Proof.
  intros ([w1 here] & _ & Hw)%outcome_bind_Ret. destruct here; [|done]. apply outcome_bind_Ret in Hw as ([nd cmd'] & Hn & Hw).
  destruct (Z.ltb_spec nd n); [done|]. injection Hw as <- <-. apply nCommitted_counts in Hn as [-> Hc]. done.
Qed.

Lemma agreement_agrees polls cmd expectedServers index w w' :
  agreement polls cmd expectedServers index w = Ret (w', true) → agreed_on expectedServers index cmd w'.2.
Proof.
  revert w. induction polls as [|polls IH]; intros w; [done|]. intros ([nd cmd1] & Hn & Ha)%outcome_bind_Ret.
  destruct ((nd >? 0) && (nd >=? expectedServers) && bool_decide (cmd1 = cmd)) eqn:Hg; [|by eapply IH].
  injection Ha as <-. apply andb_true_iff in Hg as [[_ Hge]%andb_true_iff ->%bool_decide_eq_true].
  apply nCommitted_counts in Hn as [-> Hc]. split; [lia|done].
Qed.

(** When [one] returns an index, the servers asked for have applied the command there. *)
Lemma one_agrees rounds cmd expectedServers retry w w' index :
  one rounds cmd expectedServers retry w = Ret (w', index) → index ≠ -1 → agreed_on expectedServers index cmd w'.2.
Proof.
  unfold one. generalize 0. revert w. induction rounds as [|polls rounds IH]; intros w starts; cbn [one_loop].
  { destruct (checkFinished _); [by intros [= <- <-] []|done]. }
  destruct (checkFinished _); [by intros [= <- <-] []|]. intros ([[w1 starts1] index1] & _ & Ho)%outcome_bind_Ret Hne.
  destruct (index1 =? -1); cbn [negb] in Ho; [by eapply IH|]. apply outcome_bind_Ret in Ho as ([w2 agreed] & Ha & Ho).
  destruct agreed; [injection Ho as <- <-; by eapply agreement_agrees|]. destruct retry; cbn [negb] in Ho; [by eapply IH|done].
Qed.

End checks.

(** ** The harness with its servers *)

(** The calls of the tests, and the steps of the goroutines of all servers made so far.
    A server is connected only while it runs. *)
Inductive HarnessEvent :=
| HStart (i : Z) (names : Z → string) (env : Z * Z)
| HCrash (i : Z)
| HConnect (i : Z)
| HDisconnect (i : Z)
| HServer (a : Z) (rf : Raft C) (ps : Persister).

Definition harness_exec (e : HarnessEvent) (cfg : raft_config) : outcome raft_config :=
  match e with
  | HStart i names env => start1 i names env cfg
  | HCrash i => crash1 i cfg
  | HConnect i => if decide (is_Some (host_at (hs cfg) i)) then connect i cfg else Panic
  | HDisconnect i => disconnect i cfg
  | HServer a rf ps => h ← server_step a rf ps (hs cfg); Ret (cfg <| hs := h |>)
  end.

Definition harness_reachable (n : Z) (cfg : raft_config) : Prop :=
  ∃ unreliable now names envs cfg0 es,
    make_config n unreliable now names envs = Ret cfg0 ∧ ofold (λ cfg e, harness_exec e cfg) cfg0 es = Ret cfg.

(** *** The connections of the running servers *)

Implicit Types (cfg : raft_config) (h : harness (Raft C)).

Definition connected_at cfg (i : Z) : bool := default false (zlookup (connected cfg) i).

Record harness_ok cfg : Prop := {
  ho_slots : slots_ok ∅ (hs cfg);
  ho_connected : len (connected cfg) = cfg_n (hs cfg);
  ho_running i : connected_at cfg i = true → is_Some (host_at (hs cfg) i);
  ho_wired : wired (hs cfg) (λ i j, connected_at cfg i && connected_at cfg j);
  ho_server i a : host_at (hs cfg) i = Some a → server_at (cfg_net (hs cfg)) (NInt i) = Some a;
}.

(** The ends that [connect] visits. *)
Lemma connect_Ret i cfg cfg' :
  len (connected cfg) = cfg_n (hs cfg) → connect i cfg = Ret cfg' →
  0 ≤ i < cfg_n (hs cfg) ∧ ∃ h1 h2,
    let cs := <[Z.to_nat i := true]> (connected cfg) in
    let l := filter (λ j, zlookup cs j = Some true) (zrange (cfg_n (hs cfg))) in
    set_ends true ((λ j, (i, j)) <$> l) (hs cfg) = Ret h1 ∧ set_ends true ((λ j, (j, i)) <$> l) h1 = Ret h2 ∧
    cfg' = cfg <| connected := cs |> <| hs := h2 |>.
Proof.
  intros Hlen (cs & [Hi ->]%slice_set_Ret & Hc)%outcome_bind_Ret. rewrite Hlen in Hi. split; [done|]. simpl in Hc.
  set (cs := <[Z.to_nat i := true]> (connected cfg)) in *.
  assert (∀ (g : Z → harness (Raft C) → outcome (harness (Raft C))) h j, j ∈ zrange (cfg_n (hs cfg)) →
    (c ← slice_get cs j; if (c : bool) then g j h else Ret h) = if decide (zlookup cs j = Some true) then g j h else Ret h) as Hg.
  { intros g h j Hj%elem_of_zrange. assert (is_Some (zlookup cs j)) as [c Hcj].
    { apply zlookup_is_Some. unfold cs. rewrite len_insert. lia. }
    unfold slice_get. rewrite Hcj. by destruct c. }
  apply outcome_bind_Ret in Hc as (h1 & H1 & (h2 & H2 & [= <-])%outcome_bind_Ret). exists h1, h2. split_and!; [| |done].
  - rewrite <-H1. unfold set_ends. rewrite ofold_fmap. symmetry. apply ofold_filter. intros h j. apply (Hg (λ j, set_end true i j)).
  - rewrite <-H2. unfold set_ends. rewrite ofold_fmap. symmetry. apply ofold_filter. intros h j. apply (Hg (λ j, set_end true j i)).
Qed.

Lemma connected_at_insert cfg (i : Z) b (h : harness (Raft C)) j :
  0 ≤ i < len (connected cfg) →
  connected_at (cfg <| connected := <[Z.to_nat i := b]> (connected cfg) |> <| hs := h |>) j =
  if decide (j = i) then b else connected_at cfg j.
Proof.
  intros Hi. unfold connected_at. simpl. case_decide; [subst; by rewrite zlookup_insert_eq|]. by rewrite zlookup_insert_ne by lia.
Qed.

Lemma connect_ok i cfg cfg' :
  harness_ok cfg → is_Some (host_at (hs cfg) i) → connect i cfg = Ret cfg' → harness_ok cfg' ∧ same_slots (hs cfg) (hs cfg').
Proof.
  intros [Hok Hlen Hrun Hw Hsrv] Hhost (Hi & h1 & h2 & H1 & H2 & ->)%connect_Ret; [|done]. rewrite <-Hlen in Hi.
  set (cs := <[Z.to_nat i := true]> (connected cfg)) in *. set (l := filter _ _) in *.
  assert (∀ j, j ∈ l ↔ 0 ≤ j < cfg_n (hs cfg) ∧ (j = i ∨ connected_at cfg j = true)) as Hl.
  { intros j. unfold l. rewrite list_elem_of_filter, elem_of_zrange.
    assert (zlookup cs j = Some true ↔ 0 ≤ j < cfg_n (hs cfg) ∧ (j = i ∨ connected_at cfg j = true)) as ->; [|naive_solver].
    unfold cs, connected_at. destruct (decide (j = i)) as [->|]; [rewrite zlookup_insert_eq by done; split; [lia|done]|].
    rewrite zlookup_insert_ne by lia. split.
    - intros Hj. rewrite Hj. split; [|by right]. rewrite <-Hlen. by eapply zlookup_bounds.
    - intros [Hj [?|Hj']]; [done|]. rewrite <-Hlen in Hj. apply zlookup_is_Some in Hj as [b Hb]. rewrite Hb in *. by simpl in Hj'; subst. }
  edestruct (set_ends_spec ∅ _ true ((λ j, (i, j)) <$> l) _ h1 Hok Hw) as (Hok1 & Hs1 & Hw1); [|done|].
  { intros _ i' j' (j & [= -> ->] & Hj)%list_elem_of_fmap. done. }
  assert (∀ j, host_at h1 j = host_at (hs cfg) j) as Hh1 by (intros j; unfold host_at; by rewrite (ss_host _ _ Hs1)).
  edestruct (set_ends_spec ∅ _ true ((λ j, (j, i)) <$> l) _ h2 Hok1 Hw1) as (Hok2 & Hs2 & Hw2); [|done|].
  { intros _ i' j' (j & [= -> ->] & [_ [->|Hj]]%Hl)%list_elem_of_fmap; rewrite Hh1; [done|by apply Hrun]. }
  assert (same_slots (hs cfg) h2) as Hs by by etrans.
  split; [|done]. split.
  - done.
  - simpl. unfold cs. rewrite len_insert. by rewrite (ss_n _ _ Hs).
  - intros j. unfold cs. rewrite connected_at_insert by done. unfold host_at. simpl. rewrite (ss_host _ _ Hs).
    case_decide; [by subst|by apply Hrun].
  - eapply wired_ext_running; [done| |exact Hw2]. intros i' j' _ Hi' Hj'. simpl in *. rewrite (ss_n _ _ Hs) in Hi', Hj'.
    unfold cs. rewrite !connected_at_insert by done.
    assert ((i', j') ∈ (λ j, (i, j)) <$> l ↔ i' = i ∧ (j' = i ∨ connected_at cfg j' = true)) as E1.
    { rewrite list_elem_of_fmap. split; [intros (j & [= -> ->] & [_ ?]%Hl); done|]. intros [-> ?]. exists j'. split; [done|]. by apply Hl. }
    assert ((i', j') ∈ (λ j, (j, i)) <$> l ↔ j' = i ∧ (i' = i ∨ connected_at cfg i' = true)) as E2.
    { rewrite list_elem_of_fmap. split; [intros (j & [= -> ->] & [_ ?]%Hl); done|]. intros [-> ?]. exists i'. split; [done|]. by apply Hl. }
    destruct (decide ((i', j') ∈ (λ j, (j, i)) <$> l)) as [[-> Hin]%E2|Hn2].
    { destruct Hin as [->|Hc]; rewrite ?Hc; by repeat case_decide. }
    destruct (decide ((i', j') ∈ (λ j, (i, j)) <$> l)) as [[-> Hin]%E1|Hn1].
    { destruct Hin as [->|Hc]; rewrite ?Hc; by repeat case_decide. }
    rewrite E1 in Hn1. rewrite E2 in Hn2. destruct (connected_at cfg i'), (connected_at cfg j'); repeat case_decide; naive_solver.
  - intros j a. unfold host_at, server_at. simpl. rewrite (ss_host _ _ Hs), (ss_servers _ _ Hs). apply Hsrv.
Qed.

(** The ends that [disconnect] visits. *)
Lemma disconnect_ok i cfg cfg' :
  harness_ok cfg → disconnect i cfg = Ret cfg' →
  harness_ok cfg' ∧ same_slots (hs cfg) (hs cfg') ∧ 0 ≤ i < cfg_n (hs cfg) ∧ tester cfg' = tester cfg ∧
  (∀ j, connected_at cfg' j = if decide (j = i) then false else connected_at cfg j).
Proof.
  intros [Hok Hlen Hrun Hw Hsrv] (cs & [Hi ->]%slice_set_Ret & Hc)%outcome_bind_Ret. simpl in Hc.
  apply outcome_bind_Ret in Hc as (h1 & H1 & (h2 & H2 & [= <-])%outcome_bind_Ret).
  set (N := zrange (cfg_n (hs cfg))) in *. pose proof (so_rows _ _ Hok) as Hrows.
  assert (set_ends_if false ((λ j, (i, (i, j))) <$> N) (hs cfg) = Ret h1) as H1' by (unfold set_ends_if; by rewrite ofold_fmap).
  assert (set_ends_if false ((λ j, (j, (j, i))) <$> N) h1 = Ret h2) as H2' by (unfold set_ends_if; by rewrite ofold_fmap).
  rewrite (set_ends_if_filter _ _ (endnames (hs cfg))) in H1'; [|done|].
  2: { intros k ij (j & [= -> ->] & Hj)%list_elem_of_fmap. lia. }
  destruct (set_ends_spec ∅ _ false _ _ _ Hok Hw (λ H, match diff_false_true H with end) H1') as (Hok1 & Hs1 & Hw1).
  rewrite (set_ends_if_filter _ _ (endnames (hs cfg))) in H2'; [|by apply ss_endnames|].
  2: { intros k ij (j & [= -> ->] & Hj%elem_of_zrange)%list_elem_of_fmap. lia. }
  destruct (set_ends_spec ∅ _ false _ _ _ Hok1 Hw1 (λ H, match diff_false_true H with end) H2') as (Hok2 & Hs2 & Hw2).
  assert (same_slots (hs cfg) h2) as Hs by by etrans.
  pose proof (λ j, connected_at_insert cfg i false h2 j Hi) as Hcon.
  split_and!; try done; [|lia..]. split.
  - done.
  - simpl. rewrite len_insert. by rewrite (ss_n _ _ Hs).
  - intros j. rewrite Hcon. unfold host_at. simpl. rewrite (ss_host _ _ Hs). case_decide; [done|by apply Hrun].
  - eapply wired_ext_running; [done| |exact Hw2]. intros i' j' Hhost Hi' Hj'. simpl in *. rewrite (ss_n _ _ Hs) in Hi', Hj'.
    rewrite !Hcon. assert (row_at (endnames (hs cfg)) i' = true) as Hr.
    { rewrite <-(ss_endnames _ _ Hs). by eapply running_row. }
    destruct (decide (i' = i)) as [->|Hn1].
    { destruct (decide _); [done|]. rewrite decide_True; [done|]. apply list_elem_of_fmap. exists (i, (i, j')). split; [done|].
      apply list_elem_of_filter. split; [done|]. apply list_elem_of_fmap. exists j'. split; [done|]. by apply elem_of_zrange. }
    destruct (decide (j' = i)) as [->|Hn2].
    { rewrite andb_false_r. rewrite decide_True; [done|]. apply list_elem_of_fmap. exists (i', (i', i)). split; [done|].
      apply list_elem_of_filter. split; [done|]. apply list_elem_of_fmap. exists i'. split; [done|]. by apply elem_of_zrange. }
    rewrite !decide_False; [done| |].
    + intros ([k [a b]] & [= -> ->] & [_ (j & [= -> -> ->] & _)%list_elem_of_fmap]%list_elem_of_filter)%list_elem_of_fmap. done.
    + intros ([k [a b]] & [= -> ->] & [_ (j & [= -> -> ->] & _)%list_elem_of_fmap]%list_elem_of_filter)%list_elem_of_fmap. done.
  - intros j a. unfold host_at, server_at. simpl. rewrite (ss_host _ _ Hs), (ss_servers _ _ Hs). apply Hsrv.
Qed.

Lemma renew_saved_ok i h h' :
  slots_ok ∅ h → host_at h i = None → renew_saved i h = Ret h' →
  slots_ok ∅ h' ∧ (∀ j, content h' j = content h j) ∧ cfg_n h' = cfg_n h ∧ host h' = host h ∧ instances h' = instances h ∧
  cfg_net h' = cfg_net h.
Proof.
  intros Hok Hi (p & Hp & Hc)%outcome_bind_Ret. rewrite slice_get_Ret in Hp. destruct p as [p|]; [|by injection Hc as <-].
  apply outcome_bind_Ret in Hc as (ps & Hps & Hc). rewrite slice_get_Ret in Hps.
  destruct (new_saved_content _ _ _ _ _ Hok Hc) as (Hci & Hcj). pose proof (new_saved_ok _ _ _ _ _ Hok Hi Hc) as Hok'.
  apply new_saved_Ret in Hc as [_ Heq]. split_and!; try (by subst h'). intros j.
  destruct (decide (j = i)) as [->|]; [|by apply Hcj]. rewrite Hci. unfold content, saved_at. rewrite Hp. simpl. rewrite Hps. by destruct ps.
Qed.

(** A crash keeps what was saved. *)
Lemma crash1_ok i cfg cfg' :
  harness_ok cfg → crash1 i cfg = Ret cfg' →
  harness_ok cfg' ∧ 0 ≤ i < cfg_n (hs cfg) ∧ cfg_n (hs cfg') = cfg_n (hs cfg) ∧ host_at (hs cfg') i = None ∧
  connected_at cfg' i = false ∧ (∀ j, content (hs cfg') j = content (hs cfg) j) ∧ tester cfg' = tester cfg ∧
  (∀ j, j ≠ i → host_at (hs cfg') j = host_at (hs cfg) j).
Proof.
  intros Hok (cfg1 & Hd & Hc)%outcome_bind_Ret. destruct (disconnect_ok _ _ _ Hok Hd) as (Hok1 & Hs & Hi & Ht & Hcon).
  pose proof Hok1 as [Hslots Hlen Hrun Hw Hsrv]. simpl in Hc.
  apply outcome_bind_Ret in Hc as (h1 & H1 & (h2 & H2 & (h3 & H3 & [= <-])%outcome_bind_Ret)%outcome_bind_Ret).
  destruct (take_down_ok _ _ _ _ _ (DeleteServer_ok _ _ i Hslots) (eq_ind_r (λ n, 0 ≤ i < n) Hi (ss_n _ _ Hs))
    ltac:(simpl; unfold server_at; simpl; by rewrite lookup_insert_eq)
    ltac:(intros a inst j s Ha Hinst Hsj; etrans; [exact (Hw i j a inst s Ha Hinst Hsj)|]; rewrite Hcon; by rewrite decide_True) H1 H2)
    as (Hok2 & Hh2 & Hn2 & Hnet2 & Hc2 & Ho2 & Hw2 & _).
  destruct (renew_saved_ok _ _ _ Hok2 Hh2 H3) as (Hok3 & Hc3 & Hn3 & Hh3 & Hi3 & Hnet3).
  assert (∀ j, connected_at (on_net (λ rn, DeleteServer rn (NInt i)) cfg1 <| hs := h3 |>) j = connected_at cfg1 j) as Hcon' by done.
  split_and!; simpl; try done.
  - split; simpl; [done|rewrite Hn3, Hn2; done| | |].
    + intros j. rewrite Hcon'. intros Hj. unfold host_at. rewrite Hh3. change (is_Some (host_at h2 j)).
      rewrite Ho2; [by apply Hrun|]. intros ->. rewrite Hcon, decide_True in Hj by done. done.
    + eapply wired_frame; [done|done|by rewrite Hnet3|]. apply Hw2. exact Hw.
    + intros j a. unfold host_at. rewrite Hh3, Hnet3, Hnet2. change (host_at h2 j = Some a → server_at (DeleteServer (cfg_net (hs cfg1)) (NInt i)) (NInt j) = Some a).
      destruct (decide (j = i)) as [->|Hji]; [by rewrite Hh2|]. rewrite Ho2 by done. unfold server_at. simpl.
      rewrite lookup_insert_ne by congruence. apply Hsrv.
  - lia.
  - lia.
  - rewrite Hn3, Hn2. apply (ss_n _ _ Hs).
  - unfold host_at. by rewrite Hh3.
  - rewrite Hcon', Hcon. by rewrite decide_True.
  - intros j. rewrite Hc3, Hc2. unfold content, saved_at. simpl. by rewrite (ss_saved _ _ Hs), (ss_persisters _ _ Hs).
  - intros j Hj. unfold host_at. rewrite Hh3. change (host_at h2 j = host_at (hs cfg) j). rewrite Ho2 by done.
    unfold host_at. simpl. by rewrite (ss_host _ _ Hs).
Qed.

(** A started server gets what the one before it had saved, and is not connected. *)
Lemma start1_spec i names env cfg cfg' :
  harness_ok cfg → start1 i names env cfg = Ret cfg' →
  harness_ok cfg' ∧ cfg_n (hs cfg') = cfg_n (hs cfg) ∧ connected_at cfg' i = false ∧
  (∀ j, j ≠ i → host_at (hs cfg') j = host_at (hs cfg) j) ∧
  (∃ a p, host_at (hs cfg') i = Some a ∧ zlookup (instances (hs cfg')) a = Some (mkInstance i (names <$> zrange (cfg_n (hs cfg))) p
     (Make (cfg_n (hs cfg)) i (default MakePersister (content (hs cfg) i)) env.1 env.2))).
Proof.
  intros Hok (cfg1 & Hc & Hs)%outcome_bind_Ret. destruct (crash1_ok _ _ _ Hok Hc) as (Hok1 & Hi & Hn & Hh & Hd & Hct & Ht & Hot).
  destruct Hok1 as [Hslots Hlen Hrun Hw Hsrv]. apply outcome_bind_Ret in Hs as (h1 & H1 & Hs).
  destruct (fresh_ends_ok _ _ _ _ _ Hslots ltac:(intros ? []%elem_of_empty) Hh H1)
    as (Hok2 & _ & Hrow & Hn1 & Eh1 & Es1 & Ei1 & Ep1 & Esv1 & Hw1).
  apply outcome_bind_Ret in Hs as (p & Hp & Hs). apply outcome_bind_Ret in Hs as (h2 & H2 & Hs).
  assert (host_at h1 i = None) as Hh1 by (unfold host_at; by rewrite Eh1).
  destruct (restore_ok ∅ i h1 h2 Hok2 Hh1) as (Hok3 & Hci & Hcj & En2 & Eh2 & Ee2 & Ei2 & Enet2).
  { apply outcome_bind_Ret. by exists p. }
  apply outcome_bind_Ret in Hs as (tst & _ & (h3 & H3 & [= <-])%outcome_bind_Ret).
  apply launch_ok with (X := ∅) in H3 as (Hok4 & En3 & _ & _ & _ & _ & Hsv3 & (a & q & ps & Hps & Ha & Hsa & Hinst) & Hho & Hw3);
    [|done|unfold host_at; by rewrite Eh2|by eapply new_row_frame].
  rewrite Hci in Hps. injection Hps as <-.
  assert (content h1 i = content (hs cfg) i) as Hc1 by (rewrite <-Hct; unfold content, saved_at; by rewrite Es1, Ep1).
  split_and!; simpl.
  - split; simpl; [done|congruence| | |].
    + intros j Hj. rewrite Hho; [unfold host_at; rewrite Eh2, Eh1; by apply Hrun|]. intros ->.
      change (connected_at cfg1 i = true) in Hj. congruence.
    + eapply wired_ext; [|apply Hw3; eapply wired_frame; [done|done|by rewrite Enet2|by apply Hw1]].
      intros i' j'. simpl. case_decide; [|done]. subst. change (false = connected_at cfg1 i && connected_at cfg1 j'). by rewrite Hd.
    + intros j b Hj. destruct (decide (j = i)) as [->|Hji]; [congruence|]. rewrite Hho in Hj by done.
      unfold host_at in Hj. rewrite Eh2, Eh1 in Hj. rewrite Hsv3 by done. unfold server_at. rewrite Enet2, Esv1. by apply Hsrv.
  - congruence.
  - done.
  - intros j Hj. rewrite Hho, <-Hot by done. unfold host_at. by rewrite Eh2, Eh1.
  - exists a, q. rewrite Ha, Hinst, En2, Hn1, Hn, Hc1. done.
Qed.

Lemma empty_config_ok m now : 0 ≤ m → harness_ok (empty_config m now).
Proof.
  intros Hm. assert (∀ i, connected_at (empty_config m now) i = false) as Hc.
  { intros i. unfold connected_at. simpl. destruct (zlookup _ i) as [b|] eqn:Hb; [|done]. apply zlookup_Some in Hb as [_ Hb].
    by apply lookup_replicate in Hb as [-> _]. }
  split; [by apply make_slots_ok| | | |].
  - simpl. unfold len. rewrite length_replicate. lia.
  - intros i. by rewrite Hc.
  - intros i j a inst s Ha. unfold host_at in Ha. simpl in Ha. destruct (zlookup _ i) as [x|] eqn:Hx; [|done].
    apply zlookup_Some in Hx as [_ Hx]. apply lookup_replicate in Hx as [-> _]. done.
  - intros i a Ha. unfold host_at in Ha. simpl in Ha. destruct (zlookup _ i) as [x|] eqn:Hx; [|done].
    apply zlookup_Some in Hx as [_ Hx]. apply lookup_replicate in Hx as [-> _]. done.
Qed.

(** The switches of the network do not matter. *)
Lemma on_net_ok f cfg :
  (∀ rn, enabled (f rn) = enabled rn ∧ ends (f rn) = ends rn ∧ connections (f rn) = connections rn ∧ servers (f rn) = servers rn) →
  harness_ok cfg → harness_ok (on_net f cfg).
Proof.
  intros Hf [[] Hlen Hrun Hw Hsrv]. destruct (Hf (cfg_net (hs cfg))) as (E1 & E2 & E3 & E4). split; simpl; try done.
  - split; simpl; try done; unfold is_enabled, server_at; rewrite ?E1, ?E2, ?E3, ?E4; done.
  - eapply wired_frame; [..|exact Hw]; done.
  - unfold server_at. by rewrite E4.
Qed.

(** Every call and every step of a server keeps the invariant. *)
Lemma harness_exec_ok e cfg cfg' :
  harness_ok cfg → harness_exec e cfg = Ret cfg' → harness_ok cfg' ∧ cfg_n (hs cfg') = cfg_n (hs cfg).
Proof.
  intros Hok He. destruct e as [i names env|i|i|i|a rf ps]; simpl in He.
  - by destruct (start1_spec _ _ _ _ _ Hok He) as (? & ? & _).
  - by destruct (crash1_ok _ _ _ Hok He) as (? & _ & ? & _).
  - case_decide; [|done]. destruct (connect_ok _ _ _ Hok H He) as [? Hs]. split; [done|by apply ss_n].
  - destruct (disconnect_ok _ _ _ Hok He) as (? & Hs & _). split; [done|by apply ss_n].
  - apply outcome_bind_Ret in He as (h & Hh & [= <-]). destruct Hok as [Hslots Hlen Hrun Hw Hsrv].
    destruct (server_step_ok _ _ _ _ _ _ Hslots Hh) as (Hok' & Hw' & _).
    apply outcome_bind_Ret in Hh as (inst & Ha & Hs). apply outcome_bind_Ret in Hs as (insts & Hi & (pers & Hp & [= <-])%outcome_bind_Ret).
    split; [|done]. split; simpl; try done. by apply Hw'.
Qed.

Lemma make_config_ok m unreliable now names envs cfg :
  0 ≤ m → make_config m unreliable now names envs = Ret cfg →
  harness_ok cfg ∧ cfg_n (hs cfg) = m ∧ ∀ i, 0 ≤ i < m → connected_at cfg i = true.
Proof.
  intros Hm (cfg1 & H1 & H2)%outcome_bind_Ret.
  eapply (ofold_prefix (λ seen cfg, harness_ok cfg ∧ cfg_n (hs cfg) = m ∧ ∀ i, i ∈ seen → is_Some (host_at (hs cfg) i)))
    in H1 as (Hok1 & Hn1 & Hh1).
  2: { split_and!; [|done|by intros i ?%elem_of_nil]. do 2 (apply on_net_ok; [done|]). by apply empty_config_ok. }
  2: { intros seen i c c' _ (Hok & Hn & Hh) Hs. destruct (start1_spec _ _ _ _ _ Hok Hs) as (? & ? & _ & Ho & a & p & Ha & _).
       split_and!; [done|congruence|]. intros j Hj. destruct (decide (j = i)) as [->|Hji]; [by eexists|].
       rewrite Ho by done. apply Hh. set_solver. }
  eapply (ofold_prefix (λ seen cfg, harness_ok cfg ∧ same_slots (hs cfg1) (hs cfg) ∧ ∀ i, i ∈ seen → connected_at cfg i = true))
    in H2 as (Hok2 & Hs2 & Hc2).
  - split_and!; [done|rewrite (ss_n _ _ Hs2); done|]. intros i Hi. apply Hc2. by apply elem_of_zrange.
  - split_and!; [done|done|by intros i ?%elem_of_nil].
  - intros seen i c c' Hi (Hok & Hs & Hc) Hco.
    assert (is_Some (host_at (hs c) i)) as Hhi by (unfold host_at; rewrite (ss_host _ _ Hs); by apply Hh1).
    destruct (connect_ok _ _ _ Hok Hhi Hco) as [Hok' Hs']. split_and!; [done|by etrans|].
    pose proof Hok as [_ Hlen _ _ _]. apply connect_Ret in Hco as (Hi' & h1 & h2 & _ & _ & ->); [|done].
    intros j Hj. rewrite connected_at_insert by lia. case_decide; [done|]. apply Hc. set_solver.
Qed.

Lemma harness_reachable_ok m cfg : 0 ≤ m → harness_reachable m cfg → harness_ok cfg ∧ cfg_n (hs cfg) = m.
Proof.
  intros Hm (unrel & now & names & envs & cfg0 & es & Hmk & Hrun). destruct (make_config_ok _ _ _ _ _ _ Hm Hmk) as (Hok & Hn & _).
  eapply (ofold_inv (λ cfg, harness_ok cfg ∧ cfg_n (hs cfg) = m)); [|done|done].
  intros c e c' _ [Hc Hcn] He. destruct (harness_exec_ok _ _ _ Hc He) as [? ?]. split; [done|congruence].
Qed.

(** A call through the end [s] is handed to server [b]. *)
Definition reaches h (s : string) (b : Z) : Prop :=
  ∃ servername rel reord, readEndnameInfo (cfg_net h) (NStr s) = (true, Some servername, Some b, rel, reord).

Lemma reaches_alt h s b :
  reaches h s b ↔ is_enabled (cfg_net h) (NStr s) = true ∧
    ∃ name, connections (cfg_net h) !! NStr s = Some (Some name) ∧ server_at (cfg_net h) name = Some b.
Proof.
  unfold reaches, readEndnameInfo. split.
  - intros (name & rel & reord & [= -> Hn Hb _ _]). split; [done|]. exists name.
    destruct (connections (cfg_net h) !! NStr s) as [x|]; [|done]. simpl in *. unfold id in *. subst x. done.
  - intros [-> (name & -> & Hb)]. exists name. simpl. rewrite Hb. by eexists _, _.
Qed.

(** Calls go between connected servers, and through the ends of their rows only. *)
Lemma reaches_connected cfg s b :
  harness_ok cfg →
  reaches (hs cfg) s b ↔
  ∃ i j, connected_at cfg i = true ∧ connected_at cfg j = true ∧ end_name (hs cfg) i j = Some s ∧ host_at (hs cfg) j = Some b.
Proof.
  intros [Hok Hlen Hrun Hw Hsrv]. rewrite reaches_alt. split.
  - intros [He (name & Hcn & Hb)]. destruct (so_enabled _ _ Hok s He) as [[]%elem_of_empty|(a & inst & j & Ha & Hs)].
    destruct (decide (host_at (hs cfg) (in_me inst) = Some a)) as [Hr|Hr]; [|by rewrite (so_old _ _ Hok a inst j s) in He].
    pose proof (Hw _ _ _ _ _ Hr Ha Hs) as Hp. rewrite He in Hp. symmetry in Hp. apply andb_true_iff in Hp as [Hc1 Hc2].
    destruct (so_ends _ _ Hok _ _ _ _ Ha Hs) as (_ & Hcn' & _). rewrite Hcn in Hcn'. injection Hcn' as ->.
    exists (in_me inst), j. split_and!; try done; [|by apply (so_server _ _ Hok)].
    destruct (so_current _ _ Hok _ _ Hr) as (inst' & Ha' & _ & _ & Hrow). rewrite Ha in Ha'. injection Ha' as <-.
    unfold end_name. by rewrite Hrow.
  - intros (i & j & Hc1 & Hc2 & Hs & Hb). destruct (Hrun i Hc1) as [a Ha].
    destruct (so_current _ _ Hok _ _ Ha) as (inst & Hinst & _ & _ & Hrow). unfold end_name in Hs. rewrite Hrow in Hs. simpl in Hs.
    rewrite (Hw _ _ _ _ _ Ha Hinst Hs), Hc1, Hc2. split; [done|]. exists (NInt j).
    destruct (so_ends _ _ Hok _ _ _ _ Hinst Hs) as (_ & -> & _). split; [done|]. by apply Hsrv.
Qed.

(** C11. In every state of the harness a call is handed over exactly between servers that are
    connected, by the end in the row of the sender, to the server that runs in the slot.
    A server that was replaced or crashed goes on running, but its ends are disabled, no
    call reaches it, and what it saves changes no persister in use; a server that is
    started gets what was saved last in its slot. *)
Theorem harness_isolates m cfg :
  0 ≤ m → harness_reachable m cfg →
  (∀ s b, reaches (hs cfg) s b ↔
     ∃ i j, connected_at cfg i = true ∧ connected_at cfg j = true ∧ end_name (hs cfg) i j = Some s ∧ host_at (hs cfg) j = Some b) ∧
  (∀ a inst, zlookup (instances (hs cfg)) a = Some inst → ¬ running (hs cfg) a inst →
     (∀ j s b, zlookup (in_ends inst) j = Some s → ¬ reaches (hs cfg) s b) ∧ (∀ s, ¬ reaches (hs cfg) s a) ∧
     (∀ rf ps cfg', harness_exec (HServer a rf ps) cfg = Ret cfg' → ∀ i, content (hs cfg') i = content (hs cfg) i)) ∧
  (∀ i names env cfg', harness_exec (HStart i names env) cfg = Ret cfg' →
     ∃ a inst, host_at (hs cfg') i = Some a ∧ zlookup (instances (hs cfg')) a = Some inst ∧
       in_state inst = Make m i (default MakePersister (content (hs cfg) i)) env.1 env.2).
Proof.
  intros Hm Hr. destruct (harness_reachable_ok m cfg Hm Hr) as [Hok Hn]. pose proof (ho_slots _ Hok) as Hslots. split_and!.
  - intros s b. by apply reaches_connected.
  - intros a inst Ha Hnr. split_and!.
    + intros j s b Hs [He _]%reaches_alt. by rewrite (so_old _ _ Hslots a inst j s) in He.
    + intros s (i & j & _ & _ & _ & Hj)%reaches_connected; [|done]. apply Hnr. unfold running.
      destruct (so_current _ _ Hslots j a Hj) as (inst' & Ha' & <- & _). rewrite Ha in Ha'. by injection Ha' as <-.
    + intros rf ps cfg' (h & Hh & [= <-])%outcome_bind_Ret. simpl. destruct (server_step_ok _ _ _ _ _ _ Hslots Hh) as (_ & _ & Hc).
      by apply (Hc inst).
  - intros i names env cfg' Hs. destruct (start1_spec _ _ _ _ _ Hok Hs) as (_ & _ & _ & _ & a & p & Ha & Hinst).
    rewrite Hn in Hinst. eexists a, _. split_and!; done.
Qed.
End raft_harness.

(** ** An example: three servers, one of them crashed and started again *)
Section harness_example.
#[local] Instance harness_tgob : Gob (TestGob Z) := gob_of_countable (TestGob Z).
#[local] Instance harness_rgob : Gob (RaftGob Z) := gob_of_countable (RaftGob Z).

Definition ex_name (round i j : Z) : string := pretty round +:+ "-" +:+ pretty i +:+ "-" +:+ pretty j.

Definition ex_config0 : raft_config (C := Z) :=
  result_or (empty_config 3 0) (make_config 3 false 0 (ex_name 0) (λ i, (i, 0))).

Definition ex_state (k : Z) : Persister := Raft.mkPersister (replicate (Z.to_nat k) "x"%byte) [].

(** Server 1 saves, is crashed, the old one saves again, a new one is started and
    connected, server 2 is disconnected. *)
Definition ex_events : list (HarnessEvent (C := Z)) :=
  let rf := Make 3 1 MakePersister 0 0 in
  [HServer 1 rf (ex_state 4); HCrash 1; HServer 1 rf (ex_state 9); HStart 1 (ex_name 1 1) (0, 0); HConnect 1; HDisconnect 2].

Definition ex_config1 : raft_config (C := Z) :=
  result_or ex_config0 (ofold (λ cfg e, harness_exec e cfg) ex_config0 ex_events).

Lemma harness_isolates_witness :
  host (hs ex_config1) = [Some 0; Some 3; Some 2] ∧ connected ex_config1 = [true; true; false] ∧
  content (hs ex_config1) 1 = Some (ex_state 4) ∧
  (∀ s b, reaches (hs ex_config1) s b ↔
     ∃ i j, connected_at ex_config1 i = true ∧ connected_at ex_config1 j = true ∧
       end_name (hs ex_config1) i j = Some s ∧ host_at (hs ex_config1) j = Some b).
Proof.
  split; [by vm_compute|]. split; [by vm_compute|]. split; [by vm_compute|].
  destruct (harness_isolates 3 ex_config1) as (Hr & _).
  - lia.
  - exists false, 0, (ex_name 0), (λ i, (i, 0)), ex_config0, ex_events. split; by apply result_or_Ret; vm_compute.
  - exact Hr.
Defined.
End harness_example.
