(* ===== verification/Dedup.v ===== *)
(** * Duplicate suppression over a replicated log

    kvraft, shardctrler and shardkv execute the commands of a Raft log and keep,
    per client, the sequence number and the reply of the last command executed for
    it: a command is executed only when its sequence number is larger.  Here the
    scheme is stated once, over a class of state machines; the services instantiate
    it.  [tracked] separates the commands the table covers from those a service
    executes every time (queries). *)
From S2P Require Import Prelude.

(** What a service promises: a deterministic step and the identity of a command. *)
Class Service (S O R : Type) := {
  exec : S → O → S * R;
  client : O → Z;
  seqno : O → Z;
  tracked : O → bool;
}.

Section dedup.
Context {S O R : Type} `{service : Service S O R}.
Implicit Types (t : gmap Z (Z * R)) (s : S) (o : O) (os : list O).

(** A command has not been executed, as far as the table knows. *)
Definition fresh t o : bool :=
  match t !! client o with Some (last, _) => last <? seqno o | None => true end.

Definition dstep (st : S * gmap Z (Z * R)) o : S * gmap Z (Z * R) :=
  let '(s, t) := st in
  if tracked o then
    if fresh t o then let '(s', r) := exec s o in (s', <[client o := (seqno o, r)]> t) else (s, t)
  else ((exec s o).1, t).

Definition drun (st : S * gmap Z (Z * R)) os : S * gmap Z (Z * R) := foldl dstep st os.

(** ** The commands that are executed *)

(** Per client, the last sequence number executed. *)
Definition marks t : gmap Z Z := fst <$> t.

Definition new_mark (m : gmap Z Z) o : bool :=
  match m !! client o with Some last => last <? seqno o | None => true end.

Fixpoint executed (m : gmap Z Z) os : list O :=
  match os with
  | [] => []
  | o :: os =>
      if tracked o then
        if new_mark m o then o :: executed (<[client o := seqno o]> m) os else executed m os
      else o :: executed m os
  end.

Lemma fresh_mark t o : fresh t o = new_mark (marks t) o.
Proof.
  unfold fresh, new_mark, marks. rewrite lookup_fmap. by destruct (t !! client o) as [[]|].
Qed.

(** The service with the table computes what the service without it computes on the
    executed commands. *)
Lemma drun_executed s t os :
  (drun (s, t) os).1 = foldl (λ s o, (exec s o).1) s (executed (marks t) os).
Proof.
  revert s t. induction os as [|o os IH]; intros s t; simpl; [done|].
  destruct (tracked o) eqn:Ht.
  - rewrite <-fresh_mark. destruct (fresh t o).
    + destruct (exec s o) as [s' r] eqn:He. rewrite IH. unfold marks. rewrite fmap_insert.
      simpl. by rewrite He.
    + by rewrite IH.
  - by rewrite IH.
Qed.

Lemma executed_sublist m os : executed m os `sublist_of` os.
Proof.
  revert m. induction os as [|o os IH]; intros m; simpl; [done|].
  destruct (tracked o); [destruct (new_mark m o)|]; by constructor.
Qed.

(** Everything executed for a client is past its mark. *)
Lemma executed_past m os o last :
  o ∈ executed m os → tracked o = true → m !! client o = Some last → last < seqno o.
Proof.
  revert m last. induction os as [|o' os IH]; intros m last; simpl; [by intros ?%not_elem_of_nil|].
  destruct (tracked o') eqn:Ht'.
  - destruct (new_mark m o') eqn:Hn.
    + intros [->|Hin]%elem_of_cons Ht Hm.
      * unfold new_mark in Hn. rewrite Hm in Hn. by apply Z.ltb_lt.
      * destruct (decide (client o' = client o)) as [E|E].
        -- assert (seqno o' < seqno o) as Hlt.
           { eapply IH; [done..|]. rewrite E. apply lookup_insert_eq. }
           unfold new_mark in Hn. rewrite E, Hm in Hn. apply Z.ltb_lt in Hn. lia.
        -- eapply IH; [done..|]. by rewrite lookup_insert_ne.
    + apply IH.
  - intros [->|Hin]%elem_of_cons Ht Hm; [congruence|by eapply IH].
Qed.

(** The sequence numbers executed for one client increase. *)
Definition of_client (c : Z) os : list O :=
  filter (λ o, tracked o = true ∧ client o = c) os.

Lemma executed_increasing m os c :
  StronglySorted (λ o1 o2, seqno o1 < seqno o2) (of_client c (executed m os)).
Proof.
  revert m. induction os as [|o os IH]; intros m; simpl; [constructor|].
  destruct (tracked o) eqn:Ht; [destruct (new_mark m o) eqn:Hn|].
  - unfold of_client. rewrite filter_cons. case_decide as Hd; [|apply IH].
    destruct Hd as [_ Hc]. constructor; [apply IH|]. apply Forall_forall.
    intros o' [[Ht' Hc'] Ho']%list_elem_of_filter.
    eapply executed_past; [done..|]. rewrite <-Hc in Hc'. rewrite Hc'. apply lookup_insert_eq.
  - apply IH.
  - unfold of_client. rewrite filter_cons. rewrite decide_False by (intros [? _]; congruence).
    apply IH.
Qed.

Lemma executed_once m os (i j : nat) o1 o2 :
  executed m os !! i = Some o1 → executed m os !! j = Some o2 →
  tracked o1 = true → tracked o2 = true →
  client o1 = client o2 → seqno o1 = seqno o2 → i = j.
Proof.
  intros H1 H2 Ht1 Ht2 Hc Hs.
  assert (∀ (a b : nat) oa ob, (a < b)%nat → executed m os !! a = Some oa →
    executed m os !! b = Some ob → tracked oa = true → tracked ob = true →
    client oa = client ob → seqno oa < seqno ob) as Hlt.
  { clear. intros a b oa ob Hab Ha Hb Hta Htb Hc.
    pose proof (executed_increasing m os (client ob)) as Hs.
    rewrite <-(take_drop_middle _ _ _ Ha) in Hs. unfold of_client in Hs.
    rewrite filter_app, filter_cons_True in Hs by done.
    apply StronglySorted_app_1_r in Hs. inversion Hs as [|? ? _ Hall]; subst.
    rewrite Forall_forall in Hall. apply Hall. apply list_elem_of_filter. split; [done|].
    apply list_elem_of_lookup. exists (b - a - 1)%nat. rewrite lookup_drop.
    rewrite <-Hb. f_equal. lia. }
  destruct (Nat.lt_trichotomy i j) as [Hij|[Hij|Hij]]; [|done|].
  - specialize (Hlt i j o1 o2 Hij H1 H2 Ht1 Ht2 Hc). lia.
  - specialize (Hlt j i o2 o1 Hij H2 H1 Ht2 Ht1 (eq_sym Hc)). lia.
Qed.

(** A command whose client has issued nothing later before it is executed, at its
    first occurrence. *)
Lemma executed_first m os1 o os2 :
  tracked o = true →
  (∀ last, m !! client o = Some last → last < seqno o) →
  (∀ o', o' ∈ os1 → tracked o' = true → client o' = client o → seqno o' < seqno o) →
  o ∈ executed m (os1 ++ o :: os2).
Proof.
  intros Ht. revert m. induction os1 as [|o' os1 IH]; intros m Hm Hos; simpl.
  - rewrite Ht. assert (new_mark m o = true) as ->; [|by left].
    unfold new_mark. destruct (m !! client o) eqn:E; [|done]. apply Z.ltb_lt. by apply Hm.
  - assert (∀ o', o' ∈ os1 → tracked o' = true → client o' = client o → seqno o' < seqno o)
      as Hos' by (intros; apply Hos; [by right|done..]).
    destruct (tracked o') eqn:Ht'; [destruct (new_mark m o')|].
    + right. apply IH; [|done]. intros last Hl.
      apply lookup_insert_Some in Hl as [[Hc <-]|[_ Hl]]; [|by apply Hm].
      apply Hos; [by left|done|done].
    + by apply IH.
    + right. by apply IH.
Qed.

(** ** What the executed commands returned *)

Fixpoint outcomes s os : list (O * R) :=
  match os with [] => [] | o :: os => (o, (exec s o).2) :: outcomes (exec s o).1 os end.

Definition plain s os : S := foldl (λ s o, (exec s o).1) s os.

Lemma outcomes_app s os os' : outcomes s (os ++ os') = outcomes s os ++ outcomes (plain s os) os'.
Proof. revert s. induction os as [|o os IH]; intros s; simpl; [done|]. by rewrite IH. Qed.

Lemma outcomes_fst s os : (outcomes s os).*1 = os.
Proof. revert s. induction os as [|o os IH]; intros s; simpl; [done|]. by rewrite IH. Qed.

(** The marks after a sequence of commands. *)
Definition mark (m : gmap Z Z) o : gmap Z Z := if tracked o && new_mark m o then <[client o := seqno o]> m else m.

Lemma executed_app m os os' : executed m (os ++ os') = executed m os ++ executed (foldl mark m os) os'.
Proof.
  revert m. induction os as [|o os IH]; intros m; simpl; [done|]. unfold mark at 2.
  destruct (tracked o); simpl; [destruct (new_mark m o)|]; by rewrite IH.
Qed.

Lemma marks_drun st os : marks (drun st os).2 = foldl mark (marks st.2) os.
Proof.
  revert st. induction os as [|o os IH]; intros [s t]; simpl; [done|]. rewrite IH. f_equal.
  unfold mark. rewrite <-fresh_mark. destruct (tracked o); simpl; [|done]. destruct (fresh t o); [|done].
  destruct (exec s o). unfold marks. simpl. by rewrite fmap_insert.
Qed.

(** The executed commands grow at their end. *)
Lemma executed_prefix m os os' : os `prefix_of` os' → executed m os `prefix_of` executed m os'.
Proof. intros [k ->]. rewrite executed_app. by eexists. Qed.

Lemma outcomes_prefix s os os' : os `prefix_of` os' → outcomes s os `prefix_of` outcomes s os'.
Proof. intros [k ->]. rewrite outcomes_app. by eexists. Qed.

(** The table holds the outcome of the last command executed for each client. *)
Lemma table_outcome s os c q r :
  (drun (s, ∅) os).2 !! c = Some (q, r) →
  ∃ o, (o, r) ∈ outcomes s (executed ∅ os) ∧ client o = c ∧ seqno o = q.
Proof.
  revert c q r. induction os as [|o os IH] using rev_ind; intros c q r; [done|].
  rewrite executed_app, outcomes_app. unfold drun in *. rewrite foldl_app. simpl.
  pose proof (marks_drun (s, ∅) os) as Hm. pose proof (drun_executed s ∅ os) as Hs. unfold drun in Hm, Hs.
  unfold marks in Hs. rewrite fmap_empty in Hs. fold (plain s (executed ∅ os)) in Hs.
  simpl in Hm. unfold marks in Hm at 2. rewrite fmap_empty in Hm. rewrite <-Hm, <-fresh_mark.
  destruct (foldl dstep (s, ∅) os) as [s1 t1] eqn:E. simpl in *. subst s1.
  setoid_rewrite elem_of_app. destruct (tracked o).
  - destruct (fresh t1 o); [|intros (o' & ? & ?)%IH; eauto].
    destruct (exec _ o) as [s2 r2] eqn:Ex. simpl. intros [[<- [= <- <-]]|[_ (o' & ? & ?)%IH]]%lookup_insert_Some; [|eauto].
    exists o. rewrite Ex. simpl. split; [right; by left|done].
  - intros (o' & ? & ?)%IH. eauto.
Qed.
End dedup.
