(* ===== verification/KvRaft.v ===== *)
(** * kvraft: the key/value service over Raft

    Models [src/src/kvraft/server.go], [common.go] and [client.go].  A critical
    section of the server is one definition.  [ApplyHandler] consumes the messages
    that Raft puts on [applyCh]; [HandleOp] is cut at its call of [Start] and at
    its wait on the channel.  [Seq] is a [uint64]: the clerk's counter wraps. *)
From Stdlib Require Import Init.Byte.
From S2P Require Import Prelude LabGob Raft RaftNode RaftLog Dedup.

Open Scope string_scope.
Open Scope Z_scope.

(** ** Data *)

Inductive OType := OPGet | OPPut | OPAppend.

Record Op := mkOp {
  OpType : OType;
  Key : string;
  Val : string;
  Seq : Z;
  Identifier : Z;
}.

Definition Err := string.
Definition ErrNotLeader : Err := "NotLeader".
Definition ErrKeyNotExist : Err := "KeyNotExist".
Definition ErrHandleOpTimeOut : Err := "HandleOpTimeOut".
Definition ErrChanClose : Err := "ChanClose".
Definition ErrLeaderOutDated : Err := "LeaderOutDated".
Definition ERRRPCFailed : Err := "RPCFailed".

Record Result := mkResult {
  LastSeq : Z;
  res_Err : Err;
  Value : string;
  ResTerm : Z;
}.

(** The fields the handlers use; [waiCh] maps an index to the channel registered
    for it, channels being numbered.  [rf] and [persister] are arguments of the
    operations that use them. *)
Record KVServer := mkKVServer {
  waiCh : gmap Z Z;
  historyMap : gmap Z Result;
  maxraftstate : Z;
  db : gmap string string;
  kv_lastApplied : Z;
}.

Definition eta_KVServer (kv : KVServer) : KVServer :=
  mkKVServer (waiCh kv) (historyMap kv) (maxraftstate kv) (db kv) (kv_lastApplied kv).

#[global] Instance set_waiCh : Setter waiCh := λ f x, ltac:(solve_setter eta_KVServer waiCh f x).
#[global] Instance set_historyMap : Setter historyMap := λ f x, ltac:(solve_setter eta_KVServer historyMap f x).
#[global] Instance set_db : Setter db := λ f x, ltac:(solve_setter eta_KVServer db f x).
#[global] Instance set_kv_lastApplied : Setter kv_lastApplied := λ f x, ltac:(solve_setter eta_KVServer kv_lastApplied f x).

(** ** Executing an operation *)

(** [DBExecute] on the database alone. *)
Definition DBExecute (m : gmap string string) (op : Op) : gmap string string * Result :=
  match OpType op with
  | OPGet =>
      match m !! Key op with
      | Some val => (m, mkResult (Seq op) "" val 0)
      | None => (m, mkResult (Seq op) ErrKeyNotExist "" 0)
      end
  | OPPut => (<[Key op := Val op]> m, mkResult (Seq op) "" "" 0)
  | OPAppend =>
      match m !! Key op with
      | Some val => (<[Key op := val +:+ Val op]> m, mkResult (Seq op) "" "" 0)
      | None => (<[Key op := Val op]> m, mkResult (Seq op) "" "" 0)
      end
  end.

(** ** Snapshots *)

Inductive KvGob := GDb (m : gmap string string) | GHist (h : gmap Z Result).

Definition get_db (v : KvGob) : option (gmap string string) :=
  match v with GDb m => Some m | _ => None end.
Definition get_hist (v : KvGob) : option (gmap Z Result) :=
  match v with GHist h => Some h | _ => None end.

Section server.
Context {gob : Gob KvGob}.
Implicit Types kv : KVServer.

Definition GenSnapShot kv : list byte :=
  Bytes (Encode (Encode NewEncoder (GDb (db kv))) (GHist (historyMap kv))).

Definition LoadSnapShot kv (snapShot : list byte) : KVServer :=
  if len snapShot =? 0 then kv
  else
    let d := NewDecoder snapShot in
    match
      '(tmpDB, d) ← Decode get_db d;
      '(tmpHistoryMap, d) ← Decode get_hist d;
      Some (tmpDB, tmpHistoryMap)
    with
    | Some (tmpDB, tmpHistoryMap) => kv <| db := tmpDB |> <| historyMap := tmpHistoryMap |>
    | None => kv
    end.

Definition StartKVServer (ps : Persister) (maxraftstate : Z) : KVServer :=
  LoadSnapShot (mkKVServer ∅ ∅ maxraftstate ∅ 0) (ReadSnapshot ps).

(** ** ApplyHandler *)

(** The critical section for a command: the new state and the message to send on
    the channel of a waiting [HandleOp], if one is registered. *)
Definition ApplyHandler_command kv (msg : ApplyMsg Op) :
    outcome (KVServer * option (Z * Result)) :=
  match Command msg with
  | None => Panic
  | Some op =>
      if CommandIndex msg <=? kv_lastApplied kv then Ret (kv, None)
      else
        let kv := kv <| kv_lastApplied := CommandIndex msg |> in
        let '(needApply, res) :=
          match historyMap kv !! Identifier op with
          | Some his =>
              if LastSeq his =? Seq op then (false, his)
              else if LastSeq his <? Seq op then (true, mkResult 0 "" "" 0)
              else (false, mkResult 0 "" "" 0)
          | None => (true, mkResult 0 "" "" 0)
          end in
        let '(kv, res) :=
          if needApply : bool then
            let '(m, res) := DBExecute (db kv) op in
            let res := mkResult (LastSeq res) (res_Err res) (Value res) (SnapshotTerm msg) in
            (kv <| db := m |> <| historyMap := <[Identifier op := res]> (historyMap kv) |>, res)
          else (kv, res) in
        match waiCh kv !! CommandIndex msg with
        | Some ch =>
            Ret (kv, Some (ch, mkResult (LastSeq res) (res_Err res) (Value res) (SnapshotTerm msg)))
        | None => Ret (kv, None)
        end
  end.

(** After the message is sent: the index and the bytes passed to [rf.Snapshot], when
    [size], the size of the Raft state, has reached 95% of the limit. *)
Definition ApplyHandler_snapshot_due kv (index size : Z) : option (Z * list byte) :=
  if negb (maxraftstate kv =? -1) && (size >=? Z.quot (maxraftstate kv) 100 * 95)
  then Some (index, GenSnapShot kv) else None.

Definition ApplyHandler_snapshot kv (msg : ApplyMsg Op) : KVServer :=
  if SnapshotIndex msg >=? kv_lastApplied kv
  then (LoadSnapShot kv (Snapshot_ msg)) <| kv_lastApplied := SnapshotIndex msg |>
  else kv.

(** One iteration, as far as the state of the server goes. *)
Definition ApplyHandler kv (msg : ApplyMsg Op) : outcome KVServer :=
  if CommandValid msg then '(kv, _) ← ApplyHandler_command kv msg; Ret kv
  else if SnapshotValid msg then Ret (ApplyHandler_snapshot kv msg)
  else Ret kv.

(** ** HandleOp *)

(** Up to [Start]: the answer found in the history. *)
Definition HandleOp_history kv (op : Op) : option Result :=
  match historyMap kv !! Identifier op with
  | Some his => if LastSeq his =? Seq op then Some his else None
  | None => None
  end.

(** What the wait on the channel ends with: the timer, a message, or the closing of
    the channel. *)
Inductive Wakeup := TimedOut | Received (msg : Result) | Closed.

Definition HandleOp_register kv (startIndex ch : Z) : KVServer :=
  kv <| waiCh := <[startIndex := ch]> (waiCh kv) |>.

(** The deferred cleanup; the channel [newCh] is closed with it. *)
Definition HandleOp_cleanup kv (startIndex : Z) : KVServer :=
  kv <| waiCh := delete startIndex (waiCh kv) |>.

Definition HandleOp_result (startTerm : Z) (w : Wakeup) : Result :=
  match w with
  | TimedOut => mkResult 0 ErrHandleOpTimeOut "" 0
  | Received msg =>
      if ResTerm msg =? startTerm then msg else mkResult 0 ErrLeaderOutDated "" 0
  | Closed => mkResult 0 ErrChanClose "" 0
  end.

(** The whole handler, where [start] is what [rf.Start] returned, [ch] the new
    channel, [during] what the other goroutines did to the server during the wait
    and [w] how the wait ended. *)
Definition HandleOp kv (op : Op) (start : Z * Z * bool) (ch : Z)
    (during : KVServer → KVServer) (w : Wakeup) : KVServer * Result :=
  match HandleOp_history kv op with
  | Some his => (kv, his)
  | None =>
      let '(startIndex, startTerm, isLeader) := start in
      if negb isLeader then (kv, mkResult 0 ErrNotLeader "" 0)
      else
        let kv := during (HandleOp_register kv startIndex ch) in
        (HandleOp_cleanup kv startIndex, HandleOp_result startTerm w)
  end.

(** The RPC handlers build the operation and copy the result. *)
Record GetArgs := mkGetArgs { ga_Key : string; ga_Seq : Z; ga_Identifier : Z }.
Record GetReply := mkGetReply { gr_Err : Err; gr_Value : string }.
Record PutAppendArgs := mkPutAppendArgs {
  pa_Key : string; pa_Value : string; pa_Op : string; pa_Seq : Z; pa_Identifier : Z }.
Record PutAppendReply := mkPutAppendReply { pr_Err : Err }.

Definition Get_op (args : GetArgs) : Op :=
  mkOp OPGet (ga_Key args) "" (ga_Seq args) (ga_Identifier args).
Definition Get_reply (res : Result) : GetReply := mkGetReply (res_Err res) (Value res).

Definition PutAppend_op (args : PutAppendArgs) : Op :=
  mkOp (if bool_decide (pa_Op args = "Put") then OPPut else OPAppend)
    (pa_Key args) (pa_Value args) (pa_Seq args) (pa_Identifier args).
Definition PutAppend_reply (res : Result) : PutAppendReply := mkPutAppendReply (res_Err res).

End server.

(** ** The clerk *)

Record Clerk := mkClerk { servers : Z; ck_seq : Z; ck_identifier : Z; ck_leaderId : Z }.

Definition MakeClerk (servers identifier : Z) : Clerk := mkClerk servers 0 identifier 0.

(** [GetSeq]; the counter is a [uint64]. *)
Definition GetSeq (ck : Clerk) : Clerk * Z :=
  (mkClerk (servers ck) ((ck_seq ck + 1) mod 2 ^ 64) (ck_identifier ck) (ck_leaderId ck), ck_seq ck).

Definition next_leader (ck : Clerk) : Clerk :=
  mkClerk (servers ck) (ck_seq ck) (ck_identifier ck) ((ck_leaderId ck + 1) mod servers ck).

(** One iteration of the retry loop of [Get]: [ok] is what [Call] returned.  [inl]
    is a retry, [inr] the value returned. *)
Definition Clerk_Get_step (ck : Clerk) (ok : bool) (reply : GetReply) : Clerk + string :=
  if negb ok || bool_decide (gr_Err reply = ErrNotLeader)
     || bool_decide (gr_Err reply = ErrLeaderOutDated)
  then inl (next_leader ck)
  else if bool_decide (gr_Err reply = ErrChanClose) then inl ck
  else if bool_decide (gr_Err reply = ErrHandleOpTimeOut) then inl ck
  else inr (gr_Value reply).

Definition Clerk_PutAppend_step (ck : Clerk) (ok : bool) (reply : PutAppendReply) : Clerk + unit :=
  if negb ok || bool_decide (pr_Err reply = ErrNotLeader)
     || bool_decide (pr_Err reply = ErrLeaderOutDated)
  then inl (next_leader ck)
  else if bool_decide (pr_Err reply = ErrChanClose) then inl ck
  else if bool_decide (pr_Err reply = ErrHandleOpTimeOut) then inl ck
  else inr tt.

(** The arguments of a request: the sequence number is fixed before the first try. *)
Definition Clerk_Get_args (ck : Clerk) (key : string) : Clerk * GetArgs :=
  let '(ck, seq) := GetSeq ck in (ck, mkGetArgs key seq (ck_identifier ck)).
Definition Clerk_PutAppend_args (ck : Clerk) (key value op : string) : Clerk * PutAppendArgs :=
  let '(ck, seq) := GetSeq ck in (ck, mkPutAppendArgs key value op seq (ck_identifier ck)).
Definition Clerk_Put_args (ck : Clerk) (key value : string) := Clerk_PutAppend_args ck key value "Put".
Definition Clerk_Append_args (ck : Clerk) (key value : string) := Clerk_PutAppend_args ck key value "Append".

(** ** The service against its specification

    The specification is the plain map, fed with the operations of the log through
    the duplicate suppression of [Dedup]. *)
#[export] Instance kv_service : Service (gmap string string) Op Result := {|
  exec := DBExecute;
  client := Identifier;
  seqno := Seq;
  tracked := λ _, true;
|}.

Definition kv_spec (ops : list Op) : gmap string string * gmap Z (Z * Result) :=
  drun (∅, ∅) ops.

Section refinement.
Context {gob : Gob KvGob}.
Implicit Types (kv : KVServer) (lg : list Op) (msg : ApplyMsg Op).

(** The server holds what the specification computes on the first [p] operations. *)
Definition represents lg (p : nat) kv : Prop :=
  let '(m, t) := kv_spec (take p lg) in db kv = m ∧ historyMap kv = snd <$> t.

(** The table records the sequence number of each result, and no term. *)
Definition table_ok (t : gmap Z (Z * Result)) : Prop :=
  map_Forall (λ _ e, LastSeq e.2 = e.1 ∧ ResTerm e.2 = 0) t.

Lemma DBExecute_result m op : LastSeq (DBExecute m op).2 = Seq op ∧ ResTerm (DBExecute m op).2 = 0.
Proof. unfold DBExecute. destruct (OpType op); [|done|]; by destruct (m !! Key op). Qed.

Lemma drun_table_ok st ops : table_ok st.2 → table_ok (drun st ops).2.
Proof.
  revert st. induction ops as [|op ops IH]; intros [m t] Ht; simpl; [done|].
  apply IH. simpl. destruct (fresh t op); [|done].
  pose proof (DBExecute_result m op) as Hr. destruct (DBExecute m op) as [m' r]. simpl in *.
  by apply map_Forall_insert_2.
Qed.

Lemma kv_spec_table lg p : table_ok (kv_spec (take p lg)).2.
Proof. apply drun_table_ok. simpl. apply map_Forall_empty. Qed.

Lemma kv_spec_snoc lg (p : nat) op :
  lg !! p = Some op → kv_spec (take (S p) lg) = dstep (kv_spec (take p lg)) op.
Proof. intros H. unfold kv_spec, drun. by rewrite (take_S_r _ _ _ H), foldl_app. Qed.

(** Restoring a snapshot. *)
Lemma LoadSnapShot_GenSnapShot kv kv0 :
  LoadSnapShot kv (GenSnapShot kv0) =
  kv <| db := db kv0 |> <| historyMap := historyMap kv0 |>.
Proof.
  unfold LoadSnapShot, GenSnapShot.
  destruct (Z.eqb_spec (len (Bytes (Encode (Encode NewEncoder (GDb (db kv0))) (GHist (historyMap kv0))))) 0)
    as [E|_].
  - exfalso. assert (Bytes (Encode (Encode NewEncoder (GDb (db kv0))) (GHist (historyMap kv0))) ≠ [])
      as Hne%len_pos; [|lia]. by apply Bytes_nonempty.
  - rewrite NewDecoder_Bytes. done.
Qed.

(** The next command of the log. *)
Lemma apply_next lg p kv msg op :
  represents lg p kv → lg !! p = Some op →
  CommandValid msg = true → Command msg = Some op →
  SnapshotTerm msg = 0 → kv_lastApplied kv < CommandIndex msg →
  ∃ kv', ApplyHandler kv msg = Ret kv' ∧ represents lg (S p) kv' ∧
         kv_lastApplied kv' = CommandIndex msg.
Proof.
  intros Hrep Hop Hv Hc Ht Hla. unfold ApplyHandler. rewrite Hv. unfold ApplyHandler_command.
  rewrite Hc. destruct (Z.leb_spec (CommandIndex msg) (kv_lastApplied kv)); [lia|]. cbv zeta.
  unfold represents in *. rewrite (kv_spec_snoc _ _ _ Hop).
  pose proof (kv_spec_table lg p) as Htab.
  destruct (kv_spec (take p lg)) as [m t]. destruct Hrep as [Hm Hh]. simpl in Htab.
  simpl. rewrite Hh, lookup_fmap. unfold fresh. simpl.
  destruct (t !! Identifier op) as [[q r]|] eqn:Et; simpl.
  - apply Htab in Et as Hq. simpl in Hq. destruct Hq as [-> _].
    destruct (Z.eqb_spec q (Seq op)) as [->|Hne]; [|destruct (Z.ltb_spec q (Seq op))].
    + rewrite Z.ltb_irrefl. simpl. destruct (waiCh kv !! _); eexists; (split; [done|]); done.
    + rewrite Hm. pose proof (DBExecute_result m op) as [Hr1 Hr2].
      destruct (DBExecute m op) as [m' r'] eqn:Hx. simpl in *.
      assert (mkResult (LastSeq r') (res_Err r') (Value r') (SnapshotTerm msg) = r') as ->
        by (destruct r'; simpl in *; congruence).
      destruct (waiCh kv !! _); eexists; (split; [done|]); simpl; by rewrite fmap_insert.
    + simpl. destruct (waiCh kv !! _); eexists; (split; [done|]); done.
  - rewrite Hm. pose proof (DBExecute_result m op) as [Hr1 Hr2].
    destruct (DBExecute m op) as [m' r'] eqn:Hx. simpl in *.
    assert (mkResult (LastSeq r') (res_Err r') (Value r') (SnapshotTerm msg) = r') as ->
      by (destruct r'; simpl in *; congruence).
    destruct (waiCh kv !! _); eexists; (split; [done|]); simpl; by rewrite fmap_insert.
Qed.

(** What Raft puts on [applyCh] for the log [lg], to a server that has executed [p]
    operations and whose [lastApplied] is [la]: the next command, a command it has
    seen, a snapshot some replica took at or after [p], or one behind it. *)
Fixpoint stream lg (p : nat) (la : Z) (msgs : list (ApplyMsg Op)) : Prop :=
  match msgs with
  | [] => True
  | msg :: msgs =>
      (CommandValid msg = true ∧ SnapshotTerm msg = 0 ∧ is_Some (Command msg) ∧
       ((CommandIndex msg = Z.of_nat (S p) ∧ Command msg = lg !! p ∧ la < Z.of_nat (S p) ∧
         stream lg (S p) (Z.of_nat (S p)) msgs) ∨
        (CommandIndex msg ≤ la ∧ stream lg p la msgs))) ∨
      (CommandValid msg = false ∧ SnapshotValid msg = true ∧
       ((∃ p' kv0, SnapshotIndex msg = Z.of_nat p' ∧ (p ≤ p' ≤ length lg)%nat ∧ la ≤ Z.of_nat p' ∧
           represents lg p' kv0 ∧ Snapshot_ msg = GenSnapShot kv0 ∧
           stream lg p' (Z.of_nat p') msgs) ∨
        (SnapshotIndex msg < la ∧ stream lg p la msgs)))
  end.

Fixpoint handle_all kv (msgs : list (ApplyMsg Op)) : outcome KVServer :=
  match msgs with [] => Ret kv | msg :: msgs => kv ← ApplyHandler kv msg; handle_all kv msgs end.

Lemma handle_all_represents lg p kv msgs :
  represents lg p kv → stream lg p (kv_lastApplied kv) msgs →
  ∃ kv' p', handle_all kv msgs = Ret kv' ∧ (p ≤ p')%nat ∧ represents lg p' kv'.
Proof.
  revert p kv. induction msgs as [|msg msgs IH]; intros p kv Hrep; simpl; [by eauto|].
  intros [(Hv & Ht & [op Hop] & [(Hi & Hc & Hla & Hs)|(Hi & Hs)])|(Hv & Hsv & [Hnew|(Hi & Hs)])].
  - rewrite Hop in Hc. destruct (apply_next lg p kv msg op) as (kv1 & -> & Hrep1 & Hla1); try done; [lia|].
    simpl. rewrite <-Hi, <-Hla1 in Hs.
    destruct (IH _ _ Hrep1 Hs) as (kv' & p' & ? & ? & ?). exists kv', p'. split_and!; [done|lia|done].
  - unfold ApplyHandler. rewrite Hv. unfold ApplyHandler_command. rewrite Hop.
    rewrite (proj2 (Z.leb_le _ _)) by done. simpl. by apply IH.
  - destruct Hnew as (p1 & kv0 & Hi & Hp & Hla & Hrep0 & Hdata & Hs).
    unfold ApplyHandler. rewrite Hv, Hsv. unfold ApplyHandler_snapshot.
    rewrite Z.geb_leb, (proj2 (Z.leb_le _ _)) by lia. rewrite Hdata, LoadSnapShot_GenSnapShot. simpl.
    rewrite Hi. edestruct (IH p1) as (kv' & p' & ? & ? & ?); [| |exists kv', p'; split_and!; [done|lia|done]].
    + exact Hrep0.
    + exact Hs.
  - unfold ApplyHandler. rewrite Hv, Hsv. unfold ApplyHandler_snapshot.
    rewrite Z.geb_leb, (proj2 (Z.leb_gt _ _)) by done. simpl. by apply IH.
Qed.

(** Every replica computes the same: fed by Raft with the commands of the log in
    order, with repetitions and with snapshots of other replicas, the server never
    panics and holds what the specification computes on a prefix of the log. *)
Theorem kv_refines_log lg p kv msgs :
  represents lg p kv → stream lg p (kv_lastApplied kv) msgs →
  ∃ kv' p', handle_all kv msgs = Ret kv' ∧ (p ≤ p')%nat ∧ represents lg p' kv'.
Proof. apply handle_all_represents. Qed.

(** Exactly once: the database of a server that has executed a prefix of the log
    is the result of the plain operations of a sub-sequence of it, in which no
    request of a client occurs twice, and in which every request occurs that the
    client sent before any later one. *)
Theorem kv_exactly_once lg p kv :
  represents lg p kv →
  ∃ ops, ops `sublist_of` take p lg ∧
    db kv = foldl (λ m op, (DBExecute m op).1) ∅ ops ∧
    (∀ (i j : nat) o1 o2, ops !! i = Some o1 → ops !! j = Some o2 →
       Identifier o1 = Identifier o2 → Seq o1 = Seq o2 → i = j) ∧
    (∀ (i : nat) op, take p lg !! i = Some op →
       (∀ (j : nat) op', (j < i)%nat → take p lg !! j = Some op' →
          Identifier op' = Identifier op → Seq op' < Seq op) →
       op ∈ ops).
Proof.
  intros Hrep. exists (executed ∅ (take p lg)). split_and!.
  - apply executed_sublist.
  - unfold represents in Hrep. destruct (kv_spec (take p lg)) as [m t] eqn:E.
    destruct Hrep as [-> _]. pose proof (drun_executed ∅ ∅ (take p lg)) as Hd.
    change (drun (∅, ∅) (take p lg)) with (kv_spec (take p lg)) in Hd. rewrite E in Hd.
    unfold marks in Hd. rewrite fmap_empty in Hd. exact Hd.
  - intros i j o1 o2 H1 H2 Hc Hs. by eapply (executed_once ∅ (take p lg) i j o1 o2).
  - intros i op Hi Hfirst. rewrite <-(take_drop_middle _ _ _ Hi).
    apply executed_first; [done|by intros ? ?%lookup_empty_Some|].
    intros o' [j Hj]%list_elem_of_lookup _ Hc. apply lookup_take_Some in Hj as [Hj Hlt].
    by eapply Hfirst.
Qed.

(** ** Answering the client *)

Lemma to_apply_no_snapshot_term (rf : Raft Op) msg : msg ∈ to_apply rf → SnapshotTerm msg = 0.
Proof.
  unfold to_apply. intros (v & _ & Hm)%list_elem_of_omap. unfold msg_at in Hm.
  destruct (_ <=? _); [done|]. by destruct (zlookup _ _); simplify_eq/=.
Qed.

(** A result on a channel carries the [SnapshotTerm] of the message. *)
Lemma ApplyHandler_command_sent kv msg kv' ch r :
  ApplyHandler_command kv msg = Ret (kv', Some (ch, r)) → ResTerm r = SnapshotTerm msg.
Proof.
  intros H. unfold ApplyHandler_command in H. destruct (Command msg) as [op|]; [|done].
  destruct (_ <=? _); [done|]. cbv zeta in H.
  destruct (match historyMap _ !! _ with Some _ => _ | None => _ end) as [b res].
  destruct (if b then _ else _) as [kv1 res1]. by destruct (waiCh kv1 !! _); simplify_eq.
Qed.

(** The result that [ApplyHandler] passes to a waiting [HandleOp] never counts as
    a success: it carries the message's [SnapshotTerm], which Raft leaves at 0 for
    commands, and [HandleOp] compares it with the term [Start] returned, which is
    at least 1.  The client is told [LeaderOutDated] for an operation that has been
    executed. *)
Theorem HandleOp_channel_outdated (rf : Raft Op) kv kv' msg ch r startTerm :
  msg ∈ to_apply rf → 1 ≤ startTerm →
  ApplyHandler_command kv msg = Ret (kv', Some (ch, r)) →
  res_Err (HandleOp_result startTerm (Received r)) = ErrLeaderOutDated.
Proof.
  intros Hmsg%to_apply_no_snapshot_term Hst H%ApplyHandler_command_sent.
  simpl. rewrite H, Hmsg. destruct (Z.eqb_spec 0 startTerm); [lia|done].
Qed.

(** The retry answers: once an operation has been executed, [HandleOp] for the
    same operation returns its recorded result at once, the value and error the
    database gave when it was executed. *)
Theorem HandleOp_retry_answers kv msg op kv' out :
  Command msg = Some op → kv_lastApplied kv < CommandIndex msg →
  match historyMap kv !! Identifier op with Some his => LastSeq his < Seq op | None => True end →
  ApplyHandler_command kv msg = Ret (kv', out) →
  ∃ r, (∀ start ch during w, HandleOp kv' op start ch during w = (kv', r)) ∧
    LastSeq r = Seq op ∧ res_Err r = res_Err (DBExecute (db kv) op).2 ∧
    Value r = Value (DBExecute (db kv) op).2.
Proof.
  intros Hc Hla Hold H. unfold ApplyHandler_command in H. rewrite Hc in H.
  destruct (Z.leb_spec (CommandIndex msg) (kv_lastApplied kv)); [lia|]. simpl in H.
  pose proof (DBExecute_result (db kv) op) as [Hseq _].
  destruct (DBExecute (db kv) op) as [m r0]. simpl in Hseq.
  assert (∃ w, kv' = kv <| kv_lastApplied := CommandIndex msg |> <| db := m |> <| historyMap :=
    <[Identifier op := mkResult (LastSeq r0) (res_Err r0) (Value r0) (SnapshotTerm msg)]> (historyMap kv) |>
    <| waiCh := w |>) as [w ->].
  { exists (waiCh kv). destruct (historyMap kv !! Identifier op) as [his|].
    - destruct (Z.eqb_spec (LastSeq his) (Seq op)); [lia|].
      destruct (Z.ltb_spec (LastSeq his) (Seq op)); [|lia]. simpl in H.
      by destruct (waiCh kv !! _); simplify_eq.
    - simpl in H. by destruct (waiCh kv !! _); simplify_eq. }
  exists (mkResult (LastSeq r0) (res_Err r0) (Value r0) (SnapshotTerm msg)).
  split; [|by split_and!]. intros start ch during w'. unfold HandleOp, HandleOp_history.
  simpl. rewrite lookup_insert_eq. simpl. by rewrite Hseq, Z.eqb_refl.
Qed.

End refinement.

(** ** The clerk's loop *)

(** A clerk retries with the same sequence number until the answer is final: it
    returns only on a reply that is neither a lost call nor one of the errors that
    ask for a retry, and its guess of the leader stays a server. *)
Theorem Clerk_Get_retries ck ok reply :
  0 ≤ ck_leaderId ck < servers ck →
  match Clerk_Get_step ck ok reply with
  | inl ck' => servers ck' = servers ck ∧ ck_seq ck' = ck_seq ck ∧
               ck_identifier ck' = ck_identifier ck ∧ 0 ≤ ck_leaderId ck' < servers ck
  | inr v => ok = true ∧ v = gr_Value reply ∧
             gr_Err reply ∉ [ErrNotLeader; ErrLeaderOutDated; ErrChanClose; ErrHandleOpTimeOut]
  end.
Proof.
  intros Hb. unfold Clerk_Get_step.
  assert (0 ≤ (ck_leaderId ck + 1) mod servers ck < servers ck) by (apply Z.mod_pos_bound; lia).
  destruct ok; simpl; [|done].
  repeat case_bool_decide; simpl;
    first [split_and!; first [done|lia]|split_and!; [done|done|];
      rewrite !not_elem_of_cons; split_and!; first [done|apply not_elem_of_nil]].
Qed.

(** ** Concrete instances *)
#[export] Instance Result_eq_dec : EqDecision Result.
Proof. solve_decision. Defined.

#[export] Instance Result_countable : Countable Result.
Proof.
  refine (inj_countable' (λ r, (LastSeq r, res_Err r, Value r, ResTerm r))
            (λ '(a, b, c, d), mkResult a b c d) _). by intros [].
Defined.

#[export] Instance KvGob_eq_dec : EqDecision KvGob.
Proof. solve_decision. Defined.

#[export] Instance KvGob_countable : Countable KvGob.
Proof.
  refine (inj_countable' (λ v, match v with GDb m => inl m | GHist h => inr h end)
            (λ v, match v with inl m => GDb m | inr h => GHist h end) _). by intros [].
Defined.

Section kv_examples.
#[local] Instance kv_gob_example : Gob KvGob := gob_of_countable KvGob.

Definition op1 : Op := mkOp OPPut "x" "1" 0 5.
Definition op2 : Op := mkOp OPAppend "x" "2" 1 5.
(** The second request is in the log twice: the client retried it. *)
Definition log_ops : list Op := [op1; op2; op2].

Definition cmd_msg (i : Z) (op : Op) : ApplyMsg Op := mkApplyMsg true (Some op) i 2 false [] 0 0.

Definition kv_fresh : KVServer := StartKVServer MakePersister (-1).

Lemma kv_refines_log_witness :
  ∃ kv' p', handle_all kv_fresh [cmd_msg 1 op1; cmd_msg 2 op2; cmd_msg 2 op2; cmd_msg 3 op2] = Ret kv' ∧
    represents log_ops p' kv' ∧ db kv' !! "x" = Some "12".
Proof.
  destruct (kv_refines_log log_ops 0 kv_fresh [cmd_msg 1 op1; cmd_msg 2 op2; cmd_msg 2 op2; cmd_msg 3 op2])
    as (kv' & p' & H & _ & Hrep).
  - by vm_compute.
  - do 2 (left; do 2 (split; [reflexivity|]); split; [by eexists|];
          left; do 2 (split; [reflexivity|]); split; [by vm_compute|]).
    left; do 2 (split; [reflexivity|]); split; [by eexists|]; right; split; [by vm_compute|].
    left; do 2 (split; [reflexivity|]); split; [by eexists|].
    left; do 2 (split; [reflexivity|]); split; [by vm_compute|]. exact I.
  - exists kv', p'. split; [exact H|]. split; [exact Hrep|]. vm_compute in H. by simplify_eq.
Defined.

Lemma kv_exactly_once_witness :
  ∃ kv ops, represents log_ops 3 kv ∧
    db kv = foldl (λ m op, (DBExecute m op).1) ∅ ops ∧ ops `sublist_of` log_ops.
Proof.
  pose (kv := mkKVServer ∅ (snd <$> (kv_spec log_ops).2) (-1) (kv_spec log_ops).1 3).
  assert (represents log_ops 3 kv) as Hrep by (by vm_compute).
  destruct (kv_exactly_once log_ops 3 kv Hrep) as (ops & Hsub & Hdb & _).
  exists kv, ops. split; [exact Hrep|]. split; [exact Hdb|exact Hsub].
Defined.

(** A node with one committed command and a server waiting for it. *)
Definition rf_example : Raft Op :=
  mkRaft 3 MakePersister 0 false 2 0 [mkEntry (-1) None; mkEntry 2 (Some op1)] 1 0
    [2; 2; 2] [1; 1; 1] Leader (mkTimer 0 0 false) 0 2 [] CCWoken [] [] 0 (-1).

Lemma HandleOp_channel_outdated_witness :
  ∃ kv' ch r, ApplyHandler_command (HandleOp_register kv_fresh 1 9) (cmd_msg 1 op1) =
                Ret (kv', Some (ch, r)) ∧
    res_Err (HandleOp_result 2 (Received r)) = ErrLeaderOutDated.
Proof.
  destruct (ApplyHandler_command (HandleOp_register kv_fresh 1 9) (cmd_msg 1 op1))
    as [[kv' [[ch r]|]]|] eqn:E; [|by vm_compute in E|by vm_compute in E].
  exists kv', ch, r. split; [reflexivity|].
  apply (HandleOp_channel_outdated rf_example (HandleOp_register kv_fresh 1 9) kv' (cmd_msg 1 op1)
           ch r 2); [by vm_compute; left|lia|exact E].
Defined.

Lemma HandleOp_retry_answers_witness :
  ∃ kv' r, HandleOp kv' op1 (0, 0, false) 0 id TimedOut = (kv', r) ∧ res_Err r = "".
Proof.
  destruct (ApplyHandler_command kv_fresh (cmd_msg 1 op1)) as [[kv' out]|] eqn:E;
    [|by vm_compute in E].
  destruct (HandleOp_retry_answers kv_fresh (cmd_msg 1 op1) op1 kv' out) as (r & H & _ & He & _);
    [reflexivity|by vm_compute|by vm_compute|exact E|].
  exists kv', r. split; [apply H|]. rewrite He. by vm_compute.
Defined.

Lemma Clerk_Get_retries_witness :
  ∃ ck', Clerk_Get_step (mkClerk 3 1 5 2) false (mkGetReply "" "") = inl ck' ∧ ck_leaderId ck' = 0.
Proof.
  pose proof (Clerk_Get_retries (mkClerk 3 1 5 2) false (mkGetReply "" "") ltac:(simpl; lia)) as H.
  simpl in H. exists (mkClerk 3 1 5 0). done.
Defined.
End kv_examples.
