(* ===== verification/KvCluster.v ===== *)
(** * kvraft over raft: replicated servers agree

    The key/value servers of [src/src/kvraft] as a service over a Raft cluster: the
    messages of [applyCh] go through [ApplyHandler], a snapshot is taken when the log
    has grown, a restarted server loads it.  Every server executes a prefix of one
    sequence of operations. *)
From Stdlib Require Import Init.Byte.
From S2P Require Import Prelude LabGob Raft RaftVote RaftAppend RaftSnapshot RaftNode.
From S2P Require Import RaftFrames RaftSystem RaftLog RaftSteps RaftSafety RaftService Dedup KvRaft.

(** What [HandleOp] does to the server outside [ApplyHandler]. *)
Inductive KvOther := KvRegister (startIndex ch : Z) | KvCleanup (startIndex : Z).

Section cluster.
Context {gob : Gob KvGob} (maxraftstate : Z).
Implicit Types (kv : KVServer) (ops : list Op).

#[export] Instance kv_machine : StateMachine KVServer Op unit KvOther := {|
  sm_start := λ ps, StartKVServer ps maxraftstate;
  sm_apply := λ _ kv msg, of_outcome (ApplyHandler kv msg);
  sm_other := λ o kv,
    match o with
    | KvRegister startIndex ch => HandleOp_register kv startIndex ch
    | KvCleanup startIndex => HandleOp_cleanup kv startIndex
    end;
  sm_snap := λ kv index size, snd <$> ApplyHandler_snapshot_due kv index size;
|}.

(** The server sm_holds what the specification computes on [ops]. *)
Definition kv_holds ops kv : Prop := db kv = (kv_spec ops).1 ∧ historyMap kv = snd <$> (kv_spec ops).2.

Lemma kv_holds_represents ops kv : kv_holds ops kv ↔ represents ops (length ops) kv.
Proof. unfold kv_holds, represents. rewrite take_ge by done. by destruct (kv_spec ops). Qed.

#[export] Instance kv_lawful : Lawful kv_machine.
Proof.
  refine {| sm_holds := λ cmds, kv_holds (omap id cmds); sm_index := kv_lastApplied |}.
  - intros ps Hps. simpl. unfold StartKVServer, ReadSnapshot, clone. by rewrite Hps.
  - intros env cmds kv msg kv' Hh Hv Ht Hla _ Hap. rewrite omap_app. destruct (Command msg) as [op|] eqn:Hc; simpl in Hap.
    2: { unfold ApplyHandler, ApplyHandler_command in Hap. rewrite Hv, Hc in Hap. discriminate Hap. }
    simpl. revert Hh. generalize (omap id cmds). clear cmds. intros ops Hh. apply kv_holds_represents in Hh.
    destruct (apply_next (ops ++ [op]) (length ops) kv msg op) as (kv1 & Hap1 & Hrep & Hla1); try done.
    + unfold represents in *. rewrite take_app_le by done. done.
    + by rewrite lookup_app_r, Nat.sub_diag.
    + rewrite Hap1 in Hap. injection Hap as <-. split; [|lia]. apply kv_holds_represents.
      rewrite length_app, Nat.add_comm. exact Hrep.
  - intros [startIndex ch|startIndex] cmds kv Hh; by split.
  - intros cmds kv index size b ps Hh Hsn Hps. simpl in *. unfold ApplyHandler_snapshot_due in Hsn.
    destruct (_ && _); [|discriminate Hsn]. injection Hsn as <-.
    unfold StartKVServer, ReadSnapshot, clone. rewrite Hps, LoadSnapShot_GenSnapShot. by split.
Defined.

Context {rgob : Gob (RaftGob Op)}.

(** C7. The replicas of the key/value service agree: in a steady execution
    (no unencoded entries overwritten, no [InstallSnapshot] handled) over a Raft cluster
    that loses, delays and reorders messages and whose nodes crash and restart from their
    snapshots, any two servers, at the same or at different times, hold what the
    specification computes on two sequences of operations of which one begins with
    the other. *)
Theorem kv_replicas_agree n c es c' i j kv kv' taken taken' :
  cluster_reachable n c → cluster_run es c = Some c' →
  replicas c !! i = Some (kv, taken) → replicas c' !! j = Some (kv', taken') →
  ∃ ops ops', (ops `prefix_of` ops' ∨ ops' `prefix_of` ops) ∧
    db kv = (kv_spec ops).1 ∧ historyMap kv = snd <$> (kv_spec ops).2 ∧
    db kv' = (kv_spec ops').1 ∧ historyMap kv' = snd <$> (kv_spec ops').2.
Proof.
  intros Hc Hrun Hi Hj. destruct (replicas_agree n c es c' i j kv kv' taken taken' Hc Hrun Hi Hj)
    as (ops & ops' & [Hd Hh] & [Hd' Hh'] & Hpre%omap_comparable). eexists _, _. by split_and!.
Qed.
End cluster.

(** ** A concrete cluster

    Node 0 leads and replicates two operations to node 1.  Both servers execute them;
    the server of node 0 takes a snapshot, crashes and starts again from it. *)
#[export] Instance OType_eq_dec : EqDecision OType.
Proof. solve_decision. Defined.

#[export] Instance Op_eq_dec : EqDecision Op.
Proof. solve_decision. Defined.

#[export] Instance Op_countable : Countable Op.
Proof.
  refine (inj_countable'
    (λ op, (match OpType op with OPGet => 0 | OPPut => 1 | OPAppend => 2 end, Key op, Val op, Seq op, Identifier op))
    (λ '(t, k, v, s, i), mkOp (if t =? 0 then OPGet else if t =? 1 then OPPut else OPAppend) k v s i) _).
  by intros [[] ? ? ? ?].
Defined.

Section cluster_example.
#[local] Instance kv_cluster_gob : Gob KvGob := gob_of_countable KvGob.
#[local] Instance kv_cluster_rgob : Gob (RaftGob Op) := gob_of_countable (RaftGob Op).
#[local] Instance kv_cluster_machine : StateMachine KVServer Op unit KvOther := kv_machine 100.

Definition kv_cluster_events : list (ClusterEvent Op unit KvOther) :=
  (CRaft <$>
   [ECommit 0; ECommit 1; ECommit 2;
    ETimeout 0 0; EDeliver 0 0; EReceive 0 0; ELose 0; ETimeout 0 0; EDeliver 0 0; EReceive 0 0; ELose 0;
    EStart 0 0 (Some op1); EStart 0 0 (Some op2); ETimeout 0 0; EBegin 0; EEncode 0; EDeliver 0 0; EReceive 0 0;
    ECommit 0; ECommit 0; ECommit 0; ECommit 0;
    ETimeout 0 0; EBegin 1; EEncode 1; EDeliver 1 0; ECommit 1; ECommit 1; ECommit 1; ECommit 1]) ++
  [COther 0 (KvRegister 1 9); CApply 0 tt; CApply 0 tt; CSnapshot 0; CApply 1 tt].

Definition kv_cluster_later : list (ClusterEvent Op unit KvOther) := [CRestart 0 0 0; CApply 1 tt].

Definition kv_cluster_init : Cluster Op KVServer := cluster_init 3 (λ i, i) 0.
Definition kv_cluster : Cluster Op KVServer := default kv_cluster_init (cluster_run kv_cluster_events kv_cluster_init).
Definition kv_cluster' : Cluster Op KVServer := default kv_cluster_init (cluster_run kv_cluster_later kv_cluster).
Definition kv_server_of (c : Cluster Op KVServer) (i : Z) : KVServer * nat :=
  default (kv_fresh, 0%nat) (replicas c !! i).

Lemma kv_cluster_reachable : cluster_reachable 3 kv_cluster.
Proof. exists (λ i, i), 0, kv_cluster_events. by vm_compute. Qed.

Lemma kv_replicas_agree_witness :
  db (kv_server_of kv_cluster 1).1 !! "x"%string = Some "1"%string ∧
  db (kv_server_of kv_cluster' 0).1 !! "x"%string = Some "12"%string ∧
  ∃ ops ops', (ops `prefix_of` ops' ∨ ops' `prefix_of` ops) ∧
    db (kv_server_of kv_cluster 1).1 = (kv_spec ops).1 ∧ db (kv_server_of kv_cluster' 0).1 = (kv_spec ops').1.
Proof.
  split; [by vm_compute|]. split; [by vm_compute|].
  destruct (kv_replicas_agree 100 3 kv_cluster kv_cluster_later kv_cluster' 1 0
    (kv_server_of kv_cluster 1).1 (kv_server_of kv_cluster' 0).1
    (kv_server_of kv_cluster 1).2 (kv_server_of kv_cluster' 0).2) as (ops & ops' & Hpre & Hd & _ & Hd' & _).
  - apply kv_cluster_reachable.
  - by vm_compute.
  - by vm_compute.
  - by vm_compute.
  - exists ops, ops'. split; [exact Hpre|]. split; [exact Hd|exact Hd'].
Defined.
End cluster_example.
