(* ===== verification/KvHarness.v ===== *)
(** * kvraft and shardctrler: the test harness

    Models [src/src/kvraft/config.go] and [src/src/shardctrler/config.go], whose functions
    on servers, connections and clerks are the same: servers are shut down and started,
    connected to and cut off from lists of servers, and split into two partitions of which
    the smaller one has the leader.  The section is over the servers of either package;
    [ServiceHarness] instantiates it.

    A clerk is a pointer, the number of clerks made before it.  [cfg.mu] is not modelled,
    for the reasons given in [RaftHarness]. *)
From Stdlib Require Import Init.Byte.
From stdpp Require Import pretty.
From S2P Require Import Prelude LabGob LabRpc Raft RaftNode Harness.

(** [random_handles]: [rnd i] is what [rand.Intn(i + 1)] returned. *)
Definition random_handles {A} (kvh : list A) (rnd : Z → Z) : outcome (list A) :=
  ofold (λ sa i,
    let j := rnd i in
    x ← slice_get sa j;
    y ← slice_get sa i;
    sa ← slice_set sa i x;
    slice_set sa j y) kvh (zrange (len kvh)).

(** The handles of a clerk are those of the servers, in some order. *)
Lemma random_handles_perm {A} (kvh : list A) rnd :
  (∀ i, 0 ≤ i < len kvh → 0 ≤ rnd i ≤ i) → ∃ sa, random_handles kvh rnd = Ret sa ∧ sa ≡ₚ kvh.
Proof.
  intros Hrnd. apply (ofold_total (λ sa, sa ≡ₚ kvh)); [|done]. intros sa i Hi%elem_of_zrange Hsa.
  assert (len sa = len kvh) as Hlen by (unfold len; by rewrite Hsa). pose proof (Hrnd i Hi) as Hr.
  destruct (slice_get_ok sa (rnd i)) as (x & Hx & Hx'); [lia|]. destruct (slice_get_ok sa i) as (y & Hy & Hy'); [lia|].
  cbv beta zeta. rewrite Hx, bind_Ret, Hy, bind_Ret, slice_set_ok, bind_Ret by lia. rewrite slice_set_ok by (rewrite len_insert; lia).
  eexists. split; [done|]. rewrite <-Hsa. apply zlookup_Some in Hx' as [_ Hx'], Hy' as [_ Hy'].
  by apply Permutation_insert_swap.
Qed.

(** ** Splitting the servers *)

(** [make_partition], after the call of [Leader]. *)
Definition split_servers (n l : Z) : outcome (list Z * list Z) :=
  let p1 := replicate (Z.to_nat (n / 2 + 1)) 0 in
  let p2 := replicate (Z.to_nat (n / 2)) 0 in
  '(p1, p2, _) ← ofold (λ '(p1, p2, j) i,
      if negb (i =? l) then
        if j <? len p1 then p1 ← slice_set p1 j i; Ret (p1, p2, j + 1)
        else p2 ← slice_set p2 (j - len p1) i; Ret (p1, p2, j + 1)
      else Ret (p1, p2, j)) (p1, p2, 0) (zrange n);
  p2 ← slice_set p2 (len p2 - 1) l;
  Ret (p1, p2).

(** A slice of [k] elements whose first are set. *)
Definition pad (k : nat) (l : list Z) : list Z := l ++ replicate (k - length l) 0.

Lemma pad_len k l : (length l ≤ k)%nat → len (pad k l) = Z.of_nat k.
Proof. intros Hl. unfold pad, len. rewrite length_app, length_replicate. lia. Qed.

Lemma pad_full k l : length l = k → pad k l = l.
Proof. intros <-. unfold pad. by rewrite Nat.sub_diag, app_nil_r. Qed.

Lemma pad_set k l x : (length l < k)%nat → slice_set (pad k l) (len l) x = Ret (pad k (l ++ [x])).
Proof.
  intros Hl. rewrite slice_set_ok; [|rewrite pad_len by lia; unfold len; lia]. f_equal. unfold pad, len.
  rewrite Nat2Z.id, length_app. simpl. replace (k - length l)%nat with (S (k - (length l + 1)))%nat by lia. simpl.
  rewrite insert_app_r_alt, Nat.sub_diag by lia. simpl. by rewrite <-(assoc_L (++)).
Qed.

Lemma split_servers_odd m l :
  1 ≤ m → 0 ≤ l < 2 * m + 1 →
  ∃ p1 p2, split_servers (2 * m + 1) l = Ret (p1, p2) ∧ p1 ++ p2 ≡ₚ zrange (2 * m + 1) ∧ len p2 = m ∧ l ∈ p2.
Proof.
  intros Hm Hl. unfold split_servers. replace ((2 * m + 1) / 2) with m by (apply Z.div_unique with 1; lia).
  set (k := Z.to_nat m). replace (Z.to_nat (m + 1)) with (S k) by lia.
  set (F (seen : list Z) := filter (λ i, i ≠ l) seen).
  assert (F (zrange (2 * m + 1)) ++ [l] ≡ₚ zrange (2 * m + 1)) as Hperm.
  { apply NoDup_Permutation; [|apply NoDup_zrange|].
    - apply NoDup_app. split_and!; [apply NoDup_filter, NoDup_zrange| |apply NoDup_singleton].
      intros x [Hx _]%list_elem_of_filter ->%list_elem_of_singleton. done.
    - intros x. unfold F. rewrite elem_of_app, list_elem_of_filter, list_elem_of_singleton, elem_of_zrange.
      destruct (decide (x = l)); naive_solver lia. }
  assert (length (F (zrange (2 * m + 1))) = 2 * k)%nat as Hlen.
  { apply Permutation_length in Hperm. rewrite length_app, length_zrange in Hperm. simpl in Hperm. lia. }
  destruct (ofold_split_total (λ seen st, st = (pad (S k) (take (S k) (F seen)), pad k (drop (S k) (F seen)), len (F seen)))
    (λ '(p1, p2, j) i,
      if negb (i =? l) then
        if j <? len p1 then p1 ← slice_set p1 j i; Ret (p1, p2, j + 1)
        else p2 ← slice_set p2 (j - len p1) i; Ret (p1, p2, j + 1)
      else Ret (p1, p2, j)) (zrange (2 * m + 1)) (replicate (S k) 0, replicate k 0, 0)) as ([[p1 p2] j] & -> & [= -> -> ->]).
  - unfold pad. simpl. rewrite Nat.sub_0_r. done.
  - intros seen x rest st Hz ->. assert (F (seen ++ [x]) = F seen ++ (if decide (x ≠ l) then [x] else [])) as HF
      by (unfold F; rewrite filter_app; f_equal; by rewrite filter_cons).
    assert (length (F (seen ++ [x])) ≤ 2 * k)%nat as Hb.
    { rewrite <-Hlen, Hz. unfold F. rewrite !filter_app, !length_app. rewrite (filter_cons _ x rest), (filter_cons _ x []).
      destruct (decide (x ≠ l)); simpl; lia. }
    rewrite HF in *. destruct (Z.eqb_spec x l) as [->|Hx]; simpl.
    { rewrite decide_False by auto. rewrite app_nil_r. by eexists. }
    rewrite decide_True in * by done. rewrite length_app in Hb. simpl in Hb. rewrite pad_len by (rewrite length_take; lia).
    rewrite len_app. change (len [x]) with 1. destruct (Z.ltb_spec (len (F seen)) (Z.of_nat (S k))) as [Hj|Hj]; unfold len in Hj.
    + rewrite !take_ge, !drop_ge by (rewrite ?length_app; simpl; lia). rewrite pad_set by lia. rewrite bind_Ret. by eexists.
    + rewrite take_app_le, drop_app_le by lia.
      replace (len (F seen) - Z.of_nat (S k)) with (len (drop (S k) (F seen))) by (unfold len; rewrite length_drop; lia).
      rewrite pad_set by (rewrite length_drop; lia). rewrite bind_Ret. by eexists.
  - rewrite bind_Ret. set (G := F (zrange (2 * m + 1))) in *. rewrite pad_len by (rewrite length_drop; lia).
    replace (Z.of_nat k - 1) with (len (drop (S k) G)) by (unfold len; rewrite length_drop; lia).
    rewrite pad_set by (rewrite length_drop; lia). rewrite bind_Ret. rewrite !pad_full.
    + eexists _, _. split_and!; [done| | |].
      * rewrite (assoc_L (++)), take_drop. done.
      * rewrite len_app. unfold len. rewrite length_drop. simpl. lia.
      * rewrite elem_of_app, list_elem_of_singleton. by right.
    + rewrite length_app, length_drop. simpl. lia.
    + rewrite length_take. lia.
Qed.

Section kv_harness.
Context {K E : Type} `{Hosted K E}.

Record config := mkConfig {
  hs : harness K;
  clerks : gmap Z (list string);
  made : Z;                      (* clerks made so far *)
  nextClientId : Z;
  start : Z;
  rpcs0 : Z;
  ops : Z;
}.

Definition eta_config (cfg : config) : config :=
  mkConfig (hs cfg) (clerks cfg) (made cfg) (nextClientId cfg) (start cfg) (rpcs0 cfg) (ops cfg).

#[global] Instance set_kv_hs : Setter hs := λ f x, ltac:(solve_setter eta_config hs f x).
#[global] Instance set_clerks : Setter clerks := λ f x, ltac:(solve_setter eta_config clerks f x).
#[global] Instance set_made : Setter made := λ f x, ltac:(solve_setter eta_config made f x).
#[global] Instance set_nextClientId : Setter nextClientId := λ f x, ltac:(solve_setter eta_config nextClientId f x).
#[global] Instance set_kv_rpcs0 : Setter rpcs0 := λ f x, ltac:(solve_setter eta_config rpcs0 f x).
#[global] Instance set_ops : Setter ops := λ f x, ltac:(solve_setter eta_config ops f x).

Implicit Types (cfg : config) (h : harness K).

Definition on_slots (f : harness K → outcome (harness K)) cfg : outcome config :=
  h ← f (hs cfg); Ret (cfg <| hs := h |>).

(** ** Sizes *)

Definition largest (size : Persister → Z) cfg : outcome Z :=
  ofold (λ big i,
    p ← slice_get (saved (hs cfg)) i;
    match p with
    | Some p => ps ← slice_get (persisters (hs cfg)) p; Ret (if size ps >? big then size ps else big)
    | None => Panic
    end) 0 (zrange (cfg_n (hs cfg))).

Definition LogSize : config → outcome Z := largest RaftStateSize.
Definition SnapshotSize : config → outcome Z := largest Raft.SnapshotSize.

(** ** Connections between servers *)

Definition connectUnlocked (i : Z) (to : list Z) h : outcome (harness K) :=
  h ← ofold (λ h t, set_end true i t h) h to;
  ofold (λ h t, set_end true t i h) h to.

Definition connect (i : Z) (to : list Z) : config → outcome config := on_slots (connectUnlocked i to).

(** The second loop tests the row of the position [j] in [from], not of the server. *)
Definition disconnectUnlocked (i : Z) (from : list Z) h : outcome (harness K) :=
  h ← ofold (λ h f, set_end_if false i i f h) h from;
  ofold (λ h '(j, f), set_end_if false j f i h) h (indexed from).

Definition disconnect (i : Z) (from : list Z) : config → outcome config := on_slots (disconnectUnlocked i from).

Definition All h : list Z := zrange (cfg_n h).

Definition ConnectAll : config → outcome config :=
  on_slots (λ h, ofold (λ h i, connectUnlocked i (All h) h) h (zrange (cfg_n h))).

Definition partition (p1 p2 : list Z) : config → outcome config :=
  on_slots (λ h,
    h ← ofold (λ h i, h ← disconnectUnlocked i p2 h; connectUnlocked i p1 h) h p1;
    ofold (λ h i, h ← disconnectUnlocked i p1 h; connectUnlocked i p2 h) h p2).

(** ** Clerks *)

(** [cfg.clerks[ck]] of a clerk that is not there is nil. *)
Definition clerk_ends cfg (ck : Z) : list string := default [] (clerks cfg !! ck).

Definition set_clerk (yes : bool) (ck : Z) (to : list Z) cfg : outcome config :=
  ofold (λ cfg t,
    s ← slice_get (clerk_ends cfg ck) t;
    Ret (cfg <| hs := hs cfg <| cfg_net := Enable (cfg_net (hs cfg)) (NStr s) yes |> |>)) cfg to.

Definition ConnectClientUnlocked : Z → list Z → config → outcome config := set_clerk true.
Definition ConnectClient : Z → list Z → config → outcome config := ConnectClientUnlocked.
Definition DisconnectClientUnlocked : Z → list Z → config → outcome config := set_clerk false.
Definition DisconnectClient : Z → list Z → config → outcome config := DisconnectClientUnlocked.

(** The new clerk, with the numbers of the servers in the order of its handles. *)
Definition makeClient (to : list Z) (names : Z → string) (rnd : Z → Z) cfg : outcome (config * (Z * list Z)) :=
  let servers := zrange (cfg_n (hs cfg)) in
  rn ← make_ends names NInt servers (cfg_net (hs cfg));
  handles ← random_handles servers rnd;
  let ck := made cfg in
  let cfg := cfg <| hs := hs cfg <| cfg_net := rn |> |> <| made := made cfg + 1 |>
                 <| clerks := <[ck := names <$> servers]> (clerks cfg) |>
                 <| nextClientId := nextClientId cfg + 1 |> in
  cfg ← ConnectClientUnlocked ck to cfg;
  Ret (cfg, (ck, handles)).

(** [os.Remove] finds no such files; the ends stay as they are. *)
Definition deleteClient (ck : Z) cfg : config := cfg <| clerks := delete ck (clerks cfg) |>.

(** ** Servers *)

Definition ShutdownServer (i : Z) : config → outcome config :=
  on_slots (λ h,
    h ← disconnectUnlocked i (All h) h;
    let h := h <| cfg_net := DeleteServer (cfg_net h) (NInt i) |> in
    h ← copy_saved i h;
    kill_host (E := E) i h).

Definition StartServer (i : Z) (names : Z → string) (env : E) : config → outcome config :=
  on_slots (λ h,
    h ← fresh_ends i names h;
    h ← (p ← slice_get (saved h) i;
         match p with Some _ => copy_saved i h | None => new_saved i MakePersister h end);
    launch i names env h).

(** [GetState] of the Raft of a server. *)
Definition is_leader (a : Z) h : outcome bool :=
  inst ← slice_get (instances h) a; Ret (host_state (E := E) (in_state inst)).2.

(** kvraft's [Leader] dereferences the pointer of a server that is not there. *)
Definition Leader h : outcome (bool * Z) :=
  ofold (λ (found : bool * Z) i,
    if found.1 then Ret found
    else
      a ← slice_get (host h) i;
      match a with
      | Some a => l ← is_leader a h; Ret (if (l : bool) then (true, i) else found)
      | None => Panic
      end) (false, 0) (zrange (cfg_n h)).

(** shardctrler's skips it. *)
Definition Leader_skip h : outcome (bool * Z) :=
  ofold (λ (found : bool * Z) i,
    if found.1 then Ret found
    else
      a ← slice_get (host h) i;
      match a with
      | Some a => l ← is_leader a h; Ret (if (l : bool) then (true, i) else found)
      | None => Ret found
      end) (false, 0) (zrange (cfg_n h)).

Definition make_partition (leader : harness K → outcome (bool * Z)) cfg : outcome (list Z * list Z) :=
  '(_, l) ← leader (hs cfg);
  split_servers (cfg_n (hs cfg)) l.

(** ** Setting up *)

Definition make_config (n : Z) (unreliable : bool) (now : Z) (names : Z → Z → string) (envs : Z → E) : outcome config :=
  let cfg := mkConfig (make_slots n) ∅ 0 (n + 1000) now 0 0 in
  cfg ← ofold (λ cfg i, StartServer i (names i) (envs i) cfg) cfg (zrange n);
  cfg ← ConnectAll cfg;
  Ret (cfg <| hs := hs cfg <| cfg_net := Reliable (cfg_net (hs cfg)) (negb unreliable) |> |>).

(** [failed] is [cfg.t.Failed()]. *)
Definition checkTimeout (failed : bool) (now : Z) cfg : outcome unit :=
  if negb failed && (now - start cfg >? 120 * (1000 * Millisecond)) then Panic else Ret tt.

Definition cleanup (failed : bool) (now : Z) cfg : outcome config :=
  h ← kill_all (E := E) (hs cfg);
  rn ← Cleanup (cfg_net h);
  let cfg := cfg <| hs := h <| cfg_net := rn |> |> in
  _ ← checkTimeout failed now cfg;
  Ret cfg.

Definition rpcTotal cfg : Z := GetTotalCount (cfg_net (hs cfg)).
Definition begin cfg : config := cfg <| rpcs0 := rpcTotal cfg |> <| ops := 0 |>.
Definition op cfg : config := cfg <| ops := wrap 32 (ops cfg + 1) |>.

(** What [end] prints: peers, calls, operations. *)
Definition end_ (failed : bool) (now : Z) cfg : outcome (option (Z * Z * Z)) :=
  _ ← checkTimeout failed now cfg;
  Ret (if failed then None else Some (cfg_n (hs cfg), rpcTotal cfg - rpcs0 cfg, ops cfg)).

(** ** The harness with its servers *)

(** A server is started only after it was shut down, and servers are connected only while
    all of them run, as in the tests. *)
Inductive KvEvent :=
| KStart (i : Z) (names : Z → string) (env : E)
| KShutdown (i : Z)
| KConnect (i : Z) (to : list Z) | KDisconnect (i : Z) (from : list Z)
| KConnectAll | KPartition (p1 p2 : list Z)
| KMakeClient (to : list Z) (names : Z → string) (rnd : Z → Z) | KDeleteClient (ck : Z)
| KConnectClient (ck : Z) (to : list Z) | KDisconnectClient (ck : Z) (from : list Z)
| KServer (a : Z) (k : K) (ps : Persister).

Definition runs_all h : bool := forallb (λ a, bool_decide (is_Some a)) (host h).

Definition kv_exec (e : KvEvent) cfg : outcome config :=
  match e with
  | KStart i names env => if decide (host_at (hs cfg) i = None) then StartServer i names env cfg else Panic
  | KShutdown i => ShutdownServer i cfg
  | KConnect i to => if runs_all (hs cfg) then connect i to cfg else Panic
  | KDisconnect i from => disconnect i from cfg
  | KConnectAll => if runs_all (hs cfg) then ConnectAll cfg else Panic
  | KPartition p1 p2 => if runs_all (hs cfg) then partition p1 p2 cfg else Panic
  | KMakeClient to names rnd => '(cfg, _) ← makeClient to names rnd cfg; Ret cfg
  | KDeleteClient ck => Ret (deleteClient ck cfg)
  | KConnectClient ck to => ConnectClient ck to cfg
  | KDisconnectClient ck from => DisconnectClient ck from cfg
  | KServer a k ps => on_slots (server_step a k ps) cfg
  end.

Definition kv_harness_reachable (n : Z) cfg : Prop :=
  ∃ unreliable now names envs cfg0 es,
    make_config n unreliable now names envs = Ret cfg0 ∧ ofold (λ cfg e, kv_exec e cfg) cfg0 es = Ret cfg.

(** *** Connections while all servers run *)

Lemma both_ways X P yes i l h :
  slots_ok X h → all_running h → wired h P → 0 ≤ i < cfg_n h → (∀ j, j ∈ l → 0 ≤ j < cfg_n h) →
  ∃ h1 h2, set_ends yes ((λ t, (i, t)) <$> l) h = Ret h1 ∧ set_ends yes ((λ t, (t, i)) <$> l) h1 = Ret h2 ∧
    endnames h1 = endnames h ∧ slots_ok X h2 ∧ same_slots h h2 ∧
    wired h2 (λ x y, if decide ((x = i ∧ y ∈ l) ∨ (y = i ∧ x ∈ l)) then yes else P x y) ∧
    (∀ s, s ∈ X → is_enabled (cfg_net h2) (NStr s) = is_enabled (cfg_net h) (NStr s)).
Proof.
  intros Hok Hr Hw Hi Hl.
  destruct (set_ends_running X P yes ((λ t, (i, t)) <$> l) h Hok Hr Hw) as (h1 & H1 & Hok1 & Hs1 & Hw1 & Hx1).
  { intros x y (t & [= -> ->] & Ht)%list_elem_of_fmap. split; [done|by apply Hl]. }
  destruct (set_ends_running X _ yes ((λ t, (t, i)) <$> l) h1 Hok1 (all_running_same _ _ Hs1 Hr) Hw1)
    as (h2 & H2 & Hok2 & Hs2 & Hw2 & Hx2).
  { intros x y (t & [= -> ->] & Ht)%list_elem_of_fmap. rewrite (ss_n _ _ Hs1). split; [by apply Hl|done]. }
  exists h1, h2. split_and!; try done; [by apply ss_endnames|by etrans| |intros s Hs; by rewrite Hx2, Hx1].
  eapply wired_ext; [|exact Hw2]. intros x y. simpl.
  assert ((x, y) ∈ (λ t, (t, i)) <$> l ↔ y = i ∧ x ∈ l) as E2 by (rewrite list_elem_of_fmap; naive_solver).
  assert ((x, y) ∈ (λ t, (i, t)) <$> l ↔ x = i ∧ y ∈ l) as E1 by (rewrite list_elem_of_fmap; naive_solver).
  clear -E1 E2. repeat case_decide; try done; exfalso; tauto.
Qed.

Lemma connectUnlocked_running X P i to h :
  slots_ok X h → all_running h → wired h P → 0 ≤ i < cfg_n h → (∀ j, j ∈ to → 0 ≤ j < cfg_n h) →
  ∃ h', connectUnlocked i to h = Ret h' ∧ slots_ok X h' ∧ same_slots h h' ∧
    wired h' (λ x y, if decide ((x = i ∧ y ∈ to) ∨ (y = i ∧ x ∈ to)) then true else P x y) ∧
    (∀ s, s ∈ X → is_enabled (cfg_net h') (NStr s) = is_enabled (cfg_net h) (NStr s)).
Proof.
  intros Hok Hr Hw Hi Hto. destruct (both_ways X P true i to h Hok Hr Hw Hi Hto) as (h1 & h2 & H1 & H2 & _ & H').
  exists h2. split; [|done]. unfold connectUnlocked. unfold set_ends in H1, H2. rewrite ofold_fmap in H1, H2. rewrite H1. exact H2.
Qed.

Lemma disconnectUnlocked_running X P i from h :
  slots_ok X h → all_running h → wired h P → 0 ≤ i < cfg_n h → (∀ j, j ∈ from → 0 ≤ j < cfg_n h) → len from ≤ cfg_n h →
  ∃ h', disconnectUnlocked i from h = Ret h' ∧ slots_ok X h' ∧ same_slots h h' ∧
    wired h' (λ x y, if decide ((x = i ∧ y ∈ from) ∨ (y = i ∧ x ∈ from)) then false else P x y) ∧
    (∀ s, s ∈ X → is_enabled (cfg_net h') (NStr s) = is_enabled (cfg_net h) (NStr s)).
Proof.
  intros Hok Hr Hw Hi Hfrom Hlen. pose proof (so_rows _ _ Hok) as Hrows.
  assert (∀ k, 0 ≤ k < cfg_n h → row_at (endnames h) k = true) as Hrow by (intros k Hk; eapply running_row; [done|by apply Hr]).
  destruct (both_ways X P false i from h Hok Hr Hw Hi Hfrom) as (h1 & h2 & H1 & H2 & He & H').
  exists h2. split; [|done].
  assert (∀ k ij, (k, ij) ∈ (λ '(j, f), (j, (f, i))) <$> indexed from → 0 ≤ k < cfg_n h) as Hk.
  { intros k ij ([j f] & [= -> ->] & Hjf%elem_of_indexed)%list_elem_of_fmap. apply zlookup_bounds in Hjf. lia. }
  assert (set_ends_if false ((λ f, (i, (i, f))) <$> from) h = Ret h1) as H1'.
  { rewrite (set_ends_if_filter _ _ (endnames h)); [|done|intros k ij (t & [= -> ->] & Ht)%list_elem_of_fmap; lia].
    rewrite filter_all; [by rewrite <-list_fmap_compose|]. intros [k ij] (t & [= -> ->] & Ht)%list_elem_of_fmap. by apply Hrow. }
  assert (set_ends_if false ((λ '(j, f), (j, (f, i))) <$> indexed from) h1 = Ret h2) as H2'.
  { rewrite (set_ends_if_filter _ _ (endnames h)); [|done|intros k ij ?%Hk; lia].
    rewrite filter_all; [|intros [k ij] Hin; by eapply Hrow, Hk].
    assert (((λ '(j, f), (j, (f, i))) <$> indexed from).*2 = (λ t, (t, i)) <$> from) as ->; [|exact H2].
    rewrite <-(snd_indexed from) at 2. rewrite <-!list_fmap_compose. by apply list_fmap_ext; intros _ [j f] _. }
  unfold disconnectUnlocked. unfold set_ends_if in H1', H2'. rewrite ofold_fmap in H1'. rewrite ofold_fmap in H2'. rewrite H1'. rewrite <-H2'.
  rewrite bind_Ret. apply ofold_ext. by intros h' [j f].
Qed.

(** One side of [partition]: each of its servers is cut off from the other side and
    connected to its own. *)
Lemma side_running X P (p q : list Z) h :
  slots_ok X h → all_running h → wired h P → (∀ j, j ∈ p → 0 ≤ j < cfg_n h) → (∀ j, j ∈ q → 0 ≤ j < cfg_n h) →
  (∀ j, j ∈ p → j ∉ q) → len q ≤ cfg_n h →
  ∃ h' P', ofold (λ h i, h ← disconnectUnlocked i q h; connectUnlocked i p h) h p = Ret h' ∧
    slots_ok X h' ∧ same_slots h h' ∧ wired h' P' ∧
    (∀ s, s ∈ X → is_enabled (cfg_net h') (NStr s) = is_enabled (cfg_net h) (NStr s)) ∧
    (∀ x y, P' x y = if decide (x ∈ p ∧ y ∈ p) then true
                     else if decide ((x ∈ p ∧ y ∈ q) ∨ (x ∈ q ∧ y ∈ p)) then false else P x y).
Proof.
  intros Hok Hr Hw Hp Hq Hpq Hlen.
  destruct (ofold_prefix_total (λ seen h', slots_ok X h' ∧ same_slots h h' ∧ (∀ z, z ∈ seen → z ∈ p) ∧
      (∀ s, s ∈ X → is_enabled (cfg_net h') (NStr s) = is_enabled (cfg_net h) (NStr s)) ∧
      wired h' (λ x y, if decide ((x ∈ seen ∧ y ∈ p) ∨ (y ∈ seen ∧ x ∈ p)) then true
                       else if decide ((x ∈ seen ∧ y ∈ q) ∨ (x ∈ q ∧ y ∈ seen)) then false else P x y))
    (λ h i, h ← disconnectUnlocked i q h; connectUnlocked i p h) p h) as (h' & Hh' & Hok' & Hs' & _ & Hx' & Hw').
  - split_and!; try done; [by intros z ?%elem_of_nil|]. eapply wired_ext; [|exact Hw]. intros x y. rewrite !decide_False; set_solver.
  - intros seen i h1 Hi (Hok1 & Hs1 & Hsub & Hx1 & Hw1).
    pose proof (ss_n _ _ Hs1) as Hn1.
    destruct (disconnectUnlocked_running X _ i q h1 Hok1 (all_running_same _ _ Hs1 Hr) Hw1) as (h2 & H2 & Hok2 & Hs2 & Hw2 & Hx2);
      rewrite ?Hn1; [by apply Hp|done|done|].
    pose proof (ss_n _ _ Hs2) as Hn2.
    destruct (connectUnlocked_running X _ i p h2 Hok2 (all_running_same _ _ Hs2 (all_running_same _ _ Hs1 Hr)) Hw2) as (h3 & H3 & Hok3 & Hs3 & Hw3 & Hx3);
      rewrite ?Hn2, ?Hn1; [by apply Hp|done|].
    exists h3. rewrite H2. split; [exact H3|]. split_and!; [done|by do 2 (etrans; [done|])|intros z [?| ->%list_elem_of_singleton]%elem_of_app; auto|intros s Hs; by rewrite Hx3, Hx2, Hx1|].
    eapply wired_ext; [|exact Hw3]. intros x y. simpl.
    assert (∀ z, z ∈ seen ++ [i] ↔ z ∈ seen ∨ z = i) as Hsn by (intros z; rewrite elem_of_app, list_elem_of_singleton; done).
    assert (∀ z, z = i → z ∈ p) as Hip by (by intros z ->). pose proof (Hsn x) as A1. pose proof (Hsn y) as A2.
    pose proof (Hip x) as A3. pose proof (Hip y) as A4. pose proof (Hpq x) as A5. pose proof (Hpq y) as A6.
    pose proof (Hsub x) as A7. pose proof (Hsub y) as A8. clear -A1 A2 A3 A4 A5 A6 A7 A8. repeat case_decide; try done; exfalso; tauto.
  - exists h', (λ x y, if decide (x ∈ p ∧ y ∈ p) then true
                       else if decide ((x ∈ p ∧ y ∈ q) ∨ (x ∈ q ∧ y ∈ p)) then false else P x y).
    split_and!; try done. eapply wired_ext; [|exact Hw']. intros x y. simpl. clear. repeat case_decide; try done; exfalso; tauto.
Qed.

(** Two sides that are all servers: calls pass exactly within a side. *)
Lemma partition_running X P p1 p2 cfg :
  slots_ok X (hs cfg) → all_running (hs cfg) → wired (hs cfg) P → p1 ++ p2 ≡ₚ zrange (cfg_n (hs cfg)) →
  ∃ h', partition p1 p2 cfg = Ret (cfg <| hs := h' |>) ∧ slots_ok X h' ∧ same_slots (hs cfg) h' ∧
    wired h' (λ x y, bool_decide (x ∈ p1 ↔ y ∈ p1)) ∧
    (∀ s, s ∈ X → is_enabled (cfg_net h') (NStr s) = is_enabled (cfg_net (hs cfg)) (NStr s)).
Proof.
  intros Hok Hr Hw Hp. assert (∀ j, j ∈ p1 ∨ j ∈ p2 ↔ 0 ≤ j < cfg_n (hs cfg)) as Hin.
  { intros j. rewrite <-elem_of_app, Hp. apply elem_of_zrange. }
  assert (NoDup (p1 ++ p2)) as (_ & Hdisj & _)%NoDup_app by (rewrite Hp; apply NoDup_zrange).
  assert (len p1 + len p2 = cfg_n (hs cfg)) as Hlen.
  { pose proof (so_host _ _ Hok). pose proof (len_nonneg (host (hs cfg))).
    apply Permutation_length in Hp. rewrite length_app, length_zrange in Hp. unfold len. lia. }
  pose proof (len_nonneg p1) as Hl1. pose proof (len_nonneg p2) as Hl2.
  destruct (side_running X P p1 p2 (hs cfg)) as (h1 & P1 & H1 & Hok1 & Hs1 & Hw1 & Hx1 & HP1); try done; [naive_solver..|lia|].
  pose proof (ss_n _ _ Hs1) as Hn1.
  destruct (side_running X P1 p2 p1 h1) as (h2 & P2 & H2 & Hok2 & Hs2 & Hw2 & Hx2 & HP2); try done.
  - by eapply all_running_same.
  - rewrite Hn1. naive_solver.
  - rewrite Hn1. naive_solver.
  - intros j Hj Hj'. by eapply Hdisj.
  - lia.
  - exists h2. split_and!; [|done|by etrans| |intros s Hs; by rewrite Hx2, Hx1].
    + unfold partition, on_slots. rewrite H1, bind_Ret, H2. done.
    + eapply wired_ext_running; [done| |exact Hw2]. rewrite (ss_n _ _ Hs2), Hn1. intros x y _ Hx%Hin Hy%Hin. rewrite HP2, HP1.
      pose proof (Hdisj x) as Dx. pose proof (Hdisj y) as Dy. clear -Hx Hy Dx Dy.
      case_bool_decide as Hb; repeat case_decide; try done; exfalso; tauto.
Qed.

(** *** The invariant of the harness *)

Definition keeps_slots (f : harness K → outcome (harness K)) : Prop :=
  ∀ X h h', slots_ok X h → all_running h → f h = Ret h' → slots_ok X h' ∧ same_slots h h' ∧ ends (cfg_net h') = ends (cfg_net h).

Lemma set_end_if_false X k i j h h' :
  slots_ok X h → set_end_if false k i j h = Ret h' → slots_ok X h' ∧ same_slots h h' ∧ ends (cfg_net h') = ends (cfg_net h).
Proof.
  intros Hok (row & _ & Hs)%outcome_bind_Ret. destruct row; [|by injection Hs as <-].
  split_and!; [by eapply set_end_ok; [exact Hok| |exact Hs]|by eapply set_end_same|]. by apply set_end_Ret in Hs as (? & ? & _ & _ & ->).
Qed.

Lemma disconnectUnlocked_keeps X i from h h' :
  slots_ok X h → disconnectUnlocked i from h = Ret h' → slots_ok X h' ∧ same_slots h h' ∧ ends (cfg_net h') = ends (cfg_net h).
Proof.
  intros Hok (h1 & H1 & H2)%outcome_bind_Ret.
  assert (∀ h0 k a b h1, (slots_ok X h0 ∧ same_slots h h0 ∧ ends (cfg_net h0) = ends (cfg_net h)) → set_end_if false k a b h0 = Ret h1 →
    slots_ok X h1 ∧ same_slots h h1 ∧ ends (cfg_net h1) = ends (cfg_net h)) as Hstep.
  { intros h0 k a b h2 (Hok0 & Hs0 & He0) Hs. destruct (set_end_if_false _ _ _ _ _ _ Hok0 Hs) as (? & ? & ?).
    split_and!; [done|by etrans|congruence]. }
  apply (ofold_inv (λ h0, slots_ok X h0 ∧ same_slots h h0 ∧ ends (cfg_net h0) = ends (cfg_net h))) in H1; [|intros h0 f h2 _ Hh0 Hs; by eapply Hstep|done].
  apply (ofold_inv (λ h0, slots_ok X h0 ∧ same_slots h h0 ∧ ends (cfg_net h0) = ends (cfg_net h))) in H2; [done|intros h0 [j f] h2 _ Hh0 Hs; by eapply Hstep|done].
Qed.

Lemma connectUnlocked_keeps i to : keeps_slots (connectUnlocked i to).
Proof.
  intros X h h' Hok Hr (h1 & H1 & H2)%outcome_bind_Ret.
  assert (∀ h0 a b h1, (slots_ok X h0 ∧ same_slots h h0 ∧ ends (cfg_net h0) = ends (cfg_net h)) → set_end true a b h0 = Ret h1 →
    slots_ok X h1 ∧ same_slots h h1 ∧ ends (cfg_net h1) = ends (cfg_net h)) as Hstep.
  { intros h0 a b h2 (Hok0 & Hs0 & He0) Hs. pose proof (set_end_same _ _ _ _ _ Hs) as Hs2.
    pose proof Hs as (row & s & Hrow & _ & Heq)%set_end_Ret. split_and!; [|by etrans|by subst h2].
    eapply set_end_ok; [done| |done]. intros _. apply zlookup_bounds in Hrow. rewrite (so_rows _ _ Hok0) in Hrow.
    by eapply all_running_same. }
  apply (ofold_inv (λ h0, slots_ok X h0 ∧ same_slots h h0 ∧ ends (cfg_net h0) = ends (cfg_net h))) in H1; [|intros h0 f h2 _ Hh0 Hs; by eapply Hstep|done].
  apply (ofold_inv (λ h0, slots_ok X h0 ∧ same_slots h h0 ∧ ends (cfg_net h0) = ends (cfg_net h))) in H2; [done|intros h0 f h2 _ Hh0 Hs; by eapply Hstep|done].
Qed.

Lemma keeps_slots_fold {A} (f : A → harness K → outcome (harness K)) l :
  (∀ x, keeps_slots (f x)) → keeps_slots (λ h, ofold (λ h x, f x h) h l).
Proof.
  intros Hf X h h' Hok Hr Hl.
  eapply (ofold_inv (λ h', slots_ok X h' ∧ same_slots h h' ∧ ends (cfg_net h') = ends (cfg_net h))) in Hl; [done| |done].
  intros h0 x h1 _ (Hok0 & Hs0 & He0) Hx. destruct (Hf x X h0 h1 Hok0 (all_running_same _ _ Hs0 Hr) Hx) as (? & ? & ?).
  split_and!; [done|by etrans|congruence].
Qed.

Lemma keeps_slots_bind f g : keeps_slots f → keeps_slots g → keeps_slots (λ h, h ← f h; g h).
Proof.
  intros Hf Hg X h h' Hok Hr (h1 & H1 & H2)%outcome_bind_Ret. destruct (Hf X h h1 Hok Hr H1) as (Hok1 & Hs1 & He1).
  destruct (Hg X h1 h' Hok1 (all_running_same _ _ Hs1 Hr) H2) as (? & ? & ?). split_and!; [done|by etrans|congruence].
Qed.

Lemma side_keeps p q : keeps_slots (λ h, ofold (λ h i, h ← disconnectUnlocked i q h; connectUnlocked i p h) h p).
Proof.
  apply (keeps_slots_fold (λ i h, h ← disconnectUnlocked i q h; connectUnlocked i p h)). intros i. apply keeps_slots_bind.
  - intros X h h' Hok _. by apply disconnectUnlocked_keeps.
  - apply connectUnlocked_keeps.
Qed.

Lemma runs_all_running X h : slots_ok X h → runs_all h = true → all_running h.
Proof.
  intros Hok Hr i Hi. unfold runs_all in Hr. rewrite forallb_forall in Hr. rewrite <-(so_host _ _ Hok) in Hi.
  apply zlookup_is_Some in Hi as [a Ha]. unfold host_at. rewrite Ha. apply zlookup_Some in Ha as [_ Ha].
  simpl. apply list_elem_of_lookup_2, list_elem_of_In, Hr, bool_decide_eq_true in Ha. by destruct Ha as [? ->].
Qed.

(** [X] are the names of all clerks made so far. *)
Definition kv_ok X cfg : Prop :=
  slots_ok X (hs cfg) ∧ others_made X (hs cfg) ∧ ∀ ck names s, clerks cfg !! ck = Some names → s ∈ names → s ∈ X.

Lemma keeps_ok f X cfg cfg' :
  keeps_slots f → kv_ok X cfg → all_running (hs cfg) → on_slots f cfg = Ret cfg' → kv_ok X cfg' ∧ same_slots (hs cfg) (hs cfg').
Proof.
  intros Hf (Hok & HX & Hc) Hr (h & Hh & [= <-])%outcome_bind_Ret. destruct (Hf X _ _ Hok Hr Hh) as (Hok' & Hs & He).
  split; [|done]. split_and!; simpl; [done| |done]. intros s Hs'. simpl. rewrite He. by apply HX.
Qed.

Lemma set_clerk_ok X yes ck to cfg cfg' :
  kv_ok X cfg → set_clerk yes ck to cfg = Ret cfg' → kv_ok X cfg' ∧ same_slots (hs cfg) (hs cfg').
Proof.
  intros Hok Hs. apply (ofold_inv (λ cfg', kv_ok X cfg' ∧ same_slots (hs cfg) (hs cfg'))) in Hs; [done| |done].
  intros c t c' _ [(Hok0 & HX0 & Hc0) Hs0] (s & Hs1 & [= <-])%outcome_bind_Ret. rewrite slice_get_Ret in Hs1. split; [|by etrans].
  split_and!; simpl; [|done|done]. apply enable_ok; [done|]. intros _. left. unfold clerk_ends in Hs1.
  destruct (clerks c !! ck) as [names|] eqn:Hck; simpl in Hs1; [|by apply zlookup_bounds in Hs1 as [? ?%Z.lt_nge]].
  eapply Hc0; [done|]. apply zlookup_Some in Hs1 as [_ Hs1]. by eapply list_elem_of_lookup_2.
Qed.

Lemma makeClient_ok X to names rnd cfg cfg' r :
  kv_ok X cfg → makeClient to names rnd cfg = Ret (cfg', r) →
  ∃ X', kv_ok X' cfg' ∧ same_slots (hs cfg) (hs cfg').
Proof.
  intros (Hok & HX & Hc) (rn & Hrn & Hm)%outcome_bind_Ret. apply outcome_bind_Ret in Hm as (hd & _ & Hm).
  apply outcome_bind_Ret in Hm as (c & Hcl & [= <- <-]). destruct (clerk_ends_ok _ _ _ _ _ _ (NoDup_zrange _) Hok HX Hrn) as [Hok1 HX1].
  apply make_ends_spec in Hrn; [|apply NoDup_zrange]. pose proof (em_servers _ _ _ _ _ Hrn) as Hsv.
  eexists. eapply set_clerk_ok in Hcl as [Hok2 Hs2].
  - split; [exact Hok2|]. etrans; [|exact Hs2]. split; simpl; done.
  - split_and!; simpl; [exact Hok1|exact HX1|]. intros ck nm s. destruct (decide (ck = made cfg)) as [->|].
    + rewrite lookup_insert_eq. intros [= <-] Hs. by apply elem_of_union_r, elem_of_list_to_set.
    + rewrite lookup_insert_ne by done. intros Hck Hs. apply elem_of_union_l. by eapply Hc.
Qed.

Lemma set_end_if_mono k i j h h' s :
  set_end_if false k i j h = Ret h' → is_enabled (cfg_net h) s = false → is_enabled (cfg_net h') s = false.
Proof.
  intros (row & _ & Hs)%outcome_bind_Ret He. destruct row; [|by injection Hs as <-].
  apply set_end_Ret in Hs as (? & t & _ & _ & ->). simpl. rewrite is_enabled_Enable. by case_decide.
Qed.

(** Cut off from all servers, a server cannot send. *)
Lemma disconnect_all_silent X i h h' a inst j s :
  slots_ok X h → disconnectUnlocked i (All h) h = Ret h' →
  host_at h i = Some a → zlookup (instances h) a = Some inst → zlookup (in_ends inst) j = Some s →
  is_enabled (cfg_net h') (NStr s) = false.
Proof.
  intros Hok (h1 & H1 & H2)%outcome_bind_Ret Ha Hinst Hs. pose proof (so_rows _ _ Hok) as Hrows.
  destruct (so_current _ _ Hok i a Ha) as (inst' & Hi' & Hme & _ & Hrow). rewrite Hinst in Hi'. injection Hi' as <-.
  destruct (so_inst _ _ Hok a inst Hinst) as (Hib & _ & Hlen). rewrite Hme in Hib. apply zlookup_bounds in Hs as Hj. rewrite Hlen in Hj.
  assert (set_ends_if false ((λ f, (i, (i, f))) <$> All h) h = Ret h1) as H1' by (unfold set_ends_if; by rewrite ofold_fmap).
  rewrite (set_ends_if_filter _ _ (endnames h)) in H1'; [|done|intros k ij (t & [= -> ->] & Ht)%list_elem_of_fmap; lia].
  rewrite filter_all in H1'.
  2: { intros [k ij] (t & [= -> ->] & Ht)%list_elem_of_fmap. eapply running_row; [done|by eexists]. }
  destruct (set_ends_spec X _ false _ _ _ Hok (linked_wired X h Hok) (λ H, match diff_false_true H with end) H1') as (_ & Hs1 & Hw1).
  apply (ofold_inv (λ h, is_enabled (cfg_net h) (NStr s) = false)) in H2; [done| |].
  - intros h0 [k f] h2 _ He Hst. by eapply set_end_if_mono.
  - unfold host_at in Ha. rewrite <-(ss_host _ _ Hs1) in Ha. rewrite <-(ss_instances _ _ Hs1) in Hinst.
    rewrite (Hw1 i j a inst s Ha Hinst Hs). simpl. rewrite decide_True; [done|]. rewrite <-list_fmap_compose.
    apply list_elem_of_fmap. exists j. split; [done|]. by apply elem_of_zrange.
Qed.

Lemma ShutdownServer_ok X i cfg cfg' :
  kv_ok X cfg → ShutdownServer i cfg = Ret cfg' →
  kv_ok X cfg' ∧ cfg_n (hs cfg') = cfg_n (hs cfg) ∧ host_at (hs cfg') i = None ∧ ∀ j, content (hs cfg') j = content (hs cfg) j.
Proof.
  intros (Hok & HX & Hc) (h & Hh & [= <-])%outcome_bind_Ret. apply outcome_bind_Ret in Hh as (h1 & H1 & (h2 & H2 & H3)%outcome_bind_Ret).
  destruct (disconnectUnlocked_keeps _ _ _ _ _ Hok H1) as (Hok1 & Hs1 & He1). simpl in *.
  assert (0 ≤ i < cfg_n h1) as Hi.
  { apply outcome_bind_Ret in H2 as (p & Hp & _). rewrite slice_get_Ret in Hp. apply zlookup_bounds in Hp.
    by rewrite <-(so_saved _ _ Hok1). }
  destruct (take_down_ok _ _ _ _ _ (DeleteServer_ok _ _ i Hok1) Hi
    ltac:(simpl; unfold server_at; simpl; by rewrite lookup_insert_eq)
    ltac:(intros a inst j s Ha Hinst Hs; change (host_at h1 i = Some a) in Ha; unfold host_at in Ha; simpl in Hinst;
          rewrite (ss_host _ _ Hs1) in Ha; rewrite (ss_instances _ _ Hs1) in Hinst;
          change (is_enabled (cfg_net h1) (NStr s) = false); exact (disconnect_all_silent X i (hs cfg) h1 a inst j s Hok H1 Ha Hinst Hs)) H2 H3)
    as (Hok2 & Hh2 & Hn2 & Hnet2 & Hc2 & _).
  split_and!; simpl; try done.
  - split_and!; simpl; [done| |done]. intros s Hs. simpl. rewrite Hnet2. simpl. rewrite He1. by apply HX.
  - rewrite Hn2. apply (ss_n _ _ Hs1).
  - intros j. rewrite Hc2. unfold content, saved_at. simpl. by rewrite (ss_saved _ _ Hs1), (ss_persisters _ _ Hs1).
Qed.

(** A started server gets what the one before it had saved. *)
Lemma StartServer_ok X i names env cfg cfg' :
  kv_ok X cfg → host_at (hs cfg) i = None → StartServer i names env cfg = Ret cfg' →
  kv_ok X cfg' ∧ cfg_n (hs cfg') = cfg_n (hs cfg) ∧ (∀ j, j ≠ i → host_at (hs cfg') j = host_at (hs cfg) j) ∧
  (∃ a p, host_at (hs cfg') i = Some a ∧ zlookup (instances (hs cfg')) a = Some (mkInstance i (names <$> zrange (cfg_n (hs cfg))) p
     (host_start (cfg_n (hs cfg)) i env (default MakePersister (content (hs cfg) i))))).
Proof.
  intros (Hok & HX & Hc) Hi (h & Hh & [= <-])%outcome_bind_Ret. apply outcome_bind_Ret in Hh as (h1 & H1 & (h2 & H2 & H3)%outcome_bind_Ret).
  destruct (fresh_ends_ok _ _ _ _ _ Hok HX Hi H1) as (Hok1 & HX1 & Hrow & Hn1 & Eh1 & Es1 & Ei1 & Ep1 & _ & _).
  assert (host_at h1 i = None) as Hh1 by (unfold host_at; by rewrite Eh1).
  destruct (restore_ok X i h1 h2 Hok1 Hh1 H2) as (Hok2 & Hci & _ & En2 & Eh2 & Ee2 & Ei2 & Enet2).
  apply launch_ok with (X := X) in H3 as (Hok3 & En3 & _ & _ & _ & Ends3 & _ & (a & q & ps & Hps & Ha & _ & Hinst) & Hho & _);
    [|done|unfold host_at; by rewrite Eh2|by eapply new_row_frame].
  rewrite Hci in Hps. injection Hps as <-.
  assert (content h1 i = content (hs cfg) i) as Hc1 by (unfold content, saved_at; by rewrite Es1, Ep1).
  split_and!; simpl.
  - split_and!; simpl; [done| |done]. intros s Hs. simpl. rewrite Ends3, Enet2. by apply HX1.
  - congruence.
  - intros j Hj. rewrite Hho by done. unfold host_at. by rewrite Eh2, Eh1.
  - exists a, q. rewrite Ha, Hinst, En2, Hn1, Hc1. done.
Qed.

Lemma ConnectAll_keeps : keeps_slots (λ h, ofold (λ h i, connectUnlocked i (All h) h) h (zrange (cfg_n h))).
Proof.
  intros X h h'. apply (keeps_slots_fold (λ i h, connectUnlocked i (All h) h)). intros i Y h1 h2. apply connectUnlocked_keeps.
Qed.

Lemma kv_exec_ok X e cfg cfg' :
  kv_ok X cfg → kv_exec e cfg = Ret cfg' → ∃ X', kv_ok X' cfg' ∧ cfg_n (hs cfg') = cfg_n (hs cfg).
Proof.
  intros Hok He. assert (∀ c, kv_ok X c ∧ same_slots (hs cfg) (hs c) → ∃ X', kv_ok X' c ∧ cfg_n (hs c) = cfg_n (hs cfg)) as Hdone.
  { intros c [? Hs]. exists X. split; [done|by apply ss_n]. }
  pose proof Hok as (Hslots & HX & Hc). destruct e; simpl in He.
  - case_decide; [|done]. exists X. by destruct (StartServer_ok _ _ _ _ _ _ Hok H0 He) as (? & ? & _).
  - exists X. by destruct (ShutdownServer_ok _ _ _ _ Hok He) as (? & ? & _).
  - destruct (runs_all (hs cfg)) eqn:Hr; [|done]. apply Hdone. eapply keeps_ok; [apply connectUnlocked_keeps|done| |done].
    by eapply runs_all_running.
  - apply outcome_bind_Ret in He as (h & Hh & [= <-]). destruct (disconnectUnlocked_keeps _ _ _ _ _ Hslots Hh) as (? & ? & He).
    apply Hdone. split; [|done]. split_and!; simpl; [done| |done]. intros s Hs. simpl. rewrite He. by apply HX.
  - destruct (runs_all (hs cfg)) eqn:Hr; [|done]. apply Hdone. eapply keeps_ok; [|done|by eapply runs_all_running|exact He].
    apply ConnectAll_keeps.
  - destruct (runs_all (hs cfg)) eqn:Hr; [|done]. apply Hdone. eapply keeps_ok; [|done|by eapply runs_all_running|exact He].
    apply keeps_slots_bind; apply side_keeps.
  - apply outcome_bind_Ret in He as ([c r] & Hm & [= <-]). destruct (makeClient_ok _ _ _ _ _ _ _ Hok Hm) as (X' & ? & Hs).
    exists X'. split; [done|by apply ss_n].
  - injection He as <-. apply Hdone. split; [|done]. split_and!; simpl; [done|done|]. intros ck' nm s [_ Hck]%lookup_delete_Some. by apply Hc with ck'.
  - apply Hdone. by eapply set_clerk_ok.
  - apply Hdone. by eapply set_clerk_ok.
  - apply outcome_bind_Ret in He as (h & Hh & [= <-]). destruct (server_step_ok _ _ _ _ _ _ Hslots Hh) as (Hok' & _ & _).
    apply outcome_bind_Ret in Hh as (inst & Ha & Hs). apply outcome_bind_Ret in Hs as (insts & Hi & (pers & Hp & [= <-])%outcome_bind_Ret).
    exists X. split; [|done]. split_and!; done.
Qed.

(** The loop that starts all servers. *)
Lemma start_all_ok m now names envs cfg :
  0 ≤ m → ofold (λ cfg i, StartServer i (names i) (envs i) cfg) (mkConfig (make_slots m) ∅ 0 (m + 1000) now 0 0) (zrange m) = Ret cfg →
  kv_ok ∅ cfg ∧ cfg_n (hs cfg) = m ∧ all_running (hs cfg).
Proof.
  intros Hm Hl.
  apply (ofold_split (λ seen c, kv_ok ∅ c ∧ cfg_n (hs c) = m ∧ ∀ i, is_Some (host_at (hs c) i) ↔ i ∈ seen)) in Hl as (Hok & Hn & Hh).
  - split_and!; [done..|]. intros i Hi. apply Hh, elem_of_zrange. by rewrite <-Hn.
  - split; [split_and!; [by apply make_slots_ok|by intros ? ?%elem_of_empty|done]|]. split; [done|].
    intros i. split; [|by intros ?%elem_of_nil]. unfold host_at. simpl. destruct (zlookup _ i) as [x|] eqn:Hx; [|by intros []].
    apply zlookup_Some in Hx as [_ Hx]. apply lookup_replicate in Hx as [-> _]. by intros [].
  - intros seen i rest c c' Hz (Hok & Hn & Hh) Hs. assert (i ∉ seen) as Hni.
    { pose proof (NoDup_zrange m) as Hnd. rewrite Hz in Hnd. apply NoDup_app in Hnd as (_ & Hd & _). intros Hin. eapply Hd; [done|by left]. }
    assert (host_at (hs c) i = None) as Hno by (apply eq_None_not_Some; by rewrite Hh).
    destruct (StartServer_ok _ _ _ _ _ _ Hok Hno Hs) as (? & ? & Ho & a & p & Ha & _). split_and!; [done|congruence|].
    intros j. rewrite elem_of_app, list_elem_of_singleton. destruct (decide (j = i)) as [->|Hj]; [rewrite Ha; split; [by right|by eexists]|].
    rewrite Ho, Hh by done. naive_solver.
Qed.

Lemma kv_make_config_ok m unreliable now names envs cfg :
  0 ≤ m → make_config m unreliable now names envs = Ret cfg → kv_ok ∅ cfg ∧ cfg_n (hs cfg) = m.
Proof.
  intros Hm (c1 & H1 & (c2 & H2 & [= <-])%outcome_bind_Ret)%outcome_bind_Ret.
  destruct (start_all_ok _ _ _ _ _ Hm H1) as (Hok & Hn & Hr).
  destruct (keeps_ok _ _ _ _ ConnectAll_keeps Hok Hr H2) as [(Hok2 & HX2 & Hc2) Hs2]. split; [|simpl; rewrite (ss_n _ _ Hs2); done].
  split_and!; simpl; [|done|done]. destruct Hok2. by split.
Qed.

Lemma kv_reachable_ok m cfg : 0 ≤ m → kv_harness_reachable m cfg → ∃ X, kv_ok X cfg ∧ cfg_n (hs cfg) = m.
Proof.
  intros Hm (unrel & now & names & envs & cfg0 & es & Hmk & Hrun). destruct (kv_make_config_ok _ _ _ _ _ _ Hm Hmk) as [Hok Hn].
  apply (ofold_inv (λ cfg, ∃ X, kv_ok X cfg ∧ cfg_n (hs cfg) = m)) in Hrun; [done| |by exists ∅].
  intros c e c' _ (X & Hc & Hcn) He. destruct (kv_exec_ok _ _ _ _ Hc He) as (X' & ? & ?). exists X'. split; [done|congruence].
Qed.

(** The server in slot [i] says that it leads. *)
Definition says_leader h (i : Z) : Prop :=
  ∃ a inst, host_at h i = Some a ∧ zlookup (instances h) a = Some inst ∧ (host_state (E := E) (in_state inst)).2 = true.

Lemma is_leader_says X h i a :
  slots_ok X h → host_at h i = Some a → ∃ lead, is_leader a h = Ret lead ∧ (lead = true ↔ says_leader h i).
Proof.
  intros Hok Ha. destruct (so_current _ _ Hok i a Ha) as (inst & Hinst & _). eexists. split.
  - unfold is_leader, slice_get. by rewrite Hinst.
  - split; [by exists a, inst|]. intros (a' & inst' & Ha' & Hinst' & ?). simplify_eq. done.
Qed.

(** Both versions of [Leader] find the same server when all run: one that says it leads,
    if there is one. *)
Lemma Leader_running X h :
  slots_ok X h → all_running h → 1 ≤ cfg_n h →
  ∃ found l, Leader h = Ret (found, l) ∧ Leader_skip h = Ret (found, l) ∧ 0 ≤ l < cfg_n h ∧
    (if found : bool then says_leader h l else ∀ i, 0 ≤ i < cfg_n h → ¬ says_leader h i).
Proof.
  intros Hok Hr Hn. assert (∀ st, 0 ≤ st.2 < cfg_n h → (st.1 = true → says_leader h st.2) → ∀ l, (∀ i, i ∈ l → 0 ≤ i < cfg_n h) →
    ∃ found l0,
      ofold (λ (found : bool * Z) i, if found.1 then Ret found else a ← slice_get (host h) i;
        match a with Some a => lead ← is_leader a h; Ret (if (lead : bool) then (true, i) else found) | None => Panic end) st l = Ret (found, l0) ∧
      ofold (λ (found : bool * Z) i, if found.1 then Ret found else a ← slice_get (host h) i;
        match a with Some a => lead ← is_leader a h; Ret (if (lead : bool) then (true, i) else found) | None => Ret found end) st l = Ret (found, l0) ∧
      0 ≤ l0 < cfg_n h ∧ (if found : bool then says_leader h l0 else st.1 = false ∧ ∀ i, i ∈ l → ¬ says_leader h i)) as Hgen.
  { intros st Hst Hs l. revert st Hst Hs. induction l as [|i l IH]; intros [b l0] Hst Hs Hl.
    { exists b, l0. split; [done|]. split; [done|]. split; [done|]. destruct b; [by apply Hs|]. split; [exact eq_refl|]. by intros i ?%not_elem_of_nil. }
    assert (∀ x, x ∈ l → 0 ≤ x < cfg_n h) as Hl' by (intros x Hx; apply Hl; by right). simpl.
    destruct b.
    { destruct (IH (true, l0) Hst Hs Hl') as ([] & l1 & H1 & H2 & H3 & H4); [by exists true, l1|by destruct H4]. }
    assert (0 ≤ i < cfg_n h) as Hi by (apply Hl; by left). destruct (Hr i Hi) as [a Ha].
    assert (slice_get (host h) i = Ret (Some a)) as ->.
    { apply slice_get_Ret. unfold host_at in Ha. by destruct (zlookup (host h) i) as [[]|]; simpl in Ha; simplify_eq. }
    destruct (is_leader_says X h i a Hok Ha) as (lead & Hlead & Hsays).
    rewrite !bind_Ret, Hlead, !bind_Ret. destruct lead.
    - destruct (IH (true, i) Hi (λ _, proj1 Hsays eq_refl) Hl') as ([] & l1 & H1 & H2 & H3 & H4); [by exists true, l1|by destruct H4].
    - destruct (IH (false, l0) Hst Hs Hl') as (found & l1 & H1 & H2 & H3 & H4). exists found, l1. split; [done|]. split; [done|]. split; [done|].
      destruct found; [done|]. destruct H4 as [? H4]. split; [done|].
      intros j [->|Hj]%elem_of_cons; [by intros ?%Hsays|by apply H4]. }
  destruct (Hgen (false, 0) ltac:(simpl; lia) ltac:(done) (zrange (cfg_n h))) as (found & l & H1 & H2 & H3 & H4);
    [by intros i ?%elem_of_zrange|].
  exists found, l. split; [done|]. split; [done|]. split; [done|]. destruct found; [done|]. destruct H4 as [_ H4]. intros i Hi. apply H4. by apply elem_of_zrange.
Qed.

(** With an odd number of servers, three or more, all running, [make_partition] and
    [partition] go through and leave two sides of which the smaller one has a server that
    says it leads, if there is one: calls pass between two servers exactly when they are on one side, and the ends
    of clerks stay as they are. *)
Theorem leader_in_minority m cfg :
  1 ≤ m → kv_harness_reachable (2 * m + 1) cfg → runs_all (hs cfg) = true →
  ∃ found l p1 p2 cfg', Leader (hs cfg) = Ret (found, l) ∧
    (if found : bool then says_leader (hs cfg) l else ∀ i, 0 ≤ i < 2 * m + 1 → ¬ says_leader (hs cfg) i) ∧
    make_partition Leader cfg = Ret (p1, p2) ∧ make_partition Leader_skip cfg = Ret (p1, p2) ∧ partition p1 p2 cfg = Ret cfg' ∧
    p1 ++ p2 ≡ₚ zrange (2 * m + 1) ∧ len p2 = m ∧ l ∈ p2 ∧
    (∀ i j, 0 ≤ i < 2 * m + 1 → 0 ≤ j < 2 * m + 1 → linked (hs cfg') i j = bool_decide (i ∈ p1 ↔ j ∈ p1)) ∧
    (∀ ck names s, clerks cfg !! ck = Some names → s ∈ names →
       is_enabled (cfg_net (hs cfg')) (NStr s) = is_enabled (cfg_net (hs cfg)) (NStr s)).
Proof.
  intros Hm Hreach Hall. destruct (kv_reachable_ok (2 * m + 1) cfg ltac:(lia) Hreach) as (X & (Hok & HX & Hc) & Hn).
  pose proof (runs_all_running _ _ Hok Hall) as Hr.
  destruct (Leader_running X (hs cfg) Hok Hr) as (found & l & HL & HL' & Hl & Hlead); [lia|]. rewrite Hn in Hl, Hlead.
  destruct (split_servers_odd m l Hm Hl) as (p1 & p2 & Hsp & Hperm & Hlen & Hin).
  destruct (partition_running X _ p1 p2 cfg Hok Hr (linked_wired _ _ Hok)) as (h' & Hp & Hok' & Hs & Hw & Hx); [by rewrite Hn|].
  exists found, l, p1, p2, (cfg <| hs := h' |>). split_and!; try done.
  - unfold make_partition. rewrite HL, bind_Ret, Hn. done.
  - unfold make_partition. rewrite HL', bind_Ret, Hn. done.
  - intros i j Hi Hj. simpl. apply (wired_linked X h' (λ x y, bool_decide (x ∈ p1 ↔ y ∈ p1)) i j); [done|done| |rewrite (ss_n _ _ Hs); lia].
    unfold host_at. rewrite (ss_host _ _ Hs). apply Hr. lia.
  - intros ck names s Hck Hs'. simpl. apply Hx. by eapply Hc.
Qed.

(** A server that was shut down or replaced: its ends are disabled, it is no server of the
    network, and what it saves changes no persister in use; a started server gets what
    was saved last. *)
Theorem kv_harness_isolates m cfg :
  0 ≤ m → kv_harness_reachable m cfg →
  (∀ a inst, zlookup (instances (hs cfg)) a = Some inst → ¬ running (hs cfg) a inst →
     (∀ j s, zlookup (in_ends inst) j = Some s → is_enabled (cfg_net (hs cfg)) (NStr s) = false) ∧
     (∀ i, server_at (cfg_net (hs cfg)) (NInt i) ≠ Some a) ∧
     (∀ k ps cfg', kv_exec (KServer a k ps) cfg = Ret cfg' → ∀ i, content (hs cfg') i = content (hs cfg) i)) ∧
  (∀ i cfg', kv_exec (KShutdown i) cfg = Ret cfg' → ∀ j, content (hs cfg') j = content (hs cfg) j) ∧
  (∀ i names env cfg', kv_exec (KStart i names env) cfg = Ret cfg' →
     ∃ a inst, host_at (hs cfg') i = Some a ∧ zlookup (instances (hs cfg')) a = Some inst ∧
       in_state inst = host_start m i env (default MakePersister (content (hs cfg) i))).
Proof.
  intros Hm Hr. destruct (kv_reachable_ok m cfg Hm Hr) as (X & Hkv & Hn). pose proof Hkv as (Hok & HX & Hc). split_and!.
  - intros a inst Ha Hnr. split_and!.
    + intros j s Hs. by eapply so_old.
    + intros i Hi%(so_server _ _ Hok). apply Hnr. unfold running.
      destruct (so_current _ _ Hok i a Hi) as (inst' & Ha' & <- & _). rewrite Ha in Ha'. by injection Ha' as <-.
    + intros k ps cfg' (h & Hh & [= <-])%outcome_bind_Ret. simpl. destruct (server_step_ok _ _ _ _ _ _ Hok Hh) as (_ & _ & Hct).
      by apply (Hct inst).
  - intros i cfg' Hs. by destruct (ShutdownServer_ok _ _ _ _ Hkv Hs) as (_ & _ & _ & ?).
  - intros i names env cfg' Hs. simpl in Hs. case_decide as Hi; [|done].
    destruct (StartServer_ok _ _ _ _ _ _ Hkv Hi Hs) as (_ & _ & _ & a & p & Ha & Hinst). rewrite Hn in Hinst.
    eexists a, _. split_and!; done.
Qed.
End kv_harness.
