(* ===== verification/ShardConfig.v ===== *)
(** * shardctrler: the configuration state machine

    Models [src/src/shardctrler/configStateMachine.go] and the [Config] of
    [common.go].  A configuration assigns the [NShards] shards to replica groups.
    [Join] and [Leave] rebalance the shards; the loop of [Join] runs on fuel, which
    [join_fuel] is shown to be enough of.

    Every iteration over a Go map goes through [range], an arbitrary order, because
    each replica of the controller runs the state machine on its own. *)
From S2P Require Import Prelude.

Definition NShards : Z := 10.

Record Config := mkConfig {
  Num : Z;
  Shards : list Z;                   (* shard -> gid, an array of [NShards] *)
  Groups : gmap Z (list string);     (* gid -> servers *)
}.

Definition zeroShards : list Z := replicate (Z.to_nat NShards) 0.

Definition DefaultConfig : Config := mkConfig 0 zeroShards ∅.

(** [MemoryConfigStateMachine] is its field [Configs]. *)
Definition NewMemoryConfigStateMachine : list Config := [DefaultConfig].

Definition sort_Ints (l : list Z) : list Z := merge_sort (≤) l.

Section config.
Context {ranges : MapRange}.
Implicit Types (g : gmap Z (list Z)) (c : Config) (cf : list Config).

Definition deepCopy (groups : gmap Z (list string)) : gmap Z (list string) :=
  foldl (λ newGroups '(gid, servers), <[gid := servers]> newGroups) ∅ (range groups).

(** [Group2Shards]: gid -> the shards it holds, also for a gid that is not in
    [Groups] but holds a shard. *)
Definition Group2Shards c : gmap Z (list Z) :=
  let g := foldl (λ g '(gid, _), <[gid := []]> g) ∅ (range (Groups c)) in
  foldl (λ g '(shard, gid), <[gid := mget g gid ++ [shard]]> g) g (indexed (Shards c)).

Definition GetGIDWithMinimumShards g : Z :=
  let gids := sort_Ints (range g).*1 in
  (foldl (λ '(index, minShards) gid,
     if negb (gid =? 0) && (len (mget g gid) <? minShards)
     then (gid, len (mget g gid)) else (index, minShards))
   (-1, NShards + 1) gids).1.

Definition GetGIDWithMaximumShards g : Z :=
  if bool_decide (is_Some (g !! 0)) && negb (len (mget g 0) =? 0) then 0
  else
    let gids := sort_Ints (range g).*1 in
    (foldl (λ '(index, maxShards) gid,
       if len (mget g gid) >? maxShards
       then (gid, len (mget g gid)) else (index, maxShards))
     (-1, -1) gids).1.

(** The [for] of [Join]; [None] when the fuel runs out. *)
Fixpoint balance_loop (fuel : nat) g : option (outcome (gmap Z (list Z))) :=
  match fuel with
  | O => None
  | S fuel =>
      let source := GetGIDWithMaximumShards g in
      let target := GetGIDWithMinimumShards g in
      if negb (source =? 0) && (len (mget g source) - len (mget g target) <=? 1)
      then Some (Ret g)
      else
        match mget g source with
        | [] => Some Panic
        | s :: _ =>
            let g := <[target := mget g target ++ [s]]> g in
            balance_loop fuel (<[source := drop 1 (mget g source)]> g)
        end
  end.

(** [for gid, shards := range group2Shards { for _, shard := range shards {...} }] *)
Definition assign_shards g (newShards : list Z) : outcome (list Z) :=
  ofold (λ a '(gid, shards), ofold (λ a shard, slice_set a shard gid) a shards)
    newShards (range g).

Definition join_fuel : nat := 201.

(** [Join]: [Some (Ret cf')] is the list of configurations after the call. *)
Definition Join cf (groups : gmap Z (list string)) : option (outcome (list Config)) :=
  match last cf with
  | None => Some Panic
  | Some lastConfig =>
      let newGroups :=
        foldl (λ gs '(gid, servers),
                 match gs !! gid with Some _ => gs | None => <[gid := servers]> gs end)
          (deepCopy (Groups lastConfig)) (range groups) in
      let newConfig := mkConfig (len cf) (Shards lastConfig) newGroups in
      match balance_loop join_fuel (Group2Shards newConfig) with
      | None => None
      | Some Panic => Some Panic
      | Some (Ret group2Shards) => Some
          (newShards ← assign_shards group2Shards zeroShards;
           Ret (cf ++ [mkConfig (Num newConfig) newShards newGroups]))
      end
  end.

Definition Leave cf (gids : list Z) : outcome (list Config) :=
  match last cf with
  | None => Panic
  | Some lastConfig =>
      let newConfig := mkConfig (len cf) (Shards lastConfig) (deepCopy (Groups lastConfig)) in
      let '(newGroups, group2Shards, orphanShards) :=
        foldl (λ '(gs, g, orphans) gid,
                 (delete gid gs, delete gid g, orphans ++ mget g gid))
          (Groups newConfig, Group2Shards newConfig, []) gids in
      newShards ←
        (if 0 <? Z.of_nat (size newGroups) then
           '(newShards, group2Shards) ←
             ofold (λ '(a, g) shard,
                      let gid := GetGIDWithMinimumShards g in
                      a ← slice_set a shard gid;
                      Ret (a, <[gid := mget g gid ++ [shard]]> g))
               (zeroShards, group2Shards) orphanShards;
           assign_shards group2Shards newShards
         else Ret zeroShards);
      Ret (cf ++ [mkConfig (Num newConfig) newShards newGroups])
  end.

Definition Move cf (shard gid : Z) : outcome (list Config) :=
  match last cf with
  | None => Panic
  | Some lastConfig =>
      newShards ← slice_set (Shards lastConfig) shard gid;
      Ret (cf ++ [mkConfig (len cf) newShards (deepCopy (Groups lastConfig))])
  end.

Definition Query cf (num : Z) : outcome Config :=
  if (num <? 0) || (num >=? len cf) then slice_get cf (len cf - 1) else slice_get cf num.

(** ** Partitions of the shards *)

Definition shards_of g : list Z := mjoin (map_to_list g).*2.

Definition partition g : Prop := shards_of g ≡ₚ zrange NShards.

(** The shards a group holds in an assignment. *)
Definition holds (a : list Z) (gid : Z) : list Z :=
  (filter (λ p, p.2 = gid) (indexed a)).*1.

Lemma elem_of_holds a gid s : s ∈ holds a gid ↔ zlookup a s = Some gid.
Proof.
  unfold holds. rewrite list_elem_of_fmap. split.
  - intros ([s' x] & -> & [Hx H]%list_elem_of_filter). simpl in *. subst. by apply elem_of_indexed.
  - intros H. exists (s, gid). split; [done|]. apply list_elem_of_filter. split; [done|].
    by apply elem_of_indexed.
Qed.

Lemma NoDup_holds a gid : NoDup (holds a gid).
Proof.
  unfold holds. eapply sublist_NoDup; [|apply fmap_sublist, sublist_filter].
  rewrite fst_indexed. apply NoDup_zrange.
Qed.

Lemma mget_insert_eq g k l : mget (<[k := l]> g) k = l.
Proof. unfold mget. by rewrite lookup_insert_eq. Qed.

Lemma mget_insert_ne g k k' l : k ≠ k' → mget (<[k := l]> g) k' = mget g k'.
Proof. intros. unfold mget. by rewrite lookup_insert_ne. Qed.

Lemma mget_delete_ne g k k' : k ≠ k' → mget (delete k g) k' = mget g k'.
Proof. intros. unfold mget. by rewrite lookup_delete_ne. Qed.

Lemma shards_of_delete g k : shards_of g ≡ₚ mget g k ++ shards_of (delete k g).
Proof.
  unfold shards_of, mget. destruct (g !! k) as [l|] eqn:Hk; simpl.
  - by rewrite <-(map_to_list_delete g k l Hk).
  - by rewrite delete_id.
Qed.

Lemma shards_of_insert g k l : shards_of (<[k := l]> g) ≡ₚ l ++ shards_of (delete k g).
Proof. by rewrite (shards_of_delete _ k), mget_insert_eq, delete_insert_eq. Qed.

Lemma elem_of_shards_of g s : s ∈ shards_of g ↔ ∃ gid, s ∈ mget g gid.
Proof.
  unfold shards_of, mget. rewrite list_elem_of_join. split.
  - intros (l & Hs & ([k l'] & -> & Hk)%list_elem_of_fmap). exists k.
    apply elem_of_map_to_list in Hk. by rewrite Hk.
  - intros (k & Hs). destruct (g !! k) as [l|] eqn:Hk; simpl in Hs; [|by apply not_elem_of_nil in Hs].
    exists l. split; [done|]. apply list_elem_of_fmap. exists (k, l). split; [done|].
    by apply elem_of_map_to_list.
Qed.

(** In a partition every shard has one owner. *)
Lemma partition_owner g s : partition g → 0 ≤ s < NShards → ∃ gid, s ∈ mget g gid.
Proof. intros Hp Hs. red in Hp. apply elem_of_shards_of. rewrite Hp. by apply elem_of_zrange. Qed.

Lemma partition_bound g s gid : partition g → s ∈ mget g gid → 0 ≤ s < NShards.
Proof.
  intros Hp Hs. red in Hp. apply elem_of_zrange. rewrite <-Hp. apply elem_of_shards_of. by exists gid.
Qed.

Lemma partition_unique g s gid gid' :
  partition g → s ∈ mget g gid → s ∈ mget g gid' → gid = gid'.
Proof.
  intros Hp H1 H2. red in Hp. destruct (decide (gid = gid')) as [|Hne]; [done|exfalso].
  assert (NoDup (shards_of g)) as Hnd by (rewrite Hp; apply NoDup_zrange).
  rewrite (shards_of_delete g gid) in Hnd. apply NoDup_app in Hnd as (_ & Hd & _).
  apply (Hd s H1), elem_of_shards_of. exists gid'. by rewrite mget_delete_ne.
Qed.

Lemma partition_NoDup g gid : partition g → NoDup (mget g gid).
Proof.
  intros Hp. red in Hp. assert (NoDup (shards_of g)) as Hnd by (rewrite Hp; apply NoDup_zrange).
  rewrite (shards_of_delete g gid) in Hnd. by apply NoDup_app in Hnd as (? & _).
Qed.

Lemma shards_of_length g k : (length (mget g k) ≤ length (shards_of g))%nat.
Proof. rewrite (shards_of_delete g k), length_app. lia. Qed.

Lemma partition_len g k : partition g → len (mget g k) ≤ NShards.
Proof.
  intros Hp. red in Hp. pose proof (shards_of_length g k) as H.
  rewrite Hp, length_zrange in H. unfold len, NShards in *. lia.
Qed.

(** ** The group with the fewest and the most shards *)

Lemma sorted_keys g gid : gid ∈ sort_Ints (range g).*1 ↔ is_Some (g !! gid).
Proof.
  unfold sort_Ints. rewrite merge_sort_Permutation, range_perm.
  rewrite list_elem_of_fmap. split.
  - intros ([k l] & -> & Hk%elem_of_map_to_list). by exists l.
  - intros [l Hl]. exists (gid, l). split; [done|]. by apply elem_of_map_to_list.
Qed.

Lemma min_shards_spec g k0 :
  (∀ k, len (mget g k) ≤ NShards) → is_Some (g !! k0) → k0 ≠ 0 →
  let m := GetGIDWithMinimumShards g in
  m ≠ 0 ∧ is_Some (g !! m) ∧
  ∀ k, is_Some (g !! k) → k ≠ 0 → len (mget g m) ≤ len (mget g k).
Proof.
  intros Hlen Hk0 Hne. unfold GetGIDWithMinimumShards.
  set (gids := sort_Ints _).
  assert (k0 ∈ gids) as Hin by (by apply sorted_keys).
  pose proof (foldl_prefix (λ seen '(index, minS),
    ((∀ k, k ∈ seen → k = 0) ∧ minS = NShards + 1) ∨
    (index ≠ 0 ∧ index ∈ seen ∧ minS = len (mget g index) ∧
     ∀ k, k ∈ seen → k ≠ 0 → minS ≤ len (mget g k)))
    (λ '(index, minShards) gid,
     if negb (gid =? 0) && (len (mget g gid) <? minShards)
     then (gid, len (mget g gid)) else (index, minShards)) (-1, NShards + 1) gids) as H.
  destruct (foldl _ _ gids) as [m minS]. simpl. destruct H as [[Hall _]|(Hm & Hseen & -> & Hmin)].
  - left. split; [|done]. by intros k ?%not_elem_of_nil.
  - intros seen a [index minS'] Ha Hinv. destruct (Z.eqb_spec a 0) as [->|Ha0]; simpl.
    + destruct Hinv as [[Hall ?]|(?&?&?&Hmin)]; [left|right].
      * split; [|done]. intros k [?|?%list_elem_of_singleton]%elem_of_app; auto.
      * split_and!; try done; [set_solver|].
        intros k [?|?%list_elem_of_singleton]%elem_of_app ?; auto. congruence.
    + destruct (Z.ltb_spec (len (mget g a)) minS') as [Hlt|Hge]; right.
      * split_and!; try done; [set_solver|].
        intros k [Hk| ->%list_elem_of_singleton]%elem_of_app Hk0'; [|lia].
        destruct Hinv as [[Hall _]|(_&_&_&Hmin)]; [by apply Hall in Hk|].
        specialize (Hmin k Hk Hk0'). lia.
      * destruct Hinv as [[_ ->]|(?&?&?&Hmin)]; [specialize (Hlen a); lia|].
        split_and!; try done; [set_solver|].
        intros k [Hk| ->%list_elem_of_singleton]%elem_of_app Hk0'; [by apply Hmin|lia].
  - by apply Hall in Hin.
  - split_and!; [done|by apply sorted_keys|]. intros k Hk. apply Hmin. by apply sorted_keys.
Qed.

Lemma max_shards_spec g k0 :
  mget g 0 = [] → is_Some (g !! k0) →
  let m := GetGIDWithMaximumShards g in
  is_Some (g !! m) ∧ ∀ k, is_Some (g !! k) → len (mget g k) ≤ len (mget g m).
Proof.
  intros H0 Hk0. unfold GetGIDWithMaximumShards. rewrite H0, andb_false_r.
  set (gids := sort_Ints _).
  assert (k0 ∈ gids) as Hin by (by apply sorted_keys).
  pose proof (foldl_prefix (λ seen '(index, maxS),
    (seen = [] ∧ maxS = -1) ∨
    (index ∈ seen ∧ maxS = len (mget g index) ∧ ∀ k, k ∈ seen → len (mget g k) ≤ maxS))
    (λ '(index, maxShards) gid,
     if len (mget g gid) >? maxShards
     then (gid, len (mget g gid)) else (index, maxShards)) (-1, -1) gids) as H.
  destruct (foldl _ _ gids) as [m maxS]. simpl. destruct H as [[Hall _]|(Hseen & -> & Hmax)].
  - by left.
  - intros seen a [index maxS'] Ha Hinv. rewrite Z.gtb_ltb.
    destruct (Z.ltb_spec maxS' (len (mget g a))) as [Hlt|Hge]; right.
    + split_and!; try done; [set_solver|].
      intros k [Hk| ->%list_elem_of_singleton]%elem_of_app; [|lia].
      destruct Hinv as [[-> _]|(_&_&Hmax)]; [by apply not_elem_of_nil in Hk|].
      specialize (Hmax k Hk). lia.
    + destruct Hinv as [[_ ->]|(?&?&Hmax)]; [pose proof (len_nonneg (mget g a)); lia|].
      split_and!; try done; [set_solver|].
      intros k [Hk| ->%list_elem_of_singleton]%elem_of_app; [by apply Hmax|lia].
  - rewrite Hall in Hin. by apply not_elem_of_nil in Hin.
  - split; [by apply sorted_keys|]. intros k Hk. apply Hmax. by apply sorted_keys.
Qed.

(** ** The balancing loop *)

(** What a move of a shard decreases: a shard of group 0 weighs 20, the shards of
    another group weigh the square of their number. *)
Definition weight (p : Z * list Z) : nat :=
  if p.1 =? 0 then (20 * length p.2)%nat else (length p.2 * length p.2)%nat.

Definition measure g : nat := sum_list_with weight (map_to_list g).

Lemma sum_list_with_perm {A} (f : A → nat) (l k : list A) :
  l ≡ₚ k → sum_list_with f l = sum_list_with f k.
Proof. induction 1; simpl; lia. Qed.

Lemma measure_delete g k : measure g = (weight (k, mget g k) + measure (delete k g))%nat.
Proof.
  unfold measure, mget. destruct (g !! k) as [l|] eqn:Hk; simpl.
  - rewrite <-(sum_list_with_perm _ _ _ (map_to_list_delete g k l Hk)). done.
  - rewrite delete_id by done. unfold weight. simpl. by destruct (_ =? _).
Qed.

Lemma weights_bound (l : list (Z * list Z)) :
  (∀ p, p ∈ l → length p.2 ≤ 20)%nat →
  (sum_list_with weight l ≤ 20 * length (mjoin l.*2))%nat.
Proof.
  induction l as [|[k ss] l IH]; intros Hl; [done|]. rewrite fmap_cons.
  change (mjoin ((k, ss).2 :: l.*2)) with (ss ++ mjoin l.*2). rewrite length_app.
  assert (weight (k, ss) ≤ 20 * length ss)%nat.
  { specialize (Hl (k, ss) (list_elem_of_here _ _)). unfold weight. simpl in *.
    destruct (k =? 0); nia. }
  assert (sum_list_with weight l ≤ 20 * length (mjoin l.*2))%nat.
  { apply IH. intros p Hp. apply Hl. by right. }
  cbn [sum_list_with]. lia.
Qed.

Lemma measure_bound g : partition g → (measure g ≤ 200)%nat.
Proof.
  intros Hp. assert (measure g ≤ 20 * length (shards_of g))%nat as Hle.
  { assert (∀ k, length (mget g k) ≤ 20)%nat as Hk.
    { intros k. pose proof (partition_len g k Hp). unfold len, NShards in *. lia. }
    assert (∀ p, p ∈ map_to_list g → length p.2 ≤ 20)%nat as Hm.
    { intros [k l] Hin%elem_of_map_to_list. specialize (Hk k). unfold mget in Hk.
      by rewrite Hin in Hk. }
    by apply weights_bound. }
  red in Hp. rewrite Hp, length_zrange in Hle. unfold NShards in Hle. lia.
Qed.

(** One move of a shard from [source] to [target]. *)
Lemma move_shard g source target s tl :
  mget g source = s :: tl → source ≠ target → target ≠ 0 →
  source = 0 ∨ (length (mget g target) + 2 ≤ length (mget g source))%nat →
  partition g →
  let g' := <[source := tl]> (<[target := mget g target ++ [s]]> g) in
  partition g' ∧ (measure g' < measure g)%nat.
Proof.
  intros Hs Hne Ht0 Hlen Hp g'.
  assert (length (mget g target) + length (mget g source) ≤ 10)%nat as Htotal.
  { pose proof Hp as Hp'. red in Hp'. apply Permutation_length in Hp'.
    rewrite (shards_of_delete g source), (shards_of_delete _ target), !length_app, length_zrange in Hp'.
    rewrite mget_delete_ne in Hp' by done. unfold NShards in Hp'. lia. }
  split.
  - unfold partition, g' in *. rewrite <-Hp.
    rewrite shards_of_insert, delete_insert_ne, shards_of_insert by done.
    rewrite (shards_of_delete g source), (shards_of_delete (delete source g) target).
    rewrite mget_delete_ne, Hs by done. solve_Permutation.
  - rewrite (measure_delete g source), (measure_delete (delete source g) target).
    rewrite (measure_delete g' source), (measure_delete (delete source g') target).
    unfold g'. rewrite delete_insert_eq, delete_insert_ne, delete_insert_eq by done.
    rewrite !mget_insert_eq, mget_delete_ne, Hs by done. rewrite Hs in *.
    unfold weight. cbn [fst snd]. rewrite length_app. cbn [length] in *.
    destruct (Z.eqb_spec target 0); [done|].
    destruct (Z.eqb_spec source 0); nia.
Qed.

Definition even g : Prop :=
  ∀ k1 k2, is_Some (g !! k1) → is_Some (g !! k2) → k1 ≠ 0 → k2 ≠ 0 →
    len (mget g k1) ≤ len (mget g k2) + 1.

Lemma partition_nonempty g : partition g → ∃ gid, 0 < len (mget g gid).
Proof.
  intros Hp. destruct (partition_owner g 0 Hp) as [gid Hgid]; [done|].
  exists gid. apply len_pos. intros E. rewrite E in Hgid. by apply not_elem_of_nil in Hgid.
Qed.

Lemma mget_pos_Some g gid : 0 < len (mget g gid) → is_Some (g !! gid).
Proof. unfold mget. destruct (g !! gid); [by eexists|]. done. Qed.

(** Where the loop stands: either it stops on an even map, or it moves a shard. *)
Lemma balance_step g k0 :
  partition g → is_Some (g !! k0) → k0 ≠ 0 →
  let source := GetGIDWithMaximumShards g in
  let target := GetGIDWithMinimumShards g in
  target ≠ 0 ∧ is_Some (g !! target) ∧ is_Some (g !! source) ∧
  if negb (source =? 0) && (len (mget g source) - len (mget g target) <=? 1)
  then mget g 0 = [] ∧ even g
  else source ≠ target ∧ mget g source ≠ [] ∧
       (source = 0 ∨ (length (mget g target) + 2 ≤ length (mget g source))%nat).
Proof.
  intros Hp Hk0 Hne source target.
  destruct (min_shards_spec g k0) as (Ht0 & Ht & Hmin); [by intros; apply partition_len|done..|].
  fold target in Ht0, Ht, Hmin. split; [done|]. split; [done|].
  destruct (decide (mget g 0 = [])) as [H0|H0].
  - destruct (max_shards_spec g k0 H0 Hk0) as (Hs & Hmax). fold source in Hs, Hmax.
    split; [done|].
    destruct (partition_nonempty g Hp) as [gid Hgid].
    pose proof (Hmax gid (mget_pos_Some _ _ Hgid)) as Hpos.
    assert (source ≠ 0) as Hs0 by (intros E; rewrite E, H0 in Hpos; unfold len at 2 in Hpos; simpl in Hpos; lia).
    destruct (Z.eqb_spec source 0); [done|]. simpl.
    destruct (Z.leb_spec (len (mget g source) - len (mget g target)) 1).
    + split; [done|]. intros k1 k2 Hk1 Hk2 Hn1 Hn2.
      specialize (Hmax k1 Hk1). specialize (Hmin k2 Hk2 Hn2). lia.
    + unfold len in *. split_and!; [|intros E; rewrite E in *; simpl in *; lia|right; lia].
      intros E. rewrite E in *. lia.
  - assert (is_Some (g !! 0)) as Hz.
    { apply mget_pos_Some. by apply len_pos. }
    assert (source = 0) as E.
    { unfold source, GetGIDWithMaximumShards. rewrite bool_decide_true by done.
      apply len_pos in H0. destruct (Z.eqb_spec (len (mget g 0)) 0); [lia|done]. }
    rewrite E. split; [done|]. simpl. split_and!; [congruence|done|by left].
Qed.

Lemma balance_loop_spec (fuel : nat) g k0 :
  partition g → is_Some (g !! k0) → k0 ≠ 0 → (measure g < fuel)%nat →
  ∃ g', balance_loop fuel g = Some (Ret g') ∧ partition g' ∧ mget g' 0 = [] ∧ even g' ∧
    ∀ k, is_Some (g' !! k) ↔ is_Some (g !! k).
Proof.
  revert g. induction fuel as [|fuel IH]; intros g Hp Hk0 Hne Hm; [lia|].
  cbn [balance_loop]. cbv zeta.
  destruct (balance_step g k0 Hp Hk0 Hne) as (Ht0 & Ht & Hs & Hif).
  set (source := GetGIDWithMaximumShards g) in *. set (target := GetGIDWithMinimumShards g) in *.
  destruct (negb _ && _); [exists g; naive_solver|]. destruct Hif as (Hst & Hnil & Hlen).
  destruct (mget g source) as [|s tl] eqn:Hsrc; [done|].
  rewrite mget_insert_ne, Hsrc by done. change (drop 1 (s :: tl)) with tl.
  rewrite <-Hsrc in Hlen.
  destruct (move_shard g source target s tl Hsrc Hst Ht0 Hlen Hp) as [Hp' Hm'].
  assert (∀ k, is_Some ((<[source:=tl]> (<[target:=mget g target ++ [s]]> g)) !! k) ↔
            is_Some (g !! k)) as Hdom.
  { intros k. rewrite !lookup_insert_is_Some'. naive_solver. }
  destruct (IH (<[source:=tl]> (<[target:=mget g target ++ [s]]> g))) as (g' & Hg' & ? & ? & ? & Hd);
    [done|by apply Hdom|done|lia|].
  exists g'. rewrite <-Hg'. split_and!; try done. intros k. by rewrite Hd.
Qed.

(** ** Writing the assignment *)

Lemma set_all (a : list Z) gid shards :
  (∀ s, s ∈ shards → 0 ≤ s < len a) →
  ∃ a', ofold (λ a s, slice_set a s gid) a shards = Ret a' ∧ len a' = len a ∧
    (∀ s, s ∈ shards → zlookup a' s = Some gid) ∧
    (∀ s, s ∉ shards → zlookup a' s = zlookup a s).
Proof.
  revert a. induction shards as [|s shards IH]; intros a Hb; cbn [ofold].
  { exists a. split_and!; try done. by intros s ?%not_elem_of_nil. }
  assert (0 ≤ s < len a) as Hs by (apply Hb; left).
  rewrite slice_set_ok, bind_Ret by done.
  destruct (IH (<[Z.to_nat s := gid]> a)) as (a' & -> & Hlen & Hin & Hout).
  { intros s' Hs'. rewrite len_insert. apply Hb. by right. }
  rewrite len_insert in Hlen. exists a'. split_and!; [done|done| |].
  - intros s' [->|Hs']%elem_of_cons; [|by apply Hin].
    destruct (decide (s ∈ shards)); [by apply Hin|].
    rewrite Hout by done. by apply zlookup_insert_eq.
  - intros s' [Hne Hs']%not_elem_of_cons. rewrite Hout by done.
    by apply zlookup_insert_ne; [lia|].
Qed.

Lemma assign_groups (ps : list (Z * list Z)) (a : list Z) :
  (∀ s, s ∈ mjoin ps.*2 → 0 ≤ s < len a) → NoDup (mjoin ps.*2) →
  ∃ a', ofold (λ a '(gid, shards), ofold (λ a shard, slice_set a shard gid) a shards) a ps = Ret a' ∧
    len a' = len a ∧
    (∀ gid shards s, (gid, shards) ∈ ps → s ∈ shards → zlookup a' s = Some gid) ∧
    (∀ s, s ∉ mjoin ps.*2 → zlookup a' s = zlookup a s).
Proof.
  revert a. induction ps as [|[gid shards] ps IH]; intros a Hb Hnd; cbn [ofold].
  { exists a. split_and!; try done. by intros ??? ?%not_elem_of_nil. }
  rewrite fmap_cons in *. change (mjoin ((gid, shards).2 :: ps.*2)) with (shards ++ mjoin ps.*2) in *.
  apply NoDup_app in Hnd as (_ & Hdisj & Hnd).
  destruct (set_all a gid shards) as (a1 & -> & Hlen1 & Hin1 & Hout1).
  { intros s Hs. apply Hb. apply elem_of_app. by left. }
  rewrite bind_Ret. destruct (IH a1) as (a2 & -> & Hlen2 & Hin2 & Hout2); [|done|].
  { intros s Hs. rewrite Hlen1. apply Hb. apply elem_of_app. by right. }
  exists a2. split_and!; [done|lia| |].
  - intros gid' shards' s [[= -> ->]|Hin]%elem_of_cons Hs; [|by eapply Hin2].
    rewrite Hout2 by (by apply Hdisj). by apply Hin1.
  - intros s [H1 H2]%not_elem_of_app. rewrite Hout2, Hout1; done.
Qed.

Lemma zlookup_zero s gid : zlookup zeroShards s = Some gid → gid = 0.
Proof.
  intros [_ H]%zlookup_Some. unfold zeroShards in H.
  by apply lookup_replicate in H as [-> _].
Qed.

(** The assignment written from a partition gives every group the shards it holds. *)
Lemma assign_shards_spec g a :
  partition g → len a = NShards →
  ∃ a', assign_shards g a = Ret a' ∧ len a' = NShards ∧
    (∀ gid s, s ∈ mget g gid → zlookup a' s = Some gid) ∧
    ∀ gid, holds a' gid ≡ₚ mget g gid.
Proof.
  intros Hp Ha. unfold assign_shards.
  assert (mjoin (range g).*2 ≡ₚ zrange NShards) as Hperm.
  { unfold partition, shards_of in Hp. by rewrite range_perm. }
  destruct (assign_groups (range g) a) as (a' & Hok & Hlen & Hin & _).
  { intros s. rewrite Hperm, elem_of_zrange. by rewrite Ha. }
  { rewrite Hperm. apply NoDup_zrange. }
  assert (∀ gid s, s ∈ mget g gid → zlookup a' s = Some gid) as Hin'.
  { intros gid s Hs. unfold mget in Hs. destruct (g !! gid) as [l|] eqn:Hg; simpl in Hs;
      [|by apply not_elem_of_nil in Hs].
    apply (Hin gid l); [|done]. rewrite range_perm. by apply elem_of_map_to_list. }
  exists a'. split_and!; [done|lia|done|]. intros gid. apply NoDup_Permutation.
  - apply NoDup_holds.
  - by apply partition_NoDup.
  - intros s. rewrite elem_of_holds. split; [|by apply Hin'].
    intros Hs. pose proof (zlookup_bounds _ _ _ Hs) as Hr. rewrite Hlen, Ha in Hr.
    destruct (partition_owner g s Hp Hr) as [gid' Hs'].
    rewrite (Hin' _ _ Hs') in Hs. by simplify_eq.
Qed.

(** ** Building the map of groups *)

Lemma deepCopy_id groups : deepCopy groups = groups.
Proof.
  unfold deepCopy. rewrite foldl_insert_list by apply NoDup_range.
  by rewrite (right_id_L ∅ (∪)), list_to_map_range.
Qed.

(** The groups of [Join]: a group that exists keeps its servers. *)
Lemma join_groups_list (l : list (Z * list string)) (gs : gmap Z (list string)) :
  NoDup l.*1 →
  foldl (λ gs '(gid, servers),
           match gs !! gid with Some _ => gs | None => <[gid := servers]> gs end) gs l =
  gs ∪ list_to_map l.
Proof.
  revert gs. induction l as [|[k v] l IH]; intros gs; simpl.
  - intros _. by rewrite (right_id_L ∅ (∪)).
  - intros [Hk Hnd]%NoDup_cons. destruct (gs !! k) as [sv|] eqn:Hgs.
    + rewrite IH by done. apply map_eq. intros j. rewrite !lookup_union.
      destruct (decide (j = k)) as [->|]; [|by rewrite lookup_insert_ne].
      by rewrite Hgs, !union_Some_l.
    + rewrite IH by done. by rewrite <-insert_union_l, insert_union_r.
Qed.

Lemma join_groups (gs groups : gmap Z (list string)) :
  foldl (λ gs '(gid, servers),
           match gs !! gid with Some _ => gs | None => <[gid := servers]> gs end) gs (range groups) =
  gs ∪ groups.
Proof. rewrite join_groups_list by apply NoDup_range. by rewrite list_to_map_range. Qed.

(** [Group2Shards] by lookup: it does not depend on the order of iteration. *)
Definition keyed c gid : Prop := is_Some (Groups c !! gid) ∨ gid ∈ Shards c.

#[local] Instance keyed_dec c gid : Decision (keyed c gid).
Proof. unfold keyed. apply _. Defined.

Lemma empty_groups_lookup c k :
  foldl (λ (g : gmap Z (list Z)) '(gid, _), <[gid := []]> g) ∅ (range (Groups c)) !! k =
  if decide (is_Some (Groups c !! k)) then Some [] else None.
Proof.
  assert (k ∈ (range (Groups c)).*1 ↔ is_Some (Groups c !! k)) as Hkeys.
  { rewrite range_perm, list_elem_of_fmap. split.
    - intros ([k' v] & -> & H%elem_of_map_to_list). by exists v.
    - intros [v Hv]. exists (k, v). split; [done|]. by apply elem_of_map_to_list. }
  pose proof (foldl_prefix (λ seen (g : gmap Z (list Z)),
      g !! k = if decide (k ∈ seen.*1) then Some [] else None)
    (λ g '(gid, _), <[gid := []]> g) ∅ (range (Groups c))) as H.
  rewrite H; [by apply decide_ext|done|].
  intros seen [a v] g _ Hg. rewrite fmap_app. simpl.
  destruct (decide (a = k)) as [->|Hne].
  - rewrite lookup_insert_eq, decide_True; [done|]. set_solver.
  - rewrite lookup_insert_ne, Hg by done. apply decide_ext. set_solver.
Qed.

Lemma Group2Shards_lookup c gid :
  Group2Shards c !! gid = if decide (keyed c gid) then Some (holds (Shards c) gid) else None.
Proof.
  unfold Group2Shards. pose proof (empty_groups_lookup c) as Hg0. set (g0 := foldl _ ∅ _) in *.
  unfold holds, keyed. clearbody g0.
  pose proof (foldl_prefix (λ seen (g : gmap Z (list Z)), ∀ k, g !! k =
      if decide (is_Some (Groups c !! k) ∨ k ∈ seen.*2)
      then Some (filter (λ p, p.2 = k) seen).*1 else None)
    (λ g '(shard, gid), <[gid := mget g gid ++ [shard]]> g) g0 (indexed (Shards c))) as H.
  rewrite H.
  - by rewrite snd_indexed.
  - intros k. rewrite Hg0. simpl. apply decide_ext. set_solver.
  - clear. intros seen [s a] g _ Hg k. rewrite fmap_app, filter_app, fmap_app. simpl.
    destruct (decide (a = k)) as [->|Hne].
    + rewrite lookup_insert_eq, decide_True by set_solver. unfold mget. rewrite Hg.
      rewrite filter_cons_True by done. case_decide as Hd; [done|].
      simpl. f_equal.
      assert (filter (λ p : Z * Z, p.2 = k) seen = []) as ->; [|done].
      apply elem_of_nil_inv. intros [s' k'] [E Hin]%list_elem_of_filter. simpl in E. subst.
      apply Hd. right. apply list_elem_of_fmap. by exists (s', k).
    + rewrite lookup_insert_ne, Hg, filter_cons_False by done. simpl. rewrite app_nil_r.
      apply decide_ext. set_solver.
Qed.

Lemma Group2Shards_partition c : len (Shards c) = NShards → partition (Group2Shards c).
Proof.
  intros Hlen. unfold partition. rewrite <-Hlen, <-fst_indexed. unfold Group2Shards.
  apply (foldl_prefix (λ seen (g : gmap Z (list Z)), shards_of g ≡ₚ seen.*1)).
  - apply Permutation_nil_r, elem_of_nil_inv. intros s [gid Hs]%elem_of_shards_of. revert Hs.
    unfold mget. rewrite empty_groups_lookup.
    destruct (decide (is_Some (Groups c !! gid))); simpl; by intros ?%not_elem_of_nil.
  - intros seen [s gid] g _ Hg. rewrite shards_of_insert, fmap_app, <-Hg.
    rewrite (shards_of_delete g gid). simpl. solve_Permutation.
Qed.

Lemma Group2Shards_is_Some c gid : is_Some (Group2Shards c !! gid) ↔ keyed c gid.
Proof. rewrite Group2Shards_lookup. case_decide; split; [done|by eexists|by intros []|done]. Qed.

(** ** What a configuration promises *)

(** The array has [NShards] cells, gid 0 is no group, and every shard belongs to a
    group, or to gid 0 when there is no group. *)
Definition valid c : Prop :=
  len (Shards c) = NShards ∧ Groups c !! 0 = None ∧
  if decide (Groups c = ∅) then Shards c = zeroShards
  else ∀ s gid, zlookup (Shards c) s = Some gid → is_Some (Groups c !! gid).

(** No group holds two shards more than another. *)
Definition balanced c : Prop :=
  ∀ k1 k2, is_Some (Groups c !! k1) → is_Some (Groups c !! k2) →
    len (holds (Shards c) k1) ≤ len (holds (Shards c) k2) + 1.

Lemma zlookup_elem (a : list Z) s x : zlookup a s = Some x → x ∈ a.
Proof. intros [_ H]%zlookup_Some. by eapply list_elem_of_lookup_2. Qed.

Lemma elem_zlookup (a : list Z) x : x ∈ a → ∃ s, zlookup a s = Some x.
Proof.
  intros [i Hi]%list_elem_of_lookup. exists (Z.of_nat i). apply zlookup_Some.
  rewrite Nat2Z.id. split; [lia|done].
Qed.

(** A partition over the keys of [Groups], written out. *)
Lemma partition_valid g a num gs :
  partition g → mget g 0 = [] → gs !! 0 = None → gs ≠ ∅ →
  (∀ k, k ≠ 0 → is_Some (g !! k) → is_Some (gs !! k)) →
  len a = NShards → (∀ gid, holds a gid ≡ₚ mget g gid) →
  valid (mkConfig num a gs).
Proof.
  intros Hp H0 Hgs0 Hgs Hk Hlen Hh. unfold valid. simpl. split_and!; [done..|].
  rewrite decide_False by done. intros s gid Hs. apply Hk.
  - intros ->. apply elem_of_holds in Hs. rewrite Hh, H0 in Hs. by apply not_elem_of_nil in Hs.
  - apply mget_pos_Some, len_pos. intros E.
    apply elem_of_holds in Hs. rewrite Hh, E in Hs. by apply not_elem_of_nil in Hs.
Qed.

Lemma partition_balanced g a num gs :
  even g → gs !! 0 = None → (∀ k, is_Some (gs !! k) → is_Some (g !! k)) →
  (∀ gid, holds a gid ≡ₚ mget g gid) → balanced (mkConfig num a gs).
Proof.
  intros He Hgs0 Hk Hh k1 k2 H1 H2. simpl in *. unfold len. rewrite !Hh.
  apply He; [by apply Hk|by apply Hk|..]; intros ->; rewrite Hgs0 in *.
  - by destruct H1.
  - by destruct H2.
Qed.

(** ** Join *)

Lemma Join_behaviour cf groups c :
  last cf = Some c → valid c → groups !! 0 = None → Groups c ∪ groups ≠ ∅ →
  ∃ c', Join cf groups = Some (Ret (cf ++ [c'])) ∧ Num c' = len cf ∧
    Groups c' = Groups c ∪ groups ∧ valid c' ∧ balanced c'.
Proof.
  intros Hlast (Hlen & H0 & Hval) Hg0 Hne. unfold Join. rewrite Hlast.
  rewrite deepCopy_id, join_groups. cbv zeta. set (gs := Groups c ∪ groups) in *.
  assert (gs !! 0 = None) as Hgs0 by (by apply lookup_union_None).
  set (nc := mkConfig (len cf) (Shards c) gs).
  assert (partition (Group2Shards nc)) as Hp by (by apply Group2Shards_partition).
  destruct (map_choose gs Hne) as (k0 & sv & Hk0).
  destruct (balance_loop_spec join_fuel (Group2Shards nc) k0) as (g' & -> & Hp' & H0' & He & Hd).
  { done. }
  { apply Group2Shards_is_Some. left. by exists sv. }
  { intros ->. congruence. }
  { pose proof (measure_bound _ Hp). unfold join_fuel. lia. }
  destruct (assign_shards_spec g' zeroShards Hp') as (a' & -> & Hlen' & _ & Hh); [done|].
  rewrite bind_Ret. eexists. split; [done|]. split; [done|]. split; [done|].
  assert (∀ k, is_Some (g' !! k) ↔ is_Some (gs !! k) ∨ k ∈ Shards c) as Hkeys.
  { intros k. rewrite Hd, Group2Shards_is_Some. done. }
  split.
  - apply (partition_valid g'); try done.
    intros k Hk [?|Hin]%Hkeys; [done|]. apply elem_zlookup in Hin as [s Hs].
    destruct (decide (Groups c = ∅)) as [E|E].
    + rewrite Hval in Hs. by apply zlookup_zero in Hs.
    + destruct (Hval s k Hs) as [v Hv]. exists v. by apply lookup_union_Some_l.
  - apply (partition_balanced g'); try done. intros k Hk. apply Hkeys. by left.
Qed.

(** ** Leave *)

(** Removing the groups: their shards become orphans. *)
Lemma leave_fold gids (gs0 : gmap Z (list string)) g0 :
  let '(gs, g, orphans) :=
    foldl (λ '(gs, g, orphans) gid, (delete gid gs, delete gid g, orphans ++ mget g gid))
      (gs0, g0, []) gids in
  (∀ k, gs !! k = if decide (k ∈ gids) then None else gs0 !! k) ∧
  (∀ k, g !! k = if decide (k ∈ gids) then None else g0 !! k) ∧
  shards_of g ++ orphans ≡ₚ shards_of g0.
Proof.
  pose proof (foldl_prefix (λ seen '(gs, g, orphans),
    (∀ k, gs !! k = if decide (k ∈ seen) then None else gs0 !! k) ∧
    (∀ k, g !! k = if decide (k ∈ seen) then None else g0 !! k) ∧
    shards_of g ++ orphans ≡ₚ shards_of g0)
    (λ '(gs, g, orphans) gid, (delete gid gs, delete gid g, orphans ++ mget g gid))
    (gs0, g0, []) gids) as H.
  apply H; clear H.
  - by rewrite app_nil_r.
  - intros seen a [[gs g] orphans] _ (H1 & H2 & H3). split_and!.
    + intros k. rewrite lookup_delete. rewrite H1.
      repeat case_decide; set_solver.
    + intros k. rewrite lookup_delete. rewrite H2.
      repeat case_decide; set_solver.
    + rewrite <-H3, (shards_of_delete g a). solve_Permutation.
Qed.

(** Handing the orphans out, each to a group with the fewest shards. *)
Lemma distribute orphans (a : list Z) g k0 :
  len a = NShards → shards_of g ++ orphans ≡ₚ zrange NShards →
  is_Some (g !! k0) → k0 ≠ 0 → mget g 0 = [] →
  ∃ a' g',
    ofold (λ '(a, g) shard,
             let gid := GetGIDWithMinimumShards g in
             a ← slice_set a shard gid;
             Ret (a, <[gid := mget g gid ++ [shard]]> g)) (a, g) orphans = Ret (a', g') ∧
    len a' = NShards ∧ partition g' ∧ mget g' 0 = [] ∧ (even g → even g') ∧
    (∀ k, is_Some (g' !! k) ↔ is_Some (g !! k)) ∧
    (∀ k s, s ∈ mget g k → s ∈ mget g' k).
Proof.
  revert a g. induction orphans as [|s orphans IH]; intros a g Ha Hp Hk0 Hne H0; cbn [ofold].
  { exists a, g. rewrite app_nil_r in Hp. by split_and!. }
  assert (∀ k, len (mget g k) ≤ NShards) as Hlens.
  { intros k. pose proof (shards_of_length g k) as Hl. apply Permutation_length in Hp.
    rewrite length_app, length_zrange in Hp. unfold len, NShards in *. lia. }
  destruct (min_shards_spec g k0 Hlens Hk0 Hne) as (Hm0 & Hm & Hmin).
  set (m := GetGIDWithMinimumShards g) in *. cbv zeta.
  assert (0 ≤ s < NShards) as Hs.
  { apply elem_of_zrange. rewrite <-Hp. set_solver. }
  rewrite slice_set_ok, !bind_Ret by lia.
  set (g1 := <[m := mget g m ++ [s]]> g).
  assert (∀ k, is_Some (g1 !! k) ↔ is_Some (g !! k)) as Hd1.
  { intros k. unfold g1. rewrite lookup_insert_is_Some'. naive_solver. }
  destruct (IH (<[Z.to_nat s := m]> a) g1) as (a' & g' & Hok & Ha' & Hp' & H0' & He' & Hd & Hkeep).
  - by rewrite len_insert.
  - rewrite <-Hp. unfold g1. rewrite shards_of_insert, (shards_of_delete g m). solve_Permutation.
  - by apply Hd1.
  - done.
  - unfold g1. by rewrite mget_insert_ne.
  - exists a', g'. split_and!; try done.
    + intros He. apply He'. intros k1 k2 Hk1%Hd1 Hk2%Hd1 Hn1 Hn2. unfold g1.
      pose proof (Hmin k1 Hk1 Hn1). pose proof (Hmin k2 Hk2 Hn2).
      specialize (He k1 k2 Hk1 Hk2 Hn1 Hn2).
      destruct (decide (m = k1)) as [<-|], (decide (m = k2)) as [<-|];
        rewrite ?mget_insert_eq, ?mget_insert_ne by done; rewrite ?len_app, ?len_cons;
        unfold len in *; simpl; lia.
    + intros k. by rewrite Hd, Hd1.
    + intros k s' Hs'. apply Hkeep. unfold g1.
      destruct (decide (m = k)) as [<-|]; [rewrite mget_insert_eq; set_solver|].
      by rewrite mget_insert_ne.
Qed.

Definition without (gids : list Z) (gs : gmap Z (list string)) : gmap Z (list string) :=
  filter (λ p, p.1 ∉ gids) gs.

Lemma without_lookup gids gs k :
  without gids gs !! k = if decide (k ∈ gids) then None else gs !! k.
Proof.
  unfold without. rewrite map_lookup_filter. case_decide as Hk.
  - destruct (gs !! k); simpl; [|done]. by rewrite option_guard_False by (by intros ?).
  - destruct (gs !! k); simpl; [|done]. by rewrite option_guard_True.
Qed.

(** The shards of the groups that stay. *)
Lemma left_groups gids c n g :
  valid c → without gids (Groups c) ≠ ∅ →
  (∀ k, g !! k = if decide (k ∈ gids) then None else Group2Shards (mkConfig n (Shards c) (Groups c)) !! k) →
  (∀ k, is_Some (g !! k) ↔ is_Some (without gids (Groups c) !! k)) ∧
  (∀ k, is_Some (without gids (Groups c) !! k) → mget g k = holds (Shards c) k) ∧
  mget g 0 = [] ∧ (balanced c → even g).
Proof.
  intros (Hlen & H0 & Hval) Hne Hg. set (nc := mkConfig n (Shards c) (Groups c)) in *.
  assert (Groups c ≠ ∅) as Hcne.
  { intros E. apply Hne, map_eq. intros k. rewrite without_lookup, E. by destruct (decide (k ∈ gids)). }
  rewrite decide_False in Hval by done.
  assert (∀ k, is_Some (Group2Shards nc !! k) ↔ is_Some (Groups c !! k)) as HG.
  { intros k. rewrite Group2Shards_is_Some. unfold keyed. simpl. split; [|by left].
    intros [?|[s Hs]%elem_zlookup]; [done|by eapply Hval]. }
  assert (∀ k, is_Some (g !! k) ↔ is_Some (without gids (Groups c) !! k)) as Hdom.
  { intros k. rewrite Hg, without_lookup. case_decide; [done|]. apply HG. }
  assert (∀ k, is_Some (without gids (Groups c) !! k) → mget g k = holds (Shards c) k) as Hmget.
  { intros k Hk. unfold mget. rewrite Hg. rewrite without_lookup in Hk. case_decide; [by destruct Hk|].
    rewrite Group2Shards_lookup, decide_True by (by left). done. }
  split_and!; [done|done| |].
  - unfold mget. rewrite Hg. case_decide; [done|].
    destruct (Group2Shards nc !! 0) eqn:E; [|done].
    destruct (proj1 (HG 0) (mk_is_Some _ _ E)) as [? ?]. congruence.
  - intros Hbal k1 k2 Hk1%Hdom Hk2%Hdom _ _. rewrite !Hmget by done.
    rewrite without_lookup in Hk1, Hk2. case_decide; [by destruct Hk1|]. case_decide; [by destruct Hk2|].
    by apply Hbal.
Qed.

Lemma Leave_behaviour cf gids c :
  last cf = Some c → valid c →
  ∃ c', Leave cf gids = Ret (cf ++ [c']) ∧ Num c' = len cf ∧
    Groups c' = without gids (Groups c) ∧ valid c' ∧ (balanced c → balanced c') ∧
    (∀ s gid, zlookup (Shards c) s = Some gid → is_Some (Groups c' !! gid) →
       zlookup (Shards c') s = Some gid).
Proof.
  intros Hlast Hvalid. pose proof Hvalid as (Hlen & H0 & _). unfold Leave. rewrite Hlast, deepCopy_id. cbv zeta.
  cbn [Groups Shards Num].
  set (nc := mkConfig (len cf) (Shards c) (Groups c)).
  pose proof (leave_fold gids (Groups c) (Group2Shards nc)) as Hfold.
  destruct (foldl _ _ gids) as [[gs g] orphans]. destruct Hfold as (Hgs & Hg & Hperm).
  assert (gs = without gids (Groups c)) as ->.
  { apply map_eq. intros k. by rewrite Hgs, without_lookup. }
  set (gs := without gids (Groups c)) in *.
  assert (gs !! 0 = None) as Hgs0 by (rewrite Hgs, H0; by destruct (decide (0 ∈ gids))).
  destruct (decide (gs = ∅)) as [Hempty|Hne].
  { rewrite Hempty. rewrite map_size_empty. simpl. eexists. split; [done|]. simpl.
    split; [done|]. split; [done|]. split; [|split].
    - unfold valid. simpl. split_and!; [done|done|]. by rewrite decide_True.
    - intros _ k1 k2 [v Hv]. simpl in Hv. by rewrite lookup_empty in Hv.
    - intros s gid _ [v Hv]. by rewrite lookup_empty in Hv. }
  destruct (Z.ltb_spec 0 (Z.of_nat (size gs))) as [_|Hsz].
  2: { exfalso. apply Hne, map_size_empty_inv. lia. }
  destruct (left_groups gids c (len cf) g) as (Hdom & Hmget & Hg0 & He); [done..|].
  destruct (map_choose gs Hne) as (k0 & sv & Hk0).
  assert (k0 ≠ 0) as Hk00 by congruence.
  destruct (distribute orphans zeroShards g k0) as (a1 & g1 & Hok & Ha1 & Hp1 & H01 & He1 & Hd1 & Hkeep).
  { done. }
  { rewrite Hperm. by apply Group2Shards_partition. }
  { apply Hdom. by exists sv. }
  { done. }
  { done. }
  cbv zeta in Hok. rewrite Hok, bind_Ret.
  destruct (assign_shards_spec g1 a1 Hp1 Ha1) as (a2 & -> & Ha2 & Hin & Hh).
  rewrite bind_Ret. eexists. split; [done|]. cbn [Groups Shards Num]. split_and!; [done|done| | |].
  - apply (partition_valid g1); try done. intros k _ Hk. by apply Hdom, Hd1.
  - intros Hbal. apply (partition_balanced g1); auto. intros k Hk. by apply Hd1, Hdom.
  - intros s gid Hs Hgid. apply Hin, Hkeep. rewrite Hmget by done. by apply elem_of_holds.
Qed.

(** ** Move and Query *)

Lemma Move_behaviour cf c shard gid :
  last cf = Some c → 0 ≤ shard < len (Shards c) →
  Move cf shard gid =
  Ret (cf ++ [mkConfig (len cf) (<[Z.to_nat shard := gid]> (Shards c)) (Groups c)]).
Proof.
  intros Hlast Hs. unfold Move. rewrite Hlast, deepCopy_id, slice_set_ok by done. done.
Qed.

Lemma Query_behaviour cf num :
  cf ≠ [] →
  ∃ c, Query cf num = Ret c ∧
    (if decide (0 ≤ num < len cf) then zlookup cf num = Some c else last cf = Some c).
Proof.
  intros Hne%len_pos. unfold Query. rewrite Z.geb_leb.
  destruct (Z.ltb_spec num 0), (Z.leb_spec (len cf) num); simpl; try lia.
  3: destruct (slice_get_ok cf num) as (c & -> & Hc); [lia|].
  3: exists c; split; [done|]; by rewrite decide_True by lia.
  all: destruct (slice_get_ok cf (len cf - 1)) as (c & -> & Hc); [lia|].
  all: exists c; split; [done|]; rewrite decide_False by lia.
  all: apply zlookup_Some in Hc as [_ Hc]; rewrite last_lookup, <-Hc; f_equal; unfold len; lia.
Qed.

Lemma Move_valid c num shard gid :
  valid c → 0 ≤ shard < NShards → is_Some (Groups c !! gid) →
  valid (mkConfig num (<[Z.to_nat shard := gid]> (Shards c)) (Groups c)).
Proof.
  intros (Hlen & H0 & Hval) Hs Hgid. unfold valid. simpl. rewrite len_insert.
  split_and!; [done..|].
  destruct (decide (Groups c = ∅)) as [E|E]; [rewrite E, lookup_empty in Hgid; by destruct Hgid|].
  intros s gid' Hs'. destruct (decide (s = shard)) as [->|Hne].
  - rewrite zlookup_insert_eq in Hs' by lia. by simplify_eq.
  - rewrite zlookup_insert_ne in Hs' by (done || lia). by eapply Hval.
Qed.

(** ** The sequence of configurations *)

Inductive config_op :=
| OpJoin (groups : gmap Z (list string))
| OpLeave (gids : list Z)
| OpMove (shard gid : Z).

Definition apply_op cf (op : config_op) : option (outcome (list Config)) :=
  match op with
  | OpJoin groups => Join cf groups
  | OpLeave gids => Some (Leave cf gids)
  | OpMove shard gid => Some (Move cf shard gid)
  end.

(** What the callers keep to: gid 0 does not join, a join leaves at least one group,
    and a shard is moved to a group that exists. *)
Definition legal c (op : config_op) : Prop :=
  match op with
  | OpJoin groups => groups !! 0 = None ∧ Groups c ∪ groups ≠ ∅
  | OpLeave _ => True
  | OpMove shard gid => 0 ≤ shard < NShards ∧ is_Some (Groups c !! gid)
  end.

(** The states legal operations lead to from the first one. *)
Inductive history : list Config → Prop :=
| history_new : history NewMemoryConfigStateMachine
| history_op cf c op cf' :
    history cf → last cf = Some c → legal c op → apply_op cf op = Some (Ret cf') → history cf'.

Definition history_inv cf : Prop :=
  cf ≠ [] ∧ ∀ i c, zlookup cf i = Some c → Num c = i ∧ valid c.

Lemma DefaultConfig_valid : valid DefaultConfig.
Proof. unfold valid. split_and!; [done|done|]. by rewrite decide_True. Qed.

Lemma history_inv_snoc cf c :
  history_inv cf → Num c = len cf → valid c → history_inv (cf ++ [c]).
Proof.
  intros [Hne Hcf] Hnum Hv. split; [by destruct cf|]. intros i c' Hi.
  destruct (decide (i < len cf)) as [Hlt|Hge].
  - rewrite zlookup_app_l in Hi by done. by apply Hcf.
  - pose proof (zlookup_bounds _ _ _ Hi) as Hb. rewrite len_app in Hb.
    unfold len at 2 in Hb. simpl in Hb.
    rewrite zlookup_app_r in Hi by lia. replace (i - len cf) with 0 in Hi by lia.
    rewrite zlookup_cons_0 in Hi. simplify_eq. split; [lia|done].
Qed.

Lemma last_zlookup {A} (l : list A) x : last l = Some x → zlookup l (len l - 1) = Some x.
Proof.
  rewrite last_lookup. intros H. pose proof (lookup_lt_Some _ _ _ H). unfold zlookup, len.
  destruct (Z.leb_spec 0 (Z.of_nat (length l) - 1)); [|lia]. rewrite <-H. f_equal. lia.
Qed.

(** A legal operation succeeds and appends one configuration. *)
Lemma op_progress cf c op :
  history_inv cf → last cf = Some c → legal c op →
  ∃ c', apply_op cf op = Some (Ret (cf ++ [c'])) ∧ Num c' = len cf ∧ valid c'.
Proof.
  intros [_ Hcf] Hlast Hlegal. destruct (Hcf _ _ (last_zlookup _ _ Hlast)) as [_ Hv].
  destruct op as [groups|gids|shard gid]; simpl in *.
  - destruct Hlegal as [??]. destruct (Join_behaviour cf groups c) as (c' & ? & ? & _ & ? & _); eauto.
  - destruct (Leave_behaviour cf gids c) as (c' & H & ? & _ & ? & _); [done..|]. rewrite H. eauto.
  - destruct Hlegal as [Hs Hg]. pose proof Hv as (Hlen & _).
    rewrite (Move_behaviour cf c) by (done || lia). eexists. split; [done|]. split; [done|].
    by apply Move_valid.
Qed.

Lemma history_inv_holds cf : history cf → history_inv cf.
Proof.
  induction 1 as [|cf c op cf' _ IH Hlast Hlegal Hop].
  - split; [done|]. intros i c [Hi Hc]%zlookup_Some.
    destruct (Z.to_nat i) as [|n] eqn:E; simpl in Hc; [|by destruct n].
    simplify_eq. split; [simpl; lia|apply DefaultConfig_valid].
  - destruct (op_progress cf c op IH Hlast Hlegal) as (c' & Hop' & Hnum & Hv).
    rewrite Hop in Hop'. simplify_eq. by apply history_inv_snoc.
Qed.

(** ** The contracts *)

(** C23. On a valid last configuration, with groups of which none has gid 0 and such that
    there is a group afterwards, [Join] terminates without a panic, keeps the servers of
    the groups that exist, adds the new ones, and leaves every shard with a group of the new
    configuration, no group holding two shards more than another. *)
Theorem Join_rebalances cf groups c :
  last cf = Some c → valid c → groups !! 0 = None → Groups c ∪ groups ≠ ∅ →
  ∃ c', Join cf groups = Some (Ret (cf ++ [c'])) ∧ Num c' = len cf ∧
    Groups c' = Groups c ∪ groups ∧ valid c' ∧ balanced c'.
Proof. apply Join_behaviour. Qed.

(** C31. [Leave] removes exactly the given groups; every shard of a group that stays
    stays with it, the others are handed out so that a balanced configuration
    remains balanced. *)
Theorem Leave_rebalances cf gids c :
  last cf = Some c → valid c →
  ∃ c', Leave cf gids = Ret (cf ++ [c']) ∧ Num c' = len cf ∧
    Groups c' = without gids (Groups c) ∧ valid c' ∧ (balanced c → balanced c') ∧
    (∀ s gid, zlookup (Shards c) s = Some gid → is_Some (Groups c' !! gid) →
       zlookup (Shards c') s = Some gid).
Proof. apply Leave_behaviour. Qed.

(** C32. In every state that legal operations lead to (no join of gid 0, no join that leaves
    no group, no move to a group that does not exist), the configurations are numbered
    consecutively and valid, so that [Query] answers with the configuration of the
    number it is asked for, or with the latest. *)
Theorem config_history cf num :
  history cf →
  (∀ i c, zlookup cf i = Some c → Num c = i ∧ valid c) ∧
  ∃ c, Query cf num = Ret c ∧
    Num c = (if decide (0 ≤ num < len cf) then num else len cf - 1).
Proof.
  intros [Hne Hcf]%history_inv_holds. split; [done|].
  destruct (Query_behaviour cf num Hne) as (c & HQ & Hc). exists c. split; [done|].
  case_decide; [by apply Hcf|]. by apply Hcf, last_zlookup.
Qed.

End config.

(** ** Replicas agree

    Each server of the controller runs the state machine on its own, with its own
    order of map iteration. *)
Section replicas.
Context (r1 r2 : MapRange).
Implicit Types (g : gmap Z (list Z)) (c : Config) (cf : list Config).

Lemma sorted_keys_agree {A} (m : gmap Z A) :
  sort_Ints (@range r1 _ _ _ _ m).*1 = sort_Ints (@range r2 _ _ _ _ m).*1.
Proof.
  unfold sort_Ints. apply (Sorted_unique (≤)); [apply (Sorted_merge_sort (≤))..|].
  rewrite !merge_sort_Permutation. by rewrite (@range_perm r1), (@range_perm r2).
Qed.

Lemma min_agree g : @GetGIDWithMinimumShards r1 g = @GetGIDWithMinimumShards r2 g.
Proof. unfold GetGIDWithMinimumShards. by rewrite sorted_keys_agree. Qed.

Lemma max_agree g : @GetGIDWithMaximumShards r1 g = @GetGIDWithMaximumShards r2 g.
Proof. unfold GetGIDWithMaximumShards. by rewrite sorted_keys_agree. Qed.

Lemma Group2Shards_agree c : @Group2Shards r1 c = @Group2Shards r2 c.
Proof. apply map_eq. intros k. by rewrite (@Group2Shards_lookup r1), (@Group2Shards_lookup r2). Qed.

Lemma balance_loop_agree (fuel : nat) g : @balance_loop r1 fuel g = @balance_loop r2 fuel g.
Proof.
  revert g. induction fuel as [|fuel IH]; intros g; cbn [balance_loop]; [done|].
  rewrite min_agree, max_agree. destruct (negb _ && _); [done|].
  destruct (mget g _); [done|]. apply IH.
Qed.

Lemma min_nonzero (r : MapRange) g : @GetGIDWithMinimumShards r g ≠ 0.
Proof.
  unfold GetGIDWithMinimumShards. set (gids := sort_Ints _).
  apply (foldl_prefix (λ _ p, p.1 ≠ 0)); [done|].
  intros seen a [index m] _ H. destruct (Z.eqb_spec a 0); simpl; [done|]. by destruct (_ <? _).
Qed.

Lemma balance_loop_partition (r : MapRange) (fuel : nat) g g' :
  partition g → @balance_loop r fuel g = Some (Ret g') → partition g'.
Proof.
  revert g. induction fuel as [|fuel IH]; intros g Hp; cbn [balance_loop]; [done|].
  cbv zeta. set (source := GetGIDWithMaximumShards g). set (target := GetGIDWithMinimumShards g).
  pose proof (min_nonzero r g : target ≠ 0) as Ht.
  destruct (negb (source =? 0) && _) eqn:Hstop; [by intros [= <-]|].
  destruct (mget g source) as [|s tl] eqn:Hs; [done|].
  assert (source ≠ target ∧
    (source = 0 ∨ (length (mget g target) + 2 ≤ length (mget g source))%nat)) as [Hst Hlen].
  { destruct (Z.eqb_spec source 0) as [E|E]; [split; [congruence|by left]|]. simpl in Hstop.
    apply Z.leb_gt in Hstop. split.
    - intros E'. rewrite <-E', ?Hs in Hstop. lia.
    - right. unfold len in Hstop. rewrite ?Hs in *. lia. }
  rewrite mget_insert_ne, Hs by done. apply IH.
  by apply (move_shard g source target s tl).
Qed.

Lemma assign_agree g a :
  partition g → len a = NShards → @assign_shards r1 g a = @assign_shards r2 g a.
Proof.
  intros Hp Ha. destruct (@assign_shards_spec r1 g a Hp Ha) as (a1 & -> & Hl1 & H1 & _).
  destruct (@assign_shards_spec r2 g a Hp Ha) as (a2 & -> & Hl2 & H2 & _).
  f_equal. apply zlookup_ext. intros s Hs. destruct (decide (s < NShards)) as [Hlt|Hge].
  - destruct (partition_owner g s Hp) as [gid Hgid]; [lia|]. by rewrite (H1 gid), (H2 gid).
  - by rewrite !(proj2 (zlookup_None _ _)) by lia.
Qed.

Lemma distribute_partition (r : MapRange) orphans (a : list Z) g a' g' :
  ofold (λ '(a, g) shard,
           a ← slice_set a shard (@GetGIDWithMinimumShards r g);
           Ret (a, <[@GetGIDWithMinimumShards r g :=
                      mget g (@GetGIDWithMinimumShards r g) ++ [shard]]> g))
    (a, g) orphans = Ret (a', g') →
  len a' = len a ∧ shards_of g' ≡ₚ shards_of g ++ orphans.
Proof.
  revert a g. induction orphans as [|s orphans IH]; intros a g; cbn [ofold].
  { intros [= <- <-]. by rewrite app_nil_r. }
  intros ([a1 g1] & H1 & H2)%outcome_bind_Ret. apply outcome_bind_Ret in H1 as (a2 & Ha2 & Hg1).
  simplify_eq. apply IH in H2 as [-> ->]. split; [by eapply slice_set_len|].
  rewrite shards_of_insert, (shards_of_delete g (GetGIDWithMinimumShards g)). solve_Permutation.
Qed.

Lemma Join_agree cf groups c :
  last cf = Some c → len (Shards c) = NShards → @Join r1 cf groups = @Join r2 cf groups.
Proof.
  intros Hlast Hlen. unfold Join. rewrite Hlast, !deepCopy_id, !join_groups. cbv zeta.
  rewrite Group2Shards_agree, balance_loop_agree. set (nc := mkConfig _ _ _).
  destruct (balance_loop _ _) as [[g|]|] eqn:Hb; [|done..].
  rewrite assign_agree; [done| |done].
  eapply balance_loop_partition; [|exact Hb]. by apply Group2Shards_partition.
Qed.

Lemma Leave_agree cf gids c :
  last cf = Some c → len (Shards c) = NShards → @Leave r1 cf gids = @Leave r2 cf gids.
Proof.
  intros Hlast Hlen. unfold Leave. rewrite Hlast, !deepCopy_id. cbv zeta.
  rewrite Group2Shards_agree. cbn [Groups Shards Num]. set (nc := mkConfig _ _ _).
  pose proof (leave_fold gids (Groups c) (@Group2Shards r2 nc)) as Hfold.
  destruct (foldl _ _ gids) as [[gs g] orphans]. destruct Hfold as (_ & _ & Hperm).
  destruct (0 <? _); [|done].
  rewrite (ofold_ext _ (λ '(a, g) shard,
           a ← slice_set a shard (@GetGIDWithMinimumShards r2 g);
           Ret (a, <[@GetGIDWithMinimumShards r2 g :=
                      mget g (@GetGIDWithMinimumShards r2 g) ++ [shard]]> g)))
    by (intros [a g'] s; by rewrite min_agree).
  destruct (ofold _ _ orphans) as [[a g']|] eqn:Ho; [|done]. rewrite !bind_Ret.
  apply distribute_partition in Ho as [Ha Hg']. rewrite assign_agree; [done| |by rewrite Ha].
  unfold partition. rewrite Hg', Hperm. by apply Group2Shards_partition.
Qed.

(** Replicas of the controller agree: an operation gives the same result whatever
    order each server iterates its maps in. *)
Theorem config_replicas_agree cf c op :
  last cf = Some c → len (Shards c) = NShards → @apply_op r1 cf op = @apply_op r2 cf op.
Proof.
  intros Hlast Hlen. destruct op as [groups|gids|shard gid]; simpl.
  - by eapply Join_agree.
  - f_equal. by eapply Leave_agree.
  - unfold Move. by rewrite Hlast, !deepCopy_id.
Qed.

End replicas.

(** ** Concrete instances *)
Section config_examples.
#[local] Existing Instance range_default.

Definition groups12 : gmap Z (list string) := {[ 1 := ["a"%string]; 2 := ["b"%string] ]}.

Definition joined : list Config :=
  match Join NewMemoryConfigStateMachine groups12 with Some (Ret cf) => cf | _ => [] end.

(** An iteration order other than the default. *)
Definition range_reverse : MapRange :=
  {| range := λ K _ _ A m, reverse (map_to_list m);
     range_perm := λ K _ _ A m, reverse_Permutation (map_to_list m) |}.

Lemma Join_rebalances_witness :
  ∃ c', Join NewMemoryConfigStateMachine groups12 = Some (Ret [DefaultConfig; c']) ∧
    valid c' ∧ balanced c'.
Proof.
  destruct (Join_rebalances NewMemoryConfigStateMachine groups12 DefaultConfig)
    as (c' & H & _ & _ & Hv & Hb); [done|apply DefaultConfig_valid|done|by vm_compute|].
  exists c'. split; [exact H|]. split; [exact Hv|exact Hb].
Defined.

Lemma Leave_rebalances_witness :
  ∃ c c', last joined = Some c ∧ Leave joined [2] = Ret (joined ++ [c']) ∧
    Groups c' = {[ 1 := ["a"%string] ]} ∧ valid c'.
Proof.
  destruct (Join_behaviour NewMemoryConfigStateMachine groups12 DefaultConfig)
    as (c & H & _ & _ & Hv & _); [done|apply DefaultConfig_valid|done|by vm_compute|].
  assert (last joined = Some c) as Hlast by (unfold joined; by rewrite H).
  destruct (Leave_rebalances joined [2] c) as (c' & HL & _ & Hg & Hv' & _); [exact Hlast|exact Hv|].
  exists c, c'. split; [exact Hlast|]. split; [exact HL|]. split; [|exact Hv'].
  rewrite Hg. vm_compute in Hlast. apply (inj Some) in Hlast. rewrite <-Hlast. by vm_compute.
Defined.

Lemma config_history_witness :
  ∃ c, Query joined (-1) = Ret c ∧ Num c = 1.
Proof.
  destruct (config_history joined (-1)) as (_ & c & HQ & Hn).
  - apply (history_op NewMemoryConfigStateMachine DefaultConfig (OpJoin groups12));
      [apply history_new|done|split; by vm_compute|by vm_compute].
  - exists c. split; [exact HQ|]. rewrite Hn. by vm_compute.
Defined.

Lemma config_replicas_agree_witness :
  @apply_op range_default joined (OpJoin {[ 3 := [] ]}) =
  @apply_op range_reverse joined (OpJoin {[ 3 := [] ]}).
Proof.
  destruct (last joined) as [c|] eqn:Hlast; [|by vm_compute in Hlast].
  apply (config_replicas_agree range_default range_reverse joined c); [exact Hlast|].
  vm_compute in Hlast. apply (inj Some) in Hlast. rewrite <-Hlast. by vm_compute.
Defined.

(** A [Join] of no group on a configuration without groups still balances: it
    hands every shard to gid -1, which is no group. *)
Theorem Join_empty_assigns_minus_one (r : MapRange) :
  @Join r NewMemoryConfigStateMachine ∅ =
  Some (Ret [DefaultConfig; mkConfig 1 (replicate 10 (-1)) ∅]).
Proof. rewrite (Join_agree r range_default _ _ DefaultConfig) by done. by vm_compute. Qed.

End config_examples.
