(* ===== verification/ShardCtrler.v ===== *)
(** * shardctrler: the replicated controller

    Models [src/src/shardctrler/server.go], [client.go] and the commands of
    [common.go].  The state machine is that of [ShardConfig]; commands other than
    queries go through the duplicate suppression of [Dedup]. *)
From S2P Require Import Prelude Raft ShardConfig Dedup.

(** ** common.go *)

Inductive OpType := OpJoinT | OpLeaveT | OpMoveT | OpQueryT.

#[export] Instance OpType_eq_dec : EqDecision OpType.
Proof. solve_decision. Defined.

Inductive Err := OK | ErrWrongLeader | ErrTimeout.

#[export] Instance Err_eq_dec : EqDecision Err.
Proof. solve_decision. Defined.

Record CommandArgs := mkCommandArgs {
  Servers : gmap Z (list string);
  GIDs : list Z;
  Shard : Z;
  GID : Z;
  cmd_Num : Z;
  cmd_Op : OpType;
  ClientId : Z;
  CommandId : Z;
}.

Record CommandReply := mkCommandReply { rep_Err : Err; rep_Config : Config }.

Record OperationContext := mkOperationContext {
  MaxAppliedCommandId : Z;
  LastReply : CommandReply;
}.

(** The zero value of [Config] has a nil map, which reads as an empty one. *)
Definition zeroConfig : Config := mkConfig 0 zeroShards ∅.

(** ** server.go *)

Record ShardCtrler := mkShardCtrler {
  stateMachine : list Config;
  lastOperations : gmap Z OperationContext;
  notifyChans : gmap Z (option CommandReply);  (* index -> buffer of capacity 1 *)
}.

Section controller.
Context {ranges : MapRange}.
Implicit Types (sc : ShardCtrler) (c : CommandArgs).

Definition isDuplicateRequest sc (clientId commandId : Z) : bool :=
  match lastOperations sc !! clientId with
  | Some ctx => commandId <=? MaxAppliedCommandId ctx
  | None => false
  end.

Definition is_query c : bool := bool_decide (cmd_Op c = OpQueryT).

(** [applyLogToStateMachine]: [None] would be a loop of [Join] that does not end. *)
Definition applyLogToStateMachine (cf : list Config) c :
    option (outcome (list Config * CommandReply)) :=
  match cmd_Op c with
  | OpJoinT =>
      match Join cf (Servers c) with
      | Some o => Some (cf' ← o; Ret (cf', mkCommandReply OK zeroConfig))
      | None => None
      end
  | OpLeaveT => Some (cf' ← Leave cf (GIDs c); Ret (cf', mkCommandReply OK zeroConfig))
  | OpMoveT => Some (cf' ← Move cf (Shard c) (GID c); Ret (cf', mkCommandReply OK zeroConfig))
  | OpQueryT => Some (q ← Query cf (cmd_Num c); Ret (cf, mkCommandReply OK q))
  end.

Definition getNotifyChan sc (index : Z) : ShardCtrler * option CommandReply :=
  match notifyChans sc !! index with
  | Some buf => (sc, buf)
  | None => (mkShardCtrler (stateMachine sc) (lastOperations sc)
               (<[index := None]> (notifyChans sc)), None)
  end.

Definition removeOutdatedNotifyChan sc (index : Z) : ShardCtrler :=
  mkShardCtrler (stateMachine sc) (lastOperations sc) (delete index (notifyChans sc)).

(** The critical section of [applier] for a command.  [term] and [isLeader] are
    what [rf.GetState] returned.  The outer [None]: the goroutine blocks, in the loop
    of [Join] or on a channel whose buffer is full. *)
Definition applier sc (msg : ApplyMsg CommandArgs) (term : Z) (isLeader : bool) :
    option (outcome ShardCtrler) :=
  if negb (CommandValid msg) then Some (Ret sc)
  else
    match Command msg with
    | None => Some Panic
    | Some c =>
        r ← (if negb (is_query c) && isDuplicateRequest sc (ClientId c) (CommandId c) then
               match lastOperations sc !! ClientId c with
               | Some ctx => Some (Ret (sc, LastReply ctx))
               | None => Some Panic
               end
             else
               o ← applyLogToStateMachine (stateMachine sc) c;
               Some ('(cf, reply) ← o;
                     Ret (mkShardCtrler cf
                            (if is_query c then lastOperations sc
                             else <[ClientId c := mkOperationContext (CommandId c) reply]>
                                    (lastOperations sc))
                            (notifyChans sc), reply)));
        match r with
        | Panic => Some Panic
        | Ret (sc, reply) =>
            if isLeader && (CommandTerm msg =? term) then
              let '(sc, buf) := getNotifyChan sc (CommandIndex msg) in
              match buf with
              | Some _ => None
              | None => Some (Ret (mkShardCtrler (stateMachine sc) (lastOperations sc)
                          (<[CommandIndex msg := Some reply]> (notifyChans sc))))
              end
            else Some (Ret sc)
        end
    end.

(** The RPC handler up to [Start]: the reply to a duplicate. *)
Definition Command_duplicate sc c : option CommandReply :=
  if negb (is_query c) && isDuplicateRequest sc (ClientId c) (CommandId c)
  then LastReply <$> lastOperations sc !! ClientId c else None.

(** After [Start] returned [(index, _, isLeader)]: [wait] is what the channel
    delivered, [None] the timeout.  [during] is what other goroutines did meanwhile. *)
Definition Command_handler sc c (start : Z * Z * bool) (during : ShardCtrler → ShardCtrler)
    (wait : option CommandReply) : ShardCtrler * CommandReply :=
  match Command_duplicate sc c with
  | Some reply => (sc, reply)
  | None =>
      let '(index, _, isLeader) := start in
      if negb isLeader then (sc, mkCommandReply ErrWrongLeader zeroConfig)
      else
        let sc := during (getNotifyChan sc index).1 in
        let reply := match wait with
                     | Some result => result
                     | None => mkCommandReply ErrTimeout zeroConfig
                     end in
        (removeOutdatedNotifyChan sc index, reply)
  end.

Definition StartServer : ShardCtrler := mkShardCtrler NewMemoryConfigStateMachine ∅ ∅.

(** ** client.go *)

Record CtrlClerk := mkCtrlClerk {
  cc_servers : Z; cc_leaderId : Z; cc_clientId : Z; cc_commandId : Z }.

Definition MakeClerk (servers clientId : Z) : CtrlClerk := mkCtrlClerk servers 0 clientId 0.

(** One iteration of [Clerk.Command]: retry, or return the configuration. *)
Definition Clerk_Command_step (ck : CtrlClerk) (ok : bool) (reply : CommandReply) :
    CtrlClerk * option Config :=
  if negb ok || bool_decide (rep_Err reply = ErrWrongLeader)
     || bool_decide (rep_Err reply = ErrTimeout)
  then (mkCtrlClerk (cc_servers ck) ((cc_leaderId ck + 1) mod cc_servers ck)
          (cc_clientId ck) (cc_commandId ck), None)
  else (mkCtrlClerk (cc_servers ck) (cc_leaderId ck) (cc_clientId ck) (cc_commandId ck + 1),
        Some (rep_Config reply)).

Definition stamp (ck : CtrlClerk) c : CommandArgs :=
  mkCommandArgs (Servers c) (GIDs c) (Shard c) (GID c) (cmd_Num c) (cmd_Op c)
    (cc_clientId ck) (cc_commandId ck).

Definition Clerk_Query (ck : CtrlClerk) (num : Z) : CommandArgs :=
  stamp ck (mkCommandArgs ∅ [] 0 0 num OpQueryT 0 0).
Definition Clerk_Join (ck : CtrlClerk) (servers : gmap Z (list string)) : CommandArgs :=
  stamp ck (mkCommandArgs servers [] 0 0 0 OpJoinT 0 0).
Definition Clerk_Leave (ck : CtrlClerk) (gids : list Z) : CommandArgs :=
  stamp ck (mkCommandArgs ∅ gids 0 0 0 OpLeaveT 0 0).
Definition Clerk_Move (ck : CtrlClerk) (shard gid : Z) : CommandArgs :=
  stamp ck (mkCommandArgs ∅ [] shard gid 0 OpMoveT 0 0).

End controller.

(** ** The controller against its specification *)
Section controller_spec.
Context {ranges : MapRange}.
Implicit Types (sc : ShardCtrler) (c : CommandArgs) (cf : list Config).

#[export] Instance ctrl_service : Service (list Config) CommandArgs CommandReply := {|
  exec := λ cf c,
    match applyLogToStateMachine cf c with
    | Some (Ret r) => r
    | _ => (cf, mkCommandReply OK zeroConfig)
    end;
  client := ClientId;
  seqno := CommandId;
  tracked := λ c, negb (is_query c);
|}.

(** The operation of the state machine a command stands for. *)
Definition command_op c : option config_op :=
  match cmd_Op c with
  | OpJoinT => Some (OpJoin (Servers c))
  | OpLeaveT => Some (OpLeave (GIDs c))
  | OpMoveT => Some (OpMove (Shard c) (GID c))
  | OpQueryT => None
  end.

Definition legal_command cf c : Prop :=
  match last cf, command_op c with
  | Some conf, Some op => legal conf op
  | _, _ => True
  end.

(** Every command that is executed is legal where it is executed. *)
Fixpoint legal_log (st : list Config * gmap Z (Z * CommandReply)) (cs : list CommandArgs) : Prop :=
  match cs with
  | [] => True
  | c :: cs =>
      (tracked c = true → fresh st.2 c = true → legal_command st.1 c) ∧ legal_log (dstep st c) cs
  end.

Lemma applyLog_legal cf c :
  history cf → legal_command cf c →
  ∃ cf' r, applyLogToStateMachine cf c = Some (Ret (cf', r)) ∧ history cf' ∧
    (is_query c = true → cf' = cf).
Proof.
  intros Hh Hlegal. pose proof (history_inv_holds _ Hh) as Hinv. pose proof Hinv as [Hne _].
  destruct (last cf) as [conf|] eqn:Hlast; [|by apply last_None in Hlast].
  unfold legal_command, command_op in Hlegal. rewrite Hlast in Hlegal.
  unfold applyLogToStateMachine, is_query. destruct (cmd_Op c) eqn:Hop.
  1-3: match type of Hlegal with legal _ ?op =>
         destruct (op_progress cf conf op Hinv Hlast Hlegal) as (c' & Hap & _);
         pose proof (history_op cf conf op _ Hh Hlast Hlegal Hap); simpl in Hap end.
  - rewrite Hap. do 2 eexists. by split_and!.
  - injection Hap as ->. do 2 eexists. by split_and!.
  - injection Hap as ->. do 2 eexists. by split_and!.
  - destruct (Query_behaviour cf (cmd_Num c) Hne) as (q & -> & _). do 2 eexists. by split_and!.
Qed.

(** The server and the state of the specification. *)
Definition models sc (st : list Config * gmap Z (Z * CommandReply)) : Prop :=
  stateMachine sc = st.1 ∧
  lastOperations sc = (λ e, mkOperationContext e.1 e.2) <$> st.2.

Lemma duplicate_fresh sc st c :
  models sc st → isDuplicateRequest sc (ClientId c) (CommandId c) = negb (fresh st.2 c).
Proof.
  intros [_ H]. unfold isDuplicateRequest, fresh. rewrite H, lookup_fmap. simpl.
  destruct (st.2 !! ClientId c) as [[q r]|]; simpl; [|done]. apply Z.leb_antisym.
Qed.

(** One message: the server does what the specification does. *)
Lemma applier_step sc st msg c term isLeader :
  models sc st → history st.1 →
  CommandValid msg = true → Command msg = Some c →
  (tracked c = true → fresh st.2 c = true → legal_command st.1 c) →
  (∀ r, notifyChans sc !! CommandIndex msg ≠ Some (Some r)) →
  ∃ sc', applier sc msg term isLeader = Some (Ret sc') ∧ models sc' (dstep st c) ∧
    history (dstep st c).1 ∧
    (∀ i, i ≠ CommandIndex msg → notifyChans sc' !! i = notifyChans sc !! i).
Proof.
  intros Hm Hh Hv Hc Hlegal Hbuf. unfold applier. rewrite Hv, Hc. simpl negb.
  rewrite (duplicate_fresh sc st) by done.
  set (r := if negb (is_query c) && _ then _ else _).
  assert (∃ sc1 reply, r = Some (Ret (sc1, reply)) ∧ models sc1 (dstep st c) ∧
    history (dstep st c).1 ∧ notifyChans sc1 = notifyChans sc) as (sc1 & reply & Hr & Hm1 & Hh1 & Hn1).
  { unfold r. destruct st as [cf t]. destruct Hm as [Hcf Hlo]. simpl in *.
    destruct (is_query c) eqn:Hq; simpl.
    - destruct (applyLog_legal cf c) as (cf' & rep & Hap & Hh' & Hsame); [done| |].
      { unfold legal_command, command_op. unfold is_query in Hq. apply bool_decide_eq_true in Hq.
        rewrite Hq. by destruct (last cf). }
      rewrite Hcf, Hap. simpl. rewrite (Hsame Hq) in *. do 2 eexists. split; [done|]. by split_and!.
    - destruct (fresh t c) eqn:Hf; simpl.
      + destruct (applyLog_legal cf c) as (cf' & rep & Hap & Hh' & _); [done|by apply Hlegal|].
        rewrite Hcf, Hap. simpl. do 2 eexists. split; [done|]. split_and!; [|done|done].
        unfold models. simpl. split; [done|]. by rewrite Hlo, fmap_insert.
      + unfold fresh in Hf. simpl in Hf. rewrite Hlo, lookup_fmap.
        destruct (t !! ClientId c) as [[q rp]|]; [|done]. simpl.
        do 2 eexists. split; [done|]. by split_and!. }
  rewrite Hr. simpl. destruct (isLeader && _).
  - unfold getNotifyChan. rewrite Hn1.
    destruct (notifyChans sc !! CommandIndex msg) as [[rp|]|] eqn:Hb.
    + by destruct (Hbuf rp).
    + simpl. eexists. split; [done|]. split_and!; [by destruct Hm1; split|done|].
      intros i Hi. simpl. by rewrite lookup_insert_ne, ?Hn1.
    + simpl. eexists. split; [done|]. split_and!; [by destruct Hm1; split|done|].
      intros i Hi. simpl. by rewrite !lookup_insert_ne, ?Hn1.
  - exists sc1. split_and!; try done. intros i _. by rewrite Hn1.
Qed.

Fixpoint apply_all sc (ms : list (ApplyMsg CommandArgs * Z * bool)) : option (outcome ShardCtrler) :=
  match ms with
  | [] => Some (Ret sc)
  | (msg, term, isLeader) :: ms =>
      match applier sc msg term isLeader with
      | Some (Ret sc) => apply_all sc ms
      | o => o
      end
  end.

(** The messages of a log of commands, each at an index of its own. *)
Definition log_messages (cs : list CommandArgs) (ms : list (ApplyMsg CommandArgs * Z * bool)) : Prop :=
  Forall2 (λ c m, CommandValid m.1.1 = true ∧ Command m.1.1 = Some c) cs ms ∧
  NoDup ((λ m, CommandIndex m.1.1) <$> ms).

Lemma apply_all_models sc st cs ms :
  models sc st → history st.1 → legal_log st cs → log_messages cs ms →
  (∀ m r, m ∈ ms → notifyChans sc !! CommandIndex m.1.1 ≠ Some (Some r)) →
  ∃ sc', apply_all sc ms = Some (Ret sc') ∧ models sc' (drun st cs) ∧ history (drun st cs).1.
Proof.
  intros Hm Hh Hlegal [Hms Hnd]. revert sc st Hm Hh Hlegal Hnd.
  induction Hms as [|c [[msg term] isL] cs ms [Hv Hc] _ IH]; intros sc st Hm Hh Hlegal Hnd Hbuf; simpl.
  { exists sc. by split_and!. }
  rewrite fmap_cons in Hnd. apply NoDup_cons in Hnd as [Hni Hnd]. destruct Hlegal as [Hl Hlegal].
  simpl in Hv, Hc, Hni.
  destruct (applier_step sc st msg c term isL) as (sc1 & -> & Hm1 & Hh1 & Hn1); try done.
  { intros r. by apply (Hbuf (msg, term, isL)); left. }
  apply IH; try done. intros m r Hin. rewrite Hn1.
  - apply Hbuf. by right.
  - intros E. apply Hni. rewrite <-E. apply list_elem_of_fmap. by exists m.
Qed.

Lemma StartServer_models : models StartServer (NewMemoryConfigStateMachine, ∅).
Proof. split; [done|]. simpl. by rewrite fmap_empty. Qed.

(** The controller executes its log: for a log of legal commands the [applier]
    never panics and never blocks; its configurations are those of the plain state
    machine run on the commands that are executed, in which no command of a client
    occurs twice; and all of them are valid and numbered consecutively. *)
Theorem controller_executes_log cs ms :
  legal_log (NewMemoryConfigStateMachine, ∅) cs → log_messages cs ms →
  ∃ sc ex, apply_all StartServer ms = Some (Ret sc) ∧
    ex `sublist_of` cs ∧
    stateMachine sc = foldl (λ cf c, (exec cf c).1) NewMemoryConfigStateMachine ex ∧
    (∀ (i j : nat) c1 c2, ex !! i = Some c1 → ex !! j = Some c2 →
       is_query c1 = false → is_query c2 = false →
       ClientId c1 = ClientId c2 → CommandId c1 = CommandId c2 → i = j) ∧
    (∀ i conf, zlookup (stateMachine sc) i = Some conf → Num conf = i ∧ valid conf).
Proof.
  intros Hlegal Hms.
  destruct (apply_all_models StartServer (NewMemoryConfigStateMachine, ∅) cs ms)
    as (sc & Hap & [Hsm _] & Hh); [apply StartServer_models|constructor|done|done|done|].
  pose proof (drun_executed NewMemoryConfigStateMachine ∅ cs) as Hex.
  unfold marks in Hex. rewrite fmap_empty in Hex.
  exists sc, (executed ∅ cs). split_and!; [done|apply executed_sublist| | |].
  - by rewrite Hsm.
  - intros i j c1 c2 H1 H2 Hq1 Hq2 Hcl Hid.
    apply (executed_once ∅ cs i j c1 c2); try done; simpl; by rewrite ?Hq1, ?Hq2.
  - rewrite Hsm. by apply history_inv_holds.
Qed.

End controller_spec.

(** ** A concrete log: a join that the client retried, and a query *)
Section controller_examples.
#[local] Existing Instance range_default.

Definition ctrl_clerk : CtrlClerk := MakeClerk 3 7.
Definition ctrl_log : list CommandArgs :=
  [Clerk_Join ctrl_clerk groups12; Clerk_Join ctrl_clerk groups12;
   Clerk_Query (mkCtrlClerk 3 0 7 1) (-1)].
Definition ctrl_messages : list (ApplyMsg CommandArgs * Z * bool) :=
  (λ '(i, c), (mkApplyMsg true (Some c) i 2 false [] 0 0, 2, true)) <$> zip [1; 2; 3] ctrl_log.

Lemma controller_executes_log_witness :
  ∃ sc ex, apply_all StartServer ctrl_messages = Some (Ret sc) ∧
    stateMachine sc = foldl (λ cf c, (exec cf c).1) NewMemoryConfigStateMachine ex ∧
    len (stateMachine sc) = 2.
Proof.
  destruct (controller_executes_log ctrl_log ctrl_messages) as (sc & ex & Hap & _ & Hsm & _).
  - unfold ctrl_log. cbn [legal_log]. split; [intros _ _; split; by vm_compute|].
    split; [intros _ Hf; vm_compute in Hf; discriminate Hf|].
    split; [intros Hq; vm_compute in Hq; discriminate Hq|exact I].
  - split; [repeat constructor|]. apply (bool_decide_unpack _). by vm_compute.
  - exists sc, ex. split; [exact Hap|]. split; [exact Hsm|].
    vm_compute in Hap. apply (inj Some), Ret_inj in Hap. rewrite <-Hap. by vm_compute.
Defined.
End controller_examples.
