(* ===== verification/CtrlCluster.v ===== *)
(** * shardctrler over raft: replicated controllers agree

    The controllers of [src/src/shardctrler] as a service over a Raft cluster.  They
    take no snapshot and start empty, and each iterates its maps in an order of its
    own.  Every controller executes a prefix of one sequence of commands. *)
From Stdlib Require Import Init.Byte.
From S2P Require Import Prelude LabGob Raft RaftVote RaftAppend RaftSnapshot RaftNode.
From S2P Require Import RaftFrames RaftSystem RaftLog RaftSteps RaftSafety RaftService Dedup.
From S2P Require Import ShardConfig ShardCtrler.

(** What the RPC handler does to the controller outside [applier]. *)
Inductive CtrlOther := CtrlRegister (index : Z) | CtrlRemove (index : Z).

(** The map order, and what [rf.GetState] returned. *)
Definition ctrl_env : Type := MapRange * Z * bool.

#[export] Instance ctrl_machine : StateMachine ShardCtrler CommandArgs ctrl_env CtrlOther := {|
  sm_start := λ _, StartServer;
  sm_apply := λ '(r, term, isLeader) sc msg,
    match @applier r sc msg term isLeader with Some (Ret sc') => Some sc' | _ => None end;
  sm_other := λ o sc,
    match o with
    | CtrlRegister index => (getNotifyChan sc index).1
    | CtrlRemove index => removeOutdatedNotifyChan sc index
    end;
  sm_snap := λ _ _ _, None;
|}.

Section ctrl.
Implicit Types (sc : ShardCtrler) (c : CommandArgs) (cf : list Config).

(** The last configuration has a group for every shard. *)
Definition shaped cf : Prop := ∃ conf, last cf = Some conf ∧ len (Shards conf) = NShards.

Lemma assign_shards_len (r : MapRange) g a a' : @assign_shards r g a = Ret a' → len a' = len a.
Proof.
  unfold assign_shards. apply (ofold_inv (λ b, len b = len a)); [|done].
  intros b [gid shards] b' _ Hb H. revert H. apply (ofold_inv (λ b, len b = len a)); [|done].
  intros b1 s b2 _ Hb1 Hs. apply slice_set_len in Hs. congruence.
Qed.

Lemma shaped_snoc cf conf : len (Shards conf) = NShards → shaped (cf ++ [conf]).
Proof. intros. exists conf. by rewrite last_snoc. Qed.

(** A command that is executed leaves a configuration, and the map order does not
    matter. *)
Lemma applyLog_shaped (r : MapRange) cf c cf' reply :
  shaped cf → @applyLogToStateMachine r cf c = Some (Ret (cf', reply)) → shaped cf'.
Proof.
  intros (conf & Hlast & Hlen) H. unfold applyLogToStateMachine in H. destruct (cmd_Op c).
  - destruct (Join cf (Servers c)) as [o|] eqn:HJ; [|discriminate H]. apply (inj Some) in H.
    apply outcome_bind_Ret in H as (cf1 & -> & [= <- _]). unfold Join in HJ. rewrite Hlast in HJ.
    destruct (balance_loop _ _) as [[g|]|]; try discriminate HJ. apply (inj Some) in HJ.
    apply outcome_bind_Ret in HJ as (a & Ha%assign_shards_len & [= <-]). by apply shaped_snoc.
  - apply (inj Some) in H. apply outcome_bind_Ret in H as (cf1 & HL & [= <- _]). unfold Leave in HL. rewrite Hlast in HL.
    cbv zeta in HL. destruct (foldl _ _ _) as [[gs g] orphans]. apply outcome_bind_Ret in HL as (a & Ha & [= <-]).
    apply shaped_snoc. simpl. destruct (0 <? _); [|by injection Ha as <-].
    apply outcome_bind_Ret in Ha as ([a1 g1] & [Hd _]%distribute_partition & Ha%assign_shards_len). by rewrite Ha, Hd.
  - apply (inj Some) in H. apply outcome_bind_Ret in H as (cf1 & HM & [= <- _]). unfold Move in HM. rewrite Hlast in HM.
    apply outcome_bind_Ret in HM as (a & Ha%slice_set_len & [= <-]). apply shaped_snoc. simpl. congruence.
  - apply (inj Some) in H. apply outcome_bind_Ret in H as (q & _ & [= <- _]). by exists conf.
Qed.

Lemma applyLog_agree (r1 r2 : MapRange) cf c :
  shaped cf → @applyLogToStateMachine r1 cf c = @applyLogToStateMachine r2 cf c.
Proof.
  intros (conf & Hlast & Hlen). unfold applyLogToStateMachine. destruct (cmd_Op c); [| | |done].
  - by rewrite (Join_agree r1 r2 _ _ conf).
  - by rewrite (Leave_agree r1 r2 _ _ conf).
  - unfold Move. by rewrite Hlast, !deepCopy_id.
Qed.

(** The specification, with the maps in their default order. *)
Definition ctrl_spec (cs : list CommandArgs) : list Config * gmap Z (Z * CommandReply) :=
  drun (service := @ctrl_service range_default) (NewMemoryConfigStateMachine, ∅) cs.

(** Configurations are only added. *)
Lemma dstep_prefix cf t c :
  cf `prefix_of` (dstep (service := @ctrl_service range_default) (cf, t) c).1.
Proof.
  assert (cf `prefix_of` (exec (Service := @ctrl_service range_default) cf c).1) as He.
  { simpl. destruct (applyLogToStateMachine cf c) as [[[cf' rep]|]|] eqn:H; [|done..]. simpl.
    unfold applyLogToStateMachine in H. destruct (cmd_Op c).
    - destruct (Join cf (Servers c)) as [o|] eqn:HJ; [|discriminate H]. apply (inj Some) in H.
      apply outcome_bind_Ret in H as (cf1 & -> & [= <- _]). unfold Join in HJ. destruct (last cf); [|discriminate HJ].
      destruct (balance_loop _ _) as [[g|]|]; try discriminate HJ. apply (inj Some) in HJ.
      apply outcome_bind_Ret in HJ as (a & _ & [= <-]). by eexists.
    - apply (inj Some) in H. apply outcome_bind_Ret in H as (cf1 & HL & [= <- _]). unfold Leave in HL.
      destruct (last cf); [|discriminate HL]. cbv zeta in HL. destruct (foldl _ _ _) as [[gs g] orphans].
      apply outcome_bind_Ret in HL as (a & _ & [= <-]). by eexists.
    - apply (inj Some) in H. apply outcome_bind_Ret in H as (cf1 & HM & [= <- _]). unfold Move in HM.
      destruct (last cf); [|discriminate HM]. apply outcome_bind_Ret in HM as (a & _ & [= <-]). by eexists.
    - apply (inj Some) in H. apply outcome_bind_Ret in H as (q & _ & [= <- _]). done. }
  unfold dstep. destruct (tracked c); [|exact He]. destruct (fresh t c); [|done].
  by destruct (exec cf c).
Qed.

Lemma ctrl_spec_prefix cs cs' : cs `prefix_of` cs' → (ctrl_spec cs).1 `prefix_of` (ctrl_spec cs').1.
Proof.
  intros [more ->]. unfold ctrl_spec, drun. rewrite foldl_app.
  set (st := foldl _ _ cs). clearbody st. revert st.
  induction more as [|c more IH]; intros [cf t]; [done|]. cbn [foldl]. etrans; [apply (dstep_prefix cf t c)|apply IH].
Qed.

Definition ctrl_holds cs sc : Prop := models sc (ctrl_spec cs) ∧ shaped (stateMachine sc).

Lemma applier_holds (r : MapRange) term isLeader cs sc msg c sc' :
  ctrl_holds cs sc → CommandValid msg = true → Command msg = Some c →
  @applier r sc msg term isLeader = Some (Ret sc') → ctrl_holds (cs ++ [c]) sc'.
Proof.
  intros [Hm Hsh] Hv Hc H. unfold applier in H. rewrite Hv, Hc in H. simpl negb in H.
  rewrite (duplicate_fresh (ranges := range_default) sc (ctrl_spec cs)) in H by done.
  assert (ctrl_spec (cs ++ [c]) = dstep (service := @ctrl_service range_default) (ctrl_spec cs) c) as Hsnoc.
  { unfold ctrl_spec, drun. by rewrite foldl_app. }
  destruct (if negb (is_query c) && _ then _ else _) as [[[sc1 reply]|]|] eqn:Hr in H; [|discriminate H..].
  assert (ctrl_holds (cs ++ [c]) sc1) as Hh1.
  { unfold ctrl_holds. rewrite Hsnoc. destruct (ctrl_spec cs) as [cf t]. pose proof Hm as [Hcf Hlo]. simpl in *.
    destruct (is_query c) eqn:Hq; simpl in Hr.
    - destruct (applyLogToStateMachine _ _) as [[[cf' rep]|]|] eqn:Hap in Hr; simpl in Hr; try discriminate Hr.
      injection Hr as <- _. pose proof (applyLog_shaped _ _ _ _ _ Hsh Hap) as Hsh'.
      rewrite (applyLog_agree r range_default), Hcf in Hap by done. simpl. rewrite Hap. by split.
    - destruct (fresh t c) eqn:Hf; simpl in Hr.
      + destruct (applyLogToStateMachine _ _) as [[[cf' rep]|]|] eqn:Hap in Hr; simpl in Hr; try discriminate Hr.
        injection Hr as <- _. pose proof (applyLog_shaped _ _ _ _ _ Hsh Hap) as Hsh'.
        rewrite (applyLog_agree r range_default), Hcf in Hap by done. simpl. rewrite Hap.
        split; [|done]. split; [done|]. simpl. by rewrite Hlo, fmap_insert.
      + destruct (lastOperations sc !! ClientId c); [|discriminate Hr]. injection Hr as <- _. by split. }
  simpl in H. destruct (isLeader && _); [|by injection H as <-]. unfold getNotifyChan in H.
  destruct (notifyChans sc1 !! CommandIndex msg) as [[rp|]|]; simpl in H; [discriminate H|..]; injection H as <-; exact Hh1.
Qed.

#[export] Instance ctrl_lawful : Lawful ctrl_machine.
Proof.
  refine {| sm_holds := λ cs, ctrl_holds (omap id cs); sm_index := λ _, 0 |}.
  - intros ps _. split; [|done]. split; [apply StartServer_models|].
    exists DefaultConfig. by split.
  - intros [[r term] isLeader] cs sc msg sc' Hh Hv _ Hpos _ Hap. split; [|simpl in *; lia]. simpl in Hap.
    destruct (applier sc msg term isLeader) as [[sc1|]|] eqn:Ha; try discriminate Hap. injection Hap as <-.
    rewrite omap_app. destruct (Command msg) as [c|] eqn:Hc; [by eapply applier_holds|].
    unfold applier in Ha. rewrite Hv, Hc in Ha. discriminate Ha.
  - intros [index|index] cs sc Hh; (split; [|done]); [|exact Hh]. simpl. unfold getNotifyChan.
    by destruct (notifyChans sc !! index).
  - intros cs sc index size b ps _ Hsn. discriminate Hsn.
Defined.

Context {rgob : Gob (RaftGob CommandArgs)}.

(** C9. The replicas of the shard controller agree: in a steady execution (no unencoded
    entries overwritten, no [InstallSnapshot] handled) over a Raft cluster that loses,
    delays and reorders messages and whose nodes crash and restart, and whatever order
    each controller iterates its maps in, any two controllers, at the same or at
    different times, hold the configurations and the tables of clients that the
    specification computes on two sequences of commands of which one begins with the
    other; so one list of configurations begins with the other. *)
Theorem ctrl_replicas_agree n cl es cl' i j sc sc' taken taken' :
  cluster_reachable n cl → cluster_run es cl = Some cl' →
  replicas cl !! i = Some (sc, taken) → replicas cl' !! j = Some (sc', taken') →
  ∃ cs cs', (cs `prefix_of` cs' ∨ cs' `prefix_of` cs) ∧
    models sc (ctrl_spec cs) ∧ models sc' (ctrl_spec cs') ∧
    (stateMachine sc `prefix_of` stateMachine sc' ∨ stateMachine sc' `prefix_of` stateMachine sc).
Proof.
  intros Hc Hrun Hi Hj. destruct (replicas_agree n cl es cl' i j sc sc' taken taken' Hc Hrun Hi Hj)
    as (cs & cs' & [Hm _] & [Hm' _] & Hpre%omap_comparable). eexists _, _. split_and!; [exact Hpre|exact Hm|exact Hm'|].
  rewrite (proj1 Hm), (proj1 Hm'). destruct Hpre as [Hpre|Hpre]; [left|right]; by apply ctrl_spec_prefix.
Qed.
End ctrl.

(** ** A concrete cluster

    Two controllers that iterate their maps in opposite orders. *)
#[export] Instance OpType_countable : Countable OpType.
Proof.
  refine (inj_countable' (λ t, match t with OpJoinT => 0 | OpLeaveT => 1 | OpMoveT => 2 | OpQueryT => 3 end)
    (λ z, if z =? 0 then OpJoinT else if z =? 1 then OpLeaveT else if z =? 2 then OpMoveT else OpQueryT) _).
  by intros [].
Defined.

#[export] Instance CommandArgs_eq_dec : EqDecision CommandArgs.
Proof. solve_decision. Defined.

#[export] Instance CommandArgs_countable : Countable CommandArgs.
Proof.
  refine (inj_countable'
    (λ c, (((Servers c, GIDs c), (Shard c, GID c)), ((cmd_Num c, cmd_Op c), (ClientId c, CommandId c))))
    (λ '(((a, b), (c, d)), ((e, f), (g, h))), mkCommandArgs a b c d e f g h) _).
  by intros [].
Defined.

Section ctrl_example.
#[local] Instance ctrl_cluster_gob : Gob (RaftGob CommandArgs) := gob_of_countable (RaftGob CommandArgs).

Definition ctrl_cluster_events : list (ClusterEvent CommandArgs ctrl_env CtrlOther) :=
  (CRaft <$>
   [ECommit 0; ECommit 1; ECommit 2;
    ETimeout 0 0; EDeliver 0 0; EReceive 0 0; ELose 0; ETimeout 0 0; EDeliver 0 0; EReceive 0 0; ELose 0;
    EStart 0 0 (Some (Clerk_Join ctrl_clerk groups12)); ETimeout 0 0; EBegin 0; EEncode 0; EDeliver 0 0; EReceive 0 0;
    ECommit 0; ECommit 0; ECommit 0; ECommit 0;
    ETimeout 0 0; EBegin 1; EEncode 1; EDeliver 1 0; ECommit 1; ECommit 1; ECommit 1; ECommit 1]) ++
  [COther 0 (CtrlRegister 1); CApply 0 (range_default, 2, true)].

Definition ctrl_cluster_later : list (ClusterEvent CommandArgs ctrl_env CtrlOther) :=
  [CApply 1 (range_reverse, 2, false)].

Definition ctrl_cluster_init : Cluster CommandArgs ShardCtrler := cluster_init 3 (λ i, i) 0.
Definition ctrl_cluster : Cluster CommandArgs ShardCtrler :=
  default ctrl_cluster_init (cluster_run ctrl_cluster_events ctrl_cluster_init).
Definition ctrl_cluster' : Cluster CommandArgs ShardCtrler :=
  default ctrl_cluster_init (cluster_run ctrl_cluster_later ctrl_cluster).
Definition ctrl_server_of (cl : Cluster CommandArgs ShardCtrler) (i : Z) : ShardCtrler * nat :=
  default (StartServer, 0%nat) (replicas cl !! i).

Lemma ctrl_cluster_reachable : cluster_reachable 3 ctrl_cluster.
Proof. exists (λ i, i), 0, ctrl_cluster_events. by vm_compute. Qed.

Lemma ctrl_replicas_agree_witness :
  length (stateMachine (ctrl_server_of ctrl_cluster 0).1) = 2%nat ∧
  length (stateMachine (ctrl_server_of ctrl_cluster' 1).1) = 2%nat ∧
  ∃ cs cs', (cs `prefix_of` cs' ∨ cs' `prefix_of` cs) ∧
    models (ctrl_server_of ctrl_cluster 0).1 (ctrl_spec cs) ∧ models (ctrl_server_of ctrl_cluster' 1).1 (ctrl_spec cs') ∧
    (stateMachine (ctrl_server_of ctrl_cluster 0).1 `prefix_of` stateMachine (ctrl_server_of ctrl_cluster' 1).1 ∨
     stateMachine (ctrl_server_of ctrl_cluster' 1).1 `prefix_of` stateMachine (ctrl_server_of ctrl_cluster 0).1).
Proof.
  split; [by vm_compute|]. split; [by vm_compute|].
  apply (ctrl_replicas_agree 3 ctrl_cluster ctrl_cluster_later ctrl_cluster' 0 1
    (ctrl_server_of ctrl_cluster 0).1 (ctrl_server_of ctrl_cluster' 1).1
    (ctrl_server_of ctrl_cluster 0).2 (ctrl_server_of ctrl_cluster' 1).2).
  - apply ctrl_cluster_reachable.
  - by vm_compute.
  - by vm_compute.
  - by vm_compute.
Defined.
End ctrl_example.
