(* ===== verification/ServiceHarness.v ===== *)
(** * kvraft and shardctrler: their servers in the test harness

    The two packages whose [config.go] [KvHarness] models: what a server of each is, how
    [StartKVServer] and [StartServer] make it with its Raft and how [Kill] stops it.  The
    functions of [src/src/shardctrler/config.go] are those of kvraft but for [Leader],
    which skips servers that are down. *)
From Stdlib Require Import Init.Byte.
From stdpp Require Import pretty.
From S2P Require Import Prelude LabGob LabRpc Raft RaftNode KvRaft KvCluster ShardConfig ShardCtrler Harness KvHarness.

(** ** kvraft *)

(** A [KVServer] with its Raft and the flag [dead]. *)
Record KvHost := mkKvHost { kh_server : KVServer; kh_rf : Raft Op; kh_dead : bool }.

Section kvraft.
Context {rgob : Gob (RaftGob Op)} {kgob : Gob KvGob}.

Definition kv_Kill (kv : KvHost) : KvHost := mkKvHost (kh_server kv) (Raft.Kill (kh_rf kv)) true.
Definition kv_killed (kv : KvHost) : bool := kh_dead kv.

(** [maxraftstate] is a field of the configuration; the pair is what [rand.Intn] and
    [time.Now] returned to [Make]. *)
#[global] Instance kv_hosted (maxraftstate : Z) : Hosted KvHost (Z * Z) := {|
  host_start := λ n me env ps, mkKvHost (StartKVServer ps maxraftstate) (Make n me ps env.1 env.2) false;
  host_kill := kv_Kill;
  host_state := λ kv, GetState (kh_rf kv);
|}.
End kvraft.

(** ** shardctrler *)

Record CtrlHost := mkCtrlHost { ch_server : ShardCtrler; ch_rf : Raft CommandArgs; ch_dead : bool }.

Section shardctrler.
Context {rgob : Gob (RaftGob CommandArgs)}.

Definition ctrl_Kill (sc : CtrlHost) : CtrlHost := mkCtrlHost (ch_server sc) (Raft.Kill (ch_rf sc)) true.
Definition ctrl_killed (sc : CtrlHost) : bool := ch_dead sc.
Definition ctrl_Raft (sc : CtrlHost) : Raft CommandArgs := ch_rf sc.

#[global] Instance ctrl_hosted : Hosted CtrlHost (Z * Z) := {|
  host_start := λ n me env ps, mkCtrlHost ShardCtrler.StartServer (Make n me ps env.1 env.2) false;
  host_kill := ctrl_Kill;
  host_state := λ sc, GetState (ch_rf sc);
|}.

Definition ctrl_config : Type := KvHarness.config (K := CtrlHost).

Definition ctrl_LogSize : ctrl_config → outcome Z := LogSize.
Definition ctrl_connectUnlocked : Z → list Z → harness CtrlHost → outcome (harness CtrlHost) := connectUnlocked.
Definition ctrl_connect : Z → list Z → ctrl_config → outcome ctrl_config := connect.
Definition ctrl_disconnectUnlocked : Z → list Z → harness CtrlHost → outcome (harness CtrlHost) := disconnectUnlocked.
Definition ctrl_disconnect : Z → list Z → ctrl_config → outcome ctrl_config := disconnect.
Definition ctrl_All : harness CtrlHost → list Z := All.
Definition ctrl_ConnectAll : ctrl_config → outcome ctrl_config := ConnectAll.
Definition ctrl_partition : list Z → list Z → ctrl_config → outcome ctrl_config := partition.
Definition ctrl_makeClient : list Z → (Z → string) → (Z → Z) → ctrl_config → outcome (ctrl_config * (Z * list Z)) := makeClient.
Definition ctrl_deleteClient : Z → ctrl_config → ctrl_config := deleteClient.
Definition ctrl_ConnectClient : Z → list Z → ctrl_config → outcome ctrl_config := ConnectClient.
Definition ctrl_DisconnectClient : Z → list Z → ctrl_config → outcome ctrl_config := DisconnectClient.
Definition ctrl_ShutdownServer : Z → ctrl_config → outcome ctrl_config := ShutdownServer (E := Z * Z).
Definition ctrl_StartServer : Z → (Z → string) → Z * Z → ctrl_config → outcome ctrl_config := StartServer.
Definition ctrl_Leader : harness CtrlHost → outcome (bool * Z) := Leader_skip (E := Z * Z).
Definition ctrl_make_partition : ctrl_config → outcome (list Z * list Z) := make_partition ctrl_Leader.
Definition ctrl_make_config : Z → bool → Z → (Z → Z → string) → (Z → Z * Z) → outcome ctrl_config := make_config.
Definition ctrl_checkTimeout : bool → Z → ctrl_config → outcome unit := checkTimeout.
Definition ctrl_cleanup : bool → Z → ctrl_config → outcome ctrl_config := cleanup (E := Z * Z).
End shardctrler.

(** ** An example: three servers of kvraft and a clerk, split while the first one leads *)
Section service_example.
#[local] Instance service_rgob : Gob (RaftGob Op) := gob_of_countable (RaftGob Op).
#[local] Instance service_kgob : Gob KvGob := gob_of_countable KvGob.
#[local] Instance service_hosted : Hosted KvHost (Z * Z) := kv_hosted 1000.

Definition service_name (i j : Z) : string := pretty i +:+ "-" +:+ pretty j.

Definition service_leader : KvHost :=
  let kv := host_start 3 0 (0, 0) MakePersister in
  mkKvHost (kh_server kv) (kh_rf kv <| Raft.state := Raft.Leader |>) false.

Definition service_config0 : KvHarness.config (K := KvHost) :=
  result_or (mkConfig (make_slots 3) ∅ 0 0 0 0 0) (make_config 3 false 0 service_name (λ i, (i, 0))).

Definition service_events : list (KvEvent (K := KvHost) (E := Z * Z)) :=
  [KServer 0 service_leader MakePersister; KMakeClient [0; 2] (service_name 7) (λ i, 0);
   KShutdown 1; KStart 1 (service_name 8) (0, 0); KConnectAll].

Definition service_config1 : KvHarness.config (K := KvHost) :=
  result_or service_config0 (ofold (λ cfg e, kv_exec e cfg) service_config0 service_events).

Lemma leader_in_minority_witness :
  make_partition Leader service_config1 = Ret ([1; 2], [0]) ∧
  ∃ found l p1 p2 cfg', Leader (hs service_config1) = Ret (found, l) ∧
    make_partition Leader service_config1 = Ret (p1, p2) ∧ partition p1 p2 service_config1 = Ret cfg' ∧ l ∈ p2 ∧
    linked (hs cfg') 1 2 = bool_decide (1 ∈ p1 ↔ 2 ∈ p1).
Proof.
  split; [by vm_compute|].
  destruct (leader_in_minority 1 service_config1) as (found & l & p1 & p2 & cfg' & H1 & _ & H2 & _ & H3 & _ & _ & H4 & H5 & _).
  - lia.
  - exists false, 0, service_name, (λ i, (i, 0)), service_config0, service_events. split; by apply result_or_Ret; vm_compute.
  - by vm_compute.
  - exists found, l, p1, p2, cfg'. split; [exact H1|]. split; [exact H2|]. split; [exact H3|]. split; [exact H4|]. apply H5; lia.
Defined.
End service_example.

(** With an even number of servers the sides overlap: the last place but one of the
    smaller side is never filled and stays 0. *)
Lemma split_servers_even_overlap : split_servers 4 2 = Ret ([0; 1; 3], [0; 2]).
Proof. by vm_compute. Qed.
