(* ===== verification/ShardKv.v ===== *)
(** * shardkv: a replica group of the sharded key/value service

    Models [src/src/shardkv/server.go], [shard.go], [common.go] and [client.go].
    [ShardKV] is the state of one server; the commands of the group's Raft log are
    applied by [apply_command], which [applier] wraps with the bookkeeping of
    indices, notifications and snapshots.  The four monitored actions are given by
    the commands or the remote calls they start from a state.  Nil maps and empty
    ones are not told apart. *)
From Stdlib Require Import Init.Byte Strings.Ascii.
From S2P Require Import Prelude LabGob Raft ShardConfig.

(** ** common.go *)

Inductive Err := OK | ErrNoKey | ErrWrongGroup | ErrWrongLeader | ErrOutDated | ErrTimeout | ErrNotReady.

#[export] Instance kv_Err_eq_dec : EqDecision Err.
Proof. solve_decision. Defined.

Inductive ShardStatus := Serving | Pulling | BePulling | GCing.

#[export] Instance ShardStatus_eq_dec : EqDecision ShardStatus.
Proof. solve_decision. Defined.

Inductive OperationType := Get | Put | Append.

#[export] Instance OperationType_eq_dec : EqDecision OperationType.
Proof. solve_decision. Defined.

Record CommandArgs := mkCommandArgs {
  ca_Key : string; ca_Value : string; ca_Op : OperationType; ca_ClientId : Z; ca_CommandId : Z }.

Record CommandReply := mkCommandReply { cr_Err : Err; cr_Value : string }.

Record OperationContext := mkOperationContext {
  MaxAppliedCommandId : Z;
  LastReply : CommandReply;
}.

Definition OperationContext_deepCopy (ctx : OperationContext) : OperationContext :=
  mkOperationContext (MaxAppliedCommandId ctx)
    (mkCommandReply (cr_Err (LastReply ctx)) (cr_Value (LastReply ctx))).

Record ShardOperationArgs := mkShardOperationArgs { soa_ConfigNum : Z; soa_ShardIDs : list Z }.

Record ShardOperationReply := mkShardOperationReply {
  sor_Err : Err;
  sor_ConfigNum : Z;
  sor_Shards : gmap Z (gmap string string);
  sor_LastOperations : gmap Z OperationContext;
}.

(** [Command]: the constructor is the [CommandType], its argument the [Data]. *)
Inductive Command :=
| Operation (args : CommandArgs)
| Configuration (config : Config)
| InsertShards (reply : ShardOperationReply)
| DeleteShards (args : ShardOperationArgs)
| EmptyShards.

(** ** shard.go *)

Record Shard := mkShard { KV : gmap string string; Status : ShardStatus }.

Definition NewShard : Shard := mkShard ∅ Serving.

Definition Shard_Get (sh : Shard) (key : string) : string * Err :=
  match KV sh !! key with Some v => (v, OK) | None => (""%string, ErrNoKey) end.

Definition Shard_Put (sh : Shard) (key value : string) : Shard * Err :=
  (mkShard (<[key := value]> (KV sh)) (Status sh), OK).

(** [shard.KV[key] += value]: a missing key reads as the empty string. *)
Definition Shard_Append (sh : Shard) (key value : string) : Shard * Err :=
  (mkShard (<[key := default ""%string (KV sh !! key) +:+ value]> (KV sh)) (Status sh), OK).

(** ** client.go: key to shard *)

Definition key2shard (key : string) : Z :=
  match key with
  | EmptyString => 0
  | String c _ => Z.of_N (N_of_ascii c) mod NShards
  end.

(** ** server.go *)

Record ShardKV := mkShardKV {
  gid : Z;
  maxRaftState : Z;
  kv_lastApplied : Z;
  lastConfig : Config;
  currentConfig : Config;
  stateMachine : gmap Z Shard;
  lastOperations : gmap Z OperationContext;
  notifyChans : gmap Z (option CommandReply);
}.

Definition eta_ShardKV (kv : ShardKV) : ShardKV :=
  mkShardKV (gid kv) (maxRaftState kv) (kv_lastApplied kv) (lastConfig kv) (currentConfig kv)
    (stateMachine kv) (lastOperations kv) (notifyChans kv).

#[global] Instance set_kv_lastApplied : Setter kv_lastApplied := λ f x, ltac:(solve_setter eta_ShardKV kv_lastApplied f x).
#[global] Instance set_lastConfig : Setter lastConfig := λ f x, ltac:(solve_setter eta_ShardKV lastConfig f x).
#[global] Instance set_currentConfig : Setter currentConfig := λ f x, ltac:(solve_setter eta_ShardKV currentConfig f x).
#[global] Instance set_stateMachine : Setter stateMachine := λ f x, ltac:(solve_setter eta_ShardKV stateMachine f x).
#[global] Instance set_lastOperations : Setter lastOperations := λ f x, ltac:(solve_setter eta_ShardKV lastOperations f x).
#[global] Instance set_notifyChans : Setter notifyChans := λ f x, ltac:(solve_setter eta_ShardKV notifyChans f x).

Definition status_is (st st' : ShardStatus) : bool := bool_decide (st = st').

(** [kv.stateMachine[shardID]], dereferenced. *)
Definition shard_at (sm : gmap Z Shard) (shardID : Z) : outcome Shard :=
  match sm !! shardID with Some sh => Ret sh | None => Panic end.

Section server.
Context {ranges : MapRange}.
Implicit Types kv : ShardKV.

Definition Shard_deepCopy (sh : Shard) : gmap string string :=
  foldl (λ m '(k, v), <[k := v]> m) ∅ (range (KV sh)).

Definition isDuplicateRequest kv (clientId commandId : Z) : bool :=
  match lastOperations kv !! clientId with
  | Some ctx => commandId <=? MaxAppliedCommandId ctx
  | None => false
  end.

Definition canServe kv (shardID : Z) : outcome bool :=
  owner ← slice_get (Shards (currentConfig kv)) shardID;
  if negb (owner =? gid kv) then Ret false
  else
    sh ← shard_at (stateMachine kv) shardID;
    Ret (status_is (Status sh) Serving || status_is (Status sh) GCing).

Definition applyLogToStateMachine kv (op : CommandArgs) (shardID : Z) :
    outcome (ShardKV * CommandReply) :=
  sh ← shard_at (stateMachine kv) shardID;
  match ca_Op op with
  | Get => let '(v, err) := Shard_Get sh (ca_Key op) in Ret (kv, mkCommandReply err v)
  | Put =>
      let '(sh, err) := Shard_Put sh (ca_Key op) (ca_Value op) in
      Ret (kv <| stateMachine := <[shardID := sh]> (stateMachine kv) |>, mkCommandReply err "")
  | Append =>
      let '(sh, err) := Shard_Append sh (ca_Key op) (ca_Value op) in
      Ret (kv <| stateMachine := <[shardID := sh]> (stateMachine kv) |>, mkCommandReply err "")
  end.

Definition is_get (op : CommandArgs) : bool := bool_decide (ca_Op op = Get).

Definition applyOperation kv (op : CommandArgs) : outcome (ShardKV * CommandReply) :=
  let shardID := key2shard (ca_Key op) in
  ok ← canServe kv shardID;
  if negb ok then Ret (kv, mkCommandReply ErrWrongGroup "")
  else if negb (is_get op) && isDuplicateRequest kv (ca_ClientId op) (ca_CommandId op) then
    match lastOperations kv !! ca_ClientId op with
    | Some ctx => Ret (kv, mkCommandReply (cr_Err (LastReply ctx)) (cr_Value (LastReply ctx)))
    | None => Panic
    end
  else
    '(kv, reply) ← applyLogToStateMachine kv op shardID;
    Ret (if is_get op then kv
         else kv <| lastOperations := <[ca_ClientId op :=
                      mkOperationContext (ca_CommandId op) reply]> (lastOperations kv) |>, reply).

(** One iteration of the loop of [updateShardStatus]. *)
Definition updateShard kv (nextConfig : Config) (sm : gmap Z Shard) (shardID : Z) :
    outcome (gmap Z Shard) :=
  cur ← slice_get (Shards (currentConfig kv)) shardID;
  next ← slice_get (Shards nextConfig) shardID;
  sm ← (if negb (cur =? gid kv) && (next =? gid kv) && negb (cur =? 0) then
          sh ← shard_at sm shardID;
          Ret (<[shardID := mkShard (KV sh) Pulling]> sm)
        else Ret sm);
  if (cur =? gid kv) && negb (next =? gid kv) && negb (next =? 0) then
    sh ← shard_at sm shardID;
    Ret (<[shardID := mkShard (KV sh) BePulling]> sm)
  else Ret sm.

Definition updateShardStatus kv (nextConfig : Config) : outcome ShardKV :=
  sm ← ofold (updateShard kv nextConfig) (stateMachine kv) (zrange NShards);
  Ret (kv <| stateMachine := sm |>).

Definition applyConfiguration kv (nextConfig : Config) : outcome (ShardKV * CommandReply) :=
  if Num nextConfig =? Num (currentConfig kv) + 1 then
    kv ← updateShardStatus kv nextConfig;
    Ret (kv <| lastConfig := currentConfig kv |> <| currentConfig := nextConfig |>,
         mkCommandReply OK "")
  else Ret (kv, mkCommandReply ErrOutDated "").

(** [for shardID, shardData := range shardsInfo.Shards] *)
Fixpoint insert_loop (sm : gmap Z Shard) (shards : list (Z * gmap string string)) :
    outcome (gmap Z Shard) :=
  match shards with
  | [] => Ret sm
  | (shardID, shardData) :: shards =>
      sh ← shard_at sm shardID;
      if status_is (Status sh) Pulling then
        let kvs := foldl (λ m '(key, value), <[key := value]> m) (KV sh) (range shardData) in
        insert_loop (<[shardID := mkShard kvs GCing]> sm) shards
      else Ret sm
  end.

(** The second loop: a client's context is replaced by a later one. *)
Definition merge_operations (ops : gmap Z OperationContext) (more : list (Z * OperationContext)) :
    gmap Z OperationContext :=
  foldl (λ ops '(clientId, ctx),
    match ops !! clientId with
    | Some last => if MaxAppliedCommandId last <? MaxAppliedCommandId ctx
                   then <[clientId := ctx]> ops else ops
    | None => <[clientId := ctx]> ops
    end) ops more.

Definition applyInsertShards kv (info : ShardOperationReply) : outcome (ShardKV * CommandReply) :=
  if sor_ConfigNum info =? Num (currentConfig kv) then
    sm ← insert_loop (stateMachine kv) (range (sor_Shards info));
    Ret (kv <| stateMachine := sm |>
            <| lastOperations := merge_operations (lastOperations kv)
                                   (range (sor_LastOperations info)) |>,
         mkCommandReply OK "")
  else Ret (kv, mkCommandReply ErrOutDated "").

Fixpoint delete_loop (sm : gmap Z Shard) (shardIDs : list Z) : outcome (gmap Z Shard) :=
  match shardIDs with
  | [] => Ret sm
  | shardID :: shardIDs =>
      sh ← shard_at sm shardID;
      if status_is (Status sh) GCing
      then delete_loop (<[shardID := mkShard (KV sh) Serving]> sm) shardIDs
      else if status_is (Status sh) BePulling
      then delete_loop (<[shardID := NewShard]> sm) shardIDs
      else Ret sm
  end.

Definition applyDeleteShards kv (info : ShardOperationArgs) : outcome (ShardKV * CommandReply) :=
  if soa_ConfigNum info =? Num (currentConfig kv) then
    sm ← delete_loop (stateMachine kv) (soa_ShardIDs info);
    Ret (kv <| stateMachine := sm |>, mkCommandReply OK "")
  else Ret (kv, mkCommandReply OK "").

Definition applyEmptyShards kv : outcome (ShardKV * CommandReply) :=
  Ret (kv, mkCommandReply OK "").

(** The [switch] of [applier]. *)
Definition apply_command kv (command : Command) : outcome (ShardKV * CommandReply) :=
  match command with
  | Operation args => applyOperation kv args
  | Configuration config => applyConfiguration kv config
  | InsertShards info => applyInsertShards kv info
  | DeleteShards info => applyDeleteShards kv info
  | EmptyShards => applyEmptyShards kv
  end.

Definition getNotifyChan kv (index : Z) : ShardKV * option CommandReply :=
  match notifyChans kv !! index with
  | Some buf => (kv, buf)
  | None => (kv <| notifyChans := <[index := None]> (notifyChans kv) |>, None)
  end.

Definition removeOutdatedNotifyChan kv (index : Z) : ShardKV :=
  kv <| notifyChans := delete index (notifyChans kv) |>.

(** ** Snapshots *)

Inductive ShardGob :=
| GConfig (c : Config)
| GMachine (sm : gmap Z Shard)
| GOps (ops : gmap Z OperationContext).

Definition get_config (v : ShardGob) : option Config :=
  match v with GConfig c => Some c | _ => None end.
Definition get_machine (v : ShardGob) : option (gmap Z Shard) :=
  match v with GMachine sm => Some sm | _ => None end.
Definition get_ops (v : ShardGob) : option (gmap Z OperationContext) :=
  match v with GOps ops => Some ops | _ => None end.

Context {gob : Gob ShardGob}.

(** [size] is what [rf.GetRaftStateSize] returned. *)
Definition needSnapshot kv (size : Z) : bool :=
  negb (maxRaftState kv =? -1) && (size >=? maxRaftState kv).

(** The bytes [takeSnapshot] passes to [rf.Snapshot]. *)
Definition takeSnapshot kv : list byte :=
  let e := NewEncoder in
  let e := Encode e (GConfig (lastConfig kv)) in
  let e := Encode e (GConfig (currentConfig kv)) in
  let e := Encode e (GMachine (stateMachine kv)) in
  let e := Encode e (GOps (lastOperations kv)) in
  Bytes e.

Definition initStateMachines kv : ShardKV :=
  kv <| stateMachine :=
    foldl (λ sm shardID, match sm !! shardID with
                         | Some _ => sm
                         | None => <[shardID := NewShard]> sm
                         end) (stateMachine kv) (zrange NShards) |>.

(** [Decode] into a variable: its zero value stays when decoding has failed. *)
Definition decode_var {A} (get : ShardGob → option A) (zero : A) (d : option (LabDecoder ShardGob)) :
    A * option (LabDecoder ShardGob) :=
  match d with
  | None => (zero, None)
  | Some d => match Decode get d with Some (a, d) => (a, Some d) | None => (zero, None) end
  end.

Definition restoreSnapshot kv (snapshot : list byte) : ShardKV :=
  if len snapshot <? 1 then initStateMachines kv
  else
    let zeroConfig := mkConfig 0 zeroShards ∅ in
    let '(lastConfig', d) := decode_var get_config zeroConfig (Some (NewDecoder snapshot)) in
    let '(currentConfig', d) := decode_var get_config zeroConfig d in
    let '(stateMachine', d) := decode_var get_machine ∅ d in
    let '(lastOperations', _) := decode_var get_ops ∅ d in
    kv <| lastConfig := lastConfig' |> <| currentConfig := currentConfig' |>
       <| stateMachine := stateMachine' |> <| lastOperations := lastOperations' |>.

Definition StartServer (ps : Persister) (maxraftstate gid : Z) : ShardKV :=
  restoreSnapshot (mkShardKV gid maxraftstate 0 DefaultConfig DefaultConfig ∅ ∅ ∅) (ReadSnapshot ps).

(** ** applier *)

(** One message; [term] and [isLeader] are what [rf.GetState] returned, [size] what
    [rf.GetRaftStateSize] did.  The second result is the call of [rf.Snapshot].  The
    outer [None]: the goroutine blocks on a channel whose buffer is full. *)
Definition applier kv (msg : ApplyMsg Command) (term : Z) (isLeader : bool) (size : Z) :
    option (outcome (ShardKV * option (Z * list byte))) :=
  if CommandValid msg then
    if CommandIndex msg <=? kv_lastApplied kv then Some (Ret (kv, None))
    else
      let kv := kv <| kv_lastApplied := CommandIndex msg |> in
      match Raft.Command msg with
      | None => Some Panic
      | Some command =>
          match apply_command kv command with
          | Panic => Some Panic
          | Ret (kv, reply) =>
              kv ← (if isLeader && (CommandTerm msg =? term) then
                      let '(kv, buf) := getNotifyChan kv (CommandIndex msg) in
                      match buf with
                      | Some _ => None
                      | None => Some (kv <| notifyChans :=
                                  <[CommandIndex msg := Some reply]> (notifyChans kv) |>)
                      end
                    else Some kv);
              Some (Ret (kv, if needSnapshot kv size
                             then Some (CommandIndex msg, takeSnapshot kv) else None))
          end
      end
  else if SnapshotValid msg then
    Some (Ret ((restoreSnapshot kv (Snapshot_ msg)) <| kv_lastApplied := SnapshotIndex msg |>, None))
  else Some Panic.

(** ** RPC handlers *)

(** [GetShardsData]; [isLeader] is what [rf.GetState] returned. *)
Definition GetShardsData kv (isLeader : bool) (args : ShardOperationArgs) :
    outcome ShardOperationReply :=
  if negb isLeader then Ret (mkShardOperationReply ErrWrongLeader 0 ∅ ∅)
  else if Num (currentConfig kv) <? soa_ConfigNum args
  then Ret (mkShardOperationReply ErrNotReady 0 ∅ ∅)
  else
    shards ← ofold (λ m shardID, sh ← shard_at (stateMachine kv) shardID;
                                 Ret (<[shardID := Shard_deepCopy sh]> m)) ∅ (soa_ShardIDs args);
    let ops := foldl (λ m '(clientId, ctx), <[clientId := OperationContext_deepCopy ctx]> m) ∅
                 (range (lastOperations kv)) in
    Ret (mkShardOperationReply OK (soa_ConfigNum args) shards ops).

(** [DeleteShardsData] before it executes anything: the error returned at once. *)
Definition DeleteShardsData_guard kv (isLeader : bool) (args : ShardOperationArgs) : option Err :=
  if negb isLeader then Some ErrWrongLeader
  else if Num (currentConfig kv) >? soa_ConfigNum args then Some OK
  else None.

(** [Command] before it executes anything. *)
Definition Command_guard kv (args : CommandArgs) : outcome (option CommandReply) :=
  if negb (is_get args) && isDuplicateRequest kv (ca_ClientId args) (ca_CommandId args) then
    match lastOperations kv !! ca_ClientId args with
    | Some ctx => Ret (Some (mkCommandReply (cr_Err (LastReply ctx)) (cr_Value (LastReply ctx))))
    | None => Panic
    end
  else
    ok ← canServe kv (key2shard (ca_Key args));
    Ret (if negb ok then Some (mkCommandReply ErrWrongGroup "") else None).

(** [Execute]: [start] is what [rf.Start] returned, [during] what other goroutines did
    while it waited, [wait] what the channel delivered, [None] the timeout. *)
Definition Execute kv (start : Z * Z * bool) (during : ShardKV → ShardKV)
    (wait : option CommandReply) : ShardKV * CommandReply :=
  let '(index, _, isLeader) := start in
  if negb isLeader then (kv, mkCommandReply ErrWrongLeader "")
  else
    let kv := during (getNotifyChan kv index).1 in
    (removeOutdatedNotifyChan kv index,
     match wait with Some result => result | None => mkCommandReply ErrTimeout "" end).

(** ** The monitored actions *)

(** [getShardIDsByStatus]: the group that held the shard in [lastConfig] -> shards. *)
Definition getShardIDsByStatus kv (status : ShardStatus) : outcome (gmap Z (list Z)) :=
  ofold (λ m '(shardID, sh),
    if status_is (Status sh) status then
      g ← slice_get (Shards (lastConfig kv)) shardID;
      Ret (if negb (g =? 0) then <[g := mget m g ++ [shardID]]> m else m)
    else Ret m) ∅ (range (stateMachine kv)).

(** [configurationAction]: whether the next configuration may be performed, and the
    command executed for the configuration [Query] returned. *)
Definition canPerformNextConfig kv : bool :=
  forallb (λ '(_, sh), status_is (Status sh) Serving) (range (stateMachine kv)).

Definition configurationAction kv (query : Z → Config) : option Command :=
  let num := Num (currentConfig kv) in
  if canPerformNextConfig kv then
    let nextConfig := query (num + 1) in
    if Num nextConfig =? num + 1 then Some (Configuration nextConfig) else None
  else None.

(** [migrationAction] and [gcAction]: the servers called, per group, with their
    arguments. *)
Definition shard_tasks kv (status : ShardStatus) :
    outcome (list (Z * list string * ShardOperationArgs)) :=
  m ← getShardIDsByStatus kv status;
  Ret ((λ '(g, shardIDs), (g, mget (Groups (lastConfig kv)) g,
                            mkShardOperationArgs (Num (currentConfig kv)) shardIDs)) <$> range m).

Definition migrationAction kv := shard_tasks kv Pulling.
Definition gcAction kv := shard_tasks kv GCing.

(** What each of them executes once a server has answered. *)
Definition migration_reply (ok : bool) (reply : ShardOperationReply) : option Command :=
  if ok && bool_decide (sor_Err reply = OK) then Some (InsertShards reply) else None.
Definition gc_reply (args : ShardOperationArgs) (ok : bool) (err : Err) : option Command :=
  if ok && bool_decide (err = OK) then Some (DeleteShards args) else None.

(** [checkEntryInCurrentTermAction] *)
Definition checkEntryInCurrentTermAction (hasLog : bool) : option Command :=
  if negb hasLog then Some EmptyShards else None.

End server.

(** ** The clerk *)

Record Clerk := mkClerk {
  ck_config : Config;
  leaderIds : gmap Z Z;
  ck_clientId : Z;
  ck_commandId : Z;
}.

(** What the inner loop of [Clerk.Command] does with an answer. *)
Inductive ClerkStep :=
| Done (value : string)       (* return, after [commandId++] *)
| NextServer (newLeader : Z)  (* call [servers[newLeader]] *)
| Refresh.                    (* sleep, query the latest configuration and start over *)

(** Before the first call: the group and the server, and the default leader. *)
Definition Clerk_target (ck : Clerk) (args : CommandArgs) :
    outcome (Clerk * option (list string * Z)) :=
  g ← slice_get (Shards (ck_config ck)) (key2shard (ca_Key args));
  match Groups (ck_config ck) !! g with
  | None => Ret (ck, None)
  | Some servers =>
      let leaders := match leaderIds ck !! g with
                     | Some _ => leaderIds ck
                     | None => <[g := 0]> (leaderIds ck)
                     end in
      let ck := mkClerk (ck_config ck) leaders (ck_clientId ck) (ck_commandId ck) in
      Ret (ck, Some (servers, default 0 (leaders !! g)))
  end.

Definition Clerk_step (servers : list string) (oldLeaderId newLeader : Z) (ok : bool)
    (reply : CommandReply) : ClerkStep :=
  if ok && (bool_decide (cr_Err reply = OK) || bool_decide (cr_Err reply = ErrNoKey))
  then Done (cr_Value reply)
  else if ok && bool_decide (cr_Err reply = ErrWrongGroup) then Refresh
  else
    let newLeader := (newLeader + 1) mod len servers in
    if newLeader =? oldLeaderId then Refresh else NextServer newLeader.

Definition Clerk_args (ck : Clerk) (op : OperationType) (key value : string) : CommandArgs :=
  mkCommandArgs key value op (ck_clientId ck) (ck_commandId ck).

(** ** Concrete instances *)
#[export] Instance Config_eq_dec : EqDecision Config.
Proof. solve_decision. Defined.

#[export] Instance Config_countable : Countable Config.
Proof.
  refine (inj_countable' (λ c, (Num c, Shards c, Groups c)) (λ '(a, b, c), mkConfig a b c) _).
  by intros [].
Defined.

Definition status_num (st : ShardStatus) : N :=
  match st with Serving => 0 | Pulling => 1 | BePulling => 2 | GCing => 3 end%N.

Definition err_num (e : Err) : N :=
  match e with OK => 0 | ErrNoKey => 1 | ErrWrongGroup => 2 | ErrWrongLeader => 3
             | ErrOutDated => 4 | ErrTimeout => 5 | ErrNotReady => 6 end%N.

#[export] Instance ShardStatus_countable : Countable ShardStatus.
Proof.
  refine (inj_countable' status_num
            (λ n, match n with 0 => Serving | 1 => Pulling | 2 => BePulling | _ => GCing end%N) _).
  by intros [].
Defined.

#[export] Instance Err_countable : Countable Err.
Proof.
  refine (inj_countable' err_num
            (λ n, match n with 0 => OK | 1 => ErrNoKey | 2 => ErrWrongGroup | 3 => ErrWrongLeader
                             | 4 => ErrOutDated | 5 => ErrTimeout | _ => ErrNotReady end%N) _).
  by intros [].
Defined.

#[export] Instance Shard_eq_dec : EqDecision Shard.
Proof. solve_decision. Defined.

#[export] Instance Shard_countable : Countable Shard.
Proof.
  refine (inj_countable' (λ sh, (KV sh, Status sh)) (λ '(a, b), mkShard a b) _). by intros [].
Defined.

#[export] Instance CommandReply_eq_dec : EqDecision CommandReply.
Proof. solve_decision. Defined.

#[export] Instance OperationContext_eq_dec : EqDecision OperationContext.
Proof. solve_decision. Defined.

#[export] Instance OperationContext_countable : Countable OperationContext.
Proof.
  refine (inj_countable' (λ c, (MaxAppliedCommandId c, cr_Err (LastReply c), cr_Value (LastReply c)))
            (λ '(a, b, c), mkOperationContext a (mkCommandReply b c)) _). by intros [? []].
Defined.

#[export] Instance ShardGob_eq_dec : EqDecision ShardGob.
Proof. solve_decision. Defined.

#[export] Instance ShardGob_countable : Countable ShardGob.
Proof.
  refine (inj_countable'
    (λ v, match v with GConfig c => inl (inl c) | GMachine m => inl (inr m) | GOps o => inr o end)
    (λ v, match v with inl (inl c) => GConfig c | inl (inr m) => GMachine m | inr o => GOps o end) _).
  by intros [].
Defined.

(** A codec for the snapshots. *)
Definition shard_gob : Gob ShardGob := gob_of_countable ShardGob.

(** ** Shards of keys *)

Lemma key2shard_range key : 0 ≤ key2shard key < NShards.
Proof. unfold key2shard. destruct key; [done|]. by apply Z.mod_pos_bound. Qed.
