(* ===== verification/Clerks.v ===== *)
(** * The clerks: retrying until an answer comes

    The loops of [src/src/kvraft/client.go], [src/src/shardctrler/client.go] and
    [src/src/shardkv/client.go] around the steps in [KvRaft], [ShardCtrler] and [ShardKv]:
    a request is sent with one identifier until a server answers it.  What the network
    does is a function: the answer to the [t]-th call, to a server, with arguments.  A
    loop that does not end with its fuel is [None].

    The theorems say when a loop ends: once one server answers every call and the others
    send the clerk on. *)
From S2P Require Import Prelude KvRaft ShardConfig ShardCtrler ShardKv.

(** ** Going round the servers *)

Section retry.
Context {S R : Type} (ask : Z → S → S + R).

(** [for { ... continue ... return ... }]; also the number of the last call. *)
Fixpoint retry (fuel : nat) (t : Z) (s : S) : option (Z * S * R) :=
  match fuel with
  | O => None
  | Datatypes.S fuel => match ask t s with inr r => Some (t, s, r) | inl s' => retry fuel (t + 1) s' end
  end.

Context (leader : S → Z) (n : Z) (ok : S → Prop).
Context (ok_leader : ∀ s, ok s → 0 ≤ leader s < n) (ok_ask : ∀ t s s', ok s → ask t s = inl s' → ok s').

(** The answer is that of the last call. *)
Lemma retry_answer fuel t s t' s' r : ok s → retry fuel t s = Some (t', s', r) → t ≤ t' ∧ ok s' ∧ ask t' s' = inr r.
Proof.
  revert t s. induction fuel as [|fuel IH]; intros t s Hs; simpl; [done|].
  destruct (ask t s) as [s1|r1] eqn:Ha; [|intros [= <- <- <-]; split_and!; [lia|done|done]].
  intros Hr. destruct (IH (t + 1) s1) as (? & ? & ?); [by eapply ok_ask|done|]. split_and!; [lia|done|done].
Qed.

(** From time [t0] on server [l] answers and the others send the clerk to the next one. *)
Context (t0 l : Z) (l_range : 0 ≤ l < n).
Context (settled : ∀ t s s', t0 ≤ t → ok s → ask t s = inl s' → leader s ≠ l ∧ leader s' = (leader s + 1) mod n).

Lemma retry_settled (fuel : nat) t s :
  t0 ≤ t → ok s → ((l - leader s) mod n < Z.of_nat fuel) → is_Some (retry fuel t s).
Proof.
  revert t s. induction fuel as [|fuel IH]; intros t s Ht Hs Hf.
  { pose proof (Z.mod_pos_bound (l - leader s) n). lia. }
  simpl. destruct (ask t s) as [s1|r1] eqn:Ha; [|by eexists].
  destruct (settled t s s1 Ht Hs Ha) as [Hne Hnext]. pose proof (ok_leader s Hs) as Hl.
  apply IH; [lia|by eapply ok_ask|]. rewrite Hnext.
  assert ((l - (leader s + 1) mod n) mod n = (l - leader s) mod n - 1) as Hd; [|lia].
  rewrite Zminus_mod_idemp_r. destruct (Z.lt_trichotomy (leader s) l) as [Hlt|[Heq|Hgt]]; [|lia|].
  - rewrite (Z.mod_small (l - leader s)), Z.mod_small by lia. lia.
  - rewrite <-(Z_mod_plus_full (l - leader s) 1), <-(Z_mod_plus_full (l - (leader s + 1)) 1), !Z.mod_small by lia. lia.
Qed.

Lemma retry_returns (fuel : nat) t s :
  ok s → Z.max 0 (t0 - t) + n ≤ Z.of_nat fuel → is_Some (retry fuel t s).
Proof.
  revert t s. induction fuel as [|fuel IH]; intros t s Hs Hf; [lia|].
  destruct (Z.le_gt_cases t0 t) as [Ht|Ht].
  - apply retry_settled; [done|done|]. pose proof (Z.mod_pos_bound (l - leader s) n). lia.
  - simpl. destruct (ask t s) as [s1|r1] eqn:Ha; [|by eexists]. apply IH; [by eapply ok_ask|lia].
Qed.
End retry.

(** ** kvraft *)

Section kv_clerk.
Context (call_get : Z → Z → GetArgs → bool * GetReply) (call_put : Z → Z → PutAppendArgs → bool * PutAppendReply).

(** [Get]; the number of the call that was answered is the first result. *)
Definition kv_Get_ask (args : GetArgs) (t : Z) (ck : KvRaft.Clerk) : KvRaft.Clerk + string :=
  let '(ok, reply) := call_get t (ck_leaderId ck) args in Clerk_Get_step ck ok reply.

Definition kv_Get (fuel : nat) (t : Z) (ck : KvRaft.Clerk) (key : string) : option (Z * KvRaft.Clerk * string) :=
  let '(ck, args) := Clerk_Get_args ck key in retry (kv_Get_ask args) fuel t ck.

Definition kv_PutAppend_ask (args : PutAppendArgs) (t : Z) (ck : KvRaft.Clerk) : KvRaft.Clerk + unit :=
  let '(ok, reply) := call_put t (ck_leaderId ck) args in Clerk_PutAppend_step ck ok reply.

Definition kv_PutAppend (fuel : nat) (t : Z) (ck : KvRaft.Clerk) (key value op : string) : option (Z * KvRaft.Clerk * unit) :=
  let '(ck, args) := Clerk_PutAppend_args ck key value op in retry (kv_PutAppend_ask args) fuel t ck.

Definition kv_Put fuel t ck key value := kv_PutAppend fuel t ck key value "Put".
Definition kv_Append fuel t ck key value := kv_PutAppend fuel t ck key value "Append".

Definition kv_clerk_ok (ck : KvRaft.Clerk) : Prop := 0 ≤ ck_leaderId ck < KvRaft.servers ck.

(** The server is not the leader, or was not reached. *)
Definition elsewhere (ok : bool) (err : KvRaft.Err) : Prop := ok = false ∨ err = ErrNotLeader ∨ err = ErrLeaderOutDated.

(** The server executed the request or has done so before. *)
Definition answered (ok : bool) (err : KvRaft.Err) : Prop :=
  ok = true ∧ err ≠ ErrNotLeader ∧ err ≠ ErrLeaderOutDated ∧ err ≠ ErrChanClose ∧ err ≠ ErrHandleOpTimeOut.

(** A clerk that has drawn the sequence number [seq] and asks. *)
Definition asking (ck0 ck : KvRaft.Clerk) : Prop :=
  kv_clerk_ok ck ∧ KvRaft.servers ck = KvRaft.servers ck0 ∧ ck_identifier ck = ck_identifier ck0 ∧
  ck_seq ck = (ck_seq ck0 + 1) mod 2 ^ 64.

Lemma asking_next ck0 ck : asking ck0 ck → asking ck0 (next_leader ck).
Proof.
  intros ([? ?] & Hs & Hi & Hq). split_and!; [|done..]. unfold kv_clerk_ok. simpl. apply Z.mod_pos_bound. lia.
Qed.

(** Both loops do the same with an answer. *)
Section kv_retry.
Context {R : Type} (reply : Z → Z → bool * KvRaft.Err * R).

Definition kv_step (ck : KvRaft.Clerk) (ok : bool) (err : KvRaft.Err) (r : R) : KvRaft.Clerk + R :=
  if negb ok || bool_decide (err = ErrNotLeader) || bool_decide (err = ErrLeaderOutDated) then inl (next_leader ck)
  else if bool_decide (err = ErrChanClose) then inl ck
  else if bool_decide (err = ErrHandleOpTimeOut) then inl ck
  else inr r.

Definition kv_ask (t : Z) (ck : KvRaft.Clerk) : KvRaft.Clerk + R :=
  let '(ok, err, r) := reply t (ck_leaderId ck) in kv_step ck ok err r.

Lemma kv_step_cases ck ok err r :
  (elsewhere ok err ∧ kv_step ck ok err r = inl (next_leader ck)) ∨
  (¬ elsewhere ok err ∧ ¬ answered ok err ∧ kv_step ck ok err r = inl ck) ∨
  (answered ok err ∧ kv_step ck ok err r = inr r).
Proof.
  unfold kv_step, elsewhere, answered. destruct ok; simpl; [|by left; auto].
  repeat case_bool_decide; simpl; naive_solver.
Qed.

Lemma kv_retry_returns (fuel : nat) t ck0 ck t0 l :
  asking ck0 ck → 0 ≤ l < KvRaft.servers ck0 →
  (∀ t, t0 ≤ t → answered (reply t l).1.1 (reply t l).1.2) →
  (∀ t s, t0 ≤ t → s ≠ l → elsewhere (reply t s).1.1 (reply t s).1.2) →
  Z.max 0 (t0 - t) + KvRaft.servers ck0 ≤ Z.of_nat fuel →
  ∃ t' ck' r, retry kv_ask fuel t ck = Some (t', ck', r) ∧ asking ck0 ck' ∧
    ∃ err, reply t' (ck_leaderId ck') = (true, err, r) ∧ answered true err.
Proof.
  intros Hstart Hl Hans Hels Hf.
  assert (∀ t s s', asking ck0 s → kv_ask t s = inl s' → asking ck0 s') as Hpres.
  { intros t1 s s' Hs. unfold kv_ask. destruct (reply _ _) as [[ok err] r].
    destruct (kv_step_cases s ok err r) as [[_ ->]|[(_ & _ & ->)|[_ ->]]]; [intros [= <-]; by apply asking_next|by intros [= <-]|done]. }
  destruct (retry_returns kv_ask ck_leaderId (KvRaft.servers ck0) (asking ck0)) with (t0 := t0) (l := l) (fuel := fuel) (t := t)
    (s := ck) as [[[t' ck'] v] Hr]; [|done|done| |done|done|].
  - intros s (Hs & <- & _). apply Hs.
  - intros t1 s s' Ht Hs. unfold kv_ask. pose proof (Hans t1 Ht) as Ha. pose proof (Hels t1 (ck_leaderId s) Ht) as He.
    destruct (decide (ck_leaderId s = l)) as [Heq|Hne].
    + rewrite Heq. destruct (reply t1 l) as [[ok err] r]. simpl in Ha.
      destruct (kv_step_cases s ok err r) as [[[->|[Hz|Hz]] _]|[(_ & Hz & _)|[_ ->]]]; unfold answered in *; naive_solver.
    + specialize (He Hne). destruct (reply t1 (ck_leaderId s)) as [[ok err] r]. simpl in He.
      destruct (kv_step_cases s ok err r) as [[_ ->]|[(Hz & _)|[Hz _]]]; [|done|unfold elsewhere, answered in *; naive_solver].
      intros [= <-]. split; [done|]. simpl. by destruct Hs as (_ & -> & _).
  - exists t', ck', v. split; [exact Hr|]. apply (retry_answer _ (asking ck0) Hpres) in Hr as (_ & Hok' & Hr); [|done].
    split; [done|]. unfold kv_ask in Hr. destruct (reply t' _) as [[ok err] r].
    destruct (kv_step_cases ck' ok err r) as [[_ Hz]|[(_ & _ & Hz)|[Ha Hz]]]; rewrite Hz in Hr; [done|done|]. injection Hr as <-.
    exists err. pose proof Ha as [-> _]. done.
Qed.
End kv_retry.

Lemma retry_ext {S R} (f g : Z → S → S + R) fuel t s : (∀ t s, f t s = g t s) → retry f fuel t s = retry g fuel t s.
Proof. intros Hfg. revert t s. induction fuel as [|fuel IH]; intros t s; simpl; [done|]. rewrite Hfg. by destruct (g t s). Qed.

(** [Get] returns, with the value of an answer to this request, within a number of calls
    after server [l] has become a leader that answers. *)
Lemma kv_Get_returns (fuel : nat) t ck key t0 l :
  let args := (Clerk_Get_args ck key).2 in
  kv_clerk_ok ck → 0 ≤ l < KvRaft.servers ck →
  (∀ t, t0 ≤ t → answered (call_get t l args).1 (gr_Err (call_get t l args).2)) →
  (∀ t s, t0 ≤ t → s ≠ l → elsewhere (call_get t s args).1 (gr_Err (call_get t s args).2)) →
  Z.max 0 (t0 - t) + KvRaft.servers ck ≤ Z.of_nat fuel →
  ∃ t' ck' v, kv_Get fuel t ck key = Some (t', ck', v) ∧ asking ck ck' ∧
    ∃ reply, call_get t' (ck_leaderId ck') args = (true, reply) ∧ answered true (gr_Err reply) ∧ v = gr_Value reply.
Proof.
  intros args Hok Hl Hans Hels Hf. set (reply t s := let '(ok, r) := call_get t s args in (ok, gr_Err r, gr_Value r)).
  destruct (kv_retry_returns reply fuel t ck (Clerk_Get_args ck key).1 t0 l) as (t' & ck' & v & Hr & Hok' & err & He & Ha).
  - by split_and!.
  - done.
  - intros t1 Ht. specialize (Hans t1 Ht). unfold reply. by destruct (call_get t1 l args).
  - intros t1 s Ht Hs. specialize (Hels t1 s Ht Hs). unfold reply. by destruct (call_get t1 s args).
  - done.
  - exists t', ck', v. split_and!; [|done|].
    + rewrite <-Hr. unfold kv_Get. change (retry (kv_Get_ask args) fuel t (Clerk_Get_args ck key).1 = retry (kv_ask reply) fuel t (Clerk_Get_args ck key).1).
      apply retry_ext. intros t1 s. unfold kv_Get_ask, kv_ask, reply. by destruct (call_get _ _ _).
    + unfold reply in He. destruct (call_get t' (ck_leaderId ck') args) as [ok r]. injection He as -> <- <-. by exists r.
Qed.

(** The same for [Put] and [Append]. *)
Lemma kv_PutAppend_returns (fuel : nat) t ck key value op t0 l :
  let args := (Clerk_PutAppend_args ck key value op).2 in
  kv_clerk_ok ck → 0 ≤ l < KvRaft.servers ck →
  (∀ t, t0 ≤ t → answered (call_put t l args).1 (pr_Err (call_put t l args).2)) →
  (∀ t s, t0 ≤ t → s ≠ l → elsewhere (call_put t s args).1 (pr_Err (call_put t s args).2)) →
  Z.max 0 (t0 - t) + KvRaft.servers ck ≤ Z.of_nat fuel →
  ∃ t' ck', kv_PutAppend fuel t ck key value op = Some (t', ck', tt) ∧ asking ck ck' ∧
    ∃ reply, call_put t' (ck_leaderId ck') args = (true, reply) ∧ answered true (pr_Err reply).
Proof.
  intros args Hok Hl Hans Hels Hf. set (reply t s := let '(ok, r) := call_put t s args in (ok, pr_Err r, tt)).
  destruct (kv_retry_returns reply fuel t ck (Clerk_PutAppend_args ck key value op).1 t0 l) as (t' & ck' & [] & Hr & Hok' & err & He & Ha).
  - by split_and!.
  - done.
  - intros t1 Ht. specialize (Hans t1 Ht). unfold reply. by destruct (call_put t1 l args).
  - intros t1 s Ht Hs. specialize (Hels t1 s Ht Hs). unfold reply. by destruct (call_put t1 s args).
  - done.
  - exists t', ck'. split_and!; [|done|].
    + rewrite <-Hr. unfold kv_PutAppend.
      change (retry (kv_PutAppend_ask args) fuel t (Clerk_PutAppend_args ck key value op).1 = retry (kv_ask reply) fuel t (Clerk_PutAppend_args ck key value op).1).
      apply retry_ext. intros t1 s. unfold kv_PutAppend_ask, kv_ask, reply. by destruct (call_put _ _ _).
    + unfold reply in He. destruct (call_put t' (ck_leaderId ck') args) as [ok r]. injection He as -> <-. by exists r.
Qed.
End kv_clerk.

(** ** shardctrler *)

Section ctrl_clerk.
Context (call : Z → Z → ShardCtrler.CommandArgs → bool * ShardCtrler.CommandReply).

Definition ctrl_ask (args : ShardCtrler.CommandArgs) (t : Z) (ck : CtrlClerk) : CtrlClerk + (CtrlClerk * Config) :=
  let '(ok, reply) := call t (cc_leaderId ck) args in
  match Clerk_Command_step ck ok reply with
  | (ck, Some config) => inr (ck, config)
  | (ck, None) => inl ck
  end.

(** [Command]; [args] has the identifiers of the clerk. *)
Definition ctrl_Command (fuel : nat) (t : Z) (ck : CtrlClerk) (args : ShardCtrler.CommandArgs) : option (Z * CtrlClerk * Config) :=
  match retry (ctrl_ask args) fuel t ck with
  | Some (t, _, (ck, config)) => Some (t, ck, config)
  | None => None
  end.

Definition ctrl_Query fuel t ck num := ctrl_Command fuel t ck (Clerk_Query ck num).
Definition ctrl_Join fuel t ck servers := ctrl_Command fuel t ck (Clerk_Join ck servers).
Definition ctrl_Leave fuel t ck gids := ctrl_Command fuel t ck (Clerk_Leave ck gids).
Definition ctrl_Move fuel t ck shard gid := ctrl_Command fuel t ck (Clerk_Move ck shard gid).

Definition ctrl_served (r : bool * ShardCtrler.CommandReply) : Prop :=
  r.1 = true ∧ rep_Err r.2 ≠ ShardCtrler.ErrWrongLeader ∧ rep_Err r.2 ≠ ShardCtrler.ErrTimeout.

Lemma ctrl_step_cases ck ok reply :
  (ctrl_served (ok, reply) ∧ Clerk_Command_step ck ok reply =
     (mkCtrlClerk (cc_servers ck) (cc_leaderId ck) (cc_clientId ck) (cc_commandId ck + 1), Some (rep_Config reply))) ∨
  (¬ ctrl_served (ok, reply) ∧ Clerk_Command_step ck ok reply =
     (mkCtrlClerk (cc_servers ck) ((cc_leaderId ck + 1) mod cc_servers ck) (cc_clientId ck) (cc_commandId ck), None)).
Proof.
  unfold Clerk_Command_step, ctrl_served. destruct ok; simpl; [|by right; naive_solver]. repeat case_bool_decide; simpl; naive_solver.
Qed.

(** A command returns the configuration of an answer to it, within a number of calls
    after server [l] has become a leader that answers; the clerk then has a new command
    number. *)
Lemma ctrl_Command_returns (fuel : nat) t ck args t0 l :
  0 ≤ cc_leaderId ck < cc_servers ck → 0 ≤ l < cc_servers ck →
  (∀ t, t0 ≤ t → ctrl_served (call t l args)) → Z.max 0 (t0 - t) + cc_servers ck ≤ Z.of_nat fuel →
  ∃ t' ck' reply, ctrl_Command fuel t ck args = Some (t', ck', rep_Config reply) ∧
    call t' (cc_leaderId ck') args = (true, reply) ∧ ctrl_served (true, reply) ∧
    cc_commandId ck' = cc_commandId ck + 1 ∧ cc_clientId ck' = cc_clientId ck ∧ 0 ≤ cc_leaderId ck' < cc_servers ck'.
Proof.
  intros Hok Hl Hs Hf.
  set (ok s := 0 ≤ cc_leaderId s < cc_servers ck ∧ cc_servers s = cc_servers ck ∧ cc_clientId s = cc_clientId ck ∧ cc_commandId s = cc_commandId ck).
  assert (ok ck) as Hck by (unfold ok; lia).
  assert (∀ t s s', ok s → ctrl_ask args t s = inl s' → ok s' ∧ cc_leaderId s' = (cc_leaderId s + 1) mod cc_servers ck ∧ ¬ ctrl_served (call t (cc_leaderId s) args)) as Hstep.
  { intros t1 s s' (H1 & H2 & H3 & H4). unfold ctrl_ask. destruct (call _ _ _) as [k reply] eqn:Hc.
    destruct (ctrl_step_cases s k reply) as [[_ ->]|[Hn ->]]; [done|]. intros [= <-]. unfold ok. simpl. rewrite H2.
    split_and!; [apply Z.mod_pos_bound; lia..|done|done|done|done|done]. }
  destruct (retry_returns (ctrl_ask args) cc_leaderId (cc_servers ck) ok) with (t0 := t0) (l := l) (fuel := fuel) (t := t) (s := ck)
    as [[[t' s] [ck' c]] Hr]; [by intros s [? _]| |done| |done|done|].
  - intros t1 s s' H1 H2. by apply (Hstep t1 s s').
  - intros t1 s s' Ht H1 H2. destruct (Hstep t1 s s' H1 H2) as (_ & -> & Hn). split; [|done]. intros Heq. apply Hn. rewrite Heq. by apply Hs.
  - assert (∀ t s s', ok s → ctrl_ask args t s = inl s' → ok s') as Hpres by (intros t1 s1 s2 H1 H2; by apply (Hstep t1 s1 s2)).
    pose proof (retry_answer _ ok Hpres _ _ _ _ _ _ Hck Hr) as (_ & (H1 & H2 & H3 & H4) & Ha).
    unfold ctrl_ask in Ha. destruct (call t' (cc_leaderId s) args) as [k reply] eqn:Hc.
    destruct (ctrl_step_cases s k reply) as [[Hserved Hz]|[_ Hz]]; rewrite Hz in Ha; [|done]. injection Ha as <- <-.
    exists t', (mkCtrlClerk (cc_servers s) (cc_leaderId s) (cc_clientId s) (cc_commandId s + 1)), reply.
    pose proof Hserved as [Hk _]. simpl in Hk. subst k. unfold ctrl_Command. rewrite Hr. simpl. rewrite H2, H3, H4. split; [done|]. split; [done|]. split; [done|]. lia.
Qed.
End ctrl_clerk.

(** ** shardkv *)

Section shard_clerk.
(** [call t server args] is the [t]-th call through [make_end], [query q] the [q]-th
    [ck.sm.Query(-1)]. *)
Context (call : Z → string → CommandArgs → bool * CommandReply) (query : Z → Config).

Definition shard_MakeClerk (clientId : Z) : Clerk := mkClerk (query 0) ∅ clientId 0.

(** The inner loop of [Command], at [servers[newLeader]]: the value when one answered. *)
Fixpoint try_servers (fuel : nat) (servers : list string) (oldLeaderId newLeader : Z) (args : CommandArgs) (t : Z) :
    option (outcome (Z * option string)) :=
  match fuel with
  | O => None
  | S fuel =>
      match slice_get servers newLeader with
      | Panic => Some Panic
      | Ret server =>
          let '(ok, reply) := call t server args in
          match Clerk_step servers oldLeaderId newLeader ok reply with
          | Done value => Some (Ret (t + 1, Some value))
          | Refresh => Some (Ret (t + 1, None))
          | NextServer newLeader => try_servers fuel servers oldLeaderId newLeader args (t + 1)
          end
      end
  end.

(** The outer loop, with the numbers of calls and queries made so far. *)
Fixpoint command_loop (fuel : nat) (ck : Clerk) (args : CommandArgs) (t q : Z) : option (outcome (Clerk * string * Z * Z)) :=
  match fuel with
  | O => None
  | S fuel =>
      match Clerk_target ck args with
      | Panic => Some Panic
      | Ret (ck, target) =>
          match match target with
                | Some (servers, oldLeaderId) => try_servers (S (length servers)) servers oldLeaderId oldLeaderId args t
                | None => Some (Ret (t, None))
                end with
          | None => None
          | Some Panic => Some Panic
          | Some (Ret (t, Some value)) =>
              Some (Ret (mkClerk (ck_config ck) (leaderIds ck) (ck_clientId ck) (wrap 64 (ck_commandId ck + 1)), value, t, q))
          | Some (Ret (t, None)) =>
              command_loop fuel (mkClerk (query q) (leaderIds ck) (ck_clientId ck) (ck_commandId ck)) args t (q + 1)
          end
      end
  end.

Definition shard_Command (fuel : nat) (ck : Clerk) (op : OperationType) (key value : string) (t q : Z) :=
  command_loop fuel ck (Clerk_args ck op key value) t q.

Definition shard_Get fuel ck key t q := shard_Command fuel ck Get key "" t q.
Definition shard_Put fuel ck key value t q := shard_Command fuel ck Put key value t q.
Definition shard_Append fuel ck key value t q := shard_Command fuel ck Append key value t q.

(** *** When a command returns *)

Definition served (r : bool * CommandReply) : Prop := r.1 = true ∧ (cr_Err r.2 = OK ∨ cr_Err r.2 = ErrNoKey).
Definition wrong_group (r : bool * CommandReply) : Prop := r.1 = true ∧ cr_Err r.2 = ErrWrongGroup.

(** The value is that of an answer to the command between two times. *)
Definition value_served (args : CommandArgs) (t t' : Z) (v : string) : Prop :=
  ∃ tc s reply, t ≤ tc < t' ∧ call tc s args = (true, reply) ∧ served (true, reply) ∧ v = cr_Value reply.

Lemma value_served_later args t1 t t' v : t1 ≤ t → value_served args t t' v → value_served args t1 t' v.
Proof. intros Ht (tc & s & reply & Hc & H). exists tc, s, reply. split; [lia|done]. Qed.

Lemma shard_step_cases servers new ok reply :
  0 ≤ new < len servers →
  (served (ok, reply) ∧ Clerk_step servers 0 new ok reply = Done (cr_Value reply)) ∨
  (¬ served (ok, reply) ∧ wrong_group (ok, reply) ∧ Clerk_step servers 0 new ok reply = Refresh) ∨
  (¬ served (ok, reply) ∧ ¬ wrong_group (ok, reply) ∧
   Clerk_step servers 0 new ok reply = if new + 1 =? len servers then Refresh else NextServer (new + 1)).
Proof.
  intros Hn. unfold Clerk_step, served, wrong_group. cbn [fst snd].
  assert ((if (new + 1) mod len servers =? 0 then Refresh else NextServer ((new + 1) mod len servers)) =
    (if new + 1 =? len servers then Refresh else NextServer (new + 1))) as ->.
  { destruct (Z.eqb_spec (new + 1) (len servers)) as [->|Hne]; [by rewrite Z.mod_same by lia|].
    rewrite Z.mod_small by lia. by rewrite (proj2 (Z.eqb_neq (new + 1) 0)) by lia. }
  destruct ok; simpl; [|right; right; split_and!; naive_solver].
  destruct (cr_Err reply); simpl; naive_solver.
Qed.

(** A pass from server [new] on: it makes a call, and returns the value of an answer,
    without fail if from [t0] on server [l] answers and none says that the group is
    wrong. *)
Lemma try_servers_spec servers args (fuel : nat) new t :
  0 ≤ new < len servers → len servers - new ≤ Z.of_nat fuel →
  ∃ t' r, try_servers fuel servers 0 new args t = Some (Ret (t', r)) ∧ t < t' ∧
    match r with Some v => value_served args t t' v | None => True end ∧
    ∀ t0 l s, t0 ≤ t → new ≤ l → zlookup servers l = Some s → (∀ t, t0 ≤ t → served (call t s args)) →
      (∀ t s, t0 ≤ t → s ∈ servers → ¬ wrong_group (call t s args)) → r ≠ None.
Proof.
  revert new t. induction fuel as [|fuel IH]; intros new t Hn Hf; [lia|]. cbn [try_servers].
  destruct (slice_get_ok servers new Hn) as (s & -> & Hs). destruct (call t s args) as [ok reply] eqn:Hc.
  destruct (shard_step_cases servers new ok reply Hn) as [[Hserved ->]|[(Hns & Hwg & ->)|(Hns & Hnw & ->)]].
  - eexists _, _. split; [done|]. split_and!; [lia| |done]. exists t, s, reply. pose proof Hserved as [Hok _]. simpl in Hok. subst ok. split; [lia|done].
  - eexists _, _. split; [done|]. split_and!; [lia|done|]. intros t0 l s0 Ht _ _ _ Hw. exfalso. apply (Hw t s Ht); [|by rewrite Hc].
    apply zlookup_Some in Hs as [_ Hs]. by eapply list_elem_of_lookup_2.
  - destruct (Z.eqb_spec (new + 1) (len servers)) as [Hlast|Hne].
    + eexists _, _. split; [done|]. split_and!; [lia|done|]. intros t0 l s0 Ht Hl Hsl Hserve _. exfalso. apply Hns. rewrite <-Hc.
      pose proof (zlookup_bounds _ _ _ Hsl). assert (l = new) as -> by lia. rewrite Hs in Hsl. injection Hsl as <-. by apply Hserve.
    + destruct (IH (new + 1) (t + 1)) as (t' & r & -> & Ht' & Hv & Hlive); [lia..|]. exists t', r. split_and!; [done|lia| |].
      * destruct r; [|done]. by apply (value_served_later _ _ (t + 1)); [lia|].
      * intros t0 l s0 Ht Hl Hsl Hserve Hw. apply (Hlive t0 l s0); [lia| |done|done|done].
        destruct (decide (l = new)) as [->|]; [|lia]. rewrite Hs in Hsl. injection Hsl as <-. exfalso. apply Hns. rewrite <-Hc. by apply Hserve.
Qed.

(** Every group has a server, and every leader that the clerk remembers is server 0. *)
Definition config_ok (c : Config) : Prop := len (Shards c) = NShards ∧ ∀ g servers, Groups c !! g = Some servers → servers ≠ [].

Definition shard_clerk_ok (ck : Clerk) : Prop := config_ok (ck_config ck) ∧ ∀ g l, leaderIds ck !! g = Some l → l = 0.

(** The start of a pass. *)
Lemma Clerk_target_ok ck args :
  shard_clerk_ok ck →
  ∃ g leaders, zlookup (Shards (ck_config ck)) (key2shard (ca_Key args)) = Some g ∧ (∀ g l, leaders !! g = Some l → l = 0) ∧
    Clerk_target ck args = Ret (mkClerk (ck_config ck) leaders (ck_clientId ck) (ck_commandId ck),
      (λ servers, (servers, 0)) <$> Groups (ck_config ck) !! g).
Proof.
  intros [[Hlen Hg] Hl]. unfold Clerk_target. destruct (slice_get_ok (Shards (ck_config ck)) (key2shard (ca_Key args))) as (g & -> & Hs).
  { rewrite Hlen. apply key2shard_range. }
  rewrite bind_Ret. exists g. destruct (Groups (ck_config ck) !! g) as [servers|] eqn:Hgs.
  - destruct (leaderIds ck !! g) as [l|] eqn:Hlg.
    + exists (leaderIds ck). rewrite Hlg, (Hl g l Hlg). done.
    + exists (<[g := 0]> (leaderIds ck)). rewrite lookup_insert_eq. split_and!; [done| |done].
      intros g' l. destruct (decide (g' = g)) as [->|]; [rewrite lookup_insert_eq; by intros [= <-]|]. rewrite lookup_insert_ne by done. apply Hl.
  - exists (leaderIds ck). destruct ck. done.
Qed.
(** What a command that returned leaves: a clerk for the next command. *)
Definition returns_value (ck : Clerk) (args : CommandArgs) (t : Z) (r : option (outcome (Clerk * string * Z * Z))) : Prop :=
  ∃ ck' v t' q', r = Some (Ret (ck', v, t', q')) ∧ value_served args t t' v ∧ shard_clerk_ok ck' ∧
    ck_clientId ck' = ck_clientId ck ∧ ck_commandId ck' = wrap 64 (ck_commandId ck + 1).

(** One round: it returns, or goes on with the next configuration. *)
Lemma command_round (fuel : nat) ck args t q :
  shard_clerk_ok ck → config_ok (query q) →
  returns_value ck args t (command_loop (S fuel) ck args t q) ∨
  ∃ leaders t', let ck' := mkClerk (query q) leaders (ck_clientId ck) (ck_commandId ck) in
    t ≤ t' ∧ shard_clerk_ok ck' ∧ command_loop (S fuel) ck args t q = command_loop fuel ck' args t' (q + 1) ∧
    ∀ g servers, zlookup (Shards (ck_config ck)) (key2shard (ca_Key args)) = Some g → Groups (ck_config ck) !! g = Some servers → t < t' ∧
      ∀ t0 l s, t0 ≤ t → zlookup servers l = Some s → (∀ t, t0 ≤ t → served (call t s args)) →
        ¬ ∀ t s, t0 ≤ t → s ∈ servers → ¬ wrong_group (call t s args).
Proof.
  intros Hck Hq. destruct (Clerk_target_ok ck args Hck) as (g & leaders & Hg & Hl & Ht). cbn [command_loop]. rewrite Ht.
  destruct (Groups (ck_config ck) !! g) as [servers|] eqn:Hs; cbn [fmap option_fmap option_map].
  - assert (servers ≠ []) as Hne by (destruct Hck as [[_ Hne] _]; by eapply Hne). apply len_pos in Hne.
    destruct (try_servers_spec servers args (S (length servers)) 0 t) as (t' & r & -> & Hlt & Hv & Hlive); [lia|unfold len; lia|].
    destruct r as [v|].
    + left. eexists _, _, _, _. split; [done|]. split; [done|]. split; [|done]. by destruct Hck as [? _].
    + right. exists leaders, t'. split; [lia|]. split; [done|]. split; [done|]. intros g' servers' Hg' Hs'. rewrite Hg in Hg'. injection Hg' as <-.
      rewrite Hs in Hs'. injection Hs' as <-. split; [done|]. intros t0 l s Ht0 Hsl Hserve Hw. pose proof (zlookup_bounds _ _ _ Hsl).
      by apply (Hlive t0 l s); [|lia|..].
  - right. exists leaders, t. split; [lia|]. split; [done|]. split; [done|]. intros g' servers' Hg' Hs'. rewrite Hg in Hg'. injection Hg' as <-. congruence.
Qed.

Lemma returns_value_later ck ck1 args t t1 r :
  t ≤ t1 → ck_clientId ck1 = ck_clientId ck → ck_commandId ck1 = ck_commandId ck → returns_value ck1 args t1 r → returns_value ck args t r.
Proof.
  intros Ht Hc Hm (ck' & v & t' & q' & -> & Hv & Hok & Hc' & Hm'). exists ck', v, t', q'. split; [done|]. split; [by eapply value_served_later|]. split; [done|]. split; congruence.
Qed.

Context (cfg : Config) (args : CommandArgs) (g : Z) (servers : list string) (l : Z) (s : string) (t0 : Z).
Context (Hcfg : config_ok cfg) (Hg : zlookup (Shards cfg) (key2shard (ca_Key args)) = Some g) (Hservers : Groups cfg !! g = Some servers).
Context (Hl : zlookup servers l = Some s) (Hserve : ∀ t, t0 ≤ t → served (call t s args)).
Context (Hright : ∀ t s, t0 ≤ t → s ∈ servers → ¬ wrong_group (call t s args)).

Lemma command_settled (fuel : nat) ck t q :
  (∀ k, q ≤ k → query k = cfg) → shard_clerk_ok ck → ck_config ck = cfg → Z.max 0 (t0 - t) < Z.of_nat fuel →
  returns_value ck args t (command_loop fuel ck args t q).
Proof.
  revert ck t q. induction fuel as [|fuel IH]; intros ck t q Hq Hck Hc Hf; [lia|].
  destruct (command_round fuel ck args t q Hck) as [Hr|(leaders & t' & Ht' & Hck' & -> & Hnext)]; [by rewrite Hq|done|].
  rewrite Hc in Hnext. destruct (Hnext g servers Hg Hservers) as [Hlt Hlive].
  destruct (Z.le_gt_cases t0 t) as [Hle|Hgt]; [exfalso; by apply (Hlive t0 l s)|].
  eapply returns_value_later; [| | |apply IH]; [done|done|done| |done|by rewrite Hq|lia]. intros k Hk. apply Hq. lia.
Qed.
End shard_clerk.

(** C22. An operation of a shardkv clerk returns: if the controller answers the queries of the
    operation with one well-formed configuration, and from some time on a server of the
    group that has the key's shard answers the request and no server of the group answers
    [ErrWrongGroup], then [Get], [Put] or [Append] ends
    within that time and two rounds, whatever configuration and leaders the clerk had and
    whatever happened before.  Its value is that of an answer to a call with this
    operation and the clerk's client and command numbers, and the clerk goes on with the
    next command number. *)
Theorem shard_clerk_returns (call : Z → string → CommandArgs → bool * CommandReply) (query : Z → Config) ck op key value t q cfg g servers l s t0 :
  let args := mkCommandArgs key value op (ck_clientId ck) (ck_commandId ck) in
  shard_clerk_ok ck → config_ok cfg → (∀ k, q ≤ k → query k = cfg) →
  zlookup (Shards cfg) (key2shard key) = Some g → Groups cfg !! g = Some servers → zlookup servers l = Some s →
  (∀ t, t0 ≤ t → served (call t s args)) → (∀ t s, t0 ≤ t → s ∈ servers → ¬ wrong_group (call t s args)) →
  ∃ ck' v t' q', shard_Command call query (Z.to_nat (t0 - t) + 2) ck op key value t q = Some (Ret (ck', v, t', q')) ∧
    (∃ tc s reply, t ≤ tc < t' ∧ call tc s args = (true, reply) ∧ (cr_Err reply = OK ∨ cr_Err reply = ErrNoKey) ∧ v = cr_Value reply) ∧
    shard_clerk_ok ck' ∧ ck_clientId ck' = ck_clientId ck ∧ ck_commandId ck' = wrap 64 (ck_commandId ck + 1).
Proof.
  intros args Hck Hcfg Hq Hg Hservers Hl Hserve Hright.
  assert (returns_value call ck args t (shard_Command call query (Z.to_nat (t0 - t) + 2) ck op key value t q))
    as (ck' & v & t' & q' & Hr & (tc & s' & reply & Htc & Hcall & [_ Hserved] & Hv) & Hok & Hc & Hm).
  - replace (Z.to_nat (t0 - t) + 2)%nat with (S (S (Z.to_nat (t0 - t)))) by lia.
    change (returns_value call ck args t (command_loop call query (S (S (Z.to_nat (t0 - t)))) ck args t q)).
    destruct (command_round call query (S (Z.to_nat (t0 - t))) ck args t q Hck) as [Hr|(leaders & t' & Ht' & Hck' & -> & _)]; [by rewrite Hq by lia|done|].
    eapply returns_value_later; [| | |eapply (command_settled call query cfg args g servers l s t0)]; try done; [intros k Hk; apply Hq; lia|by rewrite Hq by lia|lia].
  - exists ck', v, t', q'. split; [done|]. split; [by exists tc, s', reply|]. done.
Qed.

(** Three servers, of which the second is the leader; the clerk was told of the group by
    its second query, and its first three calls fail. *)
Section clerk_example.
Definition ex_group : Config := mkConfig 1 (replicate 10 100) {[100 := ["a"; "b"; "c"]]}%string.
Definition ex_query (q : Z) : Config := if q =? 0 then mkConfig 0 (replicate 10 0) ∅ else ex_group.
Definition ex_call (t : Z) (server : string) (args : CommandArgs) : bool * CommandReply :=
  if t <? 3 then (false, mkCommandReply OK "")
  else if bool_decide (server = "b"%string) then (true, mkCommandReply OK (ca_Value args)) else (true, mkCommandReply ErrWrongLeader "").
Definition ex_clerk : Clerk := shard_MakeClerk ex_query 7.

Lemma shard_clerk_returns_witness :
  ∃ ck', shard_Append ex_call ex_query 5 ex_clerk "k" "v" 0 1 = Some (Ret (ck', "v"%string, 5, 3)) ∧ ck_commandId ck' = 1.
Proof.
  destruct (shard_clerk_returns ex_call ex_query ex_clerk Append "k" "v" 0 1 ex_group 100 ["a"; "b"; "c"]%string 1 "b"%string 3)
    as (ck' & v & t' & q' & Hr & _ & _ & _ & Hm).
  - split; [split; [reflexivity|]|]; intros g x Hx; discriminate Hx.
  - split; [reflexivity|]. intros g servers Hs. change (({[100 := ["a"; "b"; "c"]%string]} : gmap Z (list string)) !! g = Some servers) in Hs.
    apply lookup_singleton_Some in Hs as [_ <-]. done.
  - intros k Hk. unfold ex_query. rewrite (proj2 (Z.eqb_neq k 0)) by lia. reflexivity.
  - reflexivity.
  - reflexivity.
  - reflexivity.
  - intros t Ht. unfold ex_call. rewrite (proj2 (Z.ltb_ge t 3)) by lia. split; [reflexivity|left; reflexivity].
  - intros t s Ht _ [_ Hw]. unfold ex_call in Hw. rewrite (proj2 (Z.ltb_ge t 3)) in Hw by lia. by case_bool_decide.
  - exists ck'. change (shard_Command ex_call ex_query 5 ex_clerk Append "k" "v" 0 1 = Some (Ret (ck', v, t', q'))) in Hr.
    unfold shard_Append. rewrite Hr. split; [|exact Hm]. vm_compute in Hr. injection Hr as _ <- <- <-. reflexivity.
Defined.
End clerk_example.
