(* ===== verification/ShardApply.v ===== *)
(** * shardkv: what the commands of a group's log do

    Every command of the log is total on well-formed states; a client operation
    touches one shard, and only one the group serves; the status of a shard moves
    only along Serving -> Pulling -> GCing -> Serving and
    Serving -> BePulling -> Serving; the table of client commands only grows. *)
From Stdlib Require Import Init.Byte Strings.Ascii.
From S2P Require Import Prelude LabGob Raft ShardConfig ShardKv.

Section apply.
Context {ranges : MapRange}.
Implicit Types (kv : ShardKV) (sm : gmap Z Shard) (c : Config).

(** ** Well-formed states and commands *)

Definition wf_machine sm : Prop := ∀ s, 0 ≤ s < NShards → is_Some (sm !! s).

Definition wf kv : Prop :=
  wf_machine (stateMachine kv) ∧
  len (Shards (currentConfig kv)) = NShards ∧ len (Shards (lastConfig kv)) = NShards.

Definition wf_command (cmd : Command) : Prop :=
  match cmd with
  | Configuration c => len (Shards c) = NShards
  | InsertShards info => ∀ s, is_Some (sor_Shards info !! s) → 0 ≤ s < NShards
  | DeleteShards info => ∀ s, s ∈ soa_ShardIDs info → 0 ≤ s < NShards
  | _ => True
  end.

Definition status kv (s : Z) : option ShardStatus := Status <$> stateMachine kv !! s.

Lemma shard_at_ok sm s : wf_machine sm → 0 ≤ s < NShards → ∃ sh, shard_at sm s = Ret sh ∧ sm !! s = Some sh.
Proof. intros Hwf Hs. destruct (Hwf s Hs) as [sh Hsh]. exists sh. unfold shard_at. by rewrite Hsh. Qed.

Lemma wf_machine_insert sm s sh : wf_machine sm → wf_machine (<[s := sh]> sm).
Proof. intros Hwf s' Hs'. rewrite lookup_insert_is_Some'. right. by apply Hwf. Qed.

Lemma canServe_ok kv s :
  wf kv → 0 ≤ s < NShards →
  ∃ b, canServe kv s = Ret b ∧
    (b = true ↔ zlookup (Shards (currentConfig kv)) s = Some (gid kv) ∧
                (status kv s = Some Serving ∨ status kv s = Some GCing)).
Proof.
  intros (Hsm & Hlen & _) Hs. unfold canServe, status.
  destruct (slice_get_ok (Shards (currentConfig kv)) s) as (o & -> & ->); [lia|].
  rewrite bind_Ret. destruct (shard_at_ok _ s Hsm Hs) as (sh & -> & ->).
  destruct (Z.eqb_spec o (gid kv)) as [->|Hne]; simpl.
  - eexists. split; [done|]. unfold status_is. rewrite orb_true_iff, !bool_decide_eq_true.
    split; [intros [->| ->]; auto|intros [_ [[=]|[=]]]; auto].
  - eexists. split; [done|]. split; [done|]. by intros [[=] _].
Qed.

(** ** Client operations *)

(** One key/value store, the specification of what the groups implement together. *)
Definition write (m : gmap string string) (op : CommandArgs) : gmap string string :=
  match ca_Op op with
  | Get => m
  | Put => <[ca_Key op := ca_Value op]> m
  | Append => <[ca_Key op := default ""%string (m !! ca_Key op) +:+ ca_Value op]> m
  end.

Definition store (ws : list CommandArgs) : gmap string string := foldl write ∅ ws.

Definition shard_writes (ws : list CommandArgs) (s : Z) : list CommandArgs :=
  filter (λ w, key2shard (ca_Key w) = s) ws.

(** The writes a command executes: a client's write to a shard the group serves that
    is not a duplicate. *)
Definition executed kv (cmd : Command) : list CommandArgs :=
  match cmd with
  | Operation op =>
      if bool_decide (canServe kv (key2shard (ca_Key op)) = Ret true) &&
         negb (is_get op) && negb (isDuplicateRequest kv (ca_ClientId op) (ca_CommandId op))
      then [op] else []
  | _ => []
  end.

(** What the store answers to an operation. *)
Definition answer (m : gmap string string) (op : CommandArgs) : CommandReply :=
  match ca_Op op with
  | Get => match m !! ca_Key op with
           | Some v => mkCommandReply OK v
           | None => mkCommandReply ErrNoKey ""
           end
  | _ => mkCommandReply OK ""
  end.

Definition write_shard (ws : list CommandArgs) (s : Z) (sh : Shard) : Shard :=
  mkShard (foldl write (KV sh) (shard_writes ws s)) (Status sh).

Lemma write_shard_nil s (o : option Shard) : write_shard [] s <$> o = o.
Proof. by destruct o as [[]|]. Qed.

Lemma applyLogToStateMachine_ok kv op sh :
  stateMachine kv !! key2shard (ca_Key op) = Some sh →
  applyLogToStateMachine kv op (key2shard (ca_Key op)) =
  Ret (if is_get op then kv
       else kv <| stateMachine := <[key2shard (ca_Key op) :=
                                      mkShard (write (KV sh) op) (Status sh)]> (stateMachine kv) |>,
       answer (KV sh) op).
Proof.
  intros Hsh. unfold applyLogToStateMachine, shard_at, is_get, write, answer.
  rewrite Hsh, bind_Ret. unfold Shard_Get. destruct (ca_Op op); try done.
  by destruct (KV sh !! _).
Qed.

(** Three cases: the group does not serve the shard, the write is a duplicate, the
    operation is executed. *)
Lemma applyOperation_cases kv op :
  wf kv →
  let s := key2shard (ca_Key op) in
  let ws := executed kv (Operation op) in
  (applyOperation kv op = Ret (kv, mkCommandReply ErrWrongGroup "") ∧
     canServe kv s = Ret false ∧ ws = []) ∨
  (∃ r, applyOperation kv op = Ret (kv, r) ∧ canServe kv s = Ret true ∧ ws = [] ∧
     is_get op = false ∧ isDuplicateRequest kv (ca_ClientId op) (ca_CommandId op) = true) ∨
  (∃ kv' sh, stateMachine kv !! s = Some sh ∧ canServe kv s = Ret true ∧
     applyOperation kv op = Ret (kv', answer (KV sh) op) ∧
     ws = (if is_get op then [] else [op]) ∧
     kv' = (if is_get op then kv
            else kv <| stateMachine := <[s := mkShard (write (KV sh) op) (Status sh)]>
                                         (stateMachine kv) |>
                    <| lastOperations := <[ca_ClientId op :=
                         mkOperationContext (ca_CommandId op) (answer (KV sh) op)]>
                           (lastOperations kv) |>)).
Proof.
  intros Hwf s ws. pose proof (key2shard_range (ca_Key op)) as Hs. fold s in Hs.
  destruct (canServe_ok kv s Hwf Hs) as (b & Hb & _).
  unfold applyOperation, ws, executed. fold s. rewrite Hb, bind_Ret.
  destruct b; [|left; by rewrite bool_decide_false].
  right. rewrite bool_decide_true by done. cbn [negb andb].
  destruct (isDuplicateRequest kv _ _) eqn:Hdup.
  - destruct (is_get op) eqn:Hget; cbn [negb andb].
    + right. destruct Hwf as (Hsm & _). destruct (Hsm s Hs) as [sh Hsh].
      exists kv, sh. pose proof (applyLogToStateMachine_ok kv op sh Hsh) as Hap. fold s in Hap.
      rewrite Hap, Hget. by split_and!.
    + left. unfold isDuplicateRequest in Hdup.
      destruct (lastOperations kv !! ca_ClientId op); [|done]. by eexists.
  - right. destruct Hwf as (Hsm & _). destruct (Hsm s Hs) as [sh Hsh].
    rewrite andb_false_r. pose proof (applyLogToStateMachine_ok kv op sh Hsh) as Hap. fold s in Hap.
    rewrite Hap.
    destruct (is_get op); cbn [negb andb]; (eexists _, sh; split_and!; [done..|]); done.
Qed.

Lemma shard_writes_one op s :
  shard_writes [op] s = if decide (key2shard (ca_Key op) = s) then [op] else [].
Proof. unfold shard_writes. by rewrite filter_cons. Qed.

(** What an operation does to the state, whatever the case. *)
Lemma applyOperation_ok kv op :
  wf kv →
  ∃ kv' r, applyOperation kv op = Ret (kv', r) ∧ wf kv' ∧
    gid kv' = gid kv ∧ currentConfig kv' = currentConfig kv ∧ lastConfig kv' = lastConfig kv ∧
    (∀ s, stateMachine kv' !! s =
          write_shard (executed kv (Operation op)) s <$> stateMachine kv !! s).
Proof.
  intros Hwf.
  destruct (applyOperation_cases kv op Hwf)
    as [(-> & _ & ->)|[(r & -> & _ & -> & _)|(kv' & sh & Hsh & _ & -> & -> & ->)]];
    do 2 eexists; (split; [done|]).
  1,2: split_and!; try done; intros s; by rewrite write_shard_nil.
  destruct (is_get op); [split_and!; try done; intros s; by rewrite write_shard_nil|].
  split_and!; try done; simpl; [split; [by apply wf_machine_insert, Hwf|apply Hwf]|].
  intros s. unfold write_shard. rewrite shard_writes_one. case_decide as E.
  - rewrite <-E, lookup_insert_eq, Hsh. done.
  - rewrite lookup_insert_ne by done. by destruct (stateMachine kv !! s) as [[]|].
Qed.

(** ** Configurations *)

Definition acquires kv c (s : Z) : bool :=
  match zlookup (Shards (currentConfig kv)) s, zlookup (Shards c) s with
  | Some cur, Some next => negb (cur =? gid kv) && (next =? gid kv) && negb (cur =? 0)
  | _, _ => false
  end.

Definition releases kv c (s : Z) : bool :=
  match zlookup (Shards (currentConfig kv)) s, zlookup (Shards c) s with
  | Some cur, Some next => (cur =? gid kv) && negb (next =? gid kv) && negb (next =? 0)
  | _, _ => false
  end.

Definition next_status kv c (s : Z) (st : ShardStatus) : ShardStatus :=
  if acquires kv c s then Pulling else if releases kv c s then BePulling else st.

Definition move_shard_status kv c (s : Z) (sh : Shard) : Shard :=
  mkShard (KV sh) (next_status kv c s (Status sh)).

Lemma updateShard_ok kv c sm s :
  wf_machine sm → 0 ≤ s < NShards →
  len (Shards (currentConfig kv)) = NShards → len (Shards c) = NShards →
  ∃ sm', updateShard kv c sm s = Ret sm' ∧
    sm' !! s = move_shard_status kv c s <$> sm !! s ∧
    (∀ s', s' ≠ s → sm' !! s' = sm !! s').
Proof.
  intros Hsm Hs Hc Hn. unfold updateShard, move_shard_status, next_status, acquires, releases.
  destruct (slice_get_ok (Shards (currentConfig kv)) s) as (cur & -> & ->); [lia|].
  destruct (slice_get_ok (Shards c) s) as (next & -> & ->); [lia|]. rewrite !bind_Ret.
  destruct (shard_at_ok sm s Hsm Hs) as (sh & Hat & Hsh). rewrite Hat, Hsh.
  destruct (Z.eqb_spec cur (gid kv)) as [->|Hne]; simpl.
  - destruct (negb (next =? gid kv) && negb (next =? 0)).
    + rewrite Hat, bind_Ret. eexists. split; [done|]. rewrite lookup_insert_eq. split; [done|].
      intros. by rewrite lookup_insert_ne.
    + eexists. split; [done|]. rewrite Hsh. by destruct sh.
  - destruct ((next =? gid kv) && negb (cur =? 0)); simpl.
    + eexists. split; [done|]. rewrite lookup_insert_eq. split; [done|].
      intros. by rewrite lookup_insert_ne.
    + eexists. split; [done|]. rewrite Hsh. by destruct sh.
Qed.

(** The loop changes each shard once. *)
Lemma updateShards_ok kv c sm (l : list Z) :
  wf_machine sm → NoDup l → (∀ s, s ∈ l → 0 ≤ s < NShards) →
  len (Shards (currentConfig kv)) = NShards → len (Shards c) = NShards →
  ∃ sm', ofold (updateShard kv c) sm l = Ret sm' ∧ wf_machine sm' ∧
    ∀ s, sm' !! s = (if decide (s ∈ l) then move_shard_status kv c s <$> sm !! s else sm !! s).
Proof.
  intros Hsm Hnd Hl Hc Hn. revert sm Hsm.
  induction Hnd as [|s l Hs Hnd IH]; intros sm Hsm; cbn [ofold].
  { exists sm. by split_and!. }
  destruct (updateShard_ok kv c sm s) as (sm1 & -> & H1 & H2); try done; [by apply Hl; left|].
  rewrite bind_Ret.
  assert (wf_machine sm1) as Hsm1.
  { intros s' Hs'. destruct (decide (s' = s)) as [->|]; [|rewrite H2; auto].
    rewrite H1. apply fmap_is_Some. by apply Hsm. }
  destruct IH with sm1 as (sm2 & -> & Hsm2 & Hlk); [by intros; apply Hl; right|done|].
  exists sm2. split_and!; try done. intros s'. rewrite Hlk.
  destruct (decide (s' = s)) as [->|Hne].
  - rewrite decide_False, decide_True by (done || by left). done.
  - rewrite H2 by done. apply decide_ext. rewrite elem_of_cons. naive_solver.
Qed.

Lemma wf_status_range kv s : wf kv → 0 ≤ s < NShards → is_Some (status kv s).
Proof. intros (H & _) Hs. unfold status. apply fmap_is_Some. by apply H. Qed.

Lemma applyConfiguration_ok kv c :
  wf kv → len (Shards c) = NShards →
  ∃ kv' r, applyConfiguration kv c = Ret (kv', r) ∧ wf kv' ∧ gid kv' = gid kv ∧
    lastOperations kv' = lastOperations kv ∧
    if decide (Num c = Num (currentConfig kv) + 1) then
      cr_Err r = OK ∧ currentConfig kv' = c ∧ lastConfig kv' = currentConfig kv ∧
      (∀ s, 0 ≤ s < NShards →
         stateMachine kv' !! s = move_shard_status kv c s <$> stateMachine kv !! s)
    else kv' = kv ∧ cr_Err r = ErrOutDated.
Proof.
  intros (Hsm & Hc & Hl) Hn. unfold applyConfiguration, updateShardStatus.
  destruct (Z.eqb_spec (Num c) (Num (currentConfig kv) + 1)) as [E|E].
  - destruct (updateShards_ok kv c (stateMachine kv) (zrange NShards)) as (sm' & -> & Hsm' & Hlk);
      [done|apply NoDup_zrange|by intros s ?%elem_of_zrange|done|done|].
    rewrite !bind_Ret. do 2 eexists. split; [done|]. rewrite decide_True by done.
    split; [by split_and!|]. split_and!; try done.
    intros s Hs. simpl. rewrite Hlk, decide_True by (by apply elem_of_zrange). done.
  - do 2 eexists. split; [done|]. rewrite decide_False by done. by split_and!.
Qed.

(** ** Shards from another group *)

Lemma insert_loop_ok sm (l : list (Z * gmap string string)) :
  wf_machine sm → (∀ s, s ∈ l.*1 → 0 ≤ s < NShards) →
  ∃ sm', insert_loop sm l = Ret sm' ∧ wf_machine sm' ∧
    ∀ s, sm' !! s = sm !! s ∨
         ∃ sh data, sm !! s = Some sh ∧ Status sh = Pulling ∧ (s, data) ∈ l ∧
                    sm' !! s = Some (mkShard (data ∪ KV sh) GCing).
Proof.
  revert sm. induction l as [|[s0 data] l IH]; intros sm Hsm Hl; cbn [insert_loop].
  { exists sm. split_and!; try done. by left. }
  destruct (shard_at_ok sm s0 Hsm) as (sh & -> & Hsh); [apply Hl; by left|]. rewrite bind_Ret.
  unfold status_is. case_bool_decide as Hst.
  2: { exists sm. split_and!; try done. by left. }
  cbv zeta. rewrite foldl_insert_range.
  destruct (IH (<[s0 := mkShard (data ∪ KV sh) GCing]> sm)) as (sm' & -> & Hsm' & Hlk).
  { by apply wf_machine_insert. }
  { intros s Hs. apply Hl. by right. }
  exists sm'. split_and!; try done. intros s.
  destruct (decide (s0 = s)) as [<-|Hne].
  - right. exists sh, data. specialize (Hlk s0). rewrite lookup_insert_eq in Hlk.
    destruct Hlk as [E|(sh' & ? & [= <-] & Hp & _)]; [|by simpl in Hp].
    split_and!; [done|done|by left|done].
  - specialize (Hlk s). rewrite lookup_insert_ne in Hlk by done.
    destruct Hlk as [E|(sh' & d & ? & ? & ? & ?)]; [by left|]. right.
    exists sh', d. split_and!; try done. by right.
Qed.

Lemma delete_loop_ok sm (l : list Z) :
  wf_machine sm → (∀ s, s ∈ l → 0 ≤ s < NShards) →
  ∃ sm', delete_loop sm l = Ret sm' ∧ wf_machine sm' ∧
    ∀ s, sm' !! s = sm !! s ∨
         ∃ sh, sm !! s = Some sh ∧ s ∈ l ∧
           (Status sh = GCing ∧ sm' !! s = Some (mkShard (KV sh) Serving) ∨
            Status sh = BePulling ∧ sm' !! s = Some NewShard).
Proof.
  revert sm. induction l as [|s0 l IH]; intros sm Hsm Hl; cbn [delete_loop].
  { exists sm. split_and!; try done. by left. }
  destruct (shard_at_ok sm s0 Hsm) as (sh & -> & Hsh); [apply Hl; by left|]. rewrite bind_Ret.
  assert (∀ sh1, Status sh1 = Serving →
    (Status sh = GCing ∧ sh1 = mkShard (KV sh) Serving ∨ Status sh = BePulling ∧ sh1 = NewShard) →
    ∃ sm', delete_loop (<[s0 := sh1]> sm) l = Ret sm' ∧ wf_machine sm' ∧
    ∀ s, sm' !! s = sm !! s ∨
         ∃ sh, sm !! s = Some sh ∧ s ∈ s0 :: l ∧
           (Status sh = GCing ∧ sm' !! s = Some (mkShard (KV sh) Serving) ∨
            Status sh = BePulling ∧ sm' !! s = Some NewShard)) as Hnext.
  { intros sh1 Hs1 Hch.
    destruct (IH (<[s0 := sh1]> sm)) as (sm' & -> & Hsm' & Hlk).
    { by apply wf_machine_insert. }
    { intros s Hs. apply Hl. by right. }
    exists sm'. split_and!; try done. intros s. specialize (Hlk s).
    destruct (decide (s0 = s)) as [<-|Hne].
    - right. exists sh. rewrite lookup_insert_eq in Hlk.
      destruct Hlk as [->|(sh' & [= <-] & _ & [[E _]|[E _]])]; [|congruence..].
      split_and!; [done|by left|]. destruct Hch as [[? ->]|[? ->]]; auto.
    - rewrite lookup_insert_ne in Hlk by done.
      destruct Hlk as [E|(sh' & ? & ? & ?)]; [by left|]. right. exists sh'. split_and!; try done. by right. }
  unfold status_is. case_bool_decide as H1; [apply Hnext; auto|].
  case_bool_decide as H2; [apply Hnext; auto|].
  exists sm. split_and!; try done. by left.
Qed.

(** ** The table of client commands *)

Definition ops_le (ops ops' : gmap Z OperationContext) : Prop :=
  ∀ cl ctx, ops !! cl = Some ctx →
    ∃ ctx', ops' !! cl = Some ctx' ∧ MaxAppliedCommandId ctx ≤ MaxAppliedCommandId ctx'.

#[global] Instance ops_le_refl : Reflexive ops_le.
Proof. intros ops cl ctx H. exists ctx. split; [done|lia]. Qed.

#[global] Instance ops_le_trans : Transitive ops_le.
Proof.
  intros o1 o2 o3 H12 H23 cl ctx (ctx2 & (ctx3 & ? & ?)%H23 & ?)%H12. exists ctx3. split; [done|lia].
Qed.

Lemma ops_le_insert ops cl ctx :
  (∀ ctx0, ops !! cl = Some ctx0 → MaxAppliedCommandId ctx0 ≤ MaxAppliedCommandId ctx) →
  ops_le ops (<[cl := ctx]> ops).
Proof.
  intros H cl' ctx' Hl. destruct (decide (cl = cl')) as [<-|Hne].
  - exists ctx. rewrite lookup_insert_eq. auto.
  - exists ctx'. rewrite lookup_insert_ne by done. split; [done|lia].
Qed.

Lemma merge_operations_le ops more :
  ops_le ops (merge_operations ops more) ∧
  ∀ cl ctx, (cl, ctx) ∈ more →
    ∃ ctx', merge_operations ops more !! cl = Some ctx' ∧
            MaxAppliedCommandId ctx ≤ MaxAppliedCommandId ctx'.
Proof.
  unfold merge_operations.
  apply (foldl_prefix (λ seen ops', ops_le ops ops' ∧ ∀ cl ctx, (cl, ctx) ∈ seen →
    ∃ ctx', ops' !! cl = Some ctx' ∧ MaxAppliedCommandId ctx ≤ MaxAppliedCommandId ctx')).
  { split; [done|]. by intros ?? ?%not_elem_of_nil. }
  intros seen [cl ctx] ops' _ [Hle Hseen].
  assert (∀ ops2, ops_le ops' ops2 →
    (∃ ctx', ops2 !! cl = Some ctx' ∧ MaxAppliedCommandId ctx ≤ MaxAppliedCommandId ctx') →
    ops_le ops ops2 ∧ ∀ cl' ctx', (cl', ctx') ∈ seen ++ [(cl, ctx)] →
      ∃ ctx2, ops2 !! cl' = Some ctx2 ∧ MaxAppliedCommandId ctx' ≤ MaxAppliedCommandId ctx2) as Hk.
  { intros ops2 Hle2 Hcl. split; [by etrans|].
    intros cl' ctx' [Hin|[= -> ->]%list_elem_of_singleton]%elem_of_app; [|done].
    apply Hseen in Hin as (c1 & Hc1 & ?). apply Hle2 in Hc1 as (c2 & ? & ?).
    exists c2. split; [done|lia]. }
  destruct (ops' !! cl) as [last|] eqn:Hcl.
  - destruct (Z.ltb_spec (MaxAppliedCommandId last) (MaxAppliedCommandId ctx)); apply Hk.
    + apply ops_le_insert. intros ctx0 ?. simplify_eq. lia.
    + exists ctx. rewrite lookup_insert_eq. split; [done|lia].
    + done.
    + exists last. split; [done|lia].
  - apply Hk.
    + apply ops_le_insert. by intros ctx0 ?; simplify_eq.
    + exists ctx. rewrite lookup_insert_eq. split; [done|lia].
Qed.

Lemma executed_spec kv cmd w :
  w ∈ executed kv cmd →
  cmd = Operation w ∧ executed kv cmd = [w] ∧ ca_Op w ≠ Get ∧
  canServe kv (key2shard (ca_Key w)) = Ret true ∧
  ∀ ctx, lastOperations kv !! ca_ClientId w = Some ctx → MaxAppliedCommandId ctx < ca_CommandId w.
Proof.
  destruct cmd as [op|?|?|?|]; simpl; try by intros ?%not_elem_of_nil.
  destruct (bool_decide _ && _ && _) eqn:E; [|by intros ?%not_elem_of_nil].
  intros ->%list_elem_of_singleton. split_bool. apply bool_decide_eq_true in H.
  unfold is_get in *. apply bool_decide_eq_false in H1. split_and!; try done.
  intros ctx Hctx. unfold isDuplicateRequest in H0. rewrite Hctx in H0. by apply Z.leb_gt.
Qed.

Lemma applyOperation_ops kv op kv' r :
  wf kv → applyOperation kv op = Ret (kv', r) →
  ops_le (lastOperations kv) (lastOperations kv') ∧
  ∀ w, w ∈ executed kv (Operation op) →
    ∃ ctx, lastOperations kv' !! ca_ClientId w = Some ctx ∧ ca_CommandId w ≤ MaxAppliedCommandId ctx.
Proof.
  intros Hwf H.
  destruct (applyOperation_cases kv op Hwf)
    as [(E & _ & Ew)|[(r' & E & _ & Ew & _)|(kv1 & sh & Hsh & _ & E & Ew & Hkv)]];
    rewrite E in H; simplify_eq; rewrite Ew.
  1,2: split; [done|by intros ? ?%not_elem_of_nil].
  destruct (is_get op); [split; [done|by intros ? ?%not_elem_of_nil]|]. simpl. split.
  - apply ops_le_insert. simpl. intros ctx Hctx.
    apply Z.lt_le_incl, (executed_spec kv (Operation op) op); [|done]. rewrite Ew. by left.
  - intros w ->%list_elem_of_singleton. eexists. rewrite lookup_insert_eq. split; [done|simpl; lia].
Qed.

(** ** All commands together *)

(** What may happen to a shard while the configuration stays. *)
Inductive shard_step (cmd : Command) kv kv' (s : Z) : Prop :=
| shard_kept :
    stateMachine kv' !! s = write_shard (executed kv cmd) s <$> stateMachine kv !! s →
    shard_step cmd kv kv' s
| shard_inserted info sh data :
    cmd = InsertShards info → sor_ConfigNum info = Num (currentConfig kv) →
    sor_Shards info !! s = Some data →
    stateMachine kv !! s = Some sh → Status sh = Pulling →
    stateMachine kv' !! s = Some (mkShard (data ∪ KV sh) GCing) →
    shard_step cmd kv kv' s
| shard_collected info sh :
    cmd = DeleteShards info → soa_ConfigNum info = Num (currentConfig kv) →
    s ∈ soa_ShardIDs info →
    stateMachine kv !! s = Some sh → Status sh = GCing →
    stateMachine kv' !! s = Some (mkShard (KV sh) Serving) →
    shard_step cmd kv kv' s
| shard_deleted info sh :
    cmd = DeleteShards info → soa_ConfigNum info = Num (currentConfig kv) →
    s ∈ soa_ShardIDs info →
    stateMachine kv !! s = Some sh → Status sh = BePulling →
    stateMachine kv' !! s = Some NewShard →
    shard_step cmd kv kv' s.

Inductive config_step (cmd : Command) kv kv' : Prop :=
| config_kept :
    currentConfig kv' = currentConfig kv → lastConfig kv' = lastConfig kv →
    (∀ s, shard_step cmd kv kv' s) → config_step cmd kv kv'
| config_next c :
    cmd = Configuration c → Num c = Num (currentConfig kv) + 1 →
    currentConfig kv' = c → lastConfig kv' = currentConfig kv →
    (∀ s, 0 ≤ s < NShards →
       stateMachine kv' !! s = move_shard_status kv c s <$> stateMachine kv !! s) →
    config_step cmd kv kv'.

Lemma config_same cmd kv : executed kv cmd = [] → config_step cmd kv kv.
Proof. intros E. apply config_kept; try done. intros s. apply shard_kept. by rewrite E, write_shard_nil. Qed.

(** The table of client commands: it grows, it holds the writes executed, and it takes
    over what comes with shards. *)
Definition ops_step (cmd : Command) kv kv' : Prop :=
  ops_le (lastOperations kv) (lastOperations kv') ∧
  (∀ w, w ∈ executed kv cmd →
     ∃ ctx, lastOperations kv' !! ca_ClientId w = Some ctx ∧ ca_CommandId w ≤ MaxAppliedCommandId ctx) ∧
  (∀ info, cmd = InsertShards info → sor_ConfigNum info = Num (currentConfig kv) →
     ops_le (sor_LastOperations info) (lastOperations kv')).

Lemma ops_same cmd kv : executed kv cmd = [] → (∀ info, cmd ≠ InsertShards info) → ops_step cmd kv kv.
Proof.
  intros E Hne. split; [done|]. split; [rewrite E; by intros ? ?%not_elem_of_nil|].
  intros info ->. by destruct (Hne info).
Qed.

Lemma applyInsertShards_ok kv info :
  wf kv → wf_command (InsertShards info) →
  ∃ kv' r, applyInsertShards kv info = Ret (kv', r) ∧ wf kv' ∧ gid kv' = gid kv ∧
    config_step (InsertShards info) kv kv' ∧ ops_step (InsertShards info) kv kv'.
Proof.
  intros Hwf Hcmd. unfold applyInsertShards.
  destruct (Z.eqb_spec (sor_ConfigNum info) (Num (currentConfig kv))) as [E|E].
  2: { do 2 eexists. split; [done|]. split_and!; try done; [by apply config_same|].
       split; [done|]. split; [by intros ? ?%not_elem_of_nil|]. by intros ? [= <-] ?. }
  destruct Hwf as (Hsm & Hc & Hl).
  destruct (insert_loop_ok (stateMachine kv) (range (sor_Shards info))) as (sm' & -> & Hsm' & Hlk).
  { done. }
  { intros s. rewrite range_perm. intros ([k v] & -> & H%elem_of_map_to_list)%list_elem_of_fmap.
    apply Hcmd. by exists v. }
  rewrite bind_Ret. do 2 eexists. split; [done|]. split; [by split_and!|]. split; [done|].
  pose proof (merge_operations_le (lastOperations kv) (range (sor_LastOperations info))) as [Hle Hin].
  split; [apply config_kept; [done..|]|split; [done|split; [by intros ? ?%not_elem_of_nil|]]].
  - intros s. destruct (Hlk s) as [E'|(sh & d & Hs & Hst & Hd & Hs')].
    + apply shard_kept. by rewrite write_shard_nil.
    + rewrite range_perm in Hd. apply elem_of_map_to_list in Hd. by eapply shard_inserted.
  - intros ? [= <-] _ cl ctx Hctx. apply Hin. rewrite range_perm. by apply elem_of_map_to_list.
Qed.

Lemma applyDeleteShards_ok kv info :
  wf kv → wf_command (DeleteShards info) →
  ∃ kv' r, applyDeleteShards kv info = Ret (kv', r) ∧ wf kv' ∧ gid kv' = gid kv ∧
    config_step (DeleteShards info) kv kv' ∧ ops_step (DeleteShards info) kv kv'.
Proof.
  intros Hwf Hcmd. unfold applyDeleteShards.
  destruct (Z.eqb_spec (soa_ConfigNum info) (Num (currentConfig kv))) as [E|E].
  2: { do 2 eexists. split; [done|]. split_and!; try done; [by apply config_same|by apply ops_same]. }
  destruct Hwf as (Hsm & Hc & Hl).
  destruct (delete_loop_ok (stateMachine kv) (soa_ShardIDs info)) as (sm' & -> & Hsm' & Hlk); [done..|].
  rewrite bind_Ret. do 2 eexists. split; [done|]. split; [by split_and!|]. split; [done|].
  split; [apply config_kept; [done..|]|split; [done|by split; [intros ? ?%not_elem_of_nil|]]].
  intros s. destruct (Hlk s) as [E'|(sh & Hs & Hin & [[Hst Hs']|[Hst Hs']])].
  - apply shard_kept. by rewrite write_shard_nil.
  - by eapply shard_collected.
  - by eapply shard_deleted.
Qed.

Lemma apply_command_ok kv cmd :
  wf kv → wf_command cmd →
  ∃ kv' r, apply_command kv cmd = Ret (kv', r) ∧ wf kv' ∧ gid kv' = gid kv ∧
    config_step cmd kv kv' ∧ ops_step cmd kv kv'.
Proof.
  intros Hwf Hcmd. destruct cmd as [args|c|info|info|]; cbn [apply_command].
  - destruct (applyOperation_ok kv args Hwf) as (kv' & r & Hap & Hwf' & Hg & Hc & Hl & Hsm).
    destruct (applyOperation_ops _ _ _ _ Hwf Hap) as [Hle Hops].
    exists kv', r. split_and!; try done. apply config_kept; [done..|]. intros s. by apply shard_kept.
  - destruct (applyConfiguration_ok kv c Hwf Hcmd) as (kv' & r & Hap & Hwf' & Hg & Hops & Hif).
    exists kv', r. split_and!; try done.
    + case_decide as E; [|destruct Hif as [-> _]; by apply config_same].
      destruct Hif as (_ & ? & ? & Hsm). by eapply config_next.
    + unfold ops_step. rewrite Hops. by apply (ops_same (Configuration c)).
  - by apply applyInsertShards_ok.
  - by apply applyDeleteShards_ok.
  - do 2 eexists. split; [done|]. split_and!; try done; [by apply config_same|by apply ops_same].
Qed.

(** ** The contracts *)

(** C33. The commands of a group's log are total: on a well-formed state no well-formed
    command panics, the state stays well formed, the configuration number grows by
    at most one, and only to the configuration of the command; and for no client
    does the number of the last executed command decrease, also when the table of
    another group is merged in. *)
Theorem shardkv_commands_total kv cmd :
  wf kv → wf_command cmd →
  ∃ kv' r, apply_command kv cmd = Ret (kv', r) ∧ wf kv' ∧
    (currentConfig kv' = currentConfig kv ∨
     Num (currentConfig kv') = Num (currentConfig kv) + 1 ∧
     cmd = Configuration (currentConfig kv')) ∧
    ops_le (lastOperations kv) (lastOperations kv').
Proof.
  intros Hwf Hcmd. destruct (apply_command_ok kv cmd Hwf Hcmd)
    as (kv' & r & Hap & Hwf' & _ & Hstep & [Hops _]).
  exists kv', r. split_and!; [done..| |done].
  destruct Hstep as [? _ _|c -> Hn -> _ _]; [by left|by right].
Qed.

(** A client operation is executed only by the group that serves its shard: if the
    group does not own the shard in its configuration, or the shard is being pulled
    in or given away, the answer is [ErrWrongGroup] and nothing changes.  No other
    shard is touched. *)
Theorem applyOperation_serves kv op :
  wf kv →
  ∃ kv' r, applyOperation kv op = Ret (kv', r) ∧
    (∀ s, s ≠ key2shard (ca_Key op) → stateMachine kv' !! s = stateMachine kv !! s) ∧
    (kv' = kv ∧ cr_Err r = ErrWrongGroup ∨
     zlookup (Shards (currentConfig kv)) (key2shard (ca_Key op)) = Some (gid kv) ∧
     (status kv (key2shard (ca_Key op)) = Some Serving ∨
      status kv (key2shard (ca_Key op)) = Some GCing)).
Proof.
  intros Hwf. destruct (canServe_ok kv (key2shard (ca_Key op)) Hwf (key2shard_range _)) as (b & Hb & Hiff).
  destruct (applyOperation_cases kv op Hwf)
    as [(-> & _)|[(r & -> & Hcs & _)|(kv' & sh & Hsh & Hcs & -> & _ & ->)]].
  - do 2 eexists. split_and!; [done..|]. by left.
  - do 2 eexists. split_and!; [done..|]. right. apply Hiff. congruence.
  - do 2 eexists. split_and!; [done| |right; apply Hiff; congruence].
    intros s Hs. destruct (is_get op); [done|]. simpl. by rewrite lookup_insert_ne.
Qed.

(** Exactly once across migrations: a write whose number is not larger than the
    last executed one of its client, in the group's own table or in a table merged
    in with the shards of another group, is not executed again. *)
Theorem applyOperation_no_replay kv info kv1 r1 op ctx :
  wf kv → wf_command (InsertShards info) → sor_ConfigNum info = Num (currentConfig kv) →
  apply_command kv (InsertShards info) = Ret (kv1, r1) →
  sor_LastOperations info !! ca_ClientId op = Some ctx →
  ca_Op op ≠ Get → ca_CommandId op ≤ MaxAppliedCommandId ctx →
  ∃ r, applyOperation kv1 op = Ret (kv1, r).
Proof.
  intros Hwf Hcmd Hnum H1 Hctx Hop Hid.
  destruct (apply_command_ok kv (InsertShards info) Hwf Hcmd) as (kv' & r & Hap & Hwf' & _).
  rewrite H1 in Hap. simplify_eq.
  destruct (canServe_ok kv' (key2shard (ca_Key op)) Hwf' (key2shard_range _)) as (b & Hb & _).
  unfold applyOperation. rewrite Hb, bind_Ret. destruct b; simpl; [|by eexists].
  assert (∃ ctx', lastOperations kv' !! ca_ClientId op = Some ctx' ∧
    MaxAppliedCommandId ctx ≤ MaxAppliedCommandId ctx') as (ctx' & Hl & Hle).
  { simpl in H1. unfold applyInsertShards in H1. rewrite Hnum, Z.eqb_refl in H1.
    apply outcome_bind_Ret in H1 as (sm & _ & H1). simplify_eq. simpl.
    apply merge_operations_le. rewrite range_perm. by apply elem_of_map_to_list. }
  unfold is_get, isDuplicateRequest. rewrite bool_decide_false, Hl by done. simpl.
  rewrite (proj2 (Z.leb_le _ _)) by lia. by eexists.
Qed.

End apply.

(** ** Snapshots *)
Section snapshot.
Context {ranges : MapRange} {gob : Gob ShardGob}.
Implicit Types kv : ShardKV.

(** A snapshot round trip: restoring what [takeSnapshot] wrote gives back both
    configurations, every shard with its status, and the table of client commands,
    whatever the server held before. *)
Lemma restoreSnapshot_takeSnapshot kv kv0 :
  restoreSnapshot kv (takeSnapshot kv0) =
  kv <| lastConfig := lastConfig kv0 |> <| currentConfig := currentConfig kv0 |>
     <| stateMachine := stateMachine kv0 |> <| lastOperations := lastOperations kv0 |>.
Proof.
  unfold restoreSnapshot. destruct (Z.ltb_spec (len (takeSnapshot kv0)) 1) as [Hlen|_].
  - exfalso. assert (takeSnapshot kv0 ≠ []) as Hne%len_pos; [|lia].
    unfold takeSnapshot. by apply Bytes_nonempty.
  - unfold takeSnapshot. rewrite NewDecoder_Bytes. reflexivity.
Qed.
End snapshot.

(** ** Concrete instances *)
Section apply_examples.
#[local] Existing Instance range_default.
#[local] Existing Instance shard_gob.

(** Group 1 at its first start, and in the first configuration, which gives it the
    even shards and shard 0 in transit from group 2. *)
Definition kv_new : ShardKV := StartServer MakePersister (-1) 1.

Definition shards_a : list Z := [2; 2; 1; 2; 1; 2; 1; 2; 1; 2].
Definition shards_b : list Z := [1; 2; 1; 2; 1; 2; 1; 2; 1; 2].

Definition after (kv : ShardKV) (cmd : Command) : ShardKV :=
  match apply_command kv cmd with Ret (kv, _) => kv | Panic => kv end.

Definition kv_pulling : ShardKV :=
  after (after kv_new (Configuration (mkConfig 1 shards_a groups12)))
    (Configuration (mkConfig 2 shards_b groups12)).

Definition moved_shard : ShardOperationReply :=
  mkShardOperationReply OK 2 {[ 0 := {[ "P"%string := "v"%string ]} ]}
    {[ 7 := mkOperationContext 4 (mkCommandReply OK "") ]}.

Lemma kv_new_wf : wf kv_new.
Proof.
  split; [|done]. intros s Hs%elem_of_zrange. revert s Hs. apply Forall_forall.
  apply (bool_decide_unpack _). by vm_compute.
Qed.

Lemma kv_pulling_wf : wf kv_pulling.
Proof.
  split; [|done]. intros s Hs%elem_of_zrange. revert s Hs. apply Forall_forall.
  apply (bool_decide_unpack _). by vm_compute.
Qed.

Lemma moved_shard_wf : wf_command (InsertShards moved_shard).
Proof. intros s [d Hd]. unfold moved_shard in Hd; cbn [sor_Shards] in Hd. apply lookup_singleton_Some in Hd as [<- _]. by vm_compute. Qed.

Lemma shardkv_commands_total_witness :
  ∃ kv' r, apply_command kv_pulling (InsertShards moved_shard) = Ret (kv', r) ∧ wf kv' ∧
    status kv_pulling 0 = Some Pulling ∧ status kv' 0 = Some GCing.
Proof.
  destruct (shardkv_commands_total kv_pulling (InsertShards moved_shard)) as (kv' & r & H & Hwf & _).
  - exact kv_pulling_wf.
  - exact moved_shard_wf.
  - exists kv', r. split; [exact H|]. split; [exact Hwf|]. split; [by vm_compute|].
    vm_compute in H. apply Ret_inj in H. apply (f_equal fst) in H. cbn [fst] in H. rewrite <-H. by vm_compute.
Defined.

Lemma applyOperation_serves_witness :
  ∃ kv' r, applyOperation kv_pulling (mkCommandArgs "P" "w" Put 7 5) = Ret (kv', r) ∧
    cr_Err r = ErrWrongGroup.
Proof.
  destruct (applyOperation_serves kv_pulling (mkCommandArgs "P" "w" Put 7 5) kv_pulling_wf)
    as (kv' & r & H & _ & [[_ He]|[_ Hst]]).
  - exists kv', r. split; [exact H|exact He].
  - by vm_compute in Hst; destruct Hst.
Defined.

Lemma applyOperation_no_replay_witness :
  ∃ r, applyOperation (after kv_pulling (InsertShards moved_shard)) (mkCommandArgs "P" "w" Put 7 4) =
       Ret (after kv_pulling (InsertShards moved_shard), r).
Proof.
  destruct (apply_command kv_pulling (InsertShards moved_shard)) as [[kv1 r1]|] eqn:E;
    [|by vm_compute in E].
  unfold after. rewrite E.
  apply (applyOperation_no_replay kv_pulling moved_shard kv1 r1 _
           (mkOperationContext 4 (mkCommandReply OK ""))).
  - exact kv_pulling_wf.
  - exact moved_shard_wf.
  - by vm_compute.
  - exact E.
  - by vm_compute.
  - done.
  - simpl. lia.
Defined.
End apply_examples.
