(* ===== verification/ShardCluster.v ===== *)
(** * shardkv over raft: the servers of a group agree

    The servers of a group of [src/src/shardkv] as a service over the group's Raft
    cluster: messages go through [applier], snapshots through [takeSnapshot] and
    [restoreSnapshot].  Every server is in a state that the commands of one log lead
    to, which is what [ShardSystem] takes a group to be.  The servers iterate a map in
    one order. *)
From Stdlib Require Import Init.Byte.
From S2P Require Import Prelude LabGob Raft RaftVote RaftAppend RaftSnapshot RaftNode.
From S2P Require Import RaftFrames RaftSystem RaftLog RaftSteps RaftSafety RaftService.
From S2P Require Import ShardConfig ShardKv ShardApply.

(** What [Execute] does to the server outside [applier]. *)
Inductive ShardOther := ShardRegister (index : Z) | ShardRemove (index : Z).

Section group.
Context {ranges : MapRange} {gob : Gob ShardGob} (maxraftstate group : Z).
Implicit Types (kv : ShardKV) (cmd : ShardKv.Command).

#[export] Instance shard_machine : StateMachine ShardKV ShardKv.Command (Z * bool * Z) ShardOther := {|
  sm_start := λ ps, StartServer ps maxraftstate group;
  sm_apply := λ '(term, isLeader, size) kv msg,
    match applier kv msg term isLeader size with Some (Ret (kv', _)) => Some kv' | _ => None end;
  sm_other := λ o kv,
    match o with
    | ShardRegister index => (getNotifyChan kv index).1
    | ShardRemove index => removeOutdatedNotifyChan kv index
    end;
  sm_snap := λ kv index size, if needSnapshot kv size then Some (takeSnapshot kv) else None;
|}.

(** The replicated part of a server. *)
Definition view kv : Z * Config * Config * gmap Z Shard * gmap Z OperationContext :=
  (gid kv, lastConfig kv, currentConfig kv, stateMachine kv, lastOperations kv).

(** A command acts on the replicated part. *)
Lemma apply_command_view kv1 kv2 cmd kv1' r :
  view kv1 = view kv2 → apply_command kv1 cmd = Ret (kv1', r) →
  ∃ kv2', apply_command kv2 cmd = Ret (kv2', r) ∧ view kv1' = view kv2' ∧ gid kv1' = gid kv1 ∧
    kv_lastApplied kv1' = kv_lastApplied kv1.
Proof.
  destruct kv1 as [g m1 la1 lc cc sm ops nc1], kv2 as [g2 m2 la2 lc2 cc2 sm2 ops2 nc2].
  unfold view. simpl. intros [= <- <- <- <- <-] H. destruct cmd as [op|c|info|args|]; simpl in *.
  - unfold applyOperation in *. set (kv1 := mkShardKV g m1 _ _ _ _ _ _) in *. set (kv2 := mkShardKV g m2 _ _ _ _ _ _).
    change (canServe kv2) with (canServe kv1). change (isDuplicateRequest kv2) with (isDuplicateRequest kv1).
    apply outcome_bind_Ret in H as (ok & -> & H). rewrite bind_Ret.
    destruct (negb ok); [simplify_eq; eauto|]. destruct (negb _ && _); [simpl in *; case_match; simplify_eq; eauto|].
    apply outcome_bind_Ret in H as ([kv reply] & Hap & [= <- <-]). unfold applyLogToStateMachine in *.
    apply outcome_bind_Ret in Hap as (sh & Hsh & Hap). simpl in Hsh |- *. rewrite Hsh, bind_Ret.
    destruct (ca_Op op), (is_get op), (Shard_Get sh (ca_Key op)); simplify_eq/=; eauto.
  - unfold applyConfiguration, updateShardStatus in *. simpl in *. case_match; [|simplify_eq; eauto].
    apply outcome_bind_Ret in H as (kv & Hu & H). apply outcome_bind_Ret in Hu as (sm' & Hu & [= <-]).
    change (updateShard (mkShardKV g m2 la2 lc cc sm ops nc2) c)
      with (updateShard (mkShardKV g m1 la1 lc cc sm ops nc1) c). rewrite Hu. simplify_eq/=. eauto.
  - unfold applyInsertShards in *. simpl in *. case_match; [|simplify_eq; eauto].
    apply outcome_bind_Ret in H as (sm' & Hs & [= <- <-]). rewrite Hs. eauto.
  - unfold applyDeleteShards in *. simpl in *. case_match; [|simplify_eq; eauto].
    apply outcome_bind_Ret in H as (sm' & Hs & [= <- <-]). rewrite Hs. eauto.
  - unfold applyEmptyShards in *. simplify_eq/=. eauto.
Qed.

(** The specification: the commands one after the other, from an empty server. *)
Definition shard_spec (cmds : list ShardKv.Command) : outcome ShardKV :=
  ofold (λ kv cmd, '(kv, _) ← apply_command kv cmd; Ret kv) (StartServer MakePersister (-1) group) cmds.

Definition shard_holds (cmds : list ShardKv.Command) kv : Prop :=
  gid kv = group ∧ ∃ kv0, shard_spec cmds = Ret kv0 ∧ view kv = view kv0.

Lemma shard_holds_next cmds kv cmd kv' r :
  shard_holds cmds kv → apply_command kv cmd = Ret (kv', r) → shard_holds (cmds ++ [cmd]) kv'.
Proof.
  intros (Hg & kv0 & Hs & Hv) H. destruct (apply_command_view kv kv0 cmd kv' r Hv H) as (kv0' & H0 & Hv' & Hg' & _).
  split; [congruence|]. exists kv0'. split; [|done]. unfold shard_spec in *. by rewrite ofold_app, Hs, bind_Ret; simpl; rewrite H0.
Qed.

Lemma StartServer_taken ps kv :
  snapshot ps = takeSnapshot kv → gid kv = group → 
  view (StartServer ps maxraftstate group) = view kv ∧ kv_lastApplied (StartServer ps maxraftstate group) = 0.
Proof.
  intros Hps <-. unfold StartServer, ReadSnapshot, clone. by rewrite Hps, restoreSnapshot_takeSnapshot.
Qed.

#[export] Instance shard_lawful : Lawful shard_machine.
Proof.
  refine {| sm_holds := λ cmds, shard_holds (omap id cmds); sm_index := kv_lastApplied |}.
  - intros ps Hps. simpl. unfold StartServer, ReadSnapshot, clone. rewrite Hps. split; [|done]. split; [done|].
    by eexists.
  - intros [[term isLeader] size] cmds kv msg kv' Hh Hv Ht Hla _ Hap. rewrite omap_app. simpl in Hap. unfold applier in Hap.
    rewrite Hv in Hap. destruct (Z.leb_spec (CommandIndex msg) (kv_lastApplied kv)); [lia|]. cbv zeta in Hap.
    destruct (Raft.Command msg) as [cmd|] eqn:Hc; [|discriminate Hap]. simpl. revert Hh. generalize (omap id cmds).
    clear cmds. intros cmds Hh. destruct (apply_command _ cmd) as [[kv1 reply]|] eqn:Hcmd; [|discriminate Hap].
    assert (shard_holds (cmds ++ [cmd]) kv1 ∧ kv_lastApplied kv1 = CommandIndex msg) as [Hh1 Hla1].
    { split; [by eapply (shard_holds_next cmds (kv <| kv_lastApplied := CommandIndex msg |>))|].
      by apply (apply_command_view _ _ _ _ _ eq_refl) in Hcmd as (? & _ & _ & _ & ->). }
    destruct (isLeader && _).
    + unfold getNotifyChan in Hap. destruct (notifyChans kv1 !! _) as [[buf|]|]; simplify_eq/=; split; [done|lia|done|lia].
    + simplify_eq/=. split; [done|lia].
  - intros [index|index] cmds kv Hh; [|by split]. simpl. unfold getNotifyChan. case_match; by split.
  - intros cmds kv index size b ps (Hg & kv0 & Hs & Hv) Hsn Hps. simpl in *. destruct (needSnapshot kv size); [|discriminate Hsn].
    injection Hsn as <-. destruct (StartServer_taken ps kv Hps Hg) as [Hst Hla]. split; [|simpl; lia].
    split; [unfold view in *; congruence|]. exists kv0. by rewrite Hst.
Defined.

Context {rgob : Gob (RaftGob ShardKv.Command)}.

End group.

(** ** A concrete group

    Node 0 leads and replicates a configuration and a write to node 1.  Both servers
    execute them; the server of node 0 takes a snapshot, crashes and starts again. *)
#[export] Instance CommandArgs_eq_dec : EqDecision ShardKv.CommandArgs.
Proof. solve_decision. Defined.

#[export] Instance CommandArgs_countable : Countable ShardKv.CommandArgs.
Proof.
  refine (inj_countable'
    (λ a, (ca_Key a, ca_Value a, match ca_Op a with Get => 0 | Put => 1 | Append => 2 end, ca_ClientId a, ca_CommandId a))
    (λ '(k, v, o, c, i), mkCommandArgs k v (if o =? 0 then Get else if o =? 1 then Put else Append) c i) _).
  by intros [? ? [] ? ?].
Defined.

#[export] Instance ShardOperationArgs_eq_dec : EqDecision ShardOperationArgs.
Proof. solve_decision. Defined.

#[export] Instance ShardOperationReply_eq_dec : EqDecision ShardOperationReply.
Proof. solve_decision. Defined.

#[export] Instance shard_Command_eq_dec : EqDecision ShardKv.Command.
Proof. solve_decision. Defined.

#[export] Instance shard_Command_countable : Countable ShardKv.Command.
Proof.
  refine (inj_countable'
    (λ c, match c with
          | Operation a => inl (inl a)
          | Configuration c => inl (inr c)
          | InsertShards r => inr (inl (sor_Err r, sor_ConfigNum r, sor_Shards r, sor_LastOperations r))
          | DeleteShards a => inr (inr (inl (soa_ConfigNum a, soa_ShardIDs a)))
          | EmptyShards => inr (inr (inr tt))
          end)
    (λ c, match c with
          | inl (inl a) => Operation a
          | inl (inr c) => Configuration c
          | inr (inl (e, n, s, o)) => InsertShards (mkShardOperationReply e n s o)
          | inr (inr (inl (n, s))) => DeleteShards (mkShardOperationArgs n s)
          | inr (inr (inr tt)) => EmptyShards
          end) _).
  by intros [|?|[]|[]|].
Defined.

Section group_example.
#[local] Existing Instance range_default.
#[local] Existing Instance shard_gob.
#[local] Instance group_rgob : Gob (RaftGob ShardKv.Command) := gob_of_countable (RaftGob ShardKv.Command).
#[local] Instance group_machine : StateMachine ShardKV ShardKv.Command (Z * bool * Z) ShardOther := shard_machine 1 1.

Definition group_config : ShardKv.Command := Configuration (mkConfig 1 (replicate 10 1) {[1 := ["a"%string]]}).
Definition group_put : ShardKv.Command := Operation (mkCommandArgs "k" "v" Put 7 0).

Definition group_events : list (ClusterEvent ShardKv.Command (Z * bool * Z) ShardOther) :=
  (CRaft <$>
   [ECommit 0; ECommit 1; ECommit 2;
    ETimeout 0 0; EDeliver 0 0; EReceive 0 0; ELose 0; ETimeout 0 0; EDeliver 0 0; EReceive 0 0; ELose 0;
    EStart 0 0 (Some group_config); EStart 0 0 (Some group_put); ETimeout 0 0; EBegin 0; EEncode 0; EDeliver 0 0; EReceive 0 0;
    ECommit 0; ECommit 0; ECommit 0; ECommit 0;
    ETimeout 0 0; EBegin 1; EEncode 1; EDeliver 1 0; ECommit 1; ECommit 1; ECommit 1; ECommit 1]) ++
  [COther 0 (ShardRegister 1); CApply 0 (1, true, 50); CApply 0 (1, true, 50); CSnapshot 0; CApply 1 (1, false, 50)].

Definition group_later : list (ClusterEvent ShardKv.Command (Z * bool * Z) ShardOther) :=
  [CRestart 0 0 0; CApply 1 (1, false, 50)].

Definition group_init : Cluster ShardKv.Command ShardKV := cluster_init 3 (λ i, i) 0.
Definition group : Cluster ShardKv.Command ShardKV := default group_init (cluster_run group_events group_init).
Definition group' : Cluster ShardKv.Command ShardKV := default group_init (cluster_run group_later group).
Definition group_server (c : Cluster ShardKv.Command ShardKV) (i : Z) : ShardKV * nat :=
  default (StartServer MakePersister 1 1, 0%nat) (replicas c !! i).
Definition group_value (kv : ShardKV) : option string := sh ← stateMachine kv !! key2shard "k"; KV sh !! "k"%string.

Lemma group_reachable : cluster_reachable 3 group.
Proof. exists (λ i, i), 0, group_events. by vm_compute. Qed.

End group_example.
