(* ===== verification/ShardHarness.v ===== *)
(** * shardkv: the test harness

    Models [src/src/shardkv/config.go]: three groups of servers and a replicated
    controller over one simulated network.  Servers are known by name, so that
    [make_end] can turn the names of a configuration into client ends.  The theorems
    say which numbers of servers the harness works for, and that the names it tells the
    controller lead to the servers that run.

    Servers of groups and controllers are pointers into one list; so are persisters.  A
    group is a pointer as well: its place in [groups].  The calls [ctl.ck.Join] and
    [ctl.ck.Leave] are the arguments they are made with.  [cfg.mu] is not modelled, for the
    reasons given in [RaftHarness]. *)
From Stdlib Require Import Init.Byte.
From stdpp Require Import pretty.
From S2P Require Import Prelude LabGob LabRpc Raft RaftNode ShardConfig ShardCtrler CtrlCluster ShardKv ShardCluster.
From S2P Require Import Harness KvHarness ServiceHarness.

(** A [ShardKV] with its Raft and the flag [dead]. *)
Record ShardHost := mkShardHost { sh_server : ShardKV; sh_rf : Raft Command; sh_dead : bool }.

Definition shard_Kill (kv : ShardHost) : ShardHost := mkShardHost (sh_server kv) (Raft.Kill (sh_rf kv)) true.
Definition shard_killed (kv : ShardHost) : bool := sh_dead kv.

(** What is on the heap: a server with the persister and the ends it was given, or a
    controller. *)
Inductive Hosting :=
| HShard (kv : ShardHost) (persister : Z)
| HCtrl (sc : CtrlHost).

Abbreviation Net := (Network (Name := NetName)).

Record group := mkGroup {
  g_gid : Z;
  g_servers : list (option Z);
  g_saved : list (option Z);
  g_endnames : list (option (list string));
  g_mendnames : list (option (list string));
}.

Record ctrler := mkCtrler { ctl_n : Z; ctl_servers : list (option Z); ctl_names : list string }.

Record shard_config := mkShardConfig {
  sc_net : Net;
  sc_start : Z;
  ctl : ctrler;
  ngroups : Z;
  sc_n : Z;
  groups : list group;
  sc_clerks : gmap Z (list string);
  sc_made : Z;
  sc_nextClientId : Z;
  sc_maxraftstate : Z;
  heap : list Hosting;
  sc_persisters : list Persister;
}.

Definition eta_shard_config (c : shard_config) : shard_config :=
  mkShardConfig (sc_net c) (sc_start c) (ctl c) (ngroups c) (sc_n c) (groups c) (sc_clerks c) (sc_made c) (sc_nextClientId c)
    (sc_maxraftstate c) (heap c) (sc_persisters c).

#[export] Instance set_sc_net : Setter sc_net := λ f x, ltac:(solve_setter eta_shard_config sc_net f x).
#[export] Instance set_ctl : Setter ctl := λ f x, ltac:(solve_setter eta_shard_config ctl f x).
#[export] Instance set_ngroups : Setter ngroups := λ f x, ltac:(solve_setter eta_shard_config ngroups f x).
#[export] Instance set_sc_n : Setter sc_n := λ f x, ltac:(solve_setter eta_shard_config sc_n f x).
#[export] Instance set_groups : Setter groups := λ f x, ltac:(solve_setter eta_shard_config groups f x).
#[export] Instance set_sc_clerks : Setter sc_clerks := λ f x, ltac:(solve_setter eta_shard_config sc_clerks f x).
#[export] Instance set_sc_made : Setter sc_made := λ f x, ltac:(solve_setter eta_shard_config sc_made f x).
#[export] Instance set_sc_nextClientId : Setter sc_nextClientId := λ f x, ltac:(solve_setter eta_shard_config sc_nextClientId f x).
#[export] Instance set_heap : Setter heap := λ f x, ltac:(solve_setter eta_shard_config heap f x).
#[export] Instance set_sc_persisters : Setter sc_persisters := λ f x, ltac:(solve_setter eta_shard_config sc_persisters f x).

Section shard_harness.
Context {ranges : MapRange} {rgob : Gob (RaftGob Command)} {sgob : Gob ShardGob} {cgob : Gob (RaftGob ShardCtrler.CommandArgs)}.
Implicit Types (cfg : shard_config).

(** ** Names and ends *)

Definition ctrlername (c : ctrler) (i : Z) : outcome string := slice_get (ctl_names c) i.

Definition servername (gid i : Z) : string := "server-" +:+ pretty gid +:+ "-" +:+ pretty i.

(** An end that is connected and enabled at once; also what the [make_end] of servers
    and clerks does. *)
Definition open_end (name servername : string) (rn : Net) : outcome Net :=
  rn ← MakeEnd rn (NStr name);
  let rn := Connect rn (NStr name) (NStr servername) in
  Ret (Enable rn (NStr name) true).

Definition make_end (name servername : string) cfg : outcome shard_config :=
  rn ← open_end name servername (sc_net cfg); Ret (cfg <| sc_net := rn |>).

(** Ends to the controllers. *)
Definition open_ctrlers (names : Z → string) (c : ctrler) (rn : Net) : outcome Net :=
  ofold (λ rn j, s ← ctrlername c j; open_end (names j) s rn) rn (zrange (ctl_n c)).

(** [makeClient]; the names are kept in a slice of [cfg.n] elements. *)
Definition makeClient (c : ctrler) (names : Z → string) cfg : outcome (shard_config * Z) :=
  '(rn, endnames) ← ofold (λ '(rn, endnames) j,
      endnames ← slice_set endnames j (names j);
      s ← ctrlername c j;
      rn ← open_end (names j) s rn;
      Ret (rn, endnames)) (sc_net cfg, replicate (Z.to_nat (sc_n cfg)) ""%string) (zrange (ctl_n c));
  let ck := sc_made cfg in
  Ret (cfg <| sc_net := rn |> <| sc_made := sc_made cfg + 1 |> <| sc_clerks := <[ck := endnames]> (sc_clerks cfg) |>
           <| sc_nextClientId := sc_nextClientId cfg + 1 |>, ck).

Definition deleteClient (ck : Z) cfg : shard_config := cfg <| sc_clerks := delete ck (sc_clerks cfg) |>.

(** ** Servers of groups *)

Definition set_group (gi : Z) (gg : group) cfg : outcome shard_config :=
  gs ← slice_set (groups cfg) gi gg; Ret (cfg <| groups := gs |>).

Definition disable_all (names : list string) (rn : Net) : Net := foldl (λ rn s, Enable rn (NStr s) false) rn names.

Definition ShutdownServer (gi i : Z) cfg : outcome shard_config :=
  gg ← slice_get (groups cfg) gi;
  row ← slice_get (g_endnames gg) i;
  rn ← ofold (λ rn j, name ← slice_get (default [] row) j; Ret (Enable rn (NStr name) false)) (sc_net cfg)
         (zrange (len (g_servers gg)));
  mrow ← slice_get (g_mendnames gg) i;
  let rn := disable_all (default [] mrow) rn in
  let rn := DeleteServer rn (NStr (servername (g_gid gg) i)) in
  let cfg := cfg <| sc_net := rn |> in
  p ← slice_get (g_saved gg) i;
  '(cfg, gg) ← match p with
      | Some p =>
          ps ← slice_get (sc_persisters cfg) p;
          saved' ← slice_set (g_saved gg) i (Some (len (sc_persisters cfg)));
          Ret (cfg <| sc_persisters := sc_persisters cfg ++ [Copy ps] |>,
               mkGroup (g_gid gg) (g_servers gg) saved' (g_endnames gg) (g_mendnames gg))
      | None => Ret (cfg, gg)
      end;
  a ← slice_get (g_servers gg) i;
  '(cfg, gg) ← match a with
      | Some a =>
          x ← slice_get (heap cfg) a;
          heap' ← slice_set (heap cfg) a (match x with HShard kv p => HShard (shard_Kill kv) p | HCtrl sc => HCtrl sc end);
          servers' ← slice_set (g_servers gg) i None;
          Ret (cfg <| heap := heap' |>, mkGroup (g_gid gg) servers' (g_saved gg) (g_endnames gg) (g_mendnames gg))
      | None => Ret (cfg, gg)
      end;
  set_group gi gg cfg.

Definition ShutdownGroup (gi : Z) cfg : outcome shard_config :=
  ofold (λ cfg i, ShutdownServer gi i cfg) cfg (zrange (sc_n cfg)).

(** [names] and [mnames] are what [randstring] returned, [env] what [rand.Intn] and
    [time.Now] did. *)
Definition StartServer (gi i : Z) (names mnames : Z → string) (env : Z * Z) cfg : outcome shard_config :=
  gg ← slice_get (groups cfg) gi;
  endnames' ← slice_set (g_endnames gg) i (Some (names <$> zrange (sc_n cfg)));
  rn ← ofold (λ rn j, open_end (names j) (servername (g_gid gg) j) rn) (sc_net cfg) (zrange (sc_n cfg));
  mendnames' ← slice_set (g_mendnames gg) i (Some (mnames <$> zrange (ctl_n (ctl cfg))));
  rn ← open_ctrlers mnames (ctl cfg) rn;
  p ← slice_get (g_saved gg) i;
  ps ← match p with Some p => ps ← slice_get (sc_persisters cfg) p; Ret (Copy ps) | None => Ret MakePersister end;
  let q := len (sc_persisters cfg) in
  saved' ← slice_set (g_saved gg) i (Some q);
  let a := len (heap cfg) in
  servers' ← slice_set (g_servers gg) i (Some a);
  let kv := mkShardHost (ShardKv.StartServer ps (sc_maxraftstate cfg) (g_gid gg)) (Make (sc_n cfg) i ps env.1 env.2) false in
  set_group gi (mkGroup (g_gid gg) servers' saved' endnames' mendnames')
    (cfg <| sc_persisters := sc_persisters cfg ++ [ps] |> <| heap := heap cfg ++ [HShard kv q] |>
         <| sc_net := AddServer rn (NStr (servername (g_gid gg) i)) a |>).

Definition StartGroup (gi : Z) (names mnames : Z → Z → string) (envs : Z → Z * Z) cfg : outcome shard_config :=
  ofold (λ cfg i, StartServer gi i (names i) (mnames i) (envs i) cfg) cfg (zrange (sc_n cfg)).

(** ** The controller *)

(** The new server of [ctl] is stored in it by the caller. *)
Definition StartCtrlerServer (c : ctrler) (i : Z) (names : Z → string) (env : Z * Z) cfg : outcome (ctrler * shard_config) :=
  rn ← open_ctrlers names c (sc_net cfg);
  let a := len (heap cfg) in
  servers' ← slice_set (ctl_servers c) i (Some a);
  s ← ctrlername c i;
  let sc := mkCtrlHost ShardCtrler.StartServer (Make (ctl_n c) i MakePersister env.1 env.2) false in
  Ret (mkCtrler (ctl_n c) servers' (ctl_names c),
       cfg <| heap := heap cfg ++ [HCtrl sc] |> <| sc_net := AddServer rn (NStr s) a |>).

Definition ctrlerclerk (c : ctrler) (names : Z → string) cfg : outcome shard_config :=
  rn ← open_ctrlers names c (sc_net cfg); Ret (cfg <| sc_net := rn |>).

(** [cnames] are the random parts of the names of controllers, [names i] the ends of
    controller [i], [names 3] those of the clerk. *)
Definition StartCtrlerService (cnames : Z → string) (names : Z → Z → string) (envs : Z → Z * Z) cfg :
    outcome (ctrler * shard_config) :=
  let n := 3 in
  let c := mkCtrler n (replicate (Z.to_nat n) None) ((λ i, "ctlr-" +:+ cnames i) <$> zrange n) in
  '(c, cfg) ← ofold (λ '(c, cfg) i, StartCtrlerServer c i (names i) (envs i) cfg) (c, cfg) (zrange n);
  cfg ← ctrlerclerk c (names n) cfg;
  Ret (c, cfg).

(** [joinm]: the argument of [Join]. *)
Definition joinm (gis : list Z) cfg : outcome (gmap Z (list string)) :=
  ofold (λ m g,
    gg ← slice_get (groups cfg) g;
    let gid := g_gid gg in
    let servernames := servername gid <$> zrange (sc_n cfg) in
    Ret (<[gid := servernames]> m)) ∅ gis.

Definition join (gi : Z) : shard_config → outcome (gmap Z (list string)) := joinm [gi].
Definition ctljoin (gi : Z) : shard_config → outcome (gmap Z (list string)) := joinm [gi].

(** [leavem]: the argument of [Leave]. *)
Definition leavem (gis : list Z) cfg : outcome (list Z) :=
  ofold (λ gids g, gg ← slice_get (groups cfg) g; Ret (gids ++ [g_gid gg])) [] gis.

Definition leave (gi : Z) : shard_config → outcome (list Z) := leavem [gi].

(** ** Checks and cleaning up *)

Definition checklogs cfg : outcome unit :=
  ofold (λ _ gi,
    gg ← slice_get (groups cfg) gi;
    ofold (λ _ i,
      p ← slice_get (g_saved gg) i;
      match p with
      | Some p =>
          ps ← slice_get (sc_persisters cfg) p;
          let raft := RaftStateSize ps in
          let snap := len (ReadSnapshot ps) in
          if (sc_maxraftstate cfg >=? 0) && (raft >? 8 * sc_maxraftstate cfg) then Panic
          else if (sc_maxraftstate cfg <? 0) && (snap >? 0) then Panic
          else Ret tt
      | None => Panic
      end) tt (zrange (sc_n cfg))) tt (zrange (ngroups cfg)).

(** [failed] is [cfg.t.Failed()]. *)
Definition checkTimeout (failed : bool) (now : Z) cfg : outcome unit :=
  if negb failed && (now - sc_start cfg >? 120 * (1000 * Millisecond)) then Panic else Ret tt.

Definition cleanup (failed : bool) (now : Z) cfg : outcome shard_config :=
  cfg ← ofold (λ cfg gi, ShutdownGroup gi cfg) cfg (zrange (ngroups cfg));
  heap' ← ofold (λ hp i,
      a ← slice_get (ctl_servers (ctl cfg)) i;
      match a with
      | Some a => x ← slice_get hp a;
                  slice_set hp a (match x with HCtrl sc => HCtrl (ctrl_Kill sc) | HShard kv p => HShard kv p end)
      | None => Panic
      end) (heap cfg) (zrange (ctl_n (ctl cfg)));
  rn ← Cleanup (sc_net cfg);
  let cfg := cfg <| heap := heap' |> <| sc_net := rn |> in
  _ ← checkTimeout failed now cfg;
  Ret cfg.

(** ** Setting up *)

(** The strings and times a [make_config] gets from outside. *)
Record Randoms := mkRandoms {
  r_ctrlers : Z → string;                 (* names of controllers *)
  r_cends : Z → Z → string;               (* their ends *)
  r_ends : Z → Z → Z → string;            (* ends of server [i] of group [gi] *)
  r_mends : Z → Z → Z → string;
  r_env : Z → Z → Z * Z;
}.

Definition make_group (gi : Z) (r : Randoms) cfg : outcome shard_config :=
  cfg ← set_group gi (mkGroup (100 + gi) (replicate (Z.to_nat (sc_n cfg)) None) (replicate (Z.to_nat (sc_n cfg)) None)
                        (replicate (Z.to_nat (sc_n cfg)) None) (replicate (Z.to_nat (ctl_n (ctl cfg))) None)) cfg;
  ofold (λ cfg i, StartServer gi i (r_ends r gi i) (r_mends r gi i) (r_env r gi i) cfg) cfg (zrange (sc_n cfg)).

(** The elements of [cfg.groups] are nil until the loop sets them; [no_group] stands for
    that. *)
Definition no_group : group := mkGroup 0 [] [] [] [].

Definition make_config (n : Z) (unreliable : bool) (maxraftstate now : Z) (r : Randoms) : outcome shard_config :=
  let cfg := mkShardConfig MakeNetwork now (mkCtrler 0 [] []) 0 0 [] ∅ 0 0 maxraftstate [] [] in
  '(c, cfg) ← StartCtrlerService (r_ctrlers r) (r_cends r) (r_env r (-1)) cfg;
  let cfg := cfg <| ctl := c |> <| ngroups := 3 |> <| groups := replicate 3 no_group |> <| sc_n := n |> in
  cfg ← ofold (λ cfg gi, make_group gi r cfg) cfg (zrange (ngroups cfg));
  let cfg := cfg <| sc_clerks := ∅ |> <| sc_nextClientId := sc_n cfg + 1000 |> in
  Ret (cfg <| sc_net := Reliable (sc_net cfg) (negb unreliable) |>).

(** ** The harness with its servers *)

Inductive ShardEvent :=
| SStart (gi i : Z) (names mnames : Z → string) (env : Z * Z)
| SShutdown (gi i : Z)
| SMakeEnd (name servername : string)                  (* [make_end] of a server or a clerk *)
| SMakeClient (names : Z → string) | SDeleteClient (ck : Z)
| SServer (a : Z) (x : Hosting) (p : Z) (ps : Persister). (* a server runs and saves *)

Definition shard_exec (e : ShardEvent) cfg : outcome shard_config :=
  match e with
  | SStart gi i names mnames env => StartServer gi i names mnames env cfg
  | SShutdown gi i => ShutdownServer gi i cfg
  | SMakeEnd name s => make_end name s cfg
  | SMakeClient names => '(cfg, _) ← makeClient (ctl cfg) names cfg; Ret cfg
  | SDeleteClient ck => Ret (deleteClient ck cfg)
  | SServer a x p ps =>
      heap' ← slice_set (heap cfg) a x;
      pers ← slice_set (sc_persisters cfg) p ps;
      Ret (cfg <| heap := heap' |> <| sc_persisters := pers |>)
  end.

Definition shard_harness_reachable (n : Z) cfg : Prop :=
  ∃ unreliable maxraftstate now r cfg0 es,
    make_config n unreliable maxraftstate now r = Ret cfg0 ∧ ofold (λ cfg e, shard_exec e cfg) cfg0 es = Ret cfg.

(** *** Names *)

Lemma servername_inj g g' i i' :
  0 ≤ g < 3 → 0 ≤ g' < 3 → servername (100 + g) i = servername (100 + g') i' → g = g' ∧ i = i'.
Proof.
  intros Hg Hg'. assert (g = 0 ∨ g = 1 ∨ g = 2) as Hc by lia. assert (g' = 0 ∨ g' = 1 ∨ g' = 2) as Hc' by lia.
  assert (pretty (100 + 0) = "100" ∧ pretty (100 + 1) = "101" ∧ pretty (100 + 2) = "102")%string as (P0 & P1 & P2) by by vm_compute.
  unfold servername. intros Heq. destruct Hc as [->|[->| ->]], Hc' as [->|[->| ->]]; rewrite ?P0, ?P1, ?P2 in Heq;
    simpl in Heq; try discriminate Heq; split; try done; injection Heq as Heq; change (pretty i = pretty i') in Heq; by apply pretty_Z_inj in Heq.
Qed.

Lemma NStr_inj s s' : NStr s = NStr s' → s = s'.
Proof. by intros [=]. Qed.

Lemma ctrler_no_server s g i : servername (100 + g) i ≠ "ctlr-" +:+ s.
Proof. done. Qed.

(** *** What does not touch the servers of the network *)

Lemma open_end_servers name s rn rn' : open_end name s rn = Ret rn' → servers rn' = servers rn.
Proof.
  intros (rn1 & H1 & [= <-])%outcome_bind_Ret. unfold MakeEnd in H1. by destruct (ends rn !! NStr name); [|injection H1 as <-].
Qed.

Lemma open_fold_servers {A} (f : A → Net → outcome Net) l rn rn' :
  (∀ x rn rn', f x rn = Ret rn' → servers rn' = servers rn) → ofold (λ rn x, f x rn) rn l = Ret rn' → servers rn' = servers rn.
Proof.
  intros Hf Hl. apply (ofold_inv (λ rn', servers rn' = servers rn)) in Hl; [done| |done]. intros b x b' _ Hb Hx. rewrite <-Hb. by eapply Hf.
Qed.

Lemma open_ctrlers_servers names c rn rn' : open_ctrlers names c rn = Ret rn' → servers rn' = servers rn.
Proof.
  apply (open_fold_servers (λ j rn, s ← ctrlername c j; open_end (names j) s rn)). intros j r r' (s & _ & Hs)%outcome_bind_Ret.
  by eapply open_end_servers.
Qed.

Lemma disable_all_servers names rn : servers (disable_all names rn) = servers rn.
Proof. unfold disable_all. revert rn. induction names as [|s names IH]; intros rn; [done|]. simpl. by rewrite IH. Qed.

(** *** What starting and shutting down a server do *)

Definition group_server (gs : list group) (gi i : Z) : option Z :=
  gg ← zlookup gs gi; zlookup (g_servers gg) i ≫= id.

(** Slot [i] of group [gi] gets the server [x]; the rest of the groups has the same shape. *)
Record slot_set (gi i : Z) (x : option Z) (cfg cfg' : shard_config) : Prop := {
  st_group : ∃ gg gg', zlookup (groups cfg) gi = Some gg ∧ groups cfg' = <[Z.to_nat gi := gg']> (groups cfg) ∧
    g_gid gg' = g_gid gg ∧ 0 ≤ i < len (g_servers gg) ∧ g_servers gg' = <[Z.to_nat i := x]> (g_servers gg) ∧
    len (g_mendnames gg') = len (g_mendnames gg) ∧
    servers (sc_net cfg') = <[NStr (servername (g_gid gg) i) := x]> (servers (sc_net cfg));
  st_n : sc_n cfg' = sc_n cfg;
  st_ctl : ctl cfg' = ctl cfg;
  st_ngroups : ngroups cfg' = ngroups cfg;
}.

Lemma StartServer_effect gi i names mnames env cfg cfg' :
  StartServer gi i names mnames env cfg = Ret cfg' →
  (∃ a, slot_set gi i (Some a) cfg cfg') ∧ ∃ gg, zlookup (groups cfg) gi = Some gg ∧ 0 ≤ i < len (g_mendnames gg).
Proof.
  intros (gg & Hg & Hs)%outcome_bind_Ret. rewrite slice_get_Ret in Hg.
  apply outcome_bind_Ret in Hs as (en & [Hi1 ->]%slice_set_Ret & Hs). apply outcome_bind_Ret in Hs as (rn1 & H1 & Hs).
  apply outcome_bind_Ret in Hs as (mn & [Hi2 ->]%slice_set_Ret & Hs). apply outcome_bind_Ret in Hs as (rn2 & H2 & Hs).
  apply outcome_bind_Ret in Hs as (p & _ & Hs). apply outcome_bind_Ret in Hs as (ps & _ & Hs).
  apply outcome_bind_Ret in Hs as (sv & [Hi3 ->]%slice_set_Ret & Hs). apply outcome_bind_Ret in Hs as (srv & [Hi4 ->]%slice_set_Ret & Hs).
  apply outcome_bind_Ret in Hs as (gs & [Hgi ->]%slice_set_Ret & [= <-]). split; [|by exists gg].
  apply (open_fold_servers (λ j rn, open_end (names j) (servername (g_gid gg) j) rn)) in H1; [|intros; by eapply open_end_servers].
  apply open_ctrlers_servers in H2. exists (len (heap cfg)). split; simpl; try done. eexists gg, _. split_and!; simpl; try done; [lia|lia|simpl; by rewrite len_insert|by rewrite H2, H1].
Qed.

Lemma ShutdownServer_effect gi i cfg cfg' : ShutdownServer gi i cfg = Ret cfg' → slot_set gi i None cfg cfg'.
Proof.
  intros (gg & Hg & Hs)%outcome_bind_Ret. rewrite slice_get_Ret in Hg.
  apply outcome_bind_Ret in Hs as (row & _ & Hs). apply outcome_bind_Ret in Hs as (rn1 & H1 & Hs).
  apply outcome_bind_Ret in Hs as (mrow & Hm & Hs).
  apply (open_fold_servers (λ j rn, name ← slice_get (default [] row) j; Ret (Enable rn (NStr name) false))) in H1;
    [|by intros x r r' (nm & _ & [= <-])%outcome_bind_Ret].
  cbv zeta in Hs. set (rn := DeleteServer (disable_all (default [] mrow) rn1) (NStr (servername (g_gid gg) i))) in Hs.
  assert (servers rn = <[NStr (servername (g_gid gg) i) := None]> (servers (sc_net cfg))) as Hrn.
  { unfold rn. simpl. by rewrite disable_all_servers, H1. }
  clearbody rn. apply outcome_bind_Ret in Hs as (p & _ & Hs). apply outcome_bind_Ret in Hs as ([cfg1 gg1] & Hp & Hs).
  assert (sc_net cfg1 = rn ∧ sc_n cfg1 = sc_n cfg ∧ ctl cfg1 = ctl cfg ∧ ngroups cfg1 = ngroups cfg ∧ groups cfg1 = groups cfg ∧
    g_gid gg1 = g_gid gg ∧ g_servers gg1 = g_servers gg ∧ g_mendnames gg1 = g_mendnames gg) as (E1 & E2 & E3 & E4 & E5 & E6 & E7 & E8).
  { destruct p as [p|]; [|by injection Hp as <- <-]. apply outcome_bind_Ret in Hp as (ps & _ & (sv & _ & [= <- <-])%outcome_bind_Ret). done. }
  apply outcome_bind_Ret in Hs as (a & Ha & Hs). rewrite slice_get_Ret, E7 in Ha. apply outcome_bind_Ret in Hs as ([cfg2 gg2] & Hk & Hs).
  assert (sc_net cfg2 = rn ∧ sc_n cfg2 = sc_n cfg ∧ ctl cfg2 = ctl cfg ∧ ngroups cfg2 = ngroups cfg ∧ groups cfg2 = groups cfg ∧
    g_gid gg2 = g_gid gg ∧ g_servers gg2 = <[Z.to_nat i := None]> (g_servers gg) ∧ g_mendnames gg2 = g_mendnames gg)
    as (F1 & F2 & F3 & F4 & F5 & F6 & F7 & F8).
  { destruct a as [a|].
    - apply outcome_bind_Ret in Hk as (x & _ & (hp & _ & (srv & [_ ->]%slice_set_Ret & [= <- <-])%outcome_bind_Ret)%outcome_bind_Ret).
      simpl. by rewrite E7.
    - injection Hk as <- <-. rewrite list_insert_id; [done|]. by apply zlookup_Some in Ha as [_ ?]. }
  apply outcome_bind_Ret in Hs as (gs & [Hgi ->]%slice_set_Ret & [= <-]). split; simpl; try done.
  exists gg, gg2. rewrite F1, F5, F6, F7, F8. split_and!; try done; by eapply zlookup_bounds.
Qed.

(** *** The servers of the network are those of the groups *)

Record table_ok (k : Z) cfg : Prop := {
  tb_ctl : ctl_n (ctl cfg) = 3;
  tb_groups : len (groups cfg) = 3;
  tb_group gi gg : zlookup (groups cfg) gi = Some gg → gi < k →
    g_gid gg = 100 + gi ∧ len (g_servers gg) = Z.max 0 (sc_n cfg) ∧ len (g_mendnames gg) = 3;
  tb_server gi i : 0 ≤ gi < k →
    server_at (sc_net cfg) (NStr (servername (100 + gi) i)) = group_server (groups cfg) gi i;
  tb_later gi i : k ≤ gi < 3 → server_at (sc_net cfg) (NStr (servername (100 + gi) i)) = None;
}.

Lemma slot_set_ok k gi i x cfg cfg' : 0 ≤ k ≤ 3 → gi < k → table_ok k cfg → slot_set gi i x cfg cfg' → table_ok k cfg'.
Proof.
  intros Hk Hgk [] [(gg & gg' & Hg & Hgs & Egid & Hi & Esrv & Emend & Enet) En Ectl Eng].
  pose proof (zlookup_bounds _ _ _ Hg) as Hgi. destruct (tb_group0 gi gg Hg Hgk) as (Hgid & Hlen & Hml).
  assert (∀ g, zlookup (groups cfg') g = if decide (g = gi) then Some gg' else zlookup (groups cfg) g) as Hz.
  { intros g. rewrite Hgs. case_decide; [subst; by apply zlookup_insert_eq|]. by rewrite zlookup_insert_ne by lia. }
  assert (∀ g j, 0 ≤ g < 3 → server_at (sc_net cfg') (NStr (servername (100 + g) j)) =
    if decide (g = gi ∧ j = i) then x else server_at (sc_net cfg) (NStr (servername (100 + g) j))) as Hsv.
  { intros g j Hg3. unfold server_at. rewrite Enet, Hgid. case_decide as Hd; [destruct Hd as [-> ->]; by rewrite lookup_insert_eq|].
    rewrite lookup_insert_ne; [done|]. intros Heq%NStr_inj. apply servername_inj in Heq as [-> ->]; [by destruct Hd|lia|done]. }
  split; try congruence.
  - by rewrite Hgs, len_insert.
  - intros g gg0. rewrite Hz. case_decide as Hgg; [|rewrite En; by apply tb_group0]. intros [= <-] _. subst g.
    rewrite Egid, Esrv, Emend, len_insert, En. done.
  - intros g j Hg0. rewrite Hsv by lia. unfold group_server. rewrite Hz. destruct (decide (g = gi)) as [->|Hne].
    + simpl. rewrite Esrv. destruct (decide (j = i)) as [->|Hji].
      * rewrite decide_True by done. by rewrite zlookup_insert_eq by lia.
      * rewrite decide_False by naive_solver. rewrite zlookup_insert_ne by lia. rewrite tb_server0 by done. unfold group_server. by rewrite Hg.
    + rewrite decide_False by naive_solver. by apply tb_server0.
  - intros g j Hg0. rewrite Hsv by lia. rewrite decide_False by (intros [-> _]; lia). by apply tb_later0.
Qed.

Lemma zlookup_replicate {A} (m : Z) (x y : A) i : zlookup (replicate (Z.to_nat m) x) i = Some y → y = x.
Proof. intros [_ Hy]%zlookup_Some. by apply lookup_replicate in Hy as [-> _]. Qed.

Lemma len_replicate {A} (m : Z) (x : A) : len (replicate (Z.to_nat m) x) = Z.max 0 m.
Proof. unfold len. rewrite length_replicate. lia. Qed.

(** The group [k] is made and its servers are started; at most three, since the rows of
    ends to the controllers are as many as there are controllers. *)
Lemma make_group_ok k r cfg cfg' :
  0 ≤ k < 3 → table_ok k cfg → make_group k r cfg = Ret cfg' → table_ok (k + 1) cfg' ∧ sc_n cfg' = sc_n cfg ∧ sc_n cfg ≤ 3.
Proof.
  intros Hk Hok (c1 & Hc1 & Hl)%outcome_bind_Ret. apply outcome_bind_Ret in Hc1 as (gs & [Hb Hgs]%slice_set_Ret & [= Hc1]).
  pose proof Hok as []. set (gg := mkGroup (100 + k) _ _ _ _) in Hgs.
  assert (sc_net c1 = sc_net cfg ∧ sc_n c1 = sc_n cfg ∧ ctl c1 = ctl cfg ∧ groups c1 = gs) as (E1 & E2 & E3 & E4) by by subst c1.
  clear Hc1. assert (table_ok (k + 1) c1) as Hok1.
  { assert (∀ g, zlookup (groups c1) g = if decide (g = k) then Some gg else zlookup (groups cfg) g) as Hz.
    { intros g. rewrite E4, Hgs. case_decide; [subst; by apply zlookup_insert_eq|]. by rewrite zlookup_insert_ne by lia. }
    split; rewrite ?E1, ?E2, ?E3; try done.
    - by rewrite E4, Hgs, len_insert.
    - intros g gg0. rewrite Hz. case_decide as Hg; [|intros; apply (tb_group0 g gg0); [done|lia]].
      intros [= <-] _. subst g. simpl. rewrite !len_replicate, tb_ctl0. done.
    - intros g j Hg. unfold group_server. rewrite Hz. case_decide as Hgk.
      + subst g. rewrite tb_later0 by lia. simpl. destruct (zlookup _ j) as [y|] eqn:Hy; [|done]. by apply zlookup_replicate in Hy as ->.
      + rewrite tb_server0 by lia. done.
    - intros g j Hg. apply tb_later0. lia. }
  apply (ofold_prefix (λ seen c, table_ok (k + 1) c ∧ sc_n c = sc_n cfg ∧ ∀ i, i ∈ seen → i < 3)) in Hl as (Hok' & Hn & Hseen).
  - split_and!; [done|done|]. destruct (decide (sc_n cfg ≤ 3)); [done|]. assert (3 ∈ zrange (sc_n c1)) as Hin%Hseen; [|lia].
    apply elem_of_zrange. lia.
  - split_and!; [done|done|by intros i ?%elem_of_nil].
  - intros seen i c c' _ (Hc & Hn & Hseen) Hs. apply StartServer_effect in Hs as [[a Hs] (g & Hg & Hi)].
    destruct (tb_group _ _ Hc k g Hg) as (_ & _ & Hm); [lia|]. split_and!.
    + eapply slot_set_ok; [..|exact Hs]; [lia|lia|done].
    + rewrite (st_n _ _ _ _ _ Hs). done.
    + intros j [?| ->%list_elem_of_singleton]%elem_of_app; [by apply Hseen|lia].
Qed.

(** The controllers take names of their own. *)
Lemma StartCtrlerService_ok cnames names envs cfg c cfg' :
  servers (sc_net cfg) = ∅ → StartCtrlerService cnames names envs cfg = Ret (c, cfg') →
  ctl_n c = 3 ∧ ∀ g i, server_at (sc_net cfg') (NStr (servername (100 + g) i)) = None.
Proof.
  intros H0 ([c1 cfg1] & Hl & (cfg2 & Hc & [= <- <-])%outcome_bind_Ret)%outcome_bind_Ret.
  apply outcome_bind_Ret in Hc as (rn & Hrn%open_ctrlers_servers & [= <-]).
  apply (ofold_inv (λ '(c, cfg), ctl_n c = 3 ∧ (∀ s, s ∈ ctl_names c → ∃ t, s = "ctlr-" +:+ t) ∧
    ∀ g i, server_at (sc_net cfg) (NStr (servername (100 + g) i)) = None)) in Hl as (Hn & _ & Hs).
  - split; [done|]. intros g i. simpl. unfold server_at. rewrite Hrn. apply Hs.
  - intros [c2 cfg2] j [c3 cfg3] _ (Hn & Hnm & Hs) Hst. apply outcome_bind_Ret in Hst as (rn2 & Hrn2%open_ctrlers_servers & Hst).
    apply outcome_bind_Ret in Hst as (sv & _ & (s & Hsn & [= <- <-])%outcome_bind_Ret). simpl. split_and!; [done|done|].
    intros g i. unfold server_at. simpl. unfold ctrlername in Hsn. rewrite slice_get_Ret in Hsn. apply zlookup_Some in Hsn as [_ Hsn%list_elem_of_lookup_2].
    destruct (Hnm s Hsn) as [t ->]. rewrite lookup_insert_ne; [rewrite Hrn2; apply Hs|].
    intros Heq%NStr_inj. symmetry in Heq. by apply ctrler_no_server in Heq.
  - split_and!; [done| |].
    + intros s (j & -> & _)%list_elem_of_fmap. by eexists.
    + intros g i. unfold server_at. rewrite H0. by rewrite lookup_empty.
Qed.

Lemma shard_make_config_ok n unreliable maxraftstate now r cfg :
  make_config n unreliable maxraftstate now r = Ret cfg → table_ok 3 cfg ∧ sc_n cfg = n ∧ n ≤ 3.
Proof.
  intros ([c cfg1] & Hc & Hl)%outcome_bind_Ret. apply StartCtrlerService_ok in Hc as [Hn Hs]; [|done].
  apply outcome_bind_Ret in Hl as (cfg2 & Hl & [= <-]).
  set (cfg0 := cfg1 <| ctl := c |> <| ngroups := 3 |> <| groups := replicate 3 no_group |> <| sc_n := n |>) in Hl.
  change (zrange (ngroups cfg0)) with [0; 1; 2] in Hl. simpl in Hl.
  assert (table_ok 0 cfg0) as Hok0.
  { split; try done; [|intros; lia]. intros gi gg Hg. apply zlookup_bounds in Hg. lia. }
  apply outcome_bind_Ret in Hl as (c1 & H1 & (c2 & H2 & (c3 & H3 & [= <-])%outcome_bind_Ret)%outcome_bind_Ret).
  apply make_group_ok in H1 as (Hok1 & Hn1 & Hle); [|lia|done]. apply make_group_ok in H2 as (Hok2 & Hn2 & _); [|lia|done].
  apply make_group_ok in H3 as (Hok3 & Hn3 & _); [|lia|done]. simpl in *. split_and!; [|congruence|done].
  destruct Hok3. by split.
Qed.

Lemma makeClient_effect names cfg cfg' ck :
  ctl_n (ctl cfg) = 3 → makeClient (ctl cfg) names cfg = Ret (cfg', ck) →
  3 ≤ sc_n cfg ∧ servers (sc_net cfg') = servers (sc_net cfg) ∧ sc_n cfg' = sc_n cfg ∧ groups cfg' = groups cfg ∧ ctl cfg' = ctl cfg.
Proof.
  intros Hn ([rn en] & Hl & [= <- <-])%outcome_bind_Ret. rewrite Hn in Hl.
  apply (ofold_prefix (λ seen '(rn, en), servers rn = servers (sc_net cfg) ∧ len en = Z.max 0 (sc_n cfg) ∧ ∀ j, j ∈ seen → j < sc_n cfg)) in Hl
    as (Hs & _ & Hseen).
  - split_and!; try done. assert (2 < sc_n cfg); [|lia]. apply Hseen. by apply elem_of_zrange.
  - split_and!; [done|apply len_replicate|by intros j ?%elem_of_nil].
  - intros seen j [rn0 en0] [rn1 en1] _ (Hs & Hlen & Hseen) Hst.
    apply outcome_bind_Ret in Hst as (en2 & [Hj ->]%slice_set_Ret & (s & _ & (rn2 & Hrn2%open_end_servers & [= <- <-])%outcome_bind_Ret)%outcome_bind_Ret).
    split_and!; [congruence|by rewrite len_insert|]. intros x [?| ->%list_elem_of_singleton]%elem_of_app; [by apply Hseen|lia].
Qed.

Lemma table_frame k cfg cfg' :
  servers (sc_net cfg') = servers (sc_net cfg) → sc_n cfg' = sc_n cfg → groups cfg' = groups cfg → ctl cfg' = ctl cfg →
  table_ok k cfg → table_ok k cfg'.
Proof. intros Es En Eg Ec []. split; unfold server_at; rewrite ?Es, ?En, ?Eg, ?Ec; done. Qed.

Lemma shard_exec_ok e cfg cfg' : table_ok 3 cfg → shard_exec e cfg = Ret cfg' → table_ok 3 cfg' ∧ sc_n cfg' = sc_n cfg.
Proof.
  intros Hok He. assert (∀ gi i x, slot_set gi i x cfg cfg' → table_ok 3 cfg' ∧ sc_n cfg' = sc_n cfg) as Hslot.
  { intros gi i x Hs. split; [|by eapply st_n]. eapply slot_set_ok; [lia| |done|exact Hs].
    destruct Hs as [(gg & _ & Hg & _) _ _ _]. apply zlookup_bounds in Hg. rewrite (tb_groups _ _ Hok) in Hg. lia. }
  destruct e; simpl in He.
  - apply StartServer_effect in He as [[a Hs] _]. by eapply Hslot.
  - apply ShutdownServer_effect in He. by eapply Hslot.
  - apply outcome_bind_Ret in He as (rn & Hrn%open_end_servers & [= <-]). split; [|done]. by apply (table_frame 3 cfg).
  - apply outcome_bind_Ret in He as ([c ck] & Hm & [= <-]). apply makeClient_effect in Hm as (_ & ? & ? & ? & ?); [|by apply tb_ctl in Hok].
    split; [|done]. by apply (table_frame 3 cfg).
  - injection He as <-. split; [|done]. by apply (table_frame 3 cfg).
  - apply outcome_bind_Ret in He as (hp & _ & (pers & _ & [= <-])%outcome_bind_Ret). split; [|done]. by apply (table_frame 3 cfg).
Qed.

Lemma shard_reachable_ok n cfg : shard_harness_reachable n cfg → table_ok 3 cfg ∧ sc_n cfg = n ∧ n ≤ 3.
Proof.
  intros (unrel & mrs & now & r & cfg0 & es & Hmk & Hrun). apply shard_make_config_ok in Hmk as (Hok & Hn & Hle).
  apply (ofold_inv (λ c, table_ok 3 c ∧ sc_n c = n)) in Hrun as [? ?]; [done| |done].
  intros c e c' _ [Hc Hcn] He. apply shard_exec_ok in He as [? ?]; [|done]. split; [done|congruence].
Qed.

(** The harness of shardkv works for three servers in a group only: with more of them
    [make_config] panics, since a group has as many rows of ends to the controllers as
    there are controllers, and with fewer no clerk can be made, since the names of its
    ends to the three controllers are kept in a slice of one element for each server. *)
Theorem three_servers_only n unreliable maxraftstate now r cfg names :
  (3 < n → make_config n unreliable maxraftstate now r = Panic) ∧
  (shard_harness_reachable n cfg → n < 3 → makeClient (ctl cfg) names cfg = Panic).
Proof.
  split.
  - intros Hn. destruct (make_config _ _ _ _ _) as [c|] eqn:Hc; [|done]. apply shard_make_config_ok in Hc as (_ & _ & ?). lia.
  - intros (Hok & Hn & _)%shard_reachable_ok Hlt. destruct (makeClient (ctl cfg) names cfg) as [[c ck]|] eqn:Hc; [|done].
    apply makeClient_effect in Hc as [? _]; [lia|by apply tb_ctl in Hok].
Qed.

(** What [joinm] tells the controller: the groups asked for, each with the names of its
    servers, and a client end made for such a name leads to the server that runs in that
    place, if one does. *)
Theorem joined_names_lead n cfg gis m :
  shard_harness_reachable n cfg → joinm gis cfg = Ret m →
  (∀ gid, is_Some (m !! gid) ↔ ∃ gi, gi ∈ gis ∧ gid = 100 + gi) ∧
  ∀ gi names, gi ∈ gis → m !! (100 + gi) = Some names →
    len names = Z.max 0 n ∧
    ∀ i s, zlookup names i = Some s → ∀ end_ cfg', make_end end_ s cfg = Ret cfg' →
      readEndnameInfo (sc_net cfg') (NStr end_) =
        (true, Some (NStr s), group_server (groups cfg) gi i, reliable (sc_net cfg), longReordering (sc_net cfg)).
Proof.
  intros (Hok & Hn & _)%shard_reachable_ok Hj.
  apply (ofold_prefix (λ seen m, (∀ g, g ∈ seen → 0 ≤ g < 3) ∧
    ∀ gid names, m !! gid = Some names ↔ ∃ gi, gi ∈ seen ∧ gid = 100 + gi ∧ names = servername gid <$> zrange n)) in Hj as [Hr Hm].
  - split.
    + intros gid. split.
      * intros [names (gi & ? & ? & _)%Hm]. eauto.
      * intros (gi & Hin & ->). eexists. apply Hm. eauto.
    + intros gi names Hgi (gi' & _ & Heq & ->)%Hm. assert (gi' = gi) as -> by lia. split.
      { unfold len. rewrite length_fmap, length_zrange. lia. }
      intros i s [Hi ->]%zlookup_names end_ cfg' (rn & Hrn & [= <-])%outcome_bind_Ret.
      apply outcome_bind_Ret in Hrn as (rn0 & Hrn0 & [= <-]). unfold MakeEnd in Hrn0. destruct (ends _ !! _); [done|]. injection Hrn0 as <-.
      unfold readEndnameInfo, is_enabled, server_at. simpl. rewrite !lookup_insert_eq. simpl.
      rewrite <-(tb_server _ _ Hok) by (apply Hr; done). done.
  - split; [by intros g ?%elem_of_nil|]. intros gid names. rewrite lookup_empty. split; [done|]. by intros (gi & ?%elem_of_nil & _).
  - intros seen g m0 m1 _ [Hr Hm] (gg & Hg & [= <-])%outcome_bind_Ret. rewrite slice_get_Ret in Hg.
    pose proof (zlookup_bounds _ _ _ Hg) as Hb. rewrite (tb_groups _ _ Hok) in Hb.
    destruct (tb_group _ _ Hok g gg Hg) as (Hgid & _); [lia|]. rewrite Hgid, Hn. split.
    + intros x [?| ->%list_elem_of_singleton]%elem_of_app; [by apply Hr|done].
    + intros gid names. setoid_rewrite elem_of_app. setoid_rewrite list_elem_of_singleton.
      destruct (decide (gid = 100 + g)) as [->|Hne].
      * rewrite lookup_insert_eq. split; [intros [= <-]; exists g; eauto|]. by intros (gi & _ & Heq & ->).
      * rewrite lookup_insert_ne by done. rewrite Hm. naive_solver.
Qed.
End shard_harness.

(** ** Examples *)
Section shard_harness_example.
#[local] Instance shard_ex_ranges : MapRange := range_default.
#[local] Instance shard_ex_rgob : Gob (RaftGob Command) := gob_of_countable (RaftGob Command).
#[local] Instance shard_ex_sgob : Gob ShardGob := gob_of_countable ShardGob.
#[local] Instance shard_ex_cgob : Gob (RaftGob ShardCtrler.CommandArgs) := gob_of_countable (RaftGob ShardCtrler.CommandArgs).

Definition shard_ex_randoms : Randoms :=
  mkRandoms (λ i, pretty i) (λ i j, "c" +:+ pretty i +:+ "-" +:+ pretty j)
    (λ g i j, "e" +:+ pretty g +:+ "-" +:+ pretty i +:+ "-" +:+ pretty j)
    (λ g i j, "m" +:+ pretty g +:+ "-" +:+ pretty i +:+ "-" +:+ pretty j) (λ _ _, (0, 0)).

Definition shard_ex_empty : shard_config := mkShardConfig MakeNetwork 0 (mkCtrler 0 [] []) 0 0 [] ∅ 0 0 0 [] [].

Definition shard_ex_config (n : Z) : shard_config :=
  result_or shard_ex_empty (make_config n false 1000 0 shard_ex_randoms).

Lemma three_servers_only_witness :
  make_config 5 false 1000 0 shard_ex_randoms = Panic ∧ makeClient (ctl (shard_ex_config 2)) (λ j, "k" +:+ pretty j) (shard_ex_config 2) = Panic.
Proof.
  split.
  - apply (three_servers_only 5 false 1000 0 shard_ex_randoms (shard_ex_config 2) pretty). lia.
  - apply (three_servers_only 2 false 1000 0 shard_ex_randoms); [|lia].
    exists false, 1000, 0, shard_ex_randoms, (shard_ex_config 2), []. split; [by apply result_or_Ret; vm_compute|done].
Defined.

(** Three servers in a group; the second one of group 1 is restarted. *)
Definition shard_ex_events : list ShardEvent :=
  [SShutdown 1 1; SStart 1 1 (λ j, "f" +:+ pretty j) (λ j, "g" +:+ pretty j) (0, 0); SMakeClient (λ j, "k" +:+ pretty j)].

Definition shard_ex_config1 : shard_config :=
  result_or shard_ex_empty (ofold (λ cfg e, shard_exec e cfg) (shard_ex_config 3) shard_ex_events).

Definition shard_ex_joined : gmap Z (list string) :=
  result_or ∅ (joinm [0; 1] shard_ex_config1).

Lemma joined_names_lead_witness :
  group_server (groups shard_ex_config1) 1 1 = Some 12 ∧
  shard_ex_joined !! 101 = Some ["server-101-0"; "server-101-1"; "server-101-2"]%string ∧
  (∀ gid, is_Some (shard_ex_joined !! gid) ↔ ∃ gi, gi ∈ [0; 1] ∧ gid = 100 + gi).
Proof.
  split; [by vm_compute|]. split; [by vm_compute|].
  destruct (joined_names_lead 3 shard_ex_config1 [0; 1] shard_ex_joined) as [Hdom _].
  - exists false, 1000, 0, shard_ex_randoms, (shard_ex_config 3), shard_ex_events. split; by apply result_or_Ret; vm_compute.
  - by apply result_or_Ret; vm_compute.
  - exact Hdom.
Defined.

(** A server that made an end with [make_end] can still send through it after
    [ShutdownServer], which disables the ends of its rows only. *)
Definition shard_ex_leak : outcome shard_config :=
  ofold (λ cfg e, shard_exec e cfg) (shard_ex_config 3) [SMakeEnd "leak" (servername 101 0); SShutdown 0 0].

Lemma shutdown_server_still_sends :
  match shard_ex_leak with
  | Ret cfg => group_server (groups cfg) 0 0 = None ∧
      readEndnameInfo (sc_net cfg) (NStr "leak") = (true, Some (NStr (servername 101 0)), Some 6, true, false)
  | Panic => False
  end.
Proof. by vm_compute. Qed.
End shard_harness_example.
