(* ===== verification/ShardSystem.v ===== *)
(** * shardkv: replica groups under a sequence of configurations

    The groups of the service, each a replicated log of commands.  Raft keeps the
    servers of a group on prefixes of one log, so a group is the state after the
    commands applied so far, the earlier states, in which some of its servers may
    still be, and the commands proposed.  A command may be proposed from any of
    these states, and a proposed command may be applied at any later time, any
    number of times: that covers retries, lost leadership and reordering.

    A group learns the configurations from the controller, which may answer from an
    earlier prefix of its history. *)
From Stdlib Require Import Init.Byte Strings.Ascii.
From S2P Require Import Prelude LabGob Raft ShardConfig ShardKv ShardApply.

Record Group := mkGroup {
  current : ShardKV;
  past : list ShardKV;
  proposed : list Command;
  applied : list Command;
}.

Definition states (G : Group) : list ShardKV := current G :: past G.

Definition propose (G : Group) (cmd : Command) : Group :=
  mkGroup (current G) (past G) (cmd :: proposed G) (applied G).

Definition num (kv : ShardKV) : Z := Num (currentConfig kv).

Section system.
Context {ranges : MapRange} {gob : Gob ShardGob}.
(** The configurations of the controller. *)
Context (cfgs : list Config).

Implicit Types (ss : gmap Z Group) (g h s n m : Z) (kv st : ShardKV) (G H : Group).

(** What the controller answers when its history has [k] configurations. *)
Definition query (k : nat) (n : Z) : Config :=
  match Query (take k cfgs) n with Ret c => c | Panic => DefaultConfig end.

(** A command of the group [g] proposed from one of its states. *)
Inductive proposes ss : Z → Command → Prop :=
| propose_client g G st args :
    ss !! g = Some G → st ∈ states G → Command_guard st args = Ret None →
    proposes ss g (Operation args)
| propose_config g G st k cmd :
    ss !! g = Some G → st ∈ states G → configurationAction st (query k) = Some cmd →
    proposes ss g cmd
| propose_insert g G st h H st' tasks servers args reply cmd :
    ss !! g = Some G → st ∈ states G →
    migrationAction st = Ret tasks → (h, servers, args) ∈ tasks →
    ss !! h = Some H → st' ∈ states H → GetShardsData st' true args = Ret reply →
    migration_reply true reply = Some cmd →
    proposes ss g cmd
| propose_remote_delete g G st h H st' tasks servers args :
    ss !! g = Some G → st ∈ states G →
    gcAction st = Ret tasks → (h, servers, args) ∈ tasks →
    ss !! h = Some H → st' ∈ states H → DeleteShardsData_guard st' true args = None →
    proposes ss h (DeleteShards args)
| propose_local_delete g G st h H tasks servers args cmd :
    ss !! g = Some G → st ∈ states G →
    gcAction st = Ret tasks → (h, servers, args) ∈ tasks →
    ss !! h = Some H →
    DeleteShards args ∈ applied H ∨
      (∃ st', st' ∈ states H ∧ DeleteShardsData_guard st' true args = Some OK) →
    gc_reply args true OK = Some cmd →
    proposes ss g cmd
| propose_empty g : proposes ss g EmptyShards.

(** The steps, with the list of the client writes executed so far by any group. *)
Inductive step ss (ws : list CommandArgs) : gmap Z Group → list CommandArgs → Prop :=
| step_propose g G cmd :
    ss !! g = Some G → proposes ss g cmd → step ss ws (<[g := propose G cmd]> ss) ws
| step_apply g G cmd kv r :
    ss !! g = Some G → cmd ∈ proposed G → apply_command (current G) cmd = Ret (kv, r) →
    step ss ws (<[g := mkGroup kv (states G) (proposed G) (cmd :: applied G)]> ss)
      (ws ++ executed (current G) cmd).

(** The groups [gids] at their first start. *)
Definition start (gids : list Z) : gmap Z Group :=
  list_to_map ((λ g, (g, mkGroup (StartServer MakePersister (-1) g) [] [] [])) <$> gids).

Inductive reachable (gids : list Z) : gmap Z Group → list CommandArgs → Prop :=
| reach_start : reachable gids (start gids) []
| reach_step ss ws ss' ws' :
    reachable gids ss ws → step ss ws ss' ws' → reachable gids ss' ws'.

(** What the controller guarantees, and that it never again leaves all shards
    unassigned once a group has joined. *)
Definition controlled : Prop :=
  history cfgs ∧
  ∀ n c c', zlookup cfgs n = Some c → zlookup cfgs (n + 1) = Some c' →
    Groups c ≠ ∅ → Groups c' ≠ ∅.

(** The group a configuration gives a shard to. *)
Definition owner n s : option Z := c ← zlookup cfgs n; zlookup (Shards c) s.

(** ** The invariant *)

(** The statuses of a state of group [g] follow from its two configurations. *)
Definition status_ok g kv : Prop :=
  ∀ s (t : ShardStatus), status kv s = Some t → 0 ≤ s < NShards →
    match t with
    | Serving => True
    | Pulling | GCing => owner (num kv) s = Some g ∧
        ∃ h, owner (num kv - 1) s = Some h ∧ h ≠ g ∧ h ≠ 0
    | BePulling => owner (num kv - 1) s = Some g ∧
        ∃ h, owner (num kv) s = Some h ∧ h ≠ g ∧ h ≠ 0
    end.

(** A state of group [g] is well formed and at a configuration of the controller. *)
Record state_ok g kv : Prop := {
  so_wf : wf kv;
  so_gid : gid kv = g;
  so_num : 0 ≤ num kv;
  so_current : zlookup cfgs (num kv) = Some (currentConfig kv);
  so_last : zlookup cfgs (Z.max 0 (num kv - 1)) = Some (lastConfig kv);
  so_status : status_ok g kv;
}.

(** The order of the states of a group: the configuration grows, and within one a
    shard that serves keeps serving and one that has arrived is not pulled again. *)
Definition before kv kv' : Prop :=
  num kv < num kv' ∨
  num kv = num kv' ∧ ∀ s,
    (status kv s = Some Serving → status kv' s = Some Serving) ∧
    (status kv s ≠ Some Pulling → status kv' s ≠ Some Pulling).

#[local] Instance before_refl : Reflexive before.
Proof. intros kv. by right. Qed.

#[local] Instance before_trans : Transitive before.
Proof.
  intros k1 k2 k3 [H1|[H1 H1']] [H2|[H2 H2']]; [left; lia..|].
  right. split; [lia|]. intros s. specialize (H1' s). specialize (H2' s). naive_solver.
Qed.

Definition all_serving kv : Prop := ∀ s, 0 ≤ s < NShards → status kv s = Some Serving.

(** The group has come to the configuration [m]. *)
Definition reached ss h m : Prop := ∃ H, ss !! h = Some H ∧ m ≤ num (current H).

(** The group is past [m], or at it and does not wait for the shard. *)
Definition taken ss m s h : Prop :=
  ∃ H, ss !! h = Some H ∧
    (m < num (current H) ∨ m = num (current H) ∧ status (current H) s ≠ Some Pulling).

(** The table knows the writes executed on the shard. *)
Definition covers (ops : gmap Z OperationContext) (ws : list CommandArgs) s : Prop :=
  ∀ w, w ∈ shard_writes ws s →
    ∃ ctx, ops !! ca_ClientId w = Some ctx ∧ ca_CommandId w ≤ MaxAppliedCommandId ctx.

(** The authoritative content of a shard. *)
Definition carries (data : gmap string string) ops ws s : Prop :=
  data = store (shard_writes ws s) ∧ covers ops ws s.

Definition proposal_ok ss ws g kv (cmd : Command) : Prop :=
  match cmd with
  | Configuration c =>
      zlookup cfgs (Num c) = Some c ∧
      (Num c ≤ num kv ∨ Num c = num kv + 1 ∧ all_serving kv)
  | InsertShards info =>
      ∀ s data, sor_Shards info !! s = Some data →
        0 ≤ s < NShards ∧ owner (sor_ConfigNum info) s = Some g ∧
        ∃ h, owner (sor_ConfigNum info - 1) s = Some h ∧ h ≠ g ∧ h ≠ 0 ∧
          reached ss h (sor_ConfigNum info) ∧
          (taken ss (sor_ConfigNum info) s g ∨ carries data (sor_LastOperations info) ws s)
  | DeleteShards info =>
      ∀ s, s ∈ soa_ShardIDs info →
        0 ≤ s < NShards ∧
        ∀ h, owner (soa_ConfigNum info) s = Some h → h ≠ g → taken ss (soa_ConfigNum info) s h
  | _ => True
  end.

(** The shards of the current state of group [g]. *)
Definition data_ok ws g kv : Prop :=
  ∀ s sh, 0 ≤ s < NShards → stateMachine kv !! s = Some sh →
    (owner (num kv) s = Some g → Status sh ≠ Pulling → carries (KV sh) (lastOperations kv) ws s) ∧
    (Status sh = Pulling ∨ Status sh = Serving ∧ owner (num kv) s ≠ Some g → KV sh = ∅).

(** A shard given away stays as it was until its new owner has it. *)
Definition frozen ss ws kv : Prop :=
  ∀ s sh h, 0 ≤ s < NShards → stateMachine kv !! s = Some sh → Status sh = BePulling →
    owner (num kv) s = Some h →
    taken ss (num kv) s h ∨ carries (KV sh) (lastOperations kv) ws s.

(** A shard given away is deleted only when its new owner has it. *)
Definition released ss g kv : Prop :=
  ∀ m s h, owner (m - 1) s = Some g → owner m s = Some h → h ≠ g → h ≠ 0 →
    m < num kv ∨ m = num kv ∧ status kv s ≠ Some BePulling → taken ss m s h.

(** A group has a shard only when the previous owner has come to the configuration. *)
Definition handoff ss : Prop :=
  ∀ m s g h, owner m s = Some g → owner (m - 1) s = Some h → h ≠ g → h ≠ 0 →
    taken ss m s g → reached ss h m.

Record inv ss ws : Prop := {
  inv_gid g : is_Some (ss !! g) → g ≠ 0;
  inv_states g G st : ss !! g = Some G → st ∈ states G → state_ok g st ∧ before st (current G);
  inv_handoff : handoff ss;
  inv_released g G st : ss !! g = Some G → st ∈ states G → released ss g st;
  inv_frozen g G st : ss !! g = Some G → st ∈ states G → frozen ss ws st;
  inv_data g G : ss !! g = Some G → data_ok ws g (current G);
  inv_proposed g G cmd : ss !! g = Some G → cmd ∈ proposed G → proposal_ok ss ws g (current G) cmd;
  inv_writes w : w ∈ ws →
    ∃ m h, owner m (key2shard (ca_Key w)) = Some h ∧ h ≠ 0 ∧ taken ss m (key2shard (ca_Key w)) h;
}.

(** ** Time *)

Definition later ss ss' : Prop :=
  ∀ h H, ss !! h = Some H → ∃ H', ss' !! h = Some H' ∧ before (current H) (current H').

Lemma before_num kv kv' : before kv kv' → num kv ≤ num kv'.
Proof. intros [?|[? _]]; lia. Qed.

Lemma reached_later ss ss' h m : later ss ss' → reached ss h m → reached ss' h m.
Proof. intros Hl (H & (H' & ? & ?%before_num)%Hl & ?). exists H'. split; [done|lia]. Qed.

Lemma taken_before ss H kv h m s :
  ss !! h = Some H → before kv (current H) →
  m < num kv ∨ m = num kv ∧ status kv s ≠ Some Pulling → taken ss m s h.
Proof.
  intros Hh Hb Hm. exists H. split; [done|]. destruct Hb as [Hb|[Hb Hst]]; [left; lia|].
  destruct Hm as [?|[? ?]]; [left; lia|]. right. split; [lia|]. by apply Hst.
Qed.

Lemma taken_later ss ss' h m s : later ss ss' → taken ss m s h → taken ss' m s h.
Proof. intros Hl (H & (H' & ? & ?)%Hl & ?). by eapply taken_before. Qed.

Lemma reached_taken ss h m s : reached ss h (m + 1) → taken ss m s h.
Proof. intros (H & ? & ?). exists H. split; [done|left; lia]. Qed.

Lemma taken_reached ss h m s : taken ss m s h → reached ss h m.
Proof. intros (H & ? & ?). exists H. split; [done|lia]. Qed.

Lemma not_reached ss h H m : ss !! h = Some H → num (current H) < m → ¬ reached ss h m.
Proof. intros Hh Hlt (H' & ? & ?). simplify_eq. lia. Qed.

Lemma later_insert ss g G G' :
  ss !! g = Some G → before (current G) (current G') → later ss (<[g := G']> ss).
Proof.
  intros Hg Hle h H Hh. destruct (decide (g = h)) as [<-|Hne].
  - simplify_eq. exists G'. by rewrite lookup_insert_eq.
  - exists H. by rewrite lookup_insert_ne.
Qed.

(** ** Authoritative shards *)

Lemma shard_writes_app ws new s : shard_writes (ws ++ new) s = shard_writes ws s ++ shard_writes new s.
Proof. apply filter_app. Qed.

Lemma carries_other data ops ws new s :
  shard_writes new s = [] → carries data ops (ws ++ new) s ↔ carries data ops ws s.
Proof.
  intros E. unfold carries, covers. rewrite shard_writes_app, E, app_nil_r. done.
Qed.

Lemma covers_le ops ops' ws s : ops_le ops ops' → covers ops ws s → covers ops' ws s.
Proof.
  intros Hle Hc w (ctx & (ctx' & ? & ?)%Hle & ?)%Hc. exists ctx'. split; [done|lia].
Qed.

(** The group that serves a shard executes a write on it. *)
Lemma carries_write kv kv' cmd data ws s :
  ops_step cmd kv kv' → carries data (lastOperations kv) ws s →
  carries (foldl write data (shard_writes (executed kv cmd) s)) (lastOperations kv')
    (ws ++ executed kv cmd) s.
Proof.
  intros (Hle & Hex & _) [-> Hc]. split.
  - unfold store. by rewrite shard_writes_app, foldl_app.
  - intros w. rewrite shard_writes_app. intros [Hw|Hw]%elem_of_app.
    + by eapply covers_le.
    + apply list_elem_of_filter in Hw as [_ Hw]. by apply Hex.
Qed.

Lemma carries_arrive kv kv' info data ws s :
  ops_step (InsertShards info) kv kv' → sor_ConfigNum info = num kv →
  carries data (sor_LastOperations info) ws s → carries data (lastOperations kv') ws s.
Proof. intros (_ & _ & Hin) E [-> Hc]. split; [done|]. eapply covers_le; eauto. Qed.

(** ** The configurations *)
Section controlled.
Hypothesis Hctl : controlled.

Lemma config_ok n c : zlookup cfgs n = Some c → Num c = n ∧ valid c ∧ len (Shards c) = NShards.
Proof.
  intros Hc. destruct Hctl as [[_ Hall]%history_inv_holds _].
  destruct (Hall n c Hc) as [? [? ?]]. by split_and!.
Qed.

Lemma history_head cf : history cf → zlookup cf 0 = Some DefaultConfig.
Proof.
  induction 1 as [|cf c op cf' Hh IH Hlast Hleg Hop]; [done|].
  destruct (op_progress cf c op) as (c' & Hop' & _); [by apply history_inv_holds|done..|].
  rewrite Hop in Hop'. simplify_eq.
  rewrite zlookup_app_l; [done|]. apply zlookup_bounds in IH. lia.
Qed.

Lemma owner_lookup n s c : zlookup cfgs n = Some c → owner n s = zlookup (Shards c) s.
Proof. unfold owner. by intros ->. Qed.

Lemma owner_inv n s h :
  owner n s = Some h → ∃ c, zlookup cfgs n = Some c ∧ zlookup (Shards c) s = Some h ∧ 0 ≤ s < NShards.
Proof.
  unfold owner. destruct (zlookup cfgs n) as [c|] eqn:Hc; [|done]. simpl. intros Hs.
  exists c. split; [done|]. split; [done|]. destruct (config_ok n c Hc) as (_ & _ & <-).
  by eapply zlookup_bounds.
Qed.

Lemma owner_total n s n' h :
  owner n' s = Some h → 0 ≤ n ≤ n' → is_Some (owner n s).
Proof.
  intros (c & Hc%zlookup_bounds & _ & Hs)%owner_inv Hn.
  destruct (proj2 (zlookup_is_Some cfgs n)) as [c' Hc']; [lia|].
  rewrite (owner_lookup _ _ _ Hc'). apply zlookup_is_Some.
  destruct (config_ok _ _ Hc') as (_ & _ & ->). done.
Qed.

Lemma owner_nonzero n s h :
  owner n s = Some h → h ≠ 0 ↔ ∃ c, zlookup cfgs n = Some c ∧ Groups c ≠ ∅.
Proof.
  intros (c & Hc & Hs & _)%owner_inv. destruct (config_ok _ _ Hc) as (_ & (_ & H0 & Hv) & _).
  split.
  - intros Hh. exists c. split; [done|]. intros E. rewrite decide_True in Hv by done.
    rewrite Hv in Hs. by apply zlookup_zero in Hs.
  - intros (c' & Hc' & Hne) ->. simplify_eq. rewrite decide_False in Hv by done.
    apply Hv in Hs. rewrite H0 in Hs. by destruct Hs.
Qed.

(** Once a shard has an owner it always has one. *)
Lemma owners_nonzero n s h n' h' :
  owner n s = Some h → h ≠ 0 → n ≤ n' → owner n' s = Some h' → h' ≠ 0.
Proof.
  intros Ho H0 Hle Ho'. apply (owner_nonzero _ _ _ Ho'). apply (owner_nonzero _ _ _ Ho) in H0.
  assert (0 ≤ n) as Hn by (destruct H0 as (c & Hc%zlookup_bounds & _); lia). clear Ho.
  revert h' Ho'. replace n' with (n + Z.of_nat (Z.to_nat (n' - n))) by lia.
  induction (Z.to_nat (n' - n)) as [|k IH]; intros h' Ho'.
  { by rewrite Nat2Z.inj_0, Z.add_0_r. }
  destruct (owner_total (n + Z.of_nat k) s _ _ Ho') as [h2 Ho2]; [lia|].
  apply IH in Ho2 as (c & Hc & Hne). apply owner_inv in Ho' as (c' & Hc' & _).
  exists c'. split; [done|]. destruct Hctl as [_ Hkeep].
  apply (Hkeep (n + Z.of_nat k) c c'); [done| |done]. by replace (_ + 1) with (n + Z.of_nat (S k)) by lia.
Qed.

(** ** Only one group has a shard *)

(** If the owner at [m] has the shard, every earlier owner has moved on. *)
Lemma chain ss ws m s g k h :
  inv ss ws → owner m s = Some g → taken ss m s g →
  0 ≤ k < m → owner k s = Some h → h ≠ 0 → reached ss h (k + 1).
Proof.
  intros Hinv Hm Ht Hk Ho H0.
  revert g Hm Ht. replace m with (k + 1 + Z.of_nat (Z.to_nat (m - k - 1))) by lia.
  generalize (Z.to_nat (m - k - 1)) as d. clear Hk m. intros d.
  assert (0 ≤ k) as Hk by (apply owner_inv in Ho as (? & ?%zlookup_bounds & _); lia).
  induction d as [|d IH]; intros g Hm Ht.
  - rewrite Nat2Z.inj_0, Z.add_0_r in *. destruct (decide (h = g)) as [->|Hne].
    + by eapply taken_reached.
    + apply (inv_handoff _ _ Hinv (k + 1) s g h); try done. by replace (k + 1 - 1) with k by lia.
  - set (m := k + 1 + Z.of_nat d) in *. replace (k + 1 + Z.of_nat (S d)) with (m + 1) in * by lia.
    destruct (owner_total m s _ _ Hm) as [g' Hg']; [lia|].
    apply (IH g' Hg'). apply reached_taken. destruct (decide (g' = g)) as [->|Hne].
    + by eapply taken_reached.
    + apply (inv_handoff _ _ Hinv (m + 1) s g g'); try done.
      * by replace (m + 1 - 1) with m by lia.
      * eapply (owners_nonzero k s h m); try done. lia.
Qed.

(** A current owner that has the shard. *)
Definition has ss g s : Prop :=
  ∃ G, ss !! g = Some G ∧ owner (num (current G)) s = Some g ∧ status (current G) s ≠ Some Pulling.

Lemma has_exclusive ss ws g h s : inv ss ws → has ss g s → has ss h s → g = h.
Proof.
  intros Hinv.
  assert (∀ g h, has ss g s → has ss h s → ∀ G H, ss !! g = Some G → ss !! h = Some H →
    ¬ num (current G) < num (current H)) as Hlt.
  { clear g h. intros g h (G' & Hg & Hog & _) (H' & Hh & Hoh & Hst) G H HG HH Hlt.
    rewrite HG in Hg. rewrite HH in Hh. injection Hg as <-. injection Hh as <-.
    apply (not_reached ss g G (num (current G) + 1)); [done|lia|].
    apply (chain ss ws (num (current H)) s h); try done.
    - exists H. split; [done|]. by right.
    - apply owner_inv in Hog as (? & ?%zlookup_bounds & _). lia.
    - apply (inv_gid _ _ Hinv). by exists G. }
  intros Hg Hh. pose proof Hg as (G & HG & Hog & _). pose proof Hh as (H & HH & Hoh & _).
  assert (num (current G) = num (current H)) as E.
  { pose proof (Hlt g h Hg Hh G H HG HH). pose proof (Hlt h g Hh Hg H G HH HG). lia. }
  rewrite E in Hog. congruence.
Qed.

(** While a shard is on its way no group has it. *)
Lemma transit_unserved ss ws g s m h x :
  inv ss ws → has ss x s → owner m s = Some g → owner (m - 1) s = Some h → h ≠ 0 →
  reached ss h m → taken ss m s g.
Proof.
  intros Hinv (X & HX & Hox & Hst) Hg Hh H0 Hr. set (n := num (current X)) in *.
  assert (x ≠ 0) as Hx by (apply (inv_gid _ _ Hinv); by exists X).
  assert (0 ≤ n ∧ 0 ≤ m - 1) as [Hn Hm].
  { apply owner_inv in Hox as (? & ?%zlookup_bounds & _), Hh as (? & ?%zlookup_bounds & _). lia. }
  destruct (Z.lt_trichotomy m n) as [Hlt|[Heq|Hgt]].
  - apply reached_taken. apply (chain ss ws n s x); try done; [exists X; by auto|lia|].
    apply (owners_nonzero (m - 1) s h m g); try done. lia.
  - rewrite Heq in *. rewrite Hox in Hg. injection Hg as <-. exists X. split; [done|by right].
  - exfalso. apply (not_reached ss x X (n + 1)); [done|lia|].
    destruct (decide (n = m - 1)) as [E|E].
    + rewrite <-E, Hox in Hh. injection Hh as <-. by replace (n + 1) with m by lia.
    + apply (chain ss ws (m - 1) s h); try done; [|lia].
      apply reached_taken. by replace (m - 1 + 1) with m by lia.
Qed.

(** A shard that no group has had yet has not been written. *)
Lemma unowned_unwritten ss ws g G s :
  inv ss ws → ss !! g = Some G → owner (num (current G)) s = Some 0 →
  owner (num (current G) + 1) s = Some g → shard_writes ws s = [].
Proof.
  intros Hinv HG Hz Hg. set (n := num (current G)) in *.
  assert (g ≠ 0) as Hg0 by (apply (inv_gid _ _ Hinv); by exists G).
  destruct (shard_writes ws s) as [|w l] eqn:E; [done|].
  assert (w ∈ shard_writes ws s) as [Hs Hw]%list_elem_of_filter by (rewrite E; by left).
  destruct (inv_writes _ _ Hinv w Hw) as (m & h & Hm & Hh & Ht). rewrite Hs in *. exfalso.
  destruct (decide (m ≤ n)) as [Hle|Hgt]; [by eapply (owners_nonzero m s h n 0)|].
  assert (reached ss g (n + 1)) as Hr.
  { destruct (decide (m = n + 1)) as [->|Hne].
    { rewrite Hg in Hm. injection Hm as <-. by eapply taken_reached. }
    destruct (chain ss ws m s h (n + 1) g Hinv Hm Ht) as (G' & ? & ?); try done.
    - apply owner_inv in Hz as (? & ?%zlookup_bounds & _). lia.
    - exists G'. split; [done|lia]. }
  by apply (not_reached ss g G (n + 1)) in Hr; [|done|unfold n; lia].
Qed.

(** ** Applying a command *)
Section apply_step.
Context (ss : gmap Z Group) (ws : list CommandArgs) (g : Z) (G : Group) (cmd : Command) (kv : ShardKV).
Hypothesis Hinv : inv ss ws.
Hypothesis HG : ss !! g = Some G.
Hypothesis Hcmd : cmd ∈ proposed G.
Hypothesis Hwf : wf kv.
Hypothesis Hgid : gid kv = gid (current G).
Hypothesis Hcfg : config_step cmd (current G) kv.
Hypothesis Hops : ops_step cmd (current G) kv.

Let G' : Group := mkGroup kv (states G) (proposed G) (cmd :: applied G).
Let ss' : gmap Z Group := <[g := G']> ss.
Let ws' : list CommandArgs := ws ++ executed (current G) cmd.

Lemma current_ok : state_ok g (current G).
Proof. apply (inv_states _ _ Hinv g G); [done|by left]. Qed.

(** A new configuration comes only when every shard is served. *)
Lemma next_config c :
  cmd = Configuration c → Num c = num (current G) + 1 →
  all_serving (current G) ∧ zlookup cfgs (Num c) = Some c.
Proof.
  intros -> Hn. pose proof (inv_proposed _ _ Hinv _ _ _ HG Hcmd) as [Hc [?|[_ Hall]]]; [lia|done].
Qed.

Lemma cmd_ok : proposal_ok ss ws g (current G) cmd.
Proof. by eapply inv_proposed. Qed.

Lemma step_before : before (current G) kv.
Proof.
  destruct Hcfg as [Hc _ Hst|c _ Hn Hc _ _].
  - right. split; [unfold num; by rewrite Hc|]. intros s. unfold status.
    destruct (Hst s) as [E|info sh data _ _ _ -> Ep ->|info sh _ _ _ -> Ep ->|info sh _ _ _ -> Ep ->];
      [|simpl; rewrite Ep; done..].
    rewrite E. by destruct (stateMachine (current G) !! s).
  - left. unfold num. rewrite Hc. lia.
Qed.

Lemma step_later : later ss ss'.
Proof. eapply later_insert; [done|]. apply step_before. Qed.

Lemma status_lookup (k : ShardKV) s sh : stateMachine k !! s = Some sh → status k s = Some (Status sh).
Proof. unfold status. by intros ->. Qed.

(** The owners of a shard in the current and the next configuration. *)
Lemma next_owners c s :
  cmd = Configuration c → Num c = num (current G) + 1 → 0 ≤ s < NShards →
  ∃ o o', owner (num (current G)) s = Some o ∧ owner (num (current G) + 1) s = Some o' ∧
    (∀ t, next_status (current G) c s t =
       if decide (o ≠ g ∧ o' = g ∧ o ≠ 0) then Pulling
       else if decide (o = g ∧ o' ≠ g ∧ o' ≠ 0) then BePulling else t).
Proof.
  intros Ec Hn Hs. destruct (next_config c Ec Hn) as [_ Hc]. pose proof current_ok as Hok.
  rewrite Hn in Hc. rewrite (owner_lookup _ _ _ Hc), (owner_lookup _ _ _ (so_current _ _ Hok)).
  destruct (config_ok _ _ Hc) as (_ & _ & Hl). destruct (config_ok _ _ (so_current _ _ Hok)) as (_ & _ & Hl').
  destruct (proj2 (zlookup_is_Some (Shards c) s)) as [o' Ho']; [lia|].
  destruct (proj2 (zlookup_is_Some (Shards (currentConfig (current G))) s)) as [o Ho]; [lia|].
  exists o, o'. split_and!; [done..|]. intros t. unfold next_status, acquires, releases.
  rewrite Ho, Ho', (so_gid _ _ Hok).
  destruct (Z.eqb_spec o g), (Z.eqb_spec o' g), (Z.eqb_spec o 0), (Z.eqb_spec o' 0); simpl;
    repeat case_decide; try done; naive_solver.
Qed.

Lemma step_state_ok : state_ok g kv.
Proof.
  pose proof current_ok as Hok. destruct Hcfg as [Hc Hl Hst|c Ec Hn Hc Hl Hst].
  - assert (num kv = num (current G)) as Hnum by (unfold num; by rewrite Hc).
    split; rewrite ?Hnum, ?Hc, ?Hl; try apply Hok; [done|by rewrite Hgid; apply Hok|].
    intros s t Ht Hs. rewrite Hnum.
    assert (∀ sh, stateMachine (current G) !! s = Some sh → status (current G) s = Some (Status sh)) as Hlk
      by (intros sh; apply status_lookup).
    destruct (Hst s) as [E|info sh data _ _ _ Es Ep E|info sh _ _ _ Es Ep E|info sh _ _ _ Es Ep E];
      unfold status in Ht; rewrite E in Ht; simpl in Ht.
    + apply (so_status _ _ Hok); [|done]. unfold status. by destruct (stateMachine (current G) !! s).
    + simplify_eq. apply (so_status _ _ Hok s Pulling); [|done]. by rewrite (Hlk sh Es), Ep.
    + by simplify_eq.
    + by simplify_eq.
  - destruct (next_config c Ec Hn) as [Hall Hcc].
    assert (num kv = num (current G) + 1) as Hnum by (unfold num at 1; by rewrite Hc).
    pose proof (so_num _ _ Hok). split; rewrite ?Hnum.
    + done.
    + by rewrite Hgid; apply Hok.
    + lia.
    + rewrite Hc. by replace (num (current G) + 1) with (Num c).
    + rewrite Hl. replace (Z.max _ _) with (num (current G)) by lia. apply Hok.
    + intros s t Ht Hs. rewrite Hnum. replace (num (current G) + 1 - 1) with (num (current G)) by lia.
      specialize (Hall s Hs). unfold status in Ht, Hall. rewrite (Hst s Hs) in Ht.
      destruct (stateMachine (current G) !! s) as [sh|]; [|done]. simpl in *.
      destruct (next_owners c s Ec Hn Hs) as (o & o' & -> & -> & Hns). rewrite Hns in Ht.
      injection Hall as Hall. rewrite Hall in Ht. injection Ht as <-.
      repeat case_decide; naive_solver.
Qed.

(** What the command makes new: shards that arrive, and a new configuration. *)
Lemma taken_new x m s :
  0 ≤ s < NShards → taken ss' m s x →
  taken ss m s x ∨
  x = g ∧ m = num (current G) ∧ (∃ info data, cmd = InsertShards info ∧
     sor_ConfigNum info = m ∧ sor_Shards info !! s = Some data) ∨
  x = g ∧ m = num (current G) + 1 ∧ status kv s ≠ Some Pulling ∧
     (∃ c, cmd = Configuration c ∧ Num c = m ∧
        status kv s = next_status (current G) c s <$> status (current G) s).
Proof.
  intros Hs (X & HX & Hm). unfold ss' in HX.
  apply lookup_insert_Some in HX as [[<- <-]|[Hne HX]]; [|left; by exists X].
  simpl in Hm. destruct Hcfg as [Hc Hl Hst|c Ec Hn Hc Hl Hst].
  - assert (num kv = num (current G)) as Hnum by (unfold num; by rewrite Hc). rewrite Hnum in Hm.
    destruct Hm as [Hm|[-> Hm]]; [left; exists G; auto|].
    destruct (decide (status (current G) s = Some Pulling)) as [Hp|Hp]; [|left; exists G; auto].
    right; left. split_and!; [done..|].
    destruct (Hst s) as [E|info sh data Ec En Ed Es Ep E|info sh _ _ _ Es Ep E|info sh _ _ _ Es Ep E].
    + exfalso. apply Hm. unfold status in *. rewrite E. by destruct (stateMachine (current G) !! s).
    + by exists info, data.
    + rewrite (status_lookup _ _ _ Es) in Hp. congruence.
    + rewrite (status_lookup _ _ _ Es) in Hp. congruence.
  - assert (num kv = num (current G) + 1) as Hnum by (unfold num at 1; by rewrite Hc). rewrite Hnum in Hm.
    destruct (next_config c Ec Hn) as [Hall _].
    destruct (decide (m ≤ num (current G))) as [Hle|Hgt].
    { left. exists G. split; [done|]. rewrite (Hall s Hs).
      destruct (decide (m = num (current G))); [by right|left; lia]. }
    destruct Hm as [?|[-> Hm]]; [lia|]. right; right. split_and!; [done..|].
    exists c. split_and!; [done..|]. unfold status. rewrite (Hst s Hs).
    by destruct (stateMachine (current G) !! s).
Qed.

Lemma step_handoff : handoff ss'.
Proof.
  intros m s x h Hx Hh Hne H0 Ht. pose proof Hx as (_ & _ & _ & Hs)%owner_inv.
  destruct (taken_new x m s Hs Ht)
    as [Ht'|[(-> & -> & info & data & Ec & En & Ed)|(-> & -> & Hp & c & Ec & Hn & Hst)]].
  - eapply reached_later; [apply step_later|]. by eapply (inv_handoff _ _ Hinv m s x h).
  - pose proof cmd_ok as Hp. rewrite Ec in Hp.
    destruct (Hp s data Ed) as (_ & _ & h' & Hh' & _ & _ & Hr & _).
    eapply reached_later; [apply step_later|]. rewrite En in *. rewrite Hh in Hh'. by injection Hh' as <-.
  - exfalso. destruct (next_config c Ec Hn) as [Hall _]. rewrite (Hall s Hs) in Hst. simpl in Hst.
    destruct (next_owners c s Ec Hn Hs) as (o & o' & Ho & Ho' & Hns). rewrite Hns in Hst.
    replace (num (current G) + 1 - 1) with (num (current G)) in Hh by lia.
    rewrite Hx in Ho'. rewrite Hh in Ho. simplify_eq. rewrite decide_True in Hst by done. done.
Qed.

Lemma step_released x X st : ss' !! x = Some X → st ∈ states X → released ss' x st.
Proof.
  intros HX Hst m s h Hx Hh Hne H0 Hm. pose proof Hh as (_ & _ & _ & Hs)%owner_inv.
  assert (∀ X st, ss !! x = Some X → st ∈ states X →
    m < num st ∨ m = num st ∧ status st s ≠ Some BePulling → taken ss' m s h) as Hold.
  { intros X' st' ? ? ?. eapply taken_later; [apply step_later|].
    by eapply (inv_released _ _ Hinv x X' st'). }
  apply lookup_insert_Some in HX as [[<- <-]|[_ HX]]; [|by eapply Hold].
  apply elem_of_cons in Hst as [->|Hst]; [|by eapply Hold].
  assert (current G ∈ states G) as Hin by (by left).
  destruct Hcfg as [Hc Hl Hst|c Ec Hn Hc Hl Hst]; simpl in Hm.
  - assert (num kv = num (current G)) as Hnum by (unfold num; by rewrite Hc). rewrite Hnum in Hm.
    destruct Hm as [Hm|[-> Hm]]; [by apply (Hold G (current G)); auto|].
    destruct (decide (status (current G) s = Some BePulling)) as [Hp|Hp]; [|by apply (Hold G (current G)); auto].
    destruct (Hst s) as [E|info sh data _ En Ed Es Ep E|info sh _ _ _ Es Ep E|info sh Ec En Hids Es Ep E];
      [|rewrite (status_lookup _ _ _ Es) in Hp; congruence..|].
    + exfalso. apply Hm. unfold status in *. rewrite E. by destruct (stateMachine (current G) !! s).
    + pose proof cmd_ok as Hd. rewrite Ec in Hd. apply Hd in Hids as [_ Hd'].
      eapply taken_later; [apply step_later|]. unfold num in Hh |- *. rewrite En in Hd'. by apply Hd'.
  - assert (num kv = num (current G) + 1) as Hnum by (unfold num at 1; by rewrite Hc). rewrite Hnum in Hm.
    destruct (next_config c Ec Hn) as [Hall _].
    destruct (decide (m ≤ num (current G))) as [Hle|Hgt].
    { eapply Hold; [done..|]. rewrite (Hall s Hs).
      destruct (decide (m = num (current G))); [by right|left; lia]. }
    destruct Hm as [?|[-> Hm]]; [lia|]. exfalso. apply Hm.
    unfold status. rewrite (Hst s Hs). specialize (Hall s Hs). unfold status in Hall.
    destruct (stateMachine (current G) !! s); [|done]. simpl.
    destruct (next_owners c s Ec Hn Hs) as (o & o' & Ho & Ho' & Hns). rewrite Hns.
    replace (num (current G) + 1 - 1) with (num (current G)) in Hx by lia.
    rewrite Hx in Ho. rewrite Hh in Ho'. simplify_eq. rewrite decide_False, decide_True by naive_solver. done.
Qed.

(** The group that writes has the shard. *)
Lemma writes_has s :
  shard_writes (executed (current G) cmd) s = [] ∨
  has ss g s ∧ (status (current G) s = Some Serving ∨ status (current G) s = Some GCing).
Proof.
  destruct (shard_writes (executed (current G) cmd) s) as [|w l] eqn:E; [by left|right].
  assert (w ∈ shard_writes (executed (current G) cmd) s) as [Hs Hw]%list_elem_of_filter
    by (rewrite E; by left).
  apply executed_spec in Hw as (_ & _ & _ & Hcan & _). pose proof current_ok as Hok.
  destruct (canServe_ok (current G) (key2shard (ca_Key w))) as (b & Hb & Hiff);
    [apply Hok|apply key2shard_range|]. rewrite Hs in *. rewrite Hb in Hcan. simplify_eq.
  destruct Hiff as [[Ho Hst] _]; [done|]. split; [|done]. exists G. split; [done|].
  rewrite (owner_lookup _ _ _ (so_current _ _ Hok)), Ho, (so_gid _ _ Hok).
  split; [done|]. destruct Hst as [-> | ->]; done.
Qed.

(** In transit, shards keep their content. *)
Lemma transit_carries m s x h data ops :
  owner m s = Some x → owner (m - 1) s = Some h → h ≠ 0 → reached ss h m →
  taken ss m s x ∨ carries data ops ws s → taken ss' m s x ∨ carries data ops ws' s.
Proof.
  intros Hx Hh H0 Hr [Ht|Hc]; [left; eapply taken_later; [apply step_later|done]|].
  destruct (writes_has s) as [E|[Hhas _]]; [right; by apply carries_other|].
  left. eapply taken_later; [apply step_later|]. by eapply transit_unserved.
Qed.

Lemma frozen_old x X st : ss !! x = Some X → st ∈ states X → frozen ss' ws' st.
Proof.
  intros HX Hst s sh h Hs Hsh Hbp Hh. destruct (inv_states _ _ Hinv x X st HX Hst) as [Hok Hb].
  assert (status st s = Some BePulling) as Hsp by (rewrite (status_lookup _ _ _ Hsh); congruence).
  destruct (so_status _ _ Hok s _ Hsp Hs) as [Hx _].
  apply (transit_carries _ _ _ x); try done.
  - apply (inv_gid _ _ Hinv). by exists X.
  - exists X. split; [done|]. by apply before_num.
  - by eapply (inv_frozen _ _ Hinv x X).
Qed.

Lemma carries_grow data ws1 s :
  carries data (lastOperations (current G)) ws1 s → carries data (lastOperations kv) ws1 s.
Proof. intros [-> Hc]. split; [done|]. eapply covers_le; [apply (proj1 Hops)|done]. Qed.

Lemma next_no_writes c : cmd = Configuration c → ws' = ws.
Proof. intros E. unfold ws'. rewrite E. simpl. by rewrite app_nil_r. Qed.

Lemma step_frozen x X st : ss' !! x = Some X → st ∈ states X → frozen ss' ws' st.
Proof.
  intros HX Hst. apply lookup_insert_Some in HX as [[<- <-]|[_ HX]]; [|by eapply frozen_old].
  apply elem_of_cons in Hst as [->|Hst]; [|by eapply frozen_old]. simpl.
  intros s sh h Hs Hsh Hbp Hh. destruct Hcfg as [Hc Hl Hst|c Ec Hn Hc Hl Hst].
  - assert (num kv = num (current G)) as Hnum by (unfold num; by rewrite Hc). rewrite Hnum in *.
    destruct (Hst s) as [E|info sh0 data _ _ _ _ _ E|info sh0 _ _ _ _ _ E|info sh0 _ _ _ _ _ E];
      rewrite Hsh in E; [|by injection E as ->..].
    destruct (stateMachine (current G) !! s) as [sh0|] eqn:Es; [|done]. injection E as ->. simpl in *.
    assert (shard_writes (executed (current G) cmd) s = []) as Enw.
    { destruct (writes_has s) as [E|[_ E]]; [done|]. rewrite (status_lookup _ _ _ Es), Hbp in E.
      destruct E; congruence. }
    rewrite Enw. simpl.
    destruct (frozen_old g G (current G) HG ltac:(by left) s sh0 h) as [Ht|Hcar]; [done..|by left|].
    right. by apply carries_grow.
  - assert (num kv = num (current G) + 1) as Hnum by (unfold num at 1; by rewrite Hc). rewrite Hnum in *.
    destruct (next_config c Ec Hn) as [Hall _]. specialize (Hall s Hs).
    rewrite (Hst s Hs) in Hsh. destruct (stateMachine (current G) !! s) as [sh0|] eqn:Es; [|done].
    injection Hsh as <-. simpl in *. rewrite (status_lookup _ _ _ Es) in Hall. injection Hall as Hall.
    destruct (next_owners c s Ec Hn Hs) as (o & o' & Ho & Ho' & Hns). rewrite Hns, Hall in Hbp.
    repeat case_decide; try done. right. rewrite (next_no_writes c Ec). apply carries_grow.
    destruct (inv_data _ _ Hinv g G HG s sh0 Hs Es) as [Hd _]. apply Hd; [naive_solver|congruence].
Qed.

Lemma data_other x X : x ≠ g → ss !! x = Some X → data_ok ws' x (current X).
Proof.
  intros Hne HX s sh Hs Hsh. destruct (inv_data _ _ Hinv x X HX s sh Hs Hsh) as [Hd He].
  split; [|done]. intros Ho Hst. destruct (writes_has s) as [E|[Hhas _]].
  - apply carries_other; [done|]. by apply Hd.
  - destruct Hne. eapply has_exclusive; [done| |done]. exists X. split_and!; try done.
    rewrite (status_lookup _ _ _ Hsh). congruence.
Qed.

Lemma data_kept :
  currentConfig kv = currentConfig (current G) → (∀ s, shard_step cmd (current G) kv s) →
  data_ok ws' g kv.
Proof.
  intros Hc Hst s sh Hs Hsh. pose proof current_ok as Hok.
  assert (num kv = num (current G)) as -> by (unfold num; by rewrite Hc).
  destruct (Hst s) as [E|info sh0 data Ec En Ed Es Ep E|info sh0 Ec _ _ Es Ep E|info sh0 Ec _ _ Es Ep E];
    rewrite Hsh in E.
  - destruct (stateMachine (current G) !! s) as [sh0|] eqn:Es; [|done]. injection E as ->. simpl.
    destruct (inv_data _ _ Hinv g G HG s sh0 Hs Es) as [Hd He]. split.
    + intros Ho Hp. apply carries_write; [done|]. by apply Hd.
    + intros Hcase. destruct (writes_has s) as [->|[(G2 & HG2 & Ho2 & _) Hsv]]; [by apply He|].
      rewrite HG in HG2. injection HG2 as <-. rewrite (status_lookup _ _ _ Es) in Hsv.
      exfalso. destruct Hcase as [Hp|[_ Ho]]; [|done]. destruct Hsv; congruence.
  - injection E as ->. simpl. split; [|intros [?|[? ?]]; done]. intros Ho _.
    assert (ws' = ws) as -> by (unfold ws'; rewrite Ec; simpl; by rewrite app_nil_r).
    assert (KV sh0 = ∅) as ->.
    { apply (inv_data _ _ Hinv g G HG s sh0 Hs Es). by left. }
    rewrite (right_id_L ∅ (∪)). pose proof cmd_ok as Hp. rewrite Ec in Hp.
    destruct (Hp s data Ed) as (_ & _ & h & _ & _ & _ & _ & [(G2 & HG2 & Ht)|Hcar]).
    + exfalso. rewrite HG in HG2. injection HG2 as <-. rewrite En in Ht.
      rewrite (status_lookup _ _ _ Es), Ep in Ht. unfold num in Ht. destruct Ht as [?|[_ ?]]; [lia|done].
    + eapply (carries_arrive (current G) kv info); [|done..]. by rewrite <-Ec.
  - injection E as ->. simpl.
    assert (status (current G) s = Some GCing) as Hsg by (rewrite (status_lookup _ _ _ Es); congruence).
    destruct (so_status _ _ Hok s _ Hsg Hs) as [Ho' _]. split; [|intros [?|[_ ?]]; done].
    intros _ _. assert (ws' = ws) as -> by (unfold ws'; rewrite Ec; simpl; by rewrite app_nil_r).
    apply carries_grow. apply (inv_data _ _ Hinv g G HG s sh0 Hs Es); [done|congruence].
  - injection E as ->. simpl. split; [|done]. intros Ho _. exfalso.
    assert (status (current G) s = Some BePulling) as Hsg by (rewrite (status_lookup _ _ _ Es); congruence).
    destruct (so_status _ _ Hok s _ Hsg Hs) as [_ (h & Hh & ? & _)]. congruence.
Qed.

Lemma data_next c :
  cmd = Configuration c → Num c = num (current G) + 1 → currentConfig kv = c →
  (∀ s, 0 ≤ s < NShards →
     stateMachine kv !! s = move_shard_status (current G) c s <$> stateMachine (current G) !! s) →
  data_ok ws' g kv.
Proof.
  intros Ec Hn Hc Hst s sh Hs Hsh.
  assert (num kv = num (current G) + 1) as -> by (unfold num at 1; by rewrite Hc).
  destruct (next_config c Ec Hn) as [Hall _]. specialize (Hall s Hs).
  rewrite (Hst s Hs) in Hsh. destruct (stateMachine (current G) !! s) as [sh0|] eqn:Es; [|done].
  injection Hsh as <-. simpl. rewrite (status_lookup _ _ _ Es) in Hall. injection Hall as Hall.
  destruct (next_owners c s Ec Hn Hs) as (o & o' & Ho & Ho' & Hns).
  rewrite Hns, Hall, Ho', (next_no_writes c Ec).
  destruct (inv_data _ _ Hinv g G HG s sh0 Hs Es) as [Hd He]. rewrite Ho, Hall in *.
  assert (g ≠ 0) as Hg0 by (apply (inv_gid _ _ Hinv); by exists G). split.
  - intros [= ->] Hp. apply carries_grow. case_decide as E1; [done|].
    destruct (decide (o = g)) as [->|Hog]; [by apply Hd|].
    assert (o = 0) as -> by (destruct (decide (o = 0)); [done|]; exfalso; naive_solver).
    rewrite He by naive_solver. unfold carries, covers.
    rewrite (unowned_unwritten ss ws g G s Hinv HG Ho Ho'). split; [done|]. by intros ? ?%not_elem_of_nil.
  - intros Hcase. apply He. right. split; [done|]. intros [= ->].
    case_decide as E1; [naive_solver|]. case_decide as E2.
    + by destruct Hcase as [?|[? _]].
    + destruct Hcase as [?|[_ Hno]]; [done|].
      apply E2. split_and!; [done|congruence|].
      apply (owners_nonzero (num (current G)) s g (num (current G) + 1) o'); try done. lia.
Qed.

Lemma step_data x X : ss' !! x = Some X → data_ok ws' x (current X).
Proof.
  intros HX. apply lookup_insert_Some in HX as [[<- <-]|[Hne HX]]; [|by apply data_other].
  simpl. destruct Hcfg as [Hc Hl Hst|c Ec Hn Hc Hl Hst]; [by apply data_kept|by eapply data_next].
Qed.

(** Proposals stay good, for the group itself and for the others. *)
Lemma proposal_step x kx kx' p :
  before kx kx' → (num kx = num kx' ∨ num kx' = num kx + 1) →
  proposal_ok ss ws x kx p → proposal_ok ss' ws' x kx' p.
Proof.
  intros Hb Hnum. destruct p as [?|c|info|info|]; simpl; try done.
  - intros [Hc Hcase]. split; [done|]. pose proof (before_num _ _ Hb).
    destruct Hcase as [?|[? Hall]]; [left; lia|].
    destruct Hb as [?|[Hb Hb']]; [left; lia|]. right. split; [lia|].
    intros s Hs. by apply Hb', Hall.
  - intros Hp s data (Hs & Hx & h & Hh & Hne & H0 & Hr & Hcase)%Hp.
    split_and!; try done; [lia..|]. exists h. split_and!; try done.
    + eapply reached_later; [apply step_later|done].
    + by eapply transit_carries.
  - intros Hp s [Hs Hd]%Hp. split; [done|]. intros h Hh Hne.
    eapply taken_later; [apply step_later|]. by apply Hd.
Qed.

Lemma step_proposed x X p : ss' !! x = Some X → p ∈ proposed X → proposal_ok ss' ws' x (current X) p.
Proof.
  intros HX Hp. apply lookup_insert_Some in HX as [[<- <-]|[Hne HX]].
  - simpl in *. apply (proposal_step g (current G)); [apply step_before| |by eapply inv_proposed].
    destruct Hcfg as [Hc _ _|c _ Hn Hc _ _]; unfold num; rewrite Hc; auto.
  - apply (proposal_step x (current X)); [done|by left|by eapply inv_proposed].
Qed.

Lemma step_writes w : w ∈ ws' →
  ∃ m h, owner m (key2shard (ca_Key w)) = Some h ∧ h ≠ 0 ∧ taken ss' m (key2shard (ca_Key w)) h.
Proof.
  intros [Hw|Hw]%elem_of_app.
  - destruct (inv_writes _ _ Hinv w Hw) as (m & h & ? & ? & ?). exists m, h. split_and!; try done.
    by eapply taken_later; [apply step_later|].
  - destruct (writes_has (key2shard (ca_Key w))) as [E|[(G2 & HG2 & Ho & Hst) _]].
    { assert (w ∈ shard_writes (executed (current G) cmd) (key2shard (ca_Key w))) as Hin
        by (by apply list_elem_of_filter). rewrite E in Hin. by apply not_elem_of_nil in Hin. }
    rewrite HG in HG2. injection HG2 as <-. exists (num (current G)), g. split_and!; [done| |].
    + apply (inv_gid _ _ Hinv). by exists G.
    + eapply taken_later; [apply step_later|]. exists G. auto.
Qed.

Lemma groups_step_inv : inv ss' ws'.
Proof.
  split.
  - intros x [X [[<- _]|[_ HX]]%lookup_insert_Some]; apply (inv_gid _ _ Hinv); [by exists G|by exists X].
  - intros x X st HX Hst. apply lookup_insert_Some in HX as [[<- <-]|[_ HX]].
    + apply elem_of_cons in Hst as [->|Hst]; simpl.
      * split; [apply step_state_ok|reflexivity].
      * destruct (inv_states _ _ Hinv g G st HG Hst) as [? ?]. split; [done|].
        etrans; [done|]. apply step_before.
    + by eapply inv_states.
  - apply step_handoff.
  - apply step_released.
  - apply step_frozen.
  - apply step_data.
  - apply step_proposed.
  - apply step_writes.
Qed.

End apply_step.

(** ** Proposing a command *)

Lemma proposal_later ss ss' ws g kv p :
  later ss ss' → proposal_ok ss ws g kv p → proposal_ok ss' ws g kv p.
Proof.
  intros Hl. destruct p as [?|c|info|info|]; simpl; try done.
  - intros Hp s data (Hs & Hx & h & Hh & Hne & H0 & Hr & Hcase)%Hp.
    split_and!; try done; [lia..|]. exists h. split_and!; try done.
    + by eapply reached_later.
    + destruct Hcase; [left; by eapply taken_later|by right].
  - intros Hp s [Hs Hd]%Hp. split; [done|]. intros h Hh Hne. eapply taken_later; [done|]. by apply Hd.
Qed.

Lemma propose_inv ss ws g G cmd :
  inv ss ws → ss !! g = Some G → proposal_ok ss ws g (current G) cmd →
  inv (<[g := propose G cmd]> ss) ws.
Proof.
  intros Hinv HG Hok. set (ss' := <[g := propose G cmd]> ss).
  assert (later ss ss') as Hl by (by eapply later_insert).
  assert (∀ x X, ss' !! x = Some X → ∃ X0, ss !! x = Some X0 ∧ current X = current X0 ∧
    states X = states X0 ∧ ∀ p, p ∈ proposed X → p ∈ proposed X0 ∨ x = g ∧ p = cmd) as Hback.
  { intros x X [[<- <-]|[_ HX]]%lookup_insert_Some.
    - exists G. split_and!; try done. intros p [->|Hp]%elem_of_cons; auto.
    - exists X. split_and!; auto. }
  assert (later ss' ss) as Hl'.
  { intros x X (X0 & HX0 & -> & _)%Hback. by exists X0. }
  split.
  - intros x [X (X0 & HX0 & _)%Hback]. apply (inv_gid _ _ Hinv). by exists X0.
  - intros x X st (X0 & HX0 & -> & -> & _)%Hback. by eapply inv_states.
  - intros m s x h ? ? ? ? Ht. eapply reached_later; [done|].
    eapply (inv_handoff _ _ Hinv m s x h); try done. by eapply taken_later.
  - intros x X st (X0 & HX0 & _ & -> & _)%Hback Hst m s h ? ? ? ? ?. eapply taken_later; [done|].
    by eapply (inv_released _ _ Hinv x X0 st).
  - intros x X st (X0 & HX0 & _ & -> & _)%Hback Hst s sh h ? ? ? ?.
    destruct (inv_frozen _ _ Hinv x X0 st HX0 Hst s sh h); try done; [left|by right].
    by eapply taken_later.
  - intros x X (X0 & HX0 & -> & _)%Hback. by eapply inv_data.
  - intros x X p (X0 & HX0 & -> & _ & Hp)%Hback Hin. eapply proposal_later; [done|].
    destruct (Hp p Hin) as [?|[-> ->]]; [by eapply inv_proposed|]. by simplify_eq.
  - intros w Hw. destruct (inv_writes _ _ Hinv w Hw) as (m & h & ? & ? & ?).
    exists m, h. split_and!; try done. by eapply taken_later.
Qed.

Lemma query_ok k n c : query k n = c → 1 ≤ Num c → zlookup cfgs (Num c) = Some c.
Proof.
  intros <- Hn. unfold query in *. unfold Query in *.
  assert (∀ i c, slice_get (take k cfgs) i = Ret c → zlookup cfgs (Num c) = Some c) as Hget.
  { intros i c Hi%slice_get_Ret. pose proof Hi as Hb%zlookup_bounds. rewrite len_take in Hb.
    rewrite zlookup_take in Hi by lia. by destruct (config_ok _ _ Hi) as [-> _]. }
  destruct (if _ : bool then _ else _) as [c|] eqn:E; [|simpl in Hn; lia].
  destruct ((_ <? _) || _); by eapply Hget.
Qed.

Lemma canPerform_serving kv : wf kv → canPerformNextConfig kv = true → all_serving kv.
Proof.
  intros (Hsm & _) Hcan s Hs. unfold canPerformNextConfig in Hcan.
  rewrite forallb_forall in Hcan. destruct (Hsm s Hs) as [sh Hsh].
  specialize (Hcan (s, sh)). unfold status. rewrite Hsh. simpl. f_equal.
  eapply bool_decide_eq_true. apply Hcan. apply list_elem_of_In. rewrite range_perm.
  by apply elem_of_map_to_list.
Qed.

(** The shards an action asks a group for. *)
Lemma tasks_ok kv t tasks h servers args s :
  shard_tasks kv t = Ret tasks → (h, servers, args) ∈ tasks → s ∈ soa_ShardIDs args →
  soa_ConfigNum args = num kv ∧ status kv s = Some t ∧
  zlookup (Shards (lastConfig kv)) s = Some h ∧ h ≠ 0.
Proof.
  unfold shard_tasks. intros (m & Hm & Ht)%outcome_bind_Ret Hin Hs. injection Ht as <-.
  apply list_elem_of_fmap in Hin as ([g ids] & E & Hin).
  injection E as -> -> ->. simpl in *. split; [done|].
  rewrite range_perm in Hin. apply elem_of_map_to_list in Hin.
  assert (∀ g ids s, m !! g = Some ids → s ∈ ids → status kv s = Some t ∧
    zlookup (Shards (lastConfig kv)) s = Some g ∧ g ≠ 0) as Hall; [|by eapply Hall].
  clear Hin Hs. unfold getShardIDsByStatus in Hm. revert Hm.
  apply (ofold_inv (λ m : gmap Z (list Z), ∀ g ids s, m !! g = Some ids → s ∈ ids →
    status kv s = Some t ∧ zlookup (Shards (lastConfig kv)) s = Some g ∧ g ≠ 0)).
  2: { by intros ???; rewrite lookup_empty. }
  intros m1 [s1 sh] m2 Hin IH. unfold status_is. case_bool_decide as Hst; [|by intros [= <-]].
  intros (g1 & Hg1%slice_get_Ret & H2)%outcome_bind_Ret. injection H2 as <-.
  destruct (Z.eqb_spec g1 0) as [|H0]; [done|]. simpl.
  rewrite range_perm in Hin. apply elem_of_map_to_list in Hin.
  intros g' ids' s' [[<- <-]|[Hne Hl]]%lookup_insert_Some Hs'; [|by eapply IH].
  apply elem_of_app in Hs' as [Hs'|Hs'%list_elem_of_singleton]; [|subst s'].
  - unfold mget in Hs'. destruct (m1 !! g1) as [ids1|] eqn:E; [|by apply not_elem_of_nil in Hs'].
    by eapply IH.
  - rewrite (status_lookup _ _ _ Hin). split_and!; [congruence|done..].
Qed.

Lemma deepCopy_operations (l : list (Z * OperationContext)) (m : gmap Z OperationContext) :
  foldl (λ (m : gmap Z _) '(clientId, ctx), <[clientId := OperationContext_deepCopy ctx]> m) m l =
  foldl (λ (m : gmap Z _) '(clientId, ctx), <[clientId := ctx]> m) m l.
Proof. revert m. induction l as [|[cl [id [e v]]] l IH]; intros m; simpl; [done|]. apply IH. Qed.

(** What a group answers when it is asked for shards. *)
Lemma GetShardsData_ok kv args reply :
  GetShardsData kv true args = Ret reply → sor_Err reply = OK →
  soa_ConfigNum args ≤ num kv ∧ sor_ConfigNum reply = soa_ConfigNum args ∧
  sor_LastOperations reply = lastOperations kv ∧
  ∀ s data, sor_Shards reply !! s = Some data →
    s ∈ soa_ShardIDs args ∧ ∃ sh, stateMachine kv !! s = Some sh ∧ KV sh = data.
Proof.
  unfold GetShardsData. simpl. destruct (Z.ltb_spec (Num (currentConfig kv)) (soa_ConfigNum args)) as [|Hle].
  { by intros [= <-]. }
  intros (shards & Hsh & H)%outcome_bind_Ret Herr. injection H as <-. simpl.
  split_and!; [done..| |].
  - rewrite deepCopy_operations, foldl_insert_range. apply (right_id_L ∅ (∪)).
  - revert Hsh. apply (ofold_inv (λ m : gmap Z (gmap string string), ∀ s data, m !! s = Some data →
      s ∈ soa_ShardIDs args ∧ ∃ sh, stateMachine kv !! s = Some sh ∧ KV sh = data)).
    2: { by intros ??; rewrite lookup_empty. }
    intros m1 s1 m2 Hin IH (sh & Hsh & H2)%outcome_bind_Ret s data. injection H2 as <-.
    intros [[<- <-]|[_ Hl]]%lookup_insert_Some; [|by apply IH]. split; [done|]. exists sh.
    unfold shard_at in Hsh. destruct (stateMachine kv !! s1); [|done]. injection Hsh as ->.
    split; [done|]. unfold Shard_deepCopy. rewrite foldl_insert_range. by rewrite (right_id_L ∅ (∪)).
Qed.

(** An action of the group [g] at a state: the shards it names. *)
Lemma action_shards g kv t tasks h servers args s :
  state_ok g kv → shard_tasks kv t = Ret tasks → (h, servers, args) ∈ tasks →
  s ∈ soa_ShardIDs args → t = Pulling ∨ t = GCing →
  0 ≤ s < NShards ∧ soa_ConfigNum args = num kv ∧ status kv s = Some t ∧
  owner (num kv) s = Some g ∧ owner (num kv - 1) s = Some h ∧ h ≠ g ∧ h ≠ 0.
Proof.
  intros Hok Ht Hin Hs Hcase. destruct (tasks_ok _ _ _ _ _ _ _ Ht Hin Hs) as (Hn & Hst & Hl & H0).
  assert (0 ≤ s < NShards) as Hr.
  { pose proof Hl as Hb%zlookup_bounds. by destruct (config_ok _ _ (so_last _ _ Hok)) as (_ & _ & <-). }
  assert (owner (num kv) s = Some g ∧ ∃ h, owner (num kv - 1) s = Some h ∧ h ≠ g ∧ h ≠ 0)
    as [Hg (h' & Hh' & Hne & _)].
  { pose proof (so_status _ _ Hok s t Hst Hr) as Hso. destruct Hcase; by subst t. }
  assert (h' = h) as ->; [|split; [done|]; by split_and!].
  assert (0 ≤ num kv - 1) as Hpos by (apply owner_inv in Hh' as (? & ?%zlookup_bounds & _); lia).
  pose proof (so_last _ _ Hok) as Hlast. rewrite Z.max_r in Hlast by lia.
  rewrite (owner_lookup _ _ _ Hlast) in Hh'. congruence.
Qed.

Lemma proposes_ok ss ws g cmd G :
  inv ss ws → ss !! g = Some G → proposes ss g cmd → proposal_ok ss ws g (current G) cmd.
Proof.
  intros Hinv HG Hp. destruct Hp as
    [g ? st args HG' Hst Hgu|g ? st k cmd HG' Hst Hc
    |g ? st h H st' tasks servers args reply cmd HG' Hst Ht Hin HH Hst' Hget Hrep
    |g G' st h H st' tasks servers args HG' Hst Ht Hin HH Hst' Hdel
    |g ? st h H tasks servers args cmd HG' Hst Ht Hin HH Happ Hrep|g]; [done| | | | |done].
  - simplify_eq. destruct (inv_states _ _ Hinv g G st HG Hst) as [Hok Hb].
    unfold configurationAction in Hc. destruct (canPerformNextConfig st) eqn:Hcan; [|done].
    destruct (Z.eqb_spec (Num (query k (Num (currentConfig st) + 1))) (Num (currentConfig st) + 1))
      as [E|]; [|done]. injection Hc as <-.
    assert (Num (query k (Num (currentConfig st) + 1)) = num st + 1) as E' by done.
    pose proof (so_num _ _ Hok). split; [by eapply query_ok; [|lia]|]. rewrite E'.
    destruct Hb as [?|[Hb Hs]]; [left; lia|]. right. split; [lia|].
    intros s Hr. apply Hs, canPerform_serving; [apply Hok|done..].
  - simplify_eq. destruct (inv_states _ _ Hinv g G st HG Hst) as [Hok Hb].
    unfold migration_reply in Hrep. simpl in Hrep. case_bool_decide as Herr; [|done]. simplify_eq.
    destruct (GetShardsData_ok _ _ _ Hget Herr) as (Hle & En & El & Hsh). intros s data Hd.
    destruct (Hsh s data Hd) as (Hs & sh & Hshard & <-). rewrite En, El.
    destruct (action_shards g st Pulling tasks h servers args s Hok Ht Hin Hs)
      as (Hr & En' & _ & Hg & Hh & Hne & H0); [by left|]. rewrite En' in *.
    split_and!; try done; [lia..|]. exists h. split_and!; try done.
    { exists H. split; [done|]. destruct (inv_states _ _ Hinv h H st' HH Hst') as [_ ?%before_num]. lia. }
    destruct (decide (num st = num st' ∧ Status sh = BePulling)) as [[E Hbp]|Hnb].
    + rewrite E in *. by apply (inv_frozen _ _ Hinv h H st' HH Hst' s sh g).
    + left. apply (inv_released _ _ Hinv h H st' HH Hst' (num st) s g); try done.
      { apply (inv_gid _ _ Hinv). by exists G. }
      rewrite (status_lookup _ _ _ Hshard). destruct (decide (num st < num st')); [by left|right].
      assert (num st = num st') by lia. split; [done|]. naive_solver.
  - intros s Hs. rename G into H0. assert (H0 = H) as -> by congruence.
    destruct (inv_states _ _ Hinv g G' st HG' Hst) as [Hok Hb].
    destruct (action_shards g st GCing tasks h servers args s Hok Ht Hin Hs)
      as (Hr & En & Hgc & Hg & _); [by right|]. split; [done|]. rewrite En. intros x Hx _.
    rewrite Hg in Hx. injection Hx as <-. eapply (taken_before ss G' st); [done..|].
    right. split; [done|]. by rewrite Hgc.
  - simplify_eq. unfold gc_reply in Hrep. simpl in Hrep. injection Hrep as <-. intros s Hs.
    destruct (inv_states _ _ Hinv g G st HG Hst) as [Hok _].
    destruct (action_shards g st GCing tasks h servers args s Hok Ht Hin Hs)
      as (Hr & En & _ & Hg & _); [by right|]. split; [done|]. rewrite En. intros x Hx Hne. congruence.
Qed.

(** ** The start *)

Lemma start_machine g s :
  0 ≤ s < NShards → stateMachine (StartServer MakePersister (-1) g) !! s = Some NewShard.
Proof.
  intros Hs%elem_of_zrange. revert s Hs. apply Forall_forall.
  assert (∀ s, stateMachine (StartServer MakePersister (-1) g) !! s =
               stateMachine (StartServer MakePersister (-1) 0) !! s) as E by done.
  eapply Forall_impl; [|intros s Hs; rewrite E; exact Hs]. by repeat constructor.
Qed.

Lemma start_lookup gids g G :
  start gids !! g = Some G →
  g ∈ gids ∧ G = mkGroup (StartServer MakePersister (-1) g) [] [] [].
Proof.
  intros H%elem_of_list_to_map_2. apply list_elem_of_fmap in H as (g' & [= -> ->] & Hin). done.
Qed.

Lemma groups_start_inv gids : 0 ∉ gids → inv (start gids) [].
Proof.
  intros H0. pose proof (history_head _ (proj1 Hctl)) as Hhead.
  assert (∀ s, 0 ≤ s < NShards → owner 0 s = Some 0) as Hown.
  { intros s Hs. rewrite (owner_lookup _ _ _ Hhead). simpl.
    destruct (proj2 (zlookup_is_Some zeroShards s)) as [x Hx]; [done|].
    by rewrite Hx, (zlookup_zero _ _ Hx). }
  assert (∀ m s h, taken (start gids) m s h → m ≤ 0) as Hearly.
  { intros m s h (G & [_ ->]%start_lookup & Hm). simpl in Hm. change (num _) with 0 in Hm. lia. }
  assert (∀ m s h, owner m s = Some h → 0 ≤ m) as Hpos.
  { intros m s h (c & ?%zlookup_bounds & _)%owner_inv. lia. }
  split.
  - intros g [G [Hin _]%start_lookup] ->. done.
  - intros g G st [_ ->]%start_lookup ->%list_elem_of_singleton. simpl. split; [|reflexivity].
    split; try done.
    + split; [|done]. intros s Hs. rewrite start_machine by done. by eexists.
    + intros s t Ht Hs. unfold status in Ht. rewrite start_machine in Ht by done. by injection Ht as <-.
  - intros m s g h _ ?%Hpos _ _ ?%Hearly. lia.
  - intros g G st [_ ->]%start_lookup ->%list_elem_of_singleton m s h ?%Hpos _ _ _ Hm.
    simpl in Hm. change (num _) with 0 in Hm. lia.
  - intros g G st [_ ->]%start_lookup ->%list_elem_of_singleton s sh h Hs Hsh Hst _.
    cbn [current] in Hsh. rewrite start_machine in Hsh by done. by injection Hsh as <-.
  - intros g G [Hin ->]%start_lookup s sh Hs Hsh.
    cbn [current] in Hsh. rewrite start_machine in Hsh by done. injection Hsh as <-. simpl.
    change (num _) with 0. rewrite (Hown s Hs). split; [|done]. by intros [= <-].
  - intros g G cmd [_ ->]%start_lookup. simpl. by intros ?%not_elem_of_nil.
  - by intros w ?%not_elem_of_nil.
Qed.

Lemma proposal_wf ss ws g kv cmd : proposal_ok ss ws g kv cmd → wf_command cmd.
Proof.
  destruct cmd as [?|c|info|info|]; simpl; try done.
  - intros [Hc _]. by destruct (config_ok _ _ Hc) as (_ & _ & ?).
  - intros Hp s [data Hd]. by destruct (Hp s data Hd).
  - intros Hp s Hs. by destruct (Hp s Hs).
Qed.

Lemma groups_inv gids ss ws : 0 ∉ gids → reachable gids ss ws → inv ss ws.
Proof.
  intros H0. induction 1 as [|ss ws ss' ws' Hr IH Hst]; [by apply groups_start_inv|].
  destruct Hst as [g G cmd HG Hp|g G cmd kv r HG Hcmd Hap].
  - apply propose_inv; try done. by apply proposes_ok.
  - pose proof (inv_proposed _ _ IH g G cmd HG Hcmd) as Hok.
    destruct (inv_states _ _ IH g G (current G) HG) as [Hso _]; [by left|].
    destruct (apply_command_ok (current G) cmd) as (kv' & r' & Hap' & ? & ? & ? & ?);
      [apply Hso|by eapply proposal_wf|].
    rewrite Hap in Hap'. injection Hap' as <- <-. by apply groups_step_inv.
Qed.

(** ** What the groups serve *)

Lemma serves_has ss ws g G s :
  inv ss ws → ss !! g = Some G → 0 ≤ s < NShards → canServe (current G) s = Ret true →
  has ss g s ∧ ∃ sh, stateMachine (current G) !! s = Some sh ∧
                     carries (KV sh) (lastOperations (current G)) ws s.
Proof.
  intros Hinv HG Hs Hcan. destruct (inv_states _ _ Hinv g G (current G) HG) as [Hok _]; [by left|].
  destruct (canServe_ok (current G) s (so_wf _ _ Hok) Hs) as (b & Hb & Hiff).
  rewrite Hb in Hcan. injection Hcan as ->. destruct Hiff as [[Ho Hst] _]; [done|].
  assert (owner (num (current G)) s = Some g) as Hown.
  { by rewrite (owner_lookup _ _ _ (so_current _ _ Hok)), Ho, (so_gid _ _ Hok). }
  split.
  - exists G. split_and!; try done. by destruct Hst as [-> | ->].
  - destruct (so_wf _ _ Hok) as (Hsm & _). destruct (Hsm s Hs) as [sh Hsh]. exists sh.
    split; [done|]. rewrite (status_lookup _ _ _ Hsh) in Hst.
    apply (inv_data _ _ Hinv g G HG s sh Hs Hsh); [done|]. destruct Hst; congruence.
Qed.

Lemma write_other (m : gmap string string) op key : ca_Key op ≠ key → write m op !! key = m !! key.
Proof. unfold write. intros. by destruct (ca_Op op); rewrite ?lookup_insert_ne. Qed.

Lemma write_same (m m' : gmap string string) op :
  m !! ca_Key op = m' !! ca_Key op → write m op !! ca_Key op = write m' op !! ca_Key op.
Proof. unfold write. intros E. destruct (ca_Op op); rewrite ?lookup_insert_eq; by rewrite ?E. Qed.

(** A key depends only on the writes to its shard. *)
Lemma store_shard ws key :
  store (shard_writes ws (key2shard key)) !! key = store ws !! key.
Proof.
  unfold store. induction ws as [|w ws IH] using rev_ind; [done|].
  rewrite shard_writes_app, !foldl_app, shard_writes_one. simpl.
  destruct (decide (ca_Key w = key)) as [<-|Hne].
  - rewrite decide_True by done. simpl. by apply write_same.
  - rewrite (write_other _ w key Hne). case_decide; simpl; [|done]. by rewrite write_other.
Qed.

End controlled.

(** ** The contracts *)

(** C13. Two groups never serve the same shard: if the configurations come from legal
    operations and some group stays once one has joined ([controlled]), then in every
    reachable state of the service, whatever configuration each group has come to, at
    most one group accepts operations on a shard. *)
Theorem shard_exclusive gids ss ws g h G H s :
  controlled → 0 ∉ gids → reachable gids ss ws →
  ss !! g = Some G → ss !! h = Some H → g ≠ h → 0 ≤ s < NShards →
  canServe (current G) s = Ret true → canServe (current H) s = Ret false.
Proof.
  intros Hctl H0 Hr HG HH Hne Hs Hcan. pose proof (groups_inv Hctl _ _ _ H0 Hr) as Hinv.
  destruct (inv_states _ _ Hinv h H (current H) HH) as [Hok _]; [by left|].
  destruct (canServe_ok (current H) s (so_wf _ _ Hok) Hs) as ([|] & Hb & _); [|done].
  destruct Hne. apply (has_exclusive Hctl ss ws g h s Hinv); by eapply serves_has.
Qed.

(** C12. The sharded service is one key/value store.  If the configurations come from legal
    operations and some group stays once one has joined ([controlled]), then in every
    reachable state, across reconfigurations and migrations, a group that applies a client operation either
    refuses it and changes nothing, or recognises a repeated write and executes
    nothing, or gives the answer of one map on which all the writes executed by all
    groups so far have been executed in order. *)
Theorem shardkv_refines_store gids ss ws g G op :
  controlled → 0 ∉ gids → reachable gids ss ws → ss !! g = Some G →
  ∃ kv r, apply_command (current G) (Operation op) = Ret (kv, r) ∧
    let new := executed (current G) (Operation op) in
    (r = mkCommandReply ErrWrongGroup "" ∧ kv = current G ∧ new = [] ∨
     ca_Op op ≠ Get ∧ isDuplicateRequest (current G) (ca_ClientId op) (ca_CommandId op) = true ∧
       kv = current G ∧ new = [] ∨
     r = answer (store ws) op ∧ new = (if is_get op then [] else [op])).
Proof.
  intros Hctl H0 Hr HG. pose proof (groups_inv Hctl _ _ _ H0 Hr) as Hinv.
  destruct (inv_states _ _ Hinv g G (current G) HG) as [Hok _]; [by left|]. cbn [apply_command].
  destruct (applyOperation_cases (current G) op (so_wf _ _ Hok))
    as [(-> & _ & ->)|[(r & -> & Hcan & -> & Hget & Hdup)|(kv & sh & Hsh & Hcan & -> & -> & _)]];
    do 2 eexists; (split; [done|]); cbv zeta.
  - by left.
  - right; left. unfold is_get in Hget. apply bool_decide_eq_false in Hget. done.
  - right; right. split; [|done].
    destruct (serves_has _ _ _ _ _ Hinv HG (key2shard_range _) Hcan) as (_ & sh' & Hsh' & [E _]).
    rewrite Hsh in Hsh'. injection Hsh' as <-. unfold answer.
    by rewrite E, store_shard.
Qed.

Lemma writes_ordered_step ss ws g G cmd w w' :
  controlled → inv ss ws → ss !! g = Some G → w ∈ ws → w' ∈ executed (current G) cmd →
  ca_ClientId w = ca_ClientId w' → key2shard (ca_Key w) = key2shard (ca_Key w') →
  ca_CommandId w < ca_CommandId w'.
Proof.
  intros Hctl Hinv HG Hw (_ & _ & _ & Hcan & Hlast)%executed_spec Hcl Hs.
  destruct (serves_has _ _ _ _ _ Hinv HG (key2shard_range _) Hcan) as (_ & sh & _ & [_ Hcov]).
  destruct (Hcov w) as (ctx & Hctx & Hle); [by apply list_elem_of_filter|].
  rewrite Hcl in Hctx. apply Hlast in Hctx. lia.
Qed.

(** C14. No write is executed twice, in one group or in two, if the configurations come
    from legal operations and some group stays once one has joined ([controlled]): the
    numbers of the writes of a client executed on a shard by any groups strictly
    increase. *)
Theorem shardkv_writes_once gids ss ws (i j : nat) w w' :
  controlled → 0 ∉ gids → reachable gids ss ws →
  ws !! i = Some w → ws !! j = Some w' → (i < j)%nat →
  ca_ClientId w = ca_ClientId w' → key2shard (ca_Key w) = key2shard (ca_Key w') →
  ca_CommandId w < ca_CommandId w'.
Proof.
  intros Hctl H0 Hr. revert i j w w'.
  induction Hr as [|ss ws ss' ws' Hr IH Hst]; intros i j w w' Hi Hj Hij Hcl Hs; [done|].
  pose proof (groups_inv Hctl _ _ _ H0 Hr) as Hinv.
  destruct Hst as [g G cmd HG Hp|g G cmd kv r HG Hcmd Hap]; [by eapply IH|].
  apply lookup_app_Some in Hj as [Hj|[Hge Hj]].
  - rewrite lookup_app_l in Hi; [by eapply IH|]. apply lookup_lt_Some in Hj. lia.
  - pose proof (list_elem_of_lookup_2 _ _ _ Hj) as Hin.
    pose proof (executed_spec _ _ _ Hin) as (_ & E & _). rewrite E in Hj.
    destruct (j - length ws)%nat eqn:Ej; [|done]. rewrite lookup_app_l in Hi by lia.
    eapply (writes_ordered_step ss ws g G cmd); try done. by eapply list_elem_of_lookup_2.
Qed.

End system.

(** ** A migration *)
Section migration_example.
#[local] Existing Instance range_default.
#[local] Existing Instance shard_gob.

Definition moved : list Config :=
  match Move joined 0 2 with Ret cf => cf | Panic => [] end.

Lemma moved_controlled : controlled moved.
Proof.
  split.
  - destruct (last joined) as [c|] eqn:Hlast; [|by vm_compute in Hlast].
    apply (history_op joined c (OpMove 0 2)); [|done| |by vm_compute].
    + apply (history_op NewMemoryConfigStateMachine DefaultConfig (OpJoin groups12));
        [apply history_new|done|split; by vm_compute|by vm_compute].
    + vm_compute in Hlast. injection Hlast as <-. split; [done|]. by eexists.
  - intros n c c' Hn Hn'. pose proof Hn' as Hb%zlookup_bounds. pose proof Hn as Hb'%zlookup_bounds.
    assert (len moved = 3) as E by (by vm_compute). rewrite E in *.
    assert (n = 0 ∨ n = 1) as [-> | ->] by lia.
    + clear Hn'. vm_compute in Hn. injection Hn as <-. intros []. reflexivity.
    + clear Hn. vm_compute in Hn'. injection Hn' as <-. intros _. discriminate.
Qed.

(** A command proposed and applied at once. *)
Definition perform (ss : gmap Z Group) (g : Z) (cmd : Command) : gmap Z Group :=
  match ss !! g with
  | None => ss
  | Some G =>
      match apply_command (current G) cmd with
      | Ret (kv, _) => <[g := mkGroup kv (states G) (cmd :: proposed G) (cmd :: applied G)]> ss
      | Panic => ss
      end
  end.

Definition group_of (ss : gmap Z Group) (g : Z) : Group :=
  default (mkGroup kv_new [] [] []) (ss !! g).

Definition state_of (ss : gmap Z Group) (g : Z) : ShardKV := current (group_of ss g).

Definition performs (ss : gmap Z Group) (g : Z) (cmd : Command) : bool :=
  match ss !! g with
  | None => false
  | Some G => match apply_command (current G) cmd with Ret _ => true | Panic => false end
  end.

Lemma perform_reachable cfgs gids ss ws g cmd :
  reachable cfgs gids ss ws → proposes cfgs ss g cmd → performs ss g cmd = true →
  reachable cfgs gids (perform ss g cmd) (ws ++ executed (state_of ss g) cmd).
Proof.
  intros Hr Hp. unfold performs, perform, state_of, group_of.
  destruct (ss !! g) as [G|] eqn:HG; [|done]. simpl.
  destruct (apply_command (current G) cmd) as [[kv r]|] eqn:Hap; [|done]. intros _.
  rewrite <-(insert_insert_eq ss g _ (propose G cmd)).
  eapply reach_step; [eapply reach_step; [done|by eapply step_propose]|].
  apply (step_apply _ _ _ g (propose G cmd) cmd kv r); [by rewrite lookup_insert_eq|by left|done].
Qed.

Definition put_op : CommandArgs := mkCommandArgs "P" "v" Put 7 1.

(** Group 1 takes the first configuration and a write; both groups take the second;
    group 2 pulls the shard. *)
Definition cmd1 : Command := Configuration (query moved 2 1).
Definition cmd2 : Command := Configuration (query moved 3 2).

Definition ss0 : gmap Z Group := start [1; 2].
Definition ss1 : gmap Z Group := perform ss0 1 cmd1.
Definition ss2 : gmap Z Group := perform ss1 1 (Operation put_op).
Definition ss3 : gmap Z Group := perform ss2 1 cmd2.
Definition ss4 : gmap Z Group := perform ss3 2 cmd1.
Definition ss5 : gmap Z Group := perform ss4 2 cmd2.

Definition pull_args : ShardOperationArgs := mkShardOperationArgs 2 [0].
Definition pulled : ShardOperationReply :=
  match GetShardsData (state_of ss5 1) true pull_args with
  | Ret reply => reply
  | Panic => mkShardOperationReply ErrNotReady 0 ∅ ∅
  end.

Definition ss6 : gmap Z Group := perform ss5 2 (InsertShards pulled).

Ltac ret := vm_compute; reflexivity.

Lemma config_step_reachable cfgs ss ws g k c :
  ss !! g = Some (group_of ss g) →
  configurationAction (state_of ss g) (query cfgs k) = Some (Configuration c) →
  performs ss g (Configuration c) = true →
  reachable cfgs [1; 2] ss ws → reachable cfgs [1; 2] (perform ss g (Configuration c)) ws.
Proof.
  intros HG Hact Hp Hr. rewrite <-(app_nil_r ws).
  apply (perform_reachable cfgs [1; 2] ss ws g (Configuration c)); try done.
  eapply (propose_config _ _ g (group_of ss g)); [done|by left|done].
Qed.

Lemma ss2_reachable : reachable moved [1; 2] ss2 [put_op].
Proof.
  assert (reachable moved [1; 2] ss1 []) as H1.
  { apply (config_step_reachable moved ss0 [] 1 2); [ret..|apply reach_start]. }
  assert (executed (state_of ss1 1) (Operation put_op) = [put_op]) as E by ret.
  change [put_op] with ([] ++ [put_op]). rewrite <-E. apply perform_reachable; [done| |ret].
  apply (propose_client _ _ 1 (group_of ss1 1) (state_of ss1 1)); [ret|by left|ret].
Qed.

Lemma ss6_reachable : reachable moved [1; 2] ss6 [put_op].
Proof.
  assert (reachable moved [1; 2] ss3 [put_op]) as H3.
  { apply (config_step_reachable moved ss2 _ 1 3); [ret..|apply ss2_reachable]. }
  assert (reachable moved [1; 2] ss4 [put_op]) as H4.
  { apply (config_step_reachable moved ss3 _ 2 2); [ret..|done]. }
  assert (reachable moved [1; 2] ss5 [put_op]) as H5.
  { apply (config_step_reachable moved ss4 _ 2 3); [ret..|done]. }
  rewrite <-(app_nil_r [put_op]).
  apply (perform_reachable moved [1; 2] ss5 _ 2 (InsertShards pulled)); [done| |ret].
  eapply (propose_insert _ _ 2 (group_of ss5 2) (state_of ss5 2) 1 (group_of ss5 1) (state_of ss5 1)
           _ ["a"%string] pull_args pulled); [ret|by left|ret|by left|ret|by left|ret|ret].
Qed.

Lemma shard_exclusive_witness :
  canServe (state_of ss6 2) 0 = Ret true ∧ canServe (state_of ss6 1) 0 = Ret false.
Proof.
  split; [ret|].
  apply (shard_exclusive moved [1; 2] ss6 [put_op] 2 1 (group_of ss6 2) (group_of ss6 1) 0).
  - exact moved_controlled.
  - apply (bool_decide_unpack _). by vm_compute.
  - exact ss6_reachable.
  - ret.
  - ret.
  - done.
  - by vm_compute.
  - ret.
Defined.

(** After the migration, group 2 answers with what group 1 wrote. *)
Lemma shardkv_refines_store_witness :
  ∃ kv, apply_command (state_of ss6 2) (Operation (mkCommandArgs "P" "" Get 7 2)) =
          Ret (kv, mkCommandReply OK "v").
Proof.
  destruct (shardkv_refines_store moved [1; 2] ss6 [put_op] 2 (group_of ss6 2)
             (mkCommandArgs "P" "" Get 7 2)) as (kv & r & H & Hcase).
  - exact moved_controlled.
  - apply (bool_decide_unpack _). by vm_compute.
  - exact ss6_reachable.
  - ret.
  - exists kv. unfold state_of. rewrite H. f_equal. f_equal.
    destruct Hcase as [(Er & _)|[(Hop & _)|(Er & _)]].
    + exfalso. subst r. vm_compute in H. discriminate.
    + by destruct Hop.
    + rewrite Er. ret.
Defined.

(** Another write of the client, at group 2. *)
Definition put_op2 : CommandArgs := mkCommandArgs "P" "w" Put 7 2.

Lemma shardkv_writes_once_witness :
  ∃ ss, reachable moved [1; 2] ss [put_op; put_op2] ∧ ca_CommandId put_op < ca_CommandId put_op2.
Proof.
  exists (perform ss6 2 (Operation put_op2)).
  assert (reachable moved [1; 2] (perform ss6 2 (Operation put_op2)) [put_op; put_op2]) as Hr.
  { assert (executed (state_of ss6 2) (Operation put_op2) = [put_op2]) as E by ret.
    change [put_op; put_op2] with ([put_op] ++ [put_op2]). rewrite <-E.
    apply perform_reachable; [apply ss6_reachable| |ret].
    apply (propose_client _ _ 2 (group_of ss6 2) (state_of ss6 2)); [ret|by left|ret]. }
  split; [exact Hr|].
  apply (shardkv_writes_once moved [1; 2] (perform ss6 2 (Operation put_op2)) [put_op; put_op2] 0 1).
  - exact moved_controlled.
  - apply (bool_decide_unpack _). by vm_compute.
  - exact Hr.
  - reflexivity.
  - reflexivity.
  - lia.
  - reflexivity.
  - reflexivity.
Defined.

(** ** All groups leave *)

(** Group 1 joins and leaves, then group 2 joins. *)
Definition abandoned : list Config :=
  match Join NewMemoryConfigStateMachine {[ 1 := ["a"%string] ]} with
  | Some (Ret cf) =>
      match Leave cf [1] with
      | Ret cf => match Join cf {[ 2 := ["b"%string] ]} with Some (Ret cf) => cf | _ => [] end
      | Panic => []
      end
  | _ => []
  end.

Definition sa1 : gmap Z Group := perform ss0 1 (Configuration (query abandoned 4 1)).
Definition sa2 : gmap Z Group := perform sa1 1 (Operation put_op).
Definition sa3 : gmap Z Group := perform sa2 2 (Configuration (query abandoned 4 1)).
Definition sa4 : gmap Z Group := perform sa3 2 (Configuration (query abandoned 4 2)).
Definition sa5 : gmap Z Group := perform sa4 2 (Configuration (query abandoned 4 3)).

(** C38. A shard released to no group is not handed over: when all groups leave and
    another one joins, the new group serves the shard at once, empty, while the old
    one may still serve it, and answers that a written key does not exist. *)
Theorem abandoned_shard_lost :
  reachable abandoned [1; 2] sa5 [put_op] ∧
  canServe (state_of sa5 1) 0 = Ret true ∧ canServe (state_of sa5 2) 0 = Ret true ∧
  ∃ kv, apply_command (state_of sa5 2) (Operation (mkCommandArgs "P" "" Get 7 2)) =
          Ret (kv, mkCommandReply ErrNoKey "").
Proof.
  split; [|split; [ret|split; [ret|eexists; ret]]].
  assert (reachable abandoned [1; 2] sa1 []) as H1.
  { apply (config_step_reachable abandoned ss0 [] 1 4); [ret..|apply reach_start]. }
  assert (reachable abandoned [1; 2] sa2 [put_op]) as H2.
  { assert (executed (state_of sa1 1) (Operation put_op) = [put_op]) as E by ret.
    change [put_op] with ([] ++ [put_op]). rewrite <-E. apply perform_reachable; [done| |ret].
    apply (propose_client _ _ 1 (group_of sa1 1) (state_of sa1 1)); [ret|by left|ret]. }
  apply (config_step_reachable abandoned sa4 _ 2 4); [ret..|].
  apply (config_step_reachable abandoned sa3 _ 2 4); [ret..|].
  apply (config_step_reachable abandoned sa2 _ 2 4); [ret..|done].
Qed.
End migration_example.
