(* ===== verification/KvSrv.v ===== *)
(** * kvsrv: the single key/value server

    Models [src/src/kvsrv/server.go], [client.go] and [common.go].  The server
    executes a [Put] or an [Append] of a clerk only when its [Count] is the next one;
    a clerk sends a request until an answer comes and counts its requests.  The
    network may lose, delay and repeat requests and answers: a request once sent can
    be delivered any number of times, and any answer to it can be the one that
    arrives.  Counters are unbounded integers. *)
From S2P Require Import Prelude.

(** ** common.go *)

Record PutAppendArgs := mkPutAppendArgs { Key : string; Value : string; ClerkId : Z; Count : Z }.
Record PutAppendReply := mkPutAppendReply { pr_Value : string; Vaild_op : bool }.
Record GetArgs := mkGetArgs { ga_Key : string; ga_ClerkId : Z }.
Record GetReply := mkGetReply { gr_Value : string }.

(** ** server.go *)

Definition IdCount : Type := Z * Z.

Record KVServer := mkKVServer {
  clerkId_count : gmap Z Z;
  map_ : gmap string string;
  opReply : gmap IdCount string;
}.

Definition StartKVServer : KVServer := mkKVServer ∅ ∅ ∅.

(** [m[key]] of a map of strings: the empty string where there is no entry. *)
Definition sget `{Countable K} (m : gmap K string) (k : K) : string := default ""%string (m !! k).

Definition Get (kv : KVServer) (args : GetArgs) : GetReply :=
  match map_ kv !! ga_Key args with
  | None => mkGetReply ""
  | Some val => mkGetReply val
  end.

(** The check at the start of [Put] and [Append]: the table, in which a new clerk is
    entered, and the expected count. *)
Definition except_count (kv : KVServer) (args : PutAppendArgs) : gmap Z Z * Z :=
  match clerkId_count kv !! ClerkId args with
  | None => (<[ClerkId args := 0]> (clerkId_count kv), 0)
  | Some now_count => (clerkId_count kv, now_count + 1)
  end.

Definition Put (kv : KVServer) (args : PutAppendArgs) : KVServer * PutAppendReply :=
  let '(counts, except) := except_count kv args in
  if negb (Count args =? except) then
    (mkKVServer counts (map_ kv) (opReply kv), mkPutAppendReply (sget (map_ kv) (Key args)) false)
  else
    (mkKVServer (<[ClerkId args := except]> counts) (<[Key args := Value args]> (map_ kv)) (opReply kv),
     mkPutAppendReply "" true).

Definition Append (kv : KVServer) (args : PutAppendArgs) : KVServer * PutAppendReply :=
  let '(counts, except) := except_count kv args in
  if negb (Count args =? except) then
    (mkKVServer counts (map_ kv) (opReply kv),
     mkPutAppendReply (sget (opReply kv) (ClerkId args, Count args)) false)
  else
    let value := sget (map_ kv) (Key args) in
    let replies := <[(ClerkId args, Count args) := value]> (opReply kv) in
    (mkKVServer (<[ClerkId args := except]> counts) (<[Key args := value +:+ Value args]> (map_ kv))
       (delete (ClerkId args, Count args - 1) replies),
     mkPutAppendReply value true).

(** ** client.go *)

Inductive Method := MPut | MAppend.

#[export] Instance Method_eq_dec : EqDecision Method.
Proof. solve_decision. Defined.

Record Clerk := mkClerk { clerkId : Z; count : Z }.

Definition MakeClerk (nrand : Z) : Clerk := mkClerk nrand 0.

Definition Clerk_Get_args (ck : Clerk) (key : string) : GetArgs := mkGetArgs key (clerkId ck).

(** [PutAppend] up to the first call, and after an answer has come. *)
Definition PutAppend_args (ck : Clerk) (key value : string) : PutAppendArgs :=
  mkPutAppendArgs key value (clerkId ck) (count ck).
Definition PutAppend_return (ck : Clerk) (reply : PutAppendReply) : Clerk * string :=
  (mkClerk (clerkId ck) (count ck + 1), pr_Value reply).

(** What the caller of [Put] and of [Append] gets. *)
Definition Clerk_result (m : Method) (value : string) : string :=
  match m with MPut => "" | MAppend => value end.

Definition Request : Type := Method * PutAppendArgs.

(** The dispatch of ["KVServer."+op]. *)
Definition serve (kv : KVServer) (req : Request) : KVServer * PutAppendReply :=
  match req.1 with MPut => Put kv req.2 | MAppend => Append kv req.2 end.

(** ** The clerks, the network and the server *)

(** The operations a clerk has completed, with what it returned, and the one it is
    in.  [executed] lists the requests the server has executed, with the results. *)
Record ClerkState := mkClerkState {
  ck : Clerk;
  completed : list (Request * string);
  pending : option Request;
}.

Record System := mkSystem {
  server : KVServer;
  clerks : gmap Z ClerkState;
  requests : list Request;
  replies : list (Request * PutAppendReply);
  executed : list (Request * string);
}.

Definition valid_result (req : Request) (reply : PutAppendReply) : list (Request * string) :=
  if Vaild_op reply then [(req, Clerk_result req.1 (pr_Value reply))] else [].

Inductive step (s : System) : System → Prop :=
| step_make c :
    clerks s !! c = None →
    step s (mkSystem (server s) (<[c := mkClerkState (MakeClerk c) [] None]> (clerks s))
              (requests s) (replies s) (executed s))
| step_call c cs m key value :
    clerks s !! c = Some cs → pending cs = None →
    let req := (m, PutAppend_args (ck cs) key value) in
    step s (mkSystem (server s) (<[c := mkClerkState (ck cs) (completed cs) (Some req)]> (clerks s))
              (req :: requests s) (replies s) (executed s))
| step_deliver req kv reply :
    req ∈ requests s → serve (server s) req = (kv, reply) →
    step s (mkSystem kv (clerks s) (requests s) ((req, reply) :: replies s)
              (executed s ++ valid_result req reply))
| step_return c cs req reply ck' v :
    clerks s !! c = Some cs → pending cs = Some req → (req, reply) ∈ replies s →
    PutAppend_return (ck cs) reply = (ck', v) →
    step s (mkSystem (server s)
              (<[c := mkClerkState ck' (completed cs ++ [(req, Clerk_result req.1 v)]) None]> (clerks s))
              (requests s) (replies s) (executed s)).

Definition start : System := mkSystem StartKVServer ∅ [] [] [].

Inductive reachable : System → Prop :=
| reach_start : reachable start
| reach_step s s' : reachable s → step s s' → reachable s'.

(** ** The specification: one map *)

Definition write (m : gmap string string) (req : Request) : gmap string string :=
  match req.1 with
  | MPut => <[Key req.2 := Value req.2]> m
  | MAppend => <[Key req.2 := sget m (Key req.2) +:+ Value req.2]> m
  end.

Definition store (reqs : list Request) : gmap string string := foldl write ∅ reqs.

(** What a request returns when it is executed on the map. *)
Definition answer (m : gmap string string) (req : Request) : string :=
  match req.1 with MPut => "" | MAppend => sget m (Key req.2) end.

Fixpoint answers (m : gmap string string) (reqs : list Request) : list (Request * string) :=
  match reqs with
  | [] => []
  | req :: reqs => (req, answer m req) :: answers (write m req) reqs
  end.

Definition of_clerk (c : Z) (l : list (Request * string)) : list (Request * string) :=
  filter (λ p, ClerkId p.1.2 = c) l.

(** ** The invariant *)

Definition waiting (cs : ClerkState) : list Request :=
  match pending cs with Some req => [req] | None => [] end.

(** A clerk has issued its requests in order; the server has executed them up to the
    number it keeps, which is the last one completed or the one the clerk is in. *)
Record clerk_ok (s : System) (c : Z) (cs : ClerkState) : Prop := {
  co_id : clerkId (ck cs) = c;
  co_count : count (ck cs) = len (completed cs);
  co_issued (i : nat) req : ((completed cs).*1 ++ waiting cs) !! i = Some req →
    ClerkId req.2 = c ∧ Count req.2 = Z.of_nat i;
  co_executed : of_clerk c (executed s) = completed cs ∨
    ∃ req v, pending cs = Some req ∧ of_clerk c (executed s) = completed cs ++ [(req, v)];
  co_last : clerkId_count (server s) !! c =
    match of_clerk c (executed s) with [] => None | l => Some (len l - 1) end;
  co_reply req v : last (of_clerk c (executed s)) = Some (req, v) →
    match req.1 with
    | MPut => v = ""%string
    | MAppend => opReply (server s) !! (c, Count req.2) = Some v
    end;
}.

Record inv (s : System) : Prop := {
  inv_clerk c cs : clerks s !! c = Some cs → clerk_ok s c cs;
  inv_request req : req ∈ requests s → ∃ cs, clerks s !! ClerkId req.2 = Some cs ∧
    req ∈ (completed cs).*1 ++ waiting cs;
  inv_reply req reply cs : (req, reply) ∈ replies s → clerks s !! ClerkId req.2 = Some cs →
    pending cs = Some req →
    (req, Clerk_result req.1 (pr_Value reply)) ∈ of_clerk (ClerkId req.2) (executed s);
  inv_replied req reply : (req, reply) ∈ replies s → req ∈ requests s;
  inv_map : map_ (server s) = store (executed s).*1;
  inv_answers : executed s = answers ∅ (executed s).*1;
  inv_none c : clerks s !! c = None →
    of_clerk c (executed s) = [] ∧ clerkId_count (server s) !! c = None;
}.

Lemma of_clerk_app c l k : of_clerk c (l ++ k) = of_clerk c l ++ of_clerk c k.
Proof. apply filter_app. Qed.

Lemma of_clerk_one c req v :
  of_clerk c [(req, v)] = if decide (ClerkId req.2 = c) then [(req, v)] else [].
Proof. unfold of_clerk. by rewrite filter_cons. Qed.

Lemma answers_app m reqs req :
  answers m (reqs ++ [req]) = answers m reqs ++ [(req, answer (foldl write m reqs) req)].
Proof. revert m. induction reqs as [|r reqs IH]; intros m; simpl; [done|]. by rewrite IH. Qed.

(** The server expects the number of the requests it has executed for the clerk. *)
Lemma except_count_ok s c cs args :
  clerk_ok s c cs → ClerkId args = c →
  (except_count (server s) args).2 = len (of_clerk c (executed s)) ∧
  (of_clerk c (executed s) ≠ [] → (except_count (server s) args).1 = clerkId_count (server s)).
Proof.
  intros Hok <-. unfold except_count. rewrite (co_last _ _ _ Hok).
  destruct (of_clerk _ _) as [|p l] eqn:E; simpl; [done|]. split; [lia|done].
Qed.

(** A request executed: what the server becomes and what it answers. *)
Lemma serve_executes kv req counts :
  except_count kv req.2 = (counts, Count req.2) →
  ∃ kv' reply, serve kv req = (kv', reply) ∧ Vaild_op reply = true ∧
    map_ kv' = write (map_ kv) req ∧
    Clerk_result req.1 (pr_Value reply) = answer (map_ kv) req ∧
    clerkId_count kv' = <[ClerkId req.2 := Count req.2]> counts ∧
    match req.1 with
    | MPut => opReply kv' = opReply kv
    | MAppend => opReply kv' = delete (ClerkId req.2, Count req.2 - 1)
        (<[(ClerkId req.2, Count req.2) := sget (map_ kv) (Key req.2)]> (opReply kv))
    end.
Proof.
  intros E. unfold serve, Put, Append, write, answer. rewrite E, Z.eqb_refl.
  destruct req as [[] args]; simpl; (do 2 eexists; split; [done|]); simpl; by split_and!.
Qed.

(** A repeated request. *)
Lemma serve_repeats kv req counts except :
  except_count kv req.2 = (counts, except) → Count req.2 ≠ except →
  ∃ reply, serve kv req = (mkKVServer counts (map_ kv) (opReply kv), reply) ∧ Vaild_op reply = false ∧
    (req.1 = MAppend → pr_Value reply = sget (opReply kv) (ClerkId req.2, Count req.2)).
Proof.
  intros E Hne. unfold serve, Put, Append. rewrite E. rewrite (proj2 (Z.eqb_neq _ _)) by done.
  destruct req as [[] args]; simpl; (eexists; split; [done|]); by split.
Qed.

(** The request of a clerk with a given number. *)
Lemma issued_index s c cs (req : Request) :
  clerk_ok s c cs → req ∈ (completed cs).*1 ++ waiting cs →
  ClerkId req.2 = c ∧
  (Count req.2 < len (completed cs) ∧ pending cs ≠ Some req ∨
   Count req.2 = len (completed cs) ∧ pending cs = Some req).
Proof.
  intros Hok [i Hi]%list_elem_of_lookup. destruct (co_issued _ _ _ Hok i req Hi) as [Hc Hn].
  split; [done|]. unfold len. destruct (decide (i < length (completed cs))%nat) as [Hlt|Hge].
  - left. split; [lia|]. intros Hp.
    destruct (co_issued _ _ _ Hok (length (completed cs)) req) as [_ Hn'].
    + rewrite lookup_app_r by (by rewrite length_fmap). rewrite length_fmap, Nat.sub_diag.
      unfold waiting. by rewrite Hp.
    + lia.
  - right. rewrite lookup_app_r in Hi by (rewrite length_fmap; lia).
    unfold waiting in Hi. destruct (pending cs) as [req'|]; [|done].
    rewrite length_fmap in Hi. destruct (i - length (completed cs))%nat eqn:Ei; [|done].
    simpl in Hi. injection Hi as ->. split; [lia|done].
Qed.

Lemma executed_len s c cs :
  clerk_ok s c cs →
  len (of_clerk c (executed s)) = len (completed cs) ∧ of_clerk c (executed s) = completed cs ∨
  ∃ req v, pending cs = Some req ∧ of_clerk c (executed s) = completed cs ++ [(req, v)] ∧
    len (of_clerk c (executed s)) = len (completed cs) + 1.
Proof.
  intros Hok. destruct (co_executed _ _ _ Hok) as [E|(req & v & Hp & E)].
  - left. by rewrite E.
  - right. exists req, v. split_and!; try done. rewrite E, len_app. done.
Qed.

Lemma clerk_ok_ext s s' c cs :
  of_clerk c (executed s') = of_clerk c (executed s) →
  clerkId_count (server s') !! c = clerkId_count (server s) !! c →
  (∀ k, opReply (server s') !! (c, k) = opReply (server s) !! (c, k)) →
  clerk_ok s c cs → clerk_ok s' c cs.
Proof.
  intros E Hc Ho [? ? ? ? ? Hr]. split; rewrite ?E, ?Hc; try done.
  intros req v Hl. specialize (Hr req v Hl). destruct (req.1); [done|]. by rewrite Ho.
Qed.

Lemma make_inv s c :
  inv s → clerks s !! c = None →
  inv (mkSystem (server s) (<[c := mkClerkState (MakeClerk c) [] None]> (clerks s))
         (requests s) (replies s) (executed s)).
Proof.
  intros Hinv Hc. destruct (inv_none _ Hinv c Hc) as [He Hn].
  split; simpl; try apply Hinv.
  - intros c' cs [[<- <-]|[_ Hcs]]%lookup_insert_Some.
    + split; simpl; rewrite ?He; try done. by left.
    + by eapply clerk_ok_ext; [..|by apply Hinv].
  - intros req (cs & Hcs & Hin)%(inv_request _ Hinv). exists cs. split; [|done].
    rewrite lookup_insert_ne; [done|congruence].
  - intros req reply cs Hin [[E <-]|[_ Hcs]]%lookup_insert_Some Hp; [done|].
    by eapply (inv_reply _ Hinv).
  - intros c' [Hc' _]%lookup_insert_None. by apply (inv_none _ Hinv).
Qed.

Lemma call_inv s c cs m key value :
  inv s → clerks s !! c = Some cs → pending cs = None →
  let req := (m, PutAppend_args (ck cs) key value) in
  inv (mkSystem (server s) (<[c := mkClerkState (ck cs) (completed cs) (Some req)]> (clerks s))
         (req :: requests s) (replies s) (executed s)).
Proof.
  intros Hinv Hcs Hp req. pose proof (inv_clerk _ Hinv c cs Hcs) as Hok.
  assert (ClerkId req.2 = c) as Hid by (apply Hok).
  split; simpl; try apply Hinv.
  - intros c' cs' [[<- <-]|[_ Hcs']]%lookup_insert_Some.
    + destruct Hok as [? Hn Hiss Hex ? ?]. split; simpl; try done.
      * intros i r. unfold waiting in *. rewrite Hp, app_nil_r in Hiss. simpl.
        intros [Hi|[Hge Hi]]%lookup_app_Some; [by apply Hiss|].
        rewrite length_fmap in *. destruct (i - length (completed cs))%nat eqn:Ei; [|done].
        injection Hi as <-. split; [done|]. simpl. rewrite Hn. unfold len. lia.
      * destruct Hex as [?|(r & v & ? & _)]; [by left|congruence].
    + by eapply clerk_ok_ext; [..|by apply Hinv].
  - intros r [->|Hr]%elem_of_cons.
    + rewrite Hid. eexists. rewrite lookup_insert_eq. split; [done|]. set_solver.
    + apply (inv_request _ Hinv) in Hr as (cs' & Hcs' & Hin).
      destruct (decide (c = ClerkId r.2)) as [E|E].
      * rewrite <-E in *. simplify_eq. eexists. rewrite lookup_insert_eq. split; [done|].
        unfold waiting in Hin. rewrite Hp, app_nil_r in Hin. set_solver.
      * exists cs'. by rewrite lookup_insert_ne.
  - intros r reply cs' Hin [[E <-]|[_ Hcs']]%lookup_insert_Some Hp'; [|by eapply (inv_reply _ Hinv)].
    simpl in Hp'. injection Hp' as <-.
    apply (inv_replied _ Hinv), (inv_request _ Hinv) in Hin as (cs2 & Hcs2 & Hin).
    rewrite Hid, Hcs in Hcs2. injection Hcs2 as <-.
    destruct (issued_index s c cs req Hok Hin) as [_ [[Hlt _]|[_ ?]]]; [|congruence].
    simpl in Hlt. rewrite (co_count _ _ _ Hok) in Hlt. lia.
  - intros r reply Hin%(inv_replied _ Hinv). by right.
  - intros c' [Hc' _]%lookup_insert_None. by apply (inv_none _ Hinv).
Qed.

Lemma return_inv s c cs req reply ck' v :
  inv s → clerks s !! c = Some cs → pending cs = Some req → (req, reply) ∈ replies s →
  PutAppend_return (ck cs) reply = (ck', v) →
  inv (mkSystem (server s)
         (<[c := mkClerkState ck' (completed cs ++ [(req, Clerk_result req.1 v)]) None]> (clerks s))
         (requests s) (replies s) (executed s)).
Proof.
  intros Hinv Hcs Hp Hrep Hret. injection Hret as <- <-.
  pose proof (inv_clerk _ Hinv c cs Hcs) as Hok.
  assert (req ∈ (completed cs).*1 ++ waiting cs) as Hissued.
  { unfold waiting. rewrite Hp. set_solver. }
  destruct (issued_index _ _ _ _ Hok Hissued) as [Hid _].
  assert (of_clerk c (executed s) = completed cs ++ [(req, Clerk_result req.1 (pr_Value reply))]) as Hex.
  { pose proof (inv_reply _ Hinv req reply cs Hrep) as Hin. rewrite Hid in Hin.
    specialize (Hin Hcs Hp).
    assert ((req, Clerk_result req.1 (pr_Value reply)) ∉ completed cs) as Hnot.
    { intros Hc. assert (req ∈ (completed cs).*1) as [i Hi]%list_elem_of_lookup
        by (apply list_elem_of_fmap; by exists (req, Clerk_result req.1 (pr_Value reply))).
      destruct (co_issued _ _ _ Hok i req) as [_ Hn]; [by apply lookup_app_l_Some|].
      destruct (co_issued _ _ _ Hok (length (completed cs)) req) as [_ Hn'].
      - rewrite lookup_app_r by (by rewrite length_fmap). rewrite length_fmap, Nat.sub_diag.
        unfold waiting. by rewrite Hp.
      - apply lookup_lt_Some in Hi. rewrite length_fmap in Hi. lia. }
    destruct (co_executed _ _ _ Hok) as [E|(r & v & Hp' & E)]; rewrite E in Hin; [done|].
    apply elem_of_app in Hin as [Hin|Hin%list_elem_of_singleton]; [done|]. rewrite E.
    by injection Hin as -> ->. }
  split; simpl; try apply Hinv.
  - intros c' cs' [[<- <-]|[_ Hcs']]%lookup_insert_Some.
    + pose proof Hok as [Hi Hn Hiss _ Hl Hr]. split; simpl; try done.
      * rewrite len_app, Hn. done.
      * intros i r. unfold waiting in *. rewrite Hp in Hiss. simpl.
        rewrite fmap_app, app_nil_r. simpl. apply Hiss.
      * by left.
    + by eapply clerk_ok_ext; [..|by apply Hinv].
  - intros r (cs2 & Hcs2 & Hin)%(inv_request _ Hinv).
    destruct (decide (c = ClerkId r.2)) as [E|E].
    + rewrite <-E in *. simplify_eq. eexists. rewrite lookup_insert_eq. split; [done|]. simpl.
      unfold waiting in *. simpl. rewrite Hp in Hin. rewrite fmap_app. simpl. by rewrite app_nil_r.
    + exists cs2. by rewrite lookup_insert_ne.
  - intros r rep cs2 Hin [[E <-]|[_ Hcs2]]%lookup_insert_Some Hp2; [done|]. by eapply (inv_reply _ Hinv).
  - intros c' [Hc' _]%lookup_insert_None. by apply (inv_none _ Hinv).
Qed.

(** A delivery executes the request exactly when it is the next one of its clerk,
    and then it is the one the clerk is waiting for. *)
Lemma deliver_cases s req cs :
  inv s → clerks s !! ClerkId req.2 = Some cs → req ∈ (completed cs).*1 ++ waiting cs →
  let E := of_clerk (ClerkId req.2) (executed s) in
  (Count req.2 = len E ∧ pending cs = Some req ∧ E = completed cs) ∨
  (Count req.2 < len E ∧ ∀ r v, pending cs = Some req → last E = Some (r, v) → r = req).
Proof.
  intros Hinv Hcs Hin E. pose proof (inv_clerk _ Hinv _ _ Hcs) as Hok.
  destruct (issued_index _ _ _ _ Hok Hin) as [_ Hidx].
  destruct (executed_len _ _ _ Hok) as [[Hl HE]|(r & v & Hp & HE & Hl)]; fold E in HE, Hl.
  - destruct Hidx as [[Hlt Hnp]|[Heq Hp]].
    + right. split; [lia|]. intros r v Hp. by destruct Hnp.
    + left. split_and!; [lia|done..].
  - right. split; [lia|]. intros r' v' Hp' Hlast. rewrite HE, last_snoc in Hlast.
    injection Hlast as <- <-. rewrite Hp in Hp'. by injection Hp' as ->.
Qed.

(** Only the clerk of the request is concerned. *)
Lemma deliver_others s s' req v c cs :
  c ≠ ClerkId req.2 → clerk_ok s c cs → executed s' = executed s ++ [(req, v)] →
  clerkId_count (server s') !! c = clerkId_count (server s) !! c →
  (∀ k, opReply (server s') !! (c, k) = opReply (server s) !! (c, k)) →
  clerk_ok s' c cs.
Proof.
  intros Hne Hok E Hc Ho. eapply clerk_ok_ext; [|done..].
  rewrite E, of_clerk_app, of_clerk_one, decide_False by done. apply app_nil_r.
Qed.

Lemma deliver_repeat_inv s req cs counts except reply :
  inv s → req ∈ requests s → clerks s !! ClerkId req.2 = Some cs →
  Count req.2 < len (of_clerk (ClerkId req.2) (executed s)) →
  (∀ r v, pending cs = Some req → last (of_clerk (ClerkId req.2) (executed s)) = Some (r, v) → r = req) →
  except_count (server s) req.2 = (counts, except) →
  (req.1 = MAppend → pr_Value reply = sget (opReply (server s)) (ClerkId req.2, Count req.2)) →
  inv (mkSystem (mkKVServer counts (map_ (server s)) (opReply (server s))) (clerks s) (requests s)
         ((req, reply) :: replies s) (executed s)).
Proof.
  intros Hinv Hreq Hcs Hlt Hlast Hexc Hval. pose proof (inv_clerk _ Hinv _ _ Hcs) as Hok.
  destruct (except_count_ok s _ cs req.2 Hok) as [_ Hsame]; [done|].
  assert (of_clerk (ClerkId req.2) (executed s) ≠ []) as Hne.
  { intros E. rewrite E in Hlt. destruct (inv_request _ Hinv req Hreq) as (cs' & Hcs' & Hin).
    rewrite Hcs in Hcs'. injection Hcs' as <-.
    apply list_elem_of_lookup in Hin as [i Hi]. apply (co_issued _ _ _ Hok) in Hi as [_ Hi].
    unfold len in Hlt. simpl in Hlt. lia. }
  rewrite Hexc in Hsame. simpl in Hsame. rewrite (Hsame Hne).
  destruct s as [[cc mm op] cl rq rp ex]; simpl in *. split; simpl; try apply Hinv.
  - intros c' cs' Hcs'. by eapply clerk_ok_ext; [..|apply (inv_clerk _ Hinv c' cs' Hcs')].
  - intros r rep cs' [E|Hin]%elem_of_cons Hcs' Hp; [|by eapply (inv_reply _ Hinv)].
    injection E as -> ->. rewrite Hcs in Hcs'. injection Hcs' as <-.
    destruct (last (of_clerk (ClerkId req.2) ex)) as [[r v]|] eqn:El; [|by apply last_None in El].
    rewrite (Hlast r v) in El by done. pose proof (co_reply _ _ _ Hok req v El) as Hr. simpl in Hr.
    assert (Clerk_result req.1 (pr_Value reply) = v) as ->; [|by apply last_Some_elem_of].
    destruct (req.1); simpl; [done|]. rewrite Hval by done.
    exact (f_equal (default ""%string) Hr).
  - intros r rep [E|Hin]%elem_of_cons; [by injection E as -> ->|by eapply (inv_replied _ Hinv)].
Qed.

Lemma deliver_execute_inv s req cs counts kv reply :
  inv s → req ∈ requests s → clerks s !! ClerkId req.2 = Some cs →
  Count req.2 = len (of_clerk (ClerkId req.2) (executed s)) → pending cs = Some req →
  of_clerk (ClerkId req.2) (executed s) = completed cs →
  except_count (server s) req.2 = (counts, Count req.2) →
  serve (server s) req = (kv, reply) →
  inv (mkSystem kv (clerks s) (requests s) ((req, reply) :: replies s)
         (executed s ++ valid_result req reply)).
Proof.
  intros Hinv Hreq Hcs Hn Hp HE Hexc Hserve. pose proof (inv_clerk _ Hinv _ _ Hcs) as Hok.
  destruct (serve_executes _ _ _ Hexc) as (kv' & reply' & Hserve' & Hv & Hmap & Hres & Hcc & Hop).
  rewrite Hserve in Hserve'. injection Hserve' as <- <-.
  unfold valid_result. rewrite Hv. set (e := (req, Clerk_result req.1 (pr_Value reply))).
  set (s' := mkSystem _ _ _ _ _).
  assert (of_clerk (ClerkId req.2) (executed s') = completed cs ++ [e]) as HE'.
  { simpl. rewrite of_clerk_app, HE. unfold e. rewrite of_clerk_one, decide_True by done. done. }
  assert (∀ c, c ≠ ClerkId req.2 → clerkId_count kv !! c = clerkId_count (server s) !! c) as Hcc'.
  { intros c Hne. rewrite Hcc, lookup_insert_ne by done. unfold except_count in Hexc.
    destruct (clerkId_count (server s) !! ClerkId req.2); injection Hexc as <- _; [done|].
    by rewrite lookup_insert_ne. }
  assert (∀ c k, c ≠ ClerkId req.2 → opReply kv !! (c, k) = opReply (server s) !! (c, k)) as Hop'.
  { intros c k Hne. destruct (req.1); rewrite Hop; [done|].
    rewrite lookup_delete_ne, lookup_insert_ne by congruence. done. }
  split; simpl; try apply Hinv.
  - intros c' cs' Hcs'. destruct (decide (c' = ClerkId req.2)) as [->|Hne].
    + rewrite Hcs in Hcs'. injection Hcs' as <-. pose proof Hok as [Hi Hct Hiss _ _ _].
      split; try done.
      * right. by exists req, (Clerk_result req.1 (pr_Value reply)).
      * rewrite HE'. simpl. rewrite Hcc, lookup_insert_eq, Hn, HE.
        destruct (completed cs); simpl; [done|]. rewrite !len_cons, len_app.
        change (len [e]) with 1. f_equal. lia.
      * intros r v. rewrite HE', last_snoc. intros [= <- <-].
        destruct (req.1) eqn:Em; [by rewrite Hres; unfold answer; rewrite Em|]. simpl. rewrite Hop.
        rewrite lookup_delete_ne, lookup_insert_eq by (intros [=]; lia).
        unfold answer in Hres. rewrite Em in Hres. by rewrite <-Hres.
    + eapply (deliver_others s s' req); try done; [by apply Hinv|by apply Hcc'|intros; by apply Hop'].
  - intros r rep cs' [E|Hin]%elem_of_cons Hcs' Hp'.
    + injection E as -> ->. simpl in HE'. rewrite HE'. set_solver.
    + rewrite of_clerk_app. apply elem_of_app. left. by eapply (inv_reply _ Hinv).
  - intros r rep [E|Hin]%elem_of_cons; [by injection E as -> ->|by eapply (inv_replied _ Hinv)].
  - rewrite fmap_app, Hmap, (inv_map _ Hinv). unfold store. by rewrite foldl_app.
  - rewrite fmap_app. simpl. rewrite answers_app, <-(inv_answers _ Hinv).
    f_equal. unfold e. rewrite Hres, (inv_map _ Hinv). done.
  - intros c' Hc'. destruct (inv_none _ Hinv c' Hc') as [E E'].
    assert (c' ≠ ClerkId req.2) as Hne by congruence.
    rewrite of_clerk_app, E, Hcc' by done. unfold e. rewrite of_clerk_one, decide_False by done. done.
Qed.

Lemma kvsrv_deliver_inv s req kv reply :
  inv s → req ∈ requests s → serve (server s) req = (kv, reply) →
  inv (mkSystem kv (clerks s) (requests s) ((req, reply) :: replies s)
         (executed s ++ valid_result req reply)).
Proof.
  intros Hinv Hreq Hserve. destruct (inv_request _ Hinv req Hreq) as (cs & Hcs & Hin).
  destruct (except_count_ok s _ cs req.2 (inv_clerk _ Hinv _ _ Hcs)) as [Hx _]; [done|].
  destruct (except_count (server s) req.2) as [counts except] eqn:Hexc. simpl in Hx.
  destruct (deliver_cases s req cs Hinv Hcs Hin) as [(Hn & Hp & HE)|[Hlt Hlast]].
  - eapply (deliver_execute_inv s req cs counts); try done. rewrite Hexc. f_equal. lia.
  - destruct (serve_repeats _ _ _ _ Hexc) as (reply' & Hserve' & Hv & Hval); [lia|].
    rewrite Hserve in Hserve'. injection Hserve' as -> ->.
    unfold valid_result. rewrite Hv, app_nil_r. by eapply deliver_repeat_inv.
Qed.

Lemma kvsrv_inv s : reachable s → inv s.
Proof.
  induction 1 as [|s s' _ IH Hst].
  - split; simpl; try done; by intros * ?%not_elem_of_nil.
  - destruct Hst; [by apply make_inv|by eapply call_inv|by apply kvsrv_deliver_inv|by eapply return_inv].
Qed.

(** Exactly once over a lossy network: in every reachable state the map of the server
    is the result of the requests it has executed; the requests of a clerk that were
    executed are those it has completed, in its order and each once, followed at most
    by the one it is waiting for; and what a completed request returned is what its
    execution on the map gave. *)
Theorem kvsrv_exactly_once s :
  reachable s →
  map_ (server s) = store (executed s).*1 ∧
  executed s = answers ∅ (executed s).*1 ∧
  ∀ c cs, clerks s !! c = Some cs →
    of_clerk c (executed s) = completed cs ∨
    ∃ req v, pending cs = Some req ∧ of_clerk c (executed s) = completed cs ++ [(req, v)].
Proof.
  intros Hinv%kvsrv_inv. split_and!; [apply Hinv..|].
  intros c cs Hcs. by eapply co_executed, inv_clerk.
Qed.

(** ** A concrete run: an append whose request is delivered twice *)

Definition append_req : Request := (MAppend, mkPutAppendArgs "x" "1" 5 0).

Definition after_append : KVServer := (serve StartKVServer append_req).1.

Definition run_end : System :=
  mkSystem after_append {[ 5 := mkClerkState (mkClerk 5 1) [(append_req, ""%string)] None ]}
    [append_req] [(append_req, mkPutAppendReply "" false); (append_req, mkPutAppendReply "" true)]
    [(append_req, ""%string)].

Definition idle : ClerkState := mkClerkState (MakeClerk 5) [] None.
Definition busy : ClerkState := mkClerkState (MakeClerk 5) [] (Some append_req).

Definition run1 : System := mkSystem StartKVServer {[ 5 := idle ]} [] [] [].
Definition run2 : System := mkSystem StartKVServer {[ 5 := busy ]} [append_req] [] [].
Definition run3 : System := mkSystem after_append {[ 5 := busy ]} [append_req]
  [(append_req, mkPutAppendReply "" true)] [(append_req, ""%string)].
Definition run4 : System := mkSystem after_append {[ 5 := busy ]} [append_req]
  [(append_req, mkPutAppendReply "" false); (append_req, mkPutAppendReply "" true)]
  [(append_req, ""%string)].

Lemma run_end_reachable : reachable run_end.
Proof.
  assert (reachable run1) as H1 by exact (reach_step _ _ reach_start (step_make start 5 eq_refl)).
  assert (reachable run2) as H2
    by exact (reach_step _ _ H1 (step_call run1 5 idle MAppend "x" "1" eq_refl eq_refl)).
  assert (reachable run3) as H3
    by exact (reach_step _ _ H2 (step_deliver run2 append_req _ _ ltac:(by left) eq_refl)).
  assert (reachable run4) as H4
    by exact (reach_step _ _ H3 (step_deliver run3 append_req _ _ ltac:(by left) eq_refl)).
  exact (reach_step _ _ H4 (step_return run4 5 busy append_req (mkPutAppendReply "" false) _ _
           eq_refl eq_refl ltac:(by left) eq_refl)).
Qed.

Lemma kvsrv_exactly_once_witness :
  map_ (server run_end) !! "x"%string = Some "1"%string ∧
  map_ (server run_end) = store [append_req].
Proof.
  split; [by vm_compute|].
  destruct (kvsrv_exactly_once run_end run_end_reachable) as [H _]. exact H.
Defined.
