(* ===== verification/KvSrvHarness.v ===== *)
(** * kvsrv: the test harness

    Models [src/src/kvsrv/config.go]: one server, number 0 on the network, and clerks with
    one client end each.  The server is pointer 0. *)
From stdpp Require Import pretty.
From S2P Require Import Prelude LabRpc Raft KvSrv Harness.

Definition SERVERID : Z := 0.

Record config := mkConfig {
  ks_net : Network (Name := NetName);
  ks_kvserver : KVServer;
  ks_clerks : gmap Z string;
  ks_made : Z;
  ks_nextClientId : Z;
  ks_start : Z;
  ks_rpcs0 : Z;
  ks_ops : Z;
}.

Definition eta_config (c : config) : config :=
  mkConfig (ks_net c) (ks_kvserver c) (ks_clerks c) (ks_made c) (ks_nextClientId c) (ks_start c) (ks_rpcs0 c) (ks_ops c).

#[export] Instance set_ks_net : Setter ks_net := λ f x, ltac:(solve_setter eta_config ks_net f x).
#[export] Instance set_ks_kvserver : Setter ks_kvserver := λ f x, ltac:(solve_setter eta_config ks_kvserver f x).
#[export] Instance set_ks_clerks : Setter ks_clerks := λ f x, ltac:(solve_setter eta_config ks_clerks f x).
#[export] Instance set_ks_made : Setter ks_made := λ f x, ltac:(solve_setter eta_config ks_made f x).
#[export] Instance set_ks_nextClientId : Setter ks_nextClientId := λ f x, ltac:(solve_setter eta_config ks_nextClientId f x).
#[export] Instance set_ks_rpcs0 : Setter ks_rpcs0 := λ f x, ltac:(solve_setter eta_config ks_rpcs0 f x).
#[export] Instance set_ks_ops : Setter ks_ops := λ f x, ltac:(solve_setter eta_config ks_ops f x).

Implicit Types cfg : config.

(** A clerk that is not in the map has the empty name. *)
Definition clerk_name cfg (ck : Z) : string := default ""%string (ks_clerks cfg !! ck).

Definition ConnectClientUnlocked (ck : Z) cfg : config :=
  cfg <| ks_net := Enable (ks_net cfg) (NStr (clerk_name cfg ck)) true |>.
Definition ConnectClient : Z → config → config := ConnectClientUnlocked.

(** [endname] is what [randstring(20)] returned. *)
Definition makeClient (endname : string) cfg : outcome (config * Z) :=
  rn ← MakeEnd (ks_net cfg) (NStr endname);
  let rn := Connect rn (NStr endname) (NInt SERVERID) in
  let ck := ks_made cfg in
  let cfg := cfg <| ks_net := rn |> <| ks_made := ks_made cfg + 1 |> <| ks_clerks := <[ck := endname]> (ks_clerks cfg) |>
                 <| ks_nextClientId := ks_nextClientId cfg + 1 |> in
  Ret (ConnectClientUnlocked ck cfg, ck).

Definition deleteClient (ck : Z) cfg : outcome config :=
  rn ← DeleteEnd (ks_net cfg) (NStr (clerk_name cfg ck));
  Ret (cfg <| ks_net := rn |> <| ks_clerks := delete ck (ks_clerks cfg) |>).

Definition StartServer cfg : config :=
  cfg <| ks_kvserver := StartKVServer |> <| ks_net := AddServer (ks_net cfg) (NInt 0) 0 |>.

Definition make_config (unreliable : bool) (now : Z) : config :=
  let cfg := mkConfig MakeNetwork StartKVServer ∅ 0 (SERVERID + 1) now 0 0 in
  let cfg := StartServer cfg in
  cfg <| ks_net := Reliable (ks_net cfg) (negb unreliable) |>.

(** [failed] is [cfg.t.Failed()]. *)
Definition checkTimeout (failed : bool) (now : Z) cfg : outcome unit :=
  if negb failed && (now - ks_start cfg >? 120 * (1000 * Millisecond)) then Panic else Ret tt.

Definition cleanup (failed : bool) (now : Z) cfg : outcome config :=
  rn ← Cleanup (ks_net cfg);
  let cfg := cfg <| ks_net := rn |> in
  _ ← checkTimeout failed now cfg;
  Ret cfg.

Definition rpcTotal cfg : Z := GetTotalCount (ks_net cfg).
Definition begin cfg : config := cfg <| ks_rpcs0 := rpcTotal cfg |> <| ks_ops := 0 |>.
Definition op cfg : config := cfg <| ks_ops := wrap 32 (ks_ops cfg + 1) |>.

(** What [end] prints: calls and operations. *)
Definition end_ (failed : bool) (now : Z) cfg : outcome (option (Z * Z)) :=
  _ ← checkTimeout failed now cfg; 
  Ret (if failed then None else Some (rpcTotal cfg - ks_rpcs0 cfg, ks_ops cfg)).

(** ** Clerks and their ends *)

Inductive KsEvent := KsMake (endname : string) | KsDelete (ck : Z) | KsServer (kv : KVServer).

Definition ks_exec (e : KsEvent) cfg : outcome config :=
  match e with
  | KsMake endname => '(cfg, _) ← makeClient endname cfg; Ret cfg
  | KsDelete ck => deleteClient ck cfg
  | KsServer kv => Ret (cfg <| ks_kvserver := kv |>)
  end.

(** Every clerk has an end of its own, enabled and connected to the server. *)
Record clerks_ok cfg : Prop := {
  ck_end ck s : ks_clerks cfg !! ck = Some s → is_Some (ends (ks_net cfg) !! NStr s) ∧
    is_enabled (ks_net cfg) (NStr s) = true ∧ connections (ks_net cfg) !! NStr s = Some (Some (NInt SERVERID));
  ck_inj ck ck' s : ks_clerks cfg !! ck = Some s → ks_clerks cfg !! ck' = Some s → ck = ck';
  ck_all s : is_Some (ends (ks_net cfg) !! NStr s) → ∃ ck, ks_clerks cfg !! ck = Some s;
  ck_made ck s : ks_clerks cfg !! ck = Some s → ck < ks_made cfg;
  ck_server : server_at (ks_net cfg) (NInt SERVERID) = Some 0;
}.

Lemma make_clerks_ok endname cfg cfg' ck : clerks_ok cfg → makeClient endname cfg = Ret (cfg', ck) → clerks_ok cfg'.
Proof.
  intros [] (rn & Hrn & [= <- <-])%outcome_bind_Ret. unfold MakeEnd in Hrn. destruct (ends _ !! _) eqn:Hf; [done|]. injection Hrn as <-.
  assert (∀ k s, ks_clerks cfg !! k = Some s → s ≠ endname) as Hne.
  { intros k s Hk ->. destruct (ck_end0 k endname Hk) as ([? ?] & _). congruence. }
  assert (∀ k s, <[ks_made cfg := endname]> (ks_clerks cfg) !! k = Some s → (k = ks_made cfg ∧ s = endname) ∨ ks_clerks cfg !! k = Some s) as Hc.
  { intros k s. destruct (decide (k = ks_made cfg)) as [->|]; [rewrite lookup_insert_eq; intros [= ->]; by left|].
    rewrite lookup_insert_ne by done. by right. }
  unfold ConnectClientUnlocked, clerk_name. simpl. rewrite lookup_insert_eq. simpl. split; simpl; unfold is_enabled; simpl.
  - intros k s [[-> ->]|Hk]%Hc; [by rewrite !lookup_insert_eq|]. pose proof (Hne k s Hk).
    rewrite !lookup_insert_ne by congruence. by eapply ck_end0.
  - intros k k' s [[-> ->]|Hk]%Hc [[-> Hs]|Hk']%Hc; [done| | |by eapply ck_inj0]; [by eapply Hne in Hk'|subst; by eapply Hne in Hk].
  - intros s. destruct (decide (s = endname)) as [->|]; [exists (ks_made cfg); by rewrite lookup_insert_eq|].
    rewrite lookup_insert_ne by congruence. intros [k Hk]%ck_all0. exists k. rewrite lookup_insert_ne; [done|].
    intros <-. apply ck_made0 in Hk. lia.
  - intros k s [[-> ->]|Hk]%Hc; [lia|]. apply ck_made0 in Hk. lia.
  - done.
Qed.

Lemma delete_clerks_ok ck cfg cfg' : clerks_ok cfg → deleteClient ck cfg = Ret cfg' → is_Some (ks_clerks cfg !! ck) → clerks_ok cfg'.
Proof.
  intros [] (rn & Hrn & [= <-])%outcome_bind_Ret [v Hv]. unfold clerk_name in Hrn. rewrite Hv in Hrn. simpl in Hrn.
  unfold DeleteEnd in Hrn. destruct (ends _ !! _); [|done]. injection Hrn as <-.
  assert (∀ k s, delete ck (ks_clerks cfg) !! k = Some s → ks_clerks cfg !! k = Some s ∧ s ≠ v) as Hd.
  { intros k s [Hne Hk]%lookup_delete_Some. split; [done|]. intros ->. by apply Hne, (ck_inj0 _ _ v). }
  split; simpl; unfold is_enabled; simpl.
  - intros k s [Hk Hne]%Hd. rewrite !lookup_delete_ne by congruence. by eapply ck_end0.
  - intros k k' s [Hk _]%Hd [Hk' _]%Hd. by eapply ck_inj0.
  - intros s [w [Hne Hw]%lookup_delete_Some]. destruct (ck_all0 s) as [k Hk]; [by eexists|]. exists k. rewrite lookup_delete_ne; [done|].
    intros ->. rewrite Hv in Hk. congruence.
  - intros k s [Hk _]%Hd. by eapply ck_made0.
  - done.
Qed.

(** A call of a clerk that was made and not deleted is handed to the server. *)
Theorem clerks_reach_server unreliable now es cfg ck s :
  (∀ k es1 es2 cfg1, es = es1 ++ KsDelete k :: es2 → ofold (λ cfg e, ks_exec e cfg) (make_config unreliable now) es1 = Ret cfg1 →
     is_Some (ks_clerks cfg1 !! k)) →
  ofold (λ cfg e, ks_exec e cfg) (make_config unreliable now) es = Ret cfg → ks_clerks cfg !! ck = Some s →
  readEndnameInfo (ks_net cfg) (NStr s) = (true, Some (NInt SERVERID), Some 0, reliable (ks_net cfg), longReordering (ks_net cfg)).
Proof.
  intros Hdel Hrun Hck.
  apply (ofold_split (λ seen c, ofold (λ cfg e, ks_exec e cfg) (make_config unreliable now) seen = Ret c ∧ clerks_ok c)) in Hrun as [_ []].
  - destruct (ck_end0 ck s Hck) as (_ & He & Hc). unfold readEndnameInfo. rewrite He, Hc. simpl. by rewrite ck_server0.
  - split; [done|]. split; simpl; try done. by intros x [u Hu].
  - intros seen e rest c c' -> [Hs Hok] He. split; [rewrite ofold_app, Hs; simpl; by rewrite He|].
    destruct e; simpl in He.
    + apply outcome_bind_Ret in He as ([c1 k] & Hm & [= <-]). by eapply make_clerks_ok.
    + eapply delete_clerks_ok; [done|done|]. by eapply Hdel.
    + injection He as <-. destruct Hok. by split.
Qed.
