(* ===== verification/MrWorker.v ===== *)
(** * mr: the worker's map and reduce tasks

    Models [src/src/mr/worker.go], the sequential [src/src/main/mrsequential.go] and
    the word count of [src/src/mrapps/wc.go] as an instance.  The intermediate file
    [mr-m-i] is [Inter m i], the output file [mr-out-t] of the task [t] is [Out t];
    a file holds the pairs or the lines written to it.  [encoding/json] is a
    parameter: [json kv] is the pair that is read back when [kv] was written. *)
From Stdlib Require Import Strings.Ascii.
From stdpp Require Import pretty.
From S2P Require Import Prelude.

Record KeyValue := mkKeyValue { Key : string; Value : string }.

(** ** ihash: FNV-1a on 32 bits *)

Definition fnv32a (key : list N) : Z :=
  foldl (λ h b, (Z.lxor h (Z.of_N b) * 16777619) mod 2 ^ 32) 2166136261 key.

Definition string_bytes (s : string) : list N := N_of_ascii <$> String.list_ascii_of_string s.

Definition ihash (key : string) : Z := Z.land (fnv32a (string_bytes key)) 0x7fffffff.

Lemma ihash_bounds key : 0 ≤ ihash key < 2 ^ 31.
Proof.
  unfold ihash. change 0x7fffffff with (Z.ones 31). rewrite Z.land_ones by lia.
  by apply Z.mod_pos_bound.
Qed.

(** ** Sorting by key *)

(** The order of Go strings: bytewise. *)
Fixpoint str_lt (a b : string) : bool :=
  match a, b with
  | _, EmptyString => false
  | EmptyString, String _ _ => true
  | String x a, String y b =>
      (N_of_ascii x <? N_of_ascii y)%N || ((N_of_ascii x =? N_of_ascii y)%N && str_lt a b)
  end.

(** [sort.Slice] and [sort.Sort] with this order: some sorted permutation, pairs with
    equal keys in any order. *)
Class KeySort := {
  sort_keys : list KeyValue → list KeyValue;
  sort_keys_perm l : sort_keys l ≡ₚ l;
  sort_keys_sorted l (i j : nat) x y :
    sort_keys l !! i = Some x → sort_keys l !! j = Some y → (i < j)%nat →
    str_lt (Key y) (Key x) = false;
}.

(** ** The reduce loop *)

(** [for j < len && intermediate[j].Key == key]: the values of the run and the rest. *)
Fixpoint same_key (key : string) (l : list KeyValue) : list string * list KeyValue :=
  match l with
  | kv :: rest =>
      if bool_decide (Key kv = key)
      then let '(vs, rest') := same_key key rest in (Value kv :: vs, rest')
      else ([], l)
  | [] => ([], [])
  end.

(** The keys with the values handed to [reducef], in order. *)
Fixpoint reduce_loop (fuel : nat) (l : list KeyValue) : list (string * list string) :=
  match fuel, l with
  | S fuel, kv :: rest =>
      let '(vs, rest') := same_key (Key kv) rest in
      (Key kv, Value kv :: vs) :: reduce_loop fuel rest'
  | _, _ => []
  end.

Definition line (key output : string) : string := key +:+ " " +:+ output +:+ String "010"%char "".

(** ** The groups of a sorted list *)

Definition values_of (key : string) (l : list KeyValue) : list string :=
  Value <$> filter (λ kv, Key kv = key) l.

Definition key_sorted (l : list KeyValue) : Prop :=
  ∀ (i j : nat) x y, l !! i = Some x → l !! j = Some y → (i < j)%nat → str_lt (Key y) (Key x) = false.

Lemma str_lt_trans a b c : str_lt a b = true → str_lt b c = true → str_lt a c = true.
Proof.
  revert b c. induction a as [|x a IH]; intros [|y b] [|z c]; simpl; try done.
  rewrite !orb_true_iff, !andb_true_iff, !N.ltb_lt, !N.eqb_eq.
  intros [?|[? ?]] [?|[? ?]]; [left; lia..|]. right. split; [lia|by eapply IH].
Qed.

Lemma str_lt_total a b : str_lt a b = false → str_lt b a = false → a = b.
Proof.
  revert b. induction a as [|x a IH]; intros [|y b]; simpl; try done.
  rewrite !orb_false_iff, !andb_false_iff, !N.ltb_ge, !N.eqb_neq.
  intros [? Ha] [? Hb]. assert (N_of_ascii x = N_of_ascii y) as E by lia.
  f_equal; [|apply IH; naive_solver].
  rewrite <-(ascii_N_embedding x), <-(ascii_N_embedding y). by rewrite E.
Qed.

Lemma key_sorted_cons kv l :
  key_sorted (kv :: l) → key_sorted l ∧ ∀ x, x ∈ l → str_lt (Key x) (Key kv) = false.
Proof.
  intros Hs. split.
  - intros i j x y Hi Hj Hij. apply (Hs (S i) (S j)); [done..|lia].
  - intros x [i Hi]%list_elem_of_lookup. apply (Hs 0%nat (S i)); [done..|lia].
Qed.

(** The run of a key in a sorted list is all of its pairs. *)
Lemma same_key_spec key l :
  key_sorted l → (∀ x, x ∈ l → str_lt (Key x) key = false) →
  same_key key l = (values_of key l, filter (λ kv, Key kv ≠ key) l) ∧
  key_sorted (filter (λ kv, Key kv ≠ key) l).
Proof.
  induction l as [|kv l IH]; intros Hs Hge; [done|].
  destruct (key_sorted_cons _ _ Hs) as [Hs' Hkv]. cbn [same_key]. unfold values_of.
  rewrite !filter_cons. case_bool_decide as E.
  - rewrite decide_True, decide_False by naive_solver.
    destruct IH as [-> Hf]; [done|intros; apply Hge; by right|]. by split.
  - rewrite decide_False, decide_True by done.
    assert (∀ x, x ∈ l → Key x ≠ key) as Hne.
    { intros x Hx Ex. apply E. apply str_lt_total; [apply Hge; by left|].
      rewrite <-Ex. by apply Hkv. }
    rewrite (filter_none _ l), (filter_all _ l) by done. by split.
Qed.

Lemma values_of_filter key key' l :
  key ≠ key' → values_of key (filter (λ kv, Key kv ≠ key') l) = values_of key l.
Proof.
  intros Hne. unfold values_of. f_equal. rewrite list_filter_filter. apply list_filter_iff.
  intros kv. naive_solver.
Qed.

(** The loop hands each key once to [reducef], with all its values. *)
Lemma reduce_loop_spec (fuel : nat) l :
  key_sorted l → (length l ≤ fuel)%nat →
  NoDup (reduce_loop fuel l).*1 ∧
  (∀ key, key ∈ (reduce_loop fuel l).*1 ↔ key ∈ Key <$> l) ∧
  reduce_loop fuel l = (λ key, (key, values_of key l)) <$> (reduce_loop fuel l).*1.
Proof.
  revert l. induction fuel as [|fuel IH]; intros [|kv l] Hs Hlen; simpl in *; try lia;
    try (split_and!; [constructor|done|done]).
  destruct (key_sorted_cons _ _ Hs) as [Hs' Hkv].
  destruct (same_key_spec (Key kv) l Hs' Hkv) as [-> Hf].
  destruct (IH _ Hf) as (Hnd & Hin & Heq).
  { etrans; [apply length_filter|]. lia. }
  set (rest := filter (λ x, Key x ≠ Key kv) l) in *. simpl.
  assert (Key kv ∉ (reduce_loop fuel rest).*1) as Hnot.
  { rewrite Hin. intros (x & E & [Hx _]%list_elem_of_filter)%list_elem_of_fmap. by destruct Hx. }
  split_and!.
  - by constructor.
  - intros key. rewrite !elem_of_cons, Hin. split.
    + intros [->|(x & -> & [_ Hx]%list_elem_of_filter)%list_elem_of_fmap]; [by left|right].
      apply list_elem_of_fmap. by exists x.
    + intros [->|(x & -> & Hx)%list_elem_of_fmap]; [by left|].
      destruct (decide (Key x = Key kv)) as [->|Hne]; [by left|right].
      apply list_elem_of_fmap. exists x. split; [done|]. by apply list_elem_of_filter.
  - f_equal; [unfold values_of; by rewrite filter_cons, decide_True|].
    rewrite Heq at 1. apply list_fmap_ext. intros i key Hk. f_equal.
    assert (key ≠ Key kv) as Hne.
    { intros ->. apply Hnot. by eapply list_elem_of_lookup_2. }
    unfold values_of at 2. rewrite filter_cons, decide_False by naive_solver.
    by apply values_of_filter.
Qed.

Lemma values_of_perm key l k : l ≡ₚ k → values_of key l ≡ₚ values_of key k.
Proof. intros H. unfold values_of. apply fmap_Permutation. by rewrite H. Qed.

Section worker.
Context {sorts : KeySort}.
Context (mapf : string → string → list KeyValue) (reducef : string → list string → string).
Context (json : KeyValue → KeyValue).

Definition reduce_lines (intermediate : list KeyValue) : list string :=
  let l := sort_keys intermediate in
  (λ '(key, values), line key (reducef key values)) <$> reduce_loop (length l) l.

(** ** worker.go *)

Inductive FileName := Inter (m i : Z) | Out (t : Z).

Record FS := mkFS {
  inputs : gmap string string;
  inter : gmap (Z * Z) (list KeyValue);
  outs : gmap Z (list string);
}.

Record Worker_ := mkWorker { w_TaskId : Z; w_Filename : string; w_nReduce : Z; w_mMap : Z }.

(** The loop that fills [slot]. *)
Definition fill_slot (nReduce : Z) (slot : list (list KeyValue)) (kv : KeyValue) :
    outcome (list (list KeyValue)) :=
  let index := ihash (Key kv) mod nReduce in
  old ← slice_get slot index;
  slice_set slot index (old ++ [kv]).

Definition fill_slots (nReduce : Z) (immediate : list KeyValue) : outcome (list (list KeyValue)) :=
  ofold (fill_slot nReduce) (replicate (Z.to_nat nReduce) []) immediate.

(** [doMap] up to the call of [FinishTask]; an input that cannot be opened is fatal. *)
Definition doMap (fs : FS) (w : Worker_) : outcome FS :=
  match inputs fs !! w_Filename w with
  | None => Panic
  | Some content =>
      slot ← fill_slots (w_nReduce w) (mapf (w_Filename w) content);
      Ret (mkFS (inputs fs)
             (foldl (λ files '(i, kvs), <[(w_TaskId w, i) := kvs]> files) (inter fs)
                (indexed slot))
             (outs fs))
  end.

Definition generateFileName (r MMap : Z) : list FileName := (λ m, Inter m r) <$> zrange MMap.

(** Reading the intermediate files; [None] when one cannot be opened. *)
Fixpoint read_files (fs : FS) (names : list FileName) : option (list KeyValue) :=
  match names with
  | [] => Some []
  | Inter m i :: names =>
      kvs ← inter fs !! (m, i);
      rest ← read_files fs names;
      Some ((json <$> kvs) ++ rest)
  | Out _ :: _ => None
  end.

(** [doReduce] while it writes: [os.Create] has emptied the output file, which has its
    final name, and [k] lines are written; [None]: it returns without calling. *)
Definition doReduce_writing (fs : FS) (w : Worker_) (k : nat) : option FS :=
  intermediate ← read_files fs (generateFileName (- w_TaskId w - 1) (w_mMap w));
  Some (mkFS (inputs fs) (inter fs) (<[w_TaskId w := take k (reduce_lines intermediate)]> (outs fs))).

(** [doReduce] up to the call of [FinishTask], with all lines written.  The file is
    renamed to its own name. *)
Definition doReduce (fs : FS) (w : Worker_) : option FS :=
  intermediate ← read_files fs (generateFileName (- w_TaskId w - 1) (w_mMap w));
  Some (mkFS (inputs fs) (inter fs) (<[w_TaskId w := reduce_lines intermediate]> (outs fs))).

(** A worker that repeats a task and stops after [k] lines leaves these lines only. *)
Lemma doReduce_repeated_partial fs w fs' :
  doReduce fs w = Some fs' →
  ∃ lines, outs fs' !! w_TaskId w = Some lines ∧
    ∀ k, ∃ fs'', doReduce_writing fs' w k = Some fs'' ∧ outs fs'' !! w_TaskId w = Some (take k lines).
Proof.
  unfold doReduce, doReduce_writing. intros H.
  destruct (read_files fs (generateFileName _ _)) as [l|] eqn:Hl; [|discriminate H]. simpl in H. injection H as <-.
  exists (reduce_lines l). split; [apply lookup_insert_eq|]. intros k.
  assert (∀ outs' names, read_files (mkFS (inputs fs) (inter fs) outs') names = read_files fs names) as Hsame.
  { intros outs'. induction names as [|[m i|i] names IH]; simpl; [done| |done]. by rewrite IH. }
  rewrite Hsame, Hl. eexists. split; [done|]. apply lookup_insert_eq.
Qed.

(** ** mrsequential.go *)

Definition mrsequential (fs : FS) (files : list string) : outcome (list string) :=
  intermediate ← ofold (λ acc filename,
      match inputs fs !! filename with
      | None => Panic
      | Some content => Ret (acc ++ mapf filename content)
      end) [] files;
  Ret (reduce_lines intermediate).

(** ** Independence of the order of values *)

Hypothesis reducef_perm : ∀ key vs vs', vs ≡ₚ vs' → reducef key vs = reducef key vs'.

Definition key_line (l : list KeyValue) (key : string) : string := line key (reducef key (values_of key l)).

(** The keys a reduce task handles. *)
Definition reduced_keys (l : list KeyValue) : list string :=
  (reduce_loop (length (sort_keys l)) (sort_keys l)).*1.

Lemma reduce_lines_spec l :
  NoDup (reduced_keys l) ∧ (∀ key, key ∈ reduced_keys l ↔ key ∈ Key <$> l) ∧
  reduce_lines l = key_line l <$> reduced_keys l.
Proof.
  destruct (reduce_loop_spec (length (sort_keys l)) (sort_keys l)) as (Hnd & Hin & Heq); [|done|].
  { intros i j x y. apply sort_keys_sorted. }
  split_and!; [done| |].
  - intros key. unfold reduced_keys. by rewrite Hin, sort_keys_perm.
  - unfold reduce_lines. rewrite Heq at 1. rewrite <-list_fmap_compose. apply list_fmap_ext.
    intros i key Hk. simpl. unfold key_line. f_equal. apply reducef_perm, values_of_perm, sort_keys_perm.
Qed.

(** ** Slots *)

Definition bucket (nReduce i : Z) (l : list KeyValue) : list KeyValue :=
  filter (λ kv, ihash (Key kv) mod nReduce = i) l.

Lemma bucket_app nReduce i l k : bucket nReduce i (l ++ k) = bucket nReduce i l ++ bucket nReduce i k.
Proof. apply filter_app. Qed.

Lemma fill_slot_ok nReduce slot kv :
  0 < nReduce → len slot = nReduce →
  ∃ old, zlookup slot (ihash (Key kv) mod nReduce) = Some old ∧
    fill_slot nReduce slot kv = Ret (<[Z.to_nat (ihash (Key kv) mod nReduce) := old ++ [kv]]> slot).
Proof.
  intros HR Hlen. pose proof (Z.mod_pos_bound (ihash (Key kv)) nReduce HR) as Hb. unfold fill_slot.
  destruct (slice_get_ok slot (ihash (Key kv) mod nReduce)) as (old & -> & Hold); [lia|].
  exists old. rewrite bind_Ret, slice_set_ok by lia. done.
Qed.

Lemma fill_slots_ok nReduce l :
  0 < nReduce →
  ∃ slot, fill_slots nReduce l = Ret slot ∧ len slot = nReduce ∧
    ∀ i, 0 ≤ i < nReduce → zlookup slot i = Some (bucket nReduce i l).
Proof.
  intros HR. unfold fill_slots.
  assert (∀ l slot, len slot = nReduce → ∃ slot', ofold (fill_slot nReduce) slot l = Ret slot' ∧ len slot' = nReduce ∧
    ∀ i, zlookup slot' i = (λ old, old ++ bucket nReduce i l) <$> zlookup slot i) as Hloop.
  { clear l. induction l as [|kv l IH]; intros slot Hlen; cbn [ofold].
    - exists slot. split_and!; [done..|]. intros i. destruct (zlookup slot i); [|done].
      simpl. by rewrite app_nil_r.
    - pose proof (Z.mod_pos_bound (ihash (Key kv)) nReduce HR) as Hb.
      destruct (fill_slot_ok nReduce slot kv HR Hlen) as (old & Hold & ->). rewrite bind_Ret.
      set (idx := ihash (Key kv) mod nReduce) in *.
      destruct (IH (<[Z.to_nat idx := old ++ [kv]]> slot)) as (slot' & -> & Hlen' & Hlk).
      { by rewrite len_insert. }
      exists slot'. split_and!; [done..|]. intros i. rewrite Hlk. unfold bucket. rewrite filter_cons.
      case_decide as E; fold idx in E.
      + subst i. rewrite zlookup_insert_eq, Hold by lia. simpl. by rewrite <-app_assoc.
      + rewrite zlookup_insert_ne by lia. done. }
  destruct (Hloop l (replicate (Z.to_nat nReduce) [])) as (slot & -> & Hlen & Hlk).
  { unfold len. rewrite length_replicate. lia. }
  exists slot. split_and!; [done..|]. intros i Hi. rewrite Hlk.
  unfold zlookup. rewrite (proj2 (Z.leb_le 0 i)) by lia.
  by rewrite lookup_replicate_2 by lia.
Qed.

(** ** The file system *)

Lemma write_slots (t : Z) (slot : list (list KeyValue)) (files : gmap (Z * Z) (list KeyValue)) (t' i : Z) :
  foldl (λ (files : gmap (Z * Z) _) '(i, kvs), <[(t, i) := kvs]> files) files (indexed slot) !! (t', i) =
  if decide (t' = t ∧ 0 ≤ i < len slot) then zlookup slot i else files !! (t', i).
Proof.
  set (ps := (λ '(i, kvs), ((t, i), kvs)) <$> indexed slot : list ((Z * Z) * list KeyValue)).
  assert (∀ (l : list (Z * list KeyValue)) files,
    foldl (λ (files : gmap (Z * Z) _) '(i, kvs), <[(t, i) := kvs]> files) files l =
    foldl (λ (m : gmap (Z * Z) _) '(k, v), <[k := v]> m) files ((λ '(i, kvs), ((t, i), kvs)) <$> l)) as ->.
  { induction l as [|[a b] l IH]; intros fs'; simpl; [done|]. apply IH. }
  fold ps. assert (ps.*1 = (λ i, (t, i)) <$> zrange (len slot)) as Hks.
  { unfold ps. rewrite <-fst_indexed, <-!list_fmap_compose. apply list_fmap_ext. by intros ? [] ?. }
  assert (NoDup ps.*1) as Hnd.
  { rewrite Hks. apply NoDup_fmap_2; [by intros ? ? [=]|]. apply NoDup_zrange. }
  rewrite foldl_insert_list by done. case_decide as E.
  - destruct E as [-> Hi]. apply zlookup_is_Some in Hi as [kvs Hkvs]. rewrite Hkvs.
    apply lookup_union_Some_l, elem_of_list_to_map_1; [done|].
    apply list_elem_of_fmap. exists (i, kvs). split; [done|]. by apply elem_of_indexed.
  - apply lookup_union_r, not_elem_of_list_to_map_1. rewrite Hks.
    intros (j & [= -> ->] & Hj%elem_of_zrange)%list_elem_of_fmap. by destruct E.
Qed.

(** The whole job: [files] are the inputs; each map and each reduce task is run at
    least once, in any order. *)
Context (files : list string) (nReduce : Z).

Definition map_worker (m : Z) : Worker_ :=
  mkWorker m (default ""%string (zlookup files m)) nReduce (len files).
Definition reduce_worker (r : Z) : Worker_ := mkWorker (- r - 1) "" nReduce (len files).

Definition run_maps (fs : FS) (order : list Z) : outcome FS :=
  ofold (λ fs m, doMap fs (map_worker m)) fs order.
Fixpoint run_reduces (fs : FS) (order : list Z) : option FS :=
  match order with
  | [] => Some fs
  | r :: order => fs ← doReduce fs (reduce_worker r); run_reduces fs order
  end.

Definition covers (order : list Z) (n : Z) : Prop := ∀ t, t ∈ order ↔ 0 ≤ t < n.

(** What the map task of a file emits. *)
Definition emits (fs : FS) (filename : string) : list KeyValue :=
  mapf filename (default ""%string (inputs fs !! filename)).

Definition emitted (fs : FS) : list KeyValue := mjoin (emits fs <$> files).

Definition readable (fs : FS) : Prop := ∀ f, f ∈ files → is_Some (inputs fs !! f).

Definition json_ok (fs : FS) : Prop := ∀ kv, kv ∈ emitted fs → json kv = kv.

Lemma doMap_ok fs m f :
  0 < nReduce → readable fs → zlookup files m = Some f →
  ∃ fs', doMap fs (map_worker m) = Ret fs' ∧ inputs fs' = inputs fs ∧ outs fs' = outs fs ∧
    ∀ m' i, inter fs' !! (m', i) =
      if decide (m' = m ∧ 0 ≤ i < nReduce) then Some (bucket nReduce i (emits fs f))
      else inter fs !! (m', i).
Proof.
  intros HR Hrd Hf. unfold doMap, map_worker. simpl. rewrite Hf. simpl.
  destruct (Hrd f) as [content Hc].
  { apply zlookup_Some in Hf as [_ Hf]. by eapply list_elem_of_lookup_2. }
  rewrite Hc. destruct (fill_slots_ok nReduce (mapf f content) HR) as (slot & -> & Hlen & Hlk).
  rewrite bind_Ret. eexists. split; [done|]. simpl. split_and!; [done..|]. intros m' i.
  rewrite write_slots, Hlen. case_decide as E; [|done]. rewrite Hlk by lia.
  unfold emits. by rewrite Hc.
Qed.

(** The intermediate files once the tasks in [done_] are done. *)
Definition maps_done (fs0 fs : FS) (done_ : list Z) : Prop :=
  inputs fs = inputs fs0 ∧ outs fs = outs fs0 ∧
  ∀ m i f, m ∈ done_ → zlookup files m = Some f → 0 ≤ i < nReduce →
    inter fs !! (m, i) = Some (bucket nReduce i (emits fs0 f)).

Lemma run_maps_ok fs order :
  0 < nReduce → readable fs → covers order (len files) →
  ∃ fs', run_maps fs order = Ret fs' ∧ maps_done fs fs' order.
Proof.
  intros HR Hrd Hcov.
  assert (∀ l fs1 seen, (∀ m, m ∈ l → 0 ≤ m < len files) → maps_done fs fs1 seen →
    ∃ fs', run_maps fs1 l = Ret fs' ∧ maps_done fs fs' (seen ++ l)) as Hgen.
  { induction l as [|m l IH]; intros fs1 seen Hl Hd.
    { exists fs1. rewrite app_nil_r. done. }
    destruct (proj2 (zlookup_is_Some files m)) as [f Hf]; [apply Hl; by left|].
    destruct Hd as (Hin & Hout & Hint).
    destruct (doMap_ok fs1 m f HR) as (fs2 & Hmap & Hin2 & Hout2 & Hint2); [|done|].
    { intros f' Hf'. rewrite Hin. by apply Hrd. }
    unfold run_maps. cbn [ofold]. rewrite Hmap, bind_Ret.
    destruct (IH fs2 (seen ++ [m])) as (fs' & Hrun & Hd').
    { intros; apply Hl; by right. }
    { split; [congruence|]. split; [congruence|]. intros m' i f' Hm' Hf' Hi. rewrite Hint2.
      unfold emits in *. rewrite Hin. case_decide as E.
      - destruct E as [-> _]. rewrite Hf in Hf'. by injection Hf' as <-.
      - apply Hint; [|done..]. apply elem_of_app in Hm' as [?|?%list_elem_of_singleton]; [done|].
        by destruct E. }
    exists fs'. split; [done|]. by rewrite <-app_assoc in Hd'. }
  destruct (Hgen order fs []) as (fs' & ? & ?); [by intros m ?%Hcov| |by eauto].
  split_and!; [done..|]. by intros ? ? ? ?%not_elem_of_nil.
Qed.

Lemma read_files_ok fs0 fs order r :
  maps_done fs0 fs order → covers order (len files) → json_ok fs0 → 0 ≤ r < nReduce →
  read_files fs (generateFileName r (len files)) = Some (bucket nReduce r (emitted fs0)).
Proof.
  intros (_ & _ & Hint) Hcov Hjson Hr. unfold generateFileName, zrange, len. rewrite Nat2Z.id.
  assert (∀ l k, (∀ j f, l !! j = Some f → files !! (k + j)%nat = Some f) →
    read_files fs ((λ m, Inter m r) <$> (Z.of_nat <$> seq k (length l))) =
    Some (bucket nReduce r (mjoin (emits fs0 <$> l)))) as Hgen.
  { induction l as [|f l IH]; intros k Hk; [done|]. simpl.
    assert (files !! k = Some f) as Hf by (rewrite <-(Nat.add_0_r k); by apply Hk).
    rewrite (Hint (Z.of_nat k) r f); [|apply Hcov; apply lookup_lt_Some in Hf; unfold len; lia| |done].
    2: { apply zlookup_Some. rewrite Nat2Z.id. split; [lia|done]. }
    simpl. rewrite IH.
    2: { intros j f' Hj. replace (S k + j)%nat with (k + S j)%nat by lia. by apply Hk. }
    simpl. rewrite bucket_app. f_equal. f_equal.
    rewrite <-(list_fmap_id (bucket nReduce r (emits fs0 f))) at 2. apply list_fmap_ext.
    intros i kv Hkv. apply Hjson. unfold emitted. apply list_elem_of_join.
    exists (emits fs0 f). split.
    - by apply list_elem_of_lookup_2, list_elem_of_filter in Hkv as [_ ?].
    - apply list_elem_of_fmap. exists f. split; [done|]. by eapply list_elem_of_lookup_2. }
  apply (Hgen files 0%nat). done.
Qed.

Lemma run_reduces_ok fs0 fs order rorder :
  maps_done fs0 fs order → covers order (len files) → json_ok fs0 → covers rorder nReduce →
  ∃ fs', run_reduces fs rorder = Some fs' ∧
    ∀ r, 0 ≤ r < nReduce → outs fs' !! (- r - 1) = Some (reduce_lines (bucket nReduce r (emitted fs0))).
Proof.
  intros Hd Hcov Hjson Hrcov.
  assert (∀ l fs1 seen, (∀ r, r ∈ l → 0 ≤ r < nReduce) → inter fs1 = inter fs →
    (∀ r, r ∈ seen → outs fs1 !! (- r - 1) = Some (reduce_lines (bucket nReduce r (emitted fs0)))) →
    ∃ fs', run_reduces fs1 l = Some fs' ∧
      ∀ r, r ∈ seen ++ l → outs fs' !! (- r - 1) = Some (reduce_lines (bucket nReduce r (emitted fs0))))
    as Hgen.
  { induction l as [|r l IH]; intros fs1 seen Hl Hi Hseen; simpl.
    { exists fs1. by rewrite app_nil_r. }
    assert (read_files fs1 (generateFileName r (len files)) =
            Some (bucket nReduce r (emitted fs0))) as Hread.
    { assert (∀ names, read_files fs1 names = read_files fs names) as ->.
      { clear -Hi. induction names as [|[m i|] names IH]; simpl; [done| |done]. by rewrite Hi, IH. }
      apply (read_files_ok fs0 fs order); try done. apply Hl. by left. }
    unfold doReduce, reduce_worker. simpl.
    replace (- (- r - 1) - 1) with r by lia. rewrite Hread. simpl.
    destruct (IH (mkFS (inputs fs1) (inter fs1)
      (<[- r - 1 := reduce_lines (bucket nReduce r (emitted fs0))]> (outs fs1))) (seen ++ [r]))
      as (fs' & Hrun & Hall); [by intros; apply Hl; right|done| |].
    { simpl. intros r' Hr'. destruct (decide (r = r')) as [<-|Hne]; [by rewrite lookup_insert_eq|].
      rewrite lookup_insert_ne by lia. apply Hseen.
      apply elem_of_app in Hr' as [?|?%list_elem_of_singleton]; congruence. }
    exists fs'. split; [done|]. by rewrite <-app_assoc in Hall. }
  destruct (Hgen rorder fs []) as (fs' & Hrun & Hall); [by intros r ?%Hrcov|done|..].
  { by intros ? ?%not_elem_of_nil. }
  exists fs'. split; [done|]. intros r Hr. by apply Hall, Hrcov.
Qed.

(** ** All reduce tasks together *)

Lemma NoDup_join {A B} (f : A → list B) (g : B → A) (l : list A) :
  NoDup l → (∀ x, x ∈ l → NoDup (f x)) → (∀ x y, x ∈ l → y ∈ f x → g y = x) →
  NoDup (mjoin (f <$> l)).
Proof.
  intros Hnd. induction Hnd as [|x l Hx Hnd IH]; intros Hf Hg; simpl; [constructor|].
  apply NoDup_app. split_and!; [apply Hf; by left| |].
  - intros y Hy (l' & Hy' & (x' & -> & Hx')%list_elem_of_fmap)%list_elem_of_join. apply Hx.
    rewrite <-(Hg x y), (Hg x' y); [done|by right|done|by left|done].
  - apply IH; intros; [apply Hf|eapply Hg]; try done; by right.
Qed.

Lemma fmap_join {A B} (f : A → B) (ls : list (list A)) : f <$> mjoin ls = mjoin (fmap f <$> ls).
Proof. induction ls as [|l ls IH]; simpl; [done|]. by rewrite fmap_app, IH. Qed.

Lemma values_of_bucket l r key :
  ihash key mod nReduce = r → values_of key (bucket nReduce r l) = values_of key l.
Proof.
  intros Hr. unfold values_of, bucket. f_equal. rewrite list_filter_filter. apply list_filter_iff.
  intros kv. split; [by intros [? _]|]. intros E. by rewrite E.
Qed.

Lemma buckets_cover l :
  0 < nReduce →
  mjoin ((λ r, reduce_lines (bucket nReduce r l)) <$> zrange nReduce) ≡ₚ reduce_lines l.
Proof.
  intros HR. destruct (reduce_lines_spec l) as (Hnd & Hin & ->).
  assert (∀ r key, key ∈ reduced_keys (bucket nReduce r l) ↔
    key ∈ Key <$> l ∧ ihash key mod nReduce = r) as Hkeys.
  { intros r key. destruct (reduce_lines_spec (bucket nReduce r l)) as (_ & -> & _).
    rewrite !list_elem_of_fmap. unfold bucket. setoid_rewrite list_elem_of_filter. naive_solver. }
  assert ((λ r, reduce_lines (bucket nReduce r l)) <$> zrange nReduce =
          fmap (key_line l) <$> ((λ r, reduced_keys (bucket nReduce r l)) <$> zrange nReduce)) as ->.
  { rewrite <-list_fmap_compose. apply list_fmap_ext. intros i r _. simpl.
    destruct (reduce_lines_spec (bucket nReduce r l)) as (_ & _ & ->).
    apply list_fmap_ext. intros j key Hk%list_elem_of_lookup_2. unfold key_line.
    rewrite values_of_bucket; [done|]. by apply Hkeys in Hk as [_ ?]. }
  rewrite <-fmap_join. apply fmap_Permutation, NoDup_Permutation; [|done|].
  - apply (NoDup_join _ (λ key, ihash key mod nReduce)); [apply NoDup_zrange| |].
    + intros r _. apply reduce_lines_spec.
    + intros r key _ Hk. by apply Hkeys in Hk as [_ ?].
  - intros key. rewrite list_elem_of_join, Hin. split.
    + intros (ks & Hk & (r & -> & _)%list_elem_of_fmap). by apply Hkeys in Hk as [? _].
    + intros Hk. exists (reduced_keys (bucket nReduce (ihash key mod nReduce) l)).
      split; [by apply Hkeys|]. apply list_elem_of_fmap. eexists. split; [done|].
      apply elem_of_zrange. by apply Z.mod_pos_bound.
Qed.

Lemma mrsequential_ok fs : readable fs → mrsequential fs files = Ret (reduce_lines (emitted fs)).
Proof.
  intros Hrd. unfold mrsequential, emitted.
  assert (∀ l acc, (∀ f, f ∈ l → is_Some (inputs fs !! f)) →
    ofold (λ acc filename, match inputs fs !! filename with
                           | None => Panic
                           | Some content => Ret (acc ++ mapf filename content)
                           end) acc l = Ret (acc ++ mjoin (emits fs <$> l))) as Hgen.
  { induction l as [|f l IH]; intros acc Hl; simpl; [by rewrite app_nil_r|].
    destruct (Hl f) as [c Hc]; [by left|]. rewrite Hc, bind_Ret, IH by (intros; apply Hl; by right).
    unfold emits at 2. rewrite Hc. simpl. by rewrite app_assoc. }
  by rewrite (Hgen files []).
Qed.

End worker.

(** The output of the whole job. *)
Lemma job_lines `{KeySort} mapf reducef json files nReduce fs order rorder :
  (∀ key vs vs', vs ≡ₚ vs' → reducef key vs = reducef key vs') →
  0 < nReduce → readable files fs → json_ok mapf json files fs →
  covers order (len files) → covers rorder nReduce →
  ∃ fs1 fs2,
    run_maps mapf files nReduce fs order = Ret fs1 ∧
    run_reduces reducef json files nReduce fs1 rorder = Some fs2 ∧
    mjoin ((λ r, default [] (outs fs2 !! (- r - 1))) <$> zrange nReduce) ≡ₚ reduce_lines reducef (emitted mapf files fs).
Proof.
  intros Hperm HR Hrd Hjson Hcov Hrcov.
  destruct (run_maps_ok mapf files nReduce fs order HR Hrd Hcov) as (fs1 & Hmaps & Hd).
  destruct (run_reduces_ok mapf reducef json files nReduce fs fs1 order rorder Hd Hcov Hjson Hrcov)
    as (fs2 & Hred & Houts).
  exists fs1, fs2. split_and!; [done..|]. erewrite <-buckets_cover by done.
  erewrite list_fmap_ext; [reflexivity|]. intros i r Hr%list_elem_of_lookup_2.
  apply elem_of_zrange in Hr. simpl. by rewrite Houts.
Qed.

(** C27. The distributed job computes what the sequential program computes: when every
    map task and then every reduce task is run to its end at least once, in any order and
    any number of times, all tasks succeed and the output files together have the lines
    of the sequential output, for a reduce function that does not depend on the
    order of the values. *)
Theorem mr_matches_sequential `{KeySort} mapf reducef json files nReduce fs order rorder :
  (∀ key vs vs', vs ≡ₚ vs' → reducef key vs = reducef key vs') →
  0 < nReduce → readable files fs → json_ok mapf json files fs →
  covers order (len files) → covers rorder nReduce →
  ∃ fs1 fs2 lines,
    run_maps mapf files nReduce fs order = Ret fs1 ∧
    run_reduces reducef json files nReduce fs1 rorder = Some fs2 ∧
    mrsequential mapf reducef fs files = Ret lines ∧
    mjoin ((λ r, default [] (outs fs2 !! (- r - 1))) <$> zrange nReduce) ≡ₚ lines.
Proof.
  intros Hperm HR Hrd Hjson Hcov Hrcov.
  destruct (job_lines mapf reducef json files nReduce fs order rorder) as (fs1 & fs2 & H1 & H2 & H3); [done..|].
  exists fs1, fs2, (reduce_lines reducef (emitted mapf files fs)). split_and!; [done..| |done]. by apply mrsequential_ok.
Qed.

(** ** wc.go on ASCII text *)

Definition is_letter (c : ascii) : bool :=
  let n := N_of_ascii c in
  ((65 <=? n) && (n <=? 90) || (97 <=? n) && (n <=? 122))%N.

(** [strings.FieldsFunc]: the maximal non-empty runs of characters that are no
    separators; [field] is the run being read, reversed. *)
Fixpoint FieldsFunc (sep : ascii → bool) (field : list ascii) (s : list ascii) : list string :=
  let flush := match field with
               | [] => []
               | _ => [String.string_of_list_ascii (reverse field)]
               end in
  match s with
  | [] => flush
  | c :: s => if sep c then flush ++ FieldsFunc sep [] s else FieldsFunc sep (c :: field) s
  end.

Definition wc_Map (filename contents : string) : list KeyValue :=
  (λ w, mkKeyValue w "1") <$> FieldsFunc (λ c, negb (is_letter c)) [] (String.list_ascii_of_string contents).

Definition wc_Reduce (key : string) (values : list string) : string :=
  pretty (N.of_nat (length values)).

Lemma wc_Reduce_perm key vs vs' : vs ≡ₚ vs' → wc_Reduce key vs = wc_Reduce key vs'.
Proof. intros H. unfold wc_Reduce. by rewrite H. Qed.

(** ** A concrete instance: insertion sort *)

Fixpoint insert_key (kv : KeyValue) (l : list KeyValue) : list KeyValue :=
  match l with
  | [] => [kv]
  | x :: l => if str_lt (Key x) (Key kv) then x :: insert_key kv l else kv :: x :: l
  end.

Definition isort_keys (l : list KeyValue) : list KeyValue := foldr insert_key [] l.

Lemma insert_key_perm kv l : insert_key kv l ≡ₚ kv :: l.
Proof.
  induction l as [|x l IH]; simpl; [done|]. destruct (str_lt _ _); [|done].
  rewrite IH. apply Permutation_swap.
Qed.

Lemma isort_keys_perm l : isort_keys l ≡ₚ l.
Proof. induction l as [|x l IH]; simpl; [done|]. rewrite insert_key_perm. by f_equiv. Qed.

Lemma str_lt_irrefl a : str_lt a a = false.
Proof. induction a as [|c a IH]; simpl; [done|]. rewrite N.ltb_irrefl, N.eqb_refl. done. Qed.

Lemma str_lt_asym a b : str_lt a b = true → str_lt b a = false.
Proof.
  intros Hab. destruct (str_lt b a) eqn:Hba; [|done].
  pose proof (str_lt_trans a b a Hab Hba) as H. by rewrite str_lt_irrefl in H.
Qed.

Lemma key_sorted_insert kv l : key_sorted l → key_sorted (insert_key kv l).
Proof.
  assert (∀ x l, key_sorted l → (∀ y, y ∈ l → str_lt (Key y) (Key x) = false) → key_sorted (x :: l))
    as Hcons.
  { intros x l' Hl Hx [|i] [|j] a b Ha Hb Hij; simpl in *; try lia.
    - injection Ha as ->. apply Hx. by eapply list_elem_of_lookup_2.
    - eapply (Hl i j); [done..|lia]. }
  induction l as [|x l IH]; intros Hs; simpl.
  { apply Hcons; [done|]. by intros ? ?%not_elem_of_nil. }
  destruct (key_sorted_cons _ _ Hs) as [Hl Hx]. destruct (str_lt (Key x) (Key kv)) eqn:E.
  - apply Hcons; [by apply IH|]. intros y. rewrite insert_key_perm.
    intros [->|Hy]%elem_of_cons; [by apply str_lt_asym|by apply Hx].
  - apply Hcons; [done|]. intros y [->|Hy]%elem_of_cons; [done|].
    destruct (str_lt (Key y) (Key kv)) eqn:E'; [|done]. exfalso.
    destruct (str_lt (Key kv) (Key x)) eqn:E2.
    + specialize (Hx y Hy). by rewrite (str_lt_trans _ _ _ E' E2) in Hx.
    + pose proof (str_lt_total _ _ E E2) as Eq. specialize (Hx y Hy). congruence.
Qed.

Lemma isort_keys_sorted l : key_sorted (isort_keys l).
Proof.
  induction l as [|x l IH]; simpl; [by intros [|?] ? ? ? ?|]. by apply key_sorted_insert.
Qed.

Definition isort : KeySort :=
  {| sort_keys := isort_keys; sort_keys_perm := isort_keys_perm;
     sort_keys_sorted := isort_keys_sorted |}.

Definition two_files : FS :=
  mkFS {[ "a"%string := "the cat"%string; "b"%string := "the dog the"%string ]} ∅ ∅.

Lemma mr_matches_sequential_witness :
  ∃ fs1 fs2 lines,
    run_maps wc_Map ["a"%string; "b"%string] 2 two_files [1; 0; 1] = Ret fs1 ∧
    @run_reduces isort wc_Reduce id ["a"%string; "b"%string] 2 fs1 [0; 1] = Some fs2 ∧
    @mrsequential isort wc_Map wc_Reduce two_files ["a"%string; "b"%string] = Ret lines ∧
    mjoin ((λ r, default [] (outs fs2 !! (- r - 1))) <$> zrange 2) ≡ₚ lines ∧
    line "the" "3" ∈ lines.
Proof.
  destruct (@mr_matches_sequential isort wc_Map wc_Reduce id ["a"%string; "b"%string] 2 two_files
              [1; 0; 1] [0; 1]) as (fs1 & fs2 & lines & H1 & H2 & H3 & H4).
  - exact wc_Reduce_perm.
  - lia.
  - intros f Hf. apply elem_of_cons in Hf as [->|Hf%list_elem_of_singleton]; [by eexists|].
    subst f. by eexists.
  - by intros kv _.
  - intros t. change (len _) with 2. rewrite !elem_of_cons, elem_of_nil. lia.
  - intros t. rewrite !elem_of_cons, elem_of_nil. lia.
  - exists fs1, fs2, lines. split; [exact H1|]. split; [exact H2|]. split; [exact H3|].
    split; [exact H4|]. vm_compute in H3. apply Ret_inj in H3. rewrite <-H3.
    apply (bool_decide_unpack _). by vm_compute.
Defined.
