(* ===== verification/MrApps.v ===== *)
(** * mrapps: the other MapReduce applications

    Models [src/src/mrapps]: the inverted index of [indexer.go], the applications that
    crash, sleep or count their invocations ([crash.go], [nocrash.go], [early_exit.go],
    [jobcount.go]) and those that look for other workers ([mtiming.go], [rtiming.go]).
    Text is ASCII, as for the word count in [MrWorker].

    What the operating system answers is an argument: whether a file could be written,
    the names in the directory, which processes live, random numbers and times. *)
From Stdlib Require Import Strings.Ascii.
From stdpp Require Import pretty.
From S2P Require Import Prelude MrWorker.

(** ** Sorting and joining strings *)

Definition str_le (a b : string) : Prop := str_lt b a = false.

#[export] Instance str_le_dec a b : Decision (str_le a b).
Proof. unfold str_le. apply _. Defined.

#[export] Instance str_le_trans : Transitive str_le.
Proof.
  intros a b c Hab Hbc. unfold str_le in *. destruct (str_lt c a) eqn:Hca; [|done].
  destruct (str_lt b c) eqn:Hbc'; [by rewrite (str_lt_trans _ _ _ Hbc' Hca) in Hab|].
  pose proof (str_lt_total _ _ Hbc' Hbc) as <-. congruence.
Qed.

#[export] Instance str_le_total : Total str_le.
Proof.
  intros a b. unfold str_le. destruct (str_lt b a) eqn:E; [right; by apply str_lt_asym|by left].
Qed.

#[export] Instance str_le_antisym : AntiSymm (=) str_le.
Proof. intros a b Hab Hba. by apply str_lt_total. Qed.

(** [sort.Strings]: equal strings are the same, so that its result does not depend on how
    it sorts. *)
Definition sort_strings (l : list string) : list string := merge_sort str_le l.

Lemma sort_strings_unique l k : l ≡ₚ k → sort_strings l = sort_strings k.
Proof.
  intros Hlk. apply (StronglySorted_unique str_le); [by apply StronglySorted_merge_sort; apply _..|].
  unfold sort_strings. by rewrite !merge_sort_Permutation.
Qed.

(** [strings.Join] *)
Fixpoint Join (sep : string) (l : list string) : string :=
  match l with
  | [] => ""
  | [s] => s
  | s :: l => s +:+ sep +:+ Join sep l
  end.

Definition words (text : string) : list string :=
  FieldsFunc (λ c, negb (is_letter c)) [] (String.list_ascii_of_string text).

(** ** indexer.go *)

Definition indexer_Map {ranges : MapRange} (document value : string) : list KeyValue :=
  let m : gmap string bool := foldl (λ m w, <[w := true]> m) ∅ (words value) in
  (λ '(w, _), mkKeyValue w document) <$> range m.

Definition indexer_Reduce (key : string) (values : list string) : string :=
  pretty (N.of_nat (length values)) +:+ " " +:+ Join "," (sort_strings values).

Lemma indexer_Reduce_perm key vs vs' : vs ≡ₚ vs' → indexer_Reduce key vs = indexer_Reduce key vs'.
Proof. intros H. unfold indexer_Reduce. by rewrite (sort_strings_unique _ _ H), H. Qed.

(** A document is emitted once for every word in it. *)
Lemma indexer_Map_spec {ranges : MapRange} document value w :
  values_of w (indexer_Map document value) = if decide (w ∈ words value) then [document] else [].
Proof.
  set (m := foldl (λ m w, <[w := true]> m) (∅ : gmap string bool) (words value)).
  assert (∀ w, is_Some (m !! w) ↔ w ∈ words value) as Hm.
  { apply (foldl_prefix (λ seen (m : gmap string bool), ∀ w, is_Some (m !! w) ↔ w ∈ seen)).
    - intros w'. rewrite lookup_empty, elem_of_nil. split; [by intros []|done].
    - intros seen x m' _ IH w'. rewrite elem_of_app, list_elem_of_singleton, <-IH.
      destruct (decide (x = w')) as [->|]; [rewrite lookup_insert_eq; naive_solver|]. rewrite lookup_insert_ne by done. naive_solver. }
  unfold values_of, indexer_Map. fold m.
  assert (∀ (l : list (string * bool)), NoDup l.*1 →
    Value <$> filter (λ kv, Key kv = w) ((λ '(w, _), mkKeyValue w document) <$> l) = if decide (w ∈ l.*1) then [document] else []) as Hl.
  { induction l as [|[x b] l IH]; intros Hnd; [done|]. apply NoDup_cons in Hnd as [Hx Hnd]. rewrite !fmap_cons, filter_cons. cbn [Key fst].
    destruct (decide (x = w)) as [->|Hne].
    - rewrite decide_True by (by left). rewrite fmap_cons, IH, decide_False by done. done.
    - rewrite IH by done. apply decide_ext. rewrite elem_of_cons. naive_solver. }
  rewrite Hl by apply NoDup_range. apply decide_ext. rewrite <-Hm, range_perm. split.
  - intros ([x b] & -> & Hin)%list_elem_of_fmap. apply elem_of_map_to_list in Hin. by eexists.
  - intros [b Hb]. apply list_elem_of_fmap. exists (w, b). split; [done|]. by apply elem_of_map_to_list.
Qed.

(** The documents that have the word. *)
Definition documents (fs : FS) (files : list string) (w : string) : list string :=
  filter (λ f, w ∈ words (default ""%string (inputs fs !! f))) files.

Lemma values_of_emitted {ranges : MapRange} files fs w : values_of w (emitted indexer_Map files fs) = documents fs files w.
Proof.
  unfold emitted, documents. induction files as [|f files IH]; [done|]. cbn [fmap list_fmap]. simpl. unfold values_of in *.
  rewrite filter_app, fmap_app, IH, filter_cons. fold (values_of w (emits indexer_Map fs f)). unfold emits. rewrite indexer_Map_spec. by case_decide.
Qed.

(** C28. MapReduce with [indexer.go] builds an inverted index: however the tasks are ordered
    and repeated, the output has exactly one line for every word of the input files, with
    the number of files that have the word and their names in increasing order. *)
Theorem index_lists_documents {ranges : MapRange} `{KeySort} json files nReduce fs order rorder :
  0 < nReduce → readable files fs → json_ok indexer_Map json files fs →
  covers order (len files) → covers rorder nReduce →
  ∃ fs1 fs2 ws,
    run_maps indexer_Map files nReduce fs order = Ret fs1 ∧
    run_reduces indexer_Reduce json files nReduce fs1 rorder = Some fs2 ∧
    NoDup ws ∧ (∀ w, w ∈ ws ↔ documents fs files w ≠ []) ∧
    mjoin ((λ r, default [] (outs fs2 !! (- r - 1))) <$> zrange nReduce) ≡ₚ
      (λ w, line w (pretty (N.of_nat (length (documents fs files w))) +:+ " " +:+ Join "," (sort_strings (documents fs files w)))) <$> ws.
Proof.
  intros HR Hrd Hjson Hcov Hrcov.
  destruct (job_lines indexer_Map indexer_Reduce json files nReduce fs order rorder) as (fs1 & fs2 & H1 & H2 & H3);
    [apply indexer_Reduce_perm|done..|].
  destruct (reduce_lines_spec indexer_Reduce indexer_Reduce_perm (emitted indexer_Map files fs)) as (Hnd & Hin & Hlines).
  exists fs1, fs2, (reduced_keys (emitted indexer_Map files fs)). split_and!; [done..| |].
  - intros w. rewrite Hin, <-values_of_emitted. unfold values_of. split.
    + intros (kv & -> & Hkv)%list_elem_of_fmap Hnil. apply fmap_nil_inv in Hnil.
      assert (kv ∈ filter (λ kv', Key kv' = Key kv) (emitted indexer_Map files fs)) as Hf by (by apply list_elem_of_filter).
      rewrite Hnil in Hf. by apply elem_of_nil in Hf.
    + intros Hne. destruct (filter _ _) as [|kv l] eqn:Hf; [done|]. assert (kv ∈ kv :: l) as Hkv by left. rewrite <-Hf in Hkv.
      apply list_elem_of_filter in Hkv as [<- Hkv]. apply list_elem_of_fmap. by exists kv.
  - rewrite H3, Hlines. erewrite list_fmap_ext; [reflexivity|]. intros i w _. simpl. unfold key_line, indexer_Reduce.
    by rewrite values_of_emitted.
Qed.

(** ** crash.go, nocrash.go and early_exit.go *)

(** [rr] is the random number; [os.Exit] ends the worker. *)
Definition maybeCrash (rr : Z) : outcome unit := if rr <? 330 then Panic else Ret tt.

(** The pairs that both applications emit. *)
Definition crash_pairs (filename contents : string) : list KeyValue :=
  [mkKeyValue "a" filename; mkKeyValue "b" (pretty (N.of_nat (String.length filename)));
   mkKeyValue "c" (pretty (N.of_nat (String.length contents))); mkKeyValue "d" "xyzzy"].

Definition crash_Map (rr : Z) (filename contents : string) : outcome (list KeyValue) :=
  _ ← maybeCrash rr; Ret (crash_pairs filename contents).

(** The values in order, so that the output does not depend on theirs. *)
Definition crash_Reduce (rr : Z) (key : string) (values : list string) : outcome string :=
  _ ← maybeCrash rr; Ret (Join " " (sort_strings values)).

(** The condition of [nocrash.go] is never true. *)
Definition nocrash_Map (filename contents : string) : list KeyValue := crash_pairs filename contents.
Definition nocrash_Reduce (key : string) (values : list string) : string := Join " " (sort_strings values).

Lemma nocrash_Reduce_perm key vs vs' : vs ≡ₚ vs' → nocrash_Reduce key vs = nocrash_Reduce key vs'.
Proof. intros H. unfold nocrash_Reduce. by rewrite (sort_strings_unique _ _ H). Qed.

(** A call that does not crash does what [nocrash.go] does. *)
Lemma crash_or_not rr key values filename contents :
  (crash_Map rr filename contents = Panic ∧ crash_Reduce rr key values = Panic) ∨
  (crash_Map rr filename contents = Ret (nocrash_Map filename contents) ∧ crash_Reduce rr key values = Ret (nocrash_Reduce key values)).
Proof. unfold crash_Map, crash_Reduce, maybeCrash. destruct (rr <? 330); [by left|by right]. Qed.

Definition early_exit_Map (filename contents : string) : list KeyValue := [mkKeyValue filename "1"].
Definition early_exit_Reduce (key : string) (values : list string) : string := pretty (N.of_nat (length values)).

(** ** Numbers in names *)

(** The value of a digit. *)
Definition digit (c : ascii) : option Z :=
  let n := Z.of_N (N_of_ascii c) in if (48 <=? n) && (n <=? 57) then Some (n - 48) else None.

(** The digits at the head of a string: their value after [acc], and the rest. *)
Fixpoint scan_digits (acc : Z) (s : string) : Z * string :=
  match s with
  | String c s' => match digit c with Some d => scan_digits (10 * acc + d) s' | None => (acc, s) end
  | EmptyString => (acc, s)
  end.

Definition no_digit (s : string) : Prop := match s with String c _ => digit c = None | EmptyString => True end.

Lemma string_app_assoc (a b c : string) : (a +:+ b) +:+ c = a +:+ (b +:+ c).
Proof. induction a as [|x a IH]; [done|]. change (String x ((a +:+ b) +:+ c) = String x (a +:+ (b +:+ c))). by rewrite IH. Qed.

Lemma pretty_N_go_app x s : pretty_N_go x s = pretty_N_go x "" +:+ s.
Proof.
  revert s. induction (N.lt_wf_0 x) as [x _ IH]; intros s. destruct (decide (0 < x)%N) as [Hx|Hx].
  - rewrite !(pretty_N_go_step x) by done. assert (x `div` 10 < x)%N as Hlt by (by apply N.div_lt).
    rewrite (IH _ Hlt (String _ s)), (IH _ Hlt (String _ "")). by rewrite string_app_assoc.
  - assert (x = 0%N) as -> by lia. by rewrite !pretty_N_go_0.
Qed.

Lemma digit_char x : (x < 10)%N → digit (pretty_N_char x) = Some (Z.of_N x).
Proof.
  intros Hx. assert (x = 0 ∨ x = 1 ∨ x = 2 ∨ x = 3 ∨ x = 4 ∨ x = 5 ∨ x = 6 ∨ x = 7 ∨ x = 8 ∨ x = 9)%N as Hc by lia.
  by destruct Hc as [->|[->|[->|[->|[->|[->|[->|[->|[->| ->]]]]]]]]].
Qed.

Lemma scan_digits_go x s : scan_digits 0 (pretty_N_go x s) = scan_digits (Z.of_N x) s.
Proof.
  revert s. induction (N.lt_wf_0 x) as [x _ IH]; intros s. destruct (decide (0 < x)%N) as [Hx|Hx].
  - rewrite pretty_N_go_step, IH by (done || by apply N.div_lt). simpl. rewrite digit_char by (by apply N.mod_lt).
    f_equal. pose proof (N.div_mod x 10 ltac:(done)). lia.
  - assert (x = 0%N) as -> by lia. by rewrite pretty_N_go_0.
Qed.

(** A printed number is read back. *)
Lemma scan_digits_pretty z s : 0 ≤ z → no_digit s → scan_digits 0 (pretty z +:+ s) = (z, s).
Proof.
  intros Hz Hs. assert (∀ a, scan_digits a s = (a, s)) as Hstop by (intros a; destruct s as [|c s]; simpl in *; [done|by rewrite Hs]).
  destruct z as [|p|p]; [|clear Hz|lia].
  - simpl. apply Hstop.
  - change (pretty (Z.pos p)) with (pretty (N.pos p)). unfold pretty, pretty_N. rewrite decide_False by done.
    rewrite <-pretty_N_go_app, scan_digits_go. apply Hstop.
Qed.

(** ** jobcount.go *)

(** The names in the directory, and the variable [count] of every process. *)
Record Jobs := mkJobs { jobs_dir : gset string; jobs_count : gmap Z Z }.

Definition count_of (s : Jobs) (pid : Z) : Z := default 0 (jobs_count s !! pid).

Definition jobcount_file (pid count : Z) : string := "mr-worker-jobcount-" +:+ pretty pid +:+ "-" +:+ pretty count.

(** [written]: the file could be written. *)
Definition jobcount_Map (pid : Z) (written : bool) (filename contents : string) (s : Jobs) : outcome (Jobs * list KeyValue) :=
  let f := jobcount_file pid (count_of s pid) in
  let counts := <[pid := wrap 64 (count_of s pid + 1)]> (jobs_count s) in
  if negb written then Panic else Ret (mkJobs ({[f]} ∪ jobs_dir s) counts, [mkKeyValue "a" "x"]).

Definition is_job (name : string) : bool := String.prefix "mr-worker-jobcount" name.

Definition jobcount_Reduce (key : string) (values : list string) (s : Jobs) : string :=
  let invocations := foldl (λ n f, if is_job f then (n + 1)%nat else n) 0%nat (elements (jobs_dir s)) in
  pretty (N.of_nat invocations).

Lemma numbers_inj (p p' k k' : Z) :
  0 ≤ p → 0 ≤ p' → pretty p +:+ "-" +:+ pretty k = pretty p' +:+ "-" +:+ pretty k' → p = p' ∧ k = k'.
Proof.
  intros Hp Hp' Heq. apply (f_equal (scan_digits 0)) in Heq. rewrite !scan_digits_pretty in Heq by done.
  injection Heq as -> Heq. change (pretty k = pretty k') in Heq. split; [done|].
  by apply (inj pretty).
Qed.

Lemma jobcount_file_inj p p' k k' : 0 ≤ p → 0 ≤ p' → jobcount_file p k = jobcount_file p' k' → p = p' ∧ k = k'.
Proof. intros Hp Hp' Heq. apply numbers_inj; [done..|]. unfold jobcount_file in Heq. by repeat (injection Heq as Heq). Qed.

Definition job_files (s : Jobs) : gset string := filter (λ f, is_job f = true) (jobs_dir s).

Lemma foldl_count {A} (p : A → bool) l (n : nat) :
  foldl (λ n f, if p f then (n + 1)%nat else n) n l = (n + length (filter (λ f, p f = true) l))%nat.
Proof.
  revert n. induction l as [|x l IH]; intros n; simpl; [lia|]. rewrite IH, filter_cons.
  destruct (p x); [rewrite decide_True by done; simpl; lia|by rewrite decide_False].
Qed.

Lemma jobcount_Reduce_size key values s : jobcount_Reduce key values s = pretty (N.of_nat (size (job_files s))).
Proof.
  unfold jobcount_Reduce, job_files. rewrite foldl_count. f_equal. f_equal. simpl.
  unfold size, set_size. simpl. apply Permutation_length, NoDup_Permutation.
  - apply NoDup_filter, NoDup_elements.
  - apply NoDup_elements.
  - intros f. rewrite list_elem_of_filter, !elem_of_elements, elem_of_filter. done.
Qed.

(** The files of the processes are [0 .. count - 1] of each. *)
Record jobs_ok (calls : nat) (s : Jobs) : Prop := {
  jo_count pid : 0 ≤ count_of s pid ≤ Z.of_nat calls;
  jo_files f : f ∈ job_files s → ∃ pid k, 0 ≤ pid ∧ 0 ≤ k < count_of s pid ∧ f = jobcount_file pid k;
  jo_size : size (job_files s) = calls;
}.

Lemma jobcount_Map_ok calls pid filename contents s :
  Z.of_nat (S calls) < 2 ^ 63 → 0 ≤ pid → jobs_ok calls s →
  ∃ s', jobcount_Map pid true filename contents s = Ret (s', [mkKeyValue "a" "x"]) ∧ jobs_ok (S calls) s'.
Proof.
  intros Hb Hpid [Hc Hf Hs]. eexists. split; [done|]. set (f := jobcount_file pid (count_of s pid)).
  pose proof (Hc pid) as Hcp. rewrite wrap_id by lia.
  assert (∀ p, count_of (mkJobs ({[f]} ∪ jobs_dir s) (<[pid := count_of s pid + 1]> (jobs_count s))) p =
    if decide (p = pid) then count_of s pid + 1 else count_of s p) as Hcount.
  { intros p. unfold count_of at 1. simpl. case_decide as Hp; [subst; by rewrite lookup_insert_eq|]. by rewrite lookup_insert_ne by congruence. }
  assert (is_job f = true) as Hjob by done.
  assert (f ∉ job_files s) as Hnew.
  { intros (p & k & Hp & Hk & Heq)%Hf. apply jobcount_file_inj in Heq as [<- <-]; [lia|done|done]. }
  assert (job_files (mkJobs ({[f]} ∪ jobs_dir s) (<[pid := count_of s pid + 1]> (jobs_count s))) = {[f]} ∪ job_files s) as Hfiles.
  { unfold job_files. simpl. apply leibniz_equiv. intros g. rewrite elem_of_filter, !elem_of_union, elem_of_filter, elem_of_singleton. naive_solver. }
  split.
  - intros p. rewrite Hcount. pose proof (Hc p). case_decide; lia.
  - intros g. rewrite Hfiles. intros [->%elem_of_singleton|(p & k & Hp & Hk & ->)%Hf]%elem_of_union.
    + exists pid, (count_of s pid). rewrite Hcount, decide_True by done. split_and!; [lia..|done].
    + exists p, k. rewrite Hcount. split_and!; [lia..|case_decide; subst; lia|done].
  - rewrite Hfiles, size_union, size_singleton, Hs by set_solver. lia.
Qed.

(** The reduce task reports how often a map task was run, whichever processes ran them. *)
Lemma jobcount_counts (pids : list Z) filename contents s0 key values :
  job_files s0 = ∅ → jobs_count s0 = ∅ → (∀ pid, pid ∈ pids → 0 ≤ pid) → Z.of_nat (length pids) < 2 ^ 63 →
  ∃ s, ofold (λ s pid, '(s, _) ← jobcount_Map pid true filename contents s; Ret s) s0 pids = Ret s ∧
    jobcount_Reduce key values s = pretty (N.of_nat (length pids)).
Proof.
  intros Hf Hc Hpids Hb.
  destruct (ofold_split_total (λ seen s, jobs_ok (length seen) s) (λ s pid, '(s, _) ← jobcount_Map pid true filename contents s; Ret s) pids s0)
    as (s & Hs & Hok).
  - split; [|by rewrite Hf|by rewrite Hf]. intros pid. unfold count_of. by rewrite Hc, lookup_empty.
  - intros seen pid rest s -> Hok. rewrite length_app in Hb. simpl in Hb.
    destruct (jobcount_Map_ok (length seen) pid filename contents s) as (s' & -> & Hok'); [lia|apply Hpids; set_solver|done|].
    exists s'. split; [done|]. rewrite length_app. simpl. by rewrite Nat.add_1_r.
  - exists s. split; [done|]. rewrite jobcount_Reduce_size. by rewrite (jo_size _ _ Hok).
Qed.

(** ** mtiming.go and rtiming.go *)

(** [strings.TrimPrefix] that fails. *)
Fixpoint strip (pre s : string) : option string :=
  match pre, s with
  | EmptyString, _ => Some s
  | String c pre, String c' s => if bool_decide (c = c') then strip pre s else None
  | _, _ => None
  end.

Definition is_blank (c : ascii) : bool := bool_decide (c ∈ [" "; "009"; "011"; "012"; "013"]%char).

Fixpoint skip_space (s : string) : string :=
  match s with String c s' => if is_blank c then skip_space s' else s | EmptyString => s end.

(** What the verb d of [fmt.Sscanf] reads into an [int]: blanks, a sign and digits; the rest of the
    string is left. *)
Definition scan_int (s : string) : option Z :=
  let s := skip_space s in
  let '(negative, s) := match s with
                        | String "-" s' => (true, s')
                        | String "+" s' => (false, s')
                        | _ => (false, s)
                        end in
  match s with
  | String c _ =>
      if bool_decide (is_Some (digit c)) then
        let v := (scan_digits 0 s).1 in
        let v := if (negative : bool) then - v else v in
        if (- 2 ^ 63 <=? v) && (v <? 2 ^ 63) then Some v else None
      else None
  | EmptyString => None
  end.

Definition worker_prefix (phase : string) : string := "mr-worker-" +:+ phase +:+ "-".

(** [fmt.Sscanf(name, pat, &xpid)] with [n == 1 && err == nil] *)
Definition Sscanf (phase name : string) : option Z := rest ← strip (worker_prefix phase) name; scan_int rest.

(** [names] is what the directory listed after the file was written, [None] an error;
    [alive] tells which processes a signal 0 can be sent to. *)
Definition nparallel (phase : string) (written removed : bool) (names : option (list string)) (alive : Z → bool) : outcome Z :=
  if negb written then Panic
  else
    match names with
    | None => Panic
    | Some names =>
        let ret := foldl (λ ret name,
          match Sscanf phase name with Some xpid => if alive xpid then ret + 1 else ret | None => ret end) 0 names in
        if negb removed then Panic else Ret ret
    end.

Definition worker_file (phase : string) (pid : Z) : string := worker_prefix phase +:+ pretty pid.

(** [ts] is the time of the call, printed; [n] what [nparallel] returned. *)
Definition mtiming_Map (pid n : Z) (ts filename contents : string) : list KeyValue :=
  [mkKeyValue ("times-" +:+ pretty pid) ts; mkKeyValue ("parallel-" +:+ pretty pid) (pretty n)].
Definition mtiming_Reduce (key : string) (values : list string) : string := Join " " (sort_strings values).

Definition rtiming_Map (filename contents : string) : list KeyValue :=
  (λ key, mkKeyValue key "1") <$> ["a"; "b"; "c"; "d"; "e"; "f"; "g"; "h"; "i"; "j"]%string.
Definition rtiming_Reduce (n : Z) (key : string) (values : list string) : string := pretty n.

Lemma strip_app pre s : strip pre (pre +:+ s) = Some s.
Proof.
  induction pre as [|c pre IH]; [done|]. change (String c pre +:+ s) with (String c (pre +:+ s)). simpl. by rewrite bool_decide_eq_true_2.
Qed.

Lemma pretty_head z : 0 ≤ z → ∃ c s, pretty z = String c s ∧ is_Some (digit c).
Proof.
  intros Hz. destruct z as [|p|p]; [by exists "0"%char, ""%string|clear Hz|lia].
  destruct (pretty (Z.pos p)) as [|c s] eqn:Hp.
  - pose proof (scan_digits_pretty (Z.pos p) "" ltac:(done) I) as Hs. rewrite Hp in Hs. discriminate Hs.
  - exists c, s. split; [done|]. pose proof (scan_digits_pretty (Z.pos p) "" ltac:(done) I) as Hs. rewrite Hp in Hs.
    change (String c s +:+ "") with (String c (s +:+ "")) in Hs. simpl in Hs. by destruct (digit c).
Qed.

Lemma digit_not_blank c : is_Some (digit c) → is_blank c = false ∧ c ≠ "-"%char ∧ c ≠ "+"%char.
Proof.
  intros Hc. split_and!; [|intros ->; by destruct Hc..]. apply bool_decide_eq_false. intros Hin.
  repeat (apply elem_of_cons in Hin as [->|Hin]; [by destruct Hc|]). by apply elem_of_nil in Hin.
Qed.

Lemma string_app_nil (s : string) : s +:+ "" = s.
Proof. induction s as [|c s IH]; [done|]. change (String c s +:+ "") with (String c (s +:+ "")). by rewrite IH. Qed.

(** The number of a process is read back from the name of its file. *)
Lemma Sscanf_worker_file phase pid : 0 ≤ pid < 2 ^ 63 → Sscanf phase (worker_file phase pid) = Some pid.
Proof.
  intros Hpid. unfold Sscanf, worker_file. rewrite strip_app. simpl. destruct (pretty_head pid) as (c & s & Hp & Hc); [lia|].
  pose proof (scan_digits_pretty pid "" ltac:(lia) I) as Hs. rewrite string_app_nil in Hs.
  destruct (digit_not_blank c Hc) as (Hb & Hm & Hpl). unfold scan_int. rewrite Hp in *. cbn [skip_space]. rewrite Hb.
  assert (match String c s with
          | String "-" s' => (true, s') | String "+" s' => (false, s') | _ => (false, String c s) end = (false, String c s)) as ->.
  { destruct c as [[] [] [] [] [] [] [] []]; done. }
  rewrite bool_decide_eq_true_2 by done. rewrite Hs. simpl. by destruct (Z.ltb_spec pid (2 ^ 63)); [rewrite andb_true_r|]; destruct (Z.leb_spec (- 2 ^ 63) pid); try lia.
Qed.

Lemma foldl_count_option {A} (f : A → option Z) (alive : Z → bool) l (n : Z) :
  foldl (λ ret x, match f x with Some pid => if alive pid then ret + 1 else ret | None => ret end) n l =
  n + len (filter (λ x, from_option alive false (f x) = true) l).
Proof.
  revert n. induction l as [|x l IH]; intros n; simpl; [unfold len; simpl; lia|]. rewrite IH, filter_cons.
  destruct (f x) as [pid|]; simpl; [|done]. destruct (alive pid); [|done]. simpl. rewrite len_cons. lia.
Qed.

(** Workers of the phase that run while the directory is read are all counted. *)
Lemma nparallel_counts phase names alive pids :
  NoDup pids → (∀ pid, pid ∈ pids → 0 ≤ pid < 2 ^ 63 ∧ alive pid = true ∧ worker_file phase pid ∈ names) →
  ∃ n, nparallel phase true true (Some names) alive = Ret n ∧ len pids ≤ n.
Proof.
  intros Hnd Hpids. eexists. split; [done|]. rewrite foldl_count_option, Z.add_0_l. unfold len.
  rewrite <-(length_fmap (worker_file phase) pids). apply Nat2Z.inj_le, submseteq_length, NoDup_submseteq.
  - apply NoDup_fmap_2_strong; [|done]. intros p q Hp Hq Heq. apply (f_equal (Sscanf phase)) in Heq.
    rewrite !Sscanf_worker_file in Heq by (by apply Hpids). congruence.
  - intros f (pid & -> & Hpid)%list_elem_of_fmap. destruct (Hpids pid Hpid) as (Hb & Ha & Hin). apply list_elem_of_filter.
    split; [|done]. by rewrite Sscanf_worker_file.
Qed.

(** ** A concrete index *)

Lemma index_lists_documents_witness :
  ∃ fs1 fs2 ws,
    @run_maps (@indexer_Map range_default) ["b"; "a"]%string 2 two_files [1; 0; 1] = Ret fs1 ∧
    @run_reduces isort indexer_Reduce id ["b"; "a"]%string 2 fs1 [0; 1] = Some fs2 ∧
    mjoin ((λ r, default [] (outs fs2 !! (- r - 1))) <$> zrange 2) ≡ₚ
      (λ w, line w (pretty (N.of_nat (length (documents two_files ["b"; "a"] w))) +:+ " "
                    +:+ Join "," (sort_strings (documents two_files ["b"; "a"] w))))%string <$> ws ∧
    documents two_files ["b"; "a"]%string "the" = ["b"; "a"]%string ∧
    indexer_Reduce "the" (documents two_files ["b"; "a"] "the")%string = "2 a,b"%string.
Proof.
  destruct (@index_lists_documents range_default isort id ["b"; "a"]%string 2 two_files [1; 0; 1] [0; 1])
    as (fs1 & fs2 & ws & H1 & H2 & _ & _ & H3).
  - lia.
  - intros f Hf. apply elem_of_cons in Hf as [->|Hf%list_elem_of_singleton]; [by eexists|]. subst f. by eexists.
  - by intros kv _.
  - intros t. change (len _) with 2. rewrite !elem_of_cons, elem_of_nil. lia.
  - intros t. rewrite !elem_of_cons, elem_of_nil. lia.
  - exists fs1, fs2, ws. split; [exact H1|]. split; [exact H2|]. split; [exact H3|]. split; vm_compute; reflexivity.
Defined.
