(* ===== verification/MrCoordinator.v ===== *)
(** * mr: the coordinator

    Models [src/src/mr/coordinator.go], [task.go] and [rpc.go].  A pointer into
    [c.tasks] is the index of the task.  The handlers run under [c.mu] in the loop of
    [run]; [catchTimeout] takes the same lock; [mapTaskBegin] and [reduceTaskBegin]
    feed the buffered channel [tasksCh] in a goroutine of their own.  A channel is
    the list of what its buffer holds, with its capacity; a send to a full buffer
    blocks.  Times are in nanoseconds. *)
From S2P Require Import Prelude.

(** ** task.go *)

Inductive State := WAIT | MAP | SHUFFLE | REDUCE | DONE.

#[export] Instance State_eq_dec : EqDecision State.
Proof. solve_decision. Defined.

Inductive TaskStatus := Idle | Inprogress | Completed.

#[export] Instance TaskStatus_eq_dec : EqDecision TaskStatus.
Proof. solve_decision. Defined.

Record TaskMeta := mkTaskMeta {
  TaskId : Z;
  Filename : string;
  meta_State : State;
  StartWorkTime : Z;
}.

Record Task := mkTask { Status : TaskStatus; Metadata : TaskMeta }.

(** ** rpc.go *)

Record AskTaskReply := mkAskTaskReply {
  reply_Task : Task;
  reply_WorkerId : Z;
  reply_NReduce : Z;
  reply_MMap : Z;
  reply_TaskBeginTime : Z;
}.

Record FinishTaskArgs := mkFinishTaskArgs {
  args_WorkerId : Z;
  args_TaskId : Z;
  args_TaskBeginTime : Z;
}.

(** ** coordinator.go *)

(** Go's [max], and [abs], which maps the reduce task ids -1, -2, ... to 0, 1, ... *)
Definition max (a b : Z) : Z := if a >? b then a else b.
Definition abs (x : Z) : Z := if x <? 0 then - x - 1 else x.

(** The goroutine that feeds [tasksCh]: what it has still to send, or that it has
    sent on [tasksCh_sendClosed] and returned. *)
Inductive Feeder := Feeding (rest : list Z) | Fed.

Record Coordinator := mkCoordinator {
  inputFiles : list string;
  state : State;
  mMap : Z;
  nReduce : Z;
  tasks : list Task;
  tasksCh : list Z;
  tasksCh_cap : Z;
  tasksCh_sendClosed : bool;
  workerId_task : gmap Z Z;
  workerIdCh : list Z;
  workerIdCh_cap : Z;
  map2ReduceCh : bool;
  doneCh : bool;
  feeder : Feeder;
}.

Definition eta_Coordinator (c : Coordinator) : Coordinator :=
  mkCoordinator (inputFiles c) (state c) (mMap c) (nReduce c) (tasks c) (tasksCh c) (tasksCh_cap c)
    (tasksCh_sendClosed c) (workerId_task c) (workerIdCh c) (workerIdCh_cap c) (map2ReduceCh c)
    (doneCh c) (feeder c).

#[global] Instance set_state : Setter state := λ f x, ltac:(solve_setter eta_Coordinator state f x).
#[global] Instance set_tasks : Setter tasks := λ f x, ltac:(solve_setter eta_Coordinator tasks f x).
#[global] Instance set_tasksCh : Setter tasksCh := λ f x, ltac:(solve_setter eta_Coordinator tasksCh f x).
#[global] Instance set_tasksCh_cap : Setter tasksCh_cap := λ f x, ltac:(solve_setter eta_Coordinator tasksCh_cap f x).
#[global] Instance set_sendClosed : Setter tasksCh_sendClosed := λ f x, ltac:(solve_setter eta_Coordinator tasksCh_sendClosed f x).
#[global] Instance set_workerId_task : Setter workerId_task := λ f x, ltac:(solve_setter eta_Coordinator workerId_task f x).
#[global] Instance set_workerIdCh : Setter workerIdCh := λ f x, ltac:(solve_setter eta_Coordinator workerIdCh f x).
#[global] Instance set_workerIdCh_cap : Setter workerIdCh_cap := λ f x, ltac:(solve_setter eta_Coordinator workerIdCh_cap f x).
#[global] Instance set_map2ReduceCh : Setter map2ReduceCh := λ f x, ltac:(solve_setter eta_Coordinator map2ReduceCh f x).
#[global] Instance set_doneCh : Setter doneCh := λ f x, ltac:(solve_setter eta_Coordinator doneCh f x).
#[global] Instance set_feeder : Setter feeder := λ f x, ltac:(solve_setter eta_Coordinator feeder f x).

Definition createMapTask (files : list string) : list Task :=
  (λ '(i, filename), mkTask Idle (mkTaskMeta i filename MAP 0)) <$> indexed files.

Definition createReduceTask (nReduce : Z) : list Task :=
  (λ i, mkTask Idle (mkTaskMeta (- i - 1) "" REDUCE 0)) <$> zrange nReduce.

(** [MakeCoordinator] up to the loop of [run], which has stored [MAP]. *)
Definition MakeCoordinator (files : list string) (nReduce : Z) : Coordinator :=
  mkCoordinator files MAP (len files) nReduce (createMapTask files) []
    (max (len files / 4) 2) false ∅ (zrange (len files)) (len files) false false
    (Feeding (zrange (len files))).

(** One send of [mapTaskBegin] or [reduceTaskBegin]; [None]: it blocks or has returned. *)
Definition taskBegin (c : Coordinator) : option Coordinator :=
  match feeder c with
  | Feeding (i :: rest) =>
      if len (tasksCh c) <? tasksCh_cap c
      then Some (c <| tasksCh := tasksCh c ++ [i] |> <| feeder := Feeding rest |>) else None
  | Feeding [] =>
      if tasksCh_sendClosed c then None
      else Some (c <| tasksCh_sendClosed := true |> <| feeder := Fed |>)
  | Fed => None
  end.

Definition zeroTask : Task := mkTask Idle (mkTaskMeta 0 "" WAIT 0).
Definition noTask : AskTaskReply := mkAskTaskReply zeroTask 0 0 0 0.

Definition working (s : State) : bool := bool_decide (s = MAP) || bool_decide (s = REDUCE).

(** [time.Now()] is an argument.  A dangling pointer is a panic. *)
Definition doAskTask (c : Coordinator) (now : Z) : outcome (Coordinator * AskTaskReply) :=
  if negb (working (state c)) || (len (tasksCh c) =? 0) then Ret (c, noTask)
  else
    match tasksCh c with
    | [] => Ret (c, noTask)
    | p :: rest =>
        t ← slice_get (tasks c) p;
        let task := mkTask Inprogress
          (mkTaskMeta (TaskId (Metadata t)) (Filename (Metadata t)) (state c) now) in
        ts ← slice_set (tasks c) p task;
        let c := c <| tasksCh := rest |> <| tasks := ts |> in
        match workerIdCh c with
        | [] => Ret (c, noTask)
        | w :: ids =>
            Ret (c <| workerIdCh := ids |> <| workerId_task := <[w := p]> (workerId_task c) |>,
                 mkAskTaskReply task w (nReduce c) (mMap c) now)
        end
    end.

(** [t.Truncate(time.Second)] *)
Definition truncate (t : Z) : Z := t - t mod 1000000000.

(** The end of [doFinishTask], when the last task is done. *)
Definition nextState (c : Coordinator) : option (outcome Coordinator) :=
  let c := c <| tasksCh_sendClosed := false |> in
  match state c with
  | MAP => if map2ReduceCh c then None
           else Some (Ret (c <| state := SHUFFLE |> <| map2ReduceCh := true |>))
  | REDUCE => if doneCh c then None
              else Some (Ret (c <| state := DONE |> <| doneCh := true |>))
  | _ => Some Panic
  end.

(** [None]: the handler blocks on a full channel. *)
Definition doFinishTask (c : Coordinator) (args : FinishTaskArgs) : option (outcome Coordinator) :=
  match workerId_task c !! args_WorkerId args with
  | None => Some (Ret c)
  | Some p =>
      match zlookup (tasks c) p with
      | None => Some Panic
      | Some t =>
          if bool_decide (Status t = Completed) then Some (Ret c)
          else if negb (truncate (args_TaskBeginTime args) =? truncate (StartWorkTime (Metadata t)))
          then Some (Ret c)
          else
            let c := c <| workerId_task := delete (args_WorkerId args) (workerId_task c) |>
                       <| tasks := <[Z.to_nat p := mkTask Completed (Metadata t)]> (tasks c) |> in
            if len (workerIdCh c) <? workerIdCh_cap c then
              let c := c <| workerIdCh := workerIdCh c ++ [args_WorkerId args] |> in
              if tasksCh_sendClosed c && (len (tasksCh c) =? 0) && (Z.of_nat (size (workerId_task c)) =? 0)
              then nextState c else Some (Ret c)
            else None
      end
  end.

Definition map2Reduce (c : Coordinator) : outcome Coordinator :=
  if negb (bool_decide (state c = SHUFFLE)) then Panic
  else Ret (c <| workerId_task := ∅ |> <| workerIdCh_cap := nReduce c |>
              <| tasksCh_cap := max (nReduce c / 2) 2 |> <| tasksCh := [] |>
              <| workerIdCh := zrange (nReduce c) |>
              <| tasks := createReduceTask (nReduce c) |>
              <| feeder := Feeding (zrange (nReduce c)) |> <| state := REDUCE |>).

(** [catchTimeout]'s loop over the assigned tasks.  [Stuck c p rest]: it waits, with
    the lock, for room in [tasksCh] for the task [p]. *)
Inductive Scan := Scanned (c : Coordinator) | Stuck (c : Coordinator) (p : Z) (rest : list (Z * Z))
                | ScanPanic | ScanBlocked.

Fixpoint catchTimeout (c : Coordinator) (now : Z) (l : list (Z * Z)) : Scan :=
  match l with
  | [] => Scanned c
  | (w, p) :: l =>
      match zlookup (tasks c) p with
      | None => ScanPanic
      | Some t =>
          if negb (bool_decide (Status t = Inprogress)) then catchTimeout c now l
          else
            let q := abs (TaskId (Metadata t)) in
            match zlookup (tasks c) q with
            | None => ScanPanic
            | Some t' =>
                if now - StartWorkTime (Metadata t') >? 10000000000 then
                  if len (workerIdCh c) <? workerIdCh_cap c then
                    let c := c <| workerIdCh := workerIdCh c ++ [w] |>
                               <| workerId_task := delete w (workerId_task c) |> in
                    if len (tasksCh c) <? tasksCh_cap c
                    then catchTimeout (c <| tasksCh := tasksCh c ++ [q] |>) now l
                    else Stuck c q l
                  else ScanBlocked
                else catchTimeout c now l
            end
      end
  end.

(** ** The main loop *)

(** What the [select] of [run] received. *)
Inductive Received := FromAsk | FromFinish (args : FinishTaskArgs) | FromMap2Reduce | FromDone.

(** One iteration of [run], with the reply to a caller of [AskTask] and whether the loop
    goes on; [None]: nothing to receive, or a blocked handler. *)
Definition run (c : Coordinator) (now : Z) (r : Received) : option (outcome (Coordinator * option AskTaskReply * bool)) :=
  match r with
  | FromAsk => Some ('(c, reply) ← doAskTask c now; Ret (c, Some reply, true))
  | FromFinish args =>
      match doFinishTask c args with
      | Some o => Some (c ← o; Ret (c, None, true))
      | None => None
      end
  | FromMap2Reduce =>
      if map2ReduceCh c then Some (c ← map2Reduce (c <| map2ReduceCh := false |>); Ret (c, None, true)) else None
  | FromDone => if doneCh c then Some (Ret (c <| doneCh := false |>, None, false)) else None
  end.

(** [Done], one test of its loop. *)
Definition Done (c : Coordinator) : bool := bool_decide (state c = DONE).

(** ** The worker's loop, worker.go *)

Inductive TaskError := RpcFailed | NoTask | AllTasksDone.

(** [getOneTask]; [res] is what [call] returned. *)
Definition getOneTask (res : bool) (reply : AskTaskReply) : AskTaskReply + TaskError :=
  if negb res then inr RpcFailed
  else if reply_NReduce reply =? 0 then inr NoTask
  else if reply_NReduce reply =? -1 then inr AllTasksDone
  else inl reply.

(** One round of [start]: [held] is [w.task], which stays when no task is obtained. *)
Inductive WorkerNext := Exit | DoMap (t : Task) | DoReduce (t : Task) | Sleep | Again.

Definition worker_start (res : bool) (reply : AskTaskReply) (held : Task) : WorkerNext :=
  let dispatch t := match meta_State (Metadata t) with
                    | MAP => DoMap t
                    | REDUCE => DoReduce t
                    | WAIT => Sleep
                    | _ => Again
                    end in
  match getOneTask res reply with
  | inr AllTasksDone => dispatch held
  | inr _ => Exit
  | inl reply => dispatch (reply_Task reply)
  end.

(** ** The coordinator and its goroutines *)

(** [assigned] lists the assignments whose worker has not called [FinishTask] yet. *)
Record System := mkSystem {
  co : Coordinator;
  stuck : option (Z * list (Z * Z));
  clock : Z;
  assigned : list FinishTaskArgs;
}.

Definition start (files : list string) (nReduce : Z) : System :=
  mkSystem (MakeCoordinator files nReduce) None 0 [].

Definition assignment (r : AskTaskReply) : list FinishTaskArgs :=
  if reply_NReduce r =? 0 then []
  else [mkFinishTaskArgs (reply_WorkerId r) (TaskId (Metadata (reply_Task r))) (reply_TaskBeginTime r)].

Definition scan_result (s : System) (r : Scan) : option System :=
  match r with
  | Scanned c => Some (mkSystem c None (clock s) (assigned s))
  | Stuck c p rest => Some (mkSystem c (Some (p, rest)) (clock s) (assigned s))
  | ScanPanic | ScanBlocked => None
  end.

Inductive step {ranges : MapRange} (s : System) : System → Prop :=
| step_tick d : 0 ≤ d → step s (mkSystem (co s) (stuck s) (clock s + d) (assigned s))
| step_feed c : taskBegin (co s) = Some c → step s (mkSystem c (stuck s) (clock s) (assigned s))
| step_ask c r :
    stuck s = None → doAskTask (co s) (clock s) = Ret (c, r) →
    step s (mkSystem c None (clock s) (assignment r ++ assigned s))
| step_finish (k : nat) args c :
    stuck s = None → assigned s !! k = Some args → doFinishTask (co s) args = Some (Ret c) →
    step s (mkSystem c None (clock s) (delete k (assigned s)))
| step_map2Reduce c :
    stuck s = None → map2ReduceCh (co s) = true →
    map2Reduce (co s <| map2ReduceCh := false |>) = Ret c →
    step s (mkSystem c None (clock s) (assigned s))
| step_scan s' :
    stuck s = None →
    scan_result s (catchTimeout (co s) (clock s) (range (workerId_task (co s)))) = Some s' →
    step s s'
| step_unblock p rest s' :
    stuck s = Some (p, rest) → len (tasksCh (co s)) < tasksCh_cap (co s) →
    scan_result s (catchTimeout (co s <| tasksCh := tasksCh (co s) ++ [p] |>) (clock s) rest) = Some s' →
    step s s'.

Inductive reachable {ranges : MapRange} (files : list string) (nReduce : Z) : System → Prop :=
| reach_start : reachable files nReduce (start files nReduce)
| reach_step s s' : reachable files nReduce s → step s s' → reachable files nReduce s'.

(** An iteration of [run] that goes on is a step of the system. *)
Lemma run_step {ranges : MapRange} s r c reply :
  stuck s = None → (∀ args, r = FromFinish args → args ∈ assigned s) →
  run (co s) (clock s) r = Some (Ret (c, reply, true)) → ∃ s', step s s' ∧ co s' = c.
Proof.
  intros Hs Hargs. destruct r as [|args| |]; simpl.
  - intros [= Hr]. apply outcome_bind_Ret in Hr as ([c' r] & Hask & [= <- <-]). eexists. split; [by eapply step_ask|done].
  - destruct (doFinishTask (co s) args) as [o|] eqn:Hf; [|done]. intros [= Hr]. apply outcome_bind_Ret in Hr as (c' & -> & [= <- <-]).
    pose proof (Hargs args eq_refl) as [k Hk]%list_elem_of_lookup. eexists. split; [by eapply step_finish|done].
  - destruct (map2ReduceCh (co s)) eqn:Hm; [|done]. intros [= Hr]. apply outcome_bind_Ret in Hr as (c' & Hc & [= <- <-]).
    eexists. split; [by eapply step_map2Reduce|done].
  - by destruct (doneCh (co s)).
Qed.

(** ** The invariant *)

(** The tasks that are not completed. *)
Definition open_ids (ts : list Task) : list Z :=
  (filter (λ p, Status p.2 ≠ Completed) (indexed ts)).*1.

Definition to_feed (c : Coordinator) : list Z :=
  match feeder c with Feeding l => l | Fed => [] end.

(** Where an open task is: not yet sent, in the channel, in the hands of a blocked
    [catchTimeout], or with a worker. *)
Definition places (c : Coordinator) (held : list Z) : list Z :=
  to_feed c ++ tasksCh c ++ held ++ (map_to_list (workerId_task c)).*2.

Definition ids (c : Coordinator) : list Z := (map_to_list (workerId_task c)).*1 ++ workerIdCh c.

Record co_ok (c : Coordinator) (held : list Z) : Prop := {
  ok_places : places c held ≡ₚ open_ids (tasks c);
  ok_ids : ids c ≡ₚ zrange (len (tasks c));
  ok_idcap : workerIdCh_cap c = len (tasks c);
  ok_taskid p t : zlookup (tasks c) p = Some t → abs (TaskId (Metadata t)) = p;
  ok_progress w p : workerId_task c !! w = Some p →
    ∃ t, zlookup (tasks c) p = Some t ∧ Status t = Inprogress;
  ok_phase :
    match state c with
    | WAIT => False
    | MAP | REDUCE => map2ReduceCh c = false ∧ doneCh c = false ∧
        match feeder c with Feeding _ => tasksCh_sendClosed c = false | Fed => tasksCh_sendClosed c = true end
    | SHUFFLE => map2ReduceCh c = true ∧ doneCh c = false ∧ tasksCh_sendClosed c = false ∧
        feeder c = Fed ∧ places c held = []
    | DONE => map2ReduceCh c = false ∧ doneCh c = true ∧ tasksCh_sendClosed c = false ∧
        feeder c = Fed ∧ places c held = []
    end;
}.

(** An assignment that its worker may still finish, and one that timed out. *)
Definition current (c : Coordinator) (a : FinishTaskArgs) : Prop :=
  ∃ p t, workerId_task c !! args_WorkerId a = Some p ∧ zlookup (tasks c) p = Some t ∧
    TaskId (Metadata t) = args_TaskId a ∧ StartWorkTime (Metadata t) = args_TaskBeginTime a.

Definition stale (c : Coordinator) (now : Z) (a : FinishTaskArgs) : Prop :=
  args_TaskBeginTime a + 10000000000 < now ∧
  ∀ p t, workerId_task c !! args_WorkerId a = Some p → zlookup (tasks c) p = Some t →
    args_TaskBeginTime a + 10000000000 < StartWorkTime (Metadata t).

Definition assigned_ok (c : Coordinator) (now : Z) (l : list FinishTaskArgs) : Prop :=
  NoDup l ∧ ∀ a, a ∈ l → current c a ∨ stale c now a.

Definition held_of (s : System) : list Z :=
  match stuck s with Some (p, _) => [p] | None => [] end.

Definition scanning (c : Coordinator) (l : list (Z * Z)) : Prop :=
  NoDup l.*1 ∧ ∀ w p, (w, p) ∈ l → workerId_task c !! w = Some p.

Record inv (s : System) : Prop := {
  inv_co : co_ok (co s) (held_of s);
  inv_assigned : assigned_ok (co s) (clock s) (assigned s);
  inv_n : 0 < nReduce (co s);
  inv_scan p rest : stuck s = Some (p, rest) → scanning (co s) rest;
}.

(** ** Lemmas *)

Lemma elem_of_open ts p : p ∈ open_ids ts ↔ ∃ t, zlookup ts p = Some t ∧ Status t ≠ Completed.
Proof.
  unfold open_ids. rewrite list_elem_of_fmap. split.
  - intros ([q t] & -> & [H1 H2]%list_elem_of_filter). exists t. by rewrite <-elem_of_indexed.
  - intros (t & H1 & H2). exists (p, t). split; [done|]. apply list_elem_of_filter.
    by rewrite elem_of_indexed.
Qed.

Lemma NoDup_open ts : NoDup (open_ids ts).
Proof.
  unfold open_ids. eapply sublist_NoDup; [|apply fmap_sublist, sublist_filter].
  rewrite fst_indexed. apply NoDup_zrange.
Qed.

Lemma zlookup_update (ts : list Task) p t t' q :
  zlookup ts p = Some t →
  zlookup (<[Z.to_nat p := t']> ts) q = if decide (q = p) then Some t' else zlookup ts q.
Proof.
  intros Hp. pose proof (zlookup_bounds _ _ _ Hp). case_decide as E.
  - subst. by apply zlookup_insert_eq.
  - apply zlookup_insert_ne; [lia|congruence].
Qed.

Lemma open_update ts p t t' :
  zlookup ts p = Some t → Status t ≠ Completed → Status t' ≠ Completed →
  open_ids (<[Z.to_nat p := t']> ts) ≡ₚ open_ids ts.
Proof.
  intros Hp Ht Ht'. apply NoDup_Permutation; [apply NoDup_open..|]. intros q.
  rewrite !elem_of_open. setoid_rewrite (zlookup_update ts p t t'); [|done]. case_decide; naive_solver.
Qed.

Lemma open_complete ts p t m :
  zlookup ts p = Some t → Status t ≠ Completed →
  open_ids ts ≡ₚ p :: open_ids (<[Z.to_nat p := mkTask Completed m]> ts).
Proof.
  intros Hp Ht. apply NoDup_Permutation; [apply NoDup_open| |].
  - constructor; [|apply NoDup_open]. rewrite elem_of_open.
    setoid_rewrite (zlookup_update ts p t _ p Hp). rewrite decide_True by done. naive_solver.
  - intros q. rewrite elem_of_cons, !elem_of_open. setoid_rewrite (zlookup_update ts p t _ _ Hp).
    case_decide; naive_solver.
Qed.

Lemma open_nil ts : open_ids ts = [] ↔ ∀ p t, zlookup ts p = Some t → Status t = Completed.
Proof.
  split.
  - intros E p t Hp. destruct (decide (Status t = Completed)); [done|].
    assert (p ∈ open_ids ts) as Hin by (apply elem_of_open; eauto). rewrite E in Hin.
    by apply not_elem_of_nil in Hin.
  - intros H. destruct (open_ids ts) as [|p l] eqn:E; [done|].
    assert (p ∈ open_ids ts) as (t & Hp & Ht)%elem_of_open by (rewrite E; by left). by apply H in Hp.
Qed.

Lemma scan_vals (m : gmap Z Z) w p :
  m !! w = Some p → (map_to_list m).*2 ≡ₚ p :: (map_to_list (delete w m)).*2 ∧
                    (map_to_list m).*1 ≡ₚ w :: (map_to_list (delete w m)).*1.
Proof. intros H. by rewrite <-(map_to_list_delete m w p H). Qed.

Lemma insert_vals (m : gmap Z Z) w p :
  m !! w = None → (map_to_list (<[w := p]> m)).*2 ≡ₚ p :: (map_to_list m).*2 ∧
                  (map_to_list (<[w := p]> m)).*1 ≡ₚ w :: (map_to_list m).*1.
Proof. intros H. by rewrite (map_to_list_insert m w p H). Qed.

(** An open task that is with a worker, in the channel or held has its worker. *)
Lemma place_open c held p : co_ok c held → p ∈ places c held →
  ∃ t, zlookup (tasks c) p = Some t ∧ Status t ≠ Completed.
Proof. intros Hok Hp. rewrite (ok_places _ _ Hok) in Hp. by apply elem_of_open. Qed.

Lemma ids_NoDup c held : co_ok c held → NoDup (ids c).
Proof. intros Hok. rewrite (ok_ids _ _ Hok). apply NoDup_zrange. Qed.

Lemma free_id c held w : co_ok c held → w ∈ workerIdCh c → workerId_task c !! w = None.
Proof.
  intros Hok Hw. destruct (workerId_task c !! w) as [p|] eqn:E; [|done]. exfalso.
  pose proof (ids_NoDup _ _ Hok) as Hnd. unfold ids in Hnd. apply NoDup_app in Hnd as (_ & Hd & _).
  apply (Hd w); [|done]. apply list_elem_of_fmap. exists (w, p). split; [done|].
  by apply elem_of_map_to_list.
Qed.

(** A worker with a task leaves room for its id. *)
Lemma id_room c held w p : co_ok c held → workerId_task c !! w = Some p → len (workerIdCh c) < workerIdCh_cap c.
Proof.
  intros Hok Hw. rewrite (ok_idcap _ _ Hok). pose proof (ok_ids _ _ Hok) as Hp%Permutation_length.
  unfold ids in Hp. destruct (scan_vals _ _ _ Hw) as [_ Hk]. rewrite length_app, Hk in Hp. simpl in Hp.
  rewrite length_zrange in Hp. unfold len in *. lia.
Qed.

(** ** [catchTimeout] *)

(** What a scan leaves: the tasks, and the workers whose task has not timed out. *)
Definition timed_out (c c' : Coordinator) (now : Z) : Prop :=
  tasks c' = tasks c ∧ state c' = state c ∧ nReduce c' = nReduce c ∧
  ∀ w, workerId_task c' !! w = workerId_task c !! w ∨
    workerId_task c' !! w = None ∧
    ∃ p t, workerId_task c !! w = Some p ∧ zlookup (tasks c) p = Some t ∧
           StartWorkTime (Metadata t) + 10000000000 < now.

Lemma timed_out_trans c1 c2 c3 now : timed_out c1 c2 now → timed_out c2 c3 now → timed_out c1 c3 now.
Proof.
  intros (E1 & S1 & N1 & H1) (E2 & S2 & N2 & H2). split_and!; [congruence..|]. intros w.
  destruct (H2 w) as [->|(-> & p & t & Hp & Ht & Hlt)]; [apply H1|].
  right. split; [done|]. destruct (H1 w) as [<-|(Hn & _)]; [|congruence].
  rewrite E1 in Ht. eauto.
Qed.

(** Taking the task [p] from the worker [w]. *)
Lemma requeue_ok c w p t now :
  co_ok c [] → workerId_task c !! w = Some p → zlookup (tasks c) p = Some t →
  StartWorkTime (Metadata t) + 10000000000 < now →
  let c' := c <| workerIdCh := workerIdCh c ++ [w] |> <| workerId_task := delete w (workerId_task c) |> in
  co_ok c' [p] ∧ timed_out c c' now.
Proof.
  intros Hok Hw Ht Hlt c'. destruct (scan_vals _ _ _ Hw) as [Hv Hk]. split.
  - destruct Hok as [Hp Hi Hcap Hid Hpr Hph]. split; simpl; try done.
    + rewrite <-Hp. unfold places. simpl. rewrite Hv. solve_Permutation.
    + rewrite <-Hi. unfold ids. simpl. rewrite Hk. solve_Permutation.
    + intros w' p' [_ Hw']%lookup_delete_Some. by eapply Hpr.
    + assert (places c [] ≠ []) as Hne.
      { intros E. unfold places in E. apply app_eq_nil in E as [_ E]. apply app_eq_nil in E as [_ E].
        simpl in E. rewrite E in Hv. by apply Permutation_nil_cons in Hv. }
      by destruct (state c); naive_solver.
  - split_and!; [done..|]. intros w'. simpl. destruct (decide (w = w')) as [<-|Hne].
    + right. rewrite lookup_delete_eq. eauto 10.
    + left. by rewrite lookup_delete_ne.
Qed.

Lemma resend_ok c p : co_ok c [p] → co_ok (c <| tasksCh := tasksCh c ++ [p] |>) [].
Proof.
  intros [Hp Hi Hcap Hid Hpr Hph]. split; simpl; try done.
  - rewrite <-Hp. unfold places. simpl. solve_Permutation.
  - assert (places c [p] ≠ []) as Hne.
    { intros E. unfold places in E. apply app_eq_nil in E as [_ E]. by apply app_eq_nil in E as [_ E]. }
    by destruct (state c); naive_solver.
Qed.

Lemma catchTimeout_ok c now l :
  co_ok c [] → scanning c l →
  (∃ c', catchTimeout c now l = Scanned c' ∧ co_ok c' [] ∧ timed_out c c' now) ∨
  (∃ c' q rest, catchTimeout c now l = Stuck c' q rest ∧ co_ok c' [q] ∧ scanning c' rest ∧
     timed_out c c' now).
Proof.
  revert c. induction l as [|[w p] l IH]; intros c Hok [Hnd Hin]; cbn [catchTimeout].
  { left. exists c. split_and!; [done..|]. split_and!; [done..|]. by left. }
  apply NoDup_cons in Hnd as [Hw Hnd]. pose proof (Hin w p ltac:(by left)) as Hwp.
  assert (∀ c', (∀ w', w' ≠ w → workerId_task c' !! w' = workerId_task c !! w') → scanning c' l) as Hrest.
  { intros c' Hc'. split; [done|]. intros w' p' Hw'. rewrite Hc'; [apply Hin; by right|].
    intros ->. apply Hw. apply list_elem_of_fmap. by exists (w, p'). }
  destruct (ok_progress _ _ Hok w p Hwp) as (t & Ht & Hst). rewrite Ht.
  rewrite bool_decide_true by done. cbn [negb]. cbv zeta.
  rewrite (ok_taskid _ _ Hok p t Ht), Ht, Z.gtb_ltb.
  destruct (Z.ltb_spec 10000000000 (now - StartWorkTime (Metadata t))) as [Hlt|_];
    [|apply IH; [done|by apply Hrest]].
  rewrite (proj2 (Z.ltb_lt _ _) (id_room _ _ _ _ Hok Hwp)).
  destruct (requeue_ok c w p t now Hok Hwp Ht) as [Hok' Hto]; [lia|].
  set (c1 := set workerId_task _ _) in *.
  assert (scanning c1 l) as Hsc.
  { apply Hrest. intros w' Hne. simpl. by rewrite lookup_delete_ne. }
  change (tasksCh (set workerIdCh _ c)) with (tasksCh c1).
  destruct (len (tasksCh c1) <? tasksCh_cap c1).
  - destruct (IH (c1 <| tasksCh := tasksCh c1 ++ [p] |>)) as [(c' & E & ? & Hto')|(c' & q & rest & E & ? & ? & Hto')].
    + by apply resend_ok.
    + done.
    + left. exists c'. split_and!; [done..|]. by eapply timed_out_trans.
    + right. exists c', q, rest. split_and!; [done..|]. by eapply timed_out_trans.
  - right. exists c1, p, l. by split_and!.
Qed.

Lemma assigned_timed_out c c' now l :
  timed_out c c' now → assigned_ok c now l → assigned_ok c' now l.
Proof.
  intros (Et & _ & _ & Hw) [Hnd Hl]. split; [done|]. intros a Ha.
  destruct (Hl a Ha) as [(p & t & Hp & Ht & Hid & Hs)|[Hlt Hst]].
  - destruct (Hw (args_WorkerId a)) as [E|(E & p' & t' & Hp' & Ht' & Hlt)].
    + left. exists p, t. rewrite Et, E. by split_and!.
    + right. split; [|by rewrite E]. rewrite Hp in Hp'. injection Hp' as <-. simplify_eq. lia.
  - right. split; [done|]. intros p t Hp. rewrite Et. apply Hst.
    destruct (Hw (args_WorkerId a)) as [<-|(E & _)]; [done|congruence].
Qed.

(** ** The other steps *)

Lemma indices_open (ts : list Task) :
  (∀ p t, zlookup ts p = Some t → Status t ≠ Completed) → zrange (len ts) ≡ₚ open_ids ts.
Proof.
  intros H. apply NoDup_Permutation; [apply NoDup_zrange|apply NoDup_open|]. intros p.
  rewrite elem_of_zrange, <-zlookup_is_Some, elem_of_open. unfold is_Some. naive_solver.
Qed.

Lemma createMapTask_ok files :
  len (createMapTask files) = len files ∧
  ∀ p t, zlookup (createMapTask files) p = Some t → Status t = Idle ∧ TaskId (Metadata t) = p ∧ 0 ≤ p.
Proof.
  unfold createMapTask. split.
  - unfold len at 1. rewrite length_fmap. unfold indexed. rewrite length_zip_with, length_zrange.
    unfold len. lia.
  - intros p t [Hp Hl]%zlookup_Some. rewrite list_lookup_fmap in Hl.
    destruct (indexed files !! Z.to_nat p) as [[i f]|] eqn:E; [|done]. injection Hl as <-. simpl.
    apply (f_equal (fmap fst)) in E. rewrite <-list_lookup_fmap, fst_indexed in E. simpl in E.
    unfold zrange in E. rewrite list_lookup_fmap in E. apply fmap_Some in E as (k & [-> _]%lookup_seq & ->).
    split_and!; [done|lia|done].
Qed.

Lemma createReduceTask_ok n :
  0 ≤ n → len (createReduceTask n) = n ∧
  ∀ p t, zlookup (createReduceTask n) p = Some t → Status t = Idle ∧ TaskId (Metadata t) = - p - 1 ∧ 0 ≤ p.
Proof.
  intros Hn. unfold createReduceTask. split.
  - unfold len. rewrite length_fmap, length_zrange. lia.
  - intros p t [Hp Hl]%zlookup_Some. rewrite list_lookup_fmap in Hl.
    destruct (zrange n !! Z.to_nat p) as [i|] eqn:E; [|done]. injection Hl as <-. simpl.
    unfold zrange in E. rewrite list_lookup_fmap in E. apply fmap_Some in E as (k & [-> _]%lookup_seq & ->).
    split_and!; [done|lia|done].
Qed.

Lemma coordinator_start_inv files n : 0 < n → inv (start files n).
Proof.
  intros Hn.
  destruct (createMapTask_ok files) as [Hlen Hts]. split; [|split; [constructor|]|done|done].
  - change (co _) with (MakeCoordinator files n). change (held_of _) with (@nil Z).
    split; change (tasks _) with (createMapTask files).
    + change (places _ _) with (zrange (len files) ++ [] ++ [] ++ (map_to_list (∅ : gmap Z Z)).*2).
      rewrite map_to_list_empty, !app_nil_r, <-Hlen. apply indices_open. by intros p t [-> _]%Hts.
    + change (ids _) with ((map_to_list (∅ : gmap Z Z)).*1 ++ zrange (len files)).
      by rewrite map_to_list_empty, Hlen.
    + done.
    + intros p t (_ & E & Hp)%Hts. rewrite E. unfold abs. destruct (Z.ltb_spec p 0); lia.
    + intros w p Hw. exfalso. by apply (lookup_empty_Some (M := gmap Z) w p).
    + done.
  - by intros a ?%not_elem_of_nil.
Qed.

Lemma feed_ok c c' held : co_ok c held → taskBegin c = Some c' → co_ok c' held.
Proof.
  intros Hok Hf. pose proof Hok as [Hp Hi Hcap Hid Hpr Hph]. unfold taskBegin in Hf.
  destruct (feeder c) as [[|i rest]|] eqn:Ef; [|destruct (_ <? _)|]; try done.
  - destruct (tasksCh_sendClosed c) eqn:Es; [done|]. apply (inj Some) in Hf. subst c'.
    assert (places (c <| tasksCh_sendClosed := true |> <| feeder := Fed |>) held = places c held) as Epl.
    { unfold places, to_feed. simpl. by rewrite Ef. }
    split; rewrite ?Epl; simpl;
      [exact Hp|exact Hi|exact Hcap|exact Hid|exact Hpr|destruct (state c); naive_solver].
  - apply (inj Some) in Hf. subst c'. split; simpl; [|exact Hi|exact Hcap|exact Hid|exact Hpr|].
    + rewrite <-Hp. unfold places, to_feed. simpl. rewrite Ef. solve_Permutation.
    + destruct (state c); naive_solver.
Qed.

Lemma places_vals c held w p : workerId_task c !! w = Some p → p ∈ places c held.
Proof.
  intros Hw. unfold places. rewrite !elem_of_app. do 3 right. apply list_elem_of_fmap.
  exists (w, p). split; [done|]. by apply elem_of_map_to_list.
Qed.

Lemma working_phase c held w p : co_ok c held → workerId_task c !! w = Some p → state c = MAP ∨ state c = REDUCE.
Proof.
  intros Hok Hw. pose proof (places_vals c held w p Hw) as Hin. pose proof (ok_phase _ _ Hok) as Hph.
  destruct (state c); auto; [done|..]; destruct Hph as (_ & _ & _ & _ & E); rewrite E in Hin;
    by apply not_elem_of_nil in Hin.
Qed.

(** Two workers never have the same task. *)
Lemma vals_inj c held w w' p :
  co_ok c held → workerId_task c !! w = Some p → workerId_task c !! w' = Some p → w = w'.
Proof.
  intros Hok Hw Hw'. destruct (decide (w = w')) as [|Hne]; [done|]. exfalso.
  assert (NoDup (map_to_list (workerId_task c)).*2) as Hnd.
  { pose proof (NoDup_open (tasks c)) as Hnd. rewrite <-(ok_places _ _ Hok) in Hnd.
    unfold places in Hnd. by do 3 apply NoDup_app in Hnd as (_ & _ & Hnd). }
  destruct (scan_vals _ _ _ Hw) as [Hv _]. rewrite Hv in Hnd. apply NoDup_cons in Hnd as [Hnd _].
  apply Hnd, list_elem_of_fmap. exists (w', p). split; [done|]. apply elem_of_map_to_list.
  by rewrite lookup_delete_ne.
Qed.

(** While a task waits, a worker id is free. *)
Lemma waiting_id c held p rest : co_ok c held → tasksCh c = p :: rest → workerIdCh c ≠ [].
Proof.
  intros Hok Hch E. pose proof (ok_ids _ _ Hok) as Hi%Permutation_length.
  pose proof (ok_places _ _ Hok) as Hp%Permutation_length.
  assert (length (open_ids (tasks c)) ≤ length (tasks c))%nat as Hle.
  { unfold open_ids. rewrite length_fmap. etrans; [apply length_filter|].
    unfold indexed. rewrite length_zip_with. lia. }
  unfold ids in Hi. unfold places in Hp. rewrite E, Hch in *. rewrite !length_app, !length_fmap in *.
  rewrite length_zrange in Hi. unfold len in Hi. simpl in *. lia.
Qed.

Lemma ask_ok c now l :
  co_ok c [] → assigned_ok c now l → 0 < nReduce c →
  ∃ c' r, doAskTask c now = Ret (c', r) ∧ co_ok c' [] ∧ assigned_ok c' now (assignment r ++ l) ∧
    nReduce c' = nReduce c ∧ (working (state c) = true → tasksCh c ≠ [] → assignment r ≠ []).
Proof.
  intros Hok Has Hn. unfold doAskTask. destruct (working (state c)) eqn:Hwk; simpl.
  2: { exists c, noTask. by split_and!. }
  destruct (tasksCh c) as [|p rest] eqn:Hch; simpl.
  { exists c, noTask. by split_and!. }
  destruct (place_open c [] p Hok) as (t & Ht & Hst).
  { unfold places. rewrite Hch. set_solver. }
  rewrite (proj2 (slice_get_Ret _ _ _) Ht), bind_Ret.
  rewrite slice_set_ok, bind_Ret by (by eapply zlookup_bounds).
  destruct (workerIdCh c) as [|w ids'] eqn:Hids; [by destruct (waiting_id c [] p rest)|]. simpl.
  assert (workerId_task c !! w = None) as Hw by (eapply free_id; [done|rewrite Hids; by left]).
  destruct (insert_vals _ _ p Hw) as [Hv Hk].
  assert (∀ w' p', workerId_task c !! w' = Some p' → p' ≠ p) as Hother.
  { intros w' p' Hw' ->. pose proof (NoDup_open (tasks c)) as Hnd. rewrite <-(ok_places _ _ Hok) in Hnd.
    unfold places in Hnd. rewrite Hch in Hnd. apply NoDup_app in Hnd as (_ & _ & Hnd). simpl in Hnd.
    apply NoDup_cons in Hnd as [Hnd _]. apply Hnd, elem_of_app. right.
    apply list_elem_of_fmap. exists (w', p). split; [done|]. by apply elem_of_map_to_list. }
  set (t' := mkTask Inprogress _).
  do 2 eexists. split; [done|]. split_and!; [| |done|].
  - destruct Hok as [Hp Hi Hcap Hid Hpr Hph]. split; simpl.
    + rewrite (open_update (tasks c) p t t') by done. rewrite <-Hp. unfold places. simpl.
      rewrite Hv, Hch. solve_Permutation.
    + rewrite len_insert, <-Hi. unfold ids. simpl. rewrite Hk, Hids. solve_Permutation.
    + by rewrite len_insert.
    + intros q tq. rewrite (zlookup_update _ p t) by done. case_decide as E; [|apply Hid].
      intros [= <-]. subst q. exact (Hid p t Ht).
    + intros w' p' [[<- <-]|[_ Hw']]%lookup_insert_Some.
      * exists t'. rewrite (zlookup_update _ p t) by done. by rewrite decide_True.
      * destruct (Hpr w' p' Hw') as (t2 & Ht2 & Hs2). rewrite (zlookup_update _ p t) by done.
        rewrite decide_False by (by eapply Hother). eauto.
    + unfold working in Hwk. destruct (state c); done.
  - unfold assignment. simpl. rewrite (proj2 (Z.eqb_neq _ _)) by lia. simpl.
    destruct Has as [Hnd Hall]. split.
    + constructor; [|done]. intros Hin. destruct (Hall _ Hin) as [(p' & t2 & Hp' & _)|[Hlt _]].
      * simpl in Hp'. congruence.
      * simpl in Hlt. lia.
    + intros a [->|Ha]%elem_of_cons.
      * left. exists p, t'. simpl. rewrite lookup_insert_eq, (zlookup_update _ p t) by done.
        by rewrite decide_True.
      * destruct (Hall a Ha) as [(p' & t2 & Hp' & Ht2 & Hid & Hs)|[Hlt Hstale]].
        -- left. exists p', t2. simpl. rewrite lookup_insert_ne by congruence.
           rewrite (zlookup_update _ p t), decide_False by (done || by eapply Hother). done.
        -- right. split; [done|]. simpl. intros p' t2 [[_ <-]|[_ Hp']]%lookup_insert_Some.
           ++ rewrite (zlookup_update _ p t), decide_True by done. intros [= <-]. done.
           ++ rewrite (zlookup_update _ p t), decide_False by (done || by eapply Hother). by apply Hstale.
  - intros _ _. unfold assignment. simpl. by rewrite (proj2 (Z.eqb_neq _ _)) by lia.
Qed.

Lemma truncate_far b s : b + 10000000000 < s → truncate b ≠ truncate s.
Proof.
  unfold truncate. intros H. pose proof (Z.mod_pos_bound b 1000000000). pose proof (Z.mod_pos_bound s 1000000000).
  lia.
Qed.

Lemma assigned_delete c now l (k : nat) : assigned_ok c now l → assigned_ok c now (delete k l).
Proof.
  intros [Hnd Hl]. pose proof (sublist_delete l k) as Hsub. split; [by eapply sublist_NoDup|].
  intros a Ha. apply Hl. by eapply elem_of_sublist.
Qed.

(** The state after a finish that is accepted, before the change of phase. *)
Definition accept (c : Coordinator) (w p : Z) (t : Task) : Coordinator :=
  c <| workerId_task := delete w (workerId_task c) |>
    <| tasks := <[Z.to_nat p := mkTask Completed (Metadata t)]> (tasks c) |>
    <| workerIdCh := workerIdCh c ++ [w] |>.

Lemma accept_ok c w p t :
  co_ok c [] → workerId_task c !! w = Some p → zlookup (tasks c) p = Some t → Status t = Inprogress →
  co_ok (accept c w p t) [].
Proof.
  intros Hok Hw Ht Hst. destruct (scan_vals _ _ _ Hw) as [Hv Hk].
  destruct (working_phase _ _ _ _ Hok Hw) as [Hs|Hs];
    pose proof Hok as [Hp Hi Hcap Hid Hpr Hph];
    (split; simpl;
     [apply (Permutation_cons_inv (a := p)); rewrite <-(open_complete (tasks c) p t) by congruence;
      rewrite <-Hp; unfold places; simpl; rewrite Hv; solve_Permutation
     |rewrite len_insert, <-Hi; unfold ids; simpl; rewrite Hk; solve_Permutation
     |by rewrite len_insert
     |intros q tq; rewrite (zlookup_update _ p t) by done; case_decide as E; [|apply Hid];
      intros [= <-]; subst q; exact (Hid p t Ht)
     |intros w' p' [Hne Hw']%lookup_delete_Some; destruct (Hpr w' p' Hw') as (t2 & Ht2 & Hs2);
      exists t2; rewrite (zlookup_update _ p t) by done; rewrite decide_False; [done|];
      intros ->; by destruct Hne; eapply vals_inj
     |rewrite Hs in *; naive_solver]).
Qed.

Lemma accept_assigned c now l (k : nat) a p t :
  co_ok c [] → assigned_ok c now l → l !! k = Some a → current c a →
  workerId_task c !! args_WorkerId a = Some p → zlookup (tasks c) p = Some t →
  assigned_ok (accept c (args_WorkerId a) p t) now (delete k l).
Proof.
  intros Hok [Hnd Hl] Hk (p0 & t0 & Hp0 & Ht0 & Hid0 & Hs0) Hp Ht.
  rewrite Hp in Hp0. injection Hp0 as <-. rewrite Ht in Ht0. injection Ht0 as <-.
  split; [eapply sublist_NoDup; [done|apply sublist_delete]|]. intros b Hb.
  assert (b ∈ l ∧ b ≠ a) as [Hbl Hne].
  { apply list_elem_of_lookup in Hb as [j Hj]. rewrite list_lookup_delete in Hj. case_decide as E.
    - split; [by eapply list_elem_of_lookup_2|]. intros ->. pose proof (NoDup_lookup _ _ _ _ Hnd Hj Hk). lia.
    - split; [by eapply list_elem_of_lookup_2|]. intros ->. pose proof (NoDup_lookup _ _ _ _ Hnd Hj Hk). lia. }
  assert (∀ q, workerId_task c !! args_WorkerId b = Some q → args_WorkerId b ≠ args_WorkerId a → q ≠ p) as Hq.
  { intros q Hbq Hw ->. apply Hw. by eapply vals_inj. }
  destruct (Hl b Hbl) as [(q & tq & Hbq & Htq & Hidq & Hsq)|[Hlt Hstale]].
  - destruct (decide (args_WorkerId b = args_WorkerId a)) as [E|E].
    + exfalso. apply Hne. rewrite E, Hp in Hbq. injection Hbq as <-.
      rewrite Ht in Htq. injection Htq as <-. destruct a, b; simpl in *. congruence.
    + left. exists q, tq. simpl. rewrite lookup_delete_ne by done.
      rewrite (zlookup_update _ p t), decide_False by (done || by apply Hq). done.
  - right. split; [done|]. simpl. intros q tq [E Hbq]%lookup_delete_Some.
    rewrite (zlookup_update _ p t), decide_False by (done || (apply Hq; [done|congruence])).
    by apply Hstale.
Qed.

Lemma nextState_ok c :
  co_ok c [] → state c = MAP ∨ state c = REDUCE →
  tasksCh_sendClosed c = true → tasksCh c = [] → workerId_task c = ∅ →
  ∃ c', nextState c = Some (Ret c') ∧ co_ok c' [] ∧ tasks c' = tasks c ∧
    workerId_task c' = workerId_task c ∧ nReduce c' = nReduce c.
Proof.
  intros [Hp Hi Hcap Hid Hpr Hph] Hs Hclosed Hch Hwt. unfold nextState. simpl.
  assert (feeder c = Fed) as Hf.
  { destruct Hs as [Hs|Hs]; rewrite Hs in Hph; destruct (feeder c); naive_solver congruence. }
  assert (places c [] = []) as Hpl.
  { unfold places, to_feed. rewrite Hf, Hch, Hwt, map_to_list_empty. done. }
  destruct Hs as [Hs|Hs]; rewrite Hs in *; destruct Hph as (Hm & Hd & _); rewrite ?Hm, ?Hd;
    (eexists; split; [done|]; split_and!; try done; split; simpl; try done; by split_and!).
Qed.

Lemma finish_ok c now l (k : nat) a :
  co_ok c [] → assigned_ok c now l → l !! k = Some a →
  ∃ c', doFinishTask c a = Some (Ret c') ∧ co_ok c' [] ∧ assigned_ok c' now (delete k l) ∧
    nReduce c' = nReduce c ∧
    (tasks c' = tasks c ∨
     ∃ p t, zlookup (tasks c) p = Some t ∧ Status t = Inprogress ∧ TaskId (Metadata t) = args_TaskId a ∧
       workerId_task c !! args_WorkerId a = Some p ∧
       tasks c' = <[Z.to_nat p := mkTask Completed (Metadata t)]> (tasks c)).
Proof.
  intros Hok Has Hk. pose proof (assigned_delete c now l k Has) as Hdel. unfold doFinishTask.
  destruct (workerId_task c !! args_WorkerId a) as [p|] eqn:Hw; [|exists c; by auto 10].
  destruct (ok_progress _ _ Hok _ _ Hw) as (t & Ht & Hst). rewrite Ht.
  rewrite bool_decide_false by congruence.
  destruct (Z.eqb_spec (truncate (args_TaskBeginTime a)) (truncate (StartWorkTime (Metadata t))))
    as [Htr|_]; simpl; [|exists c; by auto 10].
  assert (current c a) as Hcur.
  { destruct Has as [_ Hl]. destruct (Hl a (list_elem_of_lookup_2 _ _ _ Hk)) as [?|[_ Hs]]; [done|].
    exfalso. by eapply truncate_far; [apply (Hs p t)|]. }
  assert (TaskId (Metadata t) = args_TaskId a) as Hid.
  { destruct Hcur as (p' & t' & ? & ? & ? & _). congruence. }
  rewrite (proj2 (Z.ltb_lt _ _) (id_room _ _ _ _ Hok Hw)).
  pose proof (accept_ok c _ p t Hok Hw Ht Hst) as Hok'.
  pose proof (accept_assigned c now l k a p t Hok Has Hk Hcur Hw Ht) as Has'.
  destruct (tasksCh_sendClosed c && _ && _) eqn:Hend.
  - split_bool. destruct (nextState_ok (accept c (args_WorkerId a) p t) Hok') as (c' & Hn & ? & Et & Ew & ?).
    + by eapply (working_phase c []).
    + done.
    + simpl. destruct (tasksCh c); [done|]. by apply Z.eqb_eq in H1.
    + apply Z.eqb_eq in H0. apply map_size_empty_inv. simpl. lia.
    + exists c'. split; [exact Hn|]. split; [done|]. split.
      * destruct Has' as [? Hall]. split; [done|]. intros b Hb. specialize (Hall b Hb).
        unfold current, stale in *. rewrite Et, Ew. done.
      * split; [done|]. right. exists p, t. by rewrite Et.
  - exists (accept c (args_WorkerId a) p t). split; [done|]. split; [done|]. split; [done|].
    split; [done|]. right. by exists p, t.
Qed.

Lemma map2Reduce_ok c now l :
  co_ok c [] → assigned_ok c now l → 0 < nReduce c → map2ReduceCh c = true →
  ∃ c', map2Reduce (c <| map2ReduceCh := false |>) = Ret c' ∧ co_ok c' [] ∧ assigned_ok c' now l ∧
    nReduce c' = nReduce c ∧ (∀ p t, zlookup (tasks c) p = Some t → Status t = Completed).
Proof.
  intros Hok [Hnd Hl] Hn Hm. pose proof (ok_phase _ _ Hok) as Hph.
  assert (state c = SHUFFLE ∧ doneCh c = false ∧ tasksCh_sendClosed c = false ∧ places c [] = [])
    as (Hs & Hdone & Hclosed & Hpl).
  { destruct (state c); naive_solver congruence. }
  unfold map2Reduce. simpl. rewrite Hs. simpl. eexists. split; [done|].
  destruct (createReduceTask_ok (nReduce c)) as [Hlen Hts]; [lia|]. split_and!; try done.
  - split; simpl.
    + unfold places, to_feed. simpl. rewrite map_to_list_empty, !app_nil_r.
      etrans; [|apply indices_open]; [by rewrite Hlen|]. by intros p t [-> _]%Hts.
    + unfold ids. simpl. by rewrite map_to_list_empty, Hlen.
    + done.
    + intros p t (_ & E & Hp)%Hts. rewrite E. unfold abs. destruct (Z.ltb_spec (- p - 1) 0); lia.
    + intros w p. by rewrite lookup_empty.
    + by split_and!.
  - split; [done|]. intros a Ha. right. destruct (Hl a Ha) as [(p & t & Hp & _)|[Hlt _]].
    + exfalso. pose proof (places_vals c [] _ _ Hp) as Hin. rewrite Hpl in Hin. by apply not_elem_of_nil in Hin.
    + split; [done|]. intros p t. simpl. by rewrite lookup_empty.
  - apply open_nil. apply Permutation_nil. rewrite <-Hpl. apply Hok.
Qed.

Lemma assigned_later c now now' l : now ≤ now' → assigned_ok c now l → assigned_ok c now' l.
Proof.
  intros Hle [Hnd Hl]. split; [done|]. intros a Ha. destruct (Hl a Ha) as [?|[? ?]]; [by left|right].
  split; [lia|done].
Qed.

Lemma assigned_same c c' now l :
  workerId_task c' = workerId_task c → tasks c' = tasks c → assigned_ok c now l → assigned_ok c' now l.
Proof. unfold assigned_ok, current, stale. by intros -> ->. Qed.

Section reachability.
Context {ranges : MapRange}.

Lemma range_scanning c : scanning c (range (workerId_task c)).
Proof.
  split; [apply NoDup_range|]. intros w p. rewrite range_perm. by intros ?%elem_of_map_to_list.
Qed.

(** A scan succeeds or is left waiting for room in the channel. *)
Lemma scan_inv s c l :
  co_ok c [] → assigned_ok c (clock s) (assigned s) → 0 < nReduce c → scanning c l →
  ∃ s', scan_result s (catchTimeout c (clock s) l) = Some s' ∧ inv s'.
Proof.
  intros Hok Has Hn Hsc.
  destruct (catchTimeout_ok c (clock s) l Hok Hsc)
    as [(c' & -> & Hok' & Hto)|(c' & q & rest & -> & Hok' & Hsc' & Hto)];
    (eexists; split; [done|]); split; simpl; try done;
    try (by eapply assigned_timed_out); try (by destruct Hto as (_ & _ & -> & _)).
  by intros p rest' [= <- <-].
Qed.

Lemma coordinator_step_inv s s' : inv s → step s s' → inv s'.
Proof.
  intros Hinv Hst. pose proof Hinv as [Hok Has Hn Hsc].
  destruct Hst as [d Hd|c Hf|c r Hs Hr|k a c Hs Hk Hr|c Hs Hm Hr|s' Hs Hr|p rest s' Hs Hroom Hr].
  - split; try done. simpl. by eapply assigned_later; [|done]; lia.
  - assert (workerId_task c = workerId_task (co s) ∧ tasks c = tasks (co s) ∧ nReduce c = nReduce (co s))
      as (Ew & Et & En).
    { unfold taskBegin in Hf. destruct (feeder (co s)) as [[|]|]; [destruct (tasksCh_sendClosed _)|
        destruct (_ <? _)|]; by simplify_eq. }
    split; simpl.
    + by eapply feed_ok.
    + by eapply assigned_same.
    + by rewrite En.
    + intros p rest Hp. destruct (Hsc p rest Hp) as [? ?]. unfold scanning. by rewrite Ew.
  - unfold held_of in Hok. rewrite Hs in Hok.
    destruct (ask_ok (co s) (clock s) (assigned s) Hok Has Hn) as (c' & r' & Hr' & ? & ? & En & _).
    rewrite Hr in Hr'. injection Hr' as <- <-. split; simpl; try done. by rewrite En.
  - unfold held_of in Hok. rewrite Hs in Hok.
    destruct (finish_ok (co s) (clock s) (assigned s) k a Hok Has Hk) as (c' & Hr' & ? & ? & En & _).
    rewrite Hr in Hr'. injection Hr' as <-. split; simpl; try done. by rewrite En.
  - unfold held_of in Hok. rewrite Hs in Hok.
    destruct (map2Reduce_ok (co s) (clock s) (assigned s) Hok Has Hn Hm) as (c' & Hr' & ? & ? & En & _).
    rewrite Hr in Hr'. injection Hr' as <-. split; simpl; try done. by rewrite En.
  - unfold held_of in Hok. rewrite Hs in Hok.
    destruct (scan_inv s (co s) _ Hok Has Hn (range_scanning _)) as (s2 & Hr' & ?).
    rewrite Hr in Hr'. by injection Hr' as <-.
  - unfold held_of in Hok. rewrite Hs in Hok.
    destruct (scan_inv s (co s <| tasksCh := tasksCh (co s) ++ [p] |>) rest) as (s2 & Hr' & ?).
    + by apply resend_ok.
    + by eapply assigned_same.
    + done.
    + by apply (Hsc p).
    + rewrite Hr in Hr'. by injection Hr' as <-.
Qed.

Lemma coordinator_inv files n s : 0 < n → reachable files n s → inv s.
Proof. intros Hn. induction 1; [by apply coordinator_start_inv|by eapply coordinator_step_inv]. Qed.

(** ** The contracts *)

(** C30. No task is lost or duplicated: in every reachable state each task that is not
    completed is in exactly one place, waiting to be sent, in the channel, with one
    worker, or held by the timeout scan; and when the coordinator has left the map or
    the reduce phase every task of that phase is completed. *)
Theorem coordinator_tasks files n s :
  0 < n → reachable files n s →
  places (co s) (held_of s) ≡ₚ open_ids (tasks (co s)) ∧
  NoDup (places (co s) (held_of s)) ∧
  (state (co s) = SHUFFLE ∨ state (co s) = DONE →
   ∀ p t, zlookup (tasks (co s)) p = Some t → Status t = Completed).
Proof.
  intros Hn Hr. pose proof (inv_co _ (coordinator_inv _ _ _ Hn Hr)) as Hok.
  pose proof (ok_places _ _ Hok) as Hp. split_and!; [done|rewrite Hp; apply NoDup_open|].
  intros Hs. apply open_nil, Permutation_nil. rewrite <-Hp.
  pose proof (ok_phase _ _ Hok) as Hph. destruct Hs as [E|E]; rewrite E in Hph; by destruct Hph as (_ & _ & _ & _ & ->).
Qed.

(** The handlers neither panic nor block: in every reachable state in which the lock
    is free, [AskTask] hands out a task whenever one is in the channel, [FinishTask]
    completes the task the caller was given or nothing, and the change to the reduce
    phase succeeds. *)
Theorem coordinator_handlers files n s :
  0 < n → reachable files n s → stuck s = None →
  (∃ c r, doAskTask (co s) (clock s) = Ret (c, r) ∧
     (working (state (co s)) = true → tasksCh (co s) ≠ [] → assignment r ≠ [])) ∧
  (∀ a, a ∈ assigned s → ∃ c, doFinishTask (co s) a = Some (Ret c) ∧
     (tasks c = tasks (co s) ∨
      ∃ p t, zlookup (tasks (co s)) p = Some t ∧ Status t = Inprogress ∧
        TaskId (Metadata t) = args_TaskId a ∧ workerId_task (co s) !! args_WorkerId a = Some p ∧
        tasks c = <[Z.to_nat p := mkTask Completed (Metadata t)]> (tasks (co s)))) ∧
  (map2ReduceCh (co s) = true → ∃ c, map2Reduce (co s <| map2ReduceCh := false |>) = Ret c).
Proof.
  intros Hn Hr Hs. destruct (coordinator_inv _ _ _ Hn Hr) as [Hok Has Hn' _].
  unfold held_of in Hok. rewrite Hs in Hok. split_and!.
  - destruct (ask_ok _ _ _ Hok Has Hn') as (c & r & ? & _ & _ & _ & ?). eauto.
  - intros a [k Hk]%list_elem_of_lookup.
    destruct (finish_ok _ _ _ k a Hok Has Hk) as (c & ? & _ & _ & _ & ?). eauto.
  - intros Hm. destruct (map2Reduce_ok _ _ _ Hok Has Hn' Hm) as (c & ? & _). eauto.
Qed.

(** ** Two ways to hang *)

(** Waiting for room in the channel with the lock taken is waiting forever: only the
    loop of [run] takes from the channel. *)
Lemma stuck_forever s s' :
  stuck s ≠ None → tasksCh_cap (co s) ≤ len (tasksCh (co s)) → rtc step s s' →
  stuck s' = stuck s ∧ state (co s') = state (co s).
Proof.
  intros Hs Hfull Hr. induction Hr as [s|s s1 s2 Hst _ IH]; [done|].
  assert (stuck s1 = stuck s ∧ state (co s1) = state (co s) ∧
    tasksCh (co s1) = tasksCh (co s) ∧ tasksCh_cap (co s1) = tasksCh_cap (co s)) as (E & E2 & E3 & E4).
  { destruct Hst as [d Hd|c Hf|? ? ? _|? ? ? ? _ _|? ? _ _|? ?|p rest s' Hs' Hroom _]; try done; [|lia].
    unfold taskBegin in Hf. destruct (feeder (co s)) as [[|]|]; [destruct (tasksCh_sendClosed _)|
      destruct (Z.ltb_spec (len (tasksCh (co s))) (tasksCh_cap (co s)))|]; simplify_eq; try done. lia. }
  destruct IH as [-> ->]; rewrite ?E, ?E2, ?E3, ?E4; done.
Qed.

Definition three : list string := ["a"; "b"; "c"]%string.

Definition fed (s : System) : System :=
  match taskBegin (co s) with
  | Some c => mkSystem c (stuck s) (clock s) (assigned s)
  | None => s
  end.
Definition asked (s : System) : System :=
  match doAskTask (co s) (clock s) with
  | Ret (c, r) => mkSystem c None (clock s) (assignment r ++ assigned s)
  | Panic => s
  end.
Definition ticked (s : System) (d : Z) : System := mkSystem (co s) (stuck s) (clock s + d) (assigned s).

(** Two of three tasks fit in the channel; a worker takes the first one, the third
    one takes its place, and the worker does not come back in time. *)
Definition full_channel : System := ticked (fed (asked (fed (fed (start three 1))))) 11000000000.

Definition feeds (s : System) : bool := match taskBegin (co s) with Some _ => true | None => false end.
Definition asks (s : System) : bool :=
  match stuck s, doAskTask (co s) (clock s) with None, Ret _ => true | _, _ => false end.

Lemma fed_reachable files n s : reachable files n s → feeds s = true → reachable files n (fed s).
Proof.
  intros Hr. unfold fed, feeds. destruct (taskBegin (co s)) as [c|] eqn:Hc; [|done]. intros _.
  eapply reach_step; [done|]. by apply step_feed.
Qed.

Lemma asked_reachable files n s : reachable files n s → asks s = true → reachable files n (asked s).
Proof.
  intros Hr. unfold asked, asks. destruct (stuck s) eqn:Hs; [done|].
  destruct (doAskTask (co s) (clock s)) as [[c r]|] eqn:Hc; [|done]. intros _.
  eapply reach_step; [done|]. by apply step_ask.
Qed.

Lemma full_channel_reachable : reachable three 1 full_channel.
Proof.
  apply (reach_step _ _ (fed (asked (fed (fed (start three 1)))))); [|by apply step_tick].
  apply fed_reachable; [|by vm_compute]. apply asked_reachable; [|by vm_compute].
  apply fed_reachable; [|by vm_compute]. apply fed_reachable; [|by vm_compute]. apply reach_start.
Qed.

Lemma range_singleton (w p : Z) : range ({[ w := p ]} : gmap Z Z) = [(w, p)].
Proof.
  pose proof (range_perm ({[ w := p ]} : gmap Z Z)) as H. rewrite map_to_list_singleton in H.
  by apply Permutation_singleton_r in H.
Qed.

(** C39. The timeout scan can stop the coordinator for good: with three input files there
    is a reachable state in which [catchTimeout] waits, with the lock taken, to put a
    timed-out task back into the full channel, and from which no execution leaves
    the map phase. *)
Theorem coordinator_deadlock :
  ∃ s, reachable three 1 s ∧ stuck s = Some (0, []) ∧
    ∀ s', rtc step s s' → stuck s' = Some (0, []) ∧ state (co s') = MAP.
Proof.
  assert (∃ s, scan_result full_channel (catchTimeout (co full_channel) (clock full_channel)
    (range (workerId_task (co full_channel)))) = Some s ∧ stuck s = Some (0, []) ∧
    state (co s) = MAP ∧ tasksCh_cap (co s) ≤ len (tasksCh (co s))) as (s & Hsc & Hs & Hm & Hfull).
  { assert (workerId_task (co full_channel) = {[ 0 := 0 ]}) as -> by (by vm_compute).
    rewrite range_singleton.
    eexists. split; [by vm_compute|]. by vm_compute. }
  exists s. split_and!; [|done|].
  - eapply reach_step; [apply full_channel_reachable|]. by apply step_scan.
  - intros s' Hr. rewrite <-Hs, <-Hm. apply stuck_forever; [congruence|done..].
Qed.

(** A worker that asks while the channel is empty leaves: the answer without a task
    ends its loop, also while other workers hold tasks that may still time out. *)
Theorem worker_leaves c now held :
  tasksCh c = [] →
  ∃ reply, doAskTask c now = Ret (c, reply) ∧ worker_start true reply held = Exit.
Proof.
  intros Hch. exists noTask. unfold doAskTask. rewrite Hch. rewrite orb_true_r. done.
Qed.

(** One task: it is sent, handed out and finished before the feeding goroutine has
    said that it sent everything. *)
Definition finished (s : System) : System :=
  match assigned s with
  | a :: l => match doFinishTask (co s) a with
              | Some (Ret c) => mkSystem c None (clock s) l
              | _ => s
              end
  | [] => s
  end.
Definition one_done : System := finished (asked (fed (start ["a"%string] 1))).

Lemma finished_reachable files n s :
  reachable files n s → stuck s = None → reachable files n (finished s).
Proof.
  intros Hr Hs. unfold finished. destruct (assigned s) as [|a l] eqn:Ha; [done|].
  destruct (doFinishTask (co s) a) as [[c|]|] eqn:Hc; [|done..].
  eapply reach_step; [done|]. replace l with (delete 0%nat (assigned s)) by (by rewrite Ha).
  apply (step_finish _ 0 a); [done|by rewrite Ha|done].
Qed.

Definition idle_map (s : System) : Prop :=
  state (co s) = MAP ∧ stuck s = None ∧ tasksCh (co s) = [] ∧ workerId_task (co s) = ∅ ∧
  assigned s = [] ∧ map2ReduceCh (co s) = false ∧ to_feed (co s) = [].

Lemma idle_map_step s s' : idle_map s → step s s' → idle_map s'.
Proof.
  intros (Hm & Hs & Hch & Hw & Ha & Hr & Hf) Hst.
  destruct Hst as [d Hd|c Hc|c r _ Hc|k a c _ Hk _|c _ Hc _|s' _ Hc|p rest s' Hc _ _]; try congruence.
  - by split_and!.
  - unfold taskBegin in Hc. unfold to_feed in Hf. destruct (feeder (co s)); [|done]. subst rest.
    destruct (tasksCh_sendClosed _); [done|]. injection Hc as <-. by split_and!.
  - unfold doAskTask in Hc. rewrite Hch in Hc. rewrite orb_true_r in Hc. injection Hc as <- <-.
    split_and!; simpl; done.
  - by rewrite Ha in Hk.
  - rewrite Hw in Hc. assert (range (∅ : gmap Z Z) = []) as E.
    { pose proof (range_perm (∅ : gmap Z Z)) as E. rewrite map_to_list_empty in E. by apply Permutation_nil_r in E. }
    rewrite E in Hc. simpl in Hc. injection Hc as <-. by split_and!.
Qed.

(** The end of a phase can be missed: when the last task is finished before the
    feeding goroutine has sent on [tasksCh_sendClosed], the phase never changes. *)
Theorem coordinator_lost_wakeup :
  reachable ["a"%string] 1 one_done ∧
  (∀ p t, zlookup (tasks (co one_done)) p = Some t → Status t = Completed) ∧
  ∀ s', rtc step one_done s' → state (co s') = MAP.
Proof.
  split_and!.
  - apply finished_reachable; [|by vm_compute].
    apply asked_reachable; [|by vm_compute]. apply fed_reachable; [|by vm_compute]. apply reach_start.
  - intros p t [Hp Hl]%zlookup_Some. destruct (Z.to_nat p) as [|k]; [|by destruct k].
    vm_compute in Hl. by injection Hl as <-.
  - intros s' Hr. assert (idle_map s') as [? _]; [|done].
    assert (idle_map one_done) as Hi by (by vm_compute).
    induction Hr as [|s s1 s2 Hst _ IH]; [done|]. apply IH. by eapply idle_map_step.
Qed.
End reachability.

(** ** Concrete instances *)
Section coordinator_examples.
#[local] Existing Instance range_default.

Definition taken : System := asked (fed (start three 2)).

Lemma taken_reachable : reachable three 2 taken.
Proof. apply asked_reachable; [|by vm_compute]. apply fed_reachable; [|by vm_compute]. apply reach_start. Qed.

Lemma worker_leaves_witness :
  workerId_task (co taken) = {[ 0 := 0 ]} ∧
  ∃ reply, doAskTask (co taken) 0 = Ret (co taken, reply) ∧ worker_start true reply zeroTask = Exit.
Proof. split; [by vm_compute|]. apply (worker_leaves (co taken) 0 zeroTask). reflexivity. Defined.

Lemma coordinator_tasks_witness :
  0 < 2 ∧ places (co taken) [] ≡ₚ [0; 1; 2].
Proof.
  split; [lia|]. destruct (coordinator_tasks three 2 taken) as (H & _ & _).
  - lia.
  - exact taken_reachable.
  - rewrite H. by vm_compute.
Defined.

Lemma coordinator_handlers_witness :
  ∃ c, doFinishTask (co taken) (mkFinishTaskArgs 0 0 0) = Some (Ret c) ∧
    open_ids (tasks c) = [1; 2].
Proof.
  destruct (coordinator_handlers three 2 taken) as (_ & H & _).
  - lia.
  - exact taken_reachable.
  - reflexivity.
  - destruct (H (mkFinishTaskArgs 0 0 0)) as (c & Hc & _); [by vm_compute; left|].
    exists c. split; [exact Hc|]. vm_compute in Hc. apply (inj Some), Ret_inj in Hc. rewrite <-Hc.
    by vm_compute.
Defined.
End coordinator_examples.
