(* ===== verification/Bitset.v ===== *)
(** * porcupine: bit sets

    Models [src/src/porcupine/bitset.go].  A [bitset] is a slice of [uint64] words, each
    a [Z] between 0 and [2^64]; a position is a [uint].  [bitset_set] and [bitset_clear]
    return the slice they update in place.  [represents n b X] relates a bitset made by
    [newBitset n] to the set [X] of positions it holds. *)
From S2P Require Import Prelude.

Abbreviation bitset := (list Z).

Definition newBitset (bits : Z) : bitset :=
  let extra := if negb (bits mod 64 =? 0) then 1 else 0 in
  let chunks := bits / 64 + extra in
  replicate (Z.to_nat chunks) 0.

Definition bitset_clone (b : bitset) : bitset := b.

Definition bitsetIndex (pos : Z) : Z * Z := (pos / 64, pos mod 64).

(** [1 << minor] on 64 bits *)
Definition mask (minor : Z) : Z := Z.shiftl 1 minor mod 2 ^ 64.

Definition bitset_set (b : bitset) (pos : Z) : outcome bitset :=
  let '(major, minor) := bitsetIndex pos in
  w ← slice_get b major;
  slice_set b major (Z.lor w (mask minor)).

Definition bitset_clear (b : bitset) (pos : Z) : outcome bitset :=
  let '(major, minor) := bitsetIndex pos in
  w ← slice_get b major;
  slice_set b major (Z.ldiff w (mask minor)).

Definition bitset_get (b : bitset) (pos : Z) : outcome bool :=
  let '(major, minor) := bitsetIndex pos in
  w ← slice_get b major;
  Ret (negb (Z.land w (mask minor) =? 0)).

(** [bits.OnesCount64] *)
Definition OnesCount64 (v : Z) : Z := len (filter (λ i, Z.testbit v i = true) (zrange 64)).

Definition bitset_popcnt (b : bitset) : Z := foldl (λ total v, total + OnesCount64 v) 0 b.

Definition bitset_hash (b : bitset) : Z := foldl Z.lxor (bitset_popcnt b) b.

Fixpoint equal_words (b b2 : bitset) : bool :=
  match b, b2 with
  | v :: b, v2 :: b2 => if negb (v =? v2) then false else equal_words b b2
  | _, _ => true
  end.

Definition bitset_equals (b b2 : bitset) : bool :=
  if negb (len b =? len b2) then false else equal_words b b2.

(** ** The set a bitset stands for *)

Definition bit (b : bitset) (i : Z) : bool :=
  match zlookup b (i / 64) with Some w => Z.testbit w (i mod 64) | None => false end.

Record represents (n : Z) (b : bitset) (X : gset Z) : Prop := {
  rep_words : Forall (λ w, 0 ≤ w < 2 ^ 64) b;
  rep_len : len b = (n + 63) / 64;
  rep_bits i : 0 ≤ i → bit b i = bool_decide (i ∈ X);
  rep_range i : i ∈ X → 0 ≤ i < n;
}.

Section words.
Implicit Types (w m i j : Z) (b : bitset).

Lemma mask_bits m j : 0 ≤ m < 64 → 0 ≤ j → Z.testbit (mask m) j = (j =? m).
Proof.
  intros Hm Hj. unfold mask. rewrite Z.shiftl_1_l, Z.mod_small.
  - by rewrite Z.pow2_bits_eqb, Z.eqb_sym by lia.
  - split; [lia|]. apply Z.pow_lt_mono_r; lia.
Qed.

Lemma word_bound w :
  0 ≤ w → (∀ j, 64 ≤ j → Z.testbit w j = false) → w < 2 ^ 64.
Proof.
  intros Hw Hb. destruct (Z.eq_dec w 0) as [->|Hnz]; [done|].
  apply Z.log2_lt_pow2; [lia|]. destruct (Z.lt_ge_cases (Z.log2 w) 64) as [|Hge]; [done|].
  specialize (Hb _ Hge). rewrite Z.bit_log2 in Hb by lia. done.
Qed.

Lemma word_high w j : 0 ≤ w < 2 ^ 64 → 64 ≤ j → Z.testbit w j = false.
Proof.
  intros [? Hw] Hj. destruct (Z.eq_dec w 0) as [->|Hnz]; [apply Z.bits_0|].
  apply Z.bits_above_log2; [done|]. apply Z.log2_lt_pow2 in Hw; lia.
Qed.

Lemma lor_mask w m : 0 ≤ w < 2 ^ 64 → 0 ≤ m < 64 → 0 ≤ Z.lor w (mask m) < 2 ^ 64.
Proof.
  intros Hw Hm. assert (0 ≤ mask m < 2 ^ 64) as Hmask by (by apply Z.mod_pos_bound).
  assert (0 ≤ Z.lor w (mask m)) by (apply Z.lor_nonneg; lia).
  split; [done|]. apply word_bound; [done|]. intros j Hj.
  by rewrite Z.lor_spec, !word_high.
Qed.

Lemma ldiff_mask w m : 0 ≤ w < 2 ^ 64 → 0 ≤ Z.ldiff w (mask m) < 2 ^ 64.
Proof.
  intros Hw. assert (0 ≤ Z.ldiff w (mask m)) by (apply Z.ldiff_nonneg; lia).
  split; [done|]. apply word_bound; [done|]. intros j Hj.
  by rewrite Z.ldiff_spec, word_high.
Qed.

Lemma land_mask w m : 0 ≤ m < 64 → negb (Z.land w (mask m) =? 0) = Z.testbit w m.
Proof.
  intros Hm. destruct (Z.testbit w m) eqn:E.
  - apply negb_true_iff, Z.eqb_neq. intros H0.
    assert (Z.testbit (Z.land w (mask m)) m = true) as H1.
    { by rewrite Z.land_spec, mask_bits, E, Z.eqb_refl by lia. }
    by rewrite H0, Z.bits_0 in H1.
  - apply negb_false_iff, Z.eqb_eq. apply Z.bits_inj'. intros j Hj.
    rewrite Z.land_spec, mask_bits, Z.bits_0 by lia.
    destruct (Z.eqb_spec j m) as [->|]; [by rewrite E|by rewrite andb_false_r].
Qed.

Lemma pos_split i j : 0 ≤ i → i / 64 = j / 64 → (i mod 64 =? j mod 64) = (i =? j).
Proof.
  intros. pose proof (Z.div_mod i 64). pose proof (Z.div_mod j 64).
  destruct (Z.eqb_spec i j), (Z.eqb_spec (i mod 64) (j mod 64)); try done; lia.
Qed.

Lemma in_words n i : 0 ≤ i < n → 0 ≤ i / 64 < (n + 63) / 64.
Proof.
  intros. split; [apply Z.div_pos; lia|].
  pose proof (Z.div_mod (n + 63) 64). pose proof (Z.mod_pos_bound (n + 63) 64).
  pose proof (Z.div_mod i 64). pose proof (Z.mod_pos_bound i 64). lia.
Qed.

(** Writing the word of [i] changes that word's bits only. *)
Lemma bit_insert b i w j :
  0 ≤ i / 64 < len b → 0 ≤ j →
  bit (<[Z.to_nat (i / 64) := w]> b) j =
    if j / 64 =? i / 64 then Z.testbit w (j mod 64) else bit b j.
Proof.
  intros Hi Hj. unfold bit. destruct (Z.eqb_spec (j / 64) (i / 64)) as [->|Hne].
  - by rewrite zlookup_insert_eq.
  - by rewrite zlookup_insert_ne by lia.
Qed.
End words.

Lemma newBitset_represents n : 0 ≤ n → represents n (newBitset n) ∅.
Proof.
  intros Hn. pose proof (Z.div_mod n 64). pose proof (Z.mod_pos_bound n 64).
  pose proof (Z.div_mod (n + 63) 64). pose proof (Z.mod_pos_bound (n + 63) 64).
  split.
  - unfold newBitset. apply Forall_replicate. lia.
  - unfold newBitset, len. rewrite length_replicate. zcase_goal; simpl; lia.
  - intros i Hi. unfold bit, newBitset. rewrite bool_decide_eq_false_2 by set_solver.
    destruct (zlookup _ _) eqn:E; [|done].
    apply zlookup_Some in E as [_ [-> _]%lookup_replicate]. apply Z.bits_0.
  - set_solver.
Qed.

Section operations.
Context {n : Z} {b : bitset} {X : gset Z} (rep : represents n b X).

Lemma word_at i : 0 ≤ i < n → ∃ w, slice_get b (i / 64) = Ret w ∧ 0 ≤ w < 2 ^ 64 ∧
  0 ≤ i / 64 < len b ∧ 0 ≤ i mod 64 < 64 ∧ ∀ j, 0 ≤ j → j / 64 = i / 64 →
    Z.testbit w (j mod 64) = bool_decide (j ∈ X).
Proof.
  destruct rep as [Hw Hl Hb _]. intros Hi. pose proof (in_words n i Hi) as Hin. rewrite <-Hl in Hin.
  destruct (slice_get_ok b (i / 64) Hin) as (w & Hg & Hz). exists w.
  assert (0 ≤ w < 2 ^ 64) by (apply zlookup_Some in Hz as [_ Hz]; exact (Forall_lookup_1 _ _ _ _ Hw Hz)).
  pose proof (Z.mod_pos_bound i 64). split_and!; [done|lia..|].
  intros j Hj Ej. rewrite <-Hb by done. unfold bit. by rewrite Ej, Hz.
Qed.

Lemma bitset_get_spec i : 0 ≤ i < n → bitset_get b i = Ret (bool_decide (i ∈ X)).
Proof.
  intros Hi. destruct (word_at i Hi) as (w & Hg & Hw & _ & Hm & Hbits).
  unfold bitset_get, bitsetIndex. rewrite Hg, bind_Ret, land_mask by done.
  by rewrite Hbits by (done || lia).
Qed.

Lemma bitset_set_spec i :
  0 ≤ i < n → ∃ b', bitset_set b i = Ret b' ∧ represents n b' ({[i]} ∪ X).
Proof.
  intros Hi. destruct (word_at i Hi) as (w & Hg & Hw & Hin & Hm & Hbits).
  unfold bitset_set, bitsetIndex. rewrite Hg, bind_Ret, slice_set_ok by done.
  eexists. split; [done|]. destruct rep as [HW Hl Hb Hr]. split.
  - apply Forall_insert; [done|]. by apply lor_mask.
  - by rewrite len_insert.
  - intros j Hj. rewrite bit_insert by done. destruct (Z.eqb_spec (j / 64) (i / 64)) as [E|E].
    + rewrite Z.lor_spec, mask_bits, Hbits, pos_split by (done || apply Z.mod_pos_bound; lia).
      destruct (Z.eqb_spec j i) as [->|]; [by rewrite orb_true_r, bool_decide_eq_true_2 by set_solver|].
      rewrite orb_false_r. apply bool_decide_ext. set_solver.
    + rewrite Hb by done. apply bool_decide_ext. set_solver.
  - set_solver.
Qed.

Lemma bitset_clear_spec i :
  0 ≤ i < n → ∃ b', bitset_clear b i = Ret b' ∧ represents n b' (X ∖ {[i]}).
Proof.
  intros Hi. destruct (word_at i Hi) as (w & Hg & Hw & Hin & Hm & Hbits).
  unfold bitset_clear, bitsetIndex. rewrite Hg, bind_Ret, slice_set_ok by done.
  eexists. split; [done|]. destruct rep as [HW Hl Hb Hr]. split.
  - apply Forall_insert; [done|]. by apply ldiff_mask.
  - by rewrite len_insert.
  - intros j Hj. rewrite bit_insert by done. destruct (Z.eqb_spec (j / 64) (i / 64)) as [E|E].
    + rewrite Z.ldiff_spec, mask_bits, Hbits, pos_split by (done || apply Z.mod_pos_bound; lia).
      destruct (Z.eqb_spec j i) as [->|]; [by rewrite andb_false_r, bool_decide_eq_false_2 by set_solver|].
      rewrite andb_true_r. apply bool_decide_ext. set_solver.
    + rewrite Hb by done. apply bool_decide_ext. set_solver.
  - set_solver.
Qed.
End operations.

Lemma equal_words_eq b b2 : length b = length b2 → equal_words b b2 = bool_decide (b = b2).
Proof.
  revert b2. induction b as [|v b IH]; intros [|v2 b2] Hl; simpl in *; [done|lia|lia|].
  destruct (Z.eqb_spec v v2) as [->|]; simpl.
  - rewrite IH by lia. apply bool_decide_ext. naive_solver.
  - symmetry. apply bool_decide_eq_false_2. naive_solver.
Qed.

Lemma bitset_equals_eq b b2 : bitset_equals b b2 = bool_decide (b = b2).
Proof.
  unfold bitset_equals. destruct (Z.eqb_spec (len b) (len b2)) as [E|E]; simpl.
  - apply equal_words_eq. unfold len in E. lia.
  - symmetry. apply bool_decide_eq_false_2. naive_solver.
Qed.

(** The bits of a bitset determine its words. *)
Lemma represents_inj n b b2 X : represents n b X → represents n b2 X → b = b2.
Proof.
  intros [HW Hl Hb _] [HW2 Hl2 Hb2 _]. apply zlookup_ext. intros k Hk.
  destruct (zlookup b k) as [w|] eqn:E, (zlookup b2 k) as [w2|] eqn:E2; [|..|done].
  2: { apply zlookup_bounds in E. apply zlookup_None in E2. lia. }
  2: { apply zlookup_bounds in E2. apply zlookup_None in E. lia. }
  f_equal. assert (0 ≤ w < 2 ^ 64 ∧ 0 ≤ w2 < 2 ^ 64) as [Hw Hw2].
  { apply zlookup_Some in E as [_ E], E2 as [_ E2]. split; [exact (Forall_lookup_1 _ _ _ _ HW E)|exact (Forall_lookup_1 _ _ _ _ HW2 E2)]. }
  apply Z.bits_inj'. intros m Hm. destruct (Z.lt_ge_cases m 64) as [Hlt|Hge]; [|by rewrite !word_high].
  specialize (Hb (64 * k + m)). specialize (Hb2 (64 * k + m)).
  rewrite <-Hb in Hb2 by lia. unfold bit in Hb2.
  rewrite Z.mul_comm, Z.div_add_l, Z.div_small, Z.add_0_r, E, E2 in Hb2 by lia.
  rewrite Z.add_comm, Z.mod_add, Z.mod_small in Hb2 by lia. symmetry. apply Hb2. lia.
Qed.

Lemma represents_fun n b X Y : represents n b X → represents n b Y → X = Y.
Proof.
  intros [_ _ Hb Hr] [_ _ Hb2 Hr2]. apply set_eq. intros i. split; intros Hi.
  - specialize (Hr i Hi). specialize (Hb i). specialize (Hb2 i).
    rewrite Hb, bool_decide_eq_true_2 in Hb2 by (done || lia).
    eapply bool_decide_eq_true. symmetry. apply Hb2. lia.
  - specialize (Hr2 i Hi). specialize (Hb i). specialize (Hb2 i).
    rewrite Hb, (bool_decide_eq_true_2 (i ∈ Y)) in Hb2 by (done || lia).
    eapply bool_decide_eq_true. apply Hb2. lia.
Qed.

Lemma bitset_equals_spec n b b2 X Y :
  represents n b X → represents n b2 Y → bitset_equals b b2 = bool_decide (X = Y).
Proof.
  intros HX HY. rewrite bitset_equals_eq. apply bool_decide_ext. split; intros ->.
  - by eapply represents_fun.
  - by eapply represents_inj.
Qed.

(** A position past the last word panics. *)
Lemma bitset_set_panics b i : 64 * len b ≤ i → bitset_set b i = Panic.
Proof.
  intros Hi. unfold bitset_set, bitsetIndex, slice_get.
  rewrite (proj2 (zlookup_None b (i / 64))); [done|].
  right. apply Z.div_le_lower_bound; lia.
Qed.

(** ** Counting and hashing *)

Lemma zrange_add a c : 0 ≤ a → 0 ≤ c → zrange (a + c) = zrange a ++ ((λ j, a + j) <$> zrange c).
Proof.
  intros Ha Hc. unfold zrange. rewrite Z2Nat.inj_add, seq_app, fmap_app by done. f_equal. simpl.
  rewrite <-(Nat.add_0_r (Z.to_nat a)), <-fmap_add_seq, <-!list_fmap_compose.
  apply list_fmap_ext. intros _ x _. unfold compose. lia.
Qed.

Definition positions (b : bitset) : list Z := filter (λ i, bit b i = true) (zrange (64 * len b)).

Lemma positions_snoc b w :
  positions (b ++ [w]) = positions b ++ ((λ j, 64 * len b + j) <$> filter (λ i, Z.testbit w i = true) (zrange 64)).
Proof.
  unfold positions. pose proof (len_nonneg b). rewrite len_app. change (len [w]) with 1.
  rewrite Z.mul_add_distr_l, Z.mul_1_r, zrange_add, filter_app by lia. f_equal.
  - apply filter_ext. intros i Hi%elem_of_zrange. unfold bit.
    rewrite zlookup_app_l; [done|]. apply Z.div_lt_upper_bound; lia.
  - assert (∀ j, 0 ≤ j < 64 → bit (b ++ [w]) (64 * len b + j) = Z.testbit w j) as Hb.
    { intros j Hj. unfold bit. rewrite Z.mul_comm, Z.div_add_l, Z.div_small, Z.add_0_r by lia.
      rewrite zlookup_app_r, Z.sub_diag by lia. cbn. by rewrite Z.add_comm, Z.mod_add, Z.mod_small by lia. }
    assert (∀ l : list Z, (∀ j, j ∈ l → 0 ≤ j < 64) →
      filter (λ i, bit (b ++ [w]) i = true) ((λ j, 64 * len b + j) <$> l) =
      (λ j, 64 * len b + j) <$> filter (λ i, Z.testbit w i = true) l) as Hl.
    { induction l as [|j l IH]; intros Hl; [done|]. rewrite fmap_cons, !filter_cons, Hb by (apply Hl; by left).
      rewrite IH by (intros; apply Hl; by right). by case_decide. }
    apply Hl. intros j. by rewrite elem_of_zrange.
Qed.

Lemma popcnt_positions b : bitset_popcnt b = len (positions b).
Proof.
  induction b as [|w b IH] using rev_ind; [done|]. unfold bitset_popcnt in *. rewrite foldl_app. cbn [foldl].
  rewrite IH, positions_snoc, len_app. unfold OnesCount64, len. by rewrite length_fmap.
Qed.

Lemma popcnt_size n b X : represents n b X → bitset_popcnt b = Z.of_nat (size X).
Proof.
  intros [_ Hl Hb Hr]. rewrite popcnt_positions. unfold len. f_equal.
  assert (list_to_set (positions b) = X) as <-.
  { apply set_eq. intros i. unfold positions. rewrite elem_of_list_to_set, list_elem_of_filter, elem_of_zrange. split.
    - intros [Hi Hin]. rewrite Hb in Hi by lia. by apply bool_decide_eq_true in Hi.
    - intros Hi. specialize (Hr i Hi). rewrite Hb, bool_decide_eq_true by lia. split; [done|].
      pose proof (in_words n i Hr). pose proof (Z.div_mod i 64). pose proof (Z.mod_pos_bound i 64). lia. }
  rewrite size_list_to_set; [done|]. apply NoDup_filter, NoDup_zrange.
Qed.

Lemma lxor_bound v w : 0 ≤ v < 2 ^ 64 → 0 ≤ w < 2 ^ 64 → 0 ≤ Z.lxor v w < 2 ^ 64.
Proof.
  intros Hv Hw. assert (0 ≤ Z.lxor v w) by (apply Z.lxor_nonneg; lia). split; [done|].
  apply word_bound; [done|]. intros j Hj. by rewrite Z.lxor_spec, !word_high.
Qed.

Lemma hash_bound n b X : represents n b X → n < 2 ^ 63 → 0 ≤ bitset_hash b < 2 ^ 64.
Proof.
  intros Hrep Hn. assert (0 ≤ bitset_popcnt b < 2 ^ 64) as Hp.
  { rewrite (popcnt_size _ _ _ Hrep). assert (X ⊆ list_to_set (zrange n)) as Hsub%subseteq_size.
    { intros i Hi. apply elem_of_list_to_set, elem_of_zrange. by apply Hrep. }
    rewrite size_list_to_set, length_zrange in Hsub by apply NoDup_zrange. lia. }
  unfold bitset_hash. revert Hp. generalize (bitset_popcnt b). destruct Hrep as [Hw _ _ _].
  induction Hw as [|w b Hwb _ IH]; intros v Hv; simpl; [done|]. apply IH. by apply lxor_bound.
Qed.

(** C34. A bitset made for [n] positions is a finite set: at a position below [n] reading,
    setting and clearing do not panic, stay within the words and change no other position;
    [popcnt] counts the positions held, [equals] compares the sets and [hash] is a 64-bit
    word. *)
Theorem bitset_implements_set (n : Z) (b : bitset) (X : gset Z) (i : Z) :
  represents n b X → 0 ≤ i < n → n < 2 ^ 63 →
  bitset_get b i = Ret (bool_decide (i ∈ X)) ∧
  (∃ b', bitset_set b i = Ret b' ∧ represents n b' ({[i]} ∪ X)) ∧
  (∃ b', bitset_clear b i = Ret b' ∧ represents n b' (X ∖ {[i]})) ∧
  bitset_popcnt b = Z.of_nat (size X) ∧
  (∀ b2 Y, represents n b2 Y → bitset_equals b b2 = bool_decide (X = Y)) ∧
  0 ≤ bitset_hash b < 2 ^ 64.
Proof.
  intros Hrep Hi Hn. split; [by eapply bitset_get_spec|]. split; [by eapply bitset_set_spec|].
  split; [by eapply bitset_clear_spec|]. split; [by eapply popcnt_size|].
  split; [intros; by eapply bitset_equals_spec|by eapply hash_bound].
Qed.

Lemma bitset_implements_set_witness :
  represents 70 (newBitset 70) ∅ ∧
  ∃ b, bitset_set (newBitset 70) 66 = Ret b ∧ represents 70 b {[66]} ∧ bitset_set (newBitset 70) 130 = Panic.
Proof.
  assert (represents 70 (newBitset 70) ∅) as Hrep by (by apply newBitset_represents).
  destruct (bitset_implements_set 70 (newBitset 70) ∅ 66 Hrep ltac:(lia) ltac:(lia)) as (_ & (b & Hb & Hr) & _).
  split; [done|]. exists b. rewrite (right_id_L ∅ (∪)) in Hr. split_and!; [done..|]. reflexivity.
Defined.
