(* ===== verification/Porcupine.v ===== *)
(** * porcupine: the linearizability checker

    Models [src/src/porcupine/model.go], [checker.go] and [porcupine.go].  [V] stands for
    the [interface{}] of inputs and outputs and [St] for that of states; a type assertion
    inside a model's functions may panic.  The [*node]s of the checker live in a heap, a
    list that an allocation extends, and a pointer is an index of it or nil; the
    [*[]int]s of [longest] are indices of the list of the sequences made.  [checkSingle]
    reads [*kill] once per iteration of its loop: [kill k] is what the [k]-th read gives.
    The loops take fuel and give [None] when it runs out. *)
From S2P Require Import Prelude Bitset.

(** ** model.go *)

Record Operation (V : Type) := mkOperation {
  op_ClientId : Z;
  Input : V;
  Call : Z;
  Output : V;
  Return : Z;
}.
Arguments mkOperation {V}.
Arguments op_ClientId {V}.
Arguments Input {V}.
Arguments Call {V}.
Arguments Output {V}.
Arguments Return {V}.

Inductive EventKind := CallEvent | ReturnEvent.

Record Event (V : Type) := mkEvent {
  ev_ClientId : Z;
  ev_Kind : EventKind;
  ev_Value : V;
  ev_Id : Z;
}.
Arguments mkEvent {V}.
Arguments ev_ClientId {V}.
Arguments ev_Kind {V}.
Arguments ev_Value {V}.
Arguments ev_Id {V}.

(** A nil function is [None]. *)
Record Model (V St : Type) := mkModel {
  Partition : option (list (Operation V) → outcome (list (list (Operation V))));
  PartitionEvent : option (list (Event V) → outcome (list (list (Event V))));
  Init : St;
  Step : St → V → V → outcome (bool * St);
  Equal : option (St → St → bool);
  DescribeOperation : option (V → V → outcome string);
  DescribeState : option (St → outcome string);
}.
Arguments mkModel {V St}.
Arguments Partition {V St}.
Arguments PartitionEvent {V St}.
Arguments Init {V St}.
Arguments Step {V St}.
Arguments Equal {V St}.
Arguments DescribeOperation {V St}.
Arguments DescribeState {V St}.

Definition NoPartition {V} (history : list (Operation V)) : outcome (list (list (Operation V))) :=
  Ret [history].

Definition NoPartitionEvent {V} (history : list (Event V)) : outcome (list (list (Event V))) :=
  Ret [history].

(** [==] on comparable states *)
Definition ShallowEqual {St} `{EqDecision St} (state1 state2 : St) : bool := bool_decide (state1 = state2).

(** [fmt.Sprintf] of a value with the verb v *)
Class Sprint (A : Type) := sprint : A → string.

Definition DefaultDescribeOperation {V} `{Sprint V} (input output : V) : outcome string :=
  Ret (sprint input +:+ " -> " +:+ sprint output)%string.

Definition DefaultDescribeState {St} `{Sprint St} (state : St) : outcome string := Ret (sprint state).

Inductive CheckResult := Unknown | Ok | Illegal.

#[export] Instance CheckResult_eq_dec : EqDecision CheckResult.
Proof. solve_decision. Defined.

(** Calling a function value. *)
Definition call1 {A B} (f : option (A → outcome B)) (a : A) : outcome B :=
  match f with Some f => f a | None => Panic end.

Definition fillDefault {V St} `{EqDecision St, Sprint V, Sprint St} (model : Model V St) : Model V St :=
  {| Partition := Some (default NoPartition (Partition model));
     PartitionEvent := Some (default NoPartitionEvent (PartitionEvent model));
     Init := Init model;
     Step := Step model;
     Equal := Some (default ShallowEqual (Equal model));
     DescribeOperation := Some (default DefaultDescribeOperation (DescribeOperation model));
     DescribeState := Some (default DefaultDescribeState (DescribeState model)) |}.

(** ** Entries *)

Inductive entryKind := callEntry | returnEntry.

#[export] Instance entryKind_eq_dec : EqDecision entryKind.
Proof. solve_decision. Defined.

Record entry (V : Type) := mkEntry {
  e_kind : entryKind;
  e_value : V;
  e_id : Z;
  e_time : Z;
  e_clientId : Z;
}.
Arguments mkEntry {V}.
Arguments e_kind {V}.
Arguments e_value {V}.
Arguments e_id {V}.
Arguments e_time {V}.
Arguments e_clientId {V}.

(** [Less] of [byTime] *)
Definition Less {V} (a b : entry V) : bool :=
  if negb (e_time a =? e_time b) then e_time a <? e_time b
  else bool_decide (e_kind a = callEntry) && bool_decide (e_kind b = returnEntry).

(** [sort.Sort(byTime(entries))]: some permutation in which no entry is less than one
    before it; the sort is not stable. *)
Class EntrySort := {
  sort_entries {V} : list (entry V) → list (entry V);
  sort_entries_perm {V} (l : list (entry V)) : sort_entries l ≡ₚ l;
  sort_entries_sorted {V} (l : list (entry V)) (i j : nat) a b :
    sort_entries l !! i = Some a → sort_entries l !! j = Some b → (i < j)%nat → Less b a = false;
}.

Definition operation_entries {V} (acc : list (entry V) * Z) (elem : Operation V) : list (entry V) * Z :=
  let '(entries, id) := acc in
  (entries ++ [mkEntry callEntry (Input elem) id (Call elem) (op_ClientId elem)]
           ++ [mkEntry returnEntry (Output elem) id (Return elem) (op_ClientId elem)], id + 1).

Definition makeEntries `{EntrySort} {V} (history : list (Operation V)) : list (entry V) :=
  let '(entries, _) := foldl operation_entries ([], 0) history in
  sort_entries entries.

Definition renumber_event {V} (acc : list (Event V) * gmap Z Z * Z) (v : Event V)
    : list (Event V) * gmap Z Z * Z :=
  let '(e, m, id) := acc in
  match m !! ev_Id v with
  | Some r => (e ++ [mkEvent (ev_ClientId v) (ev_Kind v) (ev_Value v) r], m, id)
  | None => (e ++ [mkEvent (ev_ClientId v) (ev_Kind v) (ev_Value v) id], <[ev_Id v := id]> m, id + 1)
  end.

Definition renumber {V} (events : list (Event V)) : list (Event V) :=
  let '(e, _, _) := foldl renumber_event ([], ∅, 0) events in e.

Definition convertEntries {V} (events : list (Event V)) : list (entry V) :=
  (λ '(i, elem),
    let kind := match ev_Kind elem with ReturnEvent => returnEntry | CallEvent => callEntry end in
    mkEntry kind (ev_Value elem) (ev_Id elem) i (ev_ClientId elem)) <$> indexed events.

(** ** Nodes *)

Abbreviation ptr := (option nat).

(** The value of the head node is the nil interface. *)
Record node (V : Type) := mkNode {
  n_value : option V;
  n_match : ptr;
  n_id : Z;
  n_next : ptr;
  n_prev : ptr;
}.
Arguments mkNode {V}.
Arguments n_value {V}.
Arguments n_match {V}.
Arguments n_id {V}.
Arguments n_next {V}.
Arguments n_prev {V}.

Section heap.
Context {V : Type}.
Implicit Types (h : list (node V)) (p q : ptr).

(** [&node{...}] *)
Definition alloc h (nd : node V) : ptr * list (node V) := (Some (length h), h ++ [nd]).

(** Reading through a pointer. *)
Definition load h p : outcome (node V) :=
  match p with
  | Some a => match h !! a with Some nd => Ret nd | None => Panic end
  | None => Panic
  end.

Definition store h p (nd : node V) : list (node V) :=
  match p with Some a => <[a := nd]> h | None => h end.

(** [p.next = q] and [p.prev = q] *)
Definition set_next h p q : outcome (list (node V)) :=
  nd ← load h p;
  Ret (store h p (mkNode (n_value nd) (n_match nd) (n_id nd) q (n_prev nd))).

Definition set_prev h p q : outcome (list (node V)) :=
  nd ← load h p;
  Ret (store h p (mkNode (n_value nd) (n_match nd) (n_id nd) (n_next nd) q)).

Definition insertBefore h (n mark : ptr) : outcome (list (node V)) :=
  match mark with
  | Some _ =>
      m ← load h mark;
      let beforeMark := n_prev m in
      h ← set_prev h mark n;
      h ← set_next h n mark;
      match beforeMark with
      | Some _ =>
          h ← set_prev h n beforeMark;
          set_next h beforeMark n
      | None => Ret h
      end
  | None => Ret h
  end.

(** [length]: the number of nodes from [n] on *)
Fixpoint node_length (fuel : nat) h (n : ptr) (l : Z) : option (outcome Z) :=
  match n with
  | None => Some (Ret l)
  | Some _ =>
      match fuel with
      | O => None
      | S fuel =>
          match load h n with
          | Ret nd => node_length fuel h (n_next nd) (l + 1)
          | Panic => Some Panic
          end
      end
  end.

(** One iteration of [makeLinkedEntries]: the heap, the map [match] and [root]. *)
Definition link_entry (acc : list (node V) * gmap Z nat * ptr) (elem : entry V)
    : outcome (list (node V) * gmap Z nat * ptr) :=
  let '(h, mtch, root) := acc in
  match e_kind elem with
  | returnEntry =>
      let '(entry, h) := alloc h (mkNode (Some (e_value elem)) None (e_id elem) None None) in
      let mtch := match entry with Some a => <[e_id elem := a]> mtch | None => mtch end in
      h ← insertBefore h entry root;
      Ret (h, mtch, entry)
  | callEntry =>
      let '(entry, h) :=
        alloc h (mkNode (Some (e_value elem)) (mtch !! e_id elem) (e_id elem) None None) in
      h ← insertBefore h entry root;
      Ret (h, mtch, entry)
  end.

Definition makeLinkedEntries (entries : list (entry V)) : outcome (list (node V) * ptr) :=
  '(h, _, root) ← ofold link_entry ([], ∅, None) (rev entries);
  Ret (h, root).

Definition lift h (entry : ptr) : outcome (list (node V)) :=
  e ← load h entry;
  h ← set_next h (n_prev e) (n_next e);
  e ← load h entry;
  h ← set_prev h (n_next e) (n_prev e);
  e ← load h entry;
  let mtch := n_match e in
  m ← load h mtch;
  h ← set_next h (n_prev m) (n_next m);
  m ← load h mtch;
  match n_next m with
  | Some _ => set_prev h (n_next m) (n_prev m)
  | None => Ret h
  end.

Definition unlift h (entry : ptr) : outcome (list (node V)) :=
  e ← load h entry;
  let mtch := n_match e in
  m ← load h mtch;
  h ← set_next h (n_prev m) mtch;
  m ← load h mtch;
  h ← match n_next m with
      | Some _ => set_prev h (n_next m) mtch
      | None => Ret h
      end;
  e ← load h entry;
  h ← set_next h (n_prev e) entry;
  e ← load h entry;
  set_prev h (n_next e) entry.
End heap.

(** ** checkSingle *)

Record cacheEntry (St : Type) := mkCache { k_linearized : bitset; k_state : St }.
Arguments mkCache {St}.
Arguments k_linearized {St}.
Arguments k_state {St}.

Record callsEntry (St : Type) := mkCalls { c_entry : ptr; c_state : St }.
Arguments mkCalls {St}.
Arguments c_entry {St}.
Arguments c_state {St}.

(** The variables of [checkSingle], with the heap of its nodes and the sequences the
    pointers of [longest] lead to. *)
Record search (V St : Type) := mkSearch {
  s_heap : list (node V);
  s_entry : ptr;
  s_linearized : bitset;
  s_cache : gmap Z (list (cacheEntry St));
  s_calls : list (callsEntry St);
  s_state : St;
  s_seqs : list (list Z);
  s_longest : list ptr;
}.
Arguments mkSearch {V St}.
Arguments s_heap {V St}.
Arguments s_entry {V St}.
Arguments s_linearized {V St}.
Arguments s_cache {V St}.
Arguments s_calls {V St}.
Arguments s_state {V St}.
Arguments s_seqs {V St}.
Arguments s_longest {V St}.

Section checker.
Context {V St : Type} (model : Model V St).
Implicit Types (h : list (node V)) (s : search V St).

(** [uint(id)] *)
Definition uint (i : Z) : Z := i mod 2 ^ 64.

Definition call_equal (a b : St) : outcome bool :=
  match Equal model with Some f => Ret (f a b) | None => Panic end.

Fixpoint scan_cache (elems : list (cacheEntry St)) (entry : cacheEntry St) : outcome bool :=
  match elems with
  | [] => Ret false
  | elem :: elems =>
      if bitset_equals (k_linearized entry) (k_linearized elem) then
        same ← call_equal (k_state entry) (k_state elem);
        if same : bool then Ret true else scan_cache elems entry
      else scan_cache elems entry
  end.

Definition cacheContains (cache : gmap Z (list (cacheEntry St))) (entry : cacheEntry St) : outcome bool :=
  scan_cache (mget cache (bitset_hash (k_linearized entry))) entry.

(** [seq[i] = v.entry.id] for each of the calls *)
Definition call_ids h (calls : list (callsEntry St)) : outcome (list Z) :=
  ofold (λ seq v, nd ← load h (c_entry v); Ret (seq ++ [n_id nd])) [] calls.

(** One iteration of the loop that updates [longest]; [seq] is made at the first use. *)
Definition update_longest h (calls : list (callsEntry St))
    (acc : list (list Z) * ptr * list ptr) (v : callsEntry St)
    : outcome (list (list Z) * ptr * list ptr) :=
  let '(seqs, seq, longest) := acc in
  nd ← load h (c_entry v);
  cur ← slice_get longest (n_id nd);
  longer ← match cur with
           | None => Ret true
           | Some q => match seqs !! q with Some l => Ret (len l <? len calls) | None => Panic end
           end;
  if longer : bool then
    '(seqs, seq) ← match seq with
                   | Some _ => Ret (seqs, seq)
                   | None => ids ← call_ids h calls; Ret (seqs ++ [ids], Some (length seqs))
                   end;
    longest ← slice_set longest (n_id nd) seq;
    Ret (seqs, seq, longest)
  else Ret (seqs, seq, longest).

(** [Step(state, entry.value, matching.value)]: the nodes of entries hold values. *)
Definition call_step (state : St) (input output : option V) : outcome (bool * St) :=
  match input, output with
  | Some i, Some o => Step model state i o
  | _, _ => Panic
  end.

(** The branch of the body taken at a call entry. *)
Definition try_call (headEntry : ptr) (s : search V St) (e : node V) : outcome (search V St) :=
  matching ← load (s_heap s) (n_match e);
  '(ok, newState) ← call_step (s_state s) (n_value e) (n_value matching);
  let skip := mkSearch (s_heap s) (n_next e) (s_linearized s) (s_cache s) (s_calls s) (s_state s)
                       (s_seqs s) (s_longest s) in
  if ok : bool then
    newLinearized ← bitset_set (bitset_clone (s_linearized s)) (uint (n_id e));
    let newCacheEntry := mkCache newLinearized newState in
    seen ← cacheContains (s_cache s) newCacheEntry;
    if negb seen then
      let hash := bitset_hash newLinearized in
      let cache := <[hash := mget (s_cache s) hash ++ [newCacheEntry]]> (s_cache s) in
      let calls := s_calls s ++ [mkCalls (s_entry s) (s_state s)] in
      linearized ← bitset_set (s_linearized s) (uint (n_id e));
      h ← lift (s_heap s) (s_entry s);
      head ← load h headEntry;
      Ret (mkSearch h (n_next head) linearized cache calls newState (s_seqs s) (s_longest s))
    else Ret skip
  else Ret skip.

(** The branch taken at a return entry; [None] is [return false]. *)
Definition backtrack (computePartial : bool) (s : search V St) : outcome (option (search V St)) :=
  match last (s_calls s) with
  | None => Ret None
  | Some callsTop =>
      '(seqs, _, longest) ←
        (if computePartial
         then ofold (update_longest (s_heap s) (s_calls s)) (s_seqs s, None, s_longest s) (s_calls s)
         else Ret (s_seqs s, None, s_longest s));
      e ← load (s_heap s) (c_entry callsTop);
      linearized ← bitset_clear (s_linearized s) (uint (n_id e));
      let calls := take (length (s_calls s) - 1) (s_calls s) in
      h ← unlift (s_heap s) (c_entry callsTop);
      e ← load h (c_entry callsTop);
      Ret (Some (mkSearch h (n_next e) linearized (s_cache s) calls (c_state callsTop) seqs longest))
  end.

Definition search_body (computePartial : bool) (headEntry : ptr) (s : search V St)
    : outcome (option (search V St)) :=
  e ← load (s_heap s) (s_entry s);
  match n_match e with
  | Some _ => s ← try_call headEntry s e; Ret (Some s)
  | None => backtrack computePartial s
  end.

(** What [checkSingle] returns: its verdict, [longest], and the sequences it leads to. *)
Definition verdict : Type := bool * list ptr * list (list Z).

(** After the loop: the complete linearization is that of the calls. *)
Definition complete (n : Z) (s : search V St) : outcome verdict :=
  seq ← call_ids (s_heap s) (s_calls s);
  longest ← ofold (λ longest i, slice_set longest i (Some (length (s_seqs s)))) (s_longest s) (zrange n);
  Ret (true, longest, s_seqs s ++ [seq]).

Fixpoint search_loop (fuel : nat) (computePartial : bool) (kill : nat → bool) (k : nat)
    (headEntry : ptr) (n : Z) (s : search V St) : option (outcome verdict) :=
  match fuel with
  | O => None
  | S fuel =>
      match load (s_heap s) headEntry with
      | Panic => Some Panic
      | Ret head =>
          match n_next head with
          | None => Some (complete n s)
          | Some _ =>
              if kill k then Some (Ret (false, s_longest s, s_seqs s))
              else match search_body computePartial headEntry s with
                   | Panic => Some Panic
                   | Ret None => Some (Ret (false, s_longest s, s_seqs s))
                   | Ret (Some s) => search_loop fuel computePartial kill (S k) headEntry n s
                   end
          end
      end
  end.

Definition checkSingle (fuel : nat) (history : list (entry V)) (computePartial : bool)
    (kill : nat → bool) : option (outcome verdict) :=
  match makeLinkedEntries history with
  | Panic => Some Panic
  | Ret (h, entry) =>
      match node_length fuel h entry 0 with
      | None => None
      | Some Panic => Some Panic
      | Some (Ret l) =>
          let n := l / 2 in
          let '(headEntry, h) := alloc h (mkNode None None (-1) None None) in
          match insertBefore h headEntry entry with
          | Panic => Some Panic
          | Ret h =>
              search_loop fuel computePartial kill 0 headEntry n
                (mkSearch h entry (newBitset (uint n)) ∅ [] (Init model) [] (replicate (Z.to_nat n) None))
          end
      end
  end.
End checker.

(** ** checkParallel *)

Record linearizationInfo (V : Type) := mkInfo {
  history : list (list (entry V));
  partialLinearizations : list (list (list Z));
}.
Arguments mkInfo {V}.
Arguments history {V}.
Arguments partialLinearizations {V}.

(** What the [select] of the main loop may take: the result of a goroutine, or the
    timer. *)
Inductive arrival := Result (i : nat) | Timer.

(** The main loop, on the order in which the results and the timer arrive: [ok],
    [timedOut] and the goroutines whose results were taken.  [None]: it waits for ever. *)
Fixpoint collect (answers : list bool) (computeInfo timed : bool) (arrivals : list arrival)
    (ok : bool) (taken : list nat) : option (bool * bool * list nat) :=
  match arrivals with
  | [] => None
  | Result i :: arrivals =>
      if bool_decide (i ∈ taken) then None
      else match answers !! i with
           | None => None
           | Some result =>
               let taken := taken ++ [i] in
               let ok := ok && result in
               if negb ok && negb computeInfo then Some (ok, false, taken)
               else if len answers <=? len taken then Some (ok, false, taken)
               else collect answers computeInfo timed arrivals ok taken
           end
  | Timer :: _ => if timed then Some (ok, true, taken) else None
  end.

Section parallel.
Context {ranges : MapRange} {V St : Type} (model : Model V St).

(** The set of the linearizations a [longest] leads to. *)
Definition unique_partials (v : verdict) : outcome (list (list Z)) :=
  let '(_, longest, seqs) := v in
  let set : gmap nat unit :=
    foldl (λ set v, match v with Some k => <[k := tt]> set | None => set end) ∅ longest in
  ofold (λ partials '(k, _),
    match seqs !! k with Some arr => Ret (partials ++ [arr]) | None => Panic end) [] (range set).

(** Runs of every goroutine, each with what it reads of [kill]. *)
Fixpoint run_all (fuel : nat) (computeInfo : bool) (kill : nat → nat → bool) (i : nat)
    (hs : list (list (entry V))) : option (outcome (list verdict)) :=
  match hs with
  | [] => Some (Ret [])
  | sub :: hs =>
      match checkSingle model fuel sub computeInfo (kill i) with
      | None => None
      | Some Panic => Some Panic
      | Some (Ret v) =>
          match run_all fuel computeInfo kill (S i) hs with
          | None => None
          | Some Panic => Some Panic
          | Some (Ret vs) => Some (Ret (v :: vs))
          end
      end
  end.

(** The goroutines whose results the main loop takes ran with [*kill] zero: it is set
    only when that loop ends.  The others may have read either value, [late i k] at the
    [k]-th read of goroutine [i], and with [computeInfo] are waited for. *)
Definition checkParallel (fuel : nat) (hs : list (list (entry V))) (computeInfo : bool) (timeout : Z)
    (arrivals : list arrival) (late : nat → nat → bool)
    : option (outcome (CheckResult * linearizationInfo V)) :=
  match run_all fuel computeInfo (λ _ _, false) 0 hs with
  | None => None
  | Some Panic => Some Panic
  | Some (Ret vs) =>
      match collect ((λ v : verdict, v.1.1) <$> vs) computeInfo (0 <? timeout) arrivals true [] with
      | None => None
      | Some (ok, timedOut, taken) =>
          let kill i k := if bool_decide (i ∈ taken) then false else late i k in
          let result := if negb ok then Illegal else if timedOut then Unknown else Ok in
          if computeInfo then
            match run_all fuel computeInfo kill 0 hs with
            | None => None
            | Some Panic => Some Panic
            | Some (Ret ls) =>
                Some (partials ← ofold (λ acc v, p ← unique_partials v; Ret (acc ++ [p])) [] ls;
                      Ret (result, mkInfo hs partials))
            end
          else Some (Ret (result, mkInfo [] []))
      end
  end.
End parallel.

(** ** checkEvents, checkOperations and the functions of porcupine.go *)

Section entry_points.
Context {ranges : MapRange} {sorts : EntrySort} {V St : Type} `{EqDecision St, Sprint V, Sprint St}.
Context (fuel : nat) (arrivals : list arrival) (late : nat → nat → bool) (model : Model V St).

Definition checkEvents (history : list (Event V)) (verbose : bool) (timeout : Z)
    : option (outcome (CheckResult * linearizationInfo V)) :=
  let model := fillDefault model in
  match call1 (PartitionEvent model) history with
  | Panic => Some Panic
  | Ret partitions =>
      let l := (λ subhistory, convertEntries (renumber subhistory)) <$> partitions in
      checkParallel model fuel l verbose timeout arrivals late
  end.

Definition checkOperations (history : list (Operation V)) (verbose : bool) (timeout : Z)
    : option (outcome (CheckResult * linearizationInfo V)) :=
  let model := fillDefault model in
  match call1 (Partition model) history with
  | Panic => Some Panic
  | Ret partitions =>
      let l := makeEntries <$> partitions in
      checkParallel model fuel l verbose timeout arrivals late
  end.

Definition is_Ok (r : option (outcome (CheckResult * linearizationInfo V))) : option (outcome bool) :=
  match r with
  | None => None
  | Some Panic => Some Panic
  | Some (Ret (res, _)) => Some (Ret (bool_decide (res = Ok)))
  end.

Definition result_of (r : option (outcome (CheckResult * linearizationInfo V)))
    : option (outcome CheckResult) :=
  match r with
  | None => None
  | Some Panic => Some Panic
  | Some (Ret (res, _)) => Some (Ret res)
  end.

Definition CheckOperations (history : list (Operation V)) : option (outcome bool) :=
  is_Ok (checkOperations history false 0).

Definition CheckOperationsTimeout (history : list (Operation V)) (timeout : Z) :=
  result_of (checkOperations history false timeout).

Definition CheckOperationsVerbose (history : list (Operation V)) (timeout : Z) :=
  checkOperations history true timeout.

Definition CheckEvents (history : list (Event V)) : option (outcome bool) :=
  is_Ok (checkEvents history false 0).

Definition CheckEventsTimeout (history : list (Event V)) (timeout : Z) :=
  result_of (checkEvents history false timeout).

Definition CheckEventsVerbose (history : list (Event V)) (timeout : Z) :=
  checkEvents history true timeout.
End entry_points.
