(* ===== verification/PorcList.v ===== *)
(** * porcupine: the doubly linked list of entries

    The node operations of [src/src/porcupine/checker.go] on a heap related to the list
    of the addresses of its nodes: [insertBefore] extends the list, [lift] takes a call
    and its return out of it and [unlift] puts them back at their places, provided the
    two nodes were left alone in between; [makeLinkedEntries] builds the list of the
    entries, with address [a] for the [a]-th entry from the end. *)
From S2P Require Import Prelude Bitset Porcupine.

(** The pointer to the first node of a list, the last one, or the given pointer. *)
Definition first (L : list nat) (q : ptr) : ptr := match L with [] => q | a :: _ => Some a end.
Definition final (p : ptr) (L : list nat) : ptr := match last L with None => p | Some a => Some a end.

Lemma first_app L1 L2 q : first (L1 ++ L2) q = first L1 (first L2 q).
Proof. by destruct L1. Qed.

Lemma final_cons p a L : final p (a :: L) = final (Some a) L.
Proof. unfold final. rewrite last_cons. by destruct (last L). Qed.

Lemma final_app p L1 L2 : final p (L1 ++ L2) = final (final p L1) L2.
Proof. unfold final. rewrite last_app. by destruct (last L2). Qed.

Lemma final_snoc p L a : final p (L ++ [a]) = Some a.
Proof. by rewrite final_app. Qed.

Lemma NoDup_middle (A : list nat) x B : NoDup (A ++ x :: B) ↔ (x ∉ A ++ B) ∧ NoDup (A ++ B).
Proof. rewrite <-(Permutation_middle A B x). apply NoDup_cons. Qed.

(** Two nodes of a list are not in what is left of it. *)
Lemma NoDup_middle2 (A : list nat) p e M m B :
  NoDup (A ++ p :: e :: M ++ m :: B) →
  (e ∉ A ++ p :: M ++ m :: B) ∧ (m ∉ A ++ p :: M ++ B).
Proof.
  rewrite (cons_middle p), app_assoc. intros [He Hnd]%NoDup_middle.
  rewrite app_assoc in Hnd. apply NoDup_middle in Hnd as [Hm _].
  rewrite <-!app_assoc in He. rewrite <-!app_assoc in Hm. split; [exact He|exact Hm].
Qed.

Section lists.
Context {V : Type}.
Implicit Types (h : list (node V)) (L A B M : list nat) (p q : ptr) (a e m : nat).

(** The fields no operation writes after the allocation. *)
Definition shape (nd : node V) : option V * ptr * Z := (n_value nd, n_match nd, n_id nd).

Definition same_shapes h h' : Prop := ∀ a, shape <$> h !! a = shape <$> h' !! a.

#[export] Instance same_shapes_preorder : PreOrder same_shapes.
Proof. split; [done|]. intros h1 h2 h3 H12 H23 a. by rewrite H12. Qed.

(** The nodes of [L] are chained from [p] on the left to [q] on the right. *)
Fixpoint seg h p L q : Prop :=
  match L with
  | [] => True
  | a :: L => (∃ nd, h !! a = Some nd ∧ n_prev nd = p ∧ n_next nd = first L q) ∧ seg h (Some a) L q
  end.

Definition linked h L : Prop := seg h None L None ∧ NoDup L.

(** Nothing outside of [L] differs. *)
Definition only L h h' : Prop := ∀ a, a ∉ L → h' !! a = h !! a.

Lemma seg_app h p L1 L2 q :
  seg h p (L1 ++ L2) q ↔ seg h p L1 (first L2 q) ∧ seg h (final p L1) L2 q.
Proof.
  revert p. induction L1 as [|a L1 IH]; intros p; simpl; [naive_solver|].
  rewrite IH, final_cons, first_app. naive_solver.
Qed.

Lemma seg_ext h h' p L q : (∀ a, a ∈ L → h' !! a = h !! a) → seg h p L q → seg h' p L q.
Proof.
  revert p. induction L as [|a L IH]; intros p Hext; simpl; [done|]. intros [Ha HL]. split.
  - by rewrite Hext by left.
  - apply IH; [|done]. intros. apply Hext. by right.
Qed.

Lemma seg_node h p L q a : seg h p L q → a ∈ L → ∃ nd, h !! a = Some nd.
Proof.
  revert p. induction L as [|b L IH]; intros p; simpl; [by intros _ ?%elem_of_nil|].
  intros [(nd & ? & _) HL] [->|?]%elem_of_cons; [by exists nd|by eapply IH].
Qed.

(** One write. *)
Lemma set_next_ok h a nd q :
  h !! a = Some nd →
  ∃ h', set_next h (Some a) q = Ret h' ∧
    h' !! a = Some (mkNode (n_value nd) (n_match nd) (n_id nd) q (n_prev nd)) ∧
    only [a] h h' ∧ same_shapes h h'.
Proof.
  intros Ha. unfold set_next, load. rewrite Ha, bind_Ret. eexists. split; [done|]. simpl.
  assert (a < length h)%nat by (by eapply lookup_lt_Some). split_and!.
  - by apply list_lookup_insert_eq.
  - intros c Hc. apply list_lookup_insert_ne. set_solver.
  - intros c. destruct (decide (a = c)) as [->|].
    + by rewrite list_lookup_insert_eq, Ha.
    + by rewrite list_lookup_insert_ne.
Qed.

Lemma set_prev_ok h a nd q :
  h !! a = Some nd →
  ∃ h', set_prev h (Some a) q = Ret h' ∧
    h' !! a = Some (mkNode (n_value nd) (n_match nd) (n_id nd) (n_next nd) q) ∧
    only [a] h h' ∧ same_shapes h h'.
Proof.
  intros Ha. unfold set_prev, load. rewrite Ha, bind_Ret. eexists. split; [done|]. simpl.
  assert (a < length h)%nat by (by eapply lookup_lt_Some). split_and!.
  - by apply list_lookup_insert_eq.
  - intros c Hc. apply list_lookup_insert_ne. set_solver.
  - intros c. destruct (decide (a = c)) as [->|].
    + by rewrite list_lookup_insert_eq, Ha.
    + by rewrite list_lookup_insert_ne.
Qed.

(** Writing the [next] of the last node of a segment, the [prev] of its first. *)
Lemma seg_set_next h p A a q q' :
  seg h p (A ++ [a]) q → a ∉ A →
  ∃ h', set_next h (Some a) q' = Ret h' ∧ seg h' p (A ++ [a]) q' ∧ only [a] h h' ∧ same_shapes h h'.
Proof.
  rewrite seg_app. intros [HA [(nd & Ha & Hp & Hn) _]] Hnin.
  destruct (set_next_ok h a nd q' Ha) as (h' & -> & Ha' & Ho & Hs). exists h'.
  split_and!; [done| |done|done]. rewrite seg_app. split.
  - eapply seg_ext, HA. intros c Hc. apply Ho. set_solver.
  - split; [|done]. eexists. split; [done|]. by rewrite <-Hp.
Qed.

Lemma seg_set_prev h p p' a B q :
  seg h p (a :: B) q → a ∉ B →
  ∃ h', set_prev h (Some a) p' = Ret h' ∧ seg h' p' (a :: B) q ∧ only [a] h h' ∧ same_shapes h h'.
Proof.
  intros [(nd & Ha & Hp & Hn) HB] Hnin.
  destruct (set_prev_ok h a nd p' Ha) as (h' & -> & Ha' & Ho & Hs). exists h'.
  split_and!; [done| |done|done]. split.
  - eexists. split; [done|]. by rewrite <-Hn.
  - eapply seg_ext, HB. intros c Hc. apply Ho. set_solver.
Qed.

(** ** Taking a node out and putting it back *)

Definition unlink h (a : ptr) : outcome (list (node V)) :=
  nd ← load h a;
  h ← set_next h (n_prev nd) (n_next nd);
  nd ← load h a;
  match n_next nd with
  | Some _ => set_prev h (n_next nd) (n_prev nd)
  | None => Ret h
  end.

Definition relink h (a : ptr) : outcome (list (node V)) :=
  nd ← load h a;
  h ← set_next h (n_prev nd) a;
  nd ← load h a;
  match n_next nd with
  | Some _ => set_prev h (n_next nd) a
  | None => Ret h
  end.

(** Rejoining two segments around the gap between [p] and [B]. *)
Lemma join h A (p : nat) B q (x : ptr) (y : ptr) :
  NoDup (A ++ p :: B) →
  seg h None (A ++ [p]) q → seg h x B None →
  (∀ c, y = Some c → c ∉ A ++ p :: B) →
  ∃ h1, set_next h (Some p) (match y with Some _ => y | None => first B None end) = Ret h1 ∧
    only [p] h h1 ∧
    ∃ h2, match first B None with
          | Some _ => set_prev h1 (first B None) (match y with Some _ => y | None => Some p end) = Ret h2
          | None => h2 = h1
          end ∧
      seg h2 None (A ++ [p]) (match y with Some _ => y | None => first B None end) ∧
      seg h2 (match y with Some _ => y | None => Some p end) B None ∧
      only (A ++ p :: B) h h2 ∧ same_shapes h h2.
Proof.
  intros Hnd HA HB Hy. assert ((p ∉ A) ∧ (p ∉ B)) as [HpA HpB].
  { apply NoDup_app in Hnd as (_ & ? & [? _]%NoDup_cons). set_solver. }
  destruct (seg_set_next h None A p q (match y with Some _ => y | None => first B None end) HA HpA)
    as (h1 & -> & HA1 & Ho1 & Hs1).
  exists h1. split_and!; [done|done|].
  assert (seg h1 x B None) as HB1.
  { eapply seg_ext, HB. intros c Hc. apply Ho1. set_solver. }
  destruct B as [|b B]; simpl in *.
  - exists h1. split_and!; [done|done|done| |done]. intros c Hc. apply Ho1. set_solver.
  - apply NoDup_app in Hnd as (_ & HnA & [_ [HbB _]%NoDup_cons]%NoDup_cons).
    destruct (seg_set_prev h1 x (match y with Some _ => y | None => Some p end) b B None HB1 HbB)
      as (h2 & -> & HB2 & Ho2 & Hs2).
    exists h2. split_and!; [done| |apply HB2|apply HB2| |by etrans].
    + eapply seg_ext, HA1. intros c Hc. apply Ho2. set_solver.
    + intros c Hc. rewrite Ho2, Ho1 by set_solver. done.
Qed.

Lemma linked_at h A a B :
  linked h (A ++ a :: B) →
  ∃ nd, h !! a = Some nd ∧ n_prev nd = final None A ∧ n_next nd = first B None.
Proof. intros [Hs _]. apply seg_app in Hs as [_ [Ha _]]. done. Qed.

Lemma unlink_spec h A (p : nat) a B :
  linked h (A ++ p :: a :: B) →
  ∃ h', unlink h (Some a) = Ret h' ∧ linked h' (A ++ p :: B) ∧
    only (A ++ p :: B) h h' ∧ same_shapes h h'.
Proof.
  intros Hl. destruct (linked_at h (A ++ [p]) a B) as (nd & Ha & Hp & Hn);
    [by rewrite <-app_assoc|].
  rewrite final_snoc in Hp. destruct Hl as [Hs Hnd].
  rewrite (cons_middle p), app_assoc in Hs. apply seg_app in Hs as [HA [_ HB]].
  assert (NoDup (A ++ p :: B) ∧ a ∉ A ++ p :: B) as [Hnd' Hna].
  { rewrite (cons_middle p), app_assoc in Hnd. apply NoDup_app in Hnd as (? & ? & [? ?]%NoDup_cons).
    rewrite (cons_middle p), app_assoc. split; [|set_solver].
    apply NoDup_app. split_and!; [done|set_solver|done]. }
  destruct (join h A p B _ _ None Hnd' HA HB) as (h1 & E1 & Ho1 & h2 & E2 & HA2 & HB2 & Ho2 & Hs2); [done|].
  exists h2. unfold unlink, load. rewrite Ha, bind_Ret, Hp, Hn, E1, bind_Ret, (Ho1 a), Ha, bind_Ret, Hp, Hn
    by set_solver.
  split_and!; [|split; [|done]|done|done].
  - destruct (first B None); [done|by rewrite E2].
  - rewrite (cons_middle p), app_assoc, seg_app, final_snoc. done.
Qed.

Lemma relink_spec h A (p : nat) a B nd :
  linked h (A ++ p :: B) → a ∉ A ++ p :: B →
  h !! a = Some nd → n_prev nd = Some p → n_next nd = first B None →
  ∃ h', relink h (Some a) = Ret h' ∧ linked h' (A ++ p :: a :: B) ∧
    only (A ++ p :: B) h h' ∧ same_shapes h h'.
Proof.
  intros [Hs Hnd] Hna Ha Hp Hn. rewrite (cons_middle p), app_assoc in Hs.
  apply seg_app in Hs as [HA HB].
  destruct (join h A p B _ _ (Some a) Hnd HA HB) as (h1 & E1 & Ho1 & h2 & E2 & HA2 & HB2 & Ho2 & Hs2);
    [naive_solver|].
  exists h2. unfold relink, load. rewrite Ha, bind_Ret, Hp, E1, bind_Ret, (Ho1 a), Ha, bind_Ret, Hn
    by set_solver.
  split_and!; [|split|done|done].
  - destruct (first B None); [done|by rewrite E2].
  - rewrite (cons_middle p), app_assoc, seg_app, final_snoc. split; [done|]. split; [|done].
    exists nd. by rewrite Ho2.
  - rewrite (cons_middle p), app_assoc in Hnd, Hna |- *. apply NoDup_app in Hnd as (? & ? & ?).
    apply NoDup_app. split_and!; [done|set_solver|apply NoDup_cons; set_solver].
Qed.

(** ** lift and unlift *)

(** The two nodes out of the list keep the places to put them back at: [e] after the
    nodes [P] and [m] after [P] and [M]. *)
Definition gap h P e M m B : Prop :=
  (∃ nd, h !! e = Some nd ∧ n_match nd = Some m ∧
     n_prev nd = final None P ∧ n_next nd = first (M ++ m :: B) None) ∧
  (∃ nd, h !! m = Some nd ∧ n_prev nd = final None (P ++ M) ∧ n_next nd = first B None).

Lemma gap_ext h h' P e M m B : h' !! e = h !! e → h' !! m = h !! m → gap h P e M m B → gap h' P e M m B.
Proof. unfold gap. by intros -> ->. Qed.

Lemma load_Some h a : load h (Some a) = match h !! a with Some nd => Ret nd | None => Panic end.
Proof. done. Qed.

Lemma set_next_other h p q a h' : set_next h p q = Ret h' → p ≠ Some a → h' !! a = h !! a.
Proof.
  unfold set_next. intros (nd & _ & <-%Ret_inj)%outcome_bind_Ret Hne.
  destruct p as [b|]; [|done]. simpl. apply list_lookup_insert_ne. congruence.
Qed.

(** [lift] is two removals, [unlift] two insertions in the opposite order. *)
Lemma lift_unlink h e nd h1 nd1 :
  h !! e = Some nd → is_Some (n_next nd) → n_prev nd ≠ Some e →
  unlink h (Some e) = Ret h1 → h1 !! e = Some nd1 →
  lift h (Some e) = unlink h1 (n_match nd1).
Proof.
  intros He [x Hn] Hp Hu He1. unfold lift. unfold unlink at 1 in Hu.
  rewrite load_Some, He, bind_Ret in Hu |- *. apply outcome_bind_Ret in Hu as (ha & Hset & Hu).
  rewrite Hset, bind_Ret. rewrite load_Some, (set_next_other _ _ _ _ _ Hset Hp), He, bind_Ret in Hu |- *.
  rewrite Hn in Hu |- *. by rewrite Hu, bind_Ret, load_Some, He1, bind_Ret.
Qed.

Lemma unlift_relink h e nd h1 nd1 :
  h !! e = Some nd → relink h (n_match nd) = Ret h1 →
  h1 !! e = Some nd1 → is_Some (n_next nd1) → n_prev nd1 ≠ Some e →
  unlift h (Some e) = relink h1 (Some e).
Proof.
  intros He Hr He1 [x Hn] Hp. unfold unlift. unfold relink at 1 in Hr.
  rewrite load_Some, He, bind_Ret. apply outcome_bind_Ret in Hr as (m & -> & Hr). rewrite bind_Ret.
  apply outcome_bind_Ret in Hr as (ha & -> & Hr). rewrite bind_Ret.
  apply outcome_bind_Ret in Hr as (m' & -> & Hr). rewrite bind_Ret.
  rewrite Hr, bind_Ret. unfold relink. rewrite load_Some, He1, !bind_Ret.
  destruct (set_next h1 (n_prev nd1) (Some e)) as [hb|] eqn:Hb; [|done]. rewrite !bind_Ret, ?load_Some.
  rewrite (set_next_other _ _ _ _ _ Hb Hp), He1, !bind_Ret. by rewrite Hn.
Qed.

Lemma snoc_cons (l : list nat) (x : nat) : ∃ l' y, x :: l = l' ++ [y].
Proof. destruct (exists_last (l := x :: l)) as (l' & y & ->); [done|]. by exists l', y. Qed.

Lemma lift_spec h A (p : nat) e M m B nd :
  linked h (A ++ p :: e :: M ++ m :: B) → h !! e = Some nd → n_match nd = Some m →
  ∃ h', lift h (Some e) = Ret h' ∧ linked h' (A ++ p :: M ++ B) ∧
    gap h' (A ++ [p]) e M m B ∧ only (A ++ p :: e :: M ++ m :: B) h h' ∧ same_shapes h h'.
Proof.
  intros Hl He Hm. destruct (unlink_spec h A p e (M ++ m :: B) Hl) as (h1 & E1 & Hl1 & Ho1 & Hs1).
  destruct (linked_at h (A ++ [p]) e (M ++ m :: B)) as (nd' & He' & Hp & Hn); [by rewrite <-app_assoc|].
  assert (nd' = nd) as -> by congruence. rewrite final_snoc in Hp.
  assert (NoDup (A ++ p :: e :: M ++ m :: B)) as Hnd by apply Hl.
  destruct (NoDup_middle2 _ _ _ _ _ _ Hnd) as [Hne Hmnin].
  assert (h1 !! e = Some nd) as He1 by (by rewrite Ho1).
  erewrite (lift_unlink h e nd h1 nd);
    [|done|rewrite Hn, first_app; destruct M; by eexists|rewrite Hp; intros [= ->]; set_solver|done..].
  destruct (snoc_cons M p) as (M' & p' & EM).
  assert (A ++ p :: M ++ m :: B = (A ++ M') ++ p' :: m :: B) as EL
    by (by rewrite <-app_assoc, app_comm_cons, EM, <-app_assoc).
  assert (A ++ p :: M ++ B = (A ++ M') ++ p' :: B) as EL'
    by (by rewrite <-app_assoc, app_comm_cons, EM, <-app_assoc).
  assert (∀ c, c ∈ A ++ p :: M ++ B → c ∈ A ++ p :: M ++ m :: B) as Hsub by set_solver.
  rewrite EL in Hl1. destruct (unlink_spec h1 _ _ _ _ Hl1) as (h2 & E2 & Hl2 & Ho2 & Hs2).
  destruct (linked_at h1 ((A ++ M') ++ [p']) m B) as (ndm & Hmm & Hmp & Hmn); [by rewrite <-app_assoc|].
  rewrite <-EL' in Hl2, Ho2.
  exists h2. split_and!; [by rewrite Hm|done| |..|by etrans].
  - split.
    + exists nd. rewrite Ho2, final_snoc by set_solver. done.
    + exists ndm. rewrite Ho2 by done. split_and!; [done| |done].
      rewrite Hmp, final_snoc, <-app_assoc. change ([p] ++ M) with (p :: M). by rewrite EM, app_assoc, final_snoc.
  - intros c Hc. rewrite Ho2, Ho1; [done|set_solver..].
Qed.

Lemma unlift_spec h A (p : nat) e M m B :
  linked h (A ++ p :: M ++ B) → NoDup (A ++ p :: e :: M ++ m :: B) →
  gap h (A ++ [p]) e M m B →
  ∃ h', unlift h (Some e) = Ret h' ∧ linked h' (A ++ p :: e :: M ++ m :: B) ∧
    only (A ++ p :: e :: M ++ m :: B) h h' ∧ same_shapes h h'.
Proof.
  intros Hl Hnd ((nd & He & Hm & Hp & Hn) & (ndm & Hmm & Hmp & Hmn)).
  destruct (snoc_cons M p) as (M' & p' & EM).
  assert (∀ B, A ++ p :: M ++ B = (A ++ M') ++ p' :: B) as EL
    by (intros; by rewrite <-app_assoc, app_comm_cons, EM, <-app_assoc).
  destruct (NoDup_middle2 _ _ _ _ _ _ Hnd) as [Hne Hnm].
  rewrite EL in Hl. rewrite <-app_assoc in Hmp. change ([p] ++ M) with (p :: M) in Hmp.
  rewrite EM, app_assoc, final_snoc in Hmp. rewrite final_snoc in Hp.
  destruct (relink_spec h _ _ m B ndm Hl) as (h1 & E1 & Hl1 & Ho1 & Hs1); [by rewrite <-EL|done..|].
  assert (h1 !! e = Some nd) as He1 by (rewrite Ho1; [done|rewrite <-EL; set_solver]).
  rewrite <-EL in Hl1.
  erewrite (unlift_relink h e nd h1 nd);
    [|done|by rewrite Hm|done|rewrite Hn, first_app; destruct M; by eexists|rewrite Hp; intros [= ->]; set_solver].
  destruct (relink_spec h1 A p e (M ++ m :: B) nd Hl1 Hne He1 Hp Hn) as (h2 & -> & Hl2 & Ho2 & Hs2).
  exists h2. split_and!; [done|done| |by etrans].
  intros c Hc. rewrite Ho2, Ho1; [done|rewrite <-EL; set_solver|set_solver].
Qed.
(** ** Building the list *)

Lemma same_shapes_length h h' : same_shapes h h' → length h' = length h.
Proof.
  intros Hs. apply Nat.le_antisymm; apply Nat.le_ngt; intros Hlt.
  - destruct (lookup_lt_is_Some_2 h' (length h)) as [nd Hnd]; [done|].
    specialize (Hs (length h)). rewrite Hnd, lookup_ge_None_2 in Hs by done. done.
  - destruct (lookup_lt_is_Some_2 h (length h')) as [nd Hnd]; [done|].
    specialize (Hs (length h')). rewrite Hnd, (lookup_ge_None_2 h') in Hs by done. done.
Qed.

Lemma linked_fresh h L : linked h L → length h ∉ L.
Proof.
  intros [Hs _] Hin. destruct (seg_node _ _ _ _ _ Hs Hin) as [nd Hnd%lookup_lt_Some]. lia.
Qed.

Lemma insertBefore_spec h L nd h1 (e : ptr) :
  linked h L → alloc h nd = (e, h1) → n_next nd = None → n_prev nd = None →
  ∃ h', insertBefore h1 e (first L None) = Ret h' ∧
    linked h' (length h :: L) ∧ same_shapes h1 h'.
Proof.
  intros Hl [= <- <-] Hnn Hnp. pose proof (linked_fresh h L Hl) as Hfr. destruct Hl as [Hs Hnd].
  assert ((h ++ [nd]) !! length h = Some nd) as Hnew by (by apply list_lookup_middle).
  assert (seg (h ++ [nd]) None L None) as Hs1.
  { eapply seg_ext, Hs. intros c Hc. destruct (seg_node _ _ _ _ _ Hs Hc) as [x Hx].
    by rewrite lookup_app_l by (by eapply lookup_lt_Some). }
  destruct L as [|b L]; simpl.
  - exists (h ++ [nd]). split_and!; [done| |done]. split; [|by apply NoDup_singleton].
    split; [|done]. exists nd. by rewrite Hnp, Hnn.
  - apply NoDup_cons in Hnd as Hnb. destruct Hnb as [Hb _].
    destruct (seg_set_prev _ _ (Some (length h)) _ _ _ Hs1 Hb) as (h2 & E2 & Hs2 & Ho2 & Hsh2).
    destruct Hs1 as [(ndb & Hbl & Hbp & _) _]. rewrite Hbl, bind_Ret, E2, bind_Ret, Hbp.
    assert (h2 !! length h = Some nd) as Hnew2 by (rewrite Ho2; [done|set_solver]).
    destruct (set_next_ok h2 _ nd (Some b) Hnew2) as (h3 & -> & Hn3 & Ho3 & Hsh3).
    exists h3. split_and!; [done| |by etrans]. split; [|by apply NoDup_cons].
    split; [eexists; split; [done|]; by rewrite <-Hnp|].
    eapply seg_ext, Hs2. intros c Hc. apply Ho3. set_solver.
Qed.

Lemma node_length_spec (fuel : nat) h p L l :
  seg h p L None → (length L ≤ fuel)%nat →
  node_length fuel h (first L None) l = Some (Ret (l + len L)).
Proof.
  revert p L l. induction fuel as [|fuel IH]; intros p [|a L] l Hs Hf; simpl in *; try lia.
  1-2: unfold len; simpl; by rewrite Z.add_0_r.
  destruct Hs as [(nd & Ha & _ & Hn) Hs]. rewrite Ha, Hn, (IH _ _ _ Hs) by lia.
  rewrite len_cons. do 2 f_equal. lia.
Qed.

(** [p] leads to a return of [id] among the first [a] entries of [P], if there is one. *)
Definition match_in (P : list (entry V)) (a : nat) (id : Z) p : Prop :=
  (∀ j, p = Some j → (j < a)%nat ∧ ∃ el, P !! j = Some el ∧ e_kind el = returnEntry ∧ e_id el = id) ∧
  (∀ j el, (j < a)%nat → P !! j = Some el → e_kind el = returnEntry → e_id el = id → is_Some p).

(** The node made for an entry. *)
Definition node_of (P : list (entry V)) h (a : nat) (el : entry V) : Prop :=
  ∃ nd, h !! a = Some nd ∧ n_value nd = Some (e_value el) ∧ n_id nd = e_id el ∧
    match e_kind el with
    | returnEntry => n_match nd = None
    | callEntry => match_in P a (e_id el) (n_match nd)
    end.

Lemma match_in_app P Q a id p : (a ≤ length P)%nat → match_in P a id p → match_in (P ++ Q) a id p.
Proof.
  intros Ha [H1 H2]. split.
  - intros j Hj. destruct (H1 j Hj) as (? & el & ? & ?). split; [done|]. exists el.
    by rewrite lookup_app_l by lia.
  - intros j el Hj. rewrite lookup_app_l by lia. by apply H2.
Qed.

Lemma node_of_app P Q h h' a el :
  P !! a = Some el → node_of P h a el → (∀ b, (b < length P)%nat → shape <$> h' !! b = shape <$> h !! b) →
  node_of (P ++ Q) h' a el.
Proof.
  intros Ha%lookup_lt_Some (nd & Hnd & Hv & Hi & Hm) Hs. specialize (Hs a Ha). rewrite Hnd in Hs.
  destruct (h' !! a) as [nd'|] eqn:E; [|done]. injection Hs as Hv' Hm' Hi'.
  exists nd'. rewrite Hv', Hi', Hm'. split_and!; [done..|].
  destruct (e_kind el); [|done]. apply match_in_app; [lia|done].
Qed.

Record built (P : list (entry V)) (acc : list (node V) * gmap Z nat * ptr) : Prop := {
  built_len : length acc.1.1 = length P;
  built_linked : linked acc.1.1 (rev (seq 0 (length P)));
  built_root : acc.2 = first (rev (seq 0 (length P))) None;
  built_nodes a el : P !! a = Some el → node_of P acc.1.1 a el;
  built_matches id : match_in P (length P) id (acc.1.2 !! id);
}.

Lemma link_entry_spec P acc el :
  built P acc → ∃ acc', link_entry acc el = Ret acc' ∧ built (P ++ [el]) acc'.
Proof.
  destruct acc as [[h mt] root]. intros [Hlen Hl Hr Hn Hm]; simpl in *. subst root.
  set (mp := match e_kind el with returnEntry => None | callEntry => mt !! e_id el end).
  set (nd := mkNode (Some (e_value el)) mp (e_id el) None None).
  set (mt' := match e_kind el with returnEntry => <[e_id el := length h]> mt | callEntry => mt end).
  destruct (insertBefore_spec h _ nd _ _ Hl eq_refl eq_refl eq_refl) as (h' & Hi & Hl' & Hs).
  exists (h', mt', Some (length h)). split.
  { unfold link_entry, nd, mp, mt', alloc in *. destruct (e_kind el); by rewrite Hi, bind_Ret. }
  pose proof (same_shapes_length _ _ Hs) as Hlen'. rewrite length_app in Hlen'. simpl in Hlen'.
  assert (rev (seq 0 (length (P ++ [el]))) = length h :: rev (seq 0 (length P))) as Hseq.
  { by rewrite length_app, Nat.add_1_r, seq_S, rev_app_distr, Hlen. }
  split; simpl.
  - rewrite length_app. simpl. lia.
  - by rewrite Hseq.
  - by rewrite Hseq.
  - intros a el' [Ha|[Ha Hel]]%lookup_app_Some.
    + eapply node_of_app; [done|by apply Hn|]. intros b Hb. rewrite <-Hs, lookup_app_l by lia. done.
    + apply list_lookup_singleton_Some in Hel as [E <-]. assert (a = length h) as -> by lia.
      specialize (Hs (length h)). rewrite list_lookup_middle in Hs by done.
      destruct (h' !! length h) as [nd'|] eqn:E'; [|done]. injection Hs as Hv Hmm Hid.
      exists nd'. rewrite <-Hv, <-Hmm, <-Hid. split_and!; [done..|]. unfold mp.
      destruct (e_kind el); [|done]. rewrite Hlen. by apply match_in_app, Hm.
  - intros id. destruct (Hm id) as [H1 H2]. unfold mt'. rewrite length_app. simpl. split.
    + intros j Hj. assert (mt !! id = Some j ∨ e_kind el = returnEntry ∧ e_id el = id ∧ j = length h) as Hc.
      { destruct (e_kind el); [by left|]. apply lookup_insert_Some in Hj as [[? ?]|[_ ?]]; naive_solver. }
      destruct Hc as [Hc|(Hk & Hid & ->)].
      * destruct (H1 j Hc) as (? & el' & ? & ?). split; [lia|]. exists el'. by rewrite lookup_app_l by lia.
      * split; [lia|]. exists el. rewrite Hlen. split; [by apply list_lookup_middle|done].
    + intros j el' Hj [Ha|[Ha Hel]]%lookup_app_Some Hk Hid.
      * destruct (H2 j el') as [x Hx]; [by eapply lookup_lt_Some|done..|].
        destruct (e_kind el); [by exists x|]. destruct (decide (e_id el = id)) as [->|].
        -- rewrite lookup_insert_eq. by eexists.
        -- rewrite lookup_insert_ne by done. by exists x.
      * apply list_lookup_singleton_Some in Hel as [E <-]. rewrite Hk, Hid, lookup_insert_eq. by eexists.
Qed.

Lemma makeLinkedEntries_spec (entries : list (entry V)) :
  ∃ h mt root, makeLinkedEntries entries = Ret (h, root) ∧ built (rev entries) (h, mt, root).
Proof.
  assert (∀ Q P acc, built P acc → ∃ acc', ofold link_entry acc Q = Ret acc' ∧ built (P ++ Q) acc') as Hfold.
  { induction Q as [|el Q IH]; intros P acc Hb; simpl; [exists acc; by rewrite app_nil_r|].
    destruct (link_entry_spec P acc el Hb) as (acc1 & -> & Hb1). rewrite bind_Ret.
    destruct (IH _ _ Hb1) as (acc2 & -> & Hb2). exists acc2. by rewrite <-app_assoc in Hb2. }
  destruct (Hfold (rev entries) [] ([], ∅, None)) as ([[h mt] root] & E & Hb).
  { split; simpl; [done|split; [done|apply NoDup_nil_2]|done|done|].
    intros id. rewrite lookup_empty. split; [done|]. intros j el _ ?. done. }
  exists h, mt, root. unfold makeLinkedEntries. by rewrite E.
Qed.
End lists.

(** The links of a list are determined by its order. *)
Lemma linked_determined {V} (h h' : list (node V)) L :
  linked h L → linked h' L → same_shapes h h' → only L h h' → h' = h.
Proof.
  intros Hl Hl' Hs Ho. apply list_eq. intros a. destruct (decide (a ∈ L)) as [Ha|Ha]; [|by apply Ho].
  apply list_elem_of_split in Ha as (A & B & ->).
  destruct (linked_at _ _ _ _ Hl) as (nd & Hnd & Hp & Hn), (linked_at _ _ _ _ Hl') as (nd' & Hnd' & Hp' & Hn').
  specialize (Hs a). rewrite Hnd, Hnd' in Hs |- *. injection Hs as Hv Hm Hi. f_equal.
  destruct nd, nd'. simpl in *. congruence.
Qed.

(** [unlift] undoes [lift]: taking a call and its return out of a doubly linked list and
    putting them back gives the same heap, without a nil dereference. *)
Theorem lift_unlift {V} (h : list (node V)) A (p e : nat) M (m : nat) B nd :
  linked h (A ++ p :: e :: M ++ m :: B) → h !! e = Some nd → n_match nd = Some m →
  ∃ h', lift h (Some e) = Ret h' ∧ linked h' (A ++ p :: M ++ B) ∧ unlift h' (Some e) = Ret h.
Proof.
  intros Hl He Hm. destruct (lift_spec _ _ _ _ _ _ _ _ Hl He Hm) as (h' & Hlift & Hl' & Hg & Ho & Hs).
  exists h'. split_and!; [done..|].
  destruct (unlift_spec _ _ _ _ _ _ _ Hl' (proj2 Hl) Hg) as (h'' & Hu & Hl'' & Ho' & Hs').
  rewrite Hu. f_equal. eapply linked_determined; [done..|by etrans|].
  intros a Ha. by rewrite Ho', Ho.
Qed.

Definition two_calls : list (entry unit) :=
  [mkEntry callEntry tt 0 1 0; mkEntry callEntry tt 1 2 1; mkEntry returnEntry tt 0 3 0; mkEntry returnEntry tt 1 4 1].

Definition two_calls_heap : list (node unit) :=
  match makeLinkedEntries two_calls with Ret (h, _) => h | Panic => [] end.

Lemma lift_unlift_witness :
  ∃ h', lift two_calls_heap (Some 2%nat) = Ret h' ∧ linked h' [3; 1]%nat ∧ unlift h' (Some 2%nat) = Ret two_calls_heap.
Proof.
  apply (lift_unlift two_calls_heap [] 3 2 [1%nat] 0 [] (mkNode (Some tt) (Some 0%nat) 1 (Some 1%nat) (Some 3%nat))).
  - split; [|vm_compute; repeat constructor; set_solver].
    repeat (split; [eexists; split; [vm_compute; reflexivity|done]|]). done.
  - reflexivity.
  - reflexivity.
Defined.
