(* ===== verification/PorcSpec.v ===== *)
(** * porcupine: what a linearizable history is

    A history of operations [0 .. n-1], some of which returned before others were called,
    is linearizable when the operations have an order that respects this and in which the
    model's [Step] allows each.  [completes] is the same, one operation at a time, as
    [checkSingle] of [src/src/porcupine/checker.go] builds it; [remaining X] are the
    entries left in its list when the operations of [X] are out. *)
From S2P Require Import Prelude Bitset Porcupine PorcList.

(** ** Linearizability

    The operations are [0 .. n-1]; [prec i j] when [i] returned before [j] was called. *)
Section specification.
Context {V St : Type} (Step : St → V → V → outcome (bool * St)) (n : Z) (inp out : Z → V).
Context (prec : Z → Z → Prop).
Implicit Types (X : gset Z) (σ : St) (i j : Z) (π : list Z).

(** The state after the operations [π], each allowed where it stands. *)
Fixpoint legal σ π σ' : Prop :=
  match π with
  | [] => σ' = σ
  | i :: π => ∃ σ1, Step σ (inp i) (out i) = Ret (true, σ1) ∧ legal σ1 π σ'
  end.

(** [π] orders the operations as they happened. *)
Definition ordered π : Prop :=
  ∀ (a b : nat) i j, π !! a = Some i → π !! b = Some j → (a < b)%nat → ¬ prec j i.

Definition linearizable σ0 : Prop :=
  ∃ π σ, π ≡ₚ zrange n ∧ ordered π ∧ legal σ0 π σ.

(** A linearization built one operation at a time, each minimal among those left. *)
Definition minimal X i : Prop := ∀ j, 0 ≤ j < n → j ∉ X → ¬ prec j i.

Fixpoint runs X σ π σ' : Prop :=
  match π with
  | [] => σ' = σ
  | i :: π =>
      (0 ≤ i < n ∧ (i ∉ X) ∧ minimal X i) ∧
      ∃ σ1, Step σ (inp i) (out i) = Ret (true, σ1) ∧ runs ({[i]} ∪ X) σ1 π σ'
  end.

(** The rest of the operations can follow. *)
Definition completes X σ : Prop :=
  ∃ π σ', runs X σ π σ' ∧ ∀ i, 0 ≤ i < n → i ∈ X ∨ i ∈ π.

Lemma runs_app X σ π1 π2 σ' :
  runs X σ (π1 ++ π2) σ' ↔ ∃ σ1, runs X σ π1 σ1 ∧ runs (list_to_set π1 ∪ X) σ1 π2 σ'.
Proof.
  revert X σ. induction π1 as [|i π1 IH]; intros X σ; cbn [app runs list_to_set].
  - setoid_rewrite (left_id_L ∅ (∪)). naive_solver.
  - setoid_rewrite IH. setoid_rewrite (assoc_L (∪)).
    setoid_rewrite (comm_L (∪) (list_to_set π1) {[i]}). naive_solver.
Qed.

Lemma runs_legal X σ π σ' :
  runs X σ π σ' → legal σ π σ' ∧ NoDup π ∧ (∀ i, i ∈ π → 0 ≤ i < n ∧ i ∉ X) ∧ ordered π.
Proof.
  revert X σ. induction π as [|i π IH]; intros X σ; cbn [runs legal].
  - intros ->. split_and!; [done|apply NoDup_nil_2|by intros ? ?%elem_of_nil|]. intros a b i j. done.
  - intros [(Hi & HX & Hmin) (σ1 & Hst & Hr)]. destruct (IH _ _ Hr) as (Hl & Hnd & Hin & Hord).
    assert (i ∉ π) as Hni by (intros [_ ?]%Hin; set_solver). split_and!.
    + by exists σ1.
    + by apply NoDup_cons.
    + intros j [->|Hj]%elem_of_cons; [done|]. apply Hin in Hj as [? ?]. split; [done|set_solver].
    + intros [|a] [|b] k j; simpl; [lia|..|].
      * intros [= <-] Hj _. apply list_elem_of_lookup_2, Hin in Hj as [? ?]. apply Hmin; [done|set_solver].
      * lia.
      * intros Hk Hj ?. apply (Hord a b); [done..|lia].
Qed.

(** Nothing left out had to come before. *)
Lemma runs_minimal X σ π σ' i j :
  runs X σ π σ' → i ∈ π → 0 ≤ j < n → j ∉ X → j ∉ π → ¬ prec j i.
Proof.
  revert X σ. induction π as [|k π IH]; intros X σ; cbn [runs]; [by intros _ ?%elem_of_nil|].
  intros [(_ & _ & Hmin) (σ1 & _ & Hr)] [->|Hi]%elem_of_cons Hj HjX Hjp; [by apply Hmin|].
  apply (IH _ _ Hr); [done|done|set_solver|set_solver].
Qed.

Lemma legal_runs X σ π σ' :
  legal σ π σ' → NoDup π → (∀ i, i ∈ π → 0 ≤ i < n ∧ i ∉ X) → ordered π → (∀ i, 0 ≤ i < n → ¬ prec i i) →
  (∀ i, 0 ≤ i < n → i ∈ X ∨ i ∈ π) → runs X σ π σ'.
Proof.
  revert X σ. induction π as [|i π IH]; intros X σ; cbn [runs legal]; [done|].
  intros (σ1 & Hst & Hl) [Hni Hnd]%NoDup_cons Hin Hord Hirr Hall. split.
  - destruct (Hin i) as [? ?]; [by left|]. split_and!; [lia..|done|].
    intros j Hj HjX Hp. destruct (Hall j Hj) as [?|[->|[b Hb]%list_elem_of_lookup]%elem_of_cons]; [done|by eapply Hirr|].
    eapply (Hord 0%nat (S b)); [done|done|lia|done].
  - exists σ1. split; [done|]. apply IH; [done|done|..|done|].
    + intros j Hj. destruct (Hin j) as [? ?]; [by right|]. split; [done|]. set_solver.
    + intros a b k j Hk Hj Hab. apply (Hord (S a) (S b)); [done..|lia].
    + intros j Hj. destruct (Hall j Hj) as [?|[->|?]%elem_of_cons]; set_solver.
Qed.

Lemma completes_linearizable σ0 :
  (∀ i, 0 ≤ i < n → ¬ prec i i) → completes ∅ σ0 ↔ linearizable σ0.
Proof.
  intros Hirr. split.
  - intros (π & σ & Hr & Hall). destruct (runs_legal _ _ _ _ Hr) as (Hl & Hnd & Hin & Hord).
    exists π, σ. split_and!; [|done|done]. apply NoDup_Permutation; [done|apply NoDup_zrange|].
    intros i. rewrite elem_of_zrange. split; [by intros [? _]%Hin|]. intros [?|?]%Hall; set_solver.
  - intros (π & σ & Hp & Hord & Hl). exists π, σ. split.
    + apply legal_runs; [done| | |done|done|].
      * rewrite Hp. apply NoDup_zrange.
      * intros i. rewrite Hp, elem_of_zrange. set_solver.
      * intros i Hi. right. by rewrite Hp, elem_of_zrange.
    + intros i Hi. right. by rewrite Hp, elem_of_zrange.
Qed.
End specification.

(** Only the order between the operations of the history matters. *)
Lemma linearizable_ext {V St} (Step : St → V → V → outcome (bool * St)) n inp out (prec prec' : Z → Z → Prop) σ0 :
  (∀ i j, 0 ≤ i < n → 0 ≤ j < n → prec i j ↔ prec' i j) →
  linearizable Step n inp out prec σ0 ↔ linearizable Step n inp out prec' σ0.
Proof.
  intros Hp. unfold linearizable.
  assert (∀ π, π ≡ₚ zrange n → ordered prec π ↔ ordered prec' π) as Ho; [|naive_solver].
  intros π Hperm. assert (∀ (a : nat) i, π !! a = Some i → 0 ≤ i < n) as Hin.
  { intros a i Hi%list_elem_of_lookup_2. by rewrite Hperm, elem_of_zrange in Hi. }
  unfold ordered. split; intros H a b i j Hi Hj Hab; [rewrite <-Hp by eauto|rewrite Hp by eauto]; eauto.
Qed.

(** ** The entries still to linearize *)

(** The nodes [0 .. N-1], in the list from [N-1] down to 0: [cl i] and [rt i] are those
    of the call and the return of operation [i]. *)
Record layout (n : Z) (N : nat) (cl rt : Z → nat) (opid : nat → Z) : Prop := {
  lay_cl i : 0 ≤ i < n → (cl i < N)%nat ∧ opid (cl i) = i;
  lay_rt i : 0 ≤ i < n → (rt i < N)%nat ∧ opid (rt i) = i;
  lay_order i : 0 ≤ i < n → (rt i < cl i)%nat;
  lay_cover a : (a < N)%nat → 0 ≤ opid a < n ∧ (a = cl (opid a) ∨ a = rt (opid a));
}.

Lemma StronglySorted_filter_list {A} (R : relation A) (P : A → Prop) `{!∀ x, Decision (P x)} l :
  StronglySorted R l → StronglySorted R (filter P l).
Proof.
  induction 1 as [|x l Hs IH Hx]; [constructor|]. rewrite filter_cons. case_decide; [|done].
  constructor; [done|]. rewrite Forall_forall in *. intros y [_ ?]%list_elem_of_filter. eauto.
Qed.

Lemma StronglySorted_rev_seq (N : nat) : StronglySorted (λ a b, b < a)%nat (rev (seq 0 N)).
Proof.
  induction N as [|N IH]; [constructor|]. rewrite seq_S, rev_app_distr. simpl. constructor; [done|].
  rewrite Forall_forall. intros a Ha. apply list_elem_of_In, in_rev, list_elem_of_In, elem_of_seq in Ha. lia.
Qed.

Lemma NoDup_split_inj {A} (x : A) l1 l2 k1 k2 :
  NoDup (l1 ++ x :: l2) → l1 ++ x :: l2 = k1 ++ x :: k2 → l1 = k1 ∧ l2 = k2.
Proof.
  revert k1. induction l1 as [|y l1 IH]; intros [|z k1]; simpl; intros [Hx Hnd]%NoDup_cons E.
  - by injection E as ->.
  - injection E as -> ->. set_solver.
  - injection E as -> _. set_solver.
  - injection E as -> E. destruct (IH k1 Hnd E) as [-> ->]. done.
Qed.

Section remaining.
Context {n : Z} {N : nat} {cl rt : Z → nat} {opid : nat → Z} (lay : layout n N cl rt opid).
Implicit Types (X : gset Z) (i j : Z) (a b : nat).

Definition prec_of i j : Prop := (cl j < rt i)%nat.

Definition remaining X : list nat := filter (λ a, opid a ∉ X) (rev (seq 0 N)).

Lemma elem_of_remaining X a : a ∈ remaining X ↔ (a < N)%nat ∧ opid a ∉ X.
Proof.
  unfold remaining. rewrite list_elem_of_filter, list_elem_of_In, <-in_rev, <-list_elem_of_In, elem_of_seq.
  naive_solver lia.
Qed.

Lemma remaining_sorted X : StronglySorted (λ a b, b < a)%nat (remaining X).
Proof. apply StronglySorted_filter_list, StronglySorted_rev_seq. Qed.

Lemma remaining_NoDup X : NoDup (remaining X).
Proof.
  apply NoDup_filter. rewrite <-Permutation_rev. apply NoDup_seq.
Qed.

Lemma remaining_before X A B a b : remaining X = A ++ B → a ∈ A → b ∈ B → (b < a)%nat.
Proof.
  intros E Ha Hb. pose proof (remaining_sorted X) as Hs. rewrite E in Hs.
  by apply (StronglySorted_app_1_elem_of _ _ _ _ _ Hs).
Qed.

Lemma remaining_nil X : remaining X = [] ↔ ∀ i, 0 ≤ i < n → i ∈ X.
Proof.
  split.
  - intros E i Hi. destruct (decide (i ∈ X)) as [|Hn]; [done|]. exfalso.
    destruct (lay_cl _ _ _ _ _ lay i Hi) as [Hc Ho].
    assert (cl i ∈ remaining X) as Hin by (apply elem_of_remaining; by rewrite Ho).
    rewrite E in Hin. by apply elem_of_nil in Hin.
  - intros Hall. apply elem_of_nil_inv. intros a [Ha Hn]%elem_of_remaining.
    apply Hn, Hall, (lay_cover _ _ _ _ _ lay a Ha).
Qed.

(** Taking an operation out. *)
Lemma remaining_split X i A Suf :
  0 ≤ i < n → i ∉ X → remaining X = A ++ cl i :: Suf →
  ∃ M B, Suf = M ++ rt i :: B ∧ remaining ({[i]} ∪ X) = A ++ M ++ B.
Proof.
  intros Hi HX E. destruct (lay_rt _ _ _ _ _ lay i Hi) as [Hr Ho]. destruct (lay_cl _ _ _ _ _ lay i Hi) as [Hc Hoc].
  pose proof (lay_order _ _ _ _ _ lay i Hi) as Hlt.
  assert (rt i ∈ Suf) as Hin.
  { assert (rt i ∈ remaining X) as Hin by (apply elem_of_remaining; by rewrite Ho).
    rewrite E in Hin. apply elem_of_app in Hin as [Hin|[?|?]%elem_of_cons]; [|lia|done].
    pose proof (remaining_before _ _ _ _ (cl i) E Hin ltac:(by left)). lia. }
  apply list_elem_of_split in Hin as (M & B & ->). exists M, B. split; [done|].
  pose proof (remaining_NoDup X) as Hnd. rewrite E in Hnd.
  apply NoDup_middle in Hnd as [Hnc Hnd]. rewrite app_assoc in Hnd. apply NoDup_middle in Hnd as [Hnr _].
  assert (∀ a, a ∈ A ++ M ++ B → opid a ∉ ({[i]} : gset Z)) as Hall.
  { intros a Ha Hai%elem_of_singleton.
    assert (a ∈ remaining X) as HR by (rewrite E; set_solver).
    apply elem_of_remaining in HR as [HaN _]. destruct (lay_cover _ _ _ _ _ lay a HaN) as [_ [Ea|Ea]];
      rewrite Hai in Ea; subst a; set_solver. }
  transitivity (filter (λ a, opid a ∉ ({[i]} : gset Z)) (remaining X)).
  { unfold remaining. rewrite list_filter_filter. apply list_filter_iff. intros a. set_solver. }
  rewrite E, filter_app, filter_cons, filter_app, filter_cons, Hoc, Ho, !decide_False by set_solver.
  rewrite !filter_all by set_solver. done.
Qed.
End remaining.
