(* ===== verification/PorcSearch.v ===== *)
(** * porcupine: the search of checkSingle

    The depth-first search of [checkSingle] ([src/src/porcupine/checker.go]).  The
    invariant [inv] says what the heap, the bitset, the stack of calls and the [longest]
    sequences hold at an iteration; [body_call] and [body_return] give the two branches
    of the body; [explore] follows the search of a subtree and bounds its iterations. *)
From S2P Require Import Prelude Bitset Porcupine PorcList PorcSpec.

Section search.
Context {V St : Type} (model : Model V St) (eqf : St → St → bool).
Context {n : Z} {N : nat} {cl rt : Z → nat} {opid : nat → Z} (lay : layout n N cl rt opid).
Context (inp out : Z → option V) (h0 : list (node V)) (partial : bool).
Implicit Types (s : search V St) (h : list (node V)) (X : gset Z) (σ : St) (i j : Z)
  (fs : list (Z * St)) (Pre Suf : list nat).

(** The head node is allocated after the entries. *)
Abbreviation hd := (Some N).
Abbreviation remaining := (remaining (N := N) (opid := opid)).
Abbreviation prec := (prec_of (cl := cl) (rt := rt)).
Abbreviation minimal := (minimal n prec).
Abbreviation runs := (runs (call_step model) n inp out prec).

Hypothesis small : n < 2 ^ 63.
Hypothesis equal_set : Equal model = Some eqf.
Hypothesis shapes : ∀ i, 0 ≤ i < n →
  shape <$> h0 !! cl i = Some (inp i, Some (rt i), i) ∧
  shape <$> h0 !! rt i = Some (out i, None, i).
Hypothesis steps_total : ∀ σ i, 0 ≤ i < n → ∃ b σ', call_step model σ (inp i) (out i) = Ret (b, σ').

(** The frames of the stack, from the top: an operation and the state before it. *)
Definition ids fs : gset Z := list_to_set fs.*1.

Definition frame (f : Z * St) : callsEntry St := mkCalls (Some (cl f.1)) f.2.

Fixpoint path fs σ : Prop :=
  match fs with
  | [] => σ = Init model
  | (i, σ1) :: fs =>
      (0 ≤ i < n ∧ (i ∉ ids fs) ∧ minimal (ids fs) i) ∧
      call_step model σ1 (inp i) (out i) = Ret (true, σ) ∧ path fs σ1
  end.

(** The nodes out of the list know their places. *)
Fixpoint gaps h fs : Prop :=
  match fs with
  | [] => True
  | (i, _) :: fs =>
      (∃ A M B, remaining (ids fs) = A ++ cl i :: M ++ rt i :: B ∧ gap h (N :: A) (cl i) M (rt i) B) ∧
      gaps h fs
  end.

(** A sequence [longest] leads to is a partial linearization with the operation. *)
Definition longest_ok (seqs : list (list Z)) (longest : list ptr) : Prop :=
  len longest = n ∧
  ∀ i q, zlookup longest i = Some (Some q) →
    ∃ l σ, seqs !! q = Some l ∧ i ∈ l ∧ runs ∅ (Init model) l σ.

Record inv s fs Pre Suf : Prop := {
  inv_shapes : same_shapes h0 (s_heap s);
  inv_linked : linked (s_heap s) (N :: remaining (ids fs));
  inv_split : remaining (ids fs) = Pre ++ Suf;
  inv_before a : a ∈ Pre → ∃ i, 0 ≤ i < n ∧ a = cl i;
  inv_entry : s_entry s = first Suf None;
  inv_bits : represents n (s_linearized s) (ids fs);
  inv_stack : s_calls s = reverse (frame <$> fs);
  inv_gaps : gaps (s_heap s) fs;
  inv_path : path fs (s_state s);
  inv_longest : longest_ok (s_seqs s) (s_longest s);
}.

(** ** Nodes and the stack *)

Lemma call_node h i : 0 ≤ i < n → same_shapes h0 h →
  ∃ nd, h !! cl i = Some nd ∧ n_value nd = inp i ∧ n_match nd = Some (rt i) ∧ n_id nd = i.
Proof.
  intros Hi Hs. destruct (shapes i Hi) as [Hc _]. rewrite Hs in Hc.
  apply fmap_Some in Hc as (nd & Hnd & [= -> -> ->]). by exists nd.
Qed.

Lemma return_node h i : 0 ≤ i < n → same_shapes h0 h →
  ∃ nd, h !! rt i = Some nd ∧ n_value nd = out i ∧ n_match nd = None ∧ n_id nd = i.
Proof.
  intros Hi Hs. destruct (shapes i Hi) as [_ Hc]. rewrite Hs in Hc.
  apply fmap_Some in Hc as (nd & Hnd & [= -> -> ->]). by exists nd.
Qed.

Lemma uint_id i : 0 ≤ i < n → uint i = i.
Proof. intros. unfold uint. apply Z.mod_small. lia. Qed.

Lemma ids_cons i σ fs : ids ((i, σ) :: fs) = {[i]} ∪ ids fs.
Proof. done. Qed.

Lemma path_range fs σ : path fs σ → NoDup fs.*1 ∧ ∀ i, i ∈ ids fs → 0 ≤ i < n.
Proof.
  revert σ. induction fs as [|[i σ1] fs IH]; intros σ; cbn [path].
  - intros _. split; [apply NoDup_nil_2|]. set_solver.
  - intros ((? & Hni & _) & _ & Hp). destruct (IH _ Hp) as [Hnd Hr]. rewrite ids_cons.
    split; [|set_solver]. cbn. apply NoDup_cons. split; [|done]. unfold ids in Hni.
    by rewrite elem_of_list_to_set in Hni.
Qed.

Lemma path_runs fs σ : path fs σ → runs ∅ (Init model) (reverse fs.*1) σ.
Proof.
  revert σ. induction fs as [|[i σ1] fs IH]; intros σ; cbn [path]; [by intros ->|].
  intros (Hi & Hst & Hp). rewrite fmap_cons, reverse_cons. apply runs_app. exists σ1. split; [by apply IH|].
  assert (list_to_set (reverse fs.*1) ∪ ∅ = ids fs) as ->.
  { rewrite (right_id_L ∅ (∪)). unfold ids. apply set_eq. intros x.
    by rewrite !elem_of_list_to_set, elem_of_reverse. }
  cbn. split; [done|]. by exists σ.
Qed.

Lemma size_ids fs σ : path fs σ → size (ids fs) = length fs.
Proof. intros [Hnd _]%path_range. unfold ids. by rewrite size_list_to_set, length_fmap. Qed.

Lemma out_of_list fs i : i ∈ ids fs → 0 ≤ i < n →
  (cl i ∉ N :: remaining (ids fs)) ∧ (rt i ∉ N :: remaining (ids fs)).
Proof.
  intros Hin Hi. destruct (lay_cl _ _ _ _ _ lay i Hi) as [? Ho], (lay_rt _ _ _ _ _ lay i Hi) as [? Ho'].
  rewrite !not_elem_of_cons, !elem_of_remaining, Ho, Ho'. naive_solver lia.
Qed.

(** Writes to the nodes of the list do not disturb the gaps. *)
Lemma gaps_ext h h' fs σ X : path fs σ → ids fs ⊆ X → gaps h fs → only (N :: remaining X) h h' → gaps h' fs.
Proof.
  intros Hp HX Hg Ho. revert σ Hp HX Hg. induction fs as [|[i σ1] fs IH]; intros σ Hp HX; cbn [gaps path] in *; [done|].
  destruct Hp as ((Hi & Hni & _) & _ & Hp). rewrite ids_cons in HX. intros [(A & M & B & E & Hg) Hgs]. split.
  - exists A, M, B. split; [done|].
    destruct (lay_cl _ _ _ _ _ lay i Hi) as [? Hoc], (lay_rt _ _ _ _ _ lay i Hi) as [? Hor].
    eapply gap_ext, Hg; apply Ho; rewrite not_elem_of_cons, elem_of_remaining, ?Hoc, ?Hor; split; [lia| |lia|];
      set_solver.
  - eapply IH; [done|set_solver|done].
Qed.

Lemma call_ids_spec h fs : (∀ i, i ∈ fs.*1 → 0 ≤ i < n) → same_shapes h0 h →
  call_ids h (reverse (frame <$> fs)) = Ret (reverse fs.*1).
Proof.
  intros Hr Hs. unfold call_ids. rewrite <-!fmap_reverse.
  assert (∀ l acc, (∀ i, i ∈ l.*1 → 0 ≤ i < n) →
    ofold (λ seq v, nd ← load h (c_entry v); Ret (seq ++ [n_id nd])) acc (frame <$> l) = Ret (acc ++ l.*1)) as Hf.
  { induction l as [|[i σ] l IH]; intros acc Hl; cbn -[load]; [by rewrite app_nil_r|].
    destruct (call_node h i) as (nd & Hnd & _ & _ & Hid); [apply Hl; by left|done|].
    rewrite load_Some, Hnd, bind_Ret, bind_Ret, Hid, IH by (intros; apply Hl; by right).
    by rewrite <-app_assoc. }
  apply (Hf (reverse fs) []). intros i. rewrite fmap_reverse, elem_of_reverse. apply Hr.
Qed.

(** ** The longest sequences *)

Lemma longest_ok_app seqs longest l : longest_ok seqs longest → longest_ok (seqs ++ [l]) longest.
Proof.
  intros [Hl Hq]. split; [done|]. intros i q Hz. destruct (Hq i q Hz) as (l' & σ & Hs & ?).
  exists l', σ. by rewrite lookup_app_l by (by eapply lookup_lt_Some).
Qed.

Lemma longest_ok_set seqs longest q l σ i :
  longest_ok seqs longest → seqs !! q = Some l → runs ∅ (Init model) l σ → i ∈ l → 0 ≤ i < n →
  ∃ longest', slice_set longest i (Some q) = Ret longest' ∧ longest_ok seqs longest'.
Proof.
  intros [Hl Hq] Hs Hr Hi Hin. rewrite slice_set_ok by lia. eexists. split; [done|].
  split; [by rewrite len_insert|]. intros j q' Hz. destruct (decide (j = i)) as [->|Hne].
  - rewrite zlookup_insert_eq in Hz by lia. injection Hz as <-. by exists l, σ.
  - rewrite zlookup_insert_ne in Hz by (lia || done). by apply Hq.
Qed.

Definition updating fs (acc : list (list Z) * ptr * list ptr) : Prop :=
  longest_ok acc.1.1 acc.2 ∧
  match acc.1.2 with Some q => acc.1.1 !! q = Some (reverse fs.*1) | None => True end.

Lemma update_longest_ok h fs σ acc f :
  path fs σ → same_shapes h0 h → f ∈ fs → updating fs acc →
  ∃ acc', update_longest h (reverse (frame <$> fs)) acc (frame f) = Ret acc' ∧ updating fs acc'.
Proof.
  intros Hp Hs Hf Hu. destruct acc as [[seqs seq] longest], f as [i σf]. destruct Hu as [Hl Hseq]; simpl in Hl, Hseq.
  destruct (path_range _ _ Hp) as [_ Hr]. pose proof (path_runs _ _ Hp) as Hruns.
  assert (i ∈ fs.*1) as Hin by (by apply (list_elem_of_fmap_2 fst) in Hf).
  assert (∀ j, j ∈ fs.*1 → 0 ≤ j < n) as Hr' by (intros; by apply Hr, elem_of_list_to_set).
  assert (i ∈ reverse fs.*1) as Hin' by (by apply elem_of_reverse).
  destruct (call_node h i) as (nd & Hnd & _ & _ & Hid); [auto|done|].
  unfold update_longest. change (c_entry (frame (i, σf))) with (Some (cl i)). rewrite load_Some, Hnd, bind_Ret, Hid.
  destruct (slice_get_ok longest i) as (cur & -> & Hcur); [rewrite (proj1 Hl); auto|]. rewrite bind_Ret.
  assert (∃ b, match cur with
               | None => Ret true
               | Some q => match seqs !! q with
                           | Some l => Ret (len l <? len (reverse (frame <$> fs))) | None => Panic end
               end = Ret b) as [b ->].
  { destruct cur as [q|]; [|by eexists]. destruct (proj2 Hl _ _ Hcur) as (l & _ & -> & _). by eexists. }
  rewrite bind_Ret. destruct b; [|by exists (seqs, seq, longest)].
  destruct seq as [q|]; cbn -[reverse].
  - destruct (longest_ok_set _ _ q _ _ i Hl Hseq Hruns Hin') as (lo & -> & Hlo); [auto|].
    by exists (seqs, Some q, lo).
  - rewrite call_ids_spec by done. cbn -[reverse].
    assert ((seqs ++ [reverse fs.*1]) !! length seqs = Some (reverse fs.*1)) as Hlook by (by apply list_lookup_middle).
    destruct (longest_ok_set (seqs ++ [reverse fs.*1]) longest (length seqs) (reverse fs.*1) σ i) as (lo & -> & Hlo);
      [by apply longest_ok_app|done..|auto|].
    by exists (seqs ++ [reverse fs.*1], Some (length seqs), lo).
Qed.

Lemma update_all_ok h fs σ seqs longest :
  path fs σ → same_shapes h0 h → longest_ok seqs longest →
  ∃ seqs' seq' longest',
    ofold (update_longest h (reverse (frame <$> fs))) (seqs, None, longest) (reverse (frame <$> fs))
      = Ret (seqs', seq', longest') ∧ longest_ok seqs' longest'.
Proof.
  intros Hp Hs Hl.
  destruct (ofold_total (updating fs) (update_longest h (reverse (frame <$> fs)))
              (reverse (frame <$> fs)) (seqs, None, longest)) as ([[sq q] lo] & -> & [Hu _]).
  - intros acc v Hv Hu. apply elem_of_reverse, list_elem_of_fmap in Hv as (f & -> & Hf).
    by eapply update_longest_ok.
  - by split.
  - by exists sq, q, lo.
Qed.
(** ** The cache *)

Definition in_cache (cache : gmap Z (list (cacheEntry St))) (elem : cacheEntry St) : Prop :=
  ∃ hash, elem ∈ mget cache hash.

Lemma scan_cache_spec elems entry :
  ∃ seen, scan_cache model elems entry = Ret seen ∧
    (seen = true → ∃ elem, elem ∈ elems ∧
       k_linearized entry = k_linearized elem ∧ eqf (k_state entry) (k_state elem) = true).
Proof.
  induction elems as [|elem elems IH]; simpl; [by exists false|].
  destruct IH as (seen & -> & Hseen). rewrite bitset_equals_eq. case_bool_decide as E.
  - unfold call_equal. rewrite equal_set, bind_Ret. destruct (eqf _ _) eqn:Ee.
    + exists true. split; [done|]. intros _. exists elem. split_and!; [left|done|done].
    + exists seen. split; [done|]. intros Hs. destruct (Hseen Hs) as (el & ? & ?). exists el. split; [by right|done].
  - exists seen. split; [done|]. intros Hs. destruct (Hseen Hs) as (el & ? & ?). exists el. split; [by right|done].
Qed.

Lemma in_cache_insert cache hash e elem :
  in_cache (<[hash := mget cache hash ++ [e]]> cache) elem → in_cache cache elem ∨ elem = e.
Proof.
  intros [k Hk]. unfold mget in Hk. destruct (decide (k = hash)) as [->|Hne].
  - rewrite lookup_insert_eq in Hk. simpl in Hk. apply elem_of_app in Hk as [Hk|Hk%list_elem_of_singleton];
      [left; by exists hash|by right].
  - rewrite lookup_insert_ne in Hk by done. left. by exists k.
Qed.

(** ** The body at a call *)

Lemma inv_at_call s fs Pre i Suf :
  inv s fs Pre (cl i :: Suf) → 0 ≤ i < n →
  (i ∉ ids fs) ∧ minimal (ids fs) i ∧
  ∃ e, s_heap s !! cl i = Some e ∧ n_value e = inp i ∧ n_match e = Some (rt i) ∧ n_id e = i ∧
    n_next e = first Suf None.
Proof.
  intros I Hi. pose proof (inv_split _ _ _ _ I) as E.
  assert (cl i ∈ remaining (ids fs)) as Hin by (rewrite E; set_solver).
  destruct (lay_cl _ _ _ _ _ lay i Hi) as [_ Ho].
  apply elem_of_remaining in Hin as [_ Hn]. rewrite Ho in Hn. split_and!; [done|..].
  - intros j Hj HjX Hlt. unfold prec_of in Hlt. destruct (lay_rt _ _ _ _ _ lay j Hj) as [HjN Hjo].
    assert (rt j ∈ remaining (ids fs)) as Hjr by (apply elem_of_remaining; by rewrite Hjo).
    rewrite E in Hjr. apply elem_of_app in Hjr as [Hjr|Hjr].
    + destruct (inv_before _ _ _ _ I _ Hjr) as (k & Hk & Ek).
      destruct (lay_cl _ _ _ _ _ lay k Hk) as [_ Hko]. rewrite <-Ek, Hjo in Hko. subst k.
      pose proof (lay_order _ _ _ _ _ lay j Hj). lia.
    + apply elem_of_cons in Hjr as [?|Hjr]; [lia|].
      pose proof (remaining_before _ (Pre ++ [cl i]) Suf (cl i) (rt j)
        ltac:(by rewrite <-app_assoc) ltac:(set_solver) Hjr). lia.
  - destruct (call_node (s_heap s) i Hi (inv_shapes _ _ _ _ I)) as (e & He & ? & ? & ?). exists e.
    split_and!; [done..|]. pose proof (inv_linked _ _ _ _ I) as Hl. rewrite E in Hl.
    destruct (linked_at _ (N :: Pre) _ _ Hl) as (e' & He' & _ & ?). congruence.
Qed.

(** Moving on to the next entry. *)
Definition skip s (e : node V) : search V St :=
  mkSearch (s_heap s) (n_next e) (s_linearized s) (s_cache s) (s_calls s) (s_state s) (s_seqs s) (s_longest s).

Lemma inv_skip s fs Pre i Suf e :
  inv s fs Pre (cl i :: Suf) → 0 ≤ i < n → n_next e = first Suf None → inv (skip s e) fs (Pre ++ [cl i]) Suf.
Proof.
  intros [] Hi Hn. split; try done; simpl.
  - by rewrite <-app_assoc.
  - intros a [?|E%list_elem_of_singleton]%elem_of_app; eauto.
Qed.

(** Taking the operation. *)
Lemma inv_push s fs Pre i Suf σ' cache b :
  inv s fs Pre (cl i :: Suf) → 0 ≤ i < n →
  call_step model (s_state s) (inp i) (out i) = Ret (true, σ') →
  represents n b ({[i]} ∪ ids fs) →
  ∃ h' hdn, lift (s_heap s) (s_entry s) = Ret h' ∧ load h' hd = Ret hdn ∧
    inv (mkSearch h' (n_next hdn) b cache (s_calls s ++ [mkCalls (s_entry s) (s_state s)]) σ' (s_seqs s) (s_longest s))
        ((i, s_state s) :: fs) [] (remaining ({[i]} ∪ ids fs)).
Proof.
  intros I Hi Hst Hb. destruct (inv_at_call _ _ _ _ _ I Hi) as (Hni & Hmin & e & He & _ & Hm & _ & _).
  pose proof (inv_split _ _ _ _ I) as E. destruct (remaining_split lay _ _ _ _ Hi Hni E) as (M & B & -> & E').
  destruct (snoc_cons Pre N) as (A & p & EA).
  pose proof (inv_linked _ _ _ _ I) as Hl. rewrite E, app_comm_cons, EA, <-app_assoc in Hl. cbn [app] in Hl.
  destruct (lift_spec _ _ _ _ _ _ _ _ Hl He Hm) as (h' & Hlift & Hl' & Hg & Ho & Hs).
  rewrite <-EA in Hg. rewrite (cons_middle p), app_assoc, <-EA in Hl', Ho. cbn [app] in Hl', Ho. rewrite <-E' in Hl'.
  assert (only (N :: remaining (ids fs)) (s_heap s) h') as Ho' by (by rewrite E).
  destruct (linked_at _ [] _ _ Hl') as (hdn & Hhd & _ & Hnext).
  exists h', hdn. rewrite (inv_entry _ _ _ _ I). cbn [first]. split_and!; [done|by rewrite load_Some, Hhd|].
  destruct I. split; cbn [s_heap s_entry s_linearized s_cache s_calls s_state s_seqs s_longest]; rewrite ?ids_cons; try done.
  - by etrans.
  - by intros a ?%elem_of_nil.
  - rewrite fmap_cons, reverse_cons, inv_stack0. done.
  - split; [by exists Pre, M, B|]. by eapply gaps_ext.
Qed.

Lemma body_call s fs Pre i Suf :
  inv s fs Pre (cl i :: Suf) → 0 ≤ i < n →
  ∃ s', search_body model partial hd s = Ret (Some s') ∧
    ((inv s' fs (Pre ++ [cl i]) Suf ∧ s_state s' = s_state s ∧ s_cache s' = s_cache s ∧
      ∀ σ', call_step model (s_state s) (inp i) (out i) = Ret (true, σ') →
        ∃ elem, in_cache (s_cache s) elem ∧ represents n (k_linearized elem) ({[i]} ∪ ids fs) ∧
          eqf σ' (k_state elem) = true) ∨
     (call_step model (s_state s) (inp i) (out i) = Ret (true, s_state s') ∧
      inv s' ((i, s_state s) :: fs) [] (remaining ({[i]} ∪ ids fs)) ∧
      ∃ b, represents n b ({[i]} ∪ ids fs) ∧
        ∀ elem, in_cache (s_cache s') elem → in_cache (s_cache s) elem ∨ elem = mkCache b (s_state s'))).
Proof.
  intros I Hi. destruct (inv_at_call _ _ _ _ _ I Hi) as (Hni & Hmin & e & He & Hv & Hm & Hid & Hn).
  destruct (return_node (s_heap s) i Hi (inv_shapes _ _ _ _ I)) as (r & Hr & Hrv & _).
  unfold search_body. rewrite (inv_entry _ _ _ _ I). cbn [first]. rewrite load_Some, He, bind_Ret, Hm.
  unfold try_call. rewrite Hm, load_Some, Hr, bind_Ret, Hv, Hrv.
  destruct (steps_total (s_state s) i Hi) as (ok & σ' & Hst). rewrite Hst, bind_Ret.
  pose proof (inv_skip _ _ _ _ _ _ I Hi Hn) as Iskip. unfold skip in Iskip.
  destruct ok; [|rewrite bind_Ret; eexists; split; [done|left; split_and!; [done..|congruence]]].
  destruct (bitset_set_spec (inv_bits _ _ _ _ I) i Hi) as (b & Eb & Hb).
  unfold bitset_clone. rewrite Hid, uint_id, Eb, bind_Ret by done. unfold cacheContains. cbn [k_linearized].
  destruct (scan_cache_spec (mget (s_cache s) (bitset_hash b)) (mkCache b σ')) as (seen & -> & Hseen).
  rewrite bind_Ret. destruct seen; cbn [negb].
  - rewrite bind_Ret. eexists. split; [done|]. left. split_and!; [done..|].
    intros σ1 [= <-]. destruct (Hseen eq_refl) as (elem & Hel & Hlin & Heq).
    exists elem. split_and!; [by eexists|by rewrite <-Hlin|done].
  - rewrite bind_Ret. destruct (inv_push _ _ _ _ _ σ'
      (<[bitset_hash b := mget (s_cache s) (bitset_hash b) ++ [mkCache b σ']]> (s_cache s)) b I Hi Hst Hb)
      as (h' & hdn & Hlift & Hhd & I').
    rewrite Hlift, bind_Ret, Hhd, !bind_Ret.
    eexists. split; [done|]. right. split_and!; [done|done|]. exists b. split; [done|]. apply in_cache_insert.
Qed.
(** ** The body at a return *)

(** What is left when an operation is taken out of a list split around it. *)
Lemma remaining_split_eq X i A M B :
  0 ≤ i < n → i ∉ X → remaining X = A ++ cl i :: M ++ rt i :: B →
  remaining ({[i]} ∪ X) = A ++ M ++ B ∧ NoDup (N :: A ++ cl i :: M ++ rt i :: B).
Proof.
  intros Hi Hni E. assert (NoDup (N :: remaining X)) as Hnd.
  { apply NoDup_cons. split; [|apply remaining_NoDup]. rewrite elem_of_remaining. lia. }
  rewrite E in Hnd. split; [|done].
  destruct (remaining_split lay _ _ _ _ Hi Hni E) as (M' & B' & Eq & ->).
  rewrite app_comm_cons in Hnd. apply NoDup_app in Hnd as (_ & _ & [_ Hnd]%NoDup_cons).
  destruct (NoDup_split_inj _ _ _ _ _ Hnd Eq) as [-> ->]. done.
Qed.

(** The entries before a minimal operation are calls. *)
Lemma before_minimal X i A Suf :
  minimal X i → remaining X = A ++ cl i :: Suf → ∀ a, a ∈ A → ∃ j, 0 ≤ j < n ∧ a = cl j.
Proof.
  intros Hmin E a Ha. assert (a ∈ remaining X) as Hin by (rewrite E; set_solver).
  apply elem_of_remaining in Hin as [HaN Hn]. destruct (lay_cover _ _ _ _ _ lay a HaN) as [Hj [Ea|Ea]]; [eauto|].
  exfalso. apply (Hmin (opid a)); [done..|]. unfold prec_of. rewrite <-Ea.
  by apply (remaining_before _ _ _ _ _ E Ha ltac:(by left)).
Qed.

(** Putting the last operation back. *)
Lemma inv_pop s i σ fs Pre Suf seqs longest :
  inv s ((i, σ) :: fs) Pre Suf → longest_ok seqs longest →
  ∃ h' e b A S', unlift (s_heap s) (Some (cl i)) = Ret h' ∧ load h' (Some (cl i)) = Ret e ∧
    bitset_clear (s_linearized s) (uint i) = Ret b ∧ remaining (ids fs) = A ++ cl i :: S' ∧
    inv (mkSearch h' (n_next e) b (s_cache s) (reverse (frame <$> fs)) σ seqs longest) fs (A ++ [cl i]) S'.
Proof.
  intros I Hlo. destruct (inv_gaps _ _ _ _ I) as [(A & M & B & E & Hg) Hgs].
  destruct (inv_path _ _ _ _ I) as ((Hi & Hni & Hmin) & Hst & Hp).
  destruct (remaining_split_eq _ _ _ _ _ Hi Hni E) as [E' Hnd].
  destruct (snoc_cons A N) as (A' & p & EA). pose proof (inv_linked _ _ _ _ I) as Hl.
  rewrite ids_cons, E', app_comm_cons, EA, <-app_assoc in Hl. cbn [app] in Hl.
  rewrite EA in Hg. rewrite app_comm_cons, EA, <-app_assoc in Hnd. cbn [app] in Hnd.
  destruct (unlift_spec _ _ _ _ _ _ _ Hl Hnd Hg) as (h' & Hu & Hl' & Ho & Hs).
  rewrite (cons_middle p), app_assoc, <-EA in Hl', Ho. cbn [app] in Hl', Ho. rewrite <-E in Hl', Ho.
  pose proof Hl' as Hl2. rewrite E in Hl2. destruct (linked_at _ (N :: A) _ _ Hl2) as (e & He & _ & Hn).
  destruct (bitset_clear_spec (inv_bits _ _ _ _ I) i Hi) as (b & Hb & Hrep).
  exists h', e, b, A, (M ++ rt i :: B). rewrite load_Some, He, uint_id by done. split_and!; [done..|].
  destruct I. split; cbn [s_heap s_entry s_linearized s_cache s_calls s_state s_seqs s_longest]; try done.
  - by etrans.
  - by rewrite <-app_assoc.
  - intros a [Ha|Ea%list_elem_of_singleton]%elem_of_app; [by eapply before_minimal|eauto].
  - rewrite ids_cons in Hrep. by replace (({[i]} ∪ ids fs) ∖ {[i]}) with (ids fs) in Hrep by set_solver.
  - by eapply gaps_ext.
Qed.

Lemma body_return s fs Pre j Suf :
  inv s fs Pre (rt j :: Suf) → 0 ≤ j < n →
  match fs with
  | [] => search_body model partial hd s = Ret None
  | (i, σ) :: fs =>
      ∃ s' A S', search_body model partial hd s = Ret (Some s') ∧
        remaining (ids fs) = A ++ cl i :: S' ∧ inv s' fs (A ++ [cl i]) S' ∧
        s_state s' = σ ∧ s_cache s' = s_cache s
  end.
Proof.
  intros I Hj. destruct (return_node (s_heap s) j Hj (inv_shapes _ _ _ _ I)) as (r & Hr & _ & Hm & _).
  assert (search_body model partial hd s = backtrack partial s) as ->.
  { unfold search_body. rewrite (inv_entry _ _ _ _ I). cbn [first]. by rewrite load_Some, Hr, bind_Ret, Hm. }
  unfold backtrack. pose proof (inv_stack _ _ _ _ I) as Hst. destruct fs as [|[i σ] fs].
  { by rewrite Hst. }
  assert (∃ seqs q longest,
    (if partial
     then ofold (update_longest (s_heap s) (s_calls s)) (s_seqs s, None, s_longest s) (s_calls s)
     else Ret (s_seqs s, None, s_longest s)) = Ret (seqs, q, longest) ∧ longest_ok seqs longest)
    as (seqs & q & longest & Hup & Hlo).
  { pose proof (inv_longest _ _ _ _ I). destruct partial; [|eauto 10]. rewrite Hst.
    eapply update_all_ok; [apply I|apply I|done]. }
  assert (last (s_calls s) = Some (mkCalls (Some (cl i)) σ)) as ->
    by (by rewrite Hst, fmap_cons, reverse_cons, last_snoc).
  rewrite Hup, bind_Ret. cbn [c_entry c_state].
  destruct (inv_path _ _ _ _ I) as ((Hi & _) & _).
  destruct (call_node (s_heap s) i Hi (inv_shapes _ _ _ _ I)) as (e & He & _ & _ & Hid).
  destruct (inv_pop _ _ _ _ _ _ _ _ I Hlo) as (h' & e' & b & A & S' & Hu & Hl & Hb & E & I').
  rewrite load_Some, He, bind_Ret, Hid, Hb, bind_Ret, Hu, bind_Ret, Hl, bind_Ret.
  eexists _, A, S'. split; [done|]. split; [done|].
  by rewrite Hst, fmap_cons, reverse_cons, length_app, Nat.add_sub, take_app_length.
Qed.
(** ** The search of a subtree *)

(** [k] iterations lead from one state to another. *)
Inductive iterates : nat → search V St → search V St → Prop :=
| iterates_0 s : iterates 0 s s
| iterates_S k s s1 s2 nd :
    load (s_heap s) hd = Ret nd → is_Some (n_next nd) →
    search_body model partial hd s = Ret (Some s1) → iterates k s1 s2 → iterates (S k) s s2.

Lemma iterates_trans k1 k2 s1 s2 s3 :
  iterates k1 s1 s2 → iterates k2 s2 s3 → iterates (k1 + k2) s1 s3.
Proof. induction 1 as [|k s s1 s2 nd]; intros; simpl; [done|]. econstructor; eauto. Qed.

Lemma iterates_loop k s s' (fuel k0 : nat) :
  iterates k s s' →
  search_loop model (k + fuel) partial (λ _, false) k0 hd n s =
  search_loop model fuel partial (λ _, false) (k0 + k) hd n s'.
Proof.
  intros Hi. revert k0. induction Hi as [|k s s1 s2 nd Hl [x Hn] Hb Hi IH]; intros k0.
  - by rewrite Nat.add_0_r.
  - rewrite Nat.add_succ_l. cbn [search_loop]. rewrite Hl, Hn, Hb, IH. f_equal. lia.
Qed.

Lemma inv_loops s fs Pre Suf :
  inv s fs Pre Suf → ∃ nd, load (s_heap s) hd = Ret nd ∧ n_next nd = first (remaining (ids fs)) None.
Proof.
  intros I. destruct (linked_at _ [] _ _ (inv_linked _ _ _ _ I)) as (nd & Hnd & _ & Hn).
  exists nd. by rewrite load_Some, Hnd.
Qed.

Lemma inv_step s s' fs Pre Suf :
  inv s fs Pre Suf → remaining (ids fs) ≠ [] → search_body model partial hd s = Ret (Some s') → iterates 1 s s'.
Proof.
  intros I Hne Hb. destruct (inv_loops _ _ _ _ I) as (nd & Hl & Hn). econstructor; [done| |done|constructor].
  rewrite Hn. destruct (remaining (ids fs)); [done|by eexists].
Qed.

Lemma remaining_small X : (length (remaining X) ≤ N)%nat.
Proof.
  etrans; [apply length_filter|]. by rewrite length_rev, length_seq.
Qed.

Lemma remaining_full X : (∀ i, i ∈ X → 0 ≤ i < n) → (Z.to_nat n ≤ size X)%nat → remaining X = [].
Proof.
  intros Hr Hs. apply (remaining_nil lay). intros i Hi.
  assert (X ⊆ list_to_set (zrange n)) as Hsub by (intros j ?; apply elem_of_list_to_set, elem_of_zrange; auto).
  assert (X = list_to_set (zrange n)) as ->.
  { apply set_subseteq_size_eq; [done|]. rewrite size_list_to_set by apply NoDup_zrange. by rewrite length_zrange. }
  by apply elem_of_list_to_set, elem_of_zrange.
Qed.

Hypothesis equal_sim : ∀ σ τ (v w : option V) σ',
  eqf σ τ = true → call_step model σ v w = Ret (true, σ') →
  ∃ τ', call_step model τ v w = Ret (true, τ') ∧ eqf σ' τ' = true.

Definition dead X σ : Prop := ¬ completes (call_step model) n inp out prec X σ.

Lemma completes_equal X σ τ : eqf σ τ = true → dead X τ → dead X σ.
Proof.
  intros He Hd (π & σ' & Hr & Hall). apply Hd. clear Hd.
  assert (∃ τ', runs X τ π τ') as [τ' Hr']; [|by exists π, τ'].
  clear Hall. revert X σ τ He Hr. induction π as [|i π IH]; intros X σ τ He; cbn [PorcSpec.runs]; [by eexists|].
  intros [Hi (σ1 & Hst & Hr)]. destruct (equal_sim _ _ _ _ _ He Hst) as (τ1 & Hst' & He').
  destruct (IH _ _ _ He' Hr) as [τ' Hr']. exists τ'. split; [done|]. by exists τ1.
Qed.

Definition dead_entry (elem : cacheEntry St) : Prop :=
  ∃ Y, represents n (k_linearized elem) Y ∧ dead Y (k_state elem).

(** The entries of sets larger than [X] cannot be completed. *)
Definition cache_ok cache X : Prop :=
  ∀ elem, in_cache cache elem →
    ∃ Y, represents n (k_linearized elem) Y ∧ ((size X < size Y)%nat → dead Y (k_state elem)).

(** The calls passed over cannot be the next. *)
Definition tried σ X Pre : Prop :=
  ∀ i σ', cl i ∈ Pre → 0 ≤ i < n → call_step model σ (inp i) (out i) = Ret (true, σ') → dead ({[i]} ∪ X) σ'.

Definition finished s' : Prop := ∃ fs, inv s' fs [] [].

Definition exhausted s fs s' : Prop :=
  (∃ Pre j Suf, inv s' fs Pre (rt j :: Suf) ∧ 0 ≤ j < n) ∧ s_state s' = s_state s ∧
  (∀ elem, in_cache (s_cache s') elem → in_cache (s_cache s) elem ∨ dead_entry elem) ∧
  dead (ids fs) (s_state s).

(** At a return, with the calls before it tried, no operation can be next. *)
Lemma dead_at_return X σ Pre j Suf :
  tried σ X Pre → remaining X = Pre ++ rt j :: Suf → 0 ≤ j < n → dead X σ.
Proof.
  intros Ht E Hj (π & σ' & Hr & Hall). destruct (lay_rt _ _ _ _ _ lay j Hj) as [HjN Hjo].
  assert (rt j ∈ remaining X) as Hjr by (rewrite E; set_solver).
  apply elem_of_remaining in Hjr as [_ HjX]. rewrite Hjo in HjX.
  destruct π as [|i π]; cbn [PorcSpec.runs] in Hr.
  { destruct (Hall j Hj) as [?|?%elem_of_nil]; done. }
  destruct Hr as [(Hi & HiX & Hmin) (σ1 & Hst & Hr)]. destruct (lay_cl _ _ _ _ _ lay i Hi) as [HiN Hio].
  assert (cl i ∈ remaining X) as Hin by (apply elem_of_remaining; by rewrite Hio).
  rewrite E in Hin. apply elem_of_app in Hin as [Hin|[Heq|Hin]%elem_of_cons].
  - apply (Ht i σ1 Hin Hi Hst). exists π, σ'. split; [done|].
    intros k Hk. destruct (Hall k Hk) as [?|[->|?]%elem_of_cons]; set_solver.
  - rewrite Heq, Hjo in Hio. subst j. pose proof (lay_order _ _ _ _ _ lay i Hi). lia.
  - apply (Hmin j Hj HjX). unfold prec_of.
    apply (remaining_before (N := N) (opid := opid) X (Pre ++ [rt j]) Suf (rt j) (cl i)); [by rewrite <-app_assoc|set_solver|done].
Qed.

Fixpoint tries (m : nat) : nat := match m with O => 0 | S m => N * (tries m + 2) end%nat.

Lemma tried_snoc σ X Pre i :
  tried σ X Pre → (∀ σ', call_step model σ (inp i) (out i) = Ret (true, σ') → dead ({[i]} ∪ X) σ') →
  0 ≤ i < n → tried σ X (Pre ++ [cl i]).
Proof.
  intros Ht Hi Hin k σ' [Hk|Hk%list_elem_of_singleton]%elem_of_app Hkn Hst; [by apply (Ht k)|].
  destruct (lay_cl _ _ _ _ _ lay i Hin) as [_ Ho], (lay_cl _ _ _ _ _ lay k Hkn) as [_ Ho'].
  rewrite Hk, Ho in Ho'. subst k. by apply Hi.
Qed.

(** An operation seen in the cache leads nowhere. *)
Lemma seen_dead cache X i σ' elem :
  cache_ok cache X → i ∉ X → in_cache cache elem → represents n (k_linearized elem) ({[i]} ∪ X) →
  eqf σ' (k_state elem) = true → dead ({[i]} ∪ X) σ'.
Proof.
  intros Hc Hi Hin Hrep He. destruct (Hc _ Hin) as (Y & HY & Hd).
  rewrite (represents_fun _ _ _ _ HY Hrep) in Hd. eapply completes_equal; [done|]. apply Hd.
  rewrite size_union, size_singleton by set_solver. lia.
Qed.
(** The list does not end before a return. *)
Lemma inv_suffix s fs Pre : inv s fs Pre [] → remaining (ids fs) = [].
Proof.
  intros I. destruct (remaining (ids fs)) as [|a R] eqn:ER; [done|]. exfalso.
  pose proof (inv_split _ _ _ _ I) as E. rewrite app_nil_r in E.
  assert (a ∈ remaining (ids fs)) as [HaN Ha]%elem_of_remaining by (rewrite ER; left).
  destruct (lay_cover _ _ _ _ _ lay a HaN) as [Hi _]. destruct (lay_rt _ _ _ _ _ lay _ Hi) as [HrN Hro].
  assert (rt (opid a) ∈ remaining (ids fs)) as Hr by (apply elem_of_remaining; by rewrite Hro).
  rewrite E in Hr. destruct (inv_before _ _ _ _ I _ Hr) as (j & Hj & Ej).
  destruct (lay_cl _ _ _ _ _ lay j Hj) as [_ Ho]. rewrite <-Ej, Hro in Ho. rewrite Ho in Ej.
  pose proof (lay_order _ _ _ _ _ lay j Hj). lia.
Qed.

Lemma explore (m : nat) s fs Pre Suf :
  inv s fs Pre Suf → tried (s_state s) (ids fs) Pre → cache_ok (s_cache s) (ids fs) →
  remaining (ids fs) ≠ [] → (Z.to_nat n - size (ids fs) ≤ m)%nat →
  ∃ k s', iterates k s s' ∧ (k ≤ length Suf * (tries (pred m) + 2))%nat ∧
    (finished s' ∨ exhausted s fs s').
Proof.
  revert s fs Pre Suf. induction m as [|m IHm]; intros s fs Pre Suf I.
  { intros _ _ Hne Hm. exfalso. apply Hne, remaining_full; [|lia]. eapply path_range, I. }
  revert s Pre I. induction Suf as [|a Suf IH]; intros s Pre I Ht Hc Hne Hm.
  { by apply inv_suffix in I. }
  pose proof (inv_split _ _ _ _ I) as E.
  assert (a ∈ remaining (ids fs)) as [HaN Ha]%elem_of_remaining by (rewrite E; set_solver).
  destruct (lay_cover _ _ _ _ _ lay a HaN) as [Hi [Ea|Ea]]; remember (opid a) as i eqn:Hia; subst a.
  2: { exists 0%nat, s. split_and!; [constructor|lia|]. right. split_and!; [by eauto|done|by left|].
       by eapply dead_at_return. }
  destruct (body_call _ _ _ _ _ I Hi) as (s1 & Hb & [(I1 & Hs1 & Hc1 & Hseen)|(Hst & I1 & b & Hrep & Hc1)]).
  - (* the operation is passed over *)
    destruct (IH s1 (Pre ++ [cl i]) I1) as (k & s' & Hit & Hk & Hend); [..|done|done|].
    { rewrite Hs1. apply tried_snoc; [done| |done]. intros σ' (elem & ? & ? & ?)%Hseen. by eapply seen_dead. }
    { by rewrite Hc1. }
    exists (1 + k)%nat, s'. split_and!; [|simpl in *; lia|].
    { eapply iterates_trans; [by eapply inv_step|done]. }
    unfold exhausted in *. rewrite Hs1, Hc1 in Hend. done.
  - (* the operation is taken *)
    pose proof (inv_step _ _ _ _ _ I Hne Hb) as Hstep.
    destruct (decide (remaining ({[i]} ∪ ids fs) = [])) as [Hnil|Hnn].
    { exists 1%nat, s1. split_and!; [done|simpl; lia|]. left. eexists. by rewrite Hnil in I1. }
    assert (size ({[i]} ∪ ids fs) = S (size (ids fs))) as Hsize.
    { by rewrite size_union, size_singleton by set_solver. }
    destruct (IHm s1 _ _ _ I1) as (k1 & s2 & Hit1 & Hk1 & Hend1); rewrite ?ids_cons.
    { by intros ? ? ?%elem_of_nil. }
    { intros elem [Hel| ->]%Hc1.
      - destruct (Hc _ Hel) as (Y & ? & Hd). exists Y. split; [done|]. intros. apply Hd. lia.
      - exists ({[i]} ∪ ids fs). split; [done|]. simpl. lia. }
    { done. } { lia. }
    assert (k1 ≤ tries m)%nat as Hk1'.
    { destruct m; [exfalso; apply Hnn, remaining_full; [|lia]; eapply (path_range ((i, s_state s) :: fs)), I1|].
      pose proof (remaining_small ({[i]} ∪ ids fs)). simpl in *. nia. }
    destruct Hend1 as [?|((Pre2 & j & Suf2 & I2 & Hj) & Hs2 & Hc2 & Hdead)].
    { exists (1 + k1)%nat, s2. split_and!; [by eapply iterates_trans|simpl; lia|by left]. }
    destruct (body_return _ _ _ _ _ I2 Hj) as (s3 & A & S' & Hb3 & E3 & I3 & Hs3 & Hc3).
    destruct (NoDup_split_inj (cl i) A S' Pre Suf) as [-> ->]; [rewrite <-E3; apply remaining_NoDup|congruence|].
    pose proof (inv_step _ _ _ _ _ I2 Hnn Hb3) as Hstep3.
    assert (∀ elem, in_cache (s_cache s3) elem → in_cache (s_cache s) elem ∨ dead_entry elem) as Hc'.
    { intros elem [[?| ->]%Hc1|?]%(eq_ind_r (λ c, in_cache c elem → _) (Hc2 elem) Hc3); [by left| |by right].
      right. exists ({[i]} ∪ ids fs). by split. }
    destruct (IH s3 (Pre ++ [cl i]) I3) as (k & s' & Hit & Hk & Hend); [..|done|done|].
    { rewrite Hs3. apply tried_snoc; [done| |done]. intros σ' [= <-]%(eq_trans (eq_sym Hst)). done. }
    { intros elem [?|(Y & ? & ?)]%Hc'; [by apply Hc|]. by exists Y. }
    exists (1 + (k1 + (1 + k)))%nat, s'. split_and!; [|simpl in *; lia|].
    { eapply iterates_trans; [done|]. eapply iterates_trans; [done|]. by eapply iterates_trans. }
    destruct Hend as [?|(? & Hs' & Hce & ?)]; [by left|]. right. rewrite Hs3 in *.
    split_and!; [done|congruence| |done]. intros elem [?%Hc'|?]%Hce; [done|by right].
Qed.
(** ** The loop *)

Lemma finished_completes s fs Pre Suf :
  inv s fs Pre Suf → remaining (ids fs) = [] → completes (call_step model) n inp out prec ∅ (Init model).
Proof.
  intros I E. exists (reverse fs.*1), (s_state s). split; [apply path_runs, I|].
  intros i Hi. right. apply elem_of_reverse. apply (elem_of_list_to_set (C := gset Z)).
  by apply (proj1 (remaining_nil lay _) E).
Qed.

Lemma complete_ok s fs Pre Suf :
  inv s fs Pre Suf → remaining (ids fs) = [] →
  ∃ longest seqs, complete n s = Ret (true, longest, seqs) ∧ longest_ok seqs longest.
Proof.
  intros I E. unfold complete. rewrite (inv_stack _ _ _ _ I), call_ids_spec, bind_Ret; [|..|apply I].
  2: { intros i Hi. eapply path_range; [apply I|]. by apply elem_of_list_to_set. }
  destruct (ofold_total (longest_ok (s_seqs s ++ [reverse fs.*1]))
    (λ longest i, slice_set longest i (Some (length (s_seqs s)))) (zrange n) (s_longest s))
    as (lo & -> & Hlo).
  - intros lo i Hi%elem_of_zrange Hlo. eapply longest_ok_set; [done|by apply list_lookup_middle|apply path_runs, I| |done].
    apply elem_of_reverse. apply (elem_of_list_to_set (C := gset Z)). by apply (proj1 (remaining_nil lay _) E).
  - apply longest_ok_app, I.
  - by eexists _, _.
Qed.

(** Whatever is read of [kill], the loop does not panic, [true] is right and the partial
    linearizations are legal. *)
Lemma loop_safe (fuel k : nat) (kill : nat → bool) s fs Pre Suf r :
  inv s fs Pre Suf → search_loop model fuel partial kill k hd n s = Some r →
  ∃ b longest seqs, r = Ret (b, longest, seqs) ∧ longest_ok seqs longest ∧
    (b = true → completes (call_step model) n inp out prec ∅ (Init model)).
Proof.
  revert k s fs Pre Suf. induction fuel as [|fuel IH]; intros k s fs Pre Suf I; cbn [search_loop]; [done|].
  destruct (inv_loops _ _ _ _ I) as (nd & -> & ->).
  destruct (remaining (ids fs)) as [|a R] eqn:ER; cbn [first].
  { intros [= <-]. destruct (complete_ok _ _ _ _ I ER) as (lo & sq & -> & Hlo). exists true, lo, sq.
    split_and!; [done..|]. intros _. by eapply finished_completes. }
  pose proof (inv_longest _ _ _ _ I) as Hlo.
  destruct (kill k); [intros [= <-]; by exists false, (s_longest s), (s_seqs s)|].
  destruct Suf as [|c Suf]; [apply inv_suffix in I; congruence|].
  pose proof (inv_split _ _ _ _ I) as E.
  assert (c ∈ remaining (ids fs)) as [HcN Hc]%elem_of_remaining by (rewrite E; set_solver).
  destruct (lay_cover _ _ _ _ _ lay c HcN) as [Hi [Ec|Ec]]; rewrite Ec in I.
  - destruct (body_call _ _ _ _ _ I Hi) as (s1 & -> & [(I1 & _)|(_ & I1 & _)]); by apply (IH _ _ _ _ _ I1).
  - pose proof (body_return _ _ _ _ _ I Hi) as Hb. destruct fs as [|[i σ] fs].
    + rewrite Hb. intros [= <-]. by exists false, (s_longest s), (s_seqs s).
    + destruct Hb as (s1 & A & S' & -> & _ & I1 & _). by apply (IH _ _ _ _ _ I1).
Qed.

(** With fuel for its iterations the loop ends, with the right verdict. *)
Lemma loop_decides (fuel : nat) s :
  inv s [] [] (remaining ∅) → s_cache s = ∅ → (tries (Z.to_nat n) < fuel)%nat →
  ∃ b longest seqs,
    search_loop model fuel partial (λ _, false) 0 hd n s = Some (Ret (b, longest, seqs)) ∧
    longest_ok seqs longest ∧
    (b = true ↔ completes (call_step model) n inp out prec ∅ (Init model)).
Proof.
  intros I Hc Hf. destruct (decide (remaining ∅ = [])) as [Hnil|Hne].
  { destruct fuel as [|fuel]; [lia|]. cbn [search_loop].
    destruct (inv_loops _ _ _ _ I) as (nd & -> & ->). change (ids []) with (∅ : gset Z). rewrite Hnil. cbn [first].
    destruct (complete_ok _ _ _ _ I Hnil) as (lo & sq & -> & ?). exists true, lo, sq. split_and!; [done..|].
    split; [|done]. intros _. by eapply finished_completes. }
  destruct (explore (Z.to_nat n) s [] [] (remaining ∅) I) as (k & s' & Hit & Hk & Hend).
  { by intros ? ? ?%elem_of_nil. }
  { intros elem [hash Hel]. unfold mget in Hel. rewrite Hc, lookup_empty in Hel. by apply elem_of_nil in Hel. }
  { done. } { change (ids []) with (∅ : gset Z). rewrite size_empty. lia. }
  assert (k ≤ tries (Z.to_nat n))%nat as Hk'.
  { destruct (Z.to_nat n) as [|m] eqn:Em; [|pose proof (remaining_small ∅); simpl in *; nia].
    exfalso. apply Hne, (remaining_nil lay). lia. }
  replace fuel with (k + S (fuel - k - 1))%nat by lia. rewrite (iterates_loop _ _ _ _ _ Hit).
  destruct Hend as [[fs I']|((Pre & j & Suf & I' & Hj) & Hs & _ & Hdead)].
  - cbn [search_loop]. pose proof (inv_split _ _ _ _ I') as E. simpl in E.
    destruct (inv_loops _ _ _ _ I') as (nd & -> & ->). rewrite E. cbn [first].
    destruct (complete_ok _ _ _ _ I' E) as (lo & sq & -> & ?). exists true, lo, sq. split_and!; [done..|].
    split; [|done]. intros _. by eapply finished_completes.
  - cbn [search_loop]. destruct (inv_loops _ _ _ _ I') as (nd & -> & ->).
    rewrite (body_return _ _ _ _ _ I' Hj). change (ids []) with (∅ : gset Z).
    destruct (remaining ∅); [done|]. cbn [first]. eexists false, _, _. split_and!; [done|apply I'|].
    split; [done|]. intros Hcm. exfalso. rewrite (inv_path _ _ _ _ I) in Hdead. by apply Hdead.
Qed.
End search.
