(* ===== verification/PorcCheck.v ===== *)
(** * porcupine: checkSingle decides linearizability

    [checkSingle] of [src/src/porcupine/checker.go] on a well-formed list of entries: it
    builds its list, searches within [search_fuel] iterations, and answers whether the
    entries are linearizable, with legal partial linearizations in [longest]. *)
From S2P Require Import Prelude Bitset Porcupine PorcList PorcSpec PorcSearch.

Section entries.
Context {V : Type}.
Implicit Types (H : list (entry V)) (i j : Z) (k : entryKind).

(** The call or return of an operation, with its position. *)
Definition find_entry H k i : option (nat * entry V) :=
  list_find (λ e, e_kind e = k ∧ e_id e = i) H.

Definition input_of H i : option V := e_value ∘ snd <$> find_entry H callEntry i.
Definition output_of H i : option V := e_value ∘ snd <$> find_entry H returnEntry i.

Definition returned_before H i j : Prop :=
  match find_entry H returnEntry i, find_entry H callEntry j with
  | Some (p, _), Some (q, _) => (p < q)%nat
  | _, _ => False
  end.

(** The entries of the operations [0 .. n-1]: a call and a later return of each. *)
Record well_formed (n : Z) H : Prop := {
  wf_len : len H = 2 * n;
  wf_unique : NoDup ((λ e, (e_kind e, e_id e)) <$> H);
  wf_ids el : el ∈ H → 0 ≤ e_id el < n;
  wf_both i : 0 ≤ i < n → ∃ (p q : nat) c r, (p < q)%nat ∧
    H !! p = Some c ∧ e_kind c = callEntry ∧ e_id c = i ∧
    H !! q = Some r ∧ e_kind r = returnEntry ∧ e_id r = i;
}.

Definition call_addr H i : nat := (length H - S (from_option fst 0 (find_entry H callEntry i)))%nat.
Definition return_addr H i : nat := (length H - S (from_option fst 0 (find_entry H returnEntry i)))%nat.
Definition addr_id H (a : nat) : Z := from_option e_id 0 (rev H !! a).

Lemma find_entry_at H (p : nat) el k i :
  NoDup ((λ e, (e_kind e, e_id e)) <$> H) → H !! p = Some el → e_kind el = k → e_id el = i →
  find_entry H k i = Some (p, el).
Proof.
  intros Hnd Hp Hk Hi. apply list_find_Some. split_and!; [done..|].
  intros q y Hq Hlt [Hky Hiy]. assert (q = p); [|lia].
  eapply (NoDup_lookup _ _ _ (k, i) Hnd); rewrite list_lookup_fmap, ?Hp, ?Hq; simpl; congruence.
Qed.

Lemma rev_lookup {A} (l : list A) (a : nat) : (a < length l)%nat → rev l !! a = l !! (length l - S a)%nat.
Proof. intros. rewrite rev_alt. by apply reverse_lookup. Qed.

Section wf.
Context {n : Z} {H : list (entry V)} (wf : well_formed n H).

(** The call and the return of an operation, with their addresses. *)
Lemma wf_entries i : 0 ≤ i < n → ∃ (p q : nat) c r, (p < q < length H)%nat ∧
  find_entry H callEntry i = Some (p, c) ∧ find_entry H returnEntry i = Some (q, r) ∧
  rev H !! call_addr H i = Some c ∧ e_kind c = callEntry ∧ e_id c = i ∧
  rev H !! return_addr H i = Some r ∧ e_kind r = returnEntry ∧ e_id r = i ∧
  call_addr H i = (length H - S p)%nat ∧ return_addr H i = (length H - S q)%nat.
Proof.
  intros Hi. destruct (wf_both _ _ wf i Hi) as (p & q & c & r & Hpq & Hc & Hck & Hci & Hr & Hrk & Hri).
  pose proof (find_entry_at H p c _ _ (wf_unique _ _ wf) Hc Hck Hci) as Fc.
  pose proof (find_entry_at H q r _ _ (wf_unique _ _ wf) Hr Hrk Hri) as Fr.
  assert (q < length H)%nat by (by eapply lookup_lt_Some). exists p, q, c, r.
  assert (call_addr H i = (length H - S p)%nat) as Ec by (unfold call_addr; by rewrite Fc).
  assert (return_addr H i = (length H - S q)%nat) as Er by (unfold return_addr; by rewrite Fr).
  rewrite Ec, Er, !rev_lookup by lia.
  replace (length H - S (length H - S p))%nat with p by lia.
  replace (length H - S (length H - S q))%nat with q by lia. by split_and!.
Qed.

Lemma wf_layout : layout n (length H) (call_addr H) (return_addr H) (addr_id H).
Proof.
  split.
  - intros i (p & q & c & r & ? & _ & _ & Hc & _ & Hid & _ & _ & _ & E & _)%wf_entries.
    unfold addr_id. rewrite Hc. split; [lia|done].
  - intros i (p & q & c & r & ? & _ & _ & _ & _ & _ & Hr & _ & Hid & _ & E)%wf_entries.
    unfold addr_id. rewrite Hr. split; [lia|done].
  - intros i (p & q & c & r & ? & _ & _ & _ & _ & _ & _ & _ & _ & E & E')%wf_entries. lia.
  - intros a Ha. unfold addr_id. rewrite rev_lookup by done.
    destruct (lookup_lt_is_Some_2 H (length H - S a)) as [el Hel]; [lia|]. rewrite Hel. simpl.
    split; [by eapply wf_ids, list_elem_of_lookup_2|].
    pose proof (find_entry_at H _ _ _ _ (wf_unique _ _ wf) Hel eq_refl eq_refl) as F.
    unfold call_addr, return_addr. destruct (e_kind el); [left|right]; rewrite F; simpl; lia.
Qed.

Lemma prec_returned i j : 0 ≤ i < n → 0 ≤ j < n →
  prec_of (cl := call_addr H) (rt := return_addr H) i j ↔ returned_before H i j.
Proof.
  intros (p & q & c & r & ? & _ & Fr & _ & _ & _ & _ & _ & _ & _ & Er)%wf_entries.
  intros (p' & q' & c' & r' & ? & Fc & _ & _ & _ & _ & _ & _ & _ & Ec & _)%wf_entries.
  unfold prec_of, returned_before. rewrite Fc, Fr, Ec, Er. lia.
Qed.

(** The nodes of the built list. *)
Lemma built_shapes h mt root i :
  built (rev H) (h, mt, root) → 0 ≤ i < n →
  shape <$> h !! call_addr H i = Some (input_of H i, Some (return_addr H i), i) ∧
  shape <$> h !! return_addr H i = Some (output_of H i, None, i).
Proof.
  intros Hb Hi. pose proof (wf_entries i Hi) as
    (p & q & c & r & Hpq & Fc & Fr & Hc & Hck & Hci & Hr & Hrk & Hri & Ec & Er).
  unfold input_of, output_of. rewrite Fc, Fr.
  destruct (built_nodes _ _ Hb _ _ Hc) as (nc & Hnc & Hcv & Hcid & Hcm).
  destruct (built_nodes _ _ Hb _ _ Hr) as (nr & Hnr & Hrv & Hrid & Hrm).
  simpl in Hnc, Hnr. rewrite Hnc, Hnr. clear Hnc Hnr. rewrite Hck in Hcm. rewrite Hrk in Hrm.
  unfold shape. simpl. rewrite Hcv, Hcid, Hci, Hrv, Hrid, Hri, Hrm. split; [|done].
  destruct Hcm as [H1 H2]. destruct (H2 (return_addr H i) r) as [x Hx]; [lia|done|done|congruence|].
  destruct (H1 x Hx) as (Hlt & el & Hel & Helk & Heli). rewrite Hx.
  assert (x < length H)%nat as Hxl by (apply lookup_lt_Some in Hel; by rewrite length_rev in Hel).
  rewrite rev_lookup in Hel by done.
  pose proof (find_entry_at H _ _ _ _ (wf_unique _ _ wf) Hel Helk (eq_trans Heli Hci)) as F.
  rewrite Fr in F. injection F as Eq _. by replace x with (return_addr H i) by lia.
Qed.
End wf.
End entries.

(** ** What the checker asks of a model

    States that [Equal] identifies allow the same operations, and [Step] accepts the
    inputs and outputs the history holds. *)
Class Lawful {V St} (model : Model V St) (good_input good_output : V → Prop) := {
  model_equal : St → St → bool;
  model_equal_is : Equal model = Some model_equal;
  model_equal_sim σ τ i o σ' :
    model_equal σ τ = true → Step model σ i o = Ret (true, σ') →
    ∃ τ', Step model τ i o = Ret (true, τ') ∧ model_equal σ' τ' = true;
  model_step_total σ i o :
    good_input i → good_output o → ∃ b σ', Step model σ i o = Ret (b, σ');
}.

Definition entries_linearizable {V St} (model : Model V St) (H : list (entry V)) : Prop :=
  linearizable (call_step model) (len H / 2) (input_of H) (output_of H) (returned_before H) (Init model).

(** A partial linearization: operations in an order that can begin a linearization. *)
Definition partial_linearization {V St} (model : Model V St) (H : list (entry V)) (l : list Z) : Prop :=
  NoDup l ∧ ordered (returned_before H) l ∧
  (∀ i j, i ∈ l → 0 ≤ j < len H / 2 → j ∉ l → ¬ returned_before H j i) ∧
  ∃ σ, legal (call_step model) (input_of H) (output_of H) (Init model) l σ.

Definition good_entries {V} (good_input good_output : V → Prop) (H : list (entry V)) : Prop :=
  ∀ el, el ∈ H → match e_kind el with
                 | callEntry => good_input (e_value el) | returnEntry => good_output (e_value el) end.

(** Fuel for the list and for the search. *)
Definition search_fuel (N : nat) : nat := S (N + tries (N := N) (Nat.div2 N)).

Lemma tries_mono (N N' m m' : nat) :
  (N ≤ N')%nat → (m ≤ m')%nat → (tries (N := N) m ≤ tries (N := N') m')%nat.
Proof.
  intros HN. revert m'. induction m as [|m IH]; intros [|m'] Hm; simpl; [lia..|].
  apply Nat.mul_le_mono; [done|]. specialize (IH m'). lia.
Qed.

Lemma search_fuel_mono (N N' : nat) : (N ≤ N')%nat → (search_fuel N ≤ search_fuel N')%nat.
Proof.
  intros HN. unfold search_fuel. pose proof (tries_mono N N' (Nat.div2 N) (Nat.div2 N') HN) as Ht.
  rewrite !Nat.div2_div in *. assert (N / 2 ≤ N' / 2)%nat by (by apply Nat.Div0.div_le_mono). lia.
Qed.

Section single.
Context {V St : Type} {model : Model V St} {good_input good_output : V → Prop}.
Context {lawful : Lawful model good_input good_output}.
Context {n : Z} {H : list (entry V)} (wf : well_formed n H) (good : good_entries good_input good_output H).
Context (bounded : len H < 2 ^ 63) (partial : bool).

Abbreviation prec := (prec_of (cl := call_addr H) (rt := return_addr H)).
Abbreviation inv h := (inv model (n := n) (N := length H) (cl := call_addr H) (rt := return_addr H)
  (opid := addr_id H) (input_of H) (output_of H) h).

Lemma call_step_sim σ τ (v w : option V) σ' :
  model_equal σ τ = true → call_step model σ v w = Ret (true, σ') →
  ∃ τ', call_step model τ v w = Ret (true, τ') ∧ model_equal σ' τ' = true.
Proof. destruct v, w; [apply model_equal_sim|done..]. Qed.

Lemma entry_step_total σ i :
  0 ≤ i < n → ∃ b σ', call_step model σ (input_of H i) (output_of H i) = Ret (b, σ').
Proof.
  intros Hi. destruct (wf_entries wf i Hi) as (p & q & c & r & _ & Fc & Fr & Hc & Hck & _ & Hr & Hrk & _).
  unfold input_of, output_of. rewrite Fc, Fr. simpl. apply model_step_total.
  - assert (c ∈ H) as Hin%good by (apply list_elem_of_In, in_rev, list_elem_of_In; by eapply list_elem_of_lookup_2).
    by rewrite Hck in Hin.
  - assert (r ∈ H) as Hin%good by (apply list_elem_of_In, in_rev, list_elem_of_In; by eapply list_elem_of_lookup_2).
    by rewrite Hrk in Hin.
Qed.

Lemma half : len H / 2 = n ∧ 0 ≤ n ∧ n < 2 ^ 63 ∧ Nat.div2 (length H) = Z.to_nat n.
Proof.
  pose proof (wf_len _ _ wf) as Hl. pose proof (len_nonneg H).
  assert (len H / 2 = n) as E by (rewrite Hl, Z.mul_comm; by apply Z.div_mul). split_and!; [done|lia..|].
  unfold len in *. rewrite <-(Nat2Z.id (Nat.div2 (length H))), Nat2Z.inj_div2, Z.div2_div, E. done.
Qed.

(** What the search starts from. *)
Lemma checkSingle_start (fuel : nat) (kill : nat → bool) :
  (length H ≤ fuel)%nat →
  ∃ h0 s,
    checkSingle model fuel H partial kill =
      search_loop model fuel partial kill 0 (Some (length H)) n s ∧
    (∀ i, 0 ≤ i < n →
       shape <$> h0 !! call_addr H i = Some (input_of H i, Some (return_addr H i), i) ∧
       shape <$> h0 !! return_addr H i = Some (output_of H i, None, i)) ∧
    inv h0 s [] [] (remaining (N := length H) (opid := addr_id H) ∅) ∧ s_cache s = ∅.
Proof.
  intros Hf. destruct half as (Hn & Hn0 & Hn1 & _).
  destruct (makeLinkedEntries_spec H) as (h & mt & root & E & Hb).
  pose proof Hb as [Hlen Hl Hr _ _]; simpl in Hlen, Hl, Hr. rewrite length_rev in Hlen, Hl, Hr.
  set (L := rev (seq 0 (length H))) in *.
  destruct (insertBefore_spec h L (mkNode None None (-1) None None) _ _ Hl eq_refl eq_refl eq_refl)
    as (h' & Hi & Hl' & Hs). rewrite Hlen in Hi, Hl'.
  assert (remaining (N := length H) (opid := addr_id H) ∅ = L) as ER
    by (apply filter_all; intros; apply not_elem_of_empty).
  exists h', (mkSearch h' root (newBitset (uint n)) ∅ [] (Init model) [] (replicate (Z.to_nat n) None)).
  split_and!; [| |split; simpl|done].
  - unfold checkSingle. rewrite E, Hr. destruct Hl as [Hseg _].
    rewrite (node_length_spec fuel h None L 0 Hseg) by (unfold L; by rewrite length_rev, length_seq).
    assert ((0 + len L) / 2 = n) as -> by (unfold len, L in *; by rewrite length_rev, length_seq).
    unfold alloc. rewrite Hlen, Hi. done.
  - intros i Hin. destruct (built_shapes wf h mt root i Hb Hin) as [H1 H2].
    assert (∀ a x, shape <$> h !! a = Some x → shape <$> h' !! a = Some x) as Hsh; [|by auto].
    intros a x Ha. rewrite <-Hs, lookup_app_l; [done|].
    apply fmap_Some in Ha as (? & ? & _). by eapply lookup_lt_Some.
  - done.
  - change (ids []) with (∅ : gset Z). by rewrite ER.
  - done.
  - by intros a ?%elem_of_nil.
  - by rewrite ER, Hr.
  - unfold uint. rewrite Z.mod_small by lia. by apply newBitset_represents.
  - done.
  - done.
  - done.
  - split; [unfold len; rewrite length_replicate; lia|].
    intros i q [_ [? _]%lookup_replicate]%zlookup_Some. done.
Qed.

Lemma completes_entries :
  completes (call_step model) n (input_of H) (output_of H) prec ∅ (Init model) ↔ entries_linearizable model H.
Proof.
  rewrite completes_linearizable.
  - unfold entries_linearizable. destruct half as [-> _]. apply linearizable_ext. apply (prec_returned wf).
  - intros i Hi. pose proof (lay_order _ _ _ _ _ (wf_layout wf) i Hi). unfold prec_of. lia.
Qed.
Lemma runs_partial l σ :
  runs (call_step model) n (input_of H) (output_of H) prec ∅ (Init model) l σ → partial_linearization model H l.
Proof.
  intros Hr. destruct (runs_legal _ _ _ _ _ _ _ _ _ Hr) as (Hl & Hnd & Hin & Hord).
  destruct half as [Hn _]. split_and!; [done| | |by exists σ].
  - intros a b i j Hi Hj Hab Hp. apply (Hord a b i j Hi Hj Hab).
    apply (prec_returned wf); [apply Hin; by eapply list_elem_of_lookup_2..|done].
  - rewrite Hn. intros i j Hi Hj Hnj Hp%(prec_returned wf); [|done|by apply Hin].
    by apply (runs_minimal _ _ _ _ _ _ _ _ _ i j Hr).
Qed.

Lemma single_decides (fuel : nat) :
  (search_fuel (length H) ≤ fuel)%nat →
  ∃ b longest seqs, checkSingle model fuel H partial (λ _, false) = Some (Ret (b, longest, seqs)) ∧
    (b = true ↔ entries_linearizable model H).
Proof.
  destruct half as (Hn & Hn0 & Hn1 & Hh). unfold search_fuel. rewrite Hh. intros Hf.
  destruct (checkSingle_start fuel (λ _, false)) as (h0 & s & -> & Hsh & I & Hc); [lia|].
  destruct (loop_decides model model_equal (wf_layout wf) (input_of H) (output_of H) h0 partial
    Hn1 model_equal_is Hsh entry_step_total call_step_sim fuel s I Hc) as (b & lo & sq & -> & _ & Hb); [lia|].
  exists b, lo, sq. by rewrite <-completes_entries.
Qed.

Lemma single_safe (fuel : nat) (kill : nat → bool) r :
  (length H ≤ fuel)%nat → checkSingle model fuel H partial kill = Some r →
  ∃ b longest seqs, r = Ret (b, longest, seqs) ∧ (b = true → entries_linearizable model H) ∧
    len longest = n ∧ ∀ i q, zlookup longest i = Some (Some q) →
      ∃ l, seqs !! q = Some l ∧ i ∈ l ∧ partial_linearization model H l.
Proof.
  intros Hf. destruct half as (Hn & Hn0 & Hn1 & Hh).
  destruct (checkSingle_start fuel kill Hf) as (h0 & s & -> & Hsh & I & Hc). intros Hr.
  destruct (loop_safe model model_equal (wf_layout wf) (input_of H) (output_of H) h0 partial
    Hn1 model_equal_is Hsh entry_step_total call_step_sim fuel 0%nat kill s [] [] _ r I Hr) as (b & lo & sq & -> & [Hlen Hlo] & Hb).
  exists b, lo, sq. rewrite <-completes_entries. split_and!; [done..|].
  intros i q Hq. destruct (Hlo i q Hq) as (l & σ & ? & ? & ?). exists l. split_and!; [done..|]. by eapply runs_partial.
Qed.
End single.

(** A killed search ends no later. *)
Lemma search_loop_killed {V St} (model : Model V St) (fuel : nat) partial kill (k k' : nat) hd n s :
  search_loop model fuel partial kill k hd n s = None →
  search_loop model fuel partial (λ _, false) k' hd n s = None.
Proof.
  revert k k' s. induction fuel as [|fuel IH]; intros k k' s; cbn [search_loop]; [done|].
  destruct (load (s_heap s) hd); [|done]. destruct (n_next a); [|done]. destruct (kill k); [done|].
  destruct (search_body model partial hd s) as [[s'|]|]; [apply IH|done..].
Qed.

Lemma checkSingle_killed {V St} (model : Model V St) (fuel : nat) H partial kill r :
  checkSingle model fuel H partial (λ _, false) = Some r → is_Some (checkSingle model fuel H partial kill).
Proof.
  unfold checkSingle. destruct (makeLinkedEntries H) as [[h e]|]; [|by eexists].
  destruct (node_length fuel h e 0) as [[l|]|]; [|by eexists|done]. destruct (alloc _ _) as [hd h1].
  destruct (insertBefore h1 hd e); [|by eexists].
  intros Hr. apply not_eq_None_Some. intros Hn. apply (search_loop_killed _ _ _ _ _ 0) in Hn. congruence.
Qed.

(** C19. The search ends and its verdict is right: with enough fuel, [checkSingle] of a
    well-formed history returns [true] exactly when the history is linearizable. *)
Theorem checkSingle_decides {V St} (model : Model V St) good_input good_output
    `{!Lawful model good_input good_output} (n : Z) (H : list (entry V)) partial (fuel : nat) :
  well_formed n H → good_entries good_input good_output H → len H < 2 ^ 63 →
  (search_fuel (length H) ≤ fuel)%nat →
  ∃ b longest seqs, checkSingle model fuel H partial (λ _, false) = Some (Ret (b, longest, seqs)) ∧
    (b = true ↔ entries_linearizable model H).
Proof. intros. by eapply single_decides. Qed.
