(* ===== verification/PorcOps.v ===== *)
(** * porcupine: histories of operations and of events

    [makeEntries] of [src/src/porcupine/checker.go] turns operations whose calls do not
    follow their returns into well-formed entries, in which an operation returned before
    another was called exactly when its return time is smaller than the other's call
    time. *)
From S2P Require Import Prelude Bitset Porcupine PorcList PorcSpec PorcSearch PorcCheck.

(** ** Linearizability of a list of operations *)

Definition op_input {V} (h : list (Operation V)) (i : Z) : option V := Input <$> zlookup h i.
Definition op_output {V} (h : list (Operation V)) (i : Z) : option V := Output <$> zlookup h i.

Definition op_precedes {V} (h : list (Operation V)) (i j : Z) : Prop :=
  ∃ a b, zlookup h i = Some a ∧ zlookup h j = Some b ∧ Return a < Call b.

Definition history_linearizable {V St} (model : Model V St) (h : list (Operation V)) : Prop :=
  linearizable (call_step model) (len h) (op_input h) (op_output h) (op_precedes h) (Init model).

(** ** makeEntries *)

Section make.
Context {sorts : EntrySort} {V : Type}.
Implicit Types (h : list (Operation V)).

Definition call_of (p : Z * Operation V) : entry V :=
  mkEntry callEntry (Input p.2) p.1 (Call p.2) (op_ClientId p.2).
Definition return_of (p : Z * Operation V) : entry V :=
  mkEntry returnEntry (Output p.2) p.1 (Return p.2) (op_ClientId p.2).

Definition both_of (p : Z * Operation V) : list (entry V) := [call_of p; return_of p].

Lemma indexed_snoc {A} (l : list A) (x : A) : indexed (l ++ [x]) = indexed l ++ [(len l, x)].
Proof.
  unfold indexed. rewrite len_app. change (len [x]) with 1.
  assert (zrange (len l + 1) = zrange (len l) ++ [len l]) as ->.
  { unfold zrange, len. rewrite Z2Nat.inj_add, Nat2Z.id by lia. simpl.
    rewrite Nat.add_1_r, seq_S, fmap_app. done. }
  by rewrite zip_with_app by (rewrite length_zrange; unfold len; lia).
Qed.

Lemma operation_entries_fold h :
  foldl operation_entries ([], 0) h = (indexed h ≫= both_of, len h).
Proof.
  induction h as [|op h IH] using rev_ind; [done|].
  rewrite foldl_app, IH, indexed_snoc, bind_app, len_app. done.
Qed.

Lemma makeEntries_perm h : makeEntries h ≡ₚ indexed h ≫= both_of.
Proof. unfold makeEntries. rewrite operation_entries_fold. apply sort_entries_perm. Qed.

Lemma elem_of_makeEntries h el :
  el ∈ makeEntries h ↔ ∃ i op, zlookup h i = Some op ∧ (el = call_of (i, op) ∨ el = return_of (i, op)).
Proof.
  rewrite makeEntries_perm, list_elem_of_bind. setoid_rewrite elem_of_cons.
  setoid_rewrite list_elem_of_singleton. split.
  - intros ([i op] & Hel & Hin%elem_of_indexed). eauto.
  - intros (i & op & Hin%elem_of_indexed & Hel). eauto.
Qed.

Lemma makeEntries_unique h : NoDup ((λ e, (e_kind e, e_id e)) <$> makeEntries h).
Proof.
  rewrite makeEntries_perm. pose proof (NoDup_zrange (len h)) as Hnd. rewrite <-fst_indexed in Hnd.
  induction (indexed h) as [|[i op] l IH]; [apply NoDup_nil_2|]. cbn in *.
  apply NoDup_cons in Hnd as [Hi Hnd]. specialize (IH Hnd).
  assert (∀ k, (k, i) ∉ (λ e, (e_kind e, e_id e)) <$> (l ≫= both_of)) as Hk.
  { intros k (el & [= -> ->] & ([j op'] & Hel & Hin)%list_elem_of_bind)%list_elem_of_fmap. apply Hi.
    apply list_elem_of_fmap. exists (j, op'). split; [|done].
    apply elem_of_cons in Hel as [Hel|Hel%list_elem_of_singleton]; by subst el. }
  apply NoDup_cons. split; [|apply NoDup_cons; by split].
  intros [?|?]%elem_of_cons; [done|by eapply Hk].
Qed.

Lemma makeEntries_sorted h (p q : nat) a b :
  makeEntries h !! p = Some a → makeEntries h !! q = Some b → (p < q)%nat → Less b a = false.
Proof. unfold makeEntries. rewrite operation_entries_fold. apply sort_entries_sorted. Qed.

(** The positions of a call and a return are in the order of their times. *)
Lemma positions h i j a b (p q : nat) :
  zlookup h i = Some a → zlookup h j = Some b →
  makeEntries h !! p = Some (call_of (i, a)) → makeEntries h !! q = Some (return_of (j, b)) →
  (p < q)%nat ↔ Call a ≤ Return b.
Proof.
  intros Ha Hb Hp Hq.
  assert (p ≠ q) by (intros ->; rewrite Hp in Hq; discriminate Hq). split.
  - intros Hlt. pose proof (makeEntries_sorted _ _ _ _ _ Hp Hq Hlt) as Hl.
    unfold Less in Hl. simpl in Hl. destruct (Z.eqb_spec (Return b) (Call a)); simpl in *; lia.
  - intros Hle. destruct (decide (p < q)%nat) as [|Hn]; [done|].
    pose proof (makeEntries_sorted _ _ _ _ _ Hq Hp ltac:(lia)) as Hl.
    unfold Less in Hl. simpl in Hl. destruct (Z.eqb_spec (Call a) (Return b)); simpl in *; [done|lia].
Qed.

Lemma makeEntries_len h : len (makeEntries h) = 2 * len h.
Proof.
  unfold len. rewrite makeEntries_perm. rewrite <-(snd_indexed h) at 2. rewrite length_fmap.
  induction (indexed h) as [|p l IH]; cbn; [done|]. cbn in IH. lia.
Qed.

Definition timed h : Prop := ∀ op, op ∈ h → Call op ≤ Return op.

Lemma makeEntries_at h i op :
  zlookup h i = Some op →
  ∃ p q : nat, makeEntries h !! p = Some (call_of (i, op)) ∧ makeEntries h !! q = Some (return_of (i, op)) ∧
    find_entry (makeEntries h) callEntry i = Some (p, call_of (i, op)) ∧
    find_entry (makeEntries h) returnEntry i = Some (q, return_of (i, op)).
Proof.
  intros Hi. assert (call_of (i, op) ∈ makeEntries h) as [p Hp]%list_elem_of_lookup
    by (apply elem_of_makeEntries; eauto).
  assert (return_of (i, op) ∈ makeEntries h) as [q Hq]%list_elem_of_lookup by (apply elem_of_makeEntries; eauto).
  exists p, q. split_and!; [done..| |]; by eapply find_entry_at; [apply makeEntries_unique|..].
Qed.

Lemma makeEntries_well_formed h : timed h → well_formed (len h) (makeEntries h).
Proof.
  intros Ht. split.
  - apply makeEntries_len.
  - apply makeEntries_unique.
  - intros el (i & op & Hi%zlookup_bounds & [->| ->])%elem_of_makeEntries; simpl; lia.
  - intros i Hi. destruct (proj2 (zlookup_is_Some h i) Hi) as [op Hop].
    destruct (makeEntries_at h i op Hop) as (p & q & Hp & Hq & _).
    exists p, q, (call_of (i, op)), (return_of (i, op)). split_and!; try done.
    eapply positions; [done..|]. apply Ht. apply zlookup_Some in Hop as [_ Hop]. by eapply list_elem_of_lookup_2.
Qed.

Lemma linearizable_full_ext {St} (step : St → option V → option V → outcome (bool * St)) n inp out inp' out' prec prec' σ0 :
  (∀ i, 0 ≤ i < n → inp i = inp' i ∧ out i = out' i) →
  (∀ i j, 0 ≤ i < n → 0 ≤ j < n → prec i j ↔ prec' i j) →
  linearizable step n inp out prec σ0 ↔ linearizable step n inp' out' prec' σ0.
Proof.
  intros Hio Hp. rewrite (linearizable_ext _ _ _ _ _ _ _ Hp).
  assert (∀ π σ σ', (∀ i, i ∈ π → 0 ≤ i < n) → legal step inp out σ π σ' ↔ legal step inp' out' σ π σ') as Hl.
  { induction π as [|i π IH]; intros σ σ' Hin; cbn [legal]; [done|].
    destruct (Hio i) as [-> ->]; [apply Hin; by left|].
    apply exist_proper; intros σ1. rewrite IH; [done|]. intros. apply Hin. by right. }
  unfold linearizable. do 2 (apply exist_proper; intros ?). split; intros (Hperm & Ho & Hleg);
    (split_and!; [done..|]); eapply Hl; try done; intros j; by rewrite Hperm, elem_of_zrange.
Qed.

Lemma makeEntries_linearizable {St} (model : Model V St) h :
  entries_linearizable model (makeEntries h) ↔ history_linearizable model h.
Proof.
  unfold entries_linearizable, history_linearizable.
  assert (len (makeEntries h) / 2 = len h) as -> by (by rewrite makeEntries_len, Z.mul_comm, Z.div_mul).
  apply linearizable_full_ext.
  - intros i [op Hop]%zlookup_is_Some. destruct (makeEntries_at h i op Hop) as (p & q & _ & _ & Fp & Fq).
    unfold input_of, output_of, op_input, op_output. by rewrite Fp, Fq, Hop.
  - intros i j [a Ha]%zlookup_is_Some [b Hb]%zlookup_is_Some.
    destruct (makeEntries_at h i a Ha) as (pi & qi & _ & Hqi & _ & Fqi).
    destruct (makeEntries_at h j b Hb) as (pj & qj & Hpj & _ & Fpj & _).
    unfold returned_before, op_precedes. rewrite Fqi, Fpj, Ha, Hb.
    assert (pj ≠ qi) by (intros ->; rewrite Hpj in Hqi; discriminate Hqi).
    pose proof (positions _ _ _ _ _ _ _ Hb Ha Hpj Hqi). split; [|naive_solver lia].
    intros. exists a, b. split_and!; [done..|]. lia.
Qed.
End make.
