(* ===== verification/PorcParallel.v ===== *)
(** * porcupine: checkParallel

    [checkParallel] of [src/src/porcupine/checker.go]: a goroutine per partition, and a
    main loop that takes their results in the order they arrive, until one is false, all
    are in or the timer fires. *)
From S2P Require Import Prelude Bitset Porcupine PorcList PorcSpec PorcSearch PorcCheck.

(** ** The main loop *)

(** [ok] is the conjunction of the results taken, of distinct goroutines. *)
Definition taken_ok (answers : list bool) (ok : bool) (taken : list nat) : Prop :=
  NoDup taken ∧ (∀ i, i ∈ taken → i < length answers)%nat ∧
  (ok = true ↔ ∀ i, i ∈ taken → answers !! i = Some true).

Lemma taken_ok_snoc answers ok taken i result :
  taken_ok answers ok taken → i ∉ taken → answers !! i = Some result →
  taken_ok answers (ok && result) (taken ++ [i]).
Proof.
  intros (Hnd & Hlt & Hok) Hi Ha. split_and!.
  - apply NoDup_app. split_and!; [done|set_solver|apply NoDup_singleton].
  - intros j [?|Ej%list_elem_of_singleton]%elem_of_app; [auto|]. subst j. by eapply lookup_lt_Some.
  - rewrite andb_true_iff, Hok. split.
    + intros [Hall ->] j [?|Ej%list_elem_of_singleton]%elem_of_app; [auto|by subst j].
    + intros Hall. split; [intros; apply Hall; set_solver|].
      specialize (Hall i ltac:(set_solver)). congruence.
Qed.

Lemma collect_spec answers computeInfo timed arrivals ok taken ok' timedOut taken' :
  taken_ok answers ok taken →
  collect answers computeInfo timed arrivals ok taken = Some (ok', timedOut, taken') →
  taken_ok answers ok' taken' ∧
  (timedOut = true → timed = true ∧ Timer ∈ arrivals) ∧
  (timedOut = false → ok' = false ∨ (length answers ≤ length taken')%nat).
Proof.
  revert ok taken. induction arrivals as [|[i|] arrivals IH]; intros ok taken Hok; cbn [collect]; [done|..].
  - case_bool_decide as Hi; [done|]. destruct (answers !! i) as [result|] eqn:Ha; [|done].
    pose proof (taken_ok_snoc _ _ _ _ _ Hok Hi Ha) as Hok'.
    destruct (negb (ok && result) && negb computeInfo) eqn:Hn.
    { intros [= <- <- <-]. split_and!; [done..|]. intros _. left. split_bool. done. }
    destruct (Z.leb_spec (len answers) (len (taken ++ [i]))) as [Hle|Hlt].
    { intros [= <- <- <-]. split_and!; [done..|]. intros _. right. unfold len in Hle. lia. }
    intros Hc. destruct (IH _ _ Hok' Hc) as (? & Ht & ?). split_and!; [done| |done].
    intros Hto. destruct (Ht Hto). split; [done|by right].
  - destruct timed; [|done]. intros [= <- <- <-]. split_and!; [done| |done]. split; [done|left].
Qed.

(** All the goroutines have answered. *)
Lemma taken_all answers ok taken :
  taken_ok answers ok taken → (length answers ≤ length taken)%nat →
  ok = true ↔ ∀ i, (i < length answers)%nat → answers !! i = Some true.
Proof.
  intros (Hnd & Hlt & Hok) Hle. rewrite Hok. split; [|auto]. intros Hall i Hi. apply Hall.
  assert (taken ≡ₚ seq 0 (length answers)) as Hp.
  { apply submseteq_length_Permutation; [|rewrite length_seq; lia].
    apply NoDup_submseteq; [done|]. intros j Hj%Hlt. apply elem_of_seq. lia. }
  rewrite Hp. apply elem_of_seq. lia.
Qed.

(** The loop ends once every result has arrived. *)
Lemma collect_ends answers computeInfo timed (π : list nat) ok taken :
  taken_ok answers ok taken → taken ++ π ≡ₚ seq 0 (length answers) → π ≠ [] →
  ∃ ok' taken', collect answers computeInfo timed (Result <$> π) ok taken = Some (ok', false, taken').
Proof.
  revert ok taken. induction π as [|i π IH]; intros ok taken Hok Hp Hne; [done|]. cbn [fmap list_fmap collect].
  assert (NoDup (taken ++ i :: π)) as Hnd by (rewrite Hp; apply NoDup_seq).
  apply NoDup_app in Hnd as (_ & Hd & _). rewrite bool_decide_eq_false_2 by (intros ?; by apply (Hd i); [|left]).
  assert (i ∈ seq 0 (length answers)) as Hi%elem_of_seq by (rewrite <-Hp; set_solver).
  destruct (lookup_lt_is_Some_2 answers i) as [result Ha]; [lia|]. rewrite Ha.
  destruct (negb (ok && result) && negb computeInfo); [by eexists _, _|].
  destruct (Z.leb_spec (len answers) (len (taken ++ [i]))) as [|Hlt]; [by eexists _, _|].
  apply IH; [apply taken_ok_snoc; [done| |done]|by rewrite <-app_assoc|].
  - intros ?. by apply (Hd i); [|left].
  - intros ->. apply Permutation_length in Hp. rewrite length_seq in Hp. unfold len in Hlt. lia.
Qed.

(** ** The goroutines *)

Section parallel.
Context {ranges : MapRange} {V St : Type} {model : Model V St} {good_input good_output : V → Prop}.
Context {lawful : Lawful model good_input good_output} (fuel : nat).

(** A history the checker is given fuel for. *)
Definition checkable (H : list (entry V)) : Prop :=
  (∃ n, well_formed n H) ∧ good_entries good_input good_output H ∧ len H < 2 ^ 63 ∧
  (search_fuel (length H) ≤ fuel)%nat.

Definition verdict_safe (H : list (entry V)) (v : verdict) : Prop :=
  let '(b, longest, seqs) := v in
  (b = true → entries_linearizable model H) ∧
  ∀ i q, zlookup longest i = Some (Some q) →
    ∃ l, seqs !! q = Some l ∧ i ∈ l ∧ partial_linearization model H l.

Lemma run_all_safe hs computeInfo kill (k : nat) :
  Forall checkable hs →
  ∃ vs, run_all model fuel computeInfo kill k hs = Some (Ret vs) ∧ Forall2 verdict_safe hs vs.
Proof.
  intros Hc. revert k. induction Hc as [|H hs ((n & Hwf) & Hg & Hb & Hf) _ IH]; intros k; cbn [run_all]; [by exists []|].
  destruct (single_decides Hwf Hg Hb computeInfo fuel Hf) as (b & lo & sq & Hdec & _).
  destruct (checkSingle_killed _ _ _ _ (kill k) _ Hdec) as [r Hr]. rewrite Hr.
  destruct (single_safe Hwf Hg Hb computeInfo fuel (kill k) r) as (b' & lo' & sq' & -> & H1 & H2 & H3);
    [unfold search_fuel in Hf; lia|done|].
  destruct (IH (S k)) as (vs & -> & Hvs). eexists. split; [done|]. by constructor.
Qed.

Lemma run_all_decides hs computeInfo (k : nat) :
  Forall checkable hs →
  ∃ vs, run_all model fuel computeInfo (λ _ _, false) k hs = Some (Ret vs) ∧
    Forall2 (λ H (v : verdict), v.1.1 = true ↔ entries_linearizable model H) hs vs.
Proof.
  intros Hc. revert k. induction Hc as [|H hs ((n & Hwf) & Hg & Hb & Hf) _ IH]; intros k; cbn [run_all]; [by exists []|].
  destruct (single_decides Hwf Hg Hb computeInfo fuel Hf) as (b & lo & sq & -> & Hdec).
  destruct (IH (S k)) as (vs & -> & Hvs). eexists. split; [done|]. by constructor.
Qed.

Lemma unique_partials_ok H v :
  verdict_safe H v →
  ∃ ps, unique_partials v = Ret ps ∧ Forall (partial_linearization model H) ps.
Proof.
  destruct v as [[b longest] seqs]. intros [_ Hlo]. unfold unique_partials.
  set (step := λ (set : gmap nat unit) v, match v with Some k => <[k := tt]> set | None => set end).
  assert (∀ k, is_Some (foldl step ∅ longest !! k) → Some k ∈ longest) as Hset.
  { apply (foldl_prefix (λ seen (set : gmap nat unit), ∀ k, is_Some (set !! k) → Some k ∈ seen) step).
    - intros k [u Hu]. by rewrite lookup_empty in Hu.
    - intros seen [k|] set _ Hs j [u Hj]; cbn [step] in Hj.
      + apply lookup_insert_Some in Hj as [[-> _]|[_ Hj]]; [set_solver|].
        apply elem_of_app. left. apply Hs. by eexists.
      + apply elem_of_app. left. apply Hs. by eexists. }
  destruct (ofold_total (Forall (partial_linearization model H))
    (λ partials '(k, _), match seqs !! k with Some arr => Ret (partials ++ [arr]) | None => Panic end)
    (range (foldl step ∅ longest)) []) as (ps & -> & Hps); [|constructor|by exists ps].
  intros acc [k u] Hk Hacc. rewrite range_perm, elem_of_map_to_list in Hk.
  assert (Some k ∈ longest) as [i Hi]%list_elem_of_lookup by (apply Hset; by eexists).
  destruct (Hlo (Z.of_nat i) k) as (l & -> & _ & Hl); [apply zlookup_Some; split; [lia|by rewrite Nat2Z.id]|].
  eexists. split; [done|]. apply Forall_app. split; [done|]. by apply Forall_singleton.
Qed.

(** What the information of a check says of a list of histories. *)
Definition info_ok (hs : list (list (entry V))) (info : linearizationInfo V) : Prop :=
  history info = hs ∧
  Forall2 (λ H ps, Forall (partial_linearization model H) ps) hs (partialLinearizations info).

Lemma partials_ok hs vs acc :
  Forall2 verdict_safe hs vs →
  ∃ ps, ofold (λ acc v, p ← unique_partials v; Ret (acc ++ [p])) acc vs = Ret (acc ++ ps) ∧
    Forall2 (λ H ps, Forall (partial_linearization model H) ps) hs ps.
Proof.
  intros Hv. revert acc. induction Hv as [|H v hs vs Hv _ IH]; intros acc; cbn [ofold].
  { exists []. by rewrite app_nil_r. }
  destruct (unique_partials_ok H v Hv) as (p & -> & Hp). rewrite !bind_Ret.
  destruct (IH (acc ++ [p])) as (ps & -> & Hps). exists (p :: ps). rewrite <-app_assoc. split; [done|by constructor].
Qed.

(** The result is right whatever the order of arrival. *)
Lemma parallel_sound hs computeInfo timeout arrivals late r :
  Forall checkable hs →
  checkParallel model fuel hs computeInfo timeout arrivals late = Some r →
  ∃ res info, r = Ret (res, info) ∧ (computeInfo = true → info_ok hs info) ∧
    match res with
    | Ok => Forall (entries_linearizable model) hs
    | Illegal => ¬ Forall (entries_linearizable model) hs
    | Unknown => 0 < timeout ∧ Timer ∈ arrivals
    end.
Proof.
  intros Hc. unfold checkParallel. destruct (run_all_decides hs computeInfo 0 Hc) as (vs & -> & Hvs).
  set (answers := (λ v : verdict, v.1.1) <$> vs).
  destruct (collect _ _ _ _ _ _) as [[[ok timedOut] taken]|] eqn:Hcol; [|done].
  apply collect_spec in Hcol as (Htk & Hto & Hend).
  2: { split_and!; [apply NoDup_nil_2|by intros ? ?%elem_of_nil|]. split; [|done]. by intros _ ? ?%elem_of_nil. }
  assert (∀ i H, hs !! i = Some H → answers !! i = Some true ↔ entries_linearizable model H) as Hans.
  { intros i H Hi. destruct (Forall2_lookup_l _ _ _ _ _ Hvs Hi) as (v & Hv & Hiff).
    unfold answers. rewrite list_lookup_fmap, Hv. simpl. rewrite <-Hiff. split; [by intros [= ->]|by intros ->]. }
  assert (length answers = length hs) as Hlen
    by (unfold answers; rewrite length_fmap; symmetry; by eapply Forall2_length).
  set (result := if negb ok then Illegal else if timedOut then Unknown else Ok).
  assert (match result with
          | Ok => Forall (entries_linearizable model) hs
          | Illegal => ¬ Forall (entries_linearizable model) hs
          | Unknown => 0 < timeout ∧ Timer ∈ arrivals end) as Hres.
  { unfold result. destruct ok; simpl.
    - destruct timedOut; [destruct (Hto eq_refl); split; [lia|done]|].
      destruct (Hend eq_refl) as [|Hle]; [done|]. apply Forall_lookup. intros i H Hi. apply (Hans i H Hi).
      apply (proj1 (taken_all _ _ _ Htk Hle)); [done|]. rewrite Hlen. by eapply lookup_lt_Some.
    - intros Hall. destruct Htk as (_ & Hlt & Hok). assert (false = true); [|done]. apply Hok.
      intros i Hi%Hlt. rewrite Hlen in Hi. destruct (lookup_lt_is_Some_2 _ _ Hi) as [H HH].
      apply (Hans i H HH). by eapply Forall_lookup_1. }
  destruct computeInfo; [|intros [= <-]; by eexists _, _].
  destruct (run_all_safe hs true (λ i k, if bool_decide (i ∈ taken) then false else late i k) 0 Hc) as (ls & -> & Hls).
  destruct (partials_ok hs ls [] Hls) as (ps & -> & Hps). intros [= <-]. eexists _, _. split_and!; [done| |done]. by split.
Qed.

Lemma parallel_ends hs computeInfo timeout (π : list nat) late :
  Forall checkable hs → hs ≠ [] → π ≡ₚ seq 0 (length hs) →
  ∃ res info,
    checkParallel model fuel hs computeInfo timeout (Result <$> π) late = Some (Ret (res, info)) ∧
    (res = Ok ↔ Forall (entries_linearizable model) hs) ∧ res ≠ Unknown.
Proof.
  intros Hc Hne Hp.
  assert (is_Some (checkParallel model fuel hs computeInfo timeout (Result <$> π) late)) as [r Hr].
  { unfold checkParallel. destruct (run_all_decides hs computeInfo 0 Hc) as (vs & -> & Hvs).
    assert (length ((λ v : verdict, v.1.1) <$> vs) = length hs) as Hlen
      by (rewrite length_fmap; symmetry; by eapply Forall2_length).
    destruct (collect_ends ((λ v : verdict, v.1.1) <$> vs) computeInfo (0 <? timeout) π true []) as (ok & taken & ->).
    - split_and!; [apply NoDup_nil_2|by intros ? ?%elem_of_nil|]. split; [|done]. by intros _ ? ?%elem_of_nil.
    - by rewrite Hlen.
    - intros ->. apply Permutation_length in Hp. rewrite length_seq in Hp. destruct hs; done.
    - destruct computeInfo; [|by eexists].
      destruct (run_all_safe hs true (λ i k, if bool_decide (i ∈ taken) then false else late i k) 0 Hc) as (ls & -> & Hls).
      by eexists. }
  destruct (parallel_sound _ _ _ _ _ _ Hc Hr) as (res & info & -> & _ & Hres). exists res, info. split; [done|].
  destruct res; [|naive_solver..]. destruct Hres as [_ (? & ? & ?)%list_elem_of_fmap]. done.
Qed.
End parallel.

(** Without a partition and without a timer, the main loop waits for ever. *)
Lemma parallel_empty {ranges : MapRange} {V St} (model : Model V St) (fuel : nat) computeInfo timeout arrivals late :
  timeout ≤ 0 → checkParallel model fuel [] computeInfo timeout arrivals late = None.
Proof.
  intros Ht. unfold checkParallel. cbn [run_all fmap list_fmap].
  destruct (Z.ltb_spec 0 timeout); [lia|]. by destruct arrivals as [|[[|i]|] arrivals].
Qed.

(** C29. Whatever the order in which the results and the timer arrive, and whenever the
    goroutines are killed, a check that returns is right: [Ok] means that every partition
    is linearizable, [Illegal] that one is not, [Unknown] that the timer fired; and the
    information it gathers consists of partial linearizations of the partitions. *)
Theorem checkParallel_sound {ranges : MapRange} {V St} (model : Model V St) good_input good_output
    `{!Lawful model good_input good_output} (fuel : nat) hs computeInfo timeout arrivals late r :
  Forall (checkable (good_input := good_input) (good_output := good_output) fuel) hs →
  checkParallel model fuel hs computeInfo timeout arrivals late = Some r →
  ∃ res info, r = Ret (res, info) ∧ (computeInfo = true → info_ok (model := model) hs info) ∧
    match res with
    | Ok => Forall (entries_linearizable model) hs
    | Illegal => ¬ Forall (entries_linearizable model) hs
    | Unknown => 0 < timeout ∧ Timer ∈ arrivals
    end.
Proof. intros. by eapply parallel_sound. Qed.
