(* ===== verification/PorcKv.v ===== *)
(** * porcupine: the key-value model of the tests

    Models [src/src/models/kv.go]: [KvModel] partitions a history by key and checks each
    partition against a single string.  [kv_linearizable] is linearizability of the whole
    history against a map from keys to strings; it holds exactly when every partition is
    linearizable, by merging the linearizations of the keys at points of time between
    the call and the return of each operation. *)
From Stdlib Require Import Sorting.Permutation.
From S2P Require Import Prelude Bitset Porcupine PorcList PorcSpec PorcSearch PorcCheck PorcOps PorcParallel.

Record KvInput := mkKvInput { Op : Z; Key : string; Value : string }.
Record KvOutput := mkKvOutput { OutValue : string }.

(** The dynamic values of the interfaces. *)
Inductive kvvalue := VInput (i : KvInput) | VOutput (o : KvOutput).

(** [v.(KvInput)] and [v.(KvOutput)] *)
Definition as_input (v : kvvalue) : outcome KvInput :=
  match v with VInput i => Ret i | VOutput _ => Panic end.
Definition as_output (v : kvvalue) : outcome KvOutput :=
  match v with VOutput o => Ret o | VInput _ => Panic end.

(** One iteration of the first loop of [Partition]. *)
Definition add_to_key (m : gmap string (list (Operation kvvalue))) (v : Operation kvvalue)
    : outcome (gmap string (list (Operation kvvalue))) :=
  i ← as_input (Input v);
  let key := Key i in
  Ret (<[key := default [] (m !! key) ++ [v]]> m).

Definition kv_Partition {ranges : MapRange} (history : list (Operation kvvalue))
    : outcome (list (list (Operation kvvalue))) :=
  m ← ofold add_to_key ∅ history;
  let keys := foldl (λ keys '(k, _), keys ++ [k]) [] (range m) in
  let keys := merge_sort String.le keys in
  Ret (foldl (λ ret k, ret ++ [default [] (m !! k)]) [] keys).

Definition kv_Step (state : string) (input output : kvvalue) : outcome (bool * string) :=
  inp ← as_input input;
  out ← as_output output;
  if Op inp =? 0 then Ret (bool_decide (OutValue out = state), state)
  else if Op inp =? 1 then Ret (true, Value inp)
  else if Op inp =? 2 then Ret (true, (state +:+ Value inp)%string)
  else Ret (bool_decide (OutValue out = state), (state +:+ Value inp)%string).

Definition kv_DescribeOperation (input output : kvvalue) : outcome string :=
  inp ← as_input input;
  out ← as_output output;
  Ret (if (Op inp =? 0)%Z then "get('" +:+ Key inp +:+ "') -> '" +:+ OutValue out +:+ "'"
       else if (Op inp =? 1)%Z then "put('" +:+ Key inp +:+ "', '" +:+ Value inp +:+ "')"
       else if (Op inp =? 2)%Z then "append('" +:+ Key inp +:+ "', '" +:+ Value inp +:+ "')"
       else "<invalid>")%string.

Definition KvModel {ranges : MapRange} : Model kvvalue string :=
  {| Partition := Some kv_Partition;
     PartitionEvent := None;
     Init := "";
     Step := kv_Step;
     Equal := None;
     DescribeOperation := Some kv_DescribeOperation;
     DescribeState := None |}.

(** ** The specification: a map from keys to strings *)

Definition kv_op (i : KvInput) (o : KvOutput) (st : string) : bool * string :=
  if Op i =? 0 then (bool_decide (OutValue o = st), st)
  else if Op i =? 1 then (true, Value i)
  else if Op i =? 2 then (true, (st +:+ Value i)%string)
  else (bool_decide (OutValue o = st), (st +:+ Value i)%string).

Definition map_step (m : gmap string string) (input output : option kvvalue)
    : outcome (bool * gmap string string) :=
  match input, output with
  | Some (VInput i), Some (VOutput o) =>
      let '(ok, st) := kv_op i o (default "" (m !! Key i)) in Ret (ok, <[Key i := st]> m)
  | _, _ => Panic
  end.

Definition kv_linearizable (h : list (Operation kvvalue)) : Prop :=
  linearizable map_step (len h) (op_input h) (op_output h) (op_precedes h) ∅.

(** Inputs are inputs and outputs outputs. *)
Definition typed (h : list (Operation kvvalue)) : Prop :=
  ∀ op, op ∈ h → (∃ i, Input op = VInput i) ∧ ∃ o, Output op = VOutput o.

(** A missing key is an empty string. *)
Definition same_store (m m' : gmap string string) : Prop := ∀ k, default "" (m !! k) = default "" (m' !! k).

Lemma same_store_insert m m' k v : same_store m m' → same_store (<[k := v]> m) (<[k := v]> m').
Proof. intros Hm k'. destruct (decide (k' = k)) as [->|]; [by rewrite !lookup_insert_eq|by rewrite !lookup_insert_ne]. Qed.

Lemma same_store_read m m' k : same_store m m' → same_store m (<[k := default "" (m' !! k)]> m').
Proof. intros Hm k'. destruct (decide (k' = k)) as [->|]; [by rewrite lookup_insert_eq|by rewrite lookup_insert_ne]. Qed.

(** ** Linearizations as lists of operations *)

Section ops.
Context {V St : Type} (step : St → option V → option V → outcome (bool * St)).
Implicit Types (h l : list (Operation V)).

Fixpoint legal_ops (σ : St) l (σ' : St) : Prop :=
  match l with
  | [] => σ' = σ
  | op :: l => ∃ σ1, step σ (Some (Input op)) (Some (Output op)) = Ret (true, σ1) ∧ legal_ops σ1 l σ'
  end.

(** [a] may come before [b]. *)
Definition may_precede (a b : Operation V) : Prop := Call a ≤ Return b.

Definition ops_linearizable (σ0 : St) h : Prop :=
  ∃ l σ, l ≡ₚ h ∧ StronglySorted may_precede l ∧ legal_ops σ0 l σ.

Lemma StronglySorted_lookup {A} (R : relation A) (l : list A) :
  StronglySorted R l ↔ ∀ (a b : nat) x y, l !! a = Some x → l !! b = Some y → (a < b)%nat → R x y.
Proof.
  split.
  - induction 1 as [|z l _ IH Hz]; [done|]. intros [|a] [|b] x y; simpl.
    + lia.
    + intros [= <-] Hb _. by eapply Forall_lookup_1.
    + lia.
    + intros. eapply IH; [done..|lia].
  - induction l as [|z l IH]; intros H; [constructor|]. constructor.
    + apply IH. intros a b x y Ha Hb Hab. apply (H (S a) (S b)); [done..|lia].
    + apply Forall_lookup. intros b y Hb. apply (H 0%nat (S b)); [done..|lia].
Qed.

(** The operations at the ids of a list. *)
Lemma legal_ids h (π : list Z) l σ σ' :
  Forall2 (λ i op, zlookup h i = Some op) π l →
  legal step (op_input h) (op_output h) σ π σ' ↔ legal_ops σ l σ'.
Proof.
  intros HF. revert σ. induction HF as [|i op π l Hi _ IH]; intros σ; cbn [legal legal_ops]; [done|].
  unfold op_input, op_output. rewrite Hi. simpl. apply exist_proper. intros σ1. by rewrite <-IH.
Qed.

Lemma ordered_ids h (π : list Z) l :
  Forall2 (λ i op, zlookup h i = Some op) π l → ordered (op_precedes h) π ↔ StronglySorted may_precede l.
Proof.
  intros HF. rewrite StronglySorted_lookup. unfold ordered, op_precedes, may_precede. split.
  - intros Ho a b x y Hx Hy Hab.
    destruct (Forall2_lookup_r _ _ _ _ _ HF Hx) as (i & Hi & Hix), (Forall2_lookup_r _ _ _ _ _ HF Hy) as (j & Hj & Hjy).
    specialize (Ho a b i j Hi Hj Hab). apply Z.nlt_ge. intros Hlt. apply Ho. eauto.
  - intros Hs a b i j Hi Hj Hab (x & y & Hjx & Hiy & Hlt).
    destruct (Forall2_lookup_l _ _ _ _ _ HF Hi) as (x' & Hx & ?), (Forall2_lookup_l _ _ _ _ _ HF Hj) as (y' & Hy & ?).
    specialize (Hs a b _ _ Hx Hy Hab). simplify_eq. lia.
Qed.

(** Permutations of a mapped list. *)
Lemma fmap_perm_inv {A B} (f : A → B) (l : list B) (k : list A) :
  l ≡ₚ f <$> k → ∃ k', k' ≡ₚ k ∧ l = f <$> k'.
Proof. intros (k' & -> & Hp)%Permutation_map_inv. by exists k'. Qed.

Lemma indexed_perm_ids h il :
  il ≡ₚ indexed h → Forall2 (λ i op, zlookup h i = Some op) il.*1 il.*2.
Proof.
  intros Hp. rewrite Forall2_fmap. apply Forall_Forall2_diag.
  apply Forall_forall. intros [i op] Hin. rewrite Hp in Hin. by apply elem_of_indexed.
Qed.

(** An order of the ids is an order of the operations. *)
Lemma linearizable_ops h σ0 :
  linearizable step (len h) (op_input h) (op_output h) (op_precedes h) σ0 ↔ ops_linearizable σ0 h.
Proof.
  split.
  - intros (π & σ & Hp & Ho & Hl). rewrite <-fst_indexed in Hp.
    destruct (fmap_perm_inv _ _ _ Hp) as (il & Hil & ->). pose proof (indexed_perm_ids h il Hil) as HF.
    exists il.*2, σ. split_and!; [by rewrite Hil, snd_indexed|by eapply ordered_ids|by eapply legal_ids].
  - intros (l & σ & Hp & Ho & Hl). rewrite <-(snd_indexed h) in Hp.
    destruct (fmap_perm_inv _ _ _ Hp) as (il & Hil & ->). pose proof (indexed_perm_ids h il Hil) as HF.
    exists il.*1, σ. split_and!; [by rewrite Hil, fst_indexed|by eapply ordered_ids|by eapply legal_ids].
Qed.
End ops.

(** ** Partitions *)

Definition op_key (op : Operation kvvalue) : string :=
  match Input op with VInput i => Key i | VOutput _ => "" end.

Definition of_key (k : string) (h : list (Operation kvvalue)) : list (Operation kvvalue) :=
  filter (λ op, op_key op = k) h.

Section partition.
Context {ranges : MapRange}.

Definition parts_ok (h : list (Operation kvvalue)) (m : gmap string (list (Operation kvvalue))) : Prop :=
  ∀ k, default [] (m !! k) = of_key k h ∧ (is_Some (m !! k) ↔ of_key k h ≠ []).

Lemma of_key_snoc k h v :
  of_key k (h ++ [v]) = if decide (op_key v = k) then of_key k h ++ [v] else of_key k h.
Proof.
  unfold of_key. rewrite filter_app, filter_cons. case_decide; [done|]. by rewrite filter_nil, app_nil_r.
Qed.

Lemma partition_fold h :
  typed h →
  ∃ m, ofold add_to_key ∅ h = Ret m ∧ parts_ok h m.
Proof.
  induction h as [|v h IH] using rev_ind; intros Ht.
  { exists ∅. split; [done|]. intros k. rewrite lookup_empty. split; [done|]. split; [by intros []|done]. }
  destruct IH as (m & Hf & Hm); [intros op Hop; apply Ht; set_solver|]. rewrite ofold_app, Hf, bind_Ret.
  destruct (Ht v) as [[i Hi] _]; [set_solver|]. cbn [ofold]. unfold add_to_key. rewrite Hi. cbn [as_input]. rewrite !bind_Ret.
  eexists. split; [done|]. assert (op_key v = Key i) as Hk by (unfold op_key; by rewrite Hi).
  intros k. rewrite of_key_snoc, Hk. destruct (Hm k) as [Hd Hs]. case_decide as E.
  - subst k. rewrite lookup_insert_eq. simpl. split; [by rewrite Hd|]. split; [|by eexists].
    intros _. by intros [_ ?]%app_eq_nil.
  - by rewrite lookup_insert_ne by done.
Qed.

Lemma foldl_snoc_fmap {A B} (f : A → B) (l : list A) (acc : list B) :
  foldl (λ acc a, acc ++ [f a]) acc l = acc ++ (f <$> l).
Proof.
  revert acc. induction l as [|a l IH]; intros acc; simpl; [by rewrite app_nil_r|].
  by rewrite IH, <-app_assoc.
Qed.

Lemma kv_Partition_spec h :
  typed h →
  ∃ keys, kv_Partition h = Ret ((λ k, of_key k h) <$> keys) ∧ NoDup keys ∧
    Sorted String.le keys ∧ (∀ k, k ∈ keys ↔ ∃ op, op ∈ h ∧ op_key op = k).
Proof.
  intros Ht. destruct (partition_fold h Ht) as (m & Hf & Hm). unfold kv_Partition. rewrite Hf, bind_Ret.
  assert (∀ (l : list (string * list (Operation kvvalue))) acc,
    foldl (λ keys '(k, _), keys ++ [k]) acc l = acc ++ l.*1) as Hkeys.
  { induction l as [|[k x] l IH]; intros acc; simpl; [by rewrite app_nil_r|]. by rewrite IH, <-app_assoc. }
  rewrite Hkeys. cbn [app].
  exists (merge_sort String.le (range m).*1). rewrite foldl_snoc_fmap. simpl. split_and!.
  - f_equal. apply list_fmap_ext. intros _ k _. apply Hm.
  - rewrite merge_sort_Permutation. apply NoDup_range.
  - apply Sorted_merge_sort. apply _.
  - intros k. rewrite merge_sort_Permutation, range_perm.
    transitivity (is_Some (m !! k)).
    { rewrite list_elem_of_fmap. split.
      - intros ([k' x] & -> & Hin%elem_of_map_to_list). by eexists.
      - intros [x Hx]. exists (k, x). split; [done|]. by apply elem_of_map_to_list. }
    destruct (Hm k) as [_ ->]. split.
    + intros Hne. destruct (of_key k h) as [|op l] eqn:E; [done|]. exists op.
      assert (op ∈ of_key k h) as [? ?]%list_elem_of_filter by (rewrite E; left). done.
    + intros (op & Hin & Hk) E. assert (op ∈ of_key k h) as Hx by (by apply list_elem_of_filter).
      rewrite E in Hx. by apply elem_of_nil in Hx.
Qed.
End partition.

(** ** Locality *)

Section locality.
Context {ranges : MapRange} `{!Sprint kvvalue, !Sprint string}.
Abbreviation model := (fillDefault KvModel).
Implicit Types (h l : list (Operation kvvalue)) (k : string) (p : Z * Operation kvvalue).

Lemma typed_cons op l : typed (op :: l) → (∃ i o, Input op = VInput i ∧ Output op = VOutput o) ∧ typed l.
Proof.
  intros Ht. split; [|intros ? ?; apply Ht; by right].
  destruct (Ht op) as [[i ?] [o ?]]; [by left|eauto].
Qed.

Lemma kv_step_op st i o : call_step model st (Some (VInput i)) (Some (VOutput o)) = Ret (kv_op i o st).
Proof.
  cbn. unfold kv_Step, kv_op. cbn. repeat case_match; done.
Qed.

(** An execution on the map is one execution per key. *)
Lemma legal_local l (m : gmap string string) :
  typed l →
  (∃ m', legal_ops map_step m l m') ↔
  ∀ k, ∃ st, legal_ops (call_step model) (default "" (m !! k)) (of_key k l) st.
Proof.
  revert m. induction l as [|op l IH]; intros m Ht.
  { split; [intros _ k|intros _]; by eexists. }
  apply typed_cons in Ht as ((i & o & Hi & Ho) & Ht). unfold of_key. cbn [legal_ops]. rewrite Hi, Ho. cbn [map_step].
  assert (op_key op = Key i) as Hk by (unfold op_key; by rewrite Hi).
  destruct (kv_op i o (default "" (m !! Key i))) as [ok st1] eqn:Eop.
  assert (∀ k, k ≠ Key i → (<[Key i := st1]> m) !! k = m !! k) as Hne by (intros; by rewrite lookup_insert_ne).
  split.
  - intros (m' & m1 & [= -> <-] & Hl) k. rewrite filter_cons, Hk.
    destruct (proj1 (IH _ Ht) (ex_intro _ _ Hl) k) as [st Hst]. exists st. case_decide as E.
    + subst k. cbn [legal_ops]. rewrite Hi, Ho, kv_step_op, Eop. exists st1. split; [done|].
      by rewrite lookup_insert_eq in Hst.
    + by rewrite Hne in Hst.
  - intros Hall. destruct (Hall (Key i)) as (st & Hst). rewrite filter_cons, decide_True in Hst by done.
    cbn [legal_ops] in Hst. rewrite Hi, Ho, kv_step_op, Eop in Hst. destruct Hst as (? & [= -> <-] & Hst).
    destruct (proj2 (IH (<[Key i := st1]> m) Ht)) as (m' & Hm'); [|eauto].
    intros k. destruct (decide (k = Key i)) as [->|Hk'].
    + exists st. by rewrite lookup_insert_eq.
    + rewrite Hne by done. destruct (Hall k) as [st' Hst']. exists st'.
      by rewrite filter_cons, decide_False in Hst' by congruence.
Qed.

(** A point of time for each operation of a linearization: the latest call so far. *)
Fixpoint stamp (t : Z) l : list (Z * Operation kvvalue) :=
  match l with
  | [] => []
  | op :: l => (Z.max t (Call op), op) :: stamp (Z.max t (Call op)) l
  end.

Definition earlier (p q : Z * Operation kvvalue) : Prop := p.1 ≤ q.1.

#[local] Instance earlier_dec p q : Decision (earlier p q).
Proof. unfold earlier. apply _. Defined.
#[local] Instance earlier_trans : Transitive earlier.
Proof. unfold earlier. intros ? ? ?. lia. Qed.
#[local] Instance earlier_total : Total earlier.
Proof. unfold earlier. intros ? ?. lia. Qed.

Lemma stamp_snd t l : (stamp t l).*2 = l.
Proof. revert t. induction l as [|op l IH]; intros t; simpl; [done|]. by rewrite IH. Qed.

Lemma stamp_sorted t l : Sorted earlier (stamp t l).
Proof.
  revert t. induction l as [|op l IH]; intros t; simpl; constructor; [apply IH|].
  destruct l; simpl; constructor. unfold earlier. simpl. lia.
Qed.

Lemma stamp_within t l :
  StronglySorted may_precede l → timed l → (∀ op, op ∈ l → t ≤ Return op) →
  ∀ p, p ∈ stamp t l → Call p.2 ≤ p.1 ≤ Return p.2.
Proof.
  intros Hs. revert t. induction Hs as [|op l _ IH Hop]; intros t Ht Hle p; simpl; [by intros ?%elem_of_nil|].
  assert (Call op ≤ Return op) by (apply Ht; by left). assert (t ≤ Return op) by (apply Hle; by left).
  intros [->|Hp]%elem_of_cons; [simpl; lia|]. eapply IH; [|..|done].
  - intros ? ?. apply Ht. by right.
  - intros o Ho. rewrite Forall_forall in Hop. specialize (Hop o Ho). unfold may_precede in Hop.
    assert (t ≤ Return o) by (apply Hle; by right). lia.
Qed.

(** Merging lists of which only one has elements of a kind keeps these in order. *)
Lemma filter_merge (P : Z * Operation kvvalue → Prop) `{!∀ p, Decision (P p)} ps qs :
  (∀ p, p ∈ ps → ¬ P p) ∨ (∀ q, q ∈ qs → ¬ P q) →
  filter P (list_merge earlier ps qs) = filter P ps ++ filter P qs.
Proof.
  revert qs. induction ps as [|p ps IHp]; intros qs Hn; [by rewrite list_merge_nil_l|].
  induction qs as [|q qs IHq]; [by rewrite list_merge_nil_r, app_nil_r|].
  rewrite list_merge_cons. case_decide.
  - rewrite filter_cons, IHp, (filter_cons P p ps) by (destruct Hn; [left|right]; set_solver). by case_decide.
  - rewrite filter_cons, IHq, (filter_cons P q qs) by (destruct Hn; [left|right]; set_solver).
    case_decide; [|done]. destruct Hn as [Hn|Hn]; [|exfalso; apply (Hn q); [by left|done]].
    by rewrite (filter_none P (p :: ps)).
Qed.

(** The merge of the stamped linearizations of the keys. *)
Definition merge_keys (keys : list string) (s : string → list (Z * Operation kvvalue)) :=
  foldr (λ k, list_merge earlier (s k)) [] keys.

Lemma merge_keys_perm keys s : merge_keys keys s ≡ₚ keys ≫= s.
Proof.
  induction keys as [|k keys IH]; simpl; [done|]. by rewrite merge_Permutation, IH.
Qed.

Lemma merge_keys_sorted keys s : (∀ k, Sorted earlier (s k)) → Sorted earlier (merge_keys keys s).
Proof.
  intros Hs. induction keys as [|k keys IH]; simpl; [constructor|]. by apply Sorted_list_merge; [apply _|..].
Qed.

Lemma merge_keys_filter keys s k :
  NoDup keys → (∀ k p, p ∈ s k → op_key p.2 = k) →
  filter (λ p, op_key p.2 = k) (merge_keys keys s) = if decide (k ∈ keys) then s k else [].
Proof.
  intros Hnd Hs. induction Hnd as [|k' keys Hk' Hnd IH]; simpl; [done|].
  assert (∀ p, p ∈ merge_keys keys s → op_key p.2 ∈ keys) as Hin.
  { intros p. rewrite merge_keys_perm, list_elem_of_bind. intros (k1 & Hp%Hs & ?). by subst k1. }
  rewrite filter_merge, IH.
  - destruct (decide (k = k')) as [->|Hne].
    + rewrite decide_False, decide_True, app_nil_r by (done || by left). apply filter_all. naive_solver.
    + rewrite filter_none by naive_solver. simpl.
      destruct (decide (k ∈ keys)), (decide (k ∈ k' :: keys)); set_solver.
  - destruct (decide (k = k')) as [->|Hne]; [right|left]; intros p Hp E.
    + apply Hk'. rewrite <-E. auto.
    + apply Hs in Hp. congruence.
Qed.
Lemma of_keys_perm keys h :
  NoDup keys → (∀ op, op ∈ h → op_key op ∈ keys) → keys ≫= (λ k, of_key k h) ≡ₚ h.
Proof.
  intros Hnd. revert h. induction Hnd as [|k keys Hk Hnd IH]; intros h Hin; simpl.
  - destruct h as [|op h]; [done|]. exfalso. eapply elem_of_nil, (Hin op). by left.
  - etrans; [|apply (filter_app_complement (λ op, op_key op = k) h)]. apply Permutation_app; [done|].
    etrans; [|apply (IH (filter (λ op, op_key op ≠ k) h))].
    + apply reflexive_eq, Forall_bind_ext, Forall_forall. intros k' Hk'. unfold of_key.
      rewrite list_filter_filter. apply list_filter_iff. intros op. split; [|naive_solver].
      intros E. split; [done|]. intros E'. apply Hk. by rewrite <-E', E.
    + intros op [Hne Hop]%list_elem_of_filter. apply Hin in Hop as [?|?]%elem_of_cons; done.
Qed.

Lemma choose_keys (P : string → list (Operation kvvalue) → Prop) (keys : list string) :
  (∀ k, k ∈ keys → ∃ l, P k l) → ∃ s, ∀ k, (k ∈ keys → P k (s k)) ∧ (k ∉ keys → s k = []).
Proof.
  induction keys as [|k keys IH]; intros Hall.
  { exists (λ _, []). intros k. split; [by intros ?%elem_of_nil|done]. }
  destruct IH as [s Hs]; [intros; apply Hall; by right|]. destruct (Hall k) as [l Hl]; [by left|].
  exists (λ k', if decide (k' = k) then l else s k'). intros k'. case_decide as E.
  - subst k'. split; [done|]. set_solver.
  - destruct (Hs k') as [H1 H2]. split; [intros [?|?]%elem_of_cons; [done|auto]|]. intros Hn. apply H2. set_solver.
Qed.
(** The stamped linearization of a key. *)
Definition stamped l : list (Z * Operation kvvalue) :=
  match l with [] => [] | op :: _ => stamp (Call op) l end.

Lemma stamped_snd l : (stamped l).*2 = l.
Proof. destruct l; [done|]. apply stamp_snd. Qed.

Lemma stamped_sorted l : Sorted earlier (stamped l).
Proof. destruct l; [constructor|]. apply stamp_sorted. Qed.

Lemma stamped_within l p :
  StronglySorted may_precede l → timed l → p ∈ stamped l → Call p.2 ≤ p.1 ≤ Return p.2.
Proof.
  destruct l as [|op l]; [by intros _ _ ?%elem_of_nil|]. intros Hs Ht. apply stamp_within; [done..|].
  intros o [->|Ho]%elem_of_cons; [apply Ht; by left|].
  apply StronglySorted_inv in Hs as [_ Hs]. rewrite Forall_forall in Hs. by apply Hs.
Qed.

Lemma of_key_snd k (G : list (Z * Operation kvvalue)) :
  of_key k G.*2 = (filter (λ p, op_key p.2 = k) G).*2.
Proof.
  unfold of_key. induction G as [|p G IH]; [done|]. rewrite fmap_cons, !filter_cons, IH. by case_decide.
Qed.

(** Linearizations of the keys merge into one of the whole history. *)
Lemma merge_linearizations h keys s :
  typed h → timed h → NoDup keys → (∀ op, op ∈ h → op_key op ∈ keys) →
  (∀ k, (k ∈ keys → s k ≡ₚ of_key k h ∧ StronglySorted may_precede (s k) ∧
           ∃ st, legal_ops (call_step model) "" (s k) st) ∧ (k ∉ keys → s k = [])) →
  ops_linearizable map_step ∅ h.
Proof.
  intros Hty Hti Hnd Hin Hs. set (G := merge_keys keys (λ k, stamped (s k))).
  assert (∀ k op, op ∈ s k → op ∈ h ∧ op_key op = k) as Hsub.
  { intros k op Hop. destruct (Hs k) as [H1 H2]. destruct (decide (k ∈ keys)) as [Hk|Hk].
    - destruct (H1 Hk) as (Hp & _). rewrite Hp in Hop. by apply list_elem_of_filter in Hop as [? ?].
    - rewrite H2 in Hop by done. by apply elem_of_nil in Hop. }
  assert (∀ k p, p ∈ stamped (s k) → p.2 ∈ s k) as Hsnd.
  { intros k p Hp. rewrite <-(stamped_snd (s k)). by apply list_elem_of_fmap_2. }
  assert (∀ p, p ∈ G → Call p.2 ≤ p.1 ≤ Return p.2) as Hwithin.
  { intros p. unfold G. rewrite merge_keys_perm, list_elem_of_bind. intros (k & Hp & Hk).
    destruct (proj1 (Hs k) Hk) as (_ & Hso & _). eapply stamped_within; [done| |done].
    intros op Hop. by apply Hti, (Hsub k). }
  assert (G.*2 ≡ₚ h) as Hperm.
  { assert (∀ ks, (∀ k, k ∈ ks → k ∈ keys) → (ks ≫= λ k, stamped (s k)).*2 ≡ₚ ks ≫= λ k, of_key k h) as Hks.
    { induction ks as [|k ks IH]; intros Hks; simpl; [done|]. rewrite fmap_app, stamped_snd.
      destruct (proj1 (Hs k) (Hks k ltac:(by left))) as (Hsk & _). apply Permutation_app; [done|].
      apply IH. intros. apply Hks. by right. }
    unfold G. rewrite merge_keys_perm, Hks by done. by apply of_keys_perm. }
  destruct (proj2 (legal_local G.*2 ∅ ltac:(intros op Hop; rewrite Hperm in Hop; by apply Hty))) as [m' Hm'].
  { intros k. rewrite lookup_empty. simpl. rewrite of_key_snd.
    unfold G. rewrite (merge_keys_filter _ _ k Hnd) by (intros; eapply Hsub; by apply Hsnd).
    destruct (decide (k ∈ keys)) as [Hk|Hk]; [|by eexists]. rewrite stamped_snd. apply (Hs k), Hk. }
  exists G.*2, m'. split_and!; [done| |done].
  assert (StronglySorted earlier G) as HG.
  { apply Sorted_StronglySorted; [apply _|]. apply merge_keys_sorted. intros. apply stamped_sorted. }
  apply StronglySorted_lookup. intros a b x y Hx Hy Hab.
  apply list_lookup_fmap_Some in Hx as (p & -> & Hp), Hy as (q & -> & Hq).
  pose proof (proj1 (StronglySorted_lookup _ _) HG a b p q Hp Hq Hab) as Hpq. unfold earlier in Hpq.
  apply list_elem_of_lookup_2, Hwithin in Hp, Hq. unfold may_precede. lia.
Qed.

(** The history is linearizable exactly when each of its keys is. *)
Lemma kv_local h keys :
  typed h → timed h → NoDup keys → (∀ op, op ∈ h → op_key op ∈ keys) →
  kv_linearizable h ↔ ∀ k, k ∈ keys → history_linearizable model (of_key k h).
Proof.
  intros Hty Hti Hnd Hin. unfold kv_linearizable, history_linearizable. rewrite linearizable_ops.
  setoid_rewrite linearizable_ops. split.
  - intros (l & m & Hp & Hs & Hl) k Hk.
    destruct (proj1 (legal_local l ∅ ltac:(intros op Hop; rewrite Hp in Hop; by apply Hty)) (ex_intro _ m Hl) k)
      as [st Hst]. rewrite lookup_empty in Hst.
    exists (of_key k l), st. split_and!; [unfold of_key; by rewrite Hp|by apply StronglySorted_filter_list|done].
  - intros Hall. destruct (choose_keys (λ k l, l ≡ₚ of_key k h ∧ StronglySorted may_precede l ∧
      ∃ st, legal_ops (call_step model) "" l st) keys) as [s Hs].
    { intros k Hk. destruct (Hall k Hk) as (l & st & ? & ? & ?). exists l. split_and!; [done..|]. by exists st. }
    by apply (merge_linearizations h keys s).
Qed.
End locality.

(** ** CheckOperations on the key-value model *)

Definition is_input (v : kvvalue) : Prop := ∃ i, v = VInput i.
Definition is_output (v : kvvalue) : Prop := ∃ o, v = VOutput o.

Section check.
Context {ranges : MapRange} {sorts : EntrySort} `{!Sprint kvvalue, !Sprint string}.
Implicit Types (h : list (Operation kvvalue)).

#[export] Instance kv_lawful : Lawful (fillDefault KvModel) is_input is_output.
Proof.
  refine {| model_equal := ShallowEqual |}; [done|..].
  - intros σ τ i o σ' ->%bool_decide_eq_true Hs. exists σ'. split; [done|]. by apply bool_decide_eq_true.
  - intros σ ? ? [i ->] [o ->]. pose proof (kv_step_op σ i o) as Hs. cbn in Hs |- *. rewrite Hs.
    by destruct (kv_op i o σ) as [b σ']; exists b, σ'.
Defined.

Lemma makeEntries_good h : typed h → good_entries is_input is_output (makeEntries h).
Proof.
  intros Ht el (i & op & [_ Hop]%zlookup_Some & Hel)%elem_of_makeEntries.
  apply list_elem_of_lookup_2, Ht in Hop as [Hi Ho]. by destruct Hel as [->| ->].
Qed.

Lemma of_key_checkable h k (fuel : nat) :
  typed h → timed h → 2 * len h < 2 ^ 63 → (search_fuel (2 * length h) ≤ fuel)%nat →
  checkable (good_input := is_input) (good_output := is_output) fuel (makeEntries (of_key k h)).
Proof.
  intros Hty Hti Hl Hf.
  assert (∀ op, op ∈ of_key k h → op ∈ h) as Hsub by (by intros op [_ ?]%list_elem_of_filter).
  assert (length (of_key k h) ≤ length h)%nat by apply length_filter.
  pose proof (makeEntries_len (of_key k h)) as Hlen. unfold len in *. split_and!.
  - exists (len (of_key k h)). apply makeEntries_well_formed. intros op Hop. by apply Hti, Hsub.
  - apply makeEntries_good. intros op Hop. by apply Hty, Hsub.
  - unfold len. lia.
  - etrans; [|done]. apply search_fuel_mono. lia.
Qed.

Lemma check_kv (fuel : nat) (π : list nat) late h parts :
  typed h → timed h → h ≠ [] → 2 * len h < 2 ^ 63 → (search_fuel (2 * length h) ≤ fuel)%nat →
  kv_Partition h = Ret parts → π ≡ₚ seq 0 (length parts) →
  ∃ b, CheckOperations fuel (Result <$> π) late KvModel h = Some (Ret b) ∧ (b = true ↔ kv_linearizable h).
Proof.
  intros Hty Hti Hne Hl Hf Hparts Hπ. destruct (kv_Partition_spec h Hty) as (keys & E & Hnd & _ & Hkeys).
  rewrite E in Hparts. injection Hparts as <-. rewrite length_fmap in Hπ.
  assert (∀ op, op ∈ h → op_key op ∈ keys) as Hin by (intros op Hop; apply Hkeys; eauto).
  assert (keys ≠ []) as Hk.
  { destruct h as [|op h]; [done|]. intros ->. eapply elem_of_nil, (Hin op). by left. }
  set (hs := makeEntries <$> ((λ k, of_key k h) <$> keys)).
  destruct (parallel_ends (model := fillDefault KvModel) (good_input := is_input) (good_output := is_output)
    fuel hs false 0 π late) as (res & info & Hc & Hres & _).
  - apply Forall_fmap, Forall_fmap, Forall_forall. intros k _. by apply of_key_checkable.
  - unfold hs. by destruct keys.
  - unfold hs. by rewrite !length_fmap.
  - exists (bool_decide (res = Ok)). unfold CheckOperations, checkOperations.
    change (call1 (Partition (fillDefault KvModel)) h) with (kv_Partition h). rewrite E. fold hs.
    rewrite Hc. split; [done|]. rewrite bool_decide_eq_true, Hres, (kv_local h keys Hty Hti Hnd Hin).
    unfold hs. rewrite !Forall_fmap, Forall_forall. unfold compose.
    by setoid_rewrite makeEntries_linearizable.
Qed.
End check.

(** C17. [CheckOperations(KvModel, history)], on a history of key-value operations that is
    not empty, has fewer than 2^62 operations and whose operations return after they are
    called, returns for every order in which the
    partitions are done, and returns true exactly when the history is linearizable as a
    key-value store. *)
Theorem CheckOperations_kv {ranges : MapRange} {sorts : EntrySort} `{!Sprint kvvalue, !Sprint string}
    (fuel : nat) (π : list nat) late (h : list (Operation kvvalue)) parts :
  typed h → timed h → h ≠ [] → 2 * len h < 2 ^ 63 → (search_fuel (2 * length h) ≤ fuel)%nat →
  kv_Partition h = Ret parts → π ≡ₚ seq 0 (length parts) →
  ∃ b, CheckOperations fuel (Result <$> π) late KvModel h = Some (Ret b) ∧ (b = true ↔ kv_linearizable h).
Proof. intros. by eapply check_kv. Qed.

(** C40. [CheckOperations(KvModel, nil)] never returns: a history without operations has no
    partition, and the main loop of [checkParallel] waits for a result of none. *)
Theorem CheckOperations_empty_hangs {ranges : MapRange} {sorts : EntrySort} `{!Sprint kvvalue, !Sprint string}
    (fuel : nat) arrivals late :
  CheckOperations fuel arrivals late KvModel [] = None.
Proof.
  unfold CheckOperations, checkOperations.
  destruct (kv_Partition_spec [] ltac:(by intros ? ?%elem_of_nil)) as (keys & E & _ & _ & Hkeys).
  change (call1 (Partition (fillDefault KvModel)) []) with (kv_Partition []). rewrite E.
  assert (keys = []) as ->.
  { apply elem_of_nil_inv. intros k (? & ?%elem_of_nil & _)%Hkeys. done. }
  simpl. by rewrite parallel_empty.
Qed.

(** ** A concrete history *)

(** The order of [byTime], with the entries that are not less in any order. *)
Definition not_after {V} (a b : entry V) : Prop := Less b a = false.

#[local] Instance not_after_dec {V} (a b : entry V) : Decision (not_after a b).
Proof. unfold not_after. apply _. Defined.

Lemma not_after_alt {V} (a b : entry V) :
  not_after a b ↔ e_time a < e_time b ∨ e_time a = e_time b ∧ (e_kind a = callEntry ∨ e_kind b = returnEntry).
Proof.
  unfold not_after, Less. destruct (Z.eqb_spec (e_time b) (e_time a)) as [E|E]; simpl.
  - destruct (e_kind a), (e_kind b); simpl; intuition (congruence || lia).
  - rewrite Z.ltb_ge. intuition lia.
Qed.

Definition sort_default : EntrySort.
Proof.
  refine {| sort_entries := λ V l, merge_sort not_after l |}.
  - intros V l. apply merge_sort_Permutation.
  - intros V l i j a b Ha Hb Hij. change (not_after a b).
    assert (StronglySorted not_after (merge_sort not_after l)) as Hs.
    { apply StronglySorted_merge_sort.
      - intros x y z. rewrite !not_after_alt. destruct (e_kind x), (e_kind y), (e_kind z); intuition (congruence || lia).
      - intros x y. rewrite !not_after_alt.
        destruct (Z.lt_trichotomy (e_time x) (e_time y)) as [?|[?|?]]; [by left; left| |by right; left].
        destruct (e_kind x), (e_kind y); naive_solver. }
    by apply (proj1 (StronglySorted_lookup _ _) Hs i j).
Defined.

Definition put k v : kvvalue := VInput (mkKvInput 1 k v).
Definition get k : kvvalue := VInput (mkKvInput 0 k "").
Definition answer v : kvvalue := VOutput (mkKvOutput v).

(** A read that overlaps a write and returns [v], with a read of another key. *)
Definition overlapping (v : string) : list (Operation kvvalue) :=
  [mkOperation 0 (put "x" "a") 0 (answer "") 10; mkOperation 1 (get "x") 5 (answer v) 20;
   mkOperation 2 (get "y") 1 (answer "") 2].

Lemma overlapping_ok v : typed (overlapping v) ∧ timed (overlapping v).
Proof.
  split; intros op Hop; repeat (apply elem_of_cons in Hop as [->|Hop]; [simpl; eauto || lia|]); by apply elem_of_nil in Hop.
Qed.

Section example.
#[local] Existing Instance range_default.
#[local] Existing Instance sort_default.
#[local] Instance sprint_value : Sprint kvvalue := λ _, "".
#[local] Instance sprint_state : Sprint string := λ s, s.

Lemma CheckOperations_kv_witness :
  CheckOperations 530 (Result <$> [1; 0]%nat) (λ _ _, true) KvModel (overlapping "a") = Some (Ret true) ∧
  kv_linearizable (overlapping "a") ∧
  CheckOperations 530 (Result <$> [1; 0]%nat) (λ _ _, true) KvModel (overlapping "b") = Some (Ret false) ∧
  ¬ kv_linearizable (overlapping "b").
Proof.
  assert (∀ v b, CheckOperations 530 (Result <$> [1; 0]%nat) (λ _ _, true) KvModel (overlapping v) = Some (Ret b) →
    (b = true ↔ kv_linearizable (overlapping v))) as Hb.
  { intros v b Hc. destruct (CheckOperations_kv 530 [1; 0]%nat (λ _ _, true) (overlapping v)
      [firstn 2 (overlapping v); skipn 2 (overlapping v)] (proj1 (overlapping_ok v)) (proj2 (overlapping_ok v)))
      as (b' & Hb' & Hiff); [done|reflexivity|vm_compute; lia|reflexivity|apply perm_swap|].
    rewrite Hc in Hb'. injection Hb' as <-. done. }
  assert (CheckOperations 530 (Result <$> [1; 0]%nat) (λ _ _, true) KvModel (overlapping "a") = Some (Ret true)) as H1
    by (vm_compute; reflexivity).
  assert (CheckOperations 530 (Result <$> [1; 0]%nat) (λ _ _, true) KvModel (overlapping "b") = Some (Ret false)) as H2
    by (vm_compute; reflexivity).
  split_and!; [done|by apply (Hb "a" true)|done|]. intros H%(Hb "b" false); done.
Defined.
Lemma overlapping_x_ok :
  typed (firstn 2 (overlapping "a")) ∧ timed (firstn 2 (overlapping "a")).
Proof.
  destruct (overlapping_ok "a") as [Hty Hti]. split; intros op Hop; [apply Hty|apply Hti]; by apply elem_of_take in Hop as (i & Hop%list_elem_of_lookup_2 & _).
Qed.

Lemma checkSingle_decides_witness :
  ∃ longest seqs,
    checkSingle (fillDefault KvModel) 45 (makeEntries (firstn 2 (overlapping "a"))) true (λ _, false)
      = Some (Ret (true, longest, seqs)) ∧
    entries_linearizable (fillDefault KvModel) (makeEntries (firstn 2 (overlapping "a"))).
Proof.
  destruct overlapping_x_ok as [Hty Hti].
  destruct (checkSingle_decides (fillDefault KvModel) is_input is_output 2
    (makeEntries (firstn 2 (overlapping "a"))) true 45) as (b & lo & sq & Hc & Hiff).
  - by apply (makeEntries_well_formed (firstn 2 (overlapping "a"))).
  - by apply makeEntries_good.
  - reflexivity.
  - vm_compute. lia.
  - exists lo, sq. assert (b = true) as ->; [|split; [done|by apply Hiff]].
    vm_compute in Hc. injection Hc as <- _ _. reflexivity.
Defined.

Lemma checkParallel_sound_witness :
  ∃ info, checkParallel (fillDefault KvModel) 45 [makeEntries (firstn 2 (overlapping "a"))] true 0 [Result 0]
            (λ _ _, true) = Some (Ret (Ok, info)) ∧
    Forall (entries_linearizable (fillDefault KvModel)) [makeEntries (firstn 2 (overlapping "a"))].
Proof.
  destruct overlapping_x_ok as [Hty Hti].
  destruct (checkParallel (fillDefault KvModel) 45 [makeEntries (firstn 2 (overlapping "a"))] true 0 [Result 0]
    (λ _ _, true)) as [r|] eqn:E; [|vm_compute in E; discriminate E].
  destruct (checkParallel_sound (fillDefault KvModel) is_input is_output 45
    [makeEntries (firstn 2 (overlapping "a"))] true 0 [Result 0] (λ _ _, true) r)
    as (res & info & -> & _ & Hres); [|exact E|].
  - apply Forall_singleton. split_and!.
    + exists 2. by apply (makeEntries_well_formed (firstn 2 (overlapping "a"))).
    + by apply makeEntries_good.
    + reflexivity.
    + vm_compute. lia.
  - exists info. assert (res = Ok) as ->; [|split; [reflexivity|exact Hres]]. vm_compute in E. injection E as <- _. reflexivity.
Defined.
End example.
