(* ===== verification/PorcVis.v ===== *)
(** * porcupine: the data of a visualization

    [computeVisualizationData] of [src/src/porcupine/visualization.go]: from what a
    verbose check gathered, the history of every partition, its partial linearizations
    with the states they go through, and for each operation the largest partial
    linearization it is in.  On what [checkParallel] gathers it does not panic.
    [Visualize] and [VisualizePath] write this data as JSON into a page; they are not
    modelled. *)
From S2P Require Import Prelude Bitset Porcupine PorcList PorcSpec PorcSearch PorcCheck PorcOps PorcParallel PorcKv.

Record historyElement := mkElement { he_ClientId : Z; he_Start : Z; he_End : Z; he_Description : string }.

Definition zero_element : historyElement := mkElement 0 0 0 "".

Record linearizationStep := mkStep { ls_Index : Z; ls_StateDescription : string }.

Record partitionVisualizationData := mkVis {
  pv_History : list historyElement;
  pv_PartialLinearizations : list (list linearizationStep);
  pv_Largest : gmap Z Z;
}.

(** [sort.Slice(partials, ...)] by length, longest first; the sort is not stable. *)
Class LengthSort := {
  sort_partials : list (list Z) → list (list Z);
  sort_partials_perm l : sort_partials l ≡ₚ l;
  sort_partials_sorted l (i j : nat) a b :
    sort_partials l !! i = Some a → sort_partials l !! j = Some b → (i < j)%nat → len b ≤ len a;
}.

(** [f(a, b)] of a function value and of values that may be missing. *)
Definition describe {V} (f : option (V → V → outcome string)) (input output : option V) : outcome string :=
  match f, input, output with Some f, Some i, Some o => f i o | _, _, _ => Panic end.

Section visualization.
Context {sorts : LengthSort} {V St : Type} `{EqDecision St, Sprint V, Sprint St} (model : Model V St).

(** One entry of a history: what is known of the operations, and the maps [callValue] and
    [returnValue]. *)
Definition show_entry (s : list historyElement * gmap Z V * gmap Z V) (elem : entry V)
    : outcome (list historyElement * gmap Z V * gmap Z V) :=
  let '(history, callValue, returnValue) := s in
  x ← slice_get history (e_id elem);
  match e_kind elem with
  | callEntry =>
      history ← slice_set history (e_id elem) (mkElement (e_clientId elem) (e_time elem) (he_End x) (he_Description x));
      Ret (history, <[e_id elem := e_value elem]> callValue, returnValue)
  | returnEntry =>
      d ← describe (DescribeOperation model) (callValue !! e_id elem) (Some (e_value elem));
      history ← slice_set history (e_id elem) (mkElement (he_ClientId x) (he_Start x) (e_time elem) d);
      Ret (history, callValue, <[e_id elem := e_value elem]> returnValue)
  end.

(** The maps [largestSize] and [largestIndex]. *)
Definition Sizes : Type := gmap Z Z * gmap Z Z.

Definition note_size (i size : Z) (m : Sizes) (histId : Z) : Sizes :=
  let '(largestSize, largestIndex) := m in
  if default 0 (largestSize !! histId) <? size
  then (<[histId := size]> largestSize, <[histId := i]> largestIndex) else m.

(** One operation of the partial linearization number [i], of length [size]. *)
Definition show_step (callValue returnValue : gmap Z V) (i size : Z)
    (s : St * list linearizationStep * Sizes) (histId : Z) : outcome (St * list linearizationStep * Sizes) :=
  let '(state, linearization, m) := s in
  '(ok, state) ← call_step model state (callValue !! histId) (returnValue !! histId);
  if negb ok then Panic
  else
    stateDesc ← call1 (DescribeState model) state;
    Ret (state, linearization ++ [mkStep histId stateDesc], note_size i size m histId).

Definition show_partial (callValue returnValue : gmap Z V) (s : list (list linearizationStep) * Sizes) (x : Z * list Z)
    : outcome (list (list linearizationStep) * Sizes) :=
  let '(linearizations, m) := s in
  let '(i, partial) := x in
  '(_, linearization, m) ← ofold (show_step callValue returnValue i (len partial)) (Init model, [], m) partial;
  Ret (linearizations ++ [linearization], m).

(** One partition. *)
Definition show_partition (entries : list (entry V)) (partials : list (list Z)) : outcome partitionVisualizationData :=
  let n := len entries / 2 in
  '(history, callValue, returnValue) ← ofold show_entry (replicate (Z.to_nat n) zero_element, ∅, ∅) entries;
  let partials := sort_partials partials in
  '(linearizations, (_, largestIndex)) ← ofold (show_partial callValue returnValue) ([], (∅, ∅)) (indexed partials);
  Ret (mkVis history linearizations largestIndex).
End visualization.

Definition computeVisualizationData {sorts : LengthSort} {V St} `{EqDecision St, Sprint V, Sprint St}
    (model : Model V St) (info : linearizationInfo V) : outcome (list partitionVisualizationData) :=
  let model := fillDefault model in
  ofold (λ data '(partition, entries),
    partials ← slice_get (partialLinearizations info) partition;
    d ← show_partition model entries partials;
    Ret (data ++ [d])) [] (indexed (history info)).

(** ** The history of a partition *)

Section entries.
Context {V : Type}.
Implicit Types (H seen : list (entry V)) (el : entry V).

Lemma find_entry_snoc H el k i :
  find_entry (H ++ [el]) k i =
    match find_entry H k i with
    | Some x => Some x
    | None => if decide (e_kind el = k ∧ e_id el = i) then Some (length H, el) else None
    end.
Proof.
  unfold find_entry. induction H as [|x H IH]; simpl; [by case_decide|]. rewrite IH.
  destruct (decide (e_kind x = k ∧ e_id x = i)); [done|]. destruct (list_find _ H); [done|]. simpl. by case_decide.
Qed.

Lemma entry_position H (p q : nat) x y :
  NoDup ((λ e, (e_kind e, e_id e)) <$> H) → H !! p = Some x → H !! q = Some y →
  e_kind x = e_kind y → e_id x = e_id y → p = q.
Proof.
  intros Hnd Hp Hq Hk Hi. eapply (NoDup_lookup _ _ _ (e_kind x, e_id x) Hnd); rewrite list_lookup_fmap, ?Hp, ?Hq; simpl; congruence.
Qed.

(** An entry of a well-formed history: it is the first of its kind, no return comes before
    the call and a call comes before every return. *)
Lemma wf_next n H seen el rest :
  well_formed n H → H = seen ++ el :: rest →
  0 ≤ e_id el < n ∧ find_entry seen (e_kind el) (e_id el) = None ∧
  match e_kind el with
  | callEntry => find_entry seen returnEntry (e_id el) = None
  | returnEntry => ∃ p c, find_entry seen callEntry (e_id el) = Some (p, c) ∧ c ∈ H ∧ e_kind c = callEntry
  end.
Proof.
  intros Hwf HH. pose proof (wf_unique _ _ Hwf) as Hnd.
  assert (H !! length seen = Some el) as Hel by (rewrite HH; by apply list_lookup_middle).
  assert (∀ (p : nat) x, seen !! p = Some x → H !! p = Some x ∧ (p < length seen)%nat) as Hseen.
  { intros p x Hp. split; [rewrite HH; by apply lookup_app_l_Some|by eapply lookup_lt_Some]. }
  assert (∀ k (p : nat) x, find_entry seen k (e_id el) = Some (p, x) → H !! p = Some x ∧ (p < length seen)%nat ∧ e_kind x = k ∧ e_id x = e_id el) as Hfind.
  { intros k p x (Hp & [Hk Hi] & _)%list_find_Some. destruct (Hseen p x Hp). done. }
  assert (0 ≤ e_id el < n) as Hid by (eapply wf_ids; [done|by eapply list_elem_of_lookup_2]).
  destruct (wf_both _ _ Hwf _ Hid) as (p & q & c & r & Hpq & Hc & Hck & Hci & Hr & Hrk & Hri). split_and!; [lia..| |].
  - destruct (find_entry seen _ _) as [[p' x]|] eqn:Hf; [|done]. apply Hfind in Hf as (Hx & Hlt & Hk & Hi).
    assert (p' = length seen) by (by eapply (entry_position H)). lia.
  - destruct (e_kind el) eqn:Hk.
    + destruct (find_entry seen _ _) as [[q' x]|] eqn:Hf; [|done]. apply Hfind in Hf as (Hx & Hlt & Hkx & Hix).
      assert (p = length seen) by (eapply (entry_position H); [done|done|done|congruence..]).
      assert (q' = q) by (eapply (entry_position H); [done|done|done|congruence..]). lia.
    + assert (q = length seen) as -> by (eapply (entry_position H); [done|done|done|congruence..]). exists p, c.
      split_and!; [|by eapply list_elem_of_lookup_2|done].
      apply find_entry_at; [|by rewrite HH, lookup_app_l in Hc by lia|done|done].
      rewrite HH, fmap_app in Hnd. by apply NoDup_app in Hnd as [? _].
Qed.
End entries.

(** What a model needs so that its operations and states can be described. *)
Class Describable {V St} (model : Model V St) (good_input good_output : V → Prop) := {
  describe_op i o : good_input i → good_output o → ∃ s, describe (DescribeOperation model) (Some i) (Some o) = Ret s;
  describe_state σ : ∃ s, call1 (DescribeState model) σ = Ret s;
}.

Section history.
Context {V St : Type} (model : Model V St) {good_input good_output : V → Prop}.
Context {describable : Describable model good_input good_output}.
Implicit Types (H seen : list (entry V)) (hist : list historyElement).

(** An element shows the operation with the call [c] and the return [r]. *)
Definition shows (x : historyElement) (c : entry V) (r : option (entry V)) : Prop :=
  he_ClientId x = e_clientId c ∧ he_Start x = e_time c ∧
  match r with
  | Some r => he_End x = e_time r ∧ describe (DescribeOperation model) (Some (e_value c)) (Some (e_value r)) = Ret (he_Description x)
  | None => True
  end.

Record shown (n : Z) seen (s : list historyElement * gmap Z V * gmap Z V) : Prop := {
  sh_len : len s.1.1 = n;
  sh_call i : s.1.2 !! i = input_of seen i;
  sh_return i : s.2 !! i = output_of seen i;
  sh_element i p c : find_entry seen callEntry i = Some (p, c) →
    ∃ x, zlookup s.1.1 i = Some x ∧ shows x c (snd <$> find_entry seen returnEntry i);
}.

Lemma show_entry_ok n H seen el rest s :
  well_formed n H → good_entries good_input good_output H → H = seen ++ el :: rest → shown n seen s →
  ∃ s', show_entry model s el = Ret s' ∧ shown n (seen ++ [el]) s'.
Proof.
  destruct s as [[hist cv] rv]. intros Hwf Hgood HH Hs. destruct (wf_next n H seen el rest Hwf HH) as (Hid & Hnew & Hkind).
  destruct Hs as [Hlen Hcall Hret Helt]; cbn [fst snd] in *.
  assert (el ∈ H) as Hel by (rewrite HH; set_solver). pose proof (Hgood el Hel) as Hg. unfold show_entry.
  destruct (slice_get_ok hist (e_id el)) as (x & -> & Hx); [lia|]. rewrite bind_Ret.
  assert (∀ i k, e_kind el ≠ k ∨ e_id el ≠ i → find_entry (seen ++ [el]) k i = find_entry seen k i) as Hold.
  { intros i k Hne. rewrite find_entry_snoc. destruct (find_entry seen k i); [done|]. rewrite decide_False; naive_solver. }
  assert (find_entry (seen ++ [el]) (e_kind el) (e_id el) = Some (length seen, el)) as Hthis.
  { rewrite find_entry_snoc, Hnew. by rewrite decide_True. }
  destruct (e_kind el) eqn:Hk.
  - rewrite slice_set_ok, bind_Ret by lia. eexists. split; [done|]. split; cbn [fst snd].
    + by rewrite len_insert.
    + intros i. unfold input_of. destruct (decide (e_id el = i)) as [<-|Hne]; [by rewrite lookup_insert_eq, Hthis|].
      rewrite lookup_insert_ne, Hold by auto. apply Hcall.
    + intros i. unfold output_of. rewrite Hold by auto. apply Hret.
    + intros i p c. destruct (decide (e_id el = i)) as [<-|Hne].
      * rewrite Hthis. intros [= <- <-]. rewrite Hold, Hkind by auto. eexists. rewrite zlookup_insert_eq by lia. split; [done|]. by split.
      * rewrite !Hold by auto. intros Hc. destruct (Helt i p c Hc) as (y & Hy & Hshow). exists y.
        pose proof (zlookup_bounds _ _ _ Hy). rewrite zlookup_insert_ne by lia. done.
  - destruct Hkind as (p & c & Hc & HcH & Hck). pose proof (Hgood c HcH) as Hgc. rewrite Hck in Hgc.
    assert (cv !! e_id el = Some (e_value c)) as -> by (rewrite Hcall; unfold input_of; by rewrite Hc).
    destruct (describe_op (e_value c) (e_value el) Hgc Hg) as [d Hd]. rewrite Hd, bind_Ret, slice_set_ok, bind_Ret by lia.
    eexists. split; [done|]. split; cbn [fst snd].
    + by rewrite len_insert.
    + intros i. unfold input_of. rewrite Hold by auto. apply Hcall.
    + intros i. unfold output_of. destruct (decide (e_id el = i)) as [<-|Hne]; [by rewrite lookup_insert_eq, Hthis|].
      rewrite lookup_insert_ne, Hold by auto. apply Hret.
    + intros i p' c'. rewrite Hold by auto. destruct (decide (e_id el = i)) as [<-|Hne].
      * rewrite Hc, Hthis. intros [= <- <-]. destruct (Helt _ _ _ Hc) as (y & Hy & Hcl & Hst & _). rewrite Hx in Hy. injection Hy as <-.
        eexists. rewrite zlookup_insert_eq by lia. split; [done|]. by split.
      * rewrite Hold by auto. intros Hc'. destruct (Helt i p' c' Hc') as (y & Hy & Hshow). exists y.
        pose proof (zlookup_bounds _ _ _ Hy). rewrite zlookup_insert_ne by lia. done.
Qed.

Lemma show_history n H :
  well_formed n H → good_entries good_input good_output H →
  ∃ s, ofold (show_entry model) (replicate (Z.to_nat (len H / 2)) zero_element, ∅, ∅) H = Ret s ∧ shown n H s.
Proof.
  intros Hwf Hgood. pose proof (len_nonneg H) as Hpos. pose proof (wf_len _ _ Hwf) as Hl.
  apply (ofold_split_total (shown n)); [|by intros; eapply show_entry_ok].
  split; simpl; [|done..]. unfold len. rewrite length_replicate. unfold len in Hl, Hpos. rewrite Hl, Z.mul_comm, Z.div_mul by lia. lia.
Qed.
End history.

(** ** The largest partial linearization of an operation *)

(** Among the linearizations in [seen], [i] is one of the longest that have [id], of
    length [size]. *)
Definition largest_of (seen : list (list Z)) (id : Z) (size i : option Z) : Prop :=
  match size, i with
  | Some size, Some i => ∃ p, zlookup seen i = Some p ∧ id ∈ p ∧ size = len p ∧ ∀ p', p' ∈ seen → id ∈ p' → len p' ≤ len p
  | None, None => ∀ p, p ∈ seen → id ∉ p
  | _, _ => False
  end.

Definition sizes_at (m : Sizes) (seen : list (list Z)) (id : Z) : Prop := largest_of seen id (m.1 !! id) (m.2 !! id).

Lemma largest_of_other seen p id size i : id ∉ p → largest_of seen id size i → largest_of (seen ++ [p]) id size i.
Proof.
  intros Hp. destruct size as [size|], i as [i|]; simpl; [|done..|].
  - intros (p0 & Hi & Hin & -> & Hmax). exists p0. split_and!; [|done|done|].
    + rewrite zlookup_app_l; [done|]. apply zlookup_bounds in Hi; lia.
    + intros p' [?|Heq%list_elem_of_singleton]%elem_of_app; [auto|by subst].
  - intros Hno p' [?|Heq%list_elem_of_singleton]%elem_of_app; [auto|by subst].
Qed.

Lemma note_size_ne i size m id id' : id ≠ id' → (note_size i size m id).1 !! id' = m.1 !! id' ∧ (note_size i size m id).2 !! id' = m.2 !! id'.
Proof. intros Hne. destruct m as [sz ix]. unfold note_size. destruct (_ <? _); [|done]. simpl. by rewrite !lookup_insert_ne. Qed.

(** An operation of the new linearization, seen for the first or the second time. *)
Lemma note_size_eq seen p m id :
  id ∈ p → sizes_at m seen id ∨ sizes_at m (seen ++ [p]) id → sizes_at (note_size (len seen) (len p) m id) (seen ++ [p]) id.
Proof.
  intros Hid. destruct m as [sz ix]. unfold sizes_at, note_size. simpl.
  assert (zlookup (seen ++ [p]) (len seen) = Some p) as Hlast.
  { rewrite zlookup_app_r by lia. by rewrite Z.sub_diag. }
  assert (0 < len p) as Hpos by (apply len_pos; intros ->; by apply elem_of_nil in Hid).
  destruct (sz !! id) as [size|] eqn:Hs, (ix !! id) as [i|] eqn:Hi; simpl; [|naive_solver..|].
  - destruct (Z.ltb_spec size (len p)) as [Hlt|Hge]; simpl.
    + rewrite !lookup_insert_eq. simpl. intros [(p0 & _ & _ & -> & Hmax)|(p0 & _ & _ & -> & Hmax)].
      * exists p. split_and!; [done..|]. intros p' [Hin|Heq%list_elem_of_singleton]%elem_of_app Hid'; [|by subst].
        pose proof (Hmax p' Hin Hid'). lia.
      * pose proof (Hmax p ltac:(set_solver) Hid). lia.
    + rewrite Hs, Hi. intros [(p0 & Hp0 & Hin0 & -> & Hmax)|]; [|done]. exists p0. split_and!; [|done|done|].
      * rewrite zlookup_app_l; [done|]. apply zlookup_bounds in Hp0; lia.
      * intros p' [Hin|Heq%list_elem_of_singleton]%elem_of_app Hid'; [auto|subst; lia].
  - rewrite (proj2 (Z.ltb_lt _ _)) by lia. simpl. rewrite !lookup_insert_eq. simpl.
    intros [Hno|Hno]; [|exfalso; apply (Hno p); [set_solver|done]]. exists p. split_and!; [done..|].
    intros p' [Hin|Heq%list_elem_of_singleton]%elem_of_app Hid'; [by apply Hno in Hin|by subst].
Qed.

(** ** Partial linearizations *)

Section partials.
Context {V St : Type} (model : Model V St) {good_input good_output : V → Prop}.
Context {describable : Describable model good_input good_output}.
Context (inp out : Z → option V).
Implicit Types (p seen : list Z) (σ : St).

Abbreviation legal_from := (legal (call_step model) inp out).

Lemma legal_app σ p1 p2 σ' : legal_from σ (p1 ++ p2) σ' ↔ ∃ σ1, legal_from σ p1 σ1 ∧ legal_from σ1 p2 σ'.
Proof.
  revert σ. induction p1 as [|i p1 IH]; intros σ; cbn [app legal]; [naive_solver|]. setoid_rewrite IH. naive_solver.
Qed.

Lemma legal_det σ p σ1 σ2 : legal_from σ p σ1 → legal_from σ p σ2 → σ1 = σ2.
Proof.
  revert σ. induction p as [|i p IH]; intros σ; cbn [legal]; [by intros -> ->|].
  intros (τ1 & Hs1 & H1) (τ2 & Hs2 & H2). rewrite Hs1 in Hs2. injection Hs2 as <-. by eapply IH.
Qed.

(** Every step shows the state after the operations up to it. *)
Definition states_shown p (steps : list linearizationStep) : Prop :=
  ls_Index <$> steps = p ∧
  ∀ (j : nat) x, steps !! j = Some x → ∃ σ, legal_from (Init model) (take (S j) p) σ ∧ call1 (DescribeState model) σ = Ret (ls_StateDescription x).

Context (cv rv : gmap Z V) (Hcv : ∀ i, cv !! i = inp i) (Hrv : ∀ i, rv !! i = out i).

Lemma show_step_ok ps p seen id rest σ steps m :
  p = seen ++ id :: rest → (∃ σ', legal_from (Init model) p σ') → legal_from (Init model) seen σ → states_shown seen steps →
  (∀ i, sizes_at m (if decide (i ∈ seen) then ps ++ [p] else ps) i) →
  ∃ σ' steps' m', show_step model cv rv (len ps) (len p) (σ, steps, m) id = Ret (σ', steps', m') ∧
    legal_from (Init model) (seen ++ [id]) σ' ∧ states_shown (seen ++ [id]) steps' ∧
    (∀ i, sizes_at m' (if decide (i ∈ seen ++ [id]) then ps ++ [p] else ps) i).
Proof.
  intros Hp [σe Hlegal] Hseen [Hidx Hst] Hm. rewrite Hp in Hlegal. apply legal_app in Hlegal as (σ1 & H1 & (σ2 & Hstep & _)).
  pose proof (legal_det _ _ _ _ Hseen H1) as <-. unfold show_step. rewrite Hcv, Hrv, Hstep, bind_Ret. cbn [negb].
  destruct (describe_state σ2) as [d Hd]. rewrite Hd, bind_Ret. eexists _, _, _. split; [done|].
  assert (legal_from (Init model) (seen ++ [id]) σ2) as Hnext by (apply legal_app; exists σ; split; [done|]; by exists σ2).
  split_and!; [done|split|].
  - rewrite fmap_app, Hidx. done.
  - intros j x Hj. assert (length steps = length seen) as Hlen by (rewrite <-Hidx; by rewrite length_fmap).
    apply lookup_app_Some in Hj as [Hj|[Hle Hj]].
    + pose proof (lookup_lt_Some _ _ _ Hj). rewrite take_app_le by lia. by apply Hst.
    + destruct (j - length steps)%nat eqn:Hz; [|done]. injection Hj as <-. exists σ2.
      rewrite take_ge by (rewrite length_app; simpl; lia). done.
  - intros i. destruct (decide (i = id)) as [->|Hne].
    + rewrite decide_True by set_solver. apply note_size_eq; [rewrite Hp; set_solver|]. specialize (Hm id). case_decide; [by right|by left].
    + assert (i ∈ seen ++ [id] ↔ i ∈ seen) as Hiff by set_solver. specialize (Hm i). unfold sizes_at.
      destruct (note_size_ne (len ps) (len p) m id i ltac:(done)) as [-> ->]. unfold sizes_at in Hm. repeat case_decide; tauto.
Qed.

Lemma show_partial_ok ps p ls m :
  (∃ σ', legal_from (Init model) p σ') → Forall2 states_shown ps ls → (∀ i, sizes_at m ps i) →
  ∃ ls' m', show_partial model cv rv (ls, m) (len ps, p) = Ret (ls', m') ∧ Forall2 states_shown (ps ++ [p]) ls' ∧ ∀ i, sizes_at m' (ps ++ [p]) i.
Proof.
  intros Hp Hls Hm. unfold show_partial.
  destruct (ofold_split_total (λ seen '(σ, steps, m), legal_from (Init model) seen σ ∧ states_shown seen steps ∧
    ∀ i, sizes_at m (if decide (i ∈ seen) then ps ++ [p] else ps) i) (show_step model cv rv (len ps) (len p)) p (Init model, [], m))
    as ([[σ steps] m'] & -> & Hl & Hst & Hm').
  - split_and!; [done|by split|]. intros i. rewrite decide_False by (by intros ?%elem_of_nil). done.
  - intros seen id rest [[σ steps] m0] Hsplit (H1 & H2 & H3).
    destruct (show_step_ok ps p seen id rest σ steps m0 Hsplit Hp H1 H2 H3) as (σ' & steps' & m' & Hs & ? & ? & ?). by exists (σ', steps', m').
  - rewrite bind_Ret. eexists _, _. split; [done|]. split.
    + apply Forall2_app; [done|]. by apply Forall2_cons.
    + intros i. specialize (Hm' i). case_decide; [done|]. by apply largest_of_other.
Qed.
End partials.

(** ** The whole visualization *)

Lemma indexed_split {A} (l : list A) seen k x rest :
  indexed l = seen ++ (k, x) :: rest → k = len seen.*2 ∧ l = seen.*2 ++ x :: rest.*2.
Proof.
  intros Hl. split.
  - assert ((indexed l).*1 !! length seen = Some k) as Hk.
    { rewrite Hl, fmap_app. simpl. rewrite lookup_app_r, length_fmap, Nat.sub_diag by (by rewrite length_fmap). done. }
    rewrite fst_indexed in Hk. unfold zrange in Hk. apply list_lookup_fmap_Some in Hk as (j & -> & [-> _]%lookup_seq).
    unfold len. by rewrite length_fmap.
  - rewrite <-(snd_indexed l), Hl, fmap_app. done.
Qed.

(** What the data of a partition shows of its entries [H] and partial linearizations
    [ps]: every operation with its call and its return; the partial linearizations,
    longest first, with the states they go through; for every operation in one, the
    place of a longest one. *)
Definition vis_ok {V St} (model : Model V St) (H : list (entry V)) (ps : list (list Z)) (d : partitionVisualizationData) : Prop :=
  len (pv_History d) = len H / 2 ∧
  (∀ i, 0 ≤ i < len H / 2 → ∃ x p c q r, zlookup (pv_History d) i = Some x ∧ find_entry H callEntry i = Some (p, c) ∧
     find_entry H returnEntry i = Some (q, r) ∧ shows model x c (Some r)) ∧
  ∃ ps', ps' ≡ₚ ps ∧ (∀ (i j : nat) a b, ps' !! i = Some a → ps' !! j = Some b → (i < j)%nat → len b ≤ len a) ∧
    Forall2 (states_shown model (input_of H) (output_of H)) ps' (pv_PartialLinearizations d) ∧
    ∀ id, match pv_Largest d !! id with
          | Some i => ∃ p, zlookup ps' i = Some p ∧ id ∈ p ∧ ∀ p', p' ∈ ps → id ∈ p' → len p' ≤ len p
          | None => ∀ p, p ∈ ps → id ∉ p
          end.

Section partition.
Context {sorts : LengthSort} {V St : Type} (model : Model V St) {good_input good_output : V → Prop}.
Context {describable : Describable model good_input good_output}.

Lemma show_partition_ok n H ps :
  well_formed n H → good_entries good_input good_output H → Forall (partial_linearization model H) ps →
  ∃ d, show_partition model H ps = Ret d ∧ vis_ok model H ps d.
Proof.
  intros Hwf Hgood Hps. unfold show_partition.
  destruct (show_history model n H Hwf Hgood) as ([[hist cv] rv] & -> & [Hlen Hcv Hrv Helt]). simpl in *.
  destruct (ofold_split_total (λ seen '(ls, m), Forall2 (states_shown model (input_of H) (output_of H)) seen.*2 ls ∧ ∀ i, sizes_at m seen.*2 i)
    (show_partial model cv rv) (indexed (sort_partials ps)) ([], (∅, ∅))) as ([ls [sz ix]] & -> & Hls & Hm).
  - split; [done|]. intros i. unfold sizes_at. simpl. rewrite !lookup_empty. by intros p ?%elem_of_nil.
  - intros seen [k p] rest [ls m] Hsplit [Hls Hm]. apply indexed_split in Hsplit as [-> Hp].
    assert (p ∈ ps) as Hin by (rewrite <-(sort_partials_perm ps), Hp; set_solver). rewrite fmap_app.
    rewrite Forall_forall in Hps. destruct (Hps p Hin) as (_ & _ & _ & Hlegal).
    destruct (show_partial_ok model (input_of H) (output_of H) cv rv Hcv Hrv seen.*2 p ls m Hlegal Hls Hm) as (ls' & m' & Hs & ? & ?).
    by exists (ls', m').
  - rewrite !bind_Ret. eexists. split; [done|]. rewrite snd_indexed in *. split; [|split]; simpl.
    + rewrite Hlen. rewrite (wf_len _ _ Hwf), Z.mul_comm, Z.div_mul by lia. done.
    + rewrite (wf_len _ _ Hwf), Z.mul_comm, Z.div_mul by lia. intros i Hi.
      destruct (wf_entries Hwf i Hi) as (p & q & c & r & _ & Hc & Hr & _). destruct (Helt i p c Hc) as (x & Hx & Hshow).
      rewrite Hr in Hshow. exists x, p, c, q, r. done.
    + exists (sort_partials ps). split_and!; [apply sort_partials_perm|apply sort_partials_sorted|done|].
      intros id. specialize (Hm id). unfold sizes_at in Hm. simpl in Hm. rewrite <-!(sort_partials_perm ps) in *.
      destruct (sz !! id), (ix !! id) as [i|]; simpl in Hm; [|done..|].
      * destruct Hm as (p & Hi & Hid & _ & Hmax). exists p. split_and!; [done..|]. intros p'. rewrite <-(sort_partials_perm ps). apply Hmax.
      * intros p. rewrite <-(sort_partials_perm ps). apply Hm.
Qed.
End partition.

(** C20. What a verbose check of a history gathers can be shown, whatever the order in
    which the partitions are done and even if the check is cut short:
    [computeVisualizationData] does not panic, no step of a partial linearization is
    rejected by the model, and for every partition the data lists each operation with its
    client, its times and its description, each partial linearization with the states it
    goes through, and for each operation one of the longest partial linearizations that
    it is in. *)
Theorem visualization_shows {ranges : MapRange} {esorts : EntrySort} {sorts : LengthSort} {V St} `{EqDecision St, !Sprint V, !Sprint St}
    (model : Model V St) good_input good_output `{!Lawful (fillDefault model) good_input good_output}
    `{!Describable (fillDefault model) good_input good_output} (fuel : nat) arrivals late h parts timeout r :
  call1 (Partition (fillDefault model)) h = Ret parts →
  Forall (checkable (good_input := good_input) (good_output := good_output) fuel) (makeEntries <$> parts) →
  CheckOperationsVerbose fuel arrivals late model h timeout = Some r →
  ∃ res info data, r = Ret (res, info) ∧ computeVisualizationData model info = Ret data ∧
    Forall3 (vis_ok (fillDefault model)) (makeEntries <$> parts) (partialLinearizations info) data.
Proof.
  intros Hparts Hcheck Hrun. unfold CheckOperationsVerbose, checkOperations in Hrun. rewrite Hparts in Hrun.
  eapply parallel_sound in Hrun as (res & info & -> & Hinfo & _); [|done]. destruct (Hinfo eq_refl) as [Hh Hps]. clear Hinfo.
  destruct (ofold_split_total (λ seen data, Forall3 (vis_ok (fillDefault model)) seen.*2 (take (length seen) (partialLinearizations info)) data)
    (λ data '(partition, entries), partials ← slice_get (partialLinearizations info) partition;
      d ← show_partition (fillDefault model) entries partials; Ret (data ++ [d])) (indexed (history info)) []) as (data & Hd & Hok).
  - constructor.
  - intros seen [k H] rest data Hsplit Hdata. apply indexed_split in Hsplit as [-> Hhist].
    assert ((makeEntries <$> parts) !! length seen = Some H) as HH.
    { rewrite <-Hh, Hhist. rewrite <-(length_fmap snd seen). by apply list_lookup_middle. }
    destruct (Forall2_lookup_l _ _ _ _ _ Hps HH) as (ps & Hpsl & Hpart).
    destruct (Forall_lookup_1 _ _ _ _ Hcheck HH) as ((n & Hwf) & Hgood & _).
    assert (slice_get (partialLinearizations info) (len seen.*2) = Ret ps) as ->.
    { apply slice_get_Ret, zlookup_Some. unfold len. rewrite length_fmap, Nat2Z.id. split; [lia|done]. }
    rewrite bind_Ret. destruct (show_partition_ok (fillDefault model) n H ps Hwf Hgood Hpart) as (d & -> & Hvis). rewrite bind_Ret.
    eexists. split; [done|]. rewrite length_app, fmap_app. simpl. rewrite Nat.add_1_r, (take_S_r _ _ ps) by done.
    apply Forall3_app; [done|]. apply Forall3_cons; [done|apply Forall3_nil].
  - exists res, info, data. split_and!; [done|done|]. rewrite snd_indexed, Hh, take_ge in Hok; [done|].
    rewrite <-(Forall2_length _ _ _ Hps), <-(length_fmap snd (indexed _)), snd_indexed. done.
Qed.

(** ** A concrete visualization *)

#[export] Instance kv_describable {ranges : MapRange} `{!Sprint kvvalue, !Sprint string} : Describable (fillDefault KvModel) is_input is_output.
Proof. split; [|intros σ; by eexists]. intros ? ? [i ->] [o ->]. by eexists. Qed.

Section example.
#[local] Existing Instance range_default.
#[local] Existing Instance sort_default.
#[local] Instance vis_value : Sprint kvvalue := λ _, "".
#[local] Instance vis_state : Sprint string := λ s, s.

Definition longer (a b : list Z) : Prop := len b ≤ len a.

#[local] Instance longer_dec a b : Decision (longer a b).
Proof. unfold longer. apply _. Defined.

#[local] Instance length_sort_default : LengthSort.
Proof.
  refine {| sort_partials := merge_sort longer |}; [intros l; apply merge_sort_Permutation|].
  intros l i j a b Ha Hb Hij. change (longer a b). eapply StronglySorted_lookup; [|exact Ha|exact Hb|exact Hij].
  apply StronglySorted_merge_sort; [intros x y z; unfold longer; lia|intros x y; unfold longer; lia].
Defined.

(** A history that is not linearizable: the read of [b] is in no partial linearization. *)
Lemma visualization_shows_witness :
  ∃ info,
    CheckOperationsVerbose 530 (Result <$> [1; 0]%nat) (λ _ _, true) KvModel (overlapping "b") 0 = Some (Ret (Illegal, info)) ∧
    partialLinearizations info = [[[0]]; [[0]]] ∧
    computeVisualizationData KvModel info = Ret
      [mkVis [mkElement 0 0 10 "put('x', 'a')"; mkElement 1 5 20 "get('x') -> 'b'"] [[mkStep 0 "a"]] {[0 := 0]};
       mkVis [mkElement 2 1 2 "get('y') -> ''"] [[mkStep 0 ""]] {[0 := 0]}].
Proof.
  destruct (CheckOperationsVerbose 530 (Result <$> [1; 0]%nat) (λ _ _, true) KvModel (overlapping "b") 0) as [r|] eqn:E;
    [|vm_compute in E; discriminate E].
  destruct (visualization_shows KvModel is_input is_output 530 (Result <$> [1; 0]%nat) (λ _ _, true) (overlapping "b")
    [of_key "x" (overlapping "b"); of_key "y" (overlapping "b")] 0 r) as (res & info & data & -> & Hdata & _).
  - reflexivity.
  - destruct (overlapping_ok "b") as [Hty Hti].
    repeat (apply Forall_cons_2; [apply of_key_checkable; [exact Hty|exact Hti|reflexivity|vm_compute; lia]|]). apply Forall_nil_2.
  - exact E.
  - exists info. vm_compute in E. injection E as <- <-. split; [reflexivity|]. split; [reflexivity|]. vm_compute. reflexivity.
Defined.
End example.
