(* ===== verification/KvClients.v ===== *)
(** * kvraft with its clients

    Clerks of [src/src/kvraft/client.go] call the servers of [server.go], which run over
    a Raft cluster: requests and answers are lost, delayed, repeated and reordered, nodes
    crash and restart.  A handler is cut where it gives the lock up: after the look at the
    history, after [Start], and at the wait on its channel.  The wrappers of
    [src/src/kvraft/test_test.go] note when each call began and what it returned.

    [KvLinear] shows that the history so noted is linearizable. *)
From Stdlib Require Import Init.Byte.
From S2P Require Import Prelude LabGob Bitset Porcupine PorcKv.
From S2P Require Import Raft RaftVote RaftAppend RaftSnapshot RaftNode RaftSystem RaftService Dedup KvRaft KvCluster.

Open Scope list_scope.
Open Scope Z_scope.

(** ** Requests and answers *)

Inductive Request := RGet (args : GetArgs) | RPutAppend (args : PutAppendArgs).
Inductive Answer := AGet (reply : GetReply) | APutAppend (reply : PutAppendReply).

#[export] Instance GetArgs_eq_dec : EqDecision GetArgs.
Proof. solve_decision. Defined.
#[export] Instance PutAppendArgs_eq_dec : EqDecision PutAppendArgs.
Proof. solve_decision. Defined.
#[export] Instance GetReply_eq_dec : EqDecision GetReply.
Proof. solve_decision. Defined.
#[export] Instance PutAppendReply_eq_dec : EqDecision PutAppendReply.
Proof. solve_decision. Defined.
#[export] Instance Request_eq_dec : EqDecision Request.
Proof. solve_decision. Defined.
#[export] Instance Answer_eq_dec : EqDecision Answer.
Proof. solve_decision. Defined.

(** What the RPC handlers [Get] and [PutAppend] pass to [HandleOp], and their reply. *)
Definition request_op (r : Request) : KvRaft.Op :=
  match r with RGet args => Get_op args | RPutAppend args => PutAppend_op args end.

Definition answer_of (r : Request) (res : KvRaft.Result) : Answer :=
  match r with RGet _ => AGet (Get_reply res) | RPutAppend _ => APutAppend (PutAppend_reply res) end.

(** ** Clients *)

(** The calls of the tests. *)
Inductive ClientOp := CGet (key : string) | CPut (key value : string) | CAppend (key value : string).

Definition Clerk_request (ck : Clerk) (c : ClientOp) : Clerk * Request :=
  match c with
  | CGet key => let '(ck, args) := Clerk_Get_args ck key in (ck, RGet args)
  | CPut key value => let '(ck, args) := Clerk_Put_args ck key value in (ck, RPutAppend args)
  | CAppend key value => let '(ck, args) := Clerk_Append_args ck key value in (ck, RPutAppend args)
  end.

(** An iteration of the loop of the clerk: go on, or return a value. *)
Definition Clerk_step (ck : Clerk) (ok : bool) (r : Request) (a : Answer) : option (Clerk + string) :=
  match r, a with
  | RGet _, AGet reply => Some (Clerk_Get_step ck ok reply)
  | RPutAppend _, APutAppend reply =>
      Some (match Clerk_PutAppend_step ck ok reply with inl ck => inl ck | inr _ => inr ""%string end)
  | _, _ => None
  end.

(** The reply of a call that failed. *)
Definition no_answer (r : Request) : Answer :=
  match r with RGet _ => AGet (mkGetReply "" "") | RPutAppend _ => APutAppend (mkPutAppendReply "") end.

(** What the wrappers put in the history. *)
Definition input_of (r : Request) : KvInput :=
  match r with
  | RGet args => mkKvInput 0 (ga_Key args) ""
  | RPutAppend args =>
      mkKvInput (if bool_decide (pa_Op args = "Put"%string) then 1 else 2) (pa_Key args) (pa_Value args)
  end.

Definition operation (id : Z) (r : Request) (start : Z) (value : string) (end_ : Z) : Operation kvvalue :=
  mkOperation id (VInput (input_of r)) start (VOutput (mkKvOutput value)) end_.

(** A client, with the request it is in and the time of its call. *)
Record Client := mkClient { cl_ck : Clerk; cl_call : option (Request * Z) }.

(** ** Handlers *)

(** Before [Start], before the channel is registered, at the channel. *)
Inductive HPhase := HStart | HRegister (startIndex startTerm : Z) | HWait (startIndex startTerm ch : Z).

Record Handler := mkHandler { h_server : Z; h_request : Request; h_phase : HPhase }.

(** ** The system *)

Record World := mkWorld {
  w_cluster : Cluster KvRaft.Op KVServer;
  w_clients : gmap Z Client;
  w_requests : list Request;
  w_handlers : list Handler;
  w_mail : list (Z * KvRaft.Result);   (* sent on the channels of handlers *)
  w_chans : Z;                         (* channels made *)
  w_answers : list (Request * Answer);
  w_now : Z;
  w_history : list (Operation kvvalue);
}.

Definition eta_World (w : World) : World :=
  mkWorld (w_cluster w) (w_clients w) (w_requests w) (w_handlers w) (w_mail w) (w_chans w) (w_answers w) (w_now w) (w_history w).

#[global] Instance set_w_cluster : Setter w_cluster := λ f x, ltac:(solve_setter eta_World w_cluster f x).
#[global] Instance set_w_clients : Setter w_clients := λ f x, ltac:(solve_setter eta_World w_clients f x).
#[global] Instance set_w_requests : Setter w_requests := λ f x, ltac:(solve_setter eta_World w_requests f x).
#[global] Instance set_w_handlers : Setter w_handlers := λ f x, ltac:(solve_setter eta_World w_handlers f x).
#[global] Instance set_w_mail : Setter w_mail := λ f x, ltac:(solve_setter eta_World w_mail f x).
#[global] Instance set_w_chans : Setter w_chans := λ f x, ltac:(solve_setter eta_World w_chans f x).
#[global] Instance set_w_answers : Setter w_answers := λ f x, ltac:(solve_setter eta_World w_answers f x).
#[global] Instance set_w_now : Setter w_now := λ f x, ltac:(solve_setter eta_World w_now f x).
#[global] Instance set_w_history : Setter w_history := λ f x, ltac:(solve_setter eta_World w_history f x).

Inductive WEvent :=
| WTick (d : nat)                          (* time passes *)
| WClerk (id : Z)                          (* [MakeClerk], with a new random identifier *)
| WCall (id : Z) (c : ClientOp)            (* a client calls its clerk *)
| WReceive (i : Z) (r : Request)           (* server [i] gets a request that was sent *)
| WStart (k : nat) (now : Z)               (* handler [k] calls [Start] *)
| WRegister (k : nat)                      (* handler [k] registers its channel *)
| WWake (k : nat) (wk : Wakeup)            (* handler [k] stops waiting *)
| WApply (i : Z)                           (* [ApplyHandler] of server [i] takes a message *)
| WCluster (e : ClusterEvent KvRaft.Op unit KvOther)
| WReply (id : Z) (a : Answer)             (* an answer reaches a clerk *)
| WLost (id : Z).                          (* [Call] returns false *)

Section system.
Context {gob : Gob KvGob} {rgob : Gob (RaftGob KvRaft.Op)} (nservers maxraftstate : Z).
#[local] Existing Instance kv_machine.
Implicit Types w : World.

(** The events of the cluster that are none of the handlers' and of [ApplyHandler]. *)
Definition own_event (e : ClusterEvent KvRaft.Op unit KvOther) : bool :=
  match e with
  | CRaft (EStart _ _ _) | CApply _ _ | COther _ _ => false
  | _ => true
  end.

(** A crash takes the handlers of the server with it. *)
Definition survives (e : ClusterEvent KvRaft.Op unit KvOther) (h : Handler) : Prop :=
  match e with CRestart i _ _ => h_server h ≠ i | _ => True end.

#[local] Instance survives_dec e h : Decision (survives e h).
Proof. destruct e; simpl; apply _. Defined.

(** The clerk of client [id] looks at an answer. *)
Definition clerk_turn w (id : Z) (ok : bool) (answer : Request → option Answer) : option World :=
  cl ← w_clients w !! id;
  '(r, start) ← cl_call cl;
  a ← answer r;
  res ← Clerk_step (cl_ck cl) ok r a;
  Some (match res with
        | inl ck => w <| w_clients := <[id := mkClient ck (Some (r, start))]> (w_clients w) |>
        | inr value =>
            w <| w_clients := <[id := mkClient (cl_ck cl) None]> (w_clients w) |>
              <| w_history := w_history w ++ [operation id r start value (w_now w)] |>
        end).

Definition wexec (e : WEvent) w : option World :=
  match e with
  | WTick d => Some (w <| w_now := w_now w + Z.of_nat d |>)
  | WClerk id =>
      if decide (w_clients w !! id = None)
      then Some (w <| w_clients := <[id := mkClient (MakeClerk nservers id) None]> (w_clients w) |>) else None
  | WCall id c =>
      cl ← w_clients w !! id;
      match cl_call cl with
      | Some _ => None
      | None =>
          let '(ck, r) := Clerk_request (cl_ck cl) c in
          Some (w <| w_clients := <[id := mkClient ck (Some (r, w_now w))]> (w_clients w) |>
                  <| w_requests := w_requests w ++ [r] |>)
      end
  | WReceive i r =>
      '(kv, _) ← replicas (w_cluster w) !! i;
      if decide (r ∈ w_requests w) then
        Some (match HandleOp_history kv (request_op r) with
              | Some his => w <| w_answers := (r, answer_of r his) :: w_answers w |>
              | None => w <| w_handlers := w_handlers w ++ [mkHandler i r HStart] |>
              end)
      else None
  | WStart k now =>
      h ← w_handlers w !! k;
      rf ← nodes (raft (w_cluster w)) !! h_server h;
      match h_phase h with
      | HStart =>
          let op := Some (request_op (h_request h)) in
          '(_, (startIndex, startTerm, isLeader)) ← of_outcome (Start now rf op);
          c ← cluster_exec (sm := kv_machine maxraftstate) (CRaft (EStart (h_server h) now op)) (w_cluster w);
          Some (if negb isLeader
                then w <| w_cluster := c |> <| w_handlers := delete k (w_handlers w) |>
                       <| w_answers := (h_request h, answer_of (h_request h) (mkResult 0 ErrNotLeader "" 0)) :: w_answers w |>
                else w <| w_cluster := c |>
                       <| w_handlers := <[k := mkHandler (h_server h) (h_request h) (HRegister startIndex startTerm)]> (w_handlers w) |>)
      | _ => None
      end
  | WRegister k =>
      h ← w_handlers w !! k;
      match h_phase h with
      | HRegister startIndex startTerm =>
          c ← cluster_exec (sm := kv_machine maxraftstate) (COther (h_server h) (KvRegister startIndex (w_chans w))) (w_cluster w);
          Some (w <| w_cluster := c |> <| w_chans := w_chans w + 1 |>
                  <| w_handlers := <[k := mkHandler (h_server h) (h_request h) (HWait startIndex startTerm (w_chans w))]> (w_handlers w) |>)
      | _ => None
      end
  | WWake k wk =>
      h ← w_handlers w !! k;
      match h_phase h with
      | HWait startIndex startTerm ch =>
          if match wk with Received msg => bool_decide ((ch, msg) ∈ w_mail w) | _ => true end then
            c ← cluster_exec (sm := kv_machine maxraftstate) (COther (h_server h) (KvCleanup startIndex)) (w_cluster w);
            Some (w <| w_cluster := c |> <| w_handlers := delete k (w_handlers w) |>
                    <| w_answers := (h_request h, answer_of (h_request h) (HandleOp_result startTerm wk)) :: w_answers w |>)
          else None
      | _ => None
      end
  | WApply i =>
      rf ← nodes (raft (w_cluster w)) !! i;
      '(kv, taken) ← replicas (w_cluster w) !! i;
      msg ← applyCh rf !! taken;
      c ← cluster_exec (sm := kv_machine maxraftstate) (CApply i tt) (w_cluster w);
      '(_, sent) ← of_outcome (ApplyHandler_command kv msg);
      Some (w <| w_cluster := c |> <| w_mail := option_list sent ++ w_mail w |>)
  | WCluster e =>
      if own_event e then
        c ← cluster_exec (sm := kv_machine maxraftstate) e (w_cluster w);
        Some (w <| w_cluster := c |> <| w_handlers := filter (survives e) (w_handlers w) |>)
      else None
  | WReply id a => clerk_turn w id true (λ r, if decide ((r, a) ∈ w_answers w) then Some a else None)
  | WLost id => clerk_turn w id false (λ r, Some (no_answer r))
  end.

Fixpoint wrun (es : list WEvent) w : option World :=
  match es with [] => Some w | e :: es => w' ← wexec e w; wrun es w' end.

Definition world_init (rnd : Z → Z) (now : Z) : World :=
  mkWorld (cluster_init (sm := kv_machine maxraftstate) nservers rnd now) ∅ [] [] [] 0 [] 0 [].

Definition world_reachable w : Prop := ∃ rnd now es, wrun es (world_init rnd now) = Some w.
End system.
