(* ===== verification/KvLinear.v ===== *)
(** * kvraft: the clients see one store

    The history that the clients of a kvraft cluster note, whatever the network and the
    nodes do, is linearizable as a key-value store: [CheckOperations] of
    [src/src/porcupine] with [KvModel] of [src/src/models] accepts it.

    The order is that of the operations executed from the log.  The invariant keeps
    [lin], the longest sequence of committed operations that a server had executed when
    it answered a request from its history, and [D], the completed requests with what was
    noted of them. *)
From Stdlib Require Import Init.Byte.
From S2P Require Import Prelude LabGob Bitset Porcupine PorcSpec PorcOps PorcCheck PorcKv.
From S2P Require Import Raft RaftVote RaftAppend RaftSnapshot RaftNode RaftFrames RaftSystem RaftElection RaftLog.
From S2P Require Import RaftGhost RaftInvariant RaftSteps RaftSafety RaftService Dedup KvRaft KvCluster KvClients.

Open Scope list_scope.
Open Scope Z_scope.

(** ** The executed operations *)

(** The operations executed from a log, with their results. *)
Definition effective (ops : list KvRaft.Op) : list (KvRaft.Op * KvRaft.Result) := outcomes ∅ (executed ∅ ops).

Lemma effective_prefix ops ops' : ops `prefix_of` ops' → effective ops `prefix_of` effective ops'.
Proof. intros. by apply outcomes_prefix, executed_prefix. Qed.

Lemma effective_lookup ops (a : nat) o res : effective ops !! a = Some (o, res) → executed ∅ ops !! a = Some o.
Proof. intros H. rewrite <-(outcomes_fst ∅ (executed ∅ ops)), list_lookup_fmap. unfold effective in H. by rewrite H. Qed.

(** What the call of a request returns. *)
Definition value_of (r : Request) (res : KvRaft.Result) : string :=
  match r with RGet _ => KvRaft.Value res | RPutAppend _ => "" end.

Definition rid (r : Request) : Z := Identifier (request_op r).
Definition rseq (r : Request) : Z := Seq (request_op r).

(** The errors that make a clerk try again. *)
Definition retry_err (e : Err) : Prop := e ∈ [ErrNotLeader; ErrLeaderOutDated; ErrChanClose; ErrHandleOpTimeOut].

Definition retry (a : Answer) : Prop :=
  match a with AGet reply => retry_err (gr_Err reply) | APutAppend reply => retry_err (pr_Err reply) end.

Lemma retry_result r res : retry_err (res_Err res) → retry (answer_of r res).
Proof. by destruct r. Qed.

Lemma Clerk_step_retry ck ok r a v : retry a → Clerk_step ck ok r a ≠ Some (inr v).
Proof.
  unfold retry, retry_err. destruct r, a; simpl; try done; rewrite !elem_of_cons, elem_of_nil; intros Ha.
  - unfold Clerk_Get_step. destruct Ha as [->|[->|[->|[->|[]]]]]; by destruct ok.
  - unfold Clerk_PutAppend_step. destruct Ha as [->|[->|[->|[->|[]]]]]; by destruct ok.
Qed.

Lemma Clerk_step_lost ck r v : Clerk_step ck false r (no_answer r) ≠ Some (inr v).
Proof. by destruct r. Qed.

Lemma Clerk_step_value ck r res v : Clerk_step ck true r (answer_of r res) = Some (inr v) → v = value_of r res.
Proof.
  destruct r; simpl; [unfold Clerk_Get_step; simpl; repeat case_bool_decide; by intros [= <-]|].
  unfold Clerk_PutAppend_step. simpl. repeat case_bool_decide; by intros [= <-].
Qed.

(** Going on changes only the server asked next. *)
Lemma Clerk_step_on ck ok r a ck' :
  Clerk_step ck ok r a = Some (inl ck') → ck_identifier ck' = ck_identifier ck ∧ ck_seq ck' = ck_seq ck.
Proof.
  unfold Clerk_step, Clerk_Get_step, Clerk_PutAppend_step.
  destruct r, a; [|done|done|]; repeat case_match; intros [= <-]; simplify_eq; done.
Qed.

(** Where an operation was executed. *)
Lemma executed_position ops (a b : nat) o1 o2 :
  executed ∅ ops !! a = Some o1 → executed ∅ ops !! b = Some o2 →
  Identifier o1 = Identifier o2 → Seq o1 = Seq o2 → a = b.
Proof. intros H1 H2 Hi Hs. by apply (executed_once ∅ ops a b o1 o2). Qed.

(** ** Executions on a map are steps of the model *)

Lemma execute_step m m' r :
  same_store m m' →
  ∃ m1, map_step m' (Some (VInput (input_of r))) (Some (VOutput (mkKvOutput (value_of r (DBExecute m (request_op r)).2)))) = Ret (true, m1) ∧
    same_store (DBExecute m (request_op r)).1 m1.
Proof.
  intros Hm. destruct r as [args|args]; simpl; unfold DBExecute, kv_op; simpl.
  - pose proof (Hm (ga_Key args)) as Hk. destruct (m !! ga_Key args) as [v|] eqn:E; simpl in *; rewrite bool_decide_true by done;
      (eexists; split; [done|]); by apply same_store_read.
  - case_bool_decide; simpl; [eexists; split; [done|]; by apply same_store_insert|].
    pose proof (Hm (pa_Key args)) as Hk. destruct (m !! pa_Key args) as [v|]; simpl in *; rewrite <-Hk;
      (eexists; split; [done|]); by apply same_store_insert.
Qed.

(** An operation of the history with what was executed for it. *)
Definition noted (p : KvRaft.Op * KvRaft.Result) (x : Request * Operation kvvalue) : Prop :=
  p.1 = request_op x.1 ∧ Input x.2 = VInput (input_of x.1) ∧ Output x.2 = VOutput (mkKvOutput (value_of x.1 p.2)).

Lemma noted_legal os l m m' :
  same_store m m' → Forall2 noted (outcomes m os) l → ∃ m1, legal_ops map_step m' l.*2 m1.
Proof.
  revert l m m'. induction os as [|o os IH]; intros l m m' Hm HF; simpl in HF.
  { apply Forall2_nil_inv_l in HF as ->. by exists m'. }
  apply Forall2_cons_inv_l in HF as ([r h] & l' & (Ho & Hi & Hout) & HF & ->). simpl in *. subst o.
  destruct (execute_step m m' r Hm) as (m1 & Hst & Hm1).
  destruct (IH l' _ _ Hm1 HF) as (m2 & Hl). exists m2. cbn [legal_ops fmap list_fmap]. exists m1.
  simpl. rewrite Hi, Hout. split; [done|exact Hl].
Qed.

(** ** Linearizations *)

(** Requests with the same number are the same. *)
Definition unique (rs : list Request) : Prop :=
  ∀ r r', r ∈ rs → r' ∈ rs → rid r = rid r' → rseq r = rseq r' → r = r'.

Lemma choose_noted lin (E : list (Request * Operation kvvalue)) ps :
  (∀ p, p ∈ ps → p ∈ effective lin) → (∀ p, p ∈ effective lin → ∃ x, x ∈ E ∧ noted p x) →
  ∃ l, Forall2 noted ps l ∧ ∀ x, x ∈ l → x ∈ E.
Proof.
  intros Hps Hall. induction ps as [|p ps IH]; [exists []; split; [done|by intros ? ?%elem_of_nil]|].
  destruct IH as (l & HF & Hl); [intros; apply Hps; by right|].
  destruct (Hall p) as (x & Hx & Hn); [apply Hps; by left|]. exists (x :: l). split; [by constructor|].
  intros y [->|?]%elem_of_cons; auto.
Qed.

(** Requests noted in the order of the executions make a linearization. *)
Lemma executions_linearize lin (E : list (Request * Operation kvvalue)) :
  NoDup E.*1 → unique E.*1 →
  (∀ p, p ∈ effective lin → ∃ x, x ∈ E ∧ noted p x) →
  (∀ x, x ∈ E → request_op x.1 ∈ executed ∅ lin) →
  (∀ x y (a b : nat), x ∈ E → y ∈ E → Return x.2 < Call y.2 →
     executed ∅ lin !! a = Some (request_op x.1) → executed ∅ lin !! b = Some (request_op y.1) → (a < b)%nat) →
  kv_linearizable E.*2.
Proof.
  intros Hnd Huniq Hex Hin Hord. destruct (choose_noted lin E (effective lin)) as (l & HF & HlE); [done|done|].
  assert (∀ (a : nat) x, l !! a = Some x → executed ∅ lin !! a = Some (request_op x.1)) as Hpos.
  { intros a x Hx. destruct (Forall2_lookup_r _ _ _ _ _ HF Hx) as ([o res] & Ho & Eo & _). simpl in Eo. subst o.
    by eapply effective_lookup. }
  assert (l ≡ₚ E) as Hperm.
  { apply keyed_perm; [|done|done|].
    - apply NoDup_alt. intros a b r Ha Hb. rewrite list_lookup_fmap in Ha, Hb.
      destruct (l !! a) as [x|] eqn:Hx; [|done]. destruct (l !! b) as [y|] eqn:Hy; [|done]. simplify_eq/=.
      eapply executed_position; [by apply Hpos|by apply Hpos|congruence..].
    - intros r (x & -> & Hx)%list_elem_of_fmap. destruct (list_elem_of_lookup_1 _ _ (Hin x Hx)) as [a Ha].
      rewrite <-(outcomes_fst ∅ (executed ∅ lin)), list_lookup_fmap in Ha. fold (effective lin) in Ha.
      destruct (effective lin !! a) as [[o res]|] eqn:Hp; [|done]. injection Ha as ->.
      destruct (Forall2_lookup_l _ _ _ _ _ HF Hp) as (y & Hy & Ho & _). simpl in Ho.
      pose proof (list_elem_of_lookup_2 _ _ _ Hy) as Hyl.
      assert (x.1 = y.1) as ->; [|by apply list_elem_of_fmap_2].
      apply Huniq; [by apply list_elem_of_fmap_2|by apply list_elem_of_fmap_2, HlE|unfold rid; congruence|unfold rseq; congruence]. }
  destruct (noted_legal (executed ∅ lin) l ∅ ∅) as (m1 & Hl); [done|exact HF|].
  apply linearizable_ops. exists l.*2, m1. split_and!; [by rewrite Hperm| |exact Hl].
  apply StronglySorted_lookup. intros a b h1 h2 Ha Hb Hab.
  rewrite list_lookup_fmap in Ha, Hb.
  destruct (l !! a) as [x|] eqn:Hx; [|done]. destruct (l !! b) as [y|] eqn:Hy; [|done]. simplify_eq/=.
  unfold may_precede. apply Z.nlt_ge. intros Hlt.
  assert (b < a)%nat; [|lia]. eapply (Hord y x); [| |done|by apply Hpos..].
  - rewrite <-Hperm. by eapply list_elem_of_lookup_2.
  - rewrite <-Hperm. by eapply list_elem_of_lookup_2.
Qed.

(** ** The clients *)

(** The time of the call of a request. *)
Definition called (cls : gmap Z Client) (D : list (Request * Operation kvvalue)) (r : Request) (t : Z) : Prop :=
  (∃ h, (r, h) ∈ D ∧ Call h = t) ∨ ∃ cl, cls !! rid r = Some cl ∧ cl_call cl = Some (r, t).

Record clients_ok (lin : list KvRaft.Op) (w : World) (D : list (Request * Operation kvvalue)) : Prop := {
  co_history : w_history w = D.*2;
  co_client id cl : w_clients w !! id = Some cl →
    ck_identifier (cl_ck cl) = id ∧ 0 ≤ ck_seq (cl_ck cl) ≤ len (w_requests w);
  co_request r : r ∈ w_requests w → ∃ cl, w_clients w !! rid r = Some cl ∧ 0 ≤ rseq r < ck_seq (cl_ck cl);
  co_unique : unique (w_requests w);
  co_busy id cl r t : w_clients w !! id = Some cl → cl_call cl = Some (r, t) →
    r ∈ w_requests w ∧ rid r = id ∧ t ≤ w_now w ∧ r ∉ D.*1;
  co_done r h : (r, h) ∈ D → r ∈ w_requests w ∧
    ∃ t0 t1 res, h = operation (rid r) r t0 (value_of r res) t1 ∧ t0 ≤ t1 ≤ w_now w ∧ (request_op r, res) ∈ effective lin;
  co_nodup : NoDup D.*1;
  co_issued r : r ∈ w_requests w → r ∈ D.*1 ∨ ∃ cl t, w_clients w !! rid r = Some cl ∧ cl_call cl = Some (r, t);
  co_lin o : o ∈ executed ∅ lin → ∃ r, r ∈ w_requests w ∧ o = request_op r;
  co_order r1 h1 r2 t2 (a b : nat) : (r1, h1) ∈ D → called (w_clients w) D r2 t2 → Return h1 < t2 →
    executed ∅ lin !! a = Some (request_op r1) → executed ∅ lin !! b = Some (request_op r2) → (a < b)%nat;
}.

Lemma called_past lin w D r t : clients_ok lin w D → called (w_clients w) D r t → t ≤ w_now w.
Proof.
  intros Hok [(h & Hh & <-)|(cl & Hcl & Hc)]; [|by destruct (co_busy _ _ _ Hok _ _ _ _ Hcl Hc) as (_ & _ & ? & _)].
  destruct (co_done _ _ _ Hok _ _ Hh) as (_ & t0 & t1 & res & -> & ? & _). simpl. lia.
Qed.

(** Only the clients, the requests, the time and the history matter. *)
Lemma clients_ok_same lin w w' D :
  w_clients w' = w_clients w → w_requests w' = w_requests w → w_now w ≤ w_now w' → w_history w' = w_history w →
  clients_ok lin w D → clients_ok lin w' D.
Proof.
  intros Ec Er En Eh Hok. pose proof Hok as [].
  split; rewrite ?Ec, ?Er, ?Eh; try done.
  - intros id cl r t Hcl Hc. destruct (co_busy0 id cl r t Hcl Hc) as (?&?&?&?). split_and!; [done|done|lia|done].
  - intros r h Hh. destruct (co_done0 r h Hh) as (? & t0 & t1 & res & ? & ? & ?). split; [done|].
    exists t0, t1, res. split_and!; [done|lia..|done].
Qed.

(** More operations are known to be committed. *)
Lemma clients_ok_grow lin lin' w D :
  lin `prefix_of` lin' → (∀ o, o ∈ executed ∅ lin' → ∃ r, r ∈ w_requests w ∧ o = request_op r) →
  clients_ok lin w D → clients_ok lin' w D.
Proof.
  intros Hp Hall Hok. pose proof Hok as []. pose proof (executed_prefix ∅ _ _ Hp) as He. split; try done.
  - intros r h Hh. destruct (co_done0 r h Hh) as (? & t0 & t1 & res & ? & ? & Hin). split; [done|].
    exists t0, t1, res. split_and!; [done|lia..|]. destruct (effective_prefix _ _ Hp) as [k ->]. apply elem_of_app. by left.
  - intros r1 h1 r2 t2 a b H1 H2 Hlt Ha Hb.
    destruct (co_done0 _ _ H1) as (_ & _ & _ & res & _ & _ & [x Hx]%list_elem_of_lookup). apply effective_lookup in Hx.
    assert (a = x) as ->.
    { eapply executed_position; [exact Ha| |done|done]. destruct He as [k ->]. by apply lookup_app_l_Some. }
    destruct (decide (b < length (executed ∅ lin))%nat) as [Hlb|Hlb].
    + eapply co_order0; [done..| |]; [exact Hx|]. destruct He as [k Hk]. rewrite Hk in Hb. by rewrite lookup_app_l in Hb.
    + apply lookup_lt_Some in Hx. lia.
Qed.

Lemma clients_ok_make lin w D n id :
  clients_ok lin w D → w_clients w !! id = None →
  clients_ok lin (w <| w_clients := <[id := mkClient (MakeClerk n id) None]> (w_clients w) |>) D.
Proof.
  intros Hok Hid. pose proof Hok as []. pose proof (len_nonneg (w_requests w)) as H0.
  assert (∀ r t, called (<[id := mkClient (MakeClerk n id) None]> (w_clients w)) D r t → called (w_clients w) D r t) as Hcalled.
  { intros r t [?|(cl & [[_ <-]|[_ ?]]%lookup_insert_Some & Hc)]; [by left|done|right; by exists cl]. }
  split; simpl; try done.
  - intros id' cl [[<- <-]|[_ ?]]%lookup_insert_Some; [simpl; lia|by apply co_client0].
  - intros r (cl & Hcl & ?)%co_request0. exists cl. split; [|done]. rewrite lookup_insert_ne; [done|congruence].
  - intros id' cl r t [[<- <-]|[_ ?]]%lookup_insert_Some; [done|by eapply co_busy0].
  - intros r [?|(cl & t & Hcl & ?)]%co_issued0; [by left|right]. exists cl, t. split; [|done].
    rewrite lookup_insert_ne; [done|congruence].
  - intros r1 h1 r2 t2 a b H1 H2%Hcalled. by eapply co_order0.
Qed.

(** A request carries the identifier of its clerk and the next number. *)
Lemma Clerk_request_spec ck c ck' r :
  Clerk_request ck c = (ck', r) → ck_seq ck + 1 < 2 ^ 64 → 0 ≤ ck_seq ck →
  rid r = ck_identifier ck ∧ rseq r = ck_seq ck ∧ ck_identifier ck' = ck_identifier ck ∧ ck_seq ck' = ck_seq ck + 1.
Proof.
  intros H Hlt H0. destruct c; injection H as <- <-; unfold rid, rseq; simpl; (split_and!; [done..|]); by rewrite Z.mod_small by lia.
Qed.

Lemma clients_ok_call lin w D id cl c ck r :
  clients_ok lin w D → w_clients w !! id = Some cl → cl_call cl = None → Clerk_request (cl_ck cl) c = (ck, r) →
  len (w_requests w) + 1 < 2 ^ 64 →
  clients_ok lin (w <| w_clients := <[id := mkClient ck (Some (r, w_now w))]> (w_clients w) |>
                    <| w_requests := w_requests w ++ [r] |>) D.
Proof.
  intros Hok Hid Hidle Hreq Hlt. pose proof Hok as []. destruct (co_client0 _ _ Hid) as [Hck Hseq].
  destruct (Clerk_request_spec _ _ _ _ Hreq) as (Hrid & Hrs & Hck' & Hseq'); [lia..|]. rewrite Hck in Hrid, Hck'.
  assert (∀ r', r' ∈ w_requests w → rid r' = rid r → rseq r' ≠ rseq r) as Hnew.
  { intros r' (cl' & Hcl' & Hr')%co_request0 Heq. rewrite Heq, Hrid, Hid in Hcl'. injection Hcl' as <-. lia. }
  assert (r ∉ D.*1) as HrD.
  { intros ([r' h] & -> & Hin)%list_elem_of_fmap. destruct (co_done0 _ _ Hin) as [Hin' _]. by eapply Hnew. }
  assert (∀ o, o ∈ executed ∅ lin → o ≠ request_op r) as Hnex.
  { intros o (r' & Hr' & ->)%co_lin0 Heq. eapply (Hnew r' Hr'); unfold rid, rseq; by rewrite Heq. }
  split; simpl; rewrite ?len_app; try done.
  - intros id' cl' [[<- <-]|[_ ?]]%lookup_insert_Some; simpl.
    + change (len [r]) with 1. lia.
    + destruct (co_client0 id' cl') as [? ?]; [done|]. change (len [r]) with 1. split; [done|lia].
  - intros r' [Hr'| ->%list_elem_of_singleton]%elem_of_app.
    + destruct (co_request0 _ Hr') as (cl' & Hcl' & ?). destruct (decide (rid r' = id)) as [E|].
      * eexists. rewrite E, lookup_insert_eq. split; [done|]. simpl. rewrite E, Hid in Hcl'. injection Hcl' as <-. lia.
      * exists cl'. by rewrite lookup_insert_ne.
    + eexists. rewrite Hrid, lookup_insert_eq. split; [done|]. simpl. lia.
  - intros r1 r2 [H1| ->%list_elem_of_singleton]%elem_of_app [H2| ->%list_elem_of_singleton]%elem_of_app Hi Hs; [by apply co_unique0| | |done].
    + by destruct (Hnew r1 H1 Hi).
    + symmetry in Hi, Hs. by destruct (Hnew r2 H2 Hi).
  - intros id' cl' r' t [[<- <-]|[_ Hc]]%lookup_insert_Some Hcall; simpl in *.
    + injection Hcall as <- <-. split_and!; [apply elem_of_app; right; by left|done|done|done].
    + destruct (co_busy0 _ _ _ _ Hc Hcall) as (?&?&?&?). split_and!; [apply elem_of_app; by left|done..].
  - intros r' h Hh. destruct (co_done0 _ _ Hh) as [? Hrest]. split; [apply elem_of_app; by left|done].
  - intros r' [Hr'| ->%list_elem_of_singleton]%elem_of_app.
    + destruct (co_issued0 _ Hr') as [?|(cl' & t & Hcl' & Hc)]; [by left|right]. exists cl', t. split; [|done].
      rewrite lookup_insert_ne; [done|]. intros E. rewrite <-E, Hid in Hcl'. congruence.
    + right. eexists _, (w_now w). rewrite Hrid, lookup_insert_eq. by split.
  - intros o (r' & ? & ?)%co_lin0. exists r'. split; [apply elem_of_app; by left|done].
  - intros r1 h1 r2 t2 a b H1 H2 Hr Ha Hb. destruct (decide (r2 = r)) as [->|Hne].
    + apply list_elem_of_lookup_2, Hnex in Hb. done.
    + eapply (co_order0 r1 h1 r2 t2); [done| |done..]. destruct H2 as [?|(cl' & Hcl' & Hc)]; [by left|right].
      exists cl'. split; [|done]. apply lookup_insert_Some in Hcl' as [[_ <-]|[_ ?]]; [|done]. simpl in Hc. congruence.
Qed.

(** The clerk tries again. *)
Lemma clients_ok_on lin w D id cl ck :
  clients_ok lin w D → w_clients w !! id = Some cl → ck_identifier ck = ck_identifier (cl_ck cl) → ck_seq ck = ck_seq (cl_ck cl) →
  clients_ok lin (w <| w_clients := <[id := mkClient ck (cl_call cl)]> (w_clients w) |>) D.
Proof.
  intros Hok Hid Hi Hs. pose proof Hok as []. set (cl1 := mkClient ck (cl_call cl)).
  assert (∀ id' cl', <[id := cl1]> (w_clients w) !! id' = Some cl' → ∃ cl0, w_clients w !! id' = Some cl0 ∧ cl_call cl' = cl_call cl0 ∧
    ck_identifier (cl_ck cl') = ck_identifier (cl_ck cl0) ∧ ck_seq (cl_ck cl') = ck_seq (cl_ck cl0)) as Hback.
  { intros id' cl' [[<- <-]|[_ ?]]%lookup_insert_Some; [by exists cl|by exists cl']. }
  assert (∀ id' cl0, w_clients w !! id' = Some cl0 → ∃ cl', <[id := cl1]> (w_clients w) !! id' = Some cl' ∧ cl_call cl' = cl_call cl0 ∧
    ck_seq (cl_ck cl') = ck_seq (cl_ck cl0)) as Hforth.
  { intros id' cl0 H0. destruct (decide (id' = id)) as [->|]; [|exists cl0; by rewrite lookup_insert_ne].
    exists cl1. rewrite lookup_insert_eq. rewrite Hid in H0. by injection H0 as <-. }
  split; simpl; try done.
  - intros id' cl' (cl0 & H0 & _ & -> & ->)%Hback. by apply co_client0.
  - intros r (cl0 & (cl' & ? & _ & Hs')%Hforth & ?)%co_request0. exists cl'. by rewrite Hs'.
  - intros id' cl' r t (cl0 & H0 & -> & _)%Hback. by apply co_busy0.
  - intros r [?|(cl0 & t & (cl' & ? & Hc' & _)%Hforth & ?)]%co_issued0; [by left|right]. exists cl', t. by rewrite Hc'.
  - intros r1 h1 r2 t2 a b H1 H2. eapply co_order0; [done|]. destruct H2 as [?|(cl' & (cl0 & ? & E & _)%Hback & Hc)]; [by left|right].
    exists cl0. by rewrite <-E.
Qed.

(** The call returns. *)
Lemma clients_ok_done lin w D id cl r t0 res :
  clients_ok lin w D → w_clients w !! id = Some cl → cl_call cl = Some (r, t0) → (request_op r, res) ∈ effective lin →
  let h := operation id r t0 (value_of r res) (w_now w) in
  clients_ok lin (w <| w_clients := <[id := mkClient (cl_ck cl) None]> (w_clients w) |> <| w_history := w_history w ++ [h] |>)
    (D ++ [(r, h)]).
Proof.
  intros Hok Hid Hc Hres h. pose proof Hok as []. destruct (co_busy0 _ _ _ _ Hid Hc) as (Hr & Hrid & Ht & HrD).
  assert (∀ r' t, called (<[id := mkClient (cl_ck cl) None]> (w_clients w)) (D ++ [(r, h)]) r' t → called (w_clients w) D r' t) as Hcalled.
  { intros r' t [(h' & [Hin|[= -> ->]%list_elem_of_singleton]%elem_of_app & <-)|(cl' & [[_ <-]|[_ ?]]%lookup_insert_Some & Hc')].
    - left. by exists h'.
    - right. exists cl. by rewrite Hrid.
    - done.
    - right. by exists cl'. }
  split; simpl; try done.
  - by rewrite co_history0, fmap_app.
  - intros id' cl' [[<- <-]|[_ ?]]%lookup_insert_Some; [by apply (co_client0 id cl)|by apply co_client0].
  - intros r' (cl' & Hcl' & ?)%co_request0. destruct (decide (rid r' = id)) as [E|].
    + eexists. rewrite E, lookup_insert_eq. split; [done|]. rewrite E, Hid in Hcl'. by injection Hcl' as <-.
    + exists cl'. by rewrite lookup_insert_ne.
  - intros id' cl' r' t [[<- <-]|[Hne Hcl']]%lookup_insert_Some Hc'; [done|].
    destruct (co_busy0 _ _ _ _ Hcl' Hc') as (? & Hi & ? & ?). split_and!; [done..|]. rewrite fmap_app, elem_of_app. simpl.
    intros [?| ->%list_elem_of_singleton]; [done|]. congruence.
  - intros r' h' [Hin|[= -> ->]%list_elem_of_singleton]%elem_of_app; [by apply co_done0|]. split; [done|].
    exists t0, (w_now w), res. rewrite Hrid. split_and!; [done|lia..|done].
  - rewrite fmap_app. apply NoDup_app. split_and!; [done| |apply NoDup_singleton]. intros r' Hr' ->%list_elem_of_singleton. done.
  - intros r' [?|(cl' & t & Hcl' & Hc')]%co_issued0; rewrite fmap_app, elem_of_app; [by left; left|].
    destruct (decide (rid r' = id)) as [E|].
    + left. right. rewrite E, Hid in Hcl'. injection Hcl' as <-. rewrite Hc in Hc'. injection Hc' as <- <-. by left.
    + right. exists cl', t. by rewrite lookup_insert_ne.
  - intros r1 h1 r2 t2 a b [H1|[= -> ->]%list_elem_of_singleton]%elem_of_app H2%Hcalled Hlt; [by eapply co_order0|].
    simpl in Hlt. pose proof (called_past _ _ _ _ _ Hok H2). lia.
Qed.

(** ** The servers *)

Definition term_ok (ph : HPhase) : Prop :=
  match ph with HStart => True | HRegister _ startTerm | HWait _ startTerm _ => 1 ≤ startTerm end.

(** Answers are executed results or make the clerk try again; what waits on channels
    counts as outdated. *)
Record servers_ok (lin : list KvRaft.Op) (w : World) : Prop := {
  so_answer r a : (r, a) ∈ w_answers w → r ∈ w_requests w ∧
    (retry a ∨ ∃ res, (request_op r, res) ∈ effective lin ∧ a = answer_of r res);
  so_handler h : h ∈ w_handlers w → h_request h ∈ w_requests w ∧ term_ok (h_phase h);
  so_mail ch res : (ch, res) ∈ w_mail w → ResTerm res = 0;
}.

Lemma servers_ok_grow lin lin' w : lin `prefix_of` lin' → servers_ok lin w → servers_ok lin' w.
Proof.
  intros Hp []. split; [|done..]. intros r a Ha. destruct (so_answer0 _ _ Ha) as [? [?|(res & Hres & ->)]]; (split; [done|]); [by left|right].
  exists res. split; [|done]. destruct (effective_prefix _ _ Hp) as [k ->]. apply elem_of_app. by left.
Qed.

(** More requests, handlers, mail and answers. *)
Lemma servers_ok_step lin w w' :
  servers_ok lin w → (∀ r, r ∈ w_requests w → r ∈ w_requests w') →
  (∀ r a, (r, a) ∈ w_answers w' → (r, a) ∈ w_answers w ∨
     (r ∈ w_requests w ∧ (retry a ∨ ∃ res, (request_op r, res) ∈ effective lin ∧ a = answer_of r res))) →
  (∀ h, h ∈ w_handlers w' → h ∈ w_handlers w ∨ (h_request h ∈ w_requests w ∧ term_ok (h_phase h))) →
  (∀ ch res, (ch, res) ∈ w_mail w' → (ch, res) ∈ w_mail w ∨ ResTerm res = 0) →
  servers_ok lin w'.
Proof.
  intros [] Hr Ha Hh Hm. split.
  - intros r a [Hin|[? ?]]%Ha; [apply so_answer0 in Hin as [? ?]|]; eauto.
  - intros h [Hin|[? ?]]%Hh; [apply so_handler0 in Hin as [? ?]|]; eauto.
  - intros ch res [Hin|?]%Hm; eauto.
Qed.

Section linear.
Context {gob : Gob KvGob} {rgob : Gob (RaftGob KvRaft.Op)} (n maxraftstate : Z).
#[local] Instance linear_machine : StateMachine KVServer KvRaft.Op unit KvOther := kv_machine maxraftstate.
#[local] Instance linear_lawful : RaftService.Lawful linear_machine := kv_lawful maxraftstate.
Implicit Types (w : World) (G : Ghost KvRaft.Op).

(** Operations that are committed. *)
Definition known G (lin : list KvRaft.Op) : Prop :=
  ∃ T p v, committed n G T p ∧ (Z.to_nat v < length p)%nat ∧ lin = omap id (cmds p v).

Record backed V G (lin : list KvRaft.Op) (c : Cluster KvRaft.Op KVServer) (rs : list Request) : Prop := {
  ba_agree : Agree n V G c;
  ba_known : known G lin;
  ba_logged o : logged G o → ∃ r, r ∈ rs ∧ o = Some (request_op r);
}.

Lemma known_ext G G' lin : ext G G' → known G lin → known G' lin.
Proof. intros HG (T & p & v & Hp & ?). exists T, p, v. split; [by eapply committed_ext|done]. Qed.

Lemma backed_step V G lin c rs e c' :
  backed V G lin c rs → cluster_exec e c = Some c' →
  (∀ o, cluster_starts e o → ∃ r, r ∈ rs ∧ o = Some (request_op r)) →
  ∃ V' G', backed V' G' lin c' rs.
Proof.
  intros [HA Hk Hl] He Hs. destruct (cluster_exec_agree _ _ _ _ _ _ HA He) as (V' & G' & HA' & HG).
  exists V', G'. split; [done|by eapply known_ext; [by eapply grows_ext|]|].
  intros o [?|?]%(proj2 HG); auto.
Qed.

Lemma backed_more V G lin c rs rs' : (∀ r, r ∈ rs → r ∈ rs') → backed V G lin c rs → backed V G lin c rs'.
Proof. intros Hrs [HA Hk Hl]. split; [done..|]. intros o (r & ? & ?)%Hl. exists r. auto. Qed.

(** What was executed had been requested. *)
Lemma known_requested V G lin ops c rs o :
  backed V G lin c rs → known G ops → o ∈ executed ∅ ops → ∃ r, r ∈ rs ∧ o = request_op r.
Proof.
  intros [_ _ Hl] (T & p & v & Hp & Hv & ->) Ho. eapply elem_of_sublist in Ho; [|apply executed_sublist].
  apply list_elem_of_omap in Ho as (c' & Hc & [= ->]).
  unfold cmds in Hc. apply list_elem_of_fmap in Hc as (e & He & [k Hk]%list_elem_of_lookup).
  apply lookup_take_Some in Hk as [Hk _]. rewrite lookup_drop in Hk.
  pose proof (committed_logged _ _ _ _ _ _ Hp Hk) as Hlog. rewrite <-He in Hlog.
  destruct (Hl _ Hlog) as (r & ? & [= ->]). by exists r.
Qed.

(** A server that finds a request in its history has executed it. *)
Lemma history_known V G lin c rs i kv taken r his :
  backed V G lin c rs → unique rs → r ∈ rs → replicas c !! i = Some (kv, taken) →
  HandleOp_history kv (request_op r) = Some his →
  ∃ lin', lin `prefix_of` lin' ∧ known G lin' ∧ (request_op r, his) ∈ effective lin'.
Proof.
  intros Hb Hu Hr Hi Hh. pose proof Hb as [HA Hk Hl].
  destruct (agree_replicas _ _ _ _ HA _ _ _ Hi) as (rf & Hrf & (base & p & _ & _ & _ & Hcm & Hlen & [_ Hhist] & _) & _).
  set (ops := omap id (cmds p (base + Z.of_nat taken))) in *.
  assert (known G ops) as Hops by (eexists _, p, (base + Z.of_nat taken); by split_and!).
  unfold HandleOp_history in Hh. rewrite Hhist, lookup_fmap in Hh.
  destruct ((kv_spec ops).2 !! Identifier (request_op r)) as [[q his']|] eqn:Ht; [|done]. simpl in Hh.
  destruct (Z.eqb_spec (LastSeq his') (Seq (request_op r))) as [Hq|]; [|done]. injection Hh as ->.
  pose proof (kv_spec_table ops (length ops)) as Htab. rewrite take_ge in Htab by done.
  apply Htab in Ht as Hq'. simpl in Hq'. destruct Hq' as [Hq' _].
  destruct (table_outcome ∅ ops _ _ _ Ht) as (o & Ho & Hid & Hseq). simpl in Hid, Hseq.
  assert (o = request_op r) as ->.
  { destruct (known_requested V G lin ops c rs o) as (r' & Hr' & ->); [done|done| |].
    - rewrite <-(outcomes_fst ∅ (executed ∅ ops)). apply list_elem_of_fmap. by exists (o, his).
    - f_equal. apply Hu; [done|done|done|unfold rseq; congruence]. }
  destruct Hk as (T & p' & v' & Hcm' & Hlen' & ->).
  destruct (inv_nodes _ _ _ (safe_inv _ _ _ _ (agree_safe _ _ _ _ HA)) _ _ Hrf) as (Hin & _).
  assert (omap id (cmds p' v') `prefix_of` ops ∨ ops `prefix_of` omap id (cmds p' v')) as [Hp|Hp].
  { apply omap_comparable, cmds_agree; [|done|done]. eapply (committed_agree n V G); [lia|apply (agree_safe _ _ _ _ HA)|done|done]. }
  - exists ops. by split_and!.
  - exists (omap id (cmds p' v')). split_and!; [done|by exists T, p', v'|].
    destruct (effective_prefix _ _ Hp) as [k Hk]. unfold effective in *. rewrite Hk. apply elem_of_app. by left.
Qed.

(** ** The invariant *)

Definition world_ok w : Prop :=
  ∃ V G lin D, backed V G lin (w_cluster w) (w_requests w) ∧ clients_ok lin w D ∧ servers_ok lin w.

Lemma init_ok rnd now : world_ok (world_init n maxraftstate rnd now).
Proof.
  exists ∅, (mkGhost ∅ ∅ []), [], []. split_and!.
  - split; simpl; [apply agree_init| |].
    + exists 0, [head0], 0. split_and!; [by left|simpl; lia|done].
    + intros o (t & j & l & k & e & Hl & _). done.
  - split; simpl; try done; first [by intros r ?%elem_of_nil|by intros r h ?%elem_of_nil|by intros r h r' t a b ?%elem_of_nil|apply NoDup_nil_2].
  - split; simpl; first [by intros h ?%elem_of_nil|by intros r a ?%elem_of_nil].
Qed.

(** A step of the cluster, with what it changes of the handlers, the mail and the answers. *)
Lemma cluster_step_ok w w' e :
  world_ok w → cluster_exec e (w_cluster w) = Some (w_cluster w') →
  (∀ o, cluster_starts e o → ∃ r, r ∈ w_requests w ∧ o = Some (request_op r)) →
  w_clients w' = w_clients w → w_requests w' = w_requests w → w_now w' = w_now w → w_history w' = w_history w →
  (∀ r a, (r, a) ∈ w_answers w' → (r, a) ∈ w_answers w ∨ (r ∈ w_requests w ∧ retry a)) →
  (∀ h, h ∈ w_handlers w' → h ∈ w_handlers w ∨ (h_request h ∈ w_requests w ∧ term_ok (h_phase h))) →
  (∀ ch res, (ch, res) ∈ w_mail w' → (ch, res) ∈ w_mail w ∨ ResTerm res = 0) →
  world_ok w'.
Proof.
  intros (V & G & lin & D & Hb & Hc & Hs) He Hst Ec Er En Eh Ha Hh Hm.
  destruct (backed_step _ _ _ _ _ _ _ Hb He Hst) as (V' & G' & Hb'). exists V', G', lin, D. rewrite Er. split_and!; [done| |].
  - eapply clients_ok_same; [done..| |done|exact Hc]. lia.
  - eapply servers_ok_step; [exact Hs|by rewrite Er| |done|done]. intros r a [?|[??]]%Ha; auto.
Qed.

Lemma handler_request w k h : world_ok w → w_handlers w !! k = Some h → h_request h ∈ w_requests w ∧ term_ok (h_phase h).
Proof. intros (V & G & lin & D & _ & _ & Hs) Hk. by eapply so_handler, list_elem_of_lookup_2. Qed.

Lemma receive_ok w i r w' :
  world_ok w → wexec n maxraftstate (WReceive i r) w = Some w' → world_ok w'.
Proof.
  intros (V & G & lin & D & Hb & Hc & Hs) H. simpl in H. apply bind_Some in H as ([kv taken] & Hi & H).
  case_decide as Hr; [|done]. destruct (HandleOp_history kv (request_op r)) as [his|] eqn:Hh; injection H as <-.
  - destruct (history_known V G lin _ _ i kv taken r his Hb (co_unique _ _ _ Hc) Hr Hi Hh) as (lin' & Hp & Hk & Hin).
    exists V, G, lin', D. split_and!; simpl.
    + destruct Hb. by split.
    + eapply (clients_ok_same lin' w); [done|done|reflexivity|done|]. eapply clients_ok_grow; [done| |done].
      intros o Ho. by eapply known_requested.
    + eapply servers_ok_step; [by eapply servers_ok_grow|done| |auto|auto]. simpl.
      intros r' a [[= -> ->]|?]%elem_of_cons; [right|by left]. split; [done|]. right. by exists his.
  - exists V, G, lin, D. split_and!; simpl; [done|by eapply (clients_ok_same lin w); [..|exact Hc]|].
    eapply servers_ok_step; [exact Hs|done|auto| |auto]. simpl. intros h [?| ->%list_elem_of_singleton]%elem_of_app; [by left|by right].
Qed.

Lemma start_ok w k now w' :
  world_ok w → wexec n maxraftstate (WStart k now) w = Some w' → world_ok w'.
Proof.
  intros Hw H. cbn [wexec] in H. apply bind_Some in H as (h & Hk & H). apply bind_Some in H as (rf & Hrf & H).
  destruct (handler_request _ _ _ Hw Hk) as [Hr _]. destruct (h_phase h); [|done|done].
  apply bind_Some in H as ([rf' [[idx term] lead]] & Hst & H). apply of_outcome_Some in Hst.
  apply bind_Some in H as (c & He & [= <-]).
  assert (lead = true → 1 ≤ term) as Hterm.
  { intros ->. destruct Hw as (V & G & lin & D & [HA _ _] & _).
    destruct (safe_node _ _ _ _ (agree_safe _ _ _ _ HA) _ _ Hrf) as (F & HF). pose proof (ns_pos _ _ _ _ _ HF) as Hpos.
    run Start in Hst; injection Hst1 as _ <-; exact Hpos. }
  assert (∀ o, cluster_starts (E := unit) (O := KvOther) (CRaft (EStart (h_server h) now (Some (request_op (h_request h))))) o →
    ∃ r, r ∈ w_requests w ∧ o = Some (request_op r)) as Hstarts by (intros o ->; by exists (h_request h)).
  destruct lead; simpl.
  - eapply (cluster_step_ok w); [done|exact He|exact Hstarts|done|done|done|done|auto| |auto]. simpl.
    intros h' [->|?]%in_insert; [right|by left]. simpl. auto.
  - eapply (cluster_step_ok w); [done|exact He|exact Hstarts|done|done|done|done| | |auto]; simpl.
    + intros r a [[= -> ->]|?]%elem_of_cons; [right|by left]. split; [done|]. apply retry_result. by left.
    + intros h' ?%in_delete. by left.
Qed.

Lemma register_ok w k w' :
  world_ok w → wexec n maxraftstate (WRegister k) w = Some w' → world_ok w'.
Proof.
  intros Hw H. cbn [wexec] in H. apply bind_Some in H as (h & Hk & H).
  destruct (handler_request _ _ _ Hw Hk) as [Hr Ht]. destruct (h_phase h) as [|idx term|]; [done| |done].
  apply bind_Some in H as (c & He & [= <-]).
  eapply (cluster_step_ok w); [done|exact He|done|done|done|done|done|auto| |auto]. simpl.
  intros h' [->|?]%in_insert; [right|by left]. done.
Qed.

Lemma wake_ok w k wk w' :
  world_ok w → wexec n maxraftstate (WWake k wk) w = Some w' → world_ok w'.
Proof.
  intros Hw H. cbn [wexec] in H. apply bind_Some in H as (h & Hk & H).
  destruct (handler_request _ _ _ Hw Hk) as [Hr Ht]. destruct (h_phase h) as [|idx term|idx term ch]; [done|done|]. simpl in Ht.
  destruct (match wk with Received _ => _ | _ => _ end) eqn:Hwk; [|done]. apply bind_Some in H as (c & He & [= <-]).
  assert (retry_err (res_Err (HandleOp_result term wk))) as Herr.
  { destruct wk as [|msg|]; simpl; [set_solver| |set_solver]. apply bool_decide_eq_true in Hwk.
    destruct Hw as (V & G & lin & D & _ & _ & Hs). rewrite (so_mail _ _ Hs _ _ Hwk).
    destruct (Z.eqb_spec 0 term); [lia|set_solver]. }
  eapply (cluster_step_ok w); [done|exact He|done|done|done|done|done| | |auto]; simpl.
  - intros r a [[= -> ->]|?]%elem_of_cons; [right|by left]. split; [done|]. by apply retry_result.
  - intros h' ?%in_delete. by left.
Qed.

Lemma apply_ok w i w' :
  world_ok w → wexec n maxraftstate (WApply i) w = Some w' → world_ok w'.
Proof.
  intros Hw H. cbn [wexec] in H. apply bind_Some in H as (rf & Hrf & H). apply bind_Some in H as ([kv taken] & Hi & H).
  apply bind_Some in H as (msg & Hm & H). apply bind_Some in H as (c & He & H).
  apply bind_Some in H as ([kv' sent] & Hc & [= <-]). apply of_outcome_Some in Hc.
  eapply (cluster_step_ok w); [done|exact He|done|done|done|done|done|auto|auto|]. simpl.
  intros ch res [Hin|?]%elem_of_app; [right|by left].
  destruct sent as [x|]; [|by apply elem_of_nil in Hin]. apply list_elem_of_singleton in Hin as <-.
  apply ApplyHandler_command_sent in Hc. rewrite Hc. destruct Hw as (V & G & lin & D & [HA _ _] & _).
  destruct (delivered_applied _ _ _ _ _ _ msg (agree_safe _ _ _ _ HA) Hrf) as (p1 & e & _ & _ & _ & ->); [|done].
  by eapply list_elem_of_lookup_2.
Qed.

Lemma cluster_event_ok w e w' :
  world_ok w → wexec n maxraftstate (WCluster e) w = Some w' → world_ok w'.
Proof.
  intros Hw H. cbn [wexec] in H. destruct (own_event e) eqn:Hown; [|done]. apply bind_Some in H as (c & He & [= <-]).
  eapply (cluster_step_ok w); [done|exact He| |done|done|done|done|auto| |auto]; simpl.
  - intros o. destruct e as [[]| | | |]; try done.
  - intros h [_ ?]%list_elem_of_filter. by left.
Qed.

(** The clerk looks at an answer. *)
Lemma turn_ok w id ok answer w' :
  world_ok w → clerk_turn w id ok answer = Some w' →
  (∀ r a ck v, answer r = Some a → Clerk_step ck ok r a = Some (inr v) → (r, a) ∈ w_answers w ∧ ok = true) → world_ok w'.
Proof.
  intros (V & G & lin & D & Hb & Hc & Hs) H Hans. unfold clerk_turn in H.
  apply bind_Some in H as (cl & Hid & H). apply bind_Some in H as ([r t0] & Hcall & H).
  apply bind_Some in H as (a & Ha & H). apply bind_Some in H as ([ck|v] & Hst & [= <-]).
  - exists V, G, lin, D. destruct (Clerk_step_on _ _ _ _ _ Hst) as [Hi Hq]. split_and!; [done| |].
    + rewrite <-Hcall. by apply clients_ok_on.
    + by eapply servers_ok_step; [exact Hs|auto..].
  - destruct (Hans _ _ _ _ Ha Hst) as [Hin ->]. destruct (so_answer _ _ Hs _ _ Hin) as [_ [Hr|(res & Hres & ->)]].
    { by destruct (Clerk_step_retry _ _ _ _ _ Hr Hst). }
    rewrite (Clerk_step_value _ _ _ _ Hst). exists V, G, lin. eexists. split_and!; [done|by eapply clients_ok_done|].
    by eapply servers_ok_step; [exact Hs|auto..].
Qed.

Lemma wexec_ok e w w' :
  world_ok w → wexec n maxraftstate e w = Some w' → len (w_requests w') < 2 ^ 64 → world_ok w'.
Proof.
  intros Hw H Hlen. destruct e as [d|id|id c|i r|k now|k|k wk|i|e|id a|id].
  - destruct Hw as (V & G & lin & D & Hb & Hc & Hs). injection H as <-. exists V, G, lin, D. split_and!; [done| |].
    + eapply (clients_ok_same lin w); [done|done|simpl; lia|done..].
    + by eapply servers_ok_step; [exact Hs|auto..].
  - destruct Hw as (V & G & lin & D & Hb & Hc & Hs). simpl in H. case_decide; [|done]. injection H as <-.
    exists V, G, lin, D. split_and!; [done|by apply clients_ok_make|]. by eapply servers_ok_step; [exact Hs|auto..].
  - destruct Hw as (V & G & lin & D & Hb & Hc & Hs). cbn [wexec] in H. apply bind_Some in H as (cl & Hid & H).
    destruct (cl_call cl) eqn:Hcall; [done|]. destruct (Clerk_request (cl_ck cl) c) as [ck r] eqn:Hreq. injection H as <-.
    simpl in Hlen. rewrite len_app in Hlen. change (len [r]) with 1 in Hlen.
    exists V, G, lin, D. split_and!; simpl.
    + eapply backed_more; [|exact Hb]. intros r' ?. apply elem_of_app. by left.
    + by eapply clients_ok_call.
    + eapply servers_ok_step; [exact Hs| |auto..]. simpl. intros r' ?. apply elem_of_app. by left.
  - by eapply receive_ok.
  - by eapply start_ok.
  - by eapply register_ok.
  - by eapply wake_ok.
  - by eapply apply_ok.
  - by eapply cluster_event_ok.
  - eapply turn_ok; [done|exact H|]. simpl. intros r a' ck v. case_decide; [|done]. by intros [= <-].
  - eapply turn_ok; [done|exact H|]. simpl. intros r a ck v [= <-] Hst. by apply Clerk_step_lost in Hst.
Qed.

(** Requests are not forgotten. *)
Lemma wexec_requests e w w' : wexec n maxraftstate e w = Some w' → len (w_requests w) ≤ len (w_requests w').
Proof.
  intros H. assert (∃ l, w_requests w' = w_requests w ++ l) as [l ->]; [|rewrite len_app; pose proof (len_nonneg l); lia].
  destruct e as [d|id|id c|i r|k now|k|k wk|i|e|id a|id]; cbn [wexec] in H; unfold clerk_turn in H.
  all: repeat match type of H with
    | mbind _ _ = Some _ => apply bind_Some in H as (? & ? & H)
    | context [match ?x with _ => _ end] => destruct x
    end; simplify_eq/=.
  all: first [by eexists|exists []; by rewrite app_nil_r].
Qed.

Lemma wrun_ok es w w' :
  world_ok w → wrun n maxraftstate es w = Some w' → len (w_requests w') < 2 ^ 64 →
  world_ok w' ∧ len (w_requests w) ≤ len (w_requests w').
Proof.
  revert w. induction es as [|e es IH]; intros w Hw H Hlen; simpl in H; [injection H as <-; by split|].
  apply bind_Some in H as (w1 & He & H). pose proof (wexec_requests _ _ _ He) as Hr.
  assert (len (w_requests w1) ≤ len (w_requests w')) as Hr1.
  { clear -H. revert w1 H. induction es as [|e es IH]; intros w1 H; simpl in H; [by injection H as ->|].
    apply bind_Some in H as (w2 & He%wexec_requests & H%IH). lia. }
  split; [|lia]. apply (IH w1); [|done|done]. eapply wexec_ok; [done|done|lia].
Qed.

(** ** The history *)

(** An operation that is going on, as if it returned now. *)
Definition going_on w (x : Request * Operation kvvalue) : Prop :=
  ∃ id cl t v, w_clients w !! id = Some cl ∧ cl_call cl = Some (x.1, t) ∧ x.2 = operation id x.1 t v (w_now w).

Lemma executed_NoDup ops : NoDup (executed ∅ ops).
Proof. apply NoDup_alt. intros a b o Ha Hb. by eapply executed_position. Qed.

Lemma effective_functional ops o res res' : (o, res) ∈ effective ops → (o, res') ∈ effective ops → res = res'.
Proof.
  intros [a Ha]%list_elem_of_lookup [b Hb]%list_elem_of_lookup.
  assert (a = b) as <-; [|congruence]. apply effective_lookup in Ha, Hb. by eapply executed_position.
Qed.

(** The executed operations that have not returned. *)
Lemma executed_pending lin w D :
  clients_ok lin w D →
  ∃ X, (∀ x, x ∈ X → going_on w x ∧ request_op x.1 ∈ executed ∅ lin) ∧ NoDup X.*1 ∧ NoDup (op_ClientId <$> X.*2) ∧
    ∀ p, p ∈ effective lin → p.1 ∉ request_op <$> D.*1 → ∃ x, x ∈ X ∧ noted p x.
Proof.
  intros Hok. set (ps := filter (λ p, p.1 ∉ request_op <$> D.*1) (effective lin)).
  assert (∃ X, Forall2 (λ p x, noted p x ∧ going_on w x) ps X) as [X HX].
  { assert (∀ p, p ∈ ps → ∃ x, noted p x ∧ going_on w x) as Hall.
    { intros [o res] [Hnd Hin]%list_elem_of_filter. simpl in Hnd.
      destruct (co_lin _ _ _ Hok o) as (r & Hr & ->).
      { rewrite <-(outcomes_fst ∅ (executed ∅ lin)). apply list_elem_of_fmap. by exists (o, res). }
      destruct (co_issued _ _ _ Hok r Hr) as [?|(cl & t & Hcl & Hc)]; [by destruct Hnd; apply list_elem_of_fmap_2|].
      exists (r, operation (rid r) r t (value_of r res) (w_now w)). split; [done|]. by exists (rid r), cl, t, (value_of r res). }
    clear -Hall. induction ps as [|p ps IH]; [by exists []|].
    destruct IH as [X HX]; [intros; apply Hall; by right|]. destruct (Hall p) as [x Hx]; [by left|]. exists (x :: X). by constructor. }
  assert (NoDup ps.*1) as Hnd.
  { eapply sublist_NoDup; [apply (executed_NoDup lin)|]. rewrite <-(outcomes_fst ∅ (executed ∅ lin)).
    apply fmap_sublist, sublist_filter. }
  assert (∀ (a b : nat) x y, X !! a = Some x → X !! b = Some y → request_op x.1 = request_op y.1 → a = b) as Hinj.
  { intros a b x y Hx Hy E. destruct (Forall2_lookup_r _ _ _ _ _ HX Hx) as (p & Hp & (Ep & _) & _).
    destruct (Forall2_lookup_r _ _ _ _ _ HX Hy) as (q & Hq & (Eq & _) & _).
    eapply (NoDup_lookup ps.*1); [done|rewrite list_lookup_fmap, Hp; done|rewrite list_lookup_fmap, Hq; simpl; congruence]. }
  exists X. split_and!.
  - intros x [a Ha]%list_elem_of_lookup. destruct (Forall2_lookup_r _ _ _ _ _ HX Ha) as (p & Hp & (Ep & _) & Hg). split; [done|].
    rewrite <-Ep. apply list_elem_of_lookup_2, list_elem_of_filter in Hp as [_ Hp].
    rewrite <-(outcomes_fst ∅ (executed ∅ lin)). by apply list_elem_of_fmap_2.
  - apply NoDup_alt. intros a b r Ha Hb. rewrite list_lookup_fmap in Ha, Hb.
    destruct (X !! a) as [x|] eqn:Hx; [|done]. destruct (X !! b) as [y|] eqn:Hy; [|done]. simplify_eq/=. eapply Hinj; [done..|congruence].
  - apply NoDup_alt. intros a b id Ha Hb. rewrite !list_lookup_fmap in Ha, Hb.
    destruct (X !! a) as [x|] eqn:Hx; [|done]. destruct (X !! b) as [y|] eqn:Hy; [|done].
    injection Ha as Ha. injection Hb as Hb.
    destruct (Forall2_lookup_r _ _ _ _ _ HX Hx) as (_ & _ & _ & (id1 & cl1 & t1 & v1 & Hc1 & E1 & F1)).
    destruct (Forall2_lookup_r _ _ _ _ _ HX Hy) as (_ & _ & _ & (id2 & cl2 & t2 & v2 & Hc2 & E2 & F2)).
    rewrite F1 in Ha. rewrite F2 in Hb. simpl in Ha, Hb. subst id1 id2. eapply Hinj; [done..|]. congruence.
  - intros p Hp Hnp. destruct (list_elem_of_lookup_1 ps p) as [a Ha]; [by apply list_elem_of_filter|].
    destruct (Forall2_lookup_l _ _ _ _ _ HX Ha) as (x & Hx & Hn & _). exists x. split; [by eapply list_elem_of_lookup_2|done].
Qed.

Lemma clients_linearizable lin w D :
  clients_ok lin w D →
  ∃ X, (∀ x, x ∈ X → going_on w x) ∧ NoDup (op_ClientId <$> X.*2) ∧ kv_linearizable (w_history w ++ X.*2).
Proof.
  intros Hok. destruct (executed_pending lin w D Hok) as (X & HX & Hnd & Hids & Hcov). exists X. split_and!; [by intros x [? _]%HX|done|].
  rewrite (co_history _ _ _ Hok), <-fmap_app.
  assert (∀ x, x ∈ X → x.1 ∈ w_requests w ∧ (x.1 ∉ D.*1) ∧ called (w_clients w) D x.1 (Call x.2) ∧ Return x.2 = w_now w) as Hpend.
  { intros [r h] [(id & cl & t & v & Hcl & Hc & Eh) _]%HX. simpl in *. subst h.
    destruct (co_busy _ _ _ Hok _ _ _ _ Hcl Hc) as (? & Hi & _ & ?). split_and!; [done|done| |done]. right. exists cl. by rewrite Hi. }
  assert (∀ x, x ∈ D → x.1 ∈ w_requests w ∧ called (w_clients w) D x.1 (Call x.2)) as Hdone.
  { intros [r h] Hx. destruct (co_done _ _ _ Hok _ _ Hx) as [? _]. split; [done|]. left. by exists h. }
  apply (executions_linearize lin).
  - rewrite fmap_app. apply NoDup_app. split_and!; [apply Hok| |done]. intros r HD (x & -> & Hx)%list_elem_of_fmap.
    by apply Hpend in Hx as (_ & ? & _).
  - assert (∀ r, r ∈ (D ++ X).*1 → r ∈ w_requests w) as Hin.
    { intros r (x & -> & [Hx|Hx]%elem_of_app)%list_elem_of_fmap; [by apply Hdone|by apply Hpend]. }
    intros r r' ? ?. apply (co_unique _ _ _ Hok); auto.
  - intros [o res] Hp. destruct (decide (o ∈ request_op <$> D.*1)) as [Hin|Hin].
    + apply list_elem_of_fmap in Hin as (r & -> & ([r' h] & -> & Hx)%list_elem_of_fmap). exists (r', h).
      split; [apply elem_of_app; by left|]. destruct (co_done _ _ _ Hok _ _ Hx) as (_ & t0 & t1 & res' & -> & _ & Hres).
      simpl in *. by rewrite (effective_functional _ _ _ _ Hp Hres).
    + destruct (Hcov _ Hp Hin) as (x & ? & ?). exists x. split; [apply elem_of_app; by right|done].
  - intros [r h] [Hx|Hx]%elem_of_app; [|by apply HX in Hx as [_ ?]].
    destruct (co_done _ _ _ Hok _ _ Hx) as (_ & _ & _ & res & _ & _ & Hres). rewrite <-(outcomes_fst ∅ (executed ∅ lin)).
    by apply (list_elem_of_fmap_2 fst) in Hres.
  - intros [r1 h1] y a b Hx Hy Hlt. assert (called (w_clients w) D y.1 (Call y.2)) as Hc.
    { apply elem_of_app in Hy as [Hy|Hy]; [by apply Hdone|by apply Hpend]. }
    apply elem_of_app in Hx as [Hx|Hx]; [by eapply co_order|].
    apply Hpend in Hx as (_ & _ & _ & Hret). pose proof (called_past _ _ _ _ _ Hok Hc). simpl in *. lia.
Qed.

Lemma reachable_ok w : world_reachable n maxraftstate w → len (w_requests w) < 2 ^ 64 → world_ok w.
Proof. intros (rnd & now & es & H) Hlen. by eapply wrun_ok; [apply init_ok|exact H|]. Qed.

(** Some of the calls that are going on, at most one per client, as if they returned now
    with some value. *)
Definition completion w (extra : list (Operation kvvalue)) : Prop :=
  NoDup (op_ClientId <$> extra) ∧
  ∀ h, h ∈ extra → ∃ id cl r t v, w_clients w !! id = Some cl ∧ cl_call cl = Some (r, t) ∧ h = operation id r t v (w_now w).

Lemma history_linearizable w :
  world_reachable n maxraftstate w → len (w_requests w) < 2 ^ 64 →
  ∃ extra, completion w extra ∧ kv_linearizable (w_history w ++ extra).
Proof.
  intros Hw Hlen. destruct (reachable_ok w Hw Hlen) as (V & G & lin & D & _ & Hc & _).
  destruct (clients_linearizable lin w D Hc) as (X & HX & Hnd & Hl). exists X.*2. split; [split; [done|]|done].
  intros h (x & -> & (id & cl & t & v & ? & ? & ?)%HX)%list_elem_of_fmap. by exists id, cl, x.1, t, v.
Qed.

(** C2. Linearizability of kvraft: clerks call servers over a Raft cluster in a steady
    execution: the network loses, delays and reorders calls, messages of Raft and answers,
    requests are received and answers given more than once, nodes crash and restart from
    their snapshots, and logs are compacted, but no [InstallSnapshot] call is handled and
    no entries of an [AppendEntries] call are overwritten before it is encoded.  As long
    as there are fewer than 2^64 requests, so that no sequence number wraps, the history
    of completed calls, with some of the calls that are going on added, is linearizable
    as a key-value store. *)
Theorem kvraft_linearizable w :
  world_reachable n maxraftstate w → len (w_requests w) < 2 ^ 64 →
  ∃ extra, completion w extra ∧ kv_linearizable (w_history w ++ extra).
Proof. apply history_linearizable. Qed.

(** What the checker asks of a history. *)
Lemma clients_history lin w D :
  clients_ok lin w D → typed (w_history w) ∧ timed (w_history w) ∧ len (w_history w) ≤ len (w_requests w).
Proof.
  intros Hok. rewrite (co_history _ _ _ Hok). split_and!.
  - intros h ([r h'] & -> & Hx)%list_elem_of_fmap. destruct (co_done _ _ _ Hok _ _ Hx) as (_ & t0 & t1 & res & -> & _ & _).
    split; by eexists.
  - intros h ([r h'] & -> & Hx)%list_elem_of_fmap. destruct (co_done _ _ _ Hok _ _ Hx) as (_ & t0 & t1 & res & -> & ? & _).
    simpl. lia.
  - unfold len. rewrite length_fmap, <-(length_fmap fst D). apply Nat2Z.inj_le, submseteq_length, NoDup_submseteq; [apply Hok|].
    intros r ([r' h'] & -> & Hx)%list_elem_of_fmap. by apply (co_done _ _ _ Hok) in Hx as [? _].
Qed.

(** C4. The check of the tests of kvraft passes: on a network that loses, delays, repeats
    and reorders calls, with crashes and snapshots, in a steady execution (no
    [InstallSnapshot] call handled, no unencoded entries overwritten), when all clients
    are done, after at least one and fewer than 2^62 calls,
    [CheckOperations(KvModel, history)] returns, in whatever order the partitions are
    checked, and returns true. *)
Theorem kvraft_history_accepted {ranges : MapRange} {sorts : EntrySort} `{!Sprint kvvalue, !Sprint string}
    (fuel : nat) (π : list nat) late w parts :
  world_reachable n maxraftstate w → (∀ id cl, w_clients w !! id = Some cl → cl_call cl = None) →
  w_history w ≠ [] → len (w_requests w) < 2 ^ 62 → (search_fuel (2 * length (w_history w)) ≤ fuel)%nat →
  kv_Partition (w_history w) = Ret parts → π ≡ₚ seq 0 (length parts) →
  CheckOperations fuel (Porcupine.Result <$> π) late KvModel (w_history w) = Some (Ret true).
Proof.
  intros Hw Hidle Hne Hlen Hf Hparts Hπ.
  destruct (history_linearizable w Hw) as (extra & [_ Hextra] & Hl); [lia|].
  assert (extra = []) as ->.
  { apply elem_of_nil_inv. intros h (id & cl & r & t & v & Hcl & Hc & _)%Hextra. apply Hidle in Hcl. congruence. }
  rewrite app_nil_r in Hl. destruct (reachable_ok w Hw) as (V & G & lin & D & _ & Hc & _); [lia|].
  destruct (clients_history _ _ _ Hc) as (Hty & Hti & Hle).
  destruct (check_kv fuel π late (w_history w) parts) as (b & -> & Hb); [done|done|done|lia|done|done|done|].
  by rewrite (proj2 Hb Hl).
Qed.
End linear.

(** ** A concrete run

    Client 5 puts a value; the result on the channel counts as outdated and the clerk asks
    again, then client 6 reads the value. *)
Section linear_example.
#[local] Existing Instance range_default.
#[local] Existing Instance sort_default.
#[local] Instance linear_sprint_value : Sprint kvvalue := λ _, "".
#[local] Instance linear_sprint_state : Sprint string := λ s, s.
#[local] Instance linear_gob : Gob KvGob := gob_of_countable KvGob.
#[local] Instance linear_rgob : Gob (RaftGob KvRaft.Op) := gob_of_countable (RaftGob KvRaft.Op).

Definition put_request : Request := RPutAppend (mkPutAppendArgs "x" "1" "Put" 0 5).
Definition get_request : Request := RGet (mkGetArgs "x" 0 6).
Definition raft_events (es : list (Event KvRaft.Op)) : list WEvent := (λ e, WCluster (CRaft e)) <$> es.

Definition put_events : list WEvent :=
  raft_events [ECommit 0; ECommit 1; ECommit 2; ETimeout 0 0; EDeliver 0 0; EReceive 0 0; ELose 0;
    ETimeout 0 0; EDeliver 0 0; EReceive 0 0; ELose 0] ++
  [WClerk 5; WClerk 6; WTick 1; WCall 5 (CPut "x" "1"); WReceive 0 put_request; WStart 0 0; WRegister 0] ++
  raft_events [ETimeout 0 0; EBegin 0; EEncode 0; EDeliver 0 0; EReceive 0 0; ECommit 0; ECommit 0; ECommit 0; ECommit 0] ++
  [WApply 0; WWake 0 (Received (mkResult 0 "" "" 0)); WReply 5 (APutAppend (mkPutAppendReply ErrLeaderOutDated));
   WReceive 0 put_request; WTick 2; WReply 5 (APutAppend (mkPutAppendReply "")); WTick 1; WCall 6 (CGet "x")].

Definition get_events : list WEvent :=
  [WReceive 0 get_request; WStart 0 0; WRegister 0] ++
  raft_events [ETimeout 0 0; EBegin 1; EEncode 1; EDeliver 1 0; EReceive 1 0; ECommit 0; ECommit 0] ++
  [WApply 0; WReceive 0 get_request; WTick 1; WReply 6 (AGet (mkGetReply "" "1"))].

Definition world0 : World := world_init 3 100 (λ i, i) 0.
Definition world_put : World := default world0 (wrun 3 100 put_events world0).
Definition world_get : World := default world0 (wrun 3 100 (put_events ++ get_events) world0).

Lemma world_put_reachable : world_reachable 3 100 world_put.
Proof. exists (λ i, i), 0, put_events. by vm_compute. Qed.

Lemma world_get_reachable : world_reachable 3 100 world_get.
Proof. exists (λ i, i), 0, (put_events ++ get_events). by vm_compute. Qed.

Lemma kvraft_linearizable_witness :
  w_history world_put = [operation 5 put_request 1 "" 3] ∧
  ∃ extra, completion world_put extra ∧ kv_linearizable (w_history world_put ++ extra).
Proof.
  split; [by vm_compute|]. apply (kvraft_linearizable 3 100 world_put world_put_reachable). by vm_compute.
Defined.

Lemma kvraft_history_accepted_witness :
  w_history world_get = [operation 5 put_request 1 "" 3; operation 6 get_request 4 "1" 5] ∧
  CheckOperations 100 (Porcupine.Result <$> [0%nat]) (λ _ _, true) KvModel (w_history world_get) = Some (Ret true).
Proof.
  assert (w_history world_get = [operation 5 put_request 1 "" 3; operation 6 get_request 4 "1" 5]) as Hh by (by vm_compute).
  split; [exact Hh|]. eapply (kvraft_history_accepted 3 100 100 [0%nat] (λ _ _, true) world_get).
  - apply world_get_reachable.
  - assert (map_Forall (λ _ cl, cl_call cl = None) (w_clients world_get)) as Hidle.
    { apply (bool_decide_unpack _). by vm_compute. }
    exact Hidle.
  - by rewrite Hh.
  - by vm_compute.
  - rewrite Hh. vm_compute. lia.
  - rewrite Hh. reflexivity.
  - reflexivity.
Defined.
End linear_example.
