(* ===== verification/KvSrvLinear.v ===== *)
(** * kvsrv: the clients see one store

    The system of [KvSrv] with the reads of clerks ([Clerk.Get] of
    [src/src/kvsrv/client.go]) and with time: the wrappers of
    [src/src/kvsrv/test_test.go] note when each call began and what it returned.  The
    history is linearizable, and [CheckOperations] of [src/src/porcupine] accepts it.

    A read has no number, and [labrpc] gives an answer only to the call it belongs to;
    here the calls of reads are numbered.  The order of the operations is that of the
    writes as they are executed; a completed read stands behind the writes that its
    answer has seen. *)
From S2P Require Import Prelude Bitset Porcupine PorcSpec PorcOps PorcCheck PorcKv KvSrv.

Open Scope list_scope.
Open Scope Z_scope.

(** ** What the wrappers note *)

Definition write_operation (c : Z) (req : Request) (start : Z) (value : string) (end_ : Z) : Operation kvvalue :=
  mkOperation c (VInput (mkKvInput (match req.1 with MPut => 1 | MAppend => 3 end) (Key req.2) (Value req.2)))
    start (VOutput (mkKvOutput value)) end_.

Definition read_operation (c : Z) (args : GetArgs) (start : Z) (reply : GetReply) (end_ : Z) : Operation kvvalue :=
  mkOperation c (VInput (mkKvInput 0 (ga_Key args) "")) start (VOutput (mkKvOutput (gr_Value reply))) end_.

(** ** The system *)

Record World := mkWorld {
  sys : System;
  starts : gmap Z Z;                      (* clerk: when it called its write *)
  reading : gmap Z (Z * GetArgs * Z);     (* clerk: the number, arguments and time of its read *)
  calls : list (Z * GetArgs);
  values : list (Z * GetReply);
  made : Z;
  now : Z;
  history : list (Operation kvvalue);
}.

Inductive wstep (w : World) : World → Prop :=
| w_tick (d : nat) :
    wstep w (mkWorld (sys w) (starts w) (reading w) (calls w) (values w) (made w) (now w + Z.of_nat d) (history w))
| w_make c :
    clerks (sys w) !! c = None →
    let s := sys w in
    wstep w (mkWorld (mkSystem (server s) (<[c := mkClerkState (MakeClerk c) [] None]> (clerks s))
                        (requests s) (replies s) (executed s))
               (starts w) (reading w) (calls w) (values w) (made w) (now w) (history w))
| w_call c cs m key value :
    clerks (sys w) !! c = Some cs → pending cs = None → reading w !! c = None →
    let s := sys w in let req := (m, PutAppend_args (ck cs) key value) in
    wstep w (mkWorld (mkSystem (server s) (<[c := mkClerkState (ck cs) (completed cs) (Some req)]> (clerks s))
                        (req :: requests s) (replies s) (executed s))
               (<[c := now w]> (starts w)) (reading w) (calls w) (values w) (made w) (now w) (history w))
| w_deliver req kv reply :
    req ∈ requests (sys w) → serve (server (sys w)) req = (kv, reply) →
    let s := sys w in
    wstep w (mkWorld (mkSystem kv (clerks s) (requests s) ((req, reply) :: replies s) (executed s ++ valid_result req reply))
               (starts w) (reading w) (calls w) (values w) (made w) (now w) (history w))
| w_return c cs req reply ck' v t0 :
    clerks (sys w) !! c = Some cs → pending cs = Some req → (req, reply) ∈ replies (sys w) →
    PutAppend_return (ck cs) reply = (ck', v) → starts w !! c = Some t0 →
    let s := sys w in
    wstep w (mkWorld (mkSystem (server s)
                        (<[c := mkClerkState ck' (completed cs ++ [(req, Clerk_result req.1 v)]) None]> (clerks s))
                        (requests s) (replies s) (executed s))
               (starts w) (reading w) (calls w) (values w) (made w) (now w)
               (history w ++ [write_operation c req t0 (Clerk_result req.1 v) (now w)]))
| w_get c cs key :
    clerks (sys w) !! c = Some cs → pending cs = None → reading w !! c = None →
    let args := Clerk_Get_args (ck cs) key in
    wstep w (mkWorld (sys w) (starts w) (<[c := (made w, args, now w)]> (reading w)) ((made w, args) :: calls w)
               (values w) (made w + 1) (now w) (history w))
| w_read no args :
    (no, args) ∈ calls w →
    wstep w (mkWorld (sys w) (starts w) (reading w) (calls w) ((no, Get (server (sys w)) args) :: values w)
               (made w) (now w) (history w))
| w_got c no args t0 reply :
    reading w !! c = Some (no, args, t0) → (no, reply) ∈ values w →
    wstep w (mkWorld (sys w) (starts w) (delete c (reading w)) (calls w) (values w) (made w) (now w)
               (history w ++ [read_operation c args t0 reply (now w)])).

Definition world_start : World := mkWorld start ∅ ∅ [] [] 0 0 [].

Inductive world_reachable : World → Prop :=
| world_reach_start : world_reachable world_start
| world_reach_step w w' : world_reachable w → wstep w w' → world_reachable w'.

(** No clerk is in a call. *)
Definition quiescent (w : World) : Prop :=
  (∀ c cs, clerks (sys w) !! c = Some cs → pending cs = None) ∧ reading w = ∅.

(** ** Orders of writes and reads *)

(** A write with its result, or a completed read. *)
Definition item : Type := (Request * string) + Operation kvvalue.
Implicit Types (lin : list item) (W : list (Request * Operation kvvalue)) (x y : item).

Definition as_write x : option (Request * string) := match x with inl p => Some p | inr _ => None end.
Definition as_read x : option (Operation kvvalue) := match x with inl _ => None | inr op => Some op end.

(** Every write and read returns what the map before it says. *)
Fixpoint explains (m : gmap string string) lin : Prop :=
  match lin with
  | [] => True
  | inl (req, v) :: lin => v = answer m req ∧ explains (write m req) lin
  | inr op :: lin =>
      (∃ key, Input op = VInput (mkKvInput 0 key "") ∧ Output op = VOutput (mkKvOutput (sget m key))) ∧ explains m lin
  end.

Definition after (m : gmap string string) lin : gmap string string := foldl write m (omap as_write lin).*1.

Lemma explains_app m lin lin' : explains m (lin ++ lin') ↔ explains m lin ∧ explains (after m lin) lin'.
Proof.
  revert m. unfold after. induction lin as [|[[req v]|op] lin IH]; intros m; simpl; [naive_solver|..]; rewrite IH; tauto.
Qed.

(** The part of the order up to the first [k] writes and the reads behind them, and the
    rest. *)
Fixpoint cut (k : nat) lin : list item * list item :=
  match lin with
  | [] => ([], [])
  | inr op :: lin => let '(l1, l2) := cut k lin in (inr op :: l1, l2)
  | inl p :: lin =>
      match k with
      | O => ([], inl p :: lin)
      | S k => let '(l1, l2) := cut k lin in (inl p :: l1, l2)
      end
  end.

Lemma cut_app k lin : (cut k lin).1 ++ (cut k lin).2 = lin.
Proof.
  revert k. induction lin as [|[p|op] lin IH]; intros k; simpl; [by rewrite ?take_nil|destruct k as [|k]; [done|]|];
    specialize (IH k); destruct (cut k lin); simpl in *; by rewrite IH.
Qed.

Lemma cut_writes k lin : omap as_write (cut k lin).1 = take k (omap as_write lin).
Proof.
  revert k. induction lin as [|[p|op] lin IH]; intros k; csimpl; [by rewrite take_nil|destruct k as [|k]; [done|]|];
    specialize (IH k); destruct (cut k lin) as [l1 l2]; csimpl in *; [by rewrite IH|exact IH].
Qed.

Lemma cut_past k lin : (length (omap as_write lin) ≤ k)%nat → cut k lin = (lin, []).
Proof.
  revert k. induction lin as [|[p|op] lin IH]; intros k Hk; csimpl in *; [done|destruct k as [|k]; [lia|]|]; by rewrite IH by lia.
Qed.

(** A write at the end. *)
Lemma cut_write k lin p : (k ≤ length (omap as_write lin))%nat → (cut k (lin ++ [inl p])).2 = (cut k lin).2 ++ [inl p].
Proof.
  revert k. induction lin as [|[q|op] lin IH]; intros k Hk; csimpl in *.
  - by replace k with O by lia.
  - destruct k as [|k]; [done|]. specialize (IH k ltac:(lia)). by destruct (cut k lin), (cut k (lin ++ [inl p])).
  - specialize (IH k Hk). by destruct (cut k lin), (cut k (lin ++ [inl p])).
Qed.

(** A read behind the first [j] writes. *)
Definition insert_read (j : nat) (op : Operation kvvalue) lin : list item := (cut j lin).1 ++ inr op :: (cut j lin).2.

Lemma insert_read_writes j op lin : omap as_write (insert_read j op lin) = omap as_write lin.
Proof. unfold insert_read. rewrite <-(cut_app j lin) at 3. by rewrite !omap_app. Qed.

Lemma insert_read_reads j op lin : omap as_read (insert_read j op lin) ≡ₚ op :: omap as_read lin.
Proof.
  unfold insert_read. rewrite <-(cut_app j lin) at 3. rewrite !omap_app. simpl. symmetry. apply Permutation_middle.
Qed.

Lemma insert_read_explains m j op lin key :
  explains m lin → Input op = VInput (mkKvInput 0 key "") →
  Output op = VOutput (mkKvOutput (sget (foldl write m (take j (omap as_write lin)).*1) key)) →
  explains m (insert_read j op lin).
Proof.
  intros He Hi Ho. rewrite <-(cut_app j lin) in He. apply explains_app in He as [H1 H2].
  apply explains_app. split; [done|]. simpl. split; [|done]. exists key. unfold after. by rewrite cut_writes.
Qed.

(** What comes behind the first [k] writes. *)
Lemma cut_insert_read k j op lin y : y ∈ (cut k (insert_read j op lin)).2 → y = inr op ∨ y ∈ (cut k lin).2.
Proof.
  unfold insert_read. revert k j. induction lin as [|[p|op'] lin IH]; intros k j; simpl.
  - destruct k; simpl; by intros ?%elem_of_nil.
  - destruct j as [|j]; simpl.
    + destruct k as [|k]; simpl; [tauto|]. destruct (cut k lin). simpl. by right.
    + specialize (λ k, IH k j). destruct (cut j lin) as [l1 l2] eqn:Ej. simpl in *. destruct k as [|k]; simpl.
      * intros [->|Hy]%elem_of_cons; [right; by left|].
        assert (y = inr op ∨ y ∈ lin) as [?|?]; [|by left|right; by right].
        rewrite <-(cut_app j lin), Ej. simpl. apply elem_of_app in Hy as [?|[->|?]%elem_of_cons]; [right|by left|right];
          apply elem_of_app; auto.
      * specialize (IH k). destruct (cut k lin), (cut k (l1 ++ inr op :: l2)). simpl in *. auto.
  - specialize (λ k, IH k j). destruct (cut j lin) as [l1 l2] eqn:Ej. simpl in *. specialize (IH k).
    destruct (cut k lin), (cut k (l1 ++ inr op :: l2)). simpl in *. auto.
Qed.

(** ** The invariant *)

(** The times of the call and of the return of a write or a read; [W] are the completed
    writes. *)
Definition called (w : World) W x (t : Z) : Prop :=
  match x with
  | inl (req, _) => (∃ op, (req, op) ∈ W ∧ Call op = t) ∨
      ∃ c cs, clerks (sys w) !! c = Some cs ∧ pending cs = Some req ∧ starts w !! c = Some t
  | inr op => Call op = t
  end.

Definition returned W y (t : Z) : Prop :=
  match y with inl (req, _) => ∃ op, (req, op) ∈ W ∧ Return op = t | inr op => Return op = t end.

Definition may_come_before (w : World) W x y : Prop := ∀ tx ty, called w W x tx → returned W y ty → tx ≤ ty.

Record linear (w : World) lin W : Prop := {
  li_inv : inv (sys w);
  li_writes : omap as_write lin = executed (sys w);
  li_explains : explains ∅ lin;
  li_history : history w ≡ₚ W.*2 ++ omap as_read lin;
  li_done req op : (req, op) ∈ W → ∃ c t0 t1 v, op = write_operation c req t0 v t1 ∧ (req, v) ∈ executed (sys w) ∧ t0 ≤ t1 ≤ now w;
  li_completed c cs req : clerks (sys w) !! c = Some cs → req ∈ (completed cs).*1 → req ∈ W.*1;
  li_noted req : req ∈ W.*1 → ∃ cs, clerks (sys w) !! ClerkId req.2 = Some cs ∧ req ∈ (completed cs).*1;
  li_nodup : NoDup W.*1;
  li_read op : inr op ∈ lin → Call op ≤ Return op ≤ now w;
  li_start c cs req : clerks (sys w) !! c = Some cs → pending cs = Some req → ∃ t0, starts w !! c = Some t0 ∧ t0 ≤ now w;
  li_reading c no args t0 : reading w !! c = Some (no, args, t0) → t0 ≤ now w ∧ (no, args) ∈ calls w;
  li_reader c c' no args t0 args' t0' : reading w !! c = Some (no, args, t0) → reading w !! c' = Some (no, args', t0') → c = c';
  li_call no args args' : (no, args) ∈ calls w → no < made w ∧ ((no, args') ∈ calls w → args = args');
  li_value no reply : (no, reply) ∈ values w → no < made w ∧
    ∀ c args t0, reading w !! c = Some (no, args, t0) →
      ∃ k, (k ≤ length (executed (sys w)))%nat ∧
        gr_Value reply = sget (store (take k (executed (sys w))).*1) (ga_Key args) ∧
        ∀ y t, y ∈ (cut k lin).2 → returned W y t → t0 ≤ t;
  li_order : StronglySorted (may_come_before w W) lin;
}.

(** What was executed was issued by a clerk. *)
Lemma executed_issued s req v :
  inv s → (req, v) ∈ executed s → ∃ cs, clerks s !! ClerkId req.2 = Some cs ∧ req ∈ (completed cs).*1 ++ waiting cs.
Proof.
  intros Hinv Hin. assert ((req, v) ∈ of_clerk (ClerkId req.2) (executed s)) as Hin' by (apply list_elem_of_filter; by split).
  destruct (clerks s !! ClerkId req.2) as [cs|] eqn:Hcs.
  2: { destruct (inv_none _ Hinv _ Hcs) as [E _]. rewrite E in Hin'. by apply elem_of_nil in Hin'. }
  exists cs. split; [done|]. apply (list_elem_of_fmap_2 fst) in Hin'.
  destruct (co_executed _ _ _ (inv_clerk _ Hinv _ _ Hcs)) as [E|(req' & v' & Hp & E)]; rewrite E in Hin'.
  - apply elem_of_app. by left.
  - rewrite fmap_app in Hin'. unfold waiting. by rewrite Hp.
Qed.

(** A clerk's completed requests are not the one it is in. *)
Lemma completed_not_pending s c cs req :
  inv s → clerks s !! c = Some cs → req ∈ (completed cs).*1 → ClerkId req.2 = c ∧ pending cs ≠ Some req ∧ Count req.2 < count (ck cs).
Proof.
  intros Hinv Hcs [i Hi]%list_elem_of_lookup. pose proof (inv_clerk _ Hinv _ _ Hcs) as Hok.
  assert (((completed cs).*1 ++ waiting cs) !! i = Some req) as Hi' by (by apply lookup_app_l_Some).
  destruct (co_issued _ _ _ Hok _ _ Hi') as [Hc Hn]. apply lookup_lt_Some in Hi. rewrite length_fmap in Hi.
  rewrite (co_count _ _ _ Hok). unfold len. split_and!; [done| |lia].
  intros Hp. destruct (issued_index s c cs req Hok) as [_ [[_ ?]|[? _]]]; [by eapply list_elem_of_lookup_2|done|].
  unfold len in *. lia.
Qed.

Lemma executed_distinct s : inv s → NoDup (executed s).*1.
Proof.
  intros Hinv. apply (NoDup_groups (λ req, ClerkId req.2)). intros c.
  match goal with |- NoDup ?l => replace l with ((of_clerk c (executed s)).*1) end.
  2: { unfold of_clerk. induction (executed s) as [|[req v] l IH]; [done|]. rewrite fmap_cons, !filter_cons. simpl.
    case_decide; [|done]. rewrite fmap_cons. f_equal. exact IH. }
  destruct (clerks s !! c) as [cs|] eqn:Hcs; [|destruct (inv_none _ Hinv _ Hcs) as [-> _]; apply NoDup_nil_2].
  pose proof (inv_clerk _ Hinv _ _ Hcs) as Hok. apply NoDup_alt. intros a b req Ha Hb.
  assert (∃ l, (completed cs).*1 ++ waiting cs = (of_clerk c (executed s)).*1 ++ l) as [l E].
  { destruct (co_executed _ _ _ Hok) as [->|(req' & v' & Hp & ->)]; [by eexists|]. exists []. unfold waiting.
    by rewrite Hp, fmap_app, app_nil_r. }
  destruct (co_issued _ _ _ Hok a req) as [_ Hna]; [rewrite E; by apply lookup_app_l_Some|].
  destruct (co_issued _ _ _ Hok b req) as [_ Hnb]; [rewrite E; by apply lookup_app_l_Some|]. lia.
Qed.

Lemma lin_write w lin W req v : linear w lin W → inl (req, v) ∈ lin → (req, v) ∈ executed (sys w).
Proof. intros Hl Hin. rewrite <-(li_writes _ _ _ Hl). apply list_elem_of_omap. by exists (inl (req, v)). Qed.

Lemma call_not_later w lin W x t : linear w lin W → x ∈ lin → called w W x t → t ≤ now w.
Proof.
  intros Hl Hx. destruct x as [[req v]|op]; simpl.
  - intros [(op & Hop & <-)|(c & cs & Hcs & Hp & Ht)].
    + destruct (li_done _ _ _ Hl _ _ Hop) as (c & t0 & t1 & v' & -> & _ & ?). simpl. lia.
    + destruct (li_start _ _ _ Hl _ _ _ Hcs Hp) as (t' & Ht' & ?). congruence.
  - intros <-. apply (li_read _ _ _ Hl) in Hx. lia.
Qed.

Lemma linear_start : linear world_start [] [].
Proof.
  pose proof (kvsrv_inv start reach_start) as Hinv.
  split; simpl; try done; try (by constructor); intros *; try (by intros ?%elem_of_nil); by intros _ ?%elem_of_nil.
Qed.

(** Time passes. *)
Lemma linear_tick w lin W (d : nat) :
  linear w lin W →
  linear (mkWorld (sys w) (starts w) (reading w) (calls w) (values w) (made w) (now w + Z.of_nat d) (history w)) lin W.
Proof.
  intros []. split; simpl; try done.
  - intros req op Hop. destruct (li_done0 _ _ Hop) as (c & t0 & t1 & v & -> & ? & ?). exists c, t0, t1, v. split_and!; [done|done|lia..].
  - intros op Hop%li_read0. lia.
  - intros c cs req Hcs Hp. destruct (li_start0 _ _ _ Hcs Hp) as (t0 & ? & ?). exists t0. split; [done|lia].
  - intros c no args t0 Hr. destruct (li_reading0 _ _ _ _ Hr). split; [lia|done].
Qed.

(** Clerks change, and nothing else: the calls of what was executed stay. *)
Lemma linear_clerks w lin W s' starts' :
  linear w lin W → inv s' → executed s' = executed (sys w) →
  (∀ c cs' req, clerks s' !! c = Some cs' → req ∈ (completed cs').*1 → req ∈ W.*1) →
  (∀ c cs, clerks (sys w) !! c = Some cs → ∃ cs', clerks s' !! c = Some cs' ∧ completed cs' = completed cs) →
  (∀ c cs' req, clerks s' !! c = Some cs' → pending cs' = Some req →
     (∃ t0, starts' !! c = Some t0 ∧ t0 ≤ now w) ∧
     ((∃ cs, clerks (sys w) !! c = Some cs ∧ pending cs = Some req ∧ starts' !! c = starts w !! c) ∨ req ∉ (executed (sys w)).*1)) →
  linear (mkWorld s' starts' (reading w) (calls w) (values w) (made w) (now w) (history w)) lin W.
Proof.
  intros Hl Hinv He Hcomp Hkeep Hpend. pose proof Hl as []. split; simpl; rewrite ?He; try done.
  - intros req (cs & Hcs & Hin)%li_noted0. destruct (Hkeep _ _ Hcs) as (cs' & ? & E). exists cs'. by rewrite E.
  - intros c cs' req Hcs Hp. by apply (Hpend c cs' req).
  - eapply StronglySorted_impl_in; [|exact li_order0]. intros x y Hx Hy Hxy tx ty Hc. apply Hxy.
    destruct x as [[req v]|op]; [|done]. destruct Hc as [?|(c & cs' & Hcs & Hp & Ht)]; [by left|right].
    destruct (Hpend _ _ _ Hcs Hp) as [_ [(cs & ? & ? & E)|Hn]]; [exists c, cs; simpl in *; by rewrite <-E|].
    destruct Hn. apply (lin_write _ _ _ _ _ Hl) in Hx. by apply (list_elem_of_fmap_2 fst) in Hx.
Qed.

(** A request is executed. *)
Lemma linear_execute w lin W req v s' :
  linear w lin W → inv s' → executed s' = executed (sys w) ++ [(req, v)] → clerks s' = clerks (sys w) →
  (req ∉ W.*1) →
  linear (mkWorld s' (starts w) (reading w) (calls w) (values w) (made w) (now w) (history w)) (lin ++ [inl (req, v)]) W.
Proof.
  intros Hl Hinv He Hc Hnew. pose proof Hl as []. split; simpl; rewrite ?He, ?Hc; try done.
  - by rewrite omap_app, li_writes0.
  - apply explains_app. split; [done|]. simpl. split; [|done]. unfold after. rewrite li_writes0.
    pose proof (inv_answers _ Hinv) as Ha. rewrite He, fmap_app in Ha. simpl in Ha. rewrite answers_app in Ha.
    apply app_inj_2 in Ha as [_ [= Ha]]; done.
  - by rewrite li_history0, omap_app, app_nil_r.
  - intros r op Hop. destruct (li_done0 _ _ Hop) as (c & t0 & t1 & v' & ? & ? & ?). exists c, t0, t1, v'.
    split_and!; [done|apply elem_of_app; by left|lia..].
  - intros op [?|[=]%list_elem_of_singleton]%elem_of_app. by apply li_read0.
  - intros no reply Hv. destruct (li_value0 _ _ Hv) as [? Hk]. split; [done|]. intros c args t0 Hr.
    destruct (Hk _ _ _ Hr) as (k & Hlen & Hval & Hback). exists k. rewrite length_app. split_and!; [lia| |].
    + by rewrite take_app_le by lia.
    + rewrite cut_write by (by rewrite li_writes0). intros y t [?| ->%list_elem_of_singleton]%elem_of_app; [by apply Hback|].
      intros (op & Hop & _). by apply (list_elem_of_fmap_2 fst) in Hop.
  - apply StronglySorted_app_2; [| |by repeat constructor].
    2: { eapply StronglySorted_impl_in; [|exact li_order0]. intros x y _ _ Hxy tx ty Hcx. apply Hxy.
      destruct x as [[r v']|op]; [|done]. simpl in Hcx. by rewrite Hc in Hcx. }
    intros x y Hx ->%list_elem_of_singleton tx ty _ (op & Hop & _). by apply (list_elem_of_fmap_2 fst) in Hop.
Qed.

Lemma linear_deliver w lin W req kv reply :
  linear w lin W → req ∈ requests (sys w) → serve (server (sys w)) req = (kv, reply) →
  ∃ lin', linear (mkWorld (mkSystem kv (clerks (sys w)) (requests (sys w)) ((req, reply) :: replies (sys w))
      (executed (sys w) ++ valid_result req reply)) (starts w) (reading w) (calls w) (values w) (made w) (now w) (history w)) lin' W.
Proof.
  intros Hl Hreq Hserve. pose proof (kvsrv_deliver_inv _ _ _ _ (li_inv _ _ _ Hl) Hreq Hserve) as Hinv.
  unfold valid_result in *. destruct (Vaild_op reply).
  - exists (lin ++ [inl (req, Clerk_result req.1 (pr_Value reply))]). eapply linear_execute; [done|done|done|done|].
    intros ([r op] & -> & Hop)%list_elem_of_fmap. destruct (li_done _ _ _ Hl _ _ Hop) as (_ & _ & _ & v & _ & Hv & _).
    pose proof (executed_distinct _ Hinv) as Hnd. simpl in Hnd. rewrite fmap_app in Hnd.
    apply NoDup_app in Hnd as (_ & Hnd & _). apply (list_elem_of_fmap_2 fst) in Hv. apply (Hnd _ Hv). by left.
  - exists lin. rewrite app_nil_r in *. eapply linear_clerks; [done|done|done| | |]; simpl.
    + apply (li_completed _ _ _ Hl).
    + intros c cs Hcs. by exists cs.
    + intros c cs r Hcs Hp. split; [by eapply li_start|]. left. by exists cs.
Qed.

Lemma linear_return w lin W c cs req reply ck' v t0 :
  linear w lin W → clerks (sys w) !! c = Some cs → pending cs = Some req → (req, reply) ∈ replies (sys w) →
  PutAppend_return (ck cs) reply = (ck', v) → starts w !! c = Some t0 →
  let op := write_operation c req t0 (Clerk_result req.1 v) (now w) in
  linear (mkWorld (mkSystem (server (sys w))
      (<[c := mkClerkState ck' (completed cs ++ [(req, Clerk_result req.1 v)]) None]> (clerks (sys w)))
      (requests (sys w)) (replies (sys w)) (executed (sys w)))
    (starts w) (reading w) (calls w) (values w) (made w) (now w) (history w ++ [op])) lin (W ++ [(req, op)]).
Proof.
  intros Hl Hcs Hp Hrep Hret Ht op. pose proof Hl as []. pose proof Hret as [= <- <-].
  pose proof (return_inv _ _ _ _ _ _ _ li_inv0 Hcs Hp Hrep Hret) as Hinv. simpl in Hinv.
  assert (ClerkId req.2 = c) as Hid.
  { destruct (issued_index (sys w) c cs req (inv_clerk _ li_inv0 _ _ Hcs)) as [? _]; [|done].
    unfold waiting. rewrite Hp. apply elem_of_app. right. by left. }
  assert ((req, Clerk_result req.1 (pr_Value reply)) ∈ executed (sys w)) as Hex.
  { pose proof (inv_reply _ li_inv0 req reply cs Hrep) as Hin. rewrite Hid in Hin.
    by apply Hin in Hp as [_ ?]%list_elem_of_filter. }
  assert (req ∉ W.*1) as Hnew.
  { intros (cs' & Hcs' & Hin)%li_noted0. rewrite Hid, Hcs in Hcs'. injection Hcs' as <-.
    by destruct (completed_not_pending _ _ _ _ li_inv0 Hcs Hin) as (_ & ? & _). }
  destruct (li_start0 _ _ _ Hcs Hp) as (t0' & Ht' & Hnow). rewrite Ht in Ht'. injection Ht' as <-.
  split; simpl; try done.
  - rewrite li_history0, fmap_app. simpl. rewrite <-!(assoc (++)). apply Permutation_app_head. apply Permutation_app_comm.
  - intros r op' [Hop|[= -> ->]%list_elem_of_singleton]%elem_of_app; [by apply li_done0|].
    exists c, t0, (now w), (Clerk_result req.1 (pr_Value reply)). split_and!; [done|done|lia..].
  - intros c' cs' r [[<- <-]|[_ Hcs']]%lookup_insert_Some; rewrite fmap_app; simpl.
    + rewrite fmap_app. intros [Hr| ->%list_elem_of_singleton]%elem_of_app; apply elem_of_app; [left; by eapply li_completed0|right; by left].
    + intros Hr. apply elem_of_app. left. by eapply li_completed0.
  - intros r. rewrite fmap_app. simpl. intros [Hr| ->%list_elem_of_singleton]%elem_of_app.
    + destruct (li_noted0 _ Hr) as (cs' & Hcs' & Hin). destruct (decide (ClerkId r.2 = c)) as [E|].
      * eexists. rewrite E, lookup_insert_eq. split; [done|]. simpl. rewrite fmap_app. apply elem_of_app. left.
        rewrite E, Hcs in Hcs'. by injection Hcs' as <-.
      * exists cs'. by rewrite lookup_insert_ne.
    + eexists. rewrite Hid, lookup_insert_eq. split; [done|]. simpl. rewrite fmap_app. apply elem_of_app. right. by left.
  - rewrite fmap_app. apply NoDup_app. split_and!; [done| |apply NoDup_singleton]. by intros r Hr ->%list_elem_of_singleton.
  - intros c' cs' r [[<- <-]|[_ ?]]%lookup_insert_Some; [done|]. by apply li_start0.
  - intros no rep Hv. destruct (li_value0 _ _ Hv) as [? Hk]. split; [done|]. intros c' args t1 Hr.
    destruct (Hk _ _ _ Hr) as (k & ? & ? & Hback). exists k. split_and!; [done|done|]. intros y t Hy Hrt.
    destruct (li_reading0 _ _ _ _ Hr) as [? _].
    destruct y as [[r v]|op']; [|by apply (Hback _ _ Hy)].
    destruct Hrt as (op' & [Hop|[= -> ->]%list_elem_of_singleton]%elem_of_app & <-); [apply (Hback _ _ Hy); by exists op'|done].
  - eapply StronglySorted_impl_in; [|exact li_order0]. intros x y Hx Hy Hxy tx ty Hc Hr.
    assert (called w W x tx) as Hc'.
    { destruct x as [[r v]|op']; [|done]. destruct Hc as [(op' & [Hop|[= -> ->]%list_elem_of_singleton]%elem_of_app & <-)|(c' & cs' & Hcs' & Hp' & Ht')].
      - left. by exists op'.
      - right. by exists c, cs.
      - simpl in Hcs'. apply lookup_insert_Some in Hcs' as [[_ <-]|[_ ?]]; [done|]. right. by exists c', cs'. }
    destruct y as [[r v]|op']; [|by apply Hxy]. destruct Hr as (op' & [Hop|[= -> ->]%list_elem_of_singleton]%elem_of_app & <-).
    + apply Hxy; [done|]. by exists op'.
    + exact (call_not_later _ _ _ _ _ Hl Hx Hc').
Qed.

(** A clerk begins to read. *)
Lemma linear_get w lin W c args :
  linear w lin W → reading w !! c = None →
  linear (mkWorld (sys w) (starts w) (<[c := (made w, args, now w)]> (reading w)) ((made w, args) :: calls w)
            (values w) (made w + 1) (now w) (history w)) lin W.
Proof.
  intros Hl Hc. pose proof Hl as []. split; simpl; try done.
  - intros c' no args' t0 [[<- [= <- <- <-]]|[_ Hr]]%lookup_insert_Some; [split; [done|by left]|].
    destruct (li_reading0 _ _ _ _ Hr). split; [done|by right].
  - intros c1 c2 no a1 t1 a2 t2 [[<- [= <- <- <-]]|[_ H1]]%lookup_insert_Some [[<- E]|[_ H2]]%lookup_insert_Some; [done|..].
    + apply li_reading0 in H2 as [_ H2]. apply (li_call0 _ _ args) in H2 as [? _]. lia.
    + injection E as <- <- <-. apply li_reading0 in H1 as [_ H1]. apply (li_call0 _ _ args) in H1 as [? _]. lia.
    + by eapply li_reader0.
  - intros no a1 a2 [[= -> ->]|H1]%elem_of_cons.
    + split; [lia|]. intros [[= ->]|H2]%elem_of_cons; [done|]. apply (li_call0 _ _ args) in H2 as [? _]. lia.
    + destruct (li_call0 _ _ a2 H1) as [? Hf]. split; [lia|]. intros [[= -> ->]|H2]%elem_of_cons; [lia|by apply Hf].
  - intros no reply Hv. destruct (li_value0 _ _ Hv) as [? Hk]. split; [lia|].
    intros c' a t0 [[<- [= <- <- <-]]|[_ Hr]]%lookup_insert_Some; [lia|by apply (Hk c')].
Qed.

(** The server answers a read. *)
Lemma linear_read w lin W no args :
  linear w lin W → (no, args) ∈ calls w →
  linear (mkWorld (sys w) (starts w) (reading w) (calls w) ((no, Get (server (sys w)) args) :: values w)
            (made w) (now w) (history w)) lin W.
Proof.
  intros Hl Hcall. pose proof Hl as []. split; simpl; try done.
  intros no' reply [[= -> ->]|Hv]%elem_of_cons; [|by apply li_value0].
  destruct (li_call0 _ _ args Hcall) as [? _]. split; [done|]. intros c args' t0 Hr.
  destruct (li_reading0 _ _ _ _ Hr) as [_ Hcall']. destruct (li_call0 _ _ args' Hcall) as [_ Hf].
  rewrite <-(Hf Hcall'). exists (length (executed (sys w))). split_and!; [done| |].
  - rewrite take_ge by done. rewrite <-(inv_map _ li_inv0). unfold Get, sget. by destruct (map_ _ !! _).
  - rewrite cut_past by (by rewrite li_writes0). by intros y t ?%elem_of_nil.
Qed.

(** The read returns. *)
Lemma linear_got w lin W c no args t0 reply :
  linear w lin W → reading w !! c = Some (no, args, t0) → (no, reply) ∈ values w →
  ∃ lin', linear (mkWorld (sys w) (starts w) (delete c (reading w)) (calls w) (values w) (made w) (now w)
    (history w ++ [read_operation c args t0 reply (now w)])) lin' W.
Proof.
  intros Hl Hr Hv. pose proof Hl as []. destruct (li_value0 _ _ Hv) as [Hno Hk].
  destruct (Hk _ _ _ Hr) as (k & Hlen & Hval & Hback). destruct (li_reading0 _ _ _ _ Hr) as [Ht _].
  set (op := read_operation c args t0 reply (now w)). exists (insert_read k op lin).
  assert (∀ y, y ∈ insert_read k op lin → y = inr op ∨ y ∈ lin) as Hin.
  { intros y. unfold insert_read. rewrite <-(cut_app k lin) at 3. rewrite !elem_of_app, elem_of_cons. tauto. }
  split; simpl; try done.
  - by rewrite insert_read_writes.
  - eapply insert_read_explains; [done|done|]. simpl. rewrite li_writes0. by rewrite Hval.
  - rewrite insert_read_reads, li_history0. rewrite <-(assoc (++)). apply Permutation_app_head. symmetry. apply Permutation_cons_append.
  - intros op' [[= ->]|?]%Hin; [simpl; lia|by apply li_read0].
  - intros c' no' args' t1 [_ Hr']%lookup_delete_Some. by apply (li_reading0 c').
  - intros c1 c2 no' a1 t1 a2 t2 [_ H1]%lookup_delete_Some [_ H2]%lookup_delete_Some. by eapply li_reader0.
  - intros no' reply' Hv'. destruct (li_value0 _ _ Hv') as [? Hk']. split; [done|]. intros c' args' t1 [_ Hr']%lookup_delete_Some.
    destruct (Hk' _ _ _ Hr') as (k' & ? & ? & Hback'). exists k'. split_and!; [done|done|].
    intros y t [->|Hy]%cut_insert_read Hret; [|by eapply Hback'].
    simpl in Hret. subst t. by destruct (li_reading0 _ _ _ _ Hr').
  - unfold insert_read. pose proof li_order0 as Hord. rewrite <-(cut_app k lin) in Hord.
    apply StronglySorted_app in Hord as (Hcross & H1 & H2).
    assert (∀ y, y ∈ (cut k lin).1 ∨ y ∈ (cut k lin).2 → y ∈ lin) as Hsub.
    { intros y Hy. rewrite <-(cut_app k lin). by apply elem_of_app. }
    apply StronglySorted_app_2; [|done|apply StronglySorted_cons; split; [|done]].
    + intros x y Hx [->|Hy]%elem_of_cons; [|by apply Hcross].
      intros tx ty Hcx <-. simpl. eapply (call_not_later w lin W x); [done|by apply Hsub; left|done].
    + apply Forall_forall. intros y Hy tx ty <- Hret. simpl. by eapply Hback.
Qed.

Lemma wstep_linear w w' lin W : linear w lin W → wstep w w' → ∃ lin' W', linear w' lin' W'.
Proof.
  intros Hl Hst. pose proof (li_inv _ _ _ Hl) as Hinv.
  destruct Hst as [d|c Hc|c cs m key value Hcs Hp Hr|req kv reply Hreq Hserve|c cs req reply ck' v t0 Hcs Hp Hrep Hret Ht
    |c cs key Hcs Hp Hr|no args Hcall|c no args t0 reply Hr Hv].
  - exists lin, W. by apply linear_tick.
  - exists lin, W. eapply linear_clerks; [done|by apply make_inv|done| | |]; simpl.
    + intros c' cs' r0 [[<- <-]|[_ ?]]%lookup_insert_Some; [by intros ?%elem_of_nil|by eapply li_completed].
    + intros c' cs' Hcs'. exists cs'. rewrite lookup_insert_ne by congruence. done.
    + intros c' cs' r0 [[<- <-]|[_ Hcs']]%lookup_insert_Some Hp; [done|]. split; [by eapply li_start|]. left. by exists cs'.
  - exists lin, W. eapply linear_clerks; [done|by apply call_inv|done| | |]; simpl.
    + intros c' cs' r0 [[<- <-]|[_ ?]]%lookup_insert_Some; simpl; by eapply li_completed.
    + intros c' cs' Hcs'. destruct (decide (c' = c)) as [->|]; [|exists cs'; by rewrite lookup_insert_ne].
      eexists. rewrite lookup_insert_eq. split; [done|]. rewrite Hcs in Hcs'. by injection Hcs' as <-.
    + intros c' cs' r0 [[<- <-]|[Hne Hcs']]%lookup_insert_Some Hp'; simpl in *.
      * injection Hp' as <-. split; [exists (now w); by rewrite lookup_insert_eq|right].
        intros ([r v] & E & Hv)%list_elem_of_fmap. simpl in E. subst r.
        destruct (executed_issued _ _ _ Hinv Hv) as (cs1 & Hcs1 & Hin). pose proof (inv_clerk _ Hinv _ _ Hcs) as Hok.
        simpl in Hcs1. rewrite (co_id _ _ _ Hok), Hcs in Hcs1. injection Hcs1 as <-.
        unfold waiting in Hin. rewrite Hp, app_nil_r in Hin.
        destruct (completed_not_pending _ _ _ _ Hinv Hcs Hin) as (_ & _ & Hlt). simpl in Hlt. lia.
      * rewrite lookup_insert_ne by done. split; [by eapply li_start|]. left. by exists cs'.
  - destruct (linear_deliver w lin W req kv reply Hl Hreq Hserve) as (lin' & ?). by exists lin', W.
  - eexists lin, _. by eapply linear_return.
  - exists lin, W. by apply linear_get.
  - exists lin, W. by apply linear_read.
  - destruct (linear_got w lin W c no args t0 reply Hl Hr Hv) as (lin' & ?). by exists lin', W.
Qed.

Lemma world_linear w : world_reachable w → ∃ lin W, linear w lin W.
Proof.
  induction 1 as [|w w' _ (lin & W & IH) Hst]; [exists [], []; apply linear_start|by eapply wstep_linear].
Qed.

(** ** The history *)

(** An item as an operation of the history. *)
Definition shown W x (h : Operation kvvalue) : Prop :=
  match x with inl (req, _) => (req, h) ∈ W | inr op => h = op end.

Lemma shown_split W lin l :
  Forall2 (shown W) lin l →
  ∃ wl, l ≡ₚ wl.*2 ++ omap as_read lin ∧ wl.*1 = (omap as_write lin).*1 ∧ ∀ p, p ∈ wl → p ∈ W.
Proof.
  induction 1 as [|[[req v]|op] h lin l Hx _ (wl & Hp & Hw & Hin)]; csimpl.
  - exists []. split_and!; [done|done|by intros ? ?%elem_of_nil].
  - exists ((req, h) :: wl). csimpl. split_and!; [by rewrite Hp|by rewrite Hw|]. intros p [->|?]%elem_of_cons; auto.
  - simpl in Hx. subst h. exists wl. split_and!; [|done|done]. rewrite Hp. apply Permutation_middle.
Qed.

Lemma shown_legal W lin l m m' :
  (∀ req v op, inl (req, v) ∈ lin → (req, op) ∈ W → ∃ c t0 t1, op = write_operation c req t0 v t1) →
  same_store m m' → explains m lin → Forall2 (shown W) lin l → ∃ m1, legal_ops map_step m' l m1.
Proof.
  intros HW Hm He HF. revert m m' Hm He. induction HF as [|[[req v]|op] h lin l Hx HF IH]; intros m m' Hm He; [by exists m'|..].
  all: specialize (IH ltac:(intros; eapply HW; [by right|done])); cbn [legal_ops].
  - destruct He as [-> He]. destruct (HW req (answer m req) h) as (c & t0 & t1 & ->); [by left|done|].
    assert (∃ m1, map_step m' (Some (Input (write_operation c req t0 (answer m req) t1)))
      (Some (Output (write_operation c req t0 (answer m req) t1))) = Ret (true, m1) ∧ same_store (write m req) m1) as (m1 & Hst & Hm1).
    { pose proof (Hm (Key req.2)) as Hk. destruct req as [[] args]; unfold answer, write, sget in *; simpl in *; unfold kv_op; simpl.
      - eexists. split; [done|]. by apply same_store_insert.
      - rewrite <-Hk, bool_decide_true by done. eexists. split; [done|]. by apply same_store_insert. }
    destruct (IH _ _ Hm1 He) as (m2 & ?). exists m2, m1. by split.
  - simpl in Hx. subst h. destruct He as [(key & Hi & Ho) He]. pose proof (Hm key) as Hk.
    destruct (IH m (<[key := default "" (m' !! key)]> m')) as (m2 & ?); [by apply same_store_read|done|].
    exists m2. eexists. split; [|done]. rewrite Hi, Ho. unfold sget. rewrite Hk. simpl. unfold kv_op. simpl.
    by rewrite bool_decide_true.
Qed.

Lemma linear_linearizable w lin W : linear w lin W → quiescent w → kv_linearizable (history w).
Proof.
  intros Hl [Hidle _]. pose proof Hl as [].
  assert (∀ req v, inl (req, v) ∈ lin → req ∈ W.*1) as Hdone.
  { intros req v Hin%(lin_write _ _ _ _ _ Hl). destruct (executed_issued _ _ _ li_inv0 Hin) as (cs & Hcs & Hiss).
    unfold waiting in Hiss. rewrite (Hidle _ _ Hcs), app_nil_r in Hiss. by eapply li_completed0. }
  assert (∃ l, Forall2 (shown W) lin l) as [l HF].
  { clear -Hdone. induction lin as [|[[req v]|op] lin IH]; [by exists []|..].
    - destruct IH as [l ?]; [intros; eapply Hdone; by right|].
      assert (req ∈ W.*1) as ([r h] & -> & ?)%list_elem_of_fmap by (eapply (Hdone req v); by left). exists (h :: l). by constructor.
    - destruct IH as [l ?]; [intros; eapply Hdone; by right|]. exists (op :: l). by constructor. }
  destruct (shown_split _ _ _ HF) as (wl & Hp & Hw & Hsub). rewrite li_writes0 in Hw.
  destruct (shown_legal W lin l ∅ ∅) as (m1 & Hlegal); [|done|done|done|].
  { intros req v op Hin Hop. destruct (li_done0 _ _ Hop) as (c & t0 & t1 & v' & -> & Hv' & _). exists c, t0, t1.
    apply (lin_write _ _ _ _ _ Hl) in Hin. by rewrite (keyed_functional _ _ _ _ (executed_distinct _ li_inv0) Hin Hv'). }
  apply linearizable_ops. exists l, m1. split_and!; [| |exact Hlegal].
  - rewrite Hp, li_history0. apply Permutation_app_tail, fmap_Permutation, keyed_perm; [rewrite Hw; by apply executed_distinct|done|done|].
    intros req ([r op] & -> & Hop)%list_elem_of_fmap. rewrite Hw.
    destruct (li_done0 _ _ Hop) as (_ & _ & _ & v & _ & Hv & _). by apply (list_elem_of_fmap_2 fst) in Hv.
  - apply StronglySorted_lookup. intros a b h1 h2 Ha Hb Hab.
    destruct (Forall2_lookup_r _ _ _ _ _ HF Ha) as (x & Hx & Sx), (Forall2_lookup_r _ _ _ _ _ HF Hb) as (y & Hy & Sy).
    apply (proj1 (StronglySorted_lookup _ _) li_order0 a b x y Hx Hy Hab).
    + destruct x as [[req v]|op]; simpl in *; [left; by exists h1|by subst].
    + destruct y as [[req v]|op]; simpl in *; [by exists h2|by subst].
Qed.

Lemma linear_history w lin W : linear w lin W → typed (history w) ∧ timed (history w).
Proof.
  intros Hl. pose proof Hl as [].
  assert (∀ h, h ∈ history w → (∃ req, (req, h) ∈ W) ∨ inr h ∈ lin) as Hin.
  { intros h. rewrite li_history0. intros [([req h'] & -> & ?)%list_elem_of_fmap|(x & Hx & Ex)%list_elem_of_omap]%elem_of_app.
    - left. by exists req.
    - right. destruct x; simplify_eq/=. done. }
  split; intros h [(req & Hh)|Hh]%Hin.
  - destruct (li_done0 _ _ Hh) as (c & t0 & t1 & v & -> & _). split; by eexists.
  - apply list_elem_of_split in Hh as (l1 & l2 & ->). apply explains_app in li_explains0 as [_ [(key & -> & ->) _]]. split; by eexists.
  - destruct (li_done0 _ _ Hh) as (c & t0 & t1 & v & -> & _ & ?). simpl. lia.
  - by apply li_read0 in Hh as [? _].
Qed.

(** C18. Linearizability of kvsrv: clerks read, put and append over a network that loses,
    delays and repeats requests and answers.  When no call is going on, the history is
    linearizable as a key-value store whose appends return the value before them, and if
    it is not empty and has fewer than 2^62 operations, [CheckOperations(KvModel,
    history)] returns true on it, in whatever order the partitions are checked. *)
Theorem kvsrv_linearizable {ranges : MapRange} {sorts : EntrySort} `{!Sprint kvvalue, !Sprint string} w :
  world_reachable w → quiescent w →
  kv_linearizable (history w) ∧
  ∀ (fuel : nat) (π : list nat) late parts,
    history w ≠ [] → 2 * len (history w) < 2 ^ 63 → (search_fuel (2 * length (history w)) ≤ fuel)%nat →
    kv_Partition (history w) = Ret parts → π ≡ₚ seq 0 (length parts) →
    CheckOperations fuel (Porcupine.Result <$> π) late KvModel (history w) = Some (Ret true).
Proof.
  intros (lin & W & Hl)%world_linear Hq. pose proof (linear_linearizable _ _ _ Hl Hq) as Hlin. split; [done|].
  intros fuel π late parts Hne Hlen Hf Hparts Hπ. destruct (linear_history _ _ _ Hl) as [Hty Hti].
  destruct (check_kv fuel π late (history w) parts) as (b & -> & Hb); [done..|]. by rewrite (proj2 Hb Hlin).
Qed.

(** ** A concrete run: an append whose request is delivered twice, and a read *)

Section example.
#[local] Existing Instance range_default.
#[local] Existing Instance sort_default.
#[local] Instance srv_sprint_value : Sprint kvvalue := λ _, "".
#[local] Instance srv_sprint_state : Sprint string := λ s, s.

Definition read_args : GetArgs := mkGetArgs "x" 5.
Definition appended : Operation kvvalue := write_operation 5 append_req 0 "" 1.
Definition got : Operation kvvalue := read_operation 5 read_args 1 (mkGetReply "1") 1.

Definition lworld1 : World := mkWorld run1 ∅ ∅ [] [] 0 0 [].
Definition lworld2 : World := mkWorld run2 {[ 5 := 0 ]} ∅ [] [] 0 0 [].
Definition lworld3 : World := mkWorld run3 {[ 5 := 0 ]} ∅ [] [] 0 0 [].
Definition lworld4 : World := mkWorld run4 {[ 5 := 0 ]} ∅ [] [] 0 0 [].
Definition lworld5 : World := mkWorld run4 {[ 5 := 0 ]} ∅ [] [] 0 1 [].
Definition lworld6 : World := mkWorld run_end {[ 5 := 0 ]} ∅ [] [] 0 1 [appended].
Definition lworld7 : World := mkWorld run_end {[ 5 := 0 ]} {[ 5 := (0, read_args, 1) ]} [(0, read_args)] [] 1 1 [appended].
Definition lworld8 : World :=
  mkWorld run_end {[ 5 := 0 ]} {[ 5 := (0, read_args, 1) ]} [(0, read_args)] [(0, mkGetReply "1")] 1 1 [appended].
Definition lworld9 : World := mkWorld run_end {[ 5 := 0 ]} ∅ [(0, read_args)] [(0, mkGetReply "1")] 1 1 [appended; got].

Lemma lworld9_reachable : world_reachable lworld9.
Proof.
  assert (world_reachable lworld1) as H1 by exact (world_reach_step _ _ world_reach_start (w_make world_start 5 eq_refl)).
  assert (world_reachable lworld2) as H2
    by exact (world_reach_step _ _ H1 (w_call lworld1 5 idle MAppend "x" "1" eq_refl eq_refl eq_refl)).
  assert (world_reachable lworld3) as H3 by exact (world_reach_step _ _ H2 (w_deliver lworld2 append_req _ _ ltac:(by left) eq_refl)).
  assert (world_reachable lworld4) as H4 by exact (world_reach_step _ _ H3 (w_deliver lworld3 append_req _ _ ltac:(by left) eq_refl)).
  assert (world_reachable lworld5) as H5 by exact (world_reach_step _ _ H4 (w_tick lworld4 1)).
  assert (world_reachable lworld6) as H6 by exact (world_reach_step _ _ H5
    (w_return lworld5 5 busy append_req (mkPutAppendReply "" false) _ _ 0 eq_refl eq_refl ltac:(by left) eq_refl eq_refl)).
  assert (world_reachable lworld7) as H7 by exact (world_reach_step _ _ H6
    (w_get lworld6 5 (mkClerkState (mkClerk 5 1) [(append_req, ""%string)] None) "x" eq_refl eq_refl eq_refl)).
  assert (world_reachable lworld8) as H8 by exact (world_reach_step _ _ H7 (w_read lworld7 0 read_args ltac:(by left))).
  exact (world_reach_step _ _ H8 (w_got lworld8 5 0 read_args 1 (mkGetReply "1") eq_refl ltac:(by left))).
Qed.

Lemma kvsrv_linearizable_witness :
  kv_linearizable [appended; got] ∧
  CheckOperations 100 (Porcupine.Result <$> [0%nat]) (λ _ _, true) KvModel [appended; got] = Some (Ret true).
Proof.
  assert (quiescent lworld9) as Hq.
  { split; [|done]. intros c cs Hcs. simpl in Hcs. by apply lookup_singleton_Some in Hcs as [_ <-]. }
  destruct (kvsrv_linearizable lworld9 lworld9_reachable Hq) as [Hl Hc]. split; [exact Hl|].
  apply (Hc 100%nat [0%nat] (λ _ _, true) [[appended; got]]); [done|done|vm_compute; lia|reflexivity|reflexivity].
Defined.
End example.
